(* ===== verification/_CoqProject ===== *)
-Q . S2P
Prelude.v
RStr.v
F64.v
F64Round.v
DurationF64.v
Message.v
Budget.v
Estimator.v
Compaction.v
Summary.v
ContextManager.v
Lifecycle.v
SandboxCounter.v
HostPath.v
LocalPolicy.v
Launcher.v
HookPoint.v
ToolCall.v
Prompt.v
Stream.v
ToolOutput.v
LoopState.v
LlmTurn.v
ToolExec.v
AgentLoop.v
LoopFacts.v
Redaction.v
LoopRun.v
ToolPairs.v
UrlFallback.v
RetryPolicy.v
ProviderWrapper.v
Utf8.v
Wire.v
SseStream.v
Coordinator.v
CoordRun.v
SessionLease.v
SessionActor.v
SessionStore.v
SessionService.v
Runtimes.v
RuntimeRuns.v
Subagent.v
SubagentRun.v
SubagentJoins.v
DenialText.v
Free.v
PermissionBackend.v
PermissionRuns.v
PermissionSafety.v
BackendRegistry.v
BackendData.v
BackendManager.v
BackendRuns.v
BackendFacts.v
BackendSpecs.v
BackendSafety.v
RateGate.v
RateBucket.v
RateSafety.v
FileEdit.v
FileRead.v
FileTools.v
FileRuns.v
