(* ===== verification/Prelude.v ===== *)
(** * A verification library for xiaoO

    xiaoO is a coding agent: a daemon and a terminal client run an agent loop
    that talks to a language model, keeps the conversation within the model's
    context window, and lets the model act on a machine through an operation
    backend (local or remote) under an isolation policy. This library models the
    parts of the Rust code under src/ that decide whether that is done right, and
    proves them right. The sources are named below without the src/ prefix.

    ** Parts and files

    - [Prelude]: Rust results and the question mark, machine words, tactics and
      shared list lemmas. [RStr]: Rust strings as lists of code points and the
      string methods the sources call. [F64]: IEEE binary64 as the kernel's
      [SpecFloat], with the operations the sources use; [F64Round]: the rounding
      error of each of them, over the rationals; [DurationF64]: durations to and
      from floating point.
    - [Message]: crates/agent-types/src/llm and crates/agent-llm: roles, content
      blocks, messages, requests and responses.
    - [Budget]: crates/compact/src/policy.rs (budget, thresholds, severity), the
      budget trait of crates/agent-contracts, the max_tokens gate of
      crates/agent-types/src/context/budget and its callers in the daemon
      (apps/serverside/src/daemon_runtime.rs) and the terminal client.
    - [Estimator]: crates/compact/src/estimator.rs and, in [LoopEstimator],
      crates/core/src/token_estimator.rs with its once-only caches as state.
    - [Compaction]: crates/compact/src/compaction.rs: which messages may be
      replaced by a summary.
    - [Summary]: crates/compact/src/summary.rs: building the summary.
    - [ContextManager]: crates/compact/src/manager.rs, envelope.rs,
      passthrough.rs and defaults.rs: the pipeline that puts these together.
    - [Lifecycle]: the state machine of crates/agent-contracts/src/backend/
      lifecycle.rs that every backend goes through.
    - [SandboxCounter]: apps/shared/src/backend/sandbox_counter.rs: the limit on
      live sandboxes per key, in a file shared by processes.
    - [HostPath], [LocalPolicy], [Launcher]: crates/operation_backend/src/
      backends/local: paths (backend.rs, path.rs), the isolation policy with its
      grants (policy.rs), and the sandbox profiles and commands (policy.rs,
      spawn_wrapper.rs, exec/command_spec.rs, the start of exec/mod.rs).
    - [HookPoint]: crates/hook: hook points, their matching, the registry of
      hookers and its builder. [ToolCall]: crates/tool/src/framework/call and
      the tool filter: building a tool call and executing it with its hooks,
      its lifecycle records and its events.
    - [Prompt]: crates/prompt: the request of a turn. [Stream]: the display of
      a streamed answer with secrets redacted (crates/core/src/agent_loop.rs).
      [ToolOutput]: the pure parts of crates/core/src/tool_exec.rs (repair and
      validation of calls, truncation, streaks) and the pruning of old output.
    - [LoopState], [LlmTurn], [ToolExec], [AgentLoop]: the agent loop of
      crates/core/src (loop_state.rs, kvcache.rs, input.rs, snapshot.rs,
      suspend.rs, agent_loop.rs, tool_exec.rs): its state, the model's part of a
      turn, the tools' part, and [run_agent_loop].
    - [LoopFacts]: frame rules: a relation kept by the primitive steps of the
      loop is kept by its operations. [LoopRun], [ToolPairs] and [Redaction]: the
      theorems about runs, the tool phase and what a call of the provider shows.

    - [UrlFallback], [RetryPolicy], [ProviderWrapper]: crates/llm-client/src
      (url_fallback.rs, request_policy.rs, factory/wrapper.rs): the endpoints
      tried, the classes of errors, the retry policies, and a provider call with
      its hooks, retries, cancellation and trace spans. [RateGate], [RateBucket],
      [RateSafety]: rate_limit.rs, the admission gate of a provider: the gate and
      its callers, the token bucket in floating point, and what holds of them.
    - [Utf8], [Wire], [SseStream]: crates/llm-client/src/providers/stream_utf8.rs,
      wire_types with convert.rs, and the streaming half of
      providers/openai_family.rs: decoding, the wire format, and the answer of a
      stream.
    - [Coordinator], [CoordRun]: crates/process-coordination: the queue that keeps
      writes and process creation apart, and its callers as an interleaving.
    - [SessionLease]: apps/shared/src/gateway/session_lease.rs, the lease checks
      of the service, the router and the actor, and the credential check of an
      opened session. [SessionActor]: session_handle.rs, the handle and the actor
      of one session with its command queue. [SessionStore]: session_store.rs,
      session_record.rs and apps/shared/src/runtime_checkpoint.rs.
      [SessionService], [Runtimes], [RuntimeRuns]: session_service_impl.rs and
      session_backend.rs: the cascading close, the reaper of orphans, and
      opening, checkpointing, forking, pausing and resuming a runtime.
    - [Subagent]: crates/subagent, the coordinator of sub-agents. [SubagentRun],
      [SubagentJoins]: its host, apps/shared/src/gateway/session_supervisor.rs,
      and the delivery of joins.
    - [Free]: programs over effects, the form of the operations whose tasks
      interleave. [DenialText], [PermissionBackend], [PermissionRuns],
      [PermissionSafety]: apps/shared/src/gateway/permission_backend.rs and
      crates/tool/src/invocation_context.rs: the layer over the local backend that
      asks the user for what the policy refuses, the paths it reads from the
      output of a command, tool calls that share a policy, and what holds of them.
    - [BackendRegistry], [BackendData], [BackendManager]: apps/shared/src/backend
      (backend_registry.rs, backend_manager.rs, base.rs, mod.rs, dirty_write.rs,
      the options of e2b/provider.rs) and the checkout of session_backend.rs: who
      owns which sandbox, the table of a process, and the operations of the
      manager. [BackendRuns]: processes and tasks that run them. [BackendFacts],
      [BackendSpecs], [BackendSafety]: what an operation does to the tables and
      the books, and what holds in every run.
    - [FileEdit], [FileRead], [FileTools], [FileRuns]: crates/tool/src/impl/builtin
      (file_edit, file_read, file_write): finding and replacing text, validating,
      windowing and paging reads, the three executors as programs over the backend
      and the store of what was read, and what a call and a run of calls do to a
      disk (crates/operation_backend/src/backends/local/filesystem.rs, its writes).

    A session of the gateway is opened under a lease ([SessionLease]), its turns
    pass through its actor ([SessionActor]), which runs the agent loop, and its
    records and checkpoints are kept by the stores ([SessionStore]) on which the
    service ([SessionService], [Runtimes]) works; a turn may start sub-agents and
    wait for them ([Subagent], [SubagentRun]).

    A run of [AgentLoop] is a sequence of turns. A turn takes pending messages,
    compresses, builds the request ([Prompt]), asks the provider and shows the
    answer ([Stream]), executes its tool calls ([ToolExec], each by [ToolCall]
    with the hookers of [HookPoint]) and decides. The provider it asks is a
    [ProviderWrapper], which calls an endpoint under a [RetryPolicy]; its requests
    pass the [RateGate] of the provider; a streamed
    answer is read by [SseStream], whose chunks [Stream] shows. The agent loop asks
    the [ContextManager] whether the history must be compacted ([Budget],
    [Estimator]), which selects messages ([Compaction]) and summarises them
    ([Summary]). Tools, the file tools ([FileTools]) among them, act through a
    backend, whose life is a run
    of [Lifecycle]; the backend of a session comes from the [BackendManager] of its
    process, which shares a [BackendRegistry] with the other processes and admits
    remote sandboxes by [SandboxCounter]; the local
    backend resolves paths with [HostPath], asks [LocalPolicy] for each operation
    and starts commands with [Launcher]; over it [PermissionBackend] asks the user
    when the policy refuses, and grants and revokes what was allowed.

    ** How the code is represented

    A function returning a Rust result returns [result]; an early return with the
    question mark is [let?]. Integers are [Z] in range; additions that can exceed
    the width are [Word.add], which wraps as the release profile does. Methods
    that change a struct return the new one; code that calls the outside is in
    the state monad [St.M] ([let!] and [let!?]), over a state that holds the
    outside as an opaque world and a log of what was done to it. A panic of the
    loop is the error [Panicked]. A shared file is a value passed to
    and returned by each operation; what system calls answer is an argument
    ([SandboxCounter.Env]) or a class ([LocalPolicy.FileSystem]). Code outside
    the repository is a parameter: the JSON library ([Message.JsonLib],
    [Summary.SummaryJson]), bubblewrap ([Launcher.Bubblewrap], with the documented
    meaning of its options in [BubblewrapLaws] and an instance in [DemoBwrap]), the
    random numbers and late timers of the client ([RetryPolicy.RetryWorld]), the model
    provider ([Summary.LlmProvider]), the key
    hash ([SandboxCounter.KeyHash]), the hookers, tools, lifecycle store and clock
    ([ToolCall.ToolRuntime]), the provider, cancellation, pending messages and
    chat hooks ([LoopState.LoopWorld]), the file system; [LocalPolicy.FileSystemLaws]
    states what its proofs need of [canonicalize], and [LocalPolicy.DemoFs] is a
    file system that meets it. Components meet at classes the way the code meets
    at traits: [Estimator.TokenEstimator] with [TextEstimatorLaws], which the
    summary theorems use and the rough estimator discharges,
    [Budget.TokenBudgetPolicy], [ContextManager.CompressionPipeline].

    Concurrent code is a function [fire] from a state and a label to the next
    state: a label is one step of one task between two points where it can be
    interrupted, and [reachable] is the closure of [fire]. In [CoordRun],
    [SessionActor] and [SubagentRun] tasks interleave at every lock and channel, in
    [SessionActor] also at every await of a handler;
    a handler of [SessionService] and [Runtimes] is one step. An operation of
    [BackendManager] or [PermissionBackend] is a program, a tree of the effects it awaits with a
    continuation each ([Free]), and any task of any process may run between two
    effects; a lock takes the table out of the world until it is released. Of a program
    of the manager [BackendFacts.safe] says that it keeps the books whatever the
    effects answer: it carries the sandboxes that are counted and not in a table,
    or the other way round, as a credit ([spec], [neutral]). Of a program of the
    permission layer [PermissionSafety.ok] says that it grants only what the events
    it knows of justify, and that it revokes what it owes.

    ** What is proved

    - Compaction never touches system messages, the first user message or the
      protected tail, never separates a kept tool result from its call or splits
      an assistant message, and replaces what it removes by a summary, in place;
      the whole pipeline inherits this.
    - Summaries stay within their token budget whatever the model answers, keep
      every distinct line, and can be read back; the two exceptions found are
      theorems too.
    - Budgets: the daemon's reserves fit in the window, severity grows with the
      context, the trait and the inherent methods agree.
    - The lifecycle machine cannot get stuck or cross operations, in every run.
    - The sandbox counter refines a pool with a limit, also when locks, reads and
      saves fail, so no run of any processes admits more than the limit.
    - Paths normalize to their lexical normal form and round trip; checks, grants
      and revocations are consistent in every state of a policy; under any
      bubblewrap that keeps its documented options the sandbox has exactly the
      rights the checks give; every command runs under its launcher unless the user
      bypassed it.
    - A tool runs only with the consent of every enabled pre-hooker, on the call
      they left, and leaves a trace of one protocol; the tool hook points are
      well formed for every agent id and tool name; only visible tools with
      their registered executor are built.
    - Every run of the loop with a turn limit returns, with at most four
      questions to the provider a turn; its account is the sum of the reported
      usages; between compressions the history only grows, and requests keep
      their prefix; the tool phase leaves exactly one result per executed call,
      in call order, for every order of execution; the last turn offers no
      tools; a run fails only with a reported error, and panics only when the
      history cannot be analysed under its budget.
    - A provider call returns after a run of its retry policy, within its budgets but
      for the lateness of timers, with every wait within the spread of its jitter;
      hooks see and change it in one fixed life cycle, do not run after a
      cancellation, cannot turn an answer into
      an error, and leave no trace span open; after retries the display shows the
      last attempt alone.
    - A streamed answer does not depend on how the network cuts it, its text is
      what was shown, its tool calls are assembled by index, and tool calls and
      texts survive the wire format.
    - Writers and spawners of processes never overlap, and every request that is
      not cancelled is served, however its callers interleave.
    - A live lease keeps other clients that name themselves out of a session through
      every entry point, and callers without an id when leases are enforced for them;
      the sharded table refines one cell per session. The actor runs
      turns one at a time and in order, also when turns panic, answers every command
      once, also when the session is closed, and always drains its queue.
    - A forced close ends the session and everything below it, leaves nothing of
      them behind and returns; the reaper spares
      sessions that are held or in use; runtimes and checkpoints stay consistent
      in every run; what is paused and resumed is what was there before.
    - Sub-agents stay within their quota, and a lane that waits for one is given
      its result if it is registered in time; that it can be too late is a
      theorem too.
    - Nothing the policy refuses is granted without the consent of the user, in any
      interleaving of tool calls; what was granted once is gone when its call
      ends, unless the user allowed the same for the session; a refused operation
      that is allowed is done under the grant it asked for, one that is not changes
      nothing; and no operation asks or retries without end.
    - However processes and tasks interleave, fail or die, the tables of backends
      stay consistent, and no more sandboxes are in them than the counter has, but
      for what the theorem names: failed confirmations, reclaimed orphans, checkouts
      under another key, what reconciliations took off the counts, and tasks
      under way. The races that break the limit, evict a running session or lose
      a change are theorems about concrete runs ([BackendSafety.BackendDemo]).
    - The admission gate never has more requests in flight than it allows, and in
      no minute of any run admits more than the rate and the slots together, those of
      the settings in force when the limiter was made, with
      the rounding of binary64 accounted for (up to 65536 slots); a caller the rate
      turns away is told to wait at most a minute.
    - An edit that succeeds changes the one place that matches, or all when asked,
      and nothing else; one that fails changes nothing unless its write was tried,
      and what a failed write can leave is named. An edit of a file that was
      read works on the content that was read, and a file called unchanged is, if
      changes are a millisecond apart. Following the offsets that a windowed read
      announces shows every line once and ends. Where the tools surprise is a
      theorem about a concrete run ([FileRuns], [FileRead]).
    - With redaction on, what a call of the provider shows of the answer has no secret
      of the history, streamed or not; the display of a stream is complete,
      truncated output is within its limits except for blank lines, pruning
      keeps the recent output and the shape of the history.

    ** Bounds

    Loops are structural recursions or folds, except some with fuel:
    [run_turns], for which [run_terminates] shows that the turn limit is enough;
    [retry_loop], which gets six rounds ([retry_loop_runs] shows that this is
    the most any policy makes); the loops of [Utf8], [scan_lines] and
    [parse_tool_arguments], which get the length of their input
    ([push_loop_decodes], [scan_lines_run], [parse_fuel_enough]);
    [replace], which gets the length of the text, as every round consumes a
    character; [force_close_session_inner], for which the
    length of the longest session id is enough, as the id of a child is longer
    than its parent's ([force_close_subtree]); the loop of
    [adjust_keep_start_for_invariants] gets one round more than the start it
    lowers ([adjust_loop_fixpoint] shows a fixpoint is reached), and
    [trim_start_matches] the length of the text ([trim_start_matches_done]);
    counting occurrences gets the length of the text, and following the pages of a
    read one round more than there are lines ([paging_covers_file]).
    Theorems about runs bound the number of steps only where a counter could wrap
    at 2^64.

    ** Not modelled

    Rendering, HTTP, storage, trace spans, timings and the wire formats are left
    out: they are input and output or data. Concurrency inside an operation is not
    modelled where the code holds a lock for all of it. A parallel batch of tools
    is run in an arbitrary order, each call as a whole; interleavings of two calls
    are not modelled. Of the loop, the cache debug files and the prompt of chat
    channels are left out; cancellation is what the token answers when it is
    asked. Of the client, requests over HTTP, the choice among endpoints and the
    redaction of errors are left out. Of the gateway, the
    forwarding of interactions and what a lane does between joins are left out,
    closing a session is modelled in its actor and its service, not in its
    supervisor, and a session with sub-agents starts with none, not from a stored
    record. Of the backends, the remote provider answers anything at all, and
    of the file operations and search of the local one, which are system calls and
    subprocesses behind the checks of [LocalPolicy], only the writes are modelled. Of the built-in
    tools only the file tools are modelled, and of these the readers of images and
    PDF files and the language server answer what they like. The service
    ([Runtimes]) sees a backend manager that answers at once; the manager itself
    is modelled with its interleavings in [BackendManager]. Monotonicity of binary64
    rounding, which would relate the two severity thresholds, is not proved. *)

From stdpp Require Export base tactics list gmap sets strings pretty numbers sorting.
From Stdlib Require Export ZArith Lia.

Declare Scope xo_scope.
Delimit Scope xo_scope with xo.
#[global] Open Scope xo_scope.
#[global] Open Scope Z_scope.

(** ** Rust results *)

Inductive result (T E : Type) : Type :=
| Ok (v : T)
| Err (e : E).
Arguments Ok {T E} v.
Arguments Err {T E} e.

Module Result.
Definition bind {T U E} (r : result T E) (k : T → result U E) : result U E :=
  match r with
  | Ok v => k v
  | Err e => Err e
  end.

Definition map_err {T E F} (f : E → F) (r : result T E) : result T F :=
  match r with
  | Ok v => Ok v
  | Err e => Err (f e)
  end.

Definition map {T U E} (f : T → U) (r : result T E) : result U E :=
  match r with
  | Ok v => Ok (f v)
  | Err e => Err e
  end.

Definition ok_or {T E} (o : option T) (e : E) : result T E :=
  match o with
  | Some v => Ok v
  | None => Err e
  end.

Definition is_ok {T E} (r : result T E) : bool :=
  match r with Ok _ => true | Err _ => false end.

(** [Iterator::collect::<Result<Vec<_>, _>>]: the first error wins. *)
Fixpoint collect {T E} (rs : list (result T E)) : result (list T) E :=
  match rs with
  | [] => Ok []
  | r :: rs => bind r (fun v => bind (collect rs) (fun vs => Ok (v :: vs)))
  end.
End Result.

(** [let? x := r in k] is Rust's [let x = r?; k]. *)
Notation "'let?' x ':=' r 'in' k" := (Result.bind r (fun x => k))
  (at level 10, x name, r at level 200, k at level 200) : xo_scope.
Notation "'let?' ' pat ':=' r 'in' k" := (Result.bind r (fun x => match x with pat => k end))
  (at level 10, pat pattern, r at level 200, k at level 200) : xo_scope.

#[global] Instance result_eq_dec {T E} `{EqDecision T, EqDecision E} : EqDecision (result T E).
Proof. solve_decision. Defined.

Lemma bind_ok_inv {T U E} (r : result T E) (k : T → result U E) (u : U) :
  Result.bind r k = Ok u → ∃ v, r = Ok v ∧ k v = Ok u.
Proof. destruct r; simpl; [eauto | discriminate]. Qed.

Lemma map_err_ok_inv {T E F} (f : E → F) (r : result T E) (v : T) :
  Result.map_err f r = Ok v → r = Ok v.
Proof. destruct r; simpl; congruence. Qed.

(** ** Effects

    Code that calls the outside (plugins, tools, the provider, the clock)
    passes a state [S] along; a call is a function on it. *)
Module St.
Definition M (S A : Type) : Type := S → A * S.
Definition ret {S A} (a : A) : M S A := fun s => (a, s).
Definition bind {S A B} (m : M S A) (k : A → M S B) : M S B :=
  fun s => let '(a, s) := m s in k a s.
(** [?] on a fallible effect. *)
Definition bind_ok {S A B E} (m : M S (result A E)) (k : A → M S (result B E)) :
    M S (result B E) :=
  fun s => let '(r, s) := m s in match r with Ok a => k a s | Err e => (Err e, s) end.
End St.

(** [let! x := m in k] runs [m], then [k]; [let!? x := m in k] also returns
    early on an error. *)
Notation "'let!' x ':=' m 'in' k" := (St.bind m (fun x => k))
  (at level 10, x name, m at level 200, k at level 200) : xo_scope.
Notation "'let!' ' pat ':=' m 'in' k" := (St.bind m (fun x => match x with pat => k end))
  (at level 10, pat pattern, m at level 200, k at level 200) : xo_scope.
Notation "'let!?' x ':=' m 'in' k" := (St.bind_ok m (fun x => k))
  (at level 10, x name, m at level 200, k at level 200) : xo_scope.

Lemma st_bind_inv {S A B} (m : St.M S A) (k : A → St.M S B) s b s' :
  St.bind m k s = (b, s') → ∃ a s1, m s = (a, s1) ∧ k a s1 = (b, s').
Proof. unfold St.bind. destruct (m s). eauto. Qed.

(** Relational reasoning about effects: every run of [m] relates the state
    before and the state after by [R]; for a preorder this composes. *)
Definition moves {S A} (R : S → S → Prop) (m : St.M S A) : Prop :=
  ∀ s a s', m s = (a, s') → R s s'.
(** A run of [m] from a state in [P] ends in [Q]. *)
Definition triple {S A} (P : S → Prop) (m : St.M S A) (Q : A → S → Prop) : Prop :=
  ∀ s a s', P s → m s = (a, s') → Q a s'.

Section Moves.
Context {S : Type} (R : S → S → Prop) `{!PreOrder R}.

Lemma moves_ret {A} (a : A) : moves R (St.ret a).
Proof. intros s b s' [= _ <-]. reflexivity. Qed.
Lemma moves_bind {A B} (m : St.M S A) (k : A → St.M S B) :
  moves R m → (∀ a, moves R (k a)) → moves R (St.bind m k).
Proof.
  intros Hm Hk s b s' (a & s1 & E1 & E2)%st_bind_inv. transitivity s1; [by eapply Hm|by eapply Hk].
Qed.
Lemma moves_bind_ok {A B E} (m : St.M S (result A E)) (k : A → St.M S (result B E)) :
  moves R m → (∀ a, moves R (k a)) → moves R (St.bind_ok m k).
Proof.
  intros Hm Hk s b s'. unfold St.bind_ok. destruct (m s) as [[a|e] s1] eqn:E1.
  - intros E2. transitivity s1; [by eapply Hm|by eapply Hk].
  - intros [= _ <-]. by eapply Hm.
Qed.
End Moves.

Section Triples.
Context {S : Type}.
Lemma triple_ret {A} (P : S → Prop) (a : A) (Q : A → S → Prop) :
  (∀ s, P s → Q a s) → triple P (St.ret a) Q.
Proof. intros H s b s' Hp [= <- <-]. auto. Qed.
Lemma triple_bind {A B} P (m : St.M S A) (k : A → St.M S B) Q Q' :
  triple P m Q → (∀ a, triple (Q a) (k a) Q') → triple P (St.bind m k) Q'.
Proof. intros Hm Hk s b s' Hp (a & s1 & E1 & E2)%st_bind_inv. eapply Hk; [by eapply Hm|done]. Qed.
Lemma triple_bind_ok {A B E} P (m : St.M S (result A E)) (k : A → St.M S (result B E)) Q Q' :
  triple P m Q → (∀ a, triple (Q (Ok a)) (k a) Q') → (∀ e s, Q (Err e) s → Q' (Err e) s) →
  triple P (St.bind_ok m k) Q'.
Proof.
  intros Hm Hk He s b s' Hp. unfold St.bind_ok. destruct (m s) as [[a|e] s1] eqn:E1.
  - intros E2. eapply Hk; [by eapply Hm|done].
  - intros [= <- <-]. eapply He, Hm; done.
Qed.
Lemma triple_conseq {A} (P P' : S → Prop) (m : St.M S A) (Q Q' : A → S → Prop) :
  triple P' m Q' → (∀ s, P s → P' s) → (∀ a s, Q' a s → Q a s) → triple P m Q.
Proof. intros Hm HP HQ s a s' Hp E. eapply HQ, Hm, E. auto. Qed.
End Triples.

(** ** Machine words

    [usize], [u32] and [u64] values are integers in range; [+] wraps (the
    release profile of Cargo.toml leaves overflow checks off),
    [saturating_sub] and [saturating_add] are clamped. *)
Module Word.
Definition usize_max : Z := 2 ^ 64 - 1.
Definition u64_max : Z := 2 ^ 64 - 1.
Definition u32_max : Z := 2 ^ 32 - 1.
Definition usize_wrap (z : Z) : Z := z mod 2 ^ 64.
Definition u32_wrap (z : Z) : Z := z mod 2 ^ 32.
Definition add (a b : Z) : Z := usize_wrap (a + b).
Definition add_u32 (a b : Z) : Z := u32_wrap (a + b).
Definition saturating_sub (a b : Z) : Z := Z.max 0 (a - b).
Definition saturating_add (a b : Z) : Z := Z.min usize_max (a + b).
Definition div_ceil (a b : Z) : Z := (a + b - 1) / b.
(** [Iterator::sum::<usize>]. *)
Definition sum (l : list Z) : Z := foldl add 0 l.
Definition in_usize (z : Z) : Prop := 0 ≤ z ≤ usize_max.

Lemma wrap_id z : in_usize z → usize_wrap z = z.
Proof. unfold in_usize, usize_max, usize_wrap. intros. apply Z.mod_small. lia. Qed.

Lemma add_id a b : in_usize (a + b) → add a b = a + b.
Proof. apply wrap_id. Qed.

Lemma add_range a b : in_usize (add a b).
Proof.
  unfold in_usize, usize_max, add, usize_wrap.
  pose proof (Z.mod_pos_bound (a + b) (2 ^ 64)). lia.
Qed.

Lemma add_wrap_l a b : add (usize_wrap a) b = add a b.
Proof. unfold add, usize_wrap. by rewrite Z.add_mod_idemp_l. Qed.

Lemma sum_wrap l : sum l = usize_wrap (foldr Z.add 0 l).
Proof.
  unfold sum. enough (∀ a, foldl add (usize_wrap a) l = usize_wrap (a + foldr Z.add 0 l)) as H.
  { exact (H 0). }
  induction l as [|x l IH]; intros a; simpl.
  - by rewrite Z.add_0_r.
  - rewrite add_wrap_l. unfold add. rewrite IH. f_equal. lia.
Qed.

Lemma saturating_sub_range a b : in_usize a → 0 ≤ b → in_usize (saturating_sub a b).
Proof. unfold in_usize, saturating_sub. lia. Qed.

Lemma div_ceil_le a b n : 0 < b → div_ceil a b ≤ n ↔ a ≤ n * b.
Proof.
  intros Hb. unfold div_ceil. split; intros H.
  - pose proof (Z.mul_succ_div_gt (a + b - 1) b Hb). nia.
  - enough ((a + b - 1) / b < n + 1) by lia. apply Z.div_lt_upper_bound; nia.
Qed.

Lemma div_ceil_mono a a' b : 0 < b → a ≤ a' → div_ceil a b ≤ div_ceil a' b.
Proof. intros. unfold div_ceil. apply Z.div_le_mono; lia. Qed.

Lemma div_ceil_nonneg a b : 0 < b → 0 ≤ a → 0 ≤ div_ceil a b.
Proof. intros. unfold div_ceil. apply Z.div_pos; lia. Qed.

Lemma div_ceil_subadd a a' b :
  0 < b → div_ceil (a + a') b ≤ div_ceil a b + div_ceil a' b.
Proof.
  intros Hb. apply div_ceil_le; [done|].
  pose proof (proj1 (div_ceil_le a b _ Hb) (Z.le_refl _)).
  pose proof (proj1 (div_ceil_le a' b _ Hb) (Z.le_refl _)). lia.
Qed.
End Word.

(** ** Proof automation *)

Create HintDb xo discriminated.
#[export] Hint Resolve Word.add_range Word.saturating_sub_range Word.div_ceil_nonneg : xo.

(** Inverts every successful [?]-chain among the hypotheses. *)
Ltac inv_ok :=
  repeat match goal with
  | H : Result.bind _ _ = Ok _ |- _ =>
      let v := fresh "v" in let H1 := fresh "Hok" in
      apply bind_ok_inv in H as (v & H1 & H)
  | H : Result.map_err _ _ = Ok _ |- _ => apply map_err_ok_inv in H
  | H : Ok _ = Ok _ |- _ => injection H as H; try subst
  | H : Err _ = Ok _ |- _ => discriminate H
  | H : Ok _ = Err _ |- _ => discriminate H
  end.

(** Case analysis on the innermost [match] or [if] scrutinee of the goal or
    of hypothesis [H], remembering the equation. *)
Ltac case_goal :=
  match goal with
  | |- context [match ?e with _ => _ end] =>
      lazymatch e with context [match _ with _ => _ end] => fail | _ => destruct e eqn:? end
  end.
Ltac case_hyp H :=
  match type of H with
  | context [match ?e with _ => _ end] =>
      lazymatch e with context [match _ with _ => _ end] => fail | _ => destruct e eqn:? end
  end.

(** Boolean tests to propositions. *)
Ltac b2p :=
  repeat match goal with
  | H : negb _ = true |- _ => apply negb_true_iff in H
  | H : negb _ = false |- _ => apply negb_false_iff in H
  | H : (_ && _)%bool = true |- _ => apply andb_true_iff in H as [??]
  | H : (_ || _)%bool = false |- _ => apply orb_false_iff in H as [??]
  | H : bool_decide _ = true |- _ => apply bool_decide_eq_true in H
  | H : bool_decide _ = false |- _ => apply bool_decide_eq_false in H
  | H : (_ <? _) = true |- _ => apply Z.ltb_lt in H
  | H : (_ <? _) = false |- _ => apply Z.ltb_ge in H
  | H : (_ <=? _) = true |- _ => apply Z.leb_le in H
  | H : (_ <=? _) = false |- _ => apply Z.leb_gt in H
  | H : (_ =? _) = true |- _ => apply Z.eqb_eq in H
  | H : (_ =? _) = false |- _ => apply Z.eqb_neq in H
  | H : (_ <? _)%nat = true |- _ => apply Nat.ltb_lt in H
  | H : (_ <? _)%nat = false |- _ => apply Nat.ltb_ge in H
  | H : (_ <=? _)%nat = true |- _ => apply Nat.leb_le in H
  | H : (_ <=? _)%nat = false |- _ => apply Nat.leb_gt in H
  | H : (_ =? _)%nat = true |- _ => apply Nat.eqb_eq in H
  | H : (_ =? _)%nat = false |- _ => apply Nat.eqb_neq in H
  end.

(** A filtered list keeps distinct keys distinct. *)
Lemma NoDup_fmap_filter {A B} (f : A → B) (P : A → Prop) `{∀ x, Decision (P x)} (l : list A) :
  NoDup (f <$> l) → NoDup (f <$> filter P l).
Proof.
  induction l as [|x l IH]; [done|]. rewrite fmap_cons, NoDup_cons. intros [Hx Hl].
  rewrite filter_cons. case_decide; [|by apply IH]. rewrite fmap_cons, NoDup_cons.
  split; [|by apply IH]. intros (y & E & [_ Hy]%list_elem_of_filter)%list_elem_of_fmap.
  apply Hx. rewrite E. by apply list_elem_of_fmap_2.
Qed.

(** Elements of a list with distinct keys are determined by their keys. *)
Lemma NoDup_fmap_eq {A B} (f : A → B) (l : list A) x y :
  NoDup (f <$> l) → x ∈ l → y ∈ l → f x = f y → x = y.
Proof.
  intros Hnd (i & Hi)%list_elem_of_lookup (j & Hj)%list_elem_of_lookup E.
  enough (i = j) by congruence. eapply NoDup_lookup; [exact Hnd|..]; rewrite list_lookup_fmap.
  - by rewrite Hi.
  - by rewrite Hj, E.
Qed.
