(* ===== verification/RStr.v ===== *)
(** * Rust strings

    A [String] or [&str] is the list of its Unicode scalar values ([char]s
    as code points). The file models the methods of [str] that the program
    calls and proves the facts about them that the components share. *)

From S2P Require Import Prelude.

Abbreviation char := N (only parsing).
Abbreviation str := (list N).

(** A string literal of the source. *)
Definition lit (s : string) : str := Ascii.N_of_ascii <$> String.list_ascii_of_string s.

(** [{n}] of [format!] on an unsigned integer. *)
Definition show (n : Z) : str := lit (pretty (Z.to_N n)).

Definition show_bool (b : bool) : str := if b then lit "true" else lit "false".

#[global] Arguments lit : simpl never.
#[global] Arguments show : simpl never.

(** [char::is_whitespace]: the Unicode property [White_Space]. *)
Definition is_whitespace (c : char) : bool :=
  ((9 <=? c) && (c <=? 13) || (c =? 32) || (c =? 133) || (c =? 160) || (c =? 5760)
   || (8192 <=? c) && (c <=? 8202) || (c =? 8232) || (c =? 8233) || (c =? 8239)
   || (c =? 8287) || (c =? 12288))%N%bool.

Definition to_ascii_lowercase_char (c : char) : char :=
  if (65 <=? c)%N && (c <=? 90)%N then (c + 32)%N else c.
Definition to_ascii_lowercase (s : str) : str := to_ascii_lowercase_char <$> s.

(** [str::len]: the length of the UTF-8 encoding. *)
Definition utf8_len_char (c : char) : Z :=
  if (c <? 128)%N then 1 else if (c <? 2048)%N then 2 else if (c <? 65536)%N then 3 else 4.
Definition utf8_len (s : str) : Z := foldr (fun c n => utf8_len_char c + n) 0 s.

(** [s.chars().count()]. *)
Definition char_count (s : str) : Z := Z.of_nat (length s).

Fixpoint trim_start (s : str) : str :=
  match s with
  | [] => []
  | c :: s' => if is_whitespace c then trim_start s' else s
  end.
Definition trim_end (s : str) : str := reverse (trim_start (reverse s)).
Definition trim (s : str) : str := trim_end (trim_start s).

Fixpoint strip_prefix (p s : str) : option str :=
  match p, s with
  | [], _ => Some s
  | _ :: _, [] => None
  | a :: p', b :: s' => if decide (a = b) then strip_prefix p' s' else None
  end.
Definition starts_with (p s : str) : bool := bool_decide (is_Some (strip_prefix p s)).
Definition strip_suffix (p s : str) : option str :=
  reverse <$> strip_prefix (reverse p) (reverse s).

(** [s.trim_start_matches(p)] for a string pattern: [p] is stripped as often
    as it matches; each round shortens [s], so [length s] rounds suffice. *)
Fixpoint trim_start_matches_fuel (n : nat) (p s : str) : str :=
  match n with
  | O => s
  | S n => match p, strip_prefix p s with
           | _ :: _, Some s' => trim_start_matches_fuel n p s'
           | _, _ => s
           end
  end.
Definition trim_start_matches (p s : str) : str := trim_start_matches_fuel (length s) p s.

(** The word that [s] starts in and the words after it. *)
Fixpoint split_ws (s : str) : str * list str :=
  match s with
  | [] => ([], [])
  | c :: s' =>
      let '(w, ws) := split_ws s' in
      if is_whitespace c then ([], match w with [] => ws | _ => w :: ws end) else (c :: w, ws)
  end.
Definition split_whitespace (s : str) : list str :=
  match split_ws s with
  | ([], ws) => ws
  | (w, ws) => w :: ws
  end.

(** [slice.join(sep)]. *)
Fixpoint join (sep : str) (l : list str) : str :=
  match l with
  | [] => []
  | [x] => x
  | x :: l => x ++ sep ++ join sep l
  end.

(** [s.split(c)]. *)
Fixpoint split_char (c : char) (s : str) : list str :=
  match s with
  | [] => [[]]
  | x :: s' =>
      if (x =? c)%N then [] :: split_char c s'
      else match split_char c s' with
           | l :: ls => (x :: l) :: ls
           | [] => [[x]]
           end
  end.

(** [s.lines()]: the lines ended by a line feed lose a carriage return before
    it; what follows the last line feed is a line when it is not empty. *)
Definition strip_cr (l : str) : str := default l (strip_suffix [13%N] l).
Fixpoint lines_of (ls : list str) : list str :=
  match ls with
  | [] => []
  | [l] => match l with [] => [] | _ => [l] end
  | l :: ls => strip_cr l :: lines_of ls
  end.
Definition lines (s : str) : list str := lines_of (split_char 10%N s).

(** [s.contains(p)] for a character. *)
Definition contains_char (c : char) (s : str) : bool := existsb (N.eqb c) s.

Example lines_ex : lines (lit "ab" ++ [13%N; 10%N] ++ lit "c" ++ [10%N]) = [lit "ab"; lit "c"].
Proof. reflexivity. Qed.
Example split_whitespace_ex : split_whitespace (lit "  a bc  d ") = [lit "a"; lit "bc"; lit "d"].
Proof. reflexivity. Qed.

(** ** Prefixes *)

Lemma strip_prefix_Some p s s' : strip_prefix p s = Some s' ↔ s = p ++ s'.
Proof.
  revert s; induction p as [|a p IHp]; intros s; simpl.
  - split; congruence.
  - destruct s as [|b s]; [split; discriminate|]. case_decide; subst.
    + rewrite IHp. split; congruence.
    + split; congruence.
Qed.

Lemma strip_prefix_app p s : strip_prefix p (p ++ s) = Some s.
Proof. by apply strip_prefix_Some. Qed.

Lemma strip_prefix_length p s s' :
  strip_prefix p s = Some s' → length s = (length p + length s')%nat.
Proof. intros ->%strip_prefix_Some. by rewrite length_app. Qed.

Lemma starts_with_iff p s : starts_with p s = true ↔ ∃ s', s = p ++ s'.
Proof.
  unfold starts_with. rewrite bool_decide_eq_true. split.
  - intros [s' Hs]. apply strip_prefix_Some in Hs. eauto.
  - intros [s' ->]. exists s'. by rewrite strip_prefix_app.
Qed.

Lemma starts_with_app p s : starts_with p (p ++ s) = true.
Proof. apply starts_with_iff. eauto. Qed.

Lemma strip_suffix_app s p : strip_suffix p (s ++ p) = Some s.
Proof.
  unfold strip_suffix. rewrite reverse_app, strip_prefix_app. simpl. by rewrite reverse_involutive.
Qed.

(** Stripping cannot be repeated once [trim_start_matches] is done. *)
Lemma trim_start_length s : (length (trim_start s) ≤ length s)%nat.
Proof. induction s as [|c s IH]; simpl; [done|]. destruct (is_whitespace c); simpl; lia. Qed.
Lemma trim_end_length s : (length (trim_end s) ≤ length s)%nat.
Proof.
  unfold trim_end. rewrite length_reverse. etrans; [apply trim_start_length|].
  by rewrite length_reverse.
Qed.
Lemma trim_length s : (length (trim s) ≤ length s)%nat.
Proof. unfold trim. etrans; [apply trim_end_length|apply trim_start_length]. Qed.
(** A text between characters that are not white space is trimmed. *)
Lemma trim_delimited a s b :
  is_whitespace a = false → is_whitespace b = false → trim (a :: s ++ [b]) = a :: s ++ [b].
Proof.
  intros Ha Hb. unfold trim, trim_end. cbn [trim_start]. rewrite Ha.
  change (a :: s ++ [b]) with ((a :: s) ++ [b]). rewrite reverse_app. cbn [reverse].
  change (reverse [b]) with [b]. cbn [app trim_start]. rewrite Hb.
  change (b :: reverse (a :: s)) with (reverse [b] ++ reverse (a :: s)).
  by rewrite <-reverse_app, reverse_involutive.
Qed.

Lemma trim_start_matches_fuel_enough n p s :
  (length s ≤ n)%nat → p ≠ [] → strip_prefix p (trim_start_matches_fuel n p s) = None.
Proof.
  revert s; induction n as [|n IH]; intros s Hn Hp; cbn [trim_start_matches_fuel].
  - destruct s; simpl in Hn; [|lia]. destruct p; [done|reflexivity].
  - destruct p as [|a p]; [done|]. destruct (strip_prefix (a :: p) s) as [s'|] eqn:E; [|exact E].
    apply IH; [|done]. apply strip_prefix_length in E. simpl in E. lia.
Qed.

Lemma trim_start_matches_done p s :
  p ≠ [] → strip_prefix p (trim_start_matches p s) = None.
Proof. by apply trim_start_matches_fuel_enough. Qed.

Lemma trim_start_matches_none p s :
  p ≠ [] → strip_prefix p s = None → trim_start_matches p s = s.
Proof.
  intros Hp Hs. unfold trim_start_matches. destruct p as [|a p]; [done|].
  destruct s as [|c s]; [done|]. cbn [length trim_start_matches_fuel]. by rewrite Hs.
Qed.

(** ** Words *)

Definition is_word (w : str) : Prop := w ≠ [] ∧ Forall (fun c => is_whitespace c = false) w.

Lemma split_ws_spec s w ws :
  split_ws s = (w, ws) → Forall (fun c => is_whitespace c = false) w ∧ Forall is_word ws.
Proof.
  revert w ws; induction s as [|c s IH]; intros w ws; simpl.
  - intros [= <- <-]. auto.
  - destruct (split_ws s) as [w' ws'] eqn:E. destruct (IH _ _ eq_refl) as [Hw Hws].
    destruct (is_whitespace c) eqn:Ec; intros [= <- <-]; split; auto.
    destruct w' as [|a w']; [done|]. constructor; [|done]. by split.
Qed.

Lemma split_whitespace_words s : Forall is_word (split_whitespace s).
Proof.
  unfold split_whitespace. destruct (split_ws s) as [w ws] eqn:E.
  apply split_ws_spec in E as [Hw Hws]. destruct w; [done|]. constructor; [|done]. by split.
Qed.

Lemma split_ws_word_app w s :
  Forall (fun c => is_whitespace c = false) w →
  split_ws (w ++ s) = (w ++ (split_ws s).1, (split_ws s).2).
Proof.
  induction 1 as [|c w Hc Hw IH]; simpl.
  - by destruct (split_ws s).
  - rewrite IH, Hc. done.
Qed.

Lemma split_ws_space s :
  split_ws (32%N :: s) = ([], split_whitespace s).
Proof. unfold split_whitespace. simpl. by destruct (split_ws s) as [[|??] ?]. Qed.

Lemma split_whitespace_join ws :
  Forall is_word ws → split_whitespace (join (lit " ") ws) = ws.
Proof.
  induction 1 as [|w ws [Hne Hw] Hws IH]; [done|].
  destruct ws as [|w' ws].
  - simpl. unfold split_whitespace. rewrite <-(app_nil_r w) at 1.
    rewrite split_ws_word_app by done. simpl. rewrite app_nil_r. by destruct w.
  - change (join (lit " ") (w :: w' :: ws)) with (w ++ 32%N :: join (lit " ") (w' :: ws)).
    unfold split_whitespace. rewrite split_ws_word_app by done. rewrite split_ws_space.
    rewrite IH. simpl. rewrite app_nil_r. by destruct w.
Qed.

(** ** Joins *)

Lemma join_cons sep x l : l ≠ [] → join sep (x :: l) = x ++ sep ++ join sep l.
Proof. by destruct l. Qed.

Definition join_length (k : nat) (l : list str) : nat :=
  (sum_list (length <$> l) + k * (length l - 1))%nat.

Lemma length_join sep l : length (join sep l) = join_length (length sep) l.
Proof.
  unfold join_length. induction l as [|x l IH]; [simpl; lia|].
  destruct l as [|y l]; [simpl; lia|].
  rewrite join_cons by done. rewrite !length_app, IH. simpl. lia.
Qed.

Lemma sum_list_perm (l l' : list nat) : l ≡ₚ l' → sum_list l = sum_list l'.
Proof. induction 1; simpl; lia. Qed.

Lemma length_join_perm sep l l' : l ≡ₚ l' → length (join sep l) = length (join sep l').
Proof.
  intros Hp. rewrite !length_join. unfold join_length.
  rewrite (sum_list_perm _ _ (fmap_Permutation length _ _ Hp)).
  by rewrite (Permutation_length Hp).
Qed.

Lemma join_snoc sep l x : l ≠ [] → join sep (l ++ [x]) = join sep l ++ sep ++ x.
Proof.
  induction l as [|y l IH]; [done|]. intros _. destruct l as [|z l]; [done|].
  change ((y :: z :: l) ++ [x]) with (y :: ((z :: l) ++ [x])).
  rewrite (join_cons _ y (z :: l)), (join_cons _ y ((z :: l) ++ [x])) by done.
  rewrite IH by done. by rewrite <-!app_assoc.
Qed.

(** ** Lines *)

Lemma split_char_no c l : c ∉ l → split_char c l = [l].
Proof.
  induction l as [|x l IH]; intros Hin; [done|]. simpl.
  apply not_elem_of_cons in Hin as [Hne Hin].
  destruct (N.eqb_spec x c); [congruence|]. by rewrite IH.
Qed.

Lemma split_char_app c l s :
  c ∉ l → split_char c (l ++ c :: s) = l :: split_char c s.
Proof.
  induction l as [|x l IH]; intros Hin; simpl.
  - by rewrite N.eqb_refl.
  - apply not_elem_of_cons in Hin as [Hne Hin].
    destruct (N.eqb_spec x c); [congruence|]. by rewrite IH.
Qed.

Lemma split_char_join c ls :
  ls ≠ [] → Forall (fun l => c ∉ l) ls → split_char c (join [c] ls) = ls.
Proof.
  intros Hne H. induction H as [|l ls Hl Hls IH]; [done|].
  destruct ls as [|l' ls]; [by apply split_char_no|].
  rewrite join_cons by done.
  change (l ++ [c] ++ join [c] (l' :: ls)) with (l ++ c :: join [c] (l' :: ls)).
  rewrite split_char_app by done. by rewrite IH.
Qed.

Lemma strip_cr_no l : 13%N ∉ l → strip_cr l = l.
Proof.
  intros Hin. unfold strip_cr, strip_suffix.
  destruct (strip_prefix (reverse [13%N]) (reverse l)) as [s'|] eqn:E; [|done].
  apply strip_prefix_Some in E. exfalso. apply Hin.
  apply elem_of_reverse. rewrite E. set_solver.
Qed.

(** [lines] undoes a join with line feeds, for lines that hold no line
    break and do not end in an empty one. *)
Definition plain_line (l : str) : Prop := 10%N ∉ l ∧ 13%N ∉ l ∧ l ≠ [].

Lemma lines_join ls : Forall plain_line ls → lines (join [10%N] ls) = ls.
Proof.
  intros H. unfold lines. destruct (decide (ls = [])) as [->|Hne]; [done|].
  rewrite split_char_join; [|done|].
  2:{ eapply Forall_impl; [exact H|]. by intros l [??]. }
  clear Hne. induction H as [|l ls (?&Hcr&Hnil) Hls IH]; [done|].
  destruct ls as [|l' ls].
  - by destruct l.
  - change (strip_cr l :: lines_of (l' :: ls) = l :: l' :: ls). rewrite strip_cr_no by done.
    by rewrite IH.
Qed.

(** ** Replacement, order and case *)

(** [s.replace(c, p)] for a character pattern. *)
Definition replace_char (c : char) (p s : str) : str :=
  s ≫= fun x => if (x =? c)%N then p else [x].

(** [str::cmp]: the bytes of UTF-8 compare as the code points do. *)
Fixpoint str_leb (s t : str) : bool :=
  match s, t with
  | [], _ => true
  | _ :: _, [] => false
  | a :: s, b :: t => (a <? b)%N || ((a =? b)%N && str_leb s t)
  end.
Definition str_le (s t : str) : Prop := str_leb s t = true.
#[global] Instance str_le_dec s t : Decision (str_le s t).
Proof. unfold str_le. apply _. Defined.

#[global] Instance str_le_total : Total str_le.
Proof.
  intros s. unfold str_le. induction s as [|a s IH]; intros [|b t]; simpl; auto.
  destruct (IH t) as [H|H]; rewrite H; destruct (N.lt_trichotomy a b) as [?|[->|?]];
    rewrite ?N.eqb_refl; simpl; rewrite ?orb_true_r; auto;
    (left + right); apply orb_true_iff; left; by apply N.ltb_lt.
Qed.
#[global] Instance str_le_trans : Transitive str_le.
Proof.
  intros s. unfold str_le. induction s as [|a s IH]; intros [|b t] [|c u]; simpl; try done.
  rewrite !orb_true_iff, !andb_true_iff, !N.ltb_lt, !N.eqb_eq.
  intros [H1|[-> H1]] [H2|[-> H2]]; try (left; lia). right. split; [done|]. by apply (IH t).
Qed.
#[global] Instance str_le_antisymm : AntiSymm (=) str_le.
Proof.
  intros s. unfold str_le. induction s as [|a s IH]; intros [|b t]; simpl; try done.
  rewrite !orb_true_iff, !andb_true_iff, !N.ltb_lt, !N.eqb_eq.
  intros [H1|[-> H1]] [H2|[E2 H2]]; try lia. f_equal. by apply IH.
Qed.

(** [str::to_lowercase]: the Unicode table is a parameter; on ASCII it is
    [to_ascii_lowercase]. *)
Class UnicodeCase := {
  lowercase_char : char → str;
  lowercase_ascii c : (c < 128)%N → lowercase_char c = [to_ascii_lowercase_char c];
}.
Definition to_lowercase `{UnicodeCase} (s : str) : str := s ≫= lowercase_char.

Definition ascii_case : UnicodeCase.
Proof. refine {| lowercase_char c := [to_ascii_lowercase_char c] |}. done. Defined.

Lemma to_lowercase_ascii `{UnicodeCase} s :
  Forall (fun c => c < 128)%N s → to_lowercase s = to_ascii_lowercase s.
Proof.
  induction 1 as [|c s Hc _ IH]; [done|]. unfold to_lowercase in *. cbn [mbind list_bind].
  rewrite IH, lowercase_ascii by done. done.
Qed.

Lemma elem_of_replace_char c p s x :
  x ∈ replace_char c p s → x ∈ p ∨ (x ∈ s ∧ x ≠ c).
Proof.
  unfold replace_char. intros (y & Hx & Hy)%list_elem_of_bind.
  destruct (N.eqb_spec y c); [by left|]. apply list_elem_of_singleton in Hx as ->. by right.
Qed.

(** [s.find(p)], as the text before the first match and the text from it. *)
Fixpoint find (p s : str) : option (str * str) :=
  if starts_with p s then Some ([], s)
  else match s with
       | [] => None
       | c :: s => '(before, rest) ← find p s; Some (c :: before, rest)
       end.

Lemma find_Some p s b r :
  find p s = Some (b, r) → s = b ++ r ∧ starts_with p r = true.
Proof.
  revert b. induction s as [|c s IH]; intros b; simpl; case_match eqn:E.
  1, 3: by intros [= <- <-].
  - done.
  - destruct (find p s) as [[b' r']|] eqn:Ef; [|done]. intros [= <- <-].
    destruct (IH _ eq_refl) as [-> ?]. done.
Qed.

(** [s.contains(p)] and [s.replace(p, r)] for a string pattern: matches are
    replaced from left to right; with a non-empty pattern each round consumes
    text, so [length s] rounds suffice. *)
Definition contains (p s : str) : bool := bool_decide (is_Some (find p s)).
Fixpoint replace_fuel (n : nat) (p r s : str) : str :=
  match n with
  | O => s
  | S n =>
      match find p s with
      | None => s
      | Some (before, rest) => before ++ r ++ replace_fuel n p r (drop (length p) rest)
      end
  end.
Definition replace (p r s : str) : str := replace_fuel (length s) p r s.

Lemma starts_with_drop p r :
  starts_with p r = true → r = p ++ drop (length p) r.
Proof. rewrite starts_with_iff. intros [s ->]. by rewrite drop_app_length. Qed.

(** [p] occurs in [s]. *)
Definition occurs (p s : str) : Prop := ∃ a b, s = a ++ p ++ b.

Lemma find_None p s : find p s = None → ¬ occurs p s.
Proof.
  induction s as [|c s IH]; simpl; destruct (starts_with _ _) eqn:E; try done.
  - intros _ ([|] & b & E'); [|done]. destruct p; [|done]. done.
  - destruct (find p s) as [[]|] eqn:Ef; [done|]. intros _ ([|d a] & b & E'); simpl in E'.
    + rewrite E', starts_with_app in E. done.
    + simplify_eq. apply IH; [done|]. by exists a, b.
Qed.

Lemma contains_iff p s : contains p s = true ↔ occurs p s.
Proof.
  unfold contains. rewrite bool_decide_eq_true. split.
  - intros [[b r] [-> Hr%starts_with_drop]%find_Some]. exists b, (drop (length p) r). by rewrite <-Hr.
  - intros Ho. destruct (find p s) eqn:E; [done|]. by apply find_None in E.
Qed.

(** The first match ends in no earlier one. *)
Lemma find_first p s b r : find p s = Some (b, r) → ∀ a, a `suffix_of` b → a ≠ [] →
  starts_with p (a ++ r) = false.
Proof.
  revert b. induction s as [|c s IH]; intros b; simpl; destruct (starts_with _ _) eqn:E.
  1,3: intros [= <- <-] a ->%suffix_nil_inv; done.
  - done.
  - destruct (find p s) as [[b' r']|] eqn:Ef; [|done]. intros [= <- <-] a Ha Hn.
    destruct a as [|x a]; [done|]. apply suffix_cons_inv in Ha as [Ea|Ha]; [|by eapply IH].
    rewrite Ea. apply find_Some in Ef as [-> _]. done.
Qed.

Lemma find_before p s b r : p ≠ [] → find p s = Some (b, r) → ¬ occurs p b.
Proof.
  intros Hp Hf (x & y & ->). enough (starts_with p ((p ++ y) ++ r) = false) as H.
  { by rewrite <-app_assoc, starts_with_app in H. }
  eapply find_first; [done|by exists x|]. by destruct p.
Qed.

(** An occurrence that shares no character with [m] does not touch it. *)
Lemma occurs_around p m a b :
  p ≠ [] → m ≠ [] → (∀ c, c ∈ p → c ∉ m) → occurs p (a ++ m ++ b) → occurs p a ∨ occurs p b.
Proof.
  intros Hp Hm Hd (x & y & E). apply app_eq_inv in E as [(k & -> & E)|(k & -> & E)].
  - apply app_eq_inv in E as [(l & -> & E)|(l & -> & E)].
    + destruct l as [|c l].
      * left. exists x, []. by rewrite !app_nil_r.
      * destruct m as [|d m]; [done|]. simplify_eq/=. exfalso. (apply (Hd c) || apply (Hd d)); set_solver.
    + left. by exists x, l.
  - apply app_eq_inv in E as [(l & -> & E)|(l & -> & ->)].
    + destruct p as [|c p]; [done|]. destruct l as [|d l].
      * right. simplify_eq/=. by exists [], y.
      * simplify_eq/=. exfalso. (apply (Hd c) || apply (Hd d)); set_solver.
    + right. by exists l, y.
Qed.

Section Replace.
Context (p m : str) (Hp : p ≠ []) (Hm : m ≠ []).

Lemma replace_fuel_gone n s :
  (∀ c, c ∈ p → c ∉ m) → (length s ≤ n)%nat → ¬ occurs p (replace_fuel n p m s).
Proof.
  intros Hd. revert s. induction n as [|n IH]; intros s Hn; simpl.
  - destruct s; simpl in Hn; [|lia]. intros (a & b & E). destruct a, p; done.
  - destruct (find p s) as [[b r]|] eqn:Ef; [|by apply find_None].
    intros [Ho|Ho]%occurs_around; [exact (find_before _ _ _ _ Hp Ef Ho)| |done..].
    revert Ho. apply IH. apply find_Some in Ef as [-> Hr%starts_with_drop].
    rewrite length_app, Hr, length_app in Hn. destruct p; [done|]. simpl in *. lia.
Qed.

(** Replacing brings in no other text that avoids the marker. *)
Lemma replace_fuel_new q n s :
  q ≠ [] → (∀ c, c ∈ q → c ∉ m) → occurs q (replace_fuel n p m s) → occurs q s.
Proof.
  intros Hq Hd. revert s. induction n as [|n IH]; intros s; simpl; [done|].
  destruct (find p s) as [[b r]|] eqn:Ef; [|done]. apply find_Some in Ef as [-> Hr%starts_with_drop].
  intros [(x & y & ->)|Ho]%occurs_around; [| |done..].
  - exists x, (y ++ r). by rewrite <-!app_assoc.
  - apply IH in Ho as (x & y & E). exists (b ++ p ++ x), y. rewrite Hr, E, <-!app_assoc. done.
Qed.
End Replace.
