(* ===== verification/F64.v ===== *)
(** * IEEE 754 binary64 numbers

    Rust's [f64] as the Standard Library's executable specification of
    binary64 ([SpecFloat] at precision 53 and maximal exponent 1024): the
    comparisons, the minimum, the sum, difference, product and quotient with
    round-to-nearest-even, [usize as f64], [f64::floor], [f64::ceil] and the saturating [f64 as usize]. *)

From Stdlib Require Export SpecFloat.
From S2P Require Import Prelude.

Abbreviation f64 := spec_float.

Module F64.
Definition prec : Z := 53.
Definition emax : Z := 1024.

Definition lt (x y : f64) : bool := SFltb x y.
Definition le (x y : f64) : bool := SFleb x y.
Definition mul (x y : f64) : f64 := SFmul prec emax x y.
Definition div (x y : f64) : f64 := SFdiv prec emax x y.
Definition add (x y : f64) : f64 := SFadd prec emax x y.
Definition sub (x y : f64) : f64 := SFsub prec emax x y.

(** [x.min(y)]: a NaN gives way to the other number. *)
Definition min (x y : f64) : f64 :=
  match x, y with
  | S754_nan, _ => y
  | _, S754_nan => x
  | _, _ => if SFleb x y then x else y
  end.

(** [n as f64]. *)
Definition of_usize (n : Z) : f64 := binary_normalize prec emax n 0 false.

Definition signed (s : bool) (m : positive) : Z := if s then Z.neg m else Z.pos m.

(** The integer part towards minus infinity of a finite number. *)
Definition floor_Z (s : bool) (m : positive) (e : Z) : Z :=
  if 0 <=? e then signed s m * 2 ^ e else signed s m / 2 ^ (- e).

Definition floor (x : f64) : f64 :=
  match x with
  | S754_finite s m e =>
      if 0 <=? e then x else binary_normalize prec emax (floor_Z s m e) 0 s
  | _ => x
  end.

(** [x.ceil()]: the integer part towards plus infinity. *)
Definition ceil (x : f64) : f64 :=
  match x with
  | S754_finite s m e =>
      if 0 <=? e then x else binary_normalize prec emax (- floor_Z (negb s) m e) 0 s
  | _ => x
  end.

(** [x as usize]: truncation towards zero, saturating, NaN to zero. *)
Definition to_usize (x : f64) : Z :=
  match x with
  | S754_finite false m e =>
      Z.min Word.usize_max (floor_Z false m e)
  | S754_infinity false => Word.usize_max
  | _ => 0
  end.

(** [(lo..=hi).contains(&x)]. *)
Definition in_closed (lo hi x : f64) : bool := le lo x && le x hi.

(** The literals of the source: 0.0, 1.0, 2.0, and decimal fractions as
    the correctly rounded quotient. *)
Definition zero : f64 := S754_zero false.
Definition of_ratio (n d : Z) : f64 := div (of_usize n) (of_usize d).
Definition one : f64 := of_usize 1.
Definition two : f64 := of_usize 2.

Example three_quarters : of_ratio 3 4 = S754_finite false 6755399441055744 (-53).
Proof. reflexivity. Qed.
Example floor_ex : to_usize (floor (mul (of_usize 1000) (of_ratio 9 10))) = 900.
Proof. reflexivity. Qed.

Lemma to_usize_range x : Word.in_usize (to_usize x).
Proof.
  unfold Word.in_usize, to_usize. destruct x as [s|s| |s m e]; try destruct s;
    unfold Word.usize_max; try lia.
  assert (0 ≤ floor_Z false m e); [|lia].
  unfold floor_Z, signed. destruct (0 <=? e) eqn:E; b2p.
  - pose proof (Z.pow_nonneg 2 e). nia.
  - apply Z.div_pos; [lia|]. apply Z.pow_pos_nonneg; lia.
Qed.
End F64.
#[export] Hint Resolve F64.to_usize_range : xo.
