(* ===== verification/F64Round.v ===== *)
(** * Rounding of binary64 numbers

    The rational value of a finite [f64] and the error of one rounding of the
    operations in [F64]: a sum, a product or a quotient of non-negative numbers
    differs from the exact one by at most [u] times the exact one, or by [eta]
    where the result is subnormal; a difference that needs no more than 53 bits
    is exact; and the comparisons are those of the values. *)

From Stdlib Require Import QArith Qpower Qfield Lqa.
From S2P Require Import Prelude F64.

Module Round.
Local Open Scope Q_scope.

(** ** Powers of two and digits *)

Definition pw (e : Z) : Q := Qpower 2 e.

Lemma pw_pos e : 0 < pw e.
Proof. apply Qpower_0_lt. lra. Qed.
Lemma pw_add a b : pw (a + b) == pw a * pw b.
Proof. apply Qpower_plus. lra. Qed.
Lemma pw_Z n : (0 ≤ n)%Z → pw n == inject_Z (2 ^ n).
Proof. intros. unfold pw. rewrite Zpower_Qpower by done. reflexivity. Qed.
Lemma pw_le a b : (a ≤ b)%Z → pw a <= pw b.
Proof. intros. apply Qpower_le_compat_l; [done|lra]. Qed.
Lemma pw_lt_inv a b : pw a < pw b → (a < b)%Z.
Proof. intros. apply (Qpower_lt_compat_l_inv 2); [done|lra]. Qed.
Lemma pw_le_inv a b : pw a <= pw b → (a ≤ b)%Z.
Proof. intros. apply (Qpower_le_compat_l_inv 2); [done|lra]. Qed.
Lemma pw_succ e : pw (e + 1) == 2 * pw e.
Proof. rewrite pw_add. change (pw 1) with 2. ring. Qed.
Lemma inject_le a b : (a ≤ b)%Z → inject_Z a <= inject_Z b.
Proof. intros. by rewrite <-Zle_Qle. Qed.
Lemma inject_lt a b : (a < b)%Z → inject_Z a < inject_Z b.
Proof. intros. by rewrite <-Zlt_Qlt. Qed.
Lemma scale_le a b c : 0 <= c → a <= b → a * c <= b * c.
Proof. intros. by apply Qmult_le_compat_r. Qed.
Lemma scale_lt a b c : 0 < c → a < b → a * c < b * c.
Proof. intros. by apply Qmult_lt_compat_r. Qed.
Lemma div_mul x y : 0 < y → x / y * y == x.
Proof. intros. field. lra. Qed.

Lemma digits_log2 m : Z.pos (digits2_pos m) = (Z.log2 (Z.pos m) + 1)%Z.
Proof.
  induction m as [m IH|m IH|]; cbn [digits2_pos]; [| |reflexivity].
  - rewrite Pos2Z.inj_succ, IH, (Pos2Z.inj_xI m), Z.log2_succ_double by lia. lia.
  - rewrite Pos2Z.inj_succ, IH, (Pos2Z.inj_xO m), Z.log2_double by lia. lia.
Qed.
Lemma Zdigits_log2 m : (0 < m)%Z → Zdigits2 m = (Z.log2 m + 1)%Z.
Proof. destruct m; [lia| |lia]. intros _. apply digits_log2. Qed.

Lemma log2_pw m : (0 < m)%Z → pw (Z.log2 m) <= inject_Z m < pw (Z.log2 m + 1).
Proof.
  intros. pose proof (Z.log2_nonneg m). rewrite !pw_Z by lia.
  destruct (Z.log2_spec m) as [? ?]; [done|]. rewrite Z.add_1_r.
  split; [by apply inject_le|by apply inject_lt].
Qed.

Definition fexp (e : Z) : Z := Z.max (e - 53) (-1074).
Lemma fexp_64 e : SpecFloat.fexp F64.prec F64.emax e = fexp e.
Proof. reflexivity. Qed.

(** ** Shifting right *)

(** [x] lies where the record says, in units of [2 ^ e]. *)
Definition located (r : shr_record) (e : Z) (x : Q) : Prop :=
  let m := inject_Z (shr_m r) in
  match shr_r r, shr_s r with
  | false, false => x == m * pw e
  | false, true => m * pw e < x < (m + (1#2)) * pw e
  | true, false => x == (m + (1#2)) * pw e
  | true, true => (m + (1#2)) * pw e < x < (m + 1) * pw e
  end.

#[local] Instance located_proper r e : Proper (Qeq ==> iff) (located r e).
Proof. intros x y H. unfold located. destruct (shr_r r), (shr_s r); by rewrite H. Qed.

Lemma located_shr_1 r e x :
  (0 ≤ shr_m r)%Z → located r e x →
  located (shr_1 r) (e + 1) x ∧ shr_m (shr_1 r) = (shr_m r / 2)%Z.
Proof.
  destruct r as [m r s]; cbn [shr_m]. intros Hm Hl. pose proof (pw_pos e).
  assert (∃ b : bool, shr_1 (Build_shr_record m r s) = Build_shr_record (m / 2) b (r || s)
    ∧ m = (2 * (m / 2) + Z.b2z b)%Z) as (b & -> & Em).
  { destruct m as [|p|]; [by exists false| |lia].
    assert (D : ∀ q b, (Z.pos p = 2 * q + Z.b2z b)%Z → (Z.pos p / 2 = q)%Z).
    { intros q b ->. rewrite Z.add_comm, Z.mul_comm, Z.div_add by done.
      by destruct b. }
    destruct p as [p|p|].
    - rewrite (D (Z.pos p) true) by (cbn; lia). by exists true.
    - rewrite (D (Z.pos p) false) by (cbn; lia). by exists false.
    - by exists true. }
  split; [|done]. generalize dependent (m / 2)%Z. intros q ->.
  unfold located in *. cbn [shr_m shr_r shr_s] in *.
  rewrite inject_Z_plus, inject_Z_mult in Hl.
  change (inject_Z 2) with 2 in Hl.
  destruct b, r, s; cbn [orb Z.b2z] in *;
    change (inject_Z 1) with 1 in *; change (inject_Z 0) with 0 in *;
    rewrite !pw_succ; lra.
Qed.

Lemma iter_pos_iter {A} (f : A → A) p x : iter_pos f p x = Pos.iter f x p.
Proof.
  revert x. induction p as [p IH|p IH|]; intros x; cbn [iter_pos]; [| |done].
  - rewrite !IH. cbn [Pos.iter]. by rewrite !Pos.iter_swap.
  - by rewrite !IH.
Qed.

Lemma located_shr r e n x :
  (0 ≤ n)%Z → (0 ≤ shr_m r)%Z → located r e x →
  ∃ r', shr r e n = (r', (e + n)%Z) ∧ located r' (e + n) x
    ∧ shr_m r' = (shr_m r / 2 ^ n)%Z ∧ (n = 0%Z → r' = r).
Proof.
  intros Hn Hm Hl. destruct n as [|p|]; [| |lia].
  { exists r. rewrite Z.add_0_r, Z.pow_0_r, Z.div_1_r. auto. }
  cbn [shr]. rewrite iter_pos_iter. eexists; split; [done|]. clear Hn.
  revert p. refine (Pos.peano_ind _ _ _).
  - destruct (located_shr_1 r e x) as [? E]; [done..|]. cbn [Pos.iter]. by rewrite E.
  - intros p (H1 & H2 & _). rewrite Pos.iter_succ.
    destruct (located_shr_1 (Pos.iter shr_1 r p) (e + Z.pos p) x) as [H3 E]; [|done|].
    { rewrite H2. apply Z.div_pos; [done|]. by apply Z.pow_pos_nonneg. }
    rewrite Pos2Z.inj_succ. unfold Z.succ. rewrite Z.add_assoc. split; [done|].
    split; [|lia]. rewrite E, H2, Z.div_div by lia. f_equal. rewrite Z.pow_add_r by lia. lia.
Qed.

(** ** One rounding *)

Definition u : Q := 1 # 9007199254740992.
Definition eta : Q := pw (-1075).
Lemma u_pw : u == pw (-53).
Proof. reflexivity. Qed.

Definition val (x : f64) : Q :=
  match x with
  | S754_finite s m e => inject_Z (F64.signed s m) * pw e
  | _ => 0
  end.

(** Finite, not negative, and in the form the comparisons expect. *)
Definition regular (x : f64) : Prop :=
  match x with
  | S754_zero _ => True
  | S754_finite s m e => s = false ∧ fexp (Z.log2 (Z.pos m) + 1 + e) = e
  | _ => False
  end.

Definition near (y x : Q) : Prop := x - (u * x + eta) <= y <= x + (u * x + eta).

Lemma regular_nonneg x : regular x → 0 <= val x.
Proof.
  destruct x as [| | |s m e]; cbn; intros H; try lra. destruct H as [-> _].
  cbn [F64.signed]. pose proof (pw_pos e).
  assert (0 <= inject_Z (Z.pos m)) by (apply (inject_le 0); lia). nra.
Qed.

(** The nearest multiple of the unit is at most half a unit away. *)
Lemma nearest_half r e x :
  let m := inject_Z (round_nearest_even (shr_m r) (loc_of_shr_record r)) in
  located r e x → x - (1#2) * pw e <= m * pw e <= x + (1#2) * pw e.
Proof.
  pose proof (pw_pos e).
  destruct r as [m [] []]; cbn [located loc_of_shr_record round_nearest_even shr_m shr_r shr_s];
    try destruct (Z.even m); rewrite ?inject_Z_plus; change (inject_Z 1) with 1; lra.
Qed.

Lemma round_exact_range r :
  (shr_m r ≤ round_nearest_even (shr_m r) (loc_of_shr_record r) ≤ shr_m r + 1)%Z.
Proof.
  destruct r as [m [] []]; cbn; try destruct (Z.even m); lia.
Qed.

Lemma located_exact m e : located (shr_record_of_loc m loc_Exact) e (inject_Z m * pw e).
Proof. cbn. reflexivity. Qed.

(** The last step of a rounding: a mantissa of at most 53 bits is kept, and
    [2 ^ 53] is halved. *)
Lemma settle m e :
  (0 ≤ m ≤ 2 ^ 53)%Z → (-1074 ≤ e < 971)%Z → (2 ^ 52 ≤ m ∨ e = -1074)%Z →
  ∃ x, (let '(r, e'') := shr_fexp F64.prec F64.emax m e loc_Exact in
        match shr_m r with
        | Z0 => S754_zero false
        | Zpos m => if Z.leb e'' (Z.sub F64.emax F64.prec) then S754_finite false m e''
                    else S754_infinity false
        | _ => S754_nan
        end) = x ∧ regular x ∧ val x == inject_Z m * pw e.
Proof.
  intros Hm He Hn. eexists; split; [done|]. unfold shr_fexp. rewrite fexp_64.
  change (F64.emax - F64.prec)%Z with 971%Z.
  destruct (Z.eq_dec m 0) as [->|Hm0].
  { destruct Hn as [?| ->]; [lia|]. split; [done|]. change (0 == 0 * pw (-1074)). ring. }
  rewrite Zdigits_log2 by lia.
  destruct (Z.eq_dec m (2 ^ 53)) as [->|Hm1].
  { replace (fexp _ - e)%Z with 1%Z
      by (rewrite Z.log2_pow2 by lia; unfold fexp; lia).
    cbn [shr iter_pos]. change (shr_m _) with (2 ^ 52)%Z at 1 2. cbn [Z.pow Z.pow_pos].
    change (2 ^ 52)%Z with 4503599627370496%Z. cbv iota.
    replace (e + 1 <=? 971)%Z with true by (symmetry; apply Z.leb_le; lia).
    split.
    - cbn [regular]. split; [done|]. change (Z.log2 _) with 52%Z. unfold fexp. lia.
    - cbn [val F64.signed]. rewrite pw_succ. change (inject_Z (2 ^ 53)) with (2 * inject_Z 4503599627370496). ring. }
  assert (L : (Z.log2 m < 53)%Z) by (apply Z.log2_lt_pow2; lia).
  assert (L' : (52 ≤ Z.log2 m ∨ e = -1074)%Z).
  { destruct Hn; [left|by right]. apply Z.log2_le_pow2; lia. }
  pose proof (Z.log2_nonneg m).
  replace (fexp _ - e)%Z with 0%Z by (unfold fexp; lia).
  cbn [shr shr_record_of_loc shr_m]. destruct m as [|m|]; [lia| |lia].
  replace (e <=? 971)%Z with true by (symmetry; apply Z.leb_le; lia).
  split; [|reflexivity]. split; [done|]. unfold fexp. lia.
Qed.

Lemma located_lower r e x : located r e x → inject_Z (shr_m r) * pw e <= x.
Proof.
  pose proof (pw_pos e). destruct r as [m [] []]; cbn; lra.
Qed.

Lemma shifted_range m n k :
  (0 < m)%Z → (0 ≤ n)%Z → (0 ≤ k)%Z →
  ((Z.log2 m < k + n)%Z → (0 ≤ m / 2 ^ n < 2 ^ k)%Z)
  ∧ ((k + n ≤ Z.log2 m)%Z → (2 ^ k ≤ m / 2 ^ n)%Z).
Proof.
  intros Hm Hn Hk. pose proof (Z.pow_pos_nonneg 2 n). split; intros H'.
  - split; [apply Z.div_pos; lia|]. apply Z.div_lt_upper_bound; [lia|].
    rewrite <-Z.pow_add_r, Z.add_comm by lia. apply Z.log2_lt_pow2; lia.
  - apply Z.div_le_lower_bound; [lia|]. rewrite <-Z.pow_add_r, Z.add_comm by lia.
    apply Z.log2_le_pow2; lia.
Qed.

(** Half a unit of the result is within the error of one rounding. *)
Lemma half_unit M F x :
  inject_Z M * pw F <= x → 0 <= x → (2 ^ 52 ≤ M ∨ F = -1074)%Z →
  (1#2) * pw F <= u * x + eta.
Proof.
  pose proof (pw_pos F). pose proof (pw_pos (-1075)). intros Hx Hx0 [HM| ->].
  - apply inject_le, (scale_le _ _ (pw F)) in HM; [|lra].
    change (inject_Z (2 ^ 52)) with (4503599627370496 # 1) in HM. unfold eta, u. lra.
  - unfold eta, u. change (-1074)%Z with (-1075 + 1)%Z. rewrite pw_succ. lra.
Qed.

Lemma round_near m e l x :
  (0 < m)%Z → located (shr_record_of_loc m l) e x → (e ≤ fexp (Z.log2 m + 1 + e))%Z →
  x <= pw 900 →
  let y := binary_round_aux F64.prec F64.emax false m e l in
  regular y ∧ near (val y) x
  ∧ (l = loc_Exact → (fexp (Z.log2 m + 1 + e) = e)%Z → val y == x).
Proof.
  intros Hm Hl He Hx y. set (F := fexp (Z.log2 m + 1 + e)) in *.
  assert (Hm' : shr_m (shr_record_of_loc m l) = m) by (by destruct l as [|[]]).
  destruct (located_shr (shr_record_of_loc m l) e (F - e) x) as (r & Es & Hr & Er & E0);
    [lia|rewrite Hm'; lia|done|].
  replace (e + (F - e))%Z with F in * by lia. rewrite Hm' in Er.
  assert (Ey : y = binary_round_aux F64.prec F64.emax false m e l) by done. clearbody y.
  unfold binary_round_aux in Ey. unfold shr_fexp at 1 in Ey.
  rewrite fexp_64, Zdigits_log2 in Ey by done. fold F in Ey. rewrite Es in Ey.
  assert (Hlog : (Z.log2 m + e ≤ 900)%Z).
  { apply pw_le_inv. rewrite pw_add. apply located_lower in Hl. rewrite Hm' in Hl.
    pose proof (log2_pw m Hm) as [L _]. pose proof (pw_pos e).
    apply (scale_le _ _ (pw e)) in L; lra. }
  pose proof (shifted_range m (F - e) 53 Hm) as [R1 _]; [lia..|].
  pose proof (shifted_range m (F - e) 52 Hm) as [_ R2]; [lia..|].
  assert (HF : (2 ^ 52 ≤ shr_m r ∨ F = -1074)%Z).
  { rewrite Er. destruct (Z.eq_dec F (-1074)) as [?|?]; [by right|left].
    apply R2. unfold F, fexp in *. lia. }
  assert (R3 : (0 ≤ shr_m r < 2 ^ 53)%Z) by (rewrite Er; apply R1; unfold F, fexp; lia).
  pose proof (round_exact_range r) as HM. pose proof (nearest_half r F x Hr) as HN.
  set (M := round_nearest_even _ _) in *.
  destruct (settle M F) as (z & Ez & Hz & Vz); [lia|unfold F, fexp in *; lia|lia|].
  rewrite Ez in Ey. subst y. split; [done|]. pose proof (located_lower r F x Hr) as Hlow.
  assert (0 <= x).
  { pose proof (pw_pos F). assert (0 <= inject_Z (shr_m r)) by (apply (inject_le 0); lia). nra. }
  pose proof (half_unit (shr_m r) F x Hlow) as HU. specialize (HU ltac:(done) HF).
  unfold near. rewrite Vz. split; [cbv zeta in HN; lra|].
  intros -> EF. unfold M. rewrite E0, EF by lia.
  cbn [shr_record_of_loc shr_m loc_of_shr_record round_nearest_even].
  cbn in Hl. lra.
Qed.

(** ** Comparisons *)

Lemma regular_finite s m e :
  regular (S754_finite s m e) →
  s = false ∧ (0 ≤ Z.log2 (Z.pos m) ≤ 52 ∧ -1074 ≤ e)%Z ∧ (Z.log2 (Z.pos m) = 52 ∨ e = -1074)%Z.
Proof.
  intros [-> H]. pose proof (Z.log2_nonneg (Z.pos m)). unfold fexp in H. split; [done|]. lia.
Qed.

Lemma val_pos m e : 0 < val (S754_finite false m e).
Proof.
  cbn [val F64.signed]. pose proof (pw_pos e).
  assert (0 < inject_Z (Z.pos m)) by (apply (inject_lt 0); lia). nra.
Qed.

Lemma val_log2 m e :
  pw (Z.log2 (Z.pos m) + e) <= val (S754_finite false m e) < pw (Z.log2 (Z.pos m) + 1 + e).
Proof.
  cbn [val F64.signed]. rewrite !pw_add. pose proof (pw_pos e).
  pose proof (log2_pw (Z.pos m) ltac:(lia)) as [? L]. rewrite pw_add in L. split; nra.
Qed.

Lemma exponent_order m1 e1 m2 e2 :
  regular (S754_finite false m1 e1) → regular (S754_finite false m2 e2) → (e1 < e2)%Z →
  val (S754_finite false m1 e1) < val (S754_finite false m2 e2).
Proof.
  intros H1%regular_finite H2%regular_finite He.
  pose proof (val_log2 m1 e1). pose proof (val_log2 m2 e2).
  pose proof (pw_le (Z.log2 (Z.pos m1) + 1 + e1) (Z.log2 (Z.pos m2) + e2) ltac:(lia)). lra.
Qed.

Lemma compare_val x y :
  regular x → regular y → SFcompare x y = Some (val x ?= val y).
Proof.
  intros Hx Hy. destruct x as [| | |s1 m1 e1], y as [| | |s2 m2 e2]; try done;
    try (destruct Hx as [-> Hx]); try (destruct Hy as [-> Hy]).
  - cbn [SFcompare]. f_equal. symmetry. apply Qlt_alt, val_pos.
  - cbn [SFcompare]. f_equal. symmetry. apply Qgt_alt, val_pos.
  - cbn [SFcompare]. f_equal. symmetry. destruct (Z.compare_spec e1 e2) as [->|?|?].
    + change (Pos.compare_cont Eq m1 m2) with (m1 ?= m2)%positive.
      cbn [val F64.signed]. pose proof (pw_pos e2).
      destruct (Pos.compare_spec m1 m2) as [->|L|L].
      * by apply Qeq_alt.
      * apply Qlt_alt, scale_lt; [done|]. apply inject_lt. lia.
      * apply Qgt_alt, scale_lt; [done|]. apply inject_lt. lia.
    + apply Qlt_alt, exponent_order; done.
    + apply Qgt_alt, exponent_order; done.
Qed.

Lemma le_val x y : regular x → regular y → F64.le x y = true ↔ val x <= val y.
Proof.
  intros. unfold F64.le, SFleb. rewrite compare_val by done. rewrite Qle_alt.
  by destruct (val x ?= val y).
Qed.
Lemma lt_val x y : regular x → regular y → F64.lt x y = true ↔ val x < val y.
Proof.
  intros. unfold F64.lt, SFltb. rewrite compare_val by done. rewrite Qlt_alt.
  by destruct (val x ?= val y).
Qed.

Lemma min_val x y :
  regular x → regular y →
  regular (F64.min x y) ∧ val (F64.min x y) <= val x ∧ val (F64.min x y) <= val y
  ∧ (val (F64.min x y) == val x ∨ val (F64.min x y) == val y).
Proof.
  intros Hx Hy.
  assert (F64.min x y = if F64.le x y then x else y) as -> by (by destruct x, y).
  pose proof (le_val x y Hx Hy) as H. destruct (F64.le x y).
  - repeat split; [done|lra|by apply H|by left].
  - repeat split; [done| |lra|by right]. apply Qnot_lt_le. intros ?%Qlt_le_weak%H. done.
Qed.

(** ** The operations *)

Lemma near_0 : near 0 0.
Proof. unfold near, eta. pose proof (pw_pos (-1075)). lra. Qed.
Lemma near_refl x : 0 <= x → near x x.
Proof. intros. unfold near, eta, u. pose proof (pw_pos (-1075)). lra. Qed.
#[global] Instance near_proper : Proper (Qeq ==> Qeq ==> iff) near.
Proof. intros a b H c d H'. unfold near. rewrite H, H'. done. Qed.

Lemma mul_near x y :
  regular x → regular y → val x * val y <= pw 900 →
  regular (F64.mul x y) ∧ near (val (F64.mul x y)) (val x * val y).
Proof.
  intros Hx Hy HB.
  destruct x as [| | |s1 m1 e1], y as [| | |s2 m2 e2]; try done;
    try (split; [done|]; cbn [val F64.mul SFmul]; rewrite ?Qmult_0_l, ?Qmult_0_r; apply near_0).
  destruct (regular_finite _ _ _ Hx) as (-> & ? & ?), (regular_finite _ _ _ Hy) as (-> & ? & ?).
  assert (E : val (S754_finite false m1 e1) * val (S754_finite false m2 e2)
    == inject_Z (Z.pos (m1 * m2)) * pw (e1 + e2)).
  { cbn [val F64.signed]. rewrite pw_add, Pos2Z.inj_mul, inject_Z_mult. ring. }
  rewrite E in *. cbn [F64.mul SFmul xorb].
  pose proof (Z.log2_mul_below (Z.pos m1) (Z.pos m2)) as L.
  rewrite <-Pos2Z.inj_mul in L.
  destruct (round_near (Z.pos (m1 * m2)) (e1 + e2) loc_Exact
    (inject_Z (Z.pos (m1 * m2)) * pw (e1 + e2))) as (? & ? & _);
    [lia|apply located_exact|unfold fexp; lia|done|done].
Qed.

Lemma shl_align_val m e e' :
  (∃ d, 0 ≤ d ∧ Z.pos (fst (shl_align m e e')) = Z.pos m * 2 ^ d
    ∧ snd (shl_align m e e') = e - d ∧ e - d = Z.min e e')%Z.
Proof.
  unfold shl_align. destruct (e' - e)%Z as [|p|p] eqn:E.
  - exists 0%Z. cbn. lia.
  - exists 0%Z. cbn. lia.
  - exists (Z.pos p). cbn [fst snd]. split; [lia|]. split; [|lia].
    clear E. revert p. refine (Pos.peano_ind _ _ _); [cbn; lia|].
    intros p IH. rewrite Pos.iter_succ, Pos2Z.inj_xO, IH, Pos2Z.inj_succ, Z.pow_succ_r by lia. lia.
Qed.

Lemma scaled_val m d e : (0 ≤ d)%Z → inject_Z (m * 2 ^ d) * pw (e - d) == inject_Z m * pw e.
Proof.
  intros. rewrite inject_Z_mult, <-pw_Z, <-Qmult_assoc, <-pw_add by done.
  by replace (d + (e - d))%Z with e by lia.
Qed.

Lemma binary_round_near m e x :
  x == inject_Z (Z.pos m) * pw e → x <= pw 900 →
  let y := binary_round F64.prec F64.emax false m e in
  regular y ∧ near (val y) x ∧ ((fexp (Z.log2 (Z.pos m) + 1 + e) ≤ e)%Z → val y == x).
Proof.
  intros Hx HB. cbv zeta. unfold binary_round. rewrite fexp_64, digits_log2.
  set (F := fexp _). destruct (shl_align_val m e F) as (d & Hd & Em & Ee & Emin).
  destruct (shl_align m e F) as [mz ez]. cbn [fst snd] in *. subst ez.
  assert (L : Z.log2 (Z.pos mz) = (Z.log2 (Z.pos m) + d)%Z) by (rewrite Em, Z.log2_mul_pow2; lia).
  destruct (round_near (Z.pos mz) (e - d) loc_Exact x) as (? & ? & HE).
  - lia.
  - cbn. rewrite Hx, Em. symmetry. by apply scaled_val.
  - rewrite L. replace (Z.log2 (Z.pos m) + d + 1 + (e - d))%Z with (Z.log2 (Z.pos m) + 1 + e)%Z by lia.
    fold F. lia.
  - done.
  - split; [done|]. split; [done|]. intros. apply HE; [done|]. rewrite L.
    replace (Z.log2 (Z.pos m) + d + 1 + (e - d))%Z with (Z.log2 (Z.pos m) + 1 + e)%Z by lia.
    fold F. lia.
Qed.

Lemma of_usize_near n :
  (0 ≤ n < 2 ^ 64)%Z →
  regular (F64.of_usize n) ∧ near (val (F64.of_usize n)) (inject_Z n)
  ∧ ((n < 2 ^ 53)%Z → val (F64.of_usize n) == inject_Z n).
Proof.
  intros Hn. destruct n as [|m|]; [|cbn [F64.of_usize binary_normalize]|lia].
  { split; [done|]. split; [apply near_0|done]. }
  destruct (binary_round_near m 0 (inject_Z (Z.pos m))) as (? & ? & HE).
  - change (pw 0) with 1. ring.
  - apply Qle_trans with (pw 64); [rewrite pw_Z by lia; apply inject_le; lia|by apply pw_le].
  - split; [done|]. split; [done|]. intros. apply HE.
    assert (Z.log2 (Z.pos m) < 53)%Z by (apply Z.log2_lt_pow2; lia).
    pose proof (Z.log2_nonneg (Z.pos m)). unfold fexp. lia.
Qed.

(** The common exponent of a sum or difference. *)
Lemma aligned_val m e e' :
  inject_Z (Z.pos (fst (shl_align m e (Z.min e e')))) * pw (Z.min e e') == inject_Z (Z.pos m) * pw e
  ∧ inject_Z (Z.pos (fst (shl_align m e (Z.min e' e)))) * pw (Z.min e' e) == inject_Z (Z.pos m) * pw e.
Proof.
  rewrite (Z.min_comm e' e). destruct (shl_align_val m e (Z.min e e')) as (d & Hd & -> & _ & E).
  replace (Z.min e e') with (e - d)%Z by lia. split; by apply scaled_val.
Qed.

Lemma add_near x y :
  regular x → regular y → val x + val y <= pw 900 →
  regular (F64.add x y) ∧ near (val (F64.add x y)) (val x + val y).
Proof.
  intros Hx Hy HB. pose proof (regular_nonneg x Hx). pose proof (regular_nonneg y Hy).
  destruct x as [[]| | |s1 m1 e1], y as [[]| | |s2 m2 e2]; try done;
    try (split; [done|]; cbn [val F64.add SFadd] in *;
      rewrite ?Qplus_0_l, ?Qplus_0_r; by apply near_refl).
  destruct (regular_finite _ _ _ Hx) as (-> & _), (regular_finite _ _ _ Hy) as (-> & _).
  cbn [F64.add SFadd cond_Zopp]. rewrite <-Pos2Z.inj_add. cbn [binary_normalize].
  destruct (binary_round_near (fst (shl_align m1 e1 (Z.min e1 e2)) + fst (shl_align m2 e2 (Z.min e1 e2)))
    (Z.min e1 e2) (val (S754_finite false m1 e1) + val (S754_finite false m2 e2))) as (? & ? & _);
    [|done|done].
  rewrite Pos2Z.inj_add, inject_Z_plus, Qmult_plus_distr_l.
  by rewrite (proj1 (aligned_val m1 e1 e2)), (proj2 (aligned_val m2 e2 e1)).
Qed.

Lemma sub_near x y :
  regular x → regular y → val y <= val x → val x <= pw 900 →
  regular (F64.sub x y) ∧ near (val (F64.sub x y)) (val x - val y).
Proof.
  intros Hx Hy HB HB'. pose proof (regular_nonneg x Hx). pose proof (regular_nonneg y Hy).
  destruct x as [[]| | |s1 m1 e1], y as [[]| | |s2 m2 e2]; try done;
    try (destruct Hy as [-> _]; pose proof (val_pos m2 e2);
      change (val (S754_finite false m2 e2) <= 0) in HB; lra);
    try (split; [done|]; cbn [val F64.sub SFsub] in *; unfold Qminus;
      rewrite ?Qplus_0_l, ?Qplus_0_r; by apply near_refl).
  destruct (regular_finite _ _ _ Hx) as (-> & _), (regular_finite _ _ _ Hy) as (-> & _).
  cbn [F64.sub SFsub cond_Zopp].
  pose proof (proj1 (aligned_val m1 e1 e2)) as E1. pose proof (proj2 (aligned_val m2 e2 e1)) as E2.
  set (a := Z.pos (fst _)) in *. set (b := Z.pos (fst (shl_align m2 _ _))) in *.
  assert (E : val (S754_finite false m1 e1) - val (S754_finite false m2 e2)
    == inject_Z (a - b) * pw (Z.min e1 e2)).
  { cbn [val F64.signed]. unfold Z.sub. rewrite inject_Z_plus, inject_Z_opp, <-E1, <-E2. ring. }
  pose proof (pw_pos (Z.min e1 e2)).
  assert (0 ≤ a - b)%Z.
  { apply Z.nlt_ge. intros L%inject_lt. change (inject_Z 0) with 0 in L.
    apply (scale_lt _ _ (pw (Z.min e1 e2))) in L; [|done]. lra. }
  destruct (a - b)%Z as [|m|]; [|cbn [binary_normalize]|lia].
  - split; [done|]. rewrite E. change (near 0 (0 * pw (Z.min e1 e2))). rewrite Qmult_0_l. apply near_0.
  - destruct (binary_round_near m (Z.min e1 e2)
      (val (S754_finite false m1 e1) - val (S754_finite false m2 e2))) as (? & ? & _); [done|lra|done].
Qed.

(** Where the remainder of a division puts the exact quotient. *)
Lemma located_quotient a b q r e :
  (0 < b)%Z → a = (b * q + r)%Z → (0 ≤ r < b)%Z →
  located (shr_record_of_loc q (new_location b r)) e (inject_Z a / inject_Z b * pw e).
Proof.
  intros Hb Ea Hr. pose proof (pw_pos e) as Pe.
  assert (Pb : 0 < inject_Z b) by (by apply (inject_lt 0)).
  set (f := inject_Z r / inject_Z b).
  assert (Ef : f * inject_Z b == inject_Z r) by (unfold f; field; lra).
  assert (E : inject_Z a / inject_Z b == inject_Z q + f).
  { unfold f. rewrite Ea, inject_Z_plus, inject_Z_mult. field. lra. }
  rewrite E. clear E.
  assert (H0 : (r = 0)%Z → f == 0).
  { intros ->. change (inject_Z 0) with 0 in Ef. nra. }
  assert (Hpos : (r ≠ 0)%Z → 0 < f).
  { intros. assert (0 < inject_Z r) by (apply (inject_lt 0); lia).
    apply Qnot_le_lt. intros ?. nra. }
  assert (H1 : f < 1).
  { pose proof (inject_lt _ _ (proj2 Hr)). apply Qnot_le_lt. intros ?. nra. }
  assert (H2 : ∀ c, (2 * r ?= b)%Z = c → match c with Lt => f < 1#2 | Eq => f == 1#2 | Gt => (1#2) < f end).
  { assert (E2 : inject_Z (2 * r) == 2 * (f * inject_Z b)) by (rewrite inject_Z_mult, Ef; reflexivity).
    intros c Hc. destruct (Z.compare_spec (2 * r) b) as [L|L|L]; subst c.
    - rewrite L in E2. nra.
    - apply inject_lt in L. apply Qnot_le_lt. intros ?. nra.
    - apply inject_lt in L. apply Qnot_le_lt. intros ?. nra. }
  assert (Hloc : new_location b r = if (r =? 0)%Z then loc_Exact else loc_Inexact (2 * r ?= b)%Z).
  { unfold new_location, new_location_even, new_location_odd. destruct (Z.even b) eqn:Ev; [done|].
    destruct (Z.eqb_spec r 0); [done|]. f_equal.
    assert ((2 * r)%Z ≠ b) by (intros <-; by rewrite Z.even_mul in Ev).
    destruct (Z.compare_spec (2 * r + 1) b), (Z.compare_spec (2 * r) b); lia || done. }
  rewrite Hloc. destruct (Z.eqb_spec r 0) as [->|Hr0].
  { cbn. rewrite H0 by done. ring. }
  specialize (Hpos Hr0). specialize (H2 _ eq_refl).
  destruct (2 * r ?= b)%Z; cbn; nra.
Qed.

Lemma div_exponent m1 e1 m2 e2 :
  regular (S754_finite false m1 e1) → regular (S754_finite false m2 e2) →
  pw (-900) <= val (S754_finite false m1 e1) / val (S754_finite false m2 e2) →
  (Z.log2 (Z.pos m1) + e1 - (Z.log2 (Z.pos m2) + e2) > -902)%Z.
Proof.
  intros H1 H2 H. pose proof (val_log2 m1 e1) as [_ L1]. pose proof (val_log2 m2 e2) as [L2 _].
  pose proof (val_pos m2 e2). set (x := val (S754_finite false m1 e1)) in *.
  set (y := val (S754_finite false m2 e2)) in *.
  assert (pw (-900) * y <= x).
  { apply (scale_le _ _ y) in H; [|lra]. by rewrite div_mul in H. }
  pose proof (pw_pos (-900)).
  assert (L : pw (-900 + (Z.log2 (Z.pos m2) + e2)) < pw (Z.log2 (Z.pos m1) + 1 + e1)).
  { rewrite pw_add. nra. }
  apply pw_lt_inv in L. lia.
Qed.

(** The shift of the dividend leaves a quotient of at least 53 bits. *)
Lemma quotient_large m1 m2 s :
  s = (53 - Z.log2 (Z.pos m1) + Z.log2 (Z.pos m2))%Z → (0 ≤ s)%Z →
  (2 ^ 52 ≤ Z.pos m1 * 2 ^ s / Z.pos m2)%Z.
Proof.
  intros Es Hs. apply Z.div_le_lower_bound; [lia|].
  destruct (Z.log2_spec (Z.pos m1)) as [G1 _]; [lia|].
  destruct (Z.log2_spec (Z.pos m2)) as [_ G2]; [lia|].
  pose proof (Z.log2_nonneg (Z.pos m1)). pose proof (Z.log2_nonneg (Z.pos m2)).
  assert (2 ^ (Z.log2 (Z.pos m2) + 1) * 2 ^ 52 = 2 ^ Z.log2 (Z.pos m1) * 2 ^ s)%Z.
  { rewrite <-!Z.pow_add_r by lia. f_equal. lia. }
  rewrite <-Z.add_1_r in G2. nia.
Qed.

Lemma quotient_val m1 e1 m2 e2 s e :
  (0 ≤ s)%Z → e1 = (s + e + e2)%Z →
  inject_Z (Z.pos m1 * 2 ^ s) / inject_Z (Z.pos m2) * pw e
  == val (S754_finite false m1 e1) / val (S754_finite false m2 e2).
Proof.
  intros Hs ->. cbn [val F64.signed]. pose proof (pw_pos e2).
  assert (P2 : 0 < inject_Z (Z.pos m2)) by (apply (inject_lt 0); lia).
  rewrite inject_Z_mult, <-pw_Z, !pw_add by lia. field. split; lra.
Qed.

Lemma div_near x y :
  regular x → regular y → 0 < val y → val x / val y <= pw 900 →
  (val x == 0 ∨ pw (-900) <= val x / val y) →
  regular (F64.div x y) ∧ near (val (F64.div x y)) (val x / val y).
Proof.
  intros Hx Hy Hy0 HB HL.
  destruct x as [| | |s1 m1 e1], y as [| | |s2 m2 e2]; try done;
    try (split; [done|]; change (val (S754_zero _)) with 0; unfold Qdiv;
      rewrite Qmult_0_l; apply near_0).
  destruct (regular_finite _ _ _ Hx) as (-> & R1 & _), (regular_finite _ _ _ Hy) as (-> & R2 & _).
  pose proof (val_pos m1 e1). destruct HL as [?|HL]; [lra|].
  pose proof (div_exponent m1 e1 m2 e2 Hx Hy HL) as HD.
  cbn [F64.div SFdiv xorb]. unfold SFdiv_core_binary. rewrite fexp_64.
  rewrite !Zdigits_log2 by lia.
  set (l1 := Z.log2 (Z.pos m1)) in *. set (l2 := Z.log2 (Z.pos m2)) in *.
  assert (E' : Z.min (fexp (l1 + 1 + e1 - (l2 + 1 + e2))) (e1 - e2) = (l1 - l2 + e1 - e2 - 53)%Z)
    by (unfold fexp; lia).
  rewrite E'. set (s := (e1 - e2 - (l1 - l2 + e1 - e2 - 53))%Z).
  assert (Hs : (0 < s)%Z) by (unfold s; lia).
  assert (Em : match s with Z0 => Z.pos m1 | Zpos _ => Z.shiftl (Z.pos m1) s | Zneg _ => 0%Z end
    = (Z.pos m1 * 2 ^ s)%Z).
  { destruct s; [lia| |lia]. by rewrite Z.shiftl_mul_pow2 by lia. }
  rewrite Em. clear Em. set (a := (Z.pos m1 * 2 ^ s)%Z).
  pose proof (Z_div_mod a (Z.pos m2) ltac:(lia)) as HDM.
  destruct (Z.div_eucl a (Z.pos m2)) as [q r]. destruct HDM as [Ea Hr].
  assert (Eq : q = (a / Z.pos m2)%Z) by (apply Z.div_unique_pos with r; lia).
  assert (Hq : (2 ^ 52 ≤ q)%Z) by (rewrite Eq; apply quotient_large; unfold s, l1, l2 in *; lia).
  assert (Hl : (52 ≤ Z.log2 q)%Z) by (apply Z.log2_le_pow2; lia).
  pose proof (located_quotient a (Z.pos m2) q r (l1 - l2 + e1 - e2 - 53) ltac:(lia) Ea Hr) as HQ.
  assert (EV : inject_Z a / inject_Z (Z.pos m2) * pw (l1 - l2 + e1 - e2 - 53)
    == val (S754_finite false m1 e1) / val (S754_finite false m2 e2)).
  { apply quotient_val; unfold s in *; lia. }
  destruct (round_near q (l1 - l2 + e1 - e2 - 53) (new_location (Z.pos m2) r)
    (inject_Z a / inject_Z (Z.pos m2) * pw (l1 - l2 + e1 - e2 - 53))) as (? & HN & _);
    [lia|done|unfold fexp; lia|by rewrite EV|].
  split; [done|]. by rewrite EV in HN.
Qed.
End Round.
