(* ===== verification/DurationF64.v ===== *)
(** * Durations and binary64

    What the sources use of [std::time::Duration]: a duration is a number of
    nanoseconds, and it is converted to seconds in [f64] and back, and multiplied
    by a number. How far the roundings carry the result. *)

From Stdlib Require Import QArith Qfield Lqa.
From S2P Require Import Prelude RStr F64 F64Round.
Import Round.

(** ** Durations *)

Module Duration.
Definition nanos_per_sec : Z := 1000000000.
Definition max_secs : Z := 2 ^ 64.

(** [d.as_secs_f64()]. *)
Definition as_secs_f64 (d : Z) : f64 :=
  F64.add (F64.of_usize (d / nanos_per_sec))
    (F64.div (F64.of_usize (d mod nanos_per_sec)) (F64.of_usize nanos_per_sec)).

(** [m * 2 ^ e] to the nearest integer, ties to the even one. *)
Definition nearest (m e : Z) : Z :=
  if 0 <=? e then m * 2 ^ e
  else let q := m / 2 ^ (- e) in
       let r := m mod 2 ^ (- e) in
       match 2 * r ?= 2 ^ (- e) with
       | Lt => q
       | Eq => if Z.even q then q else q + 1
       | Gt => q + 1
       end.

(** [Duration::from_secs_f64(x)]; [None] is its panic on a negative number, on
    NaN and on overflow. *)
Definition from_secs_f64 (x : f64) : option Z :=
  match x with
  | S754_zero _ => Some 0
  | S754_finite false m e =>
      let n := nearest (Z.pos m * nanos_per_sec) e in
      if n <? max_secs * nanos_per_sec then Some n else None
  | _ => None
  end.

(** [d.mul_f64(x)]. *)
Definition mul_f64 (d : Z) (x : f64) : option Z := from_secs_f64 (F64.mul x (as_secs_f64 d)).
End Duration.

Local Open Scope Q_scope.

(** ** Relative errors *)

(** [y] is [x] up to [k] roundings. *)
Definition rel (k : Z) (y x : Q) : Prop :=
  x * (1 - inject_Z k * u) <= y <= x * (1 + inject_Z k * u).

Lemma eta_small : 0 < eta /\ eta <= u * pw (-900).
Proof.
  split; [apply pw_pos|]. unfold eta. change (-1075)%Z with (-175 + -900)%Z. rewrite pw_add.
  apply scale_le; [apply Qlt_le_weak, pw_pos|]. rewrite u_pw. by apply pw_le.
Qed.
Lemma tiny : 0 < pw (-900) /\ pw (-900) <= u * u.
Proof.
  split; [apply pw_pos|]. rewrite u_pw, <-pw_add. by apply pw_le.
Qed.
Lemma huge q : q <= inject_Z (2 ^ 200) → q <= pw 900.
Proof. intros H. eapply Qle_trans; [exact H|]. rewrite <-pw_Z by done. by apply pw_le. Qed.

Lemma near_rel y x : pw (-900) <= x → near y x → rel 2 y x.
Proof. intros Hx H. pose proof eta_small. unfold near, rel, u in *. change (inject_Z 2) with 2. lra. Qed.

Lemma rel_mul y x y' x' :
  0 <= x → 0 <= x' → rel 4 y x → rel 2 y' x' → rel 7 (y * y') (x * x').
Proof.
  unfold rel. change (inject_Z 4) with 4. change (inject_Z 2) with 2. change (inject_Z 7) with 7.
  intros Hx Hx' [L U] [L' U'].
  assert (0 <= x * x') by (by apply Qmult_le_0_compat).
  assert (0 <= y) by (unfold u in *; lra). assert (0 <= y') by (unfold u in *; lra).
  split.
  - apply Qle_trans with ((x * (1 - 4 * u)) * (x' * (1 - 2 * u))); [unfold u; lra|].
    apply Qmult_le_compat_nonneg; split; try assumption; unfold u; lra.
  - apply Qle_trans with ((x * (1 + 4 * u)) * (x' * (1 + 2 * u))); [|unfold u; lra].
    apply Qmult_le_compat_nonneg; by split.
Qed.

(** ** Durations in seconds *)

Definition in_secs (d : Z) : Q := inject_Z d * (1 # 1000000000).

Lemma secs_nonneg d : (0 ≤ d)%Z → 0 <= in_secs d.
Proof. intros H%inject_le. unfold in_secs. change (inject_Z 0) with 0 in H. lra. Qed.
Lemma secs_pos d : (0 < d)%Z → (1 # 1000000000) <= in_secs d.
Proof. intros H. assert (1 <= d)%Z as H'%inject_le by lia. unfold in_secs. change (inject_Z 1) with 1 in H'. lra. Qed.

Lemma billion_val :
  regular (F64.of_usize 1000000000) ∧ val (F64.of_usize 1000000000) == 1000000000 # 1.
Proof. destruct (of_usize_near 1000000000) as (? & _ & ->); done. Qed.

Lemma nanos_near n :
  (0 ≤ n < 1000000000)%Z →
  let y := F64.div (F64.of_usize n) (F64.of_usize 1000000000) in
  regular y ∧ near (val y) (in_secs n).
Proof.
  intros Hn y. destruct billion_val as [RB VB].
  destruct (of_usize_near n) as (RN & _ & VN); [lia|]. specialize (VN ltac:(lia)).
  assert (E : val (F64.of_usize n) / val (F64.of_usize 1000000000) == in_secs n).
  { rewrite VN, VB. unfold in_secs. field. }
  destruct (div_near (F64.of_usize n) (F64.of_usize 1000000000)) as [? HN]; try done.
  - rewrite E. apply huge. pose proof (inject_le n 1000000000). unfold in_secs.
    apply Qle_trans with 1; [|done]. specialize (H ltac:(lia)).
    change (inject_Z 1000000000) with (1000000000#1) in H. lra.
  - destruct (Z.eq_dec n 0) as [->|?]; [by left|right]. rewrite E.
    pose proof (secs_pos n ltac:(lia)). pose proof tiny. unfold u in *. lra.
  - unfold y. split; [done|]. by rewrite E in HN.
Qed.

Lemma as_secs_rel d :
  (0 < d ≤ 2 ^ 63 * Duration.nanos_per_sec - 1)%Z →
  regular (Duration.as_secs_f64 d) ∧ rel 4 (val (Duration.as_secs_f64 d)) (in_secs d).
Proof.
  unfold Duration.as_secs_f64, Duration.nanos_per_sec. intros Hd.
  assert (Hs : (0 ≤ d / 1000000000 < 2 ^ 63)%Z)
    by (split; [apply Z.div_pos|apply Z.div_lt_upper_bound]; lia).
  pose proof (Z.mod_pos_bound d 1000000000 ltac:(lia)) as Hm.
  assert (ED : in_secs d == inject_Z (d / 1000000000) + in_secs (d mod 1000000000)).
  { rewrite (Z.div_mod d 1000000000) at 1 by lia. unfold in_secs.
    rewrite inject_Z_plus, inject_Z_mult. change (inject_Z 1000000000) with (1000000000#1). ring. }
  destruct (of_usize_near (d / 1000000000)) as (RS & NS & _); [lia|].
  destruct (nanos_near _ Hm) as [RN NN].
  pose proof (secs_pos d ltac:(lia)) as HD. pose proof eta_small. pose proof tiny.
  pose proof (inject_le _ _ (proj1 Hs)) as S0. change (inject_Z 0) with 0 in S0.
  pose proof (inject_lt _ _ (proj2 Hs)) as S1. change (inject_Z (2 ^ 63)) with (9223372036854775808#1) in S1.
  pose proof (secs_nonneg _ (proj1 Hm)) as M0.
  pose proof (inject_lt _ _ (proj2 Hm)) as M1. change (inject_Z 1000000000) with (1000000000#1) in M1.
  cbv zeta in *. unfold near, u in NS, NN.
  destruct (add_near (F64.of_usize (d / 1000000000))
    (F64.div (F64.of_usize (d mod 1000000000)) (F64.of_usize 1000000000))) as [RA NA]; try done.
  { apply huge. apply Qle_trans with (99999999999999999999#1); [unfold in_secs, u in *; lra|done]. }
  split; [done|]. unfold near, rel, u in *. change (inject_Z 4) with 4. lra.
Qed.

Lemma nearest_spec m e :
  (0 ≤ m)%Z →
  inject_Z m * pw e - (1#2) <= inject_Z (Duration.nearest m e)
  /\ inject_Z (Duration.nearest m e) <= inject_Z m * pw e + (1#2).
Proof.
  intros Hm. unfold Duration.nearest. destruct (Z.leb_spec 0 e) as [He|He].
  { rewrite inject_Z_mult, pw_Z by done. split; lra. }
  set (k := (2 ^ (- e))%Z). assert (Hk : (0 < k)%Z) by (apply Z.pow_pos_nonneg; lia).
  assert (Ek : inject_Z k * pw e == 1).
  { unfold k. rewrite <-pw_Z, <-pw_add by lia. by rewrite Z.add_opp_diag_l. }
  pose proof (pw_pos e) as Pe.
  assert (EM : inject_Z m * pw e == inject_Z (m / k) + inject_Z (m mod k) * pw e).
  { rewrite (Z.div_mod m k) at 1 by lia. rewrite inject_Z_plus, inject_Z_mult.
    rewrite Qmult_plus_distr_l, (Qmult_comm (inject_Z k)), <-Qmult_assoc, Ek. ring. }
  rewrite EM. clear EM. destruct (Z.mod_pos_bound m k Hk) as [R0%inject_le R1%inject_lt].
  change (inject_Z 0) with 0 in R0.
  assert (R0' : 0 <= inject_Z (m mod k) * pw e) by (apply Qmult_le_0_compat; lra).
  apply (scale_lt _ _ (pw e)) in R1; [|done]. rewrite Ek in R1.
  assert (E2 : inject_Z (2 * (m mod k)) * pw e == 2 * (inject_Z (m mod k) * pw e))
    by (rewrite inject_Z_mult; change (inject_Z 2) with 2; ring).
  destruct (Z.compare_spec (2 * (m mod k)) k) as [C|C%inject_lt|C%inject_lt].
  - rewrite C, Ek in E2. destruct (Z.even (m / k)); rewrite ?inject_Z_plus;
      change (inject_Z 1) with 1; split; lra.
  - apply (scale_lt _ _ (pw e)) in C; [|done]. rewrite E2, Ek in C. split; lra.
  - apply (scale_lt _ _ (pw e)) in C; [|done]. rewrite E2, Ek in C.
    rewrite inject_Z_plus. change (inject_Z 1) with 1. split; lra.
Qed.

(** A duration is the number of seconds to the nanosecond. *)
Lemma from_secs_spec x :
  regular x → val x <= 1000 # 1 →
  ∃ d, Duration.from_secs_f64 x = Some d ∧ (0 ≤ d)%Z
    ∧ in_secs d - (1#2000000000) <= val x <= in_secs d + (1#2000000000).
Proof.
  intros Hx HB. destruct x as [| | |sg m e]; try done.
  { exists 0%Z. split; [done|]. split; [done|]. split; done. }
  destruct (regular_finite _ _ _ Hx) as (-> & _). cbn [Duration.from_secs_f64].
  pose proof (nearest_spec (Z.pos m * Duration.nanos_per_sec) e ltac:(unfold Duration.nanos_per_sec; lia)) as HN.
  pose proof (val_pos m e) as P.
  assert (E : inject_Z (Z.pos m * Duration.nanos_per_sec) * pw e
    == val (S754_finite false m e) * (1000000000#1)).
  { cbn [val F64.signed]. rewrite inject_Z_mult. change (inject_Z Duration.nanos_per_sec) with (1000000000#1). ring. }
  rewrite E in HN. set (n := Duration.nearest _ _) in *.
  assert (Hn : (n < 1000000000001)%Z).
  { rewrite Zlt_Qlt. change (inject_Z 1000000000001) with (1000000000001#1). lra. }
  assert (Hn0 : (-1 < n)%Z).
  { rewrite Zlt_Qlt. change (inject_Z (-1)) with (-1#1). lra. }
  exists n. destruct (Z.ltb_spec n (Duration.max_secs * Duration.nanos_per_sec)) as [_|?];
    [|unfold Duration.max_secs, Duration.nanos_per_sec in *; lia].
  split; [done|]. split; [lia|]. unfold in_secs. split; lra.
Qed.


(** ** A duration times a number *)

Section Spread.
Context (base : Z) (Hbase : (0 < base ≤ 120000000000)%Z).

Lemma base_secs : (1#1000000000) <= in_secs base /\ in_secs base <= 120 # 1.
Proof using All.
  split; [apply secs_pos; lia|]. destruct Hbase as [_ H%inject_le].
  change (inject_Z 120000000000) with (120000000000#1) in H. unfold in_secs. lra.
Qed.

(** Up to half a nanosecond and a bit. *)
Lemma mul_f64_near x lo hi :
  regular x → 0 <= lo → lo <= val x <= hi → hi <= 2 →
  ∃ d, Duration.mul_f64 base x = Some d ∧ (0 ≤ d)%Z
    ∧ lo * inject_Z base - (6#10) <= inject_Z d <= hi * inject_Z base + (6#10).
Proof using All.
  intros Hx L0 [Lx Ux] Hhi. pose proof base_secs as [B1 B2].
  destruct (as_secs_rel base) as [RA LA]; [unfold Duration.nanos_per_sec; lia|].
  unfold rel in LA. change (inject_Z 4) with 4 in LA. set (A := val (Duration.as_secs_f64 base)) in *.
  pose proof tiny as TT. pose proof eta_small as TE. unfold u in LA, TT, TE.
  assert (A0 : 0 <= A) by lra.
  assert (PL : lo * A <= val x * A) by (apply scale_le; lra).
  assert (PU : val x * A <= hi * A) by (apply scale_le; lra).
  assert (HA : hi * A <= 2 * A) by (apply scale_le; lra).
  destruct (mul_near x (Duration.as_secs_f64 base)) as [RM NM]; try done.
  { fold A. apply huge. apply Qle_trans with (300#1); [lra|done]. }
  fold A in NM. unfold near, u in NM. set (Y := val (F64.mul _ _)) in *.
  destruct (from_secs_spec _ RM) as (d & Ed & Hd & LD); [fold Y; lra|]. fold Y in LD.
  exists d. split; [done|]. split; [done|]. unfold in_secs in LD, LA.
  assert (hi * (inject_Z base * (1#1000000000)) * (1 + 4 * (1 # 9007199254740992)) >= hi * A) by nra.
  assert (lo * (inject_Z base * (1#1000000000)) * (1 - 4 * (1 # 9007199254740992)) <= lo * A) by nra.
  unfold in_secs in B1, B2. split; nra.
Qed.

Definition four_fifths : f64 := F64.of_ratio 8 10.
Definition six_fifths : f64 := F64.of_ratio 12 10.

Lemma six_fifths_val : regular six_fifths ∧ val six_fifths <= (6#5) + (1#1000000000000000).
Proof. split; [by vm_compute|]. by vm_compute. Qed.
Lemma four_fifths_val : regular four_fifths ∧ (4#5) - (1#1000000000000000) <= val four_fifths.
Proof. split; [by vm_compute|]. by vm_compute. Qed.

Lemma base_upper d : inject_Z d <= ((6#5) + (1#1000000000000000)) * inject_Z base + (6#10) → (d ≤ base * 6 / 5 + 1)%Z.
Proof using All.
  intros H. assert (d - 1 ≤ base * 6 / 5)%Z; [|lia]. apply Z.div_le_lower_bound; [lia|].
  destruct Hbase as [_ HB%inject_le]. change (inject_Z 120000000000) with (120000000000#1) in HB.
  assert (5 * d < base * 6 + 6)%Z; [|lia]. rewrite Zlt_Qlt, inject_Z_plus, !inject_Z_mult.
  change (inject_Z 5) with 5. change (inject_Z 6) with 6. lra.
Qed.

(** A factor from [0.8..1.2], and one from [1.0..1.2]. *)
Lemma spread_around x :
  regular x → F64.le four_fifths x = true → F64.lt x six_fifths = true →
  ∃ d, Duration.mul_f64 base x = Some d ∧ (base * 4 / 5 ≤ d ≤ base * 6 / 5 + 1)%Z.
Proof using All.
  intros Hx. destruct four_fifths_val as [R4 V4], six_fifths_val as [R6 V6].
  intros HL%le_val HU%lt_val; [|done..].
  destruct (mul_f64_near x ((4#5) - (1#1000000000000000)) ((6#5) + (1#1000000000000000)) Hx)
    as (d & Ed & _ & D1 & D2); [lra|lra|lra|]. exists d. split; [done|]. split; [|by apply base_upper].
  assert (base * 4 / 5 < d + 1)%Z; [|lia]. apply Z.div_lt_upper_bound; [lia|].
  destruct Hbase as [_ HB%inject_le]. change (inject_Z 120000000000) with (120000000000#1) in HB.
  rewrite Zlt_Qlt, !inject_Z_mult, inject_Z_plus. change (inject_Z 5) with 5. change (inject_Z 4) with 4.
  change (inject_Z 1) with 1. lra.
Qed.
Lemma spread_after x :
  regular x → F64.le F64.one x = true → F64.lt x six_fifths = true →
  ∃ d, Duration.mul_f64 base x = Some d ∧ (base ≤ d ≤ base * 6 / 5 + 1)%Z.
Proof using All.
  intros Hx. destruct six_fifths_val as [R6 V6].
  assert (R1 : regular F64.one) by done. assert (V1 : val F64.one == 1) by reflexivity.
  intros HL%le_val HU%lt_val; [|done..].
  destruct (mul_f64_near x 1 ((6#5) + (1#1000000000000000)) Hx)
    as (d & Ed & _ & D1 & D2); [lra|lra|lra|]. exists d. split; [done|]. split; [|by apply base_upper].
  assert (base < d + 1)%Z; [|lia]. rewrite Zlt_Qlt, inject_Z_plus. change (inject_Z 1) with 1. lra.
Qed.
End Spread.
