(* ===== verification/Message.v ===== *)
(** * Chat messages and requests

    The data of crates/agent-types/src/llm (messages, content blocks,
    requests) and the constructors of crates/agent-llm. A [serde_json::Value]
    is a parameter of the model with its compact printer. *)

From S2P Require Import Prelude RStr F64.

(** serde_json: the type of values and [Value::to_string]. *)
Class JsonLib := {
  Value : Type;
  value_to_string : Value → str;
}.

(** [serde_json::Value] where the code looks inside one; the entries of an
    object are sorted by key ([serde_json] without [preserve_order]). *)
Inductive Json :=
| JNull
| JBool (b : bool)
| JNumber (text : str)
| JString (s : str)
| JArray (l : list Json)
| JObject (fields : list (str * Json)).

Fixpoint field (fields : list (str * Json)) (key : str) : option Json :=
  match fields with
  | [] => None
  | (k, v) :: fields => if decide (k = key) then Some v else field fields key
  end.
Definition json_get (v : Json) (key : str) : option Json :=
  match v with JObject fields => field fields key | _ => None end.
Definition as_str (v : Json) : option str :=
  match v with JString s => Some s | _ => None end.
Definition as_bool (v : Json) : option bool :=
  match v with JBool b => Some b | _ => None end.

Inductive MessageRole := System | User | Assistant | Tool.
#[global] Instance MessageRole_eq_dec : EqDecision MessageRole.
Proof. solve_decision. Defined.

Definition role_as_str (r : MessageRole) : str :=
  match r with
  | System => lit "system"
  | User => lit "user"
  | Assistant => lit "assistant"
  | Tool => lit "tool"
  end.

Section Messages.
Context `{J : JsonLib}.

Inductive ContentBlock :=
| Text (text : str)
| ToolUse (call_id tool_name : str) (input : Value)
| ToolResult (call_id tool_name output : str) (is_error : bool)
| Image (description : str)
| Document (description : str).

Record ChatMessage := {
  role : MessageRole;
  blocks : list ContentBlock;
  message_id : option str;
  timestamp_ms : Z;
  api_usage_tokens : option Z;
  reasoning_content : option str;
  estimated_tokens : option Z;
}.

(** [ChatMessageExt::new]. *)
Definition new_message (r : MessageRole) (bs : list ContentBlock) (id : option str)
    (ts : Z) (api : option Z) : ChatMessage :=
  {| role := r; blocks := bs; message_id := id; timestamp_ms := ts; api_usage_tokens := api;
     reasoning_content := None; estimated_tokens := None |}.

Definition text_message (r : MessageRole) (t : str) (ts : Z) : ChatMessage :=
  new_message r [Text t] None ts None.
Definition user_message (t : str) : ChatMessage := text_message User t 0.
Definition system_message (t : str) : ChatMessage := text_message System t 0.
Definition assistant_message (t : str) (ts : Z) : ChatMessage := text_message Assistant t ts.
Definition tool_result_message (call_id tool_name output : str) (is_error : bool) (ts : Z) :
    ChatMessage :=
  new_message Tool [ToolResult call_id tool_name output is_error] None ts None.

Definition text_content (m : ChatMessage) : option str :=
  head (omap (fun b => match b with Text t => Some t | _ => None end) (blocks m)).

Definition tool_use_blocks (m : ChatMessage) : list (str * str * Value) :=
  omap (fun b => match b with ToolUse c n i => Some (c, n, i) | _ => None end) (blocks m).

Inductive ToolChoice := ChoiceAuto | ChoiceRequired | ChoiceNone | ChoiceSpecific (name : str).
Inductive ResponseFormat := FormatText | FormatJsonObject | FormatJsonSchema (name : str) (schema : Value).
Inductive ReasoningEffort := EffortDefault | EffortOff | EffortHigh | EffortMax.
Record ToolSpec := { spec_name : str; spec_description : str; parameters : Value }.

Record LlmRequest := {
  req_messages : list ChatMessage;
  req_tools : list ToolSpec;
  tool_choice : ToolChoice;
  req_max_tokens : option Z;
  req_temperature : option f64;
  response_format : ResponseFormat;
  reasoning_effort : ReasoningEffort;
}.

(** [LlmRequestExt::new]. *)
Definition new_request (ms : list ChatMessage) : LlmRequest :=
  {| req_messages := ms; req_tools := []; tool_choice := ChoiceAuto; req_max_tokens := None;
     req_temperature := None; response_format := FormatText; reasoning_effort := EffortDefault |}.

(** Responses (crates/agent-types/src/llm/response.rs). *)
Record ToolUseBlock := { tu_call_id : str; tu_tool_name : str; tu_input : Value }.
Record Usage := {
  prompt_tokens : Z;
  completion_tokens : Z;
  usage_total_tokens : Z;
  cached_tokens : Z;
  cache_write_tokens : Z;
}.
Inductive StopReason := EndTurn | StopMaxTokens | StopToolUse | ContentFilter.
Record AssistantMessage := {
  am_text : option str;
  am_reasoning_content : option str;
  tool_calls : list ToolUseBlock;
  usage : Usage;
  stop_reason : StopReason;
}.
Record LlmResponse := {
  resp_message : AssistantMessage;
  kv_cache_chunk_hashes : list str;
}.
End Messages.

Record CompletionConfig := { max_tokens : Z; temperature : f64 }.

(** [CompletionConfigExt::validate]. *)
Definition validate_completion_config (c : CompletionConfig) : result () str :=
  if max_tokens c =? 0 then Err (lit "max_tokens must be greater than zero")
  else if F64.lt (temperature c) F64.zero || F64.lt F64.two (temperature c)
  then Err (lit "temperature must be between 0.0 and 2.0")
  else Ok ().

Definition effort_next (e : ReasoningEffort) : ReasoningEffort :=
  match e with
  | EffortDefault => EffortOff
  | EffortOff => EffortHigh
  | EffortHigh => EffortMax
  | EffortMax => EffortDefault
  end.
Definition effort_as_str (e : ReasoningEffort) : str :=
  match e with
  | EffortDefault => lit "default"
  | EffortOff => lit "off"
  | EffortHigh => lit "high"
  | EffortMax => lit "max"
  end.
Definition effort_from_str (value : str) : result ReasoningEffort str :=
  let v := to_ascii_lowercase (trim value) in
  if decide (v = lit "default" ∨ v = lit "auto") then Ok EffortDefault
  else if decide (v = lit "off" ∨ v = lit "none" ∨ v = lit "disabled") then Ok EffortOff
  else if decide (v = lit "high") then Ok EffortHigh
  else if decide (v = lit "max" ∨ v = lit "xhigh" ∨ v = lit "maximum") then Ok EffortMax
  else Err (lit "invalid reasoning effort '" ++ v
            ++ lit "' (expected default, off, high, or max)").

Lemma effort_from_str_round_trip e : effort_from_str (effort_as_str e) = Ok e.
Proof. destruct e; vm_compute; reflexivity. Qed.

(** The two printers of [serde_json]; a message whose values are looked into
    carries [Json]. *)
Class JsonText := {
  json_to_string : Json → str;
  json_to_string_pretty : Json → str;
}.
#[export] Instance json_lib `{JsonText} : JsonLib :=
  {| Value := Json; value_to_string := json_to_string |}.

(** [Map::insert] on the sorted entries of an object. *)
Fixpoint field_insert (key : str) (v : Json) (fields : list (str * Json)) : list (str * Json) :=
  match fields with
  | [] => [(key, v)]
  | (k, w) :: rest =>
      if decide (k = key) then (key, v) :: rest
      else if str_leb k key then (k, w) :: field_insert key v rest
      else (key, v) :: fields
  end.

Lemma field_insert_lookup fs k v k' :
  field (field_insert k v fs) k' = if decide (k = k') then Some v else field fs k'.
Proof.
  induction fs as [|[k1 w] fs IH]; simpl.
  - done.
  - destruct (decide (k1 = k)) as [->|Hne]; simpl; [by destruct (decide (k = k'))|].
    destruct (str_leb k1 k); simpl; [|done]. rewrite IH.
    destruct (decide (k1 = k')), (decide (k = k')); congruence.
Qed.

(** The instance used by witnesses: a JSON value is its printed text. *)
Definition text_json : JsonLib := {| Value := str; value_to_string := fun v => v |}.
