(* ===== verification/Budget.v ===== *)
(** * Token budgets and compaction thresholds

    crates/agent-types/src/context/budget (the shared budget record and the
    [max_tokens] gate), crates/compact/src/policy.rs (the compaction policy,
    its thresholds and the severity analysis) and the daemon's
    [build_token_budget]. *)

From S2P Require Import Prelude RStr F64 Message.

(** A formatted message; an interpolated [f64] is kept as the number. *)
Inductive Msg :=
| M (text : str)
| MRatio (text : str) (ratio : f64).

Inductive BudgetError :=
| InvalidTotalBudget (message : Msg)
| InvalidHardLimitRatio (ratio : f64).

Inductive LlmError :=
| RequestFailed (message : str)
| HttpError (message : str)
| ApiError (message : str)
| ParseError (message : str)
| RateLimited (retry_after_ms : Z) (message : str)
| AuthError (message : str)
| ModelNotFound (model : str)
| ProviderNotFound (message : str)
| ConfigError (message : str)
| ContextLengthExceeded (message : str)
| StreamError (message : str)
| LlmIoError (message : str)
| Timeout
| RetryExhausted (attempts : Z) (message : str)
| Cancelled.

(** [Display] of [LlmError]. *)
Definition llm_error_str (e : LlmError) : str :=
  match e with
  | RequestFailed m => lit "request failed: " ++ m
  | HttpError m => lit "HTTP error: " ++ m
  | ApiError m => lit "API error: " ++ m
  | ParseError m => lit "parse error: " ++ m
  | RateLimited ms m => lit "rate limited (retry after " ++ show ms ++ lit "ms): " ++ m
  | AuthError m => lit "authentication error: " ++ m
  | ModelNotFound m => lit "model not found: " ++ m
  | ProviderNotFound m => lit "provider not found: " ++ m
  | ConfigError m => lit "configuration error: " ++ m
  | ContextLengthExceeded m => lit "context length exceeded: " ++ m
  | StreamError m => lit "stream error: " ++ m
  | LlmIoError m => lit "IO error: " ++ m
  | Timeout => lit "timeout"
  | RetryExhausted n m => lit "LLM request failed after " ++ show n ++ lit " attempts: " ++ m
  | Cancelled => lit "cancelled"
  end.

Inductive CompactError :=
| InvalidConfiguration (message : Msg)
| SummaryBudgetExhausted (message : Msg)
| SummaryParse (message : Msg)
| BoundaryNotFound (pivot_message_id : str)
| InvalidBudget (e : BudgetError)
| Io (message : str)
| Llm (e : LlmError).

Abbreviation CompactResult T := (result T CompactError).

(** [CompressionError]; the text of [Failed] is the display of the wrapped
    error, which is kept itself. *)
Inductive CompressionError :=
| Failed (e : CompactError)
| CompressionIo (message : str).

Definition compression_error_from (e : CompactError) : CompressionError :=
  match e with
  | Io m => CompressionIo m
  | other => Failed other
  end.

Record TokenBudgetConfig := {
  total_budget : Z;
  reserved_for_output : Z;
  reserved_for_system : Z;
  hard_limit_ratio : f64;
}.

(** [CompactionPolicy] has the fields of the configuration. *)
Record CompactionPolicy := {
  p_total_budget : Z;
  p_reserved_for_output : Z;
  p_reserved_for_system : Z;
  p_hard_limit_ratio : f64;
}.

Definition from_budget (b : TokenBudgetConfig) : CompactionPolicy :=
  {| p_total_budget := total_budget b;
     p_reserved_for_output := reserved_for_output b;
     p_reserved_for_system := reserved_for_system b;
     p_hard_limit_ratio := hard_limit_ratio b |}.

Definition available_of (p : CompactionPolicy) : Z :=
  Word.saturating_sub (Word.saturating_sub (p_total_budget p) (p_reserved_for_output p))
    (p_reserved_for_system p).

Definition limit_of (ratio : f64) (available : Z) : Z :=
  F64.to_usize (F64.floor (F64.mul (F64.of_usize available) ratio)).

Definition available_budget (p : CompactionPolicy) : CompactResult Z :=
  if p_total_budget p =? 0
  then Err (InvalidConfiguration (M (lit "total_budget must be greater than zero")))
  else if negb (F64.in_closed F64.zero F64.one (p_hard_limit_ratio p))
  then Err (InvalidConfiguration
              (MRatio (lit "invalid hard_limit_ratio: ") (p_hard_limit_ratio p)))
  else Ok (available_of p).

Definition history_limit (p : CompactionPolicy) : CompactResult Z :=
  let? available := available_budget p in
  Ok (limit_of (p_hard_limit_ratio p) available).

(** ** The [TokenBudgetPolicy] trait *)

Class TokenBudgetPolicy (P : Type) := {
  tbp_total_budget : P → Z;
  tbp_reserved_for_output : P → Z;
  tbp_reserved_for_system : P → Z;
  tbp_hard_limit_ratio : P → f64;
  tbp_validate : P → result () BudgetError;
  tbp_available_budget : P → result Z BudgetError;
  tbp_history_limit : P → result Z BudgetError;
}.

Definition policy_validate (p : CompactionPolicy) : result () BudgetError :=
  if p_total_budget p =? 0
  then Err (InvalidTotalBudget (M (lit "total_budget must be greater than zero")))
  else if negb (F64.in_closed F64.zero F64.one (p_hard_limit_ratio p))
  then Err (InvalidHardLimitRatio (p_hard_limit_ratio p))
  else Ok ().

Definition policy_available_budget (p : CompactionPolicy) : result Z BudgetError :=
  let? _ := policy_validate p in Ok (available_of p).

Definition policy_history_limit (p : CompactionPolicy) : result Z BudgetError :=
  let? available := policy_available_budget p in
  Ok (limit_of (p_hard_limit_ratio p) available).

#[export] Instance CompactionPolicy_budget : TokenBudgetPolicy CompactionPolicy := {
  tbp_total_budget := p_total_budget;
  tbp_reserved_for_output := p_reserved_for_output;
  tbp_reserved_for_system := p_reserved_for_system;
  tbp_hard_limit_ratio := p_hard_limit_ratio;
  tbp_validate := policy_validate;
  tbp_available_budget := policy_available_budget;
  tbp_history_limit := policy_history_limit;
}.

(** [budget_to_config] of manager.rs. *)
Definition budget_to_config {P} `{TokenBudgetPolicy P} (b : P) : TokenBudgetConfig :=
  {| total_budget := tbp_total_budget b;
     reserved_for_output := tbp_reserved_for_output b;
     reserved_for_system := tbp_reserved_for_system b;
     hard_limit_ratio := tbp_hard_limit_ratio b |}.

(** ** Thresholds and severity *)

Record ContextThresholds := { auto_compact_ratio : f64; blocking_ratio : f64 }.

Definition ratio_ok (r : f64) : bool := F64.lt F64.zero r && F64.le r F64.one.

Definition validate_thresholds (t : ContextThresholds) : CompactResult () :=
  if negb (ratio_ok (auto_compact_ratio t))
  then Err (InvalidConfiguration (M (lit "auto_compact_ratio must be in (0.0, 1.0]")))
  else if negb (ratio_ok (blocking_ratio t))
  then Err (InvalidConfiguration (M (lit "blocking_ratio must be in (0.0, 1.0]")))
  else if F64.lt (blocking_ratio t) (auto_compact_ratio t)
  then Err (InvalidConfiguration (M (lit "auto_compact_ratio <= blocking_ratio must hold")))
  else Ok ().

Inductive ContextSeverity := Normal | AutoCompact | Blocking.
#[global] Instance ContextSeverity_eq_dec : EqDecision ContextSeverity.
Proof. solve_decision. Defined.

Record ContextAnalysis := {
  severity : ContextSeverity;
  an_estimated_tokens : Z;
  should_compact : bool;
  total_tokens : Z;
  available_tokens : Z;
  usage_ratio : f64;
}.

Definition threshold (limit : f64) (ratio : f64) : Z :=
  F64.to_usize (F64.floor (F64.mul limit ratio)).

(** [CompactionPolicyService::analyze]. *)
Definition analyze (t : ContextThresholds) (estimated : Z) (p : CompactionPolicy) :
    CompactResult ContextAnalysis :=
  let? hl := history_limit p in
  let hlf := F64.of_usize hl in
  if F64.le hlf F64.zero
  then Err (InvalidConfiguration (M (lit
    "history_limit must be greater than zero (check total_budget vs reserved tokens)")))
  else
    let auto_compact_threshold := threshold hlf (auto_compact_ratio t) in
    let blocking_threshold := threshold hlf (blocking_ratio t) in
    let sev := if blocking_threshold <=? estimated then Blocking
               else if auto_compact_threshold <=? estimated then AutoCompact
               else Normal in
    Ok {| severity := sev;
          an_estimated_tokens := estimated;
          should_compact := negb (bool_decide (sev = Normal));
          total_tokens := estimated;
          available_tokens := Word.saturating_sub (F64.to_usize hlf) estimated;
          usage_ratio := F64.div (F64.of_usize estimated) hlf |}.

(** ** The [max_tokens] gate and the daemon's budget *)

Definition DEFAULT_SYSTEM_TOKEN_RESERVE : Z := 2048.
Definition DEFAULT_MIN_PROMPT_TOKEN_RESERVE : Z := 2048.
Definition DEFAULT_HARD_LIMIT_RATIO : f64 := F64.of_ratio 8 10.
Definition DEFAULT_AUTO_COMPACT_RATIO : f64 := F64.of_ratio 75 100.
Definition DEFAULT_BLOCKING_RATIO : f64 := F64.of_ratio 9 10.

Definition system_reserve (window : Z) : Z :=
  Z.min DEFAULT_SYSTEM_TOKEN_RESERVE (Word.saturating_sub window 1).

Definition nl : str := [10%N].

Definition validate_max_tokens_against_window (max_tokens window reserve : Z)
    (model config_path config_section : str) : result () str :=
  if Word.saturating_add max_tokens reserve <? window then Ok ()
  else
    let reserve_clause :=
      if reserve =? 0 then []
      else lit "together with the system reserve of " ++ show reserve ++ lit " tokens, " in
    if Word.saturating_sub window reserve <=? 1
    then Err (lit "the context window " ++ show window ++ lit " for model " ++ model
              ++ lit " is too small: " ++ reserve_clause
              ++ lit "no positive max_tokens value leaves space for input." ++ nl
              ++ lit "Configuration file: " ++ config_path ++ nl
              ++ lit "Suggestions:" ++ nl
              ++ lit "- Use a model with a larger context window")
    else Err (lit "max_tokens " ++ show max_tokens
              ++ lit " is too large relative to the context window " ++ show window
              ++ lit " for model " ++ model ++ lit ": " ++ reserve_clause
              ++ lit "this would leave NO space for input." ++ nl
              ++ lit "Configuration file: " ++ config_path ++ nl
              ++ lit "Suggestions:" ++ nl
              ++ lit "- Reduce max_tokens (currently " ++ show max_tokens ++ lit ") in "
              ++ config_section ++ lit " section").

(** [evaluate_max_tokens_against_window], the TUI's per-turn gate. *)
Definition evaluate_max_tokens_against_window (window max_tokens : Z) (model config_path : str) :
    result () str :=
  validate_max_tokens_against_window max_tokens window (system_reserve window) model config_path
    (lit "[llm]").

Definition reserved_for_prompt (total : Z) : Z :=
  Z.min DEFAULT_MIN_PROMPT_TOKEN_RESERVE
    (Word.saturating_sub (Word.saturating_sub total (system_reserve total)) 1).

Definition build_token_budget (total configured_output_tokens : Z) : TokenBudgetConfig :=
  let total := Z.max total 1 in
  let sys := system_reserve total in
  let prompt := reserved_for_prompt total in
  {| total_budget := total;
     reserved_for_output :=
       Z.min configured_output_tokens
         (Word.saturating_sub (Word.saturating_sub total sys) prompt);
     reserved_for_system := sys;
     hard_limit_ratio := DEFAULT_HARD_LIMIT_RATIO |}.

(** ** Properties *)

Definition severity_rank (s : ContextSeverity) : Z :=
  match s with Normal => 0 | AutoCompact => 1 | Blocking => 2 end.

Lemma analyze_ok_inv t e p a :
  analyze t e p = Ok a →
  ∃ hl, history_limit p = Ok hl ∧
    severity a = (if threshold (F64.of_usize hl) (blocking_ratio t) <=? e then Blocking
                  else if threshold (F64.of_usize hl) (auto_compact_ratio t) <=? e
                       then AutoCompact else Normal) ∧
    should_compact a = negb (bool_decide (severity a = Normal)) ∧
    an_estimated_tokens a = e.
Proof.
  unfold analyze. intros H. inv_ok. case_hyp H; [discriminate|]. inv_ok.
  eexists; split; [done|]. simpl. done.
Qed.

(** The severity the compaction policy assigns never drops when the
    estimated context grows: with the same thresholds and the same policy a
    larger token estimate gives the same or a higher severity, and
    compaction that is due stays due. *)
Theorem analyze_monotone t p e1 e2 a1 a2 :
  analyze t e1 p = Ok a1 → analyze t e2 p = Ok a2 → e1 ≤ e2 →
  severity_rank (severity a1) ≤ severity_rank (severity a2) ∧
  (should_compact a1 = true → should_compact a2 = true).
Proof.
  intros (hl1&Hh1&Hs1&Hc1&_)%analyze_ok_inv (hl2&Hh2&Hs2&Hc2&_)%analyze_ok_inv He.
  assert (hl2 = hl1) as -> by congruence. rewrite Hc1, Hc2, Hs1, Hs2.
  repeat case_goal; b2p; subst; simpl; split; try done; lia.
Qed.

(** The errors of the two implementations of the budget, matched up. *)
Definition budget_error_as_compact (e : BudgetError) : CompactError :=
  match e with
  | InvalidTotalBudget m => InvalidConfiguration m
  | InvalidHardLimitRatio r => InvalidConfiguration (MRatio (lit "invalid hard_limit_ratio: ") r)
  end.

(** The inherent methods of [CompactionPolicy] and its implementation of
    the [TokenBudgetPolicy] trait compute the same available budget and the
    same history limit, and fail on the same policies with the corresponding
    error. *)
Theorem trait_budget_agrees (p : CompactionPolicy) :
  available_budget p = Result.map_err budget_error_as_compact (tbp_available_budget p) ∧
  history_limit p = Result.map_err budget_error_as_compact (tbp_history_limit p).
Proof.
  unfold history_limit, available_budget. simpl.
  unfold policy_history_limit, policy_available_budget, policy_validate.
  split; repeat case_goal; done.
Qed.

Lemma system_reserve_bounds w :
  0 ≤ w → 0 ≤ system_reserve w ≤ DEFAULT_SYSTEM_TOKEN_RESERVE ∧ (1 ≤ w → system_reserve w < w).
Proof.
  unfold system_reserve, Word.saturating_sub, DEFAULT_SYSTEM_TOKEN_RESERVE. lia.
Qed.

Ltac unfold_budget :=
  unfold build_token_budget, reserved_for_prompt, system_reserve, Word.saturating_sub,
    DEFAULT_SYSTEM_TOKEN_RESERVE, DEFAULT_MIN_PROMPT_TOKEN_RESERVE in *.

(** Whatever window the daemon resolves and whatever output size is
    configured, the budget it builds is valid for the compaction policy, the
    three reserves fit in the window together, a configured output keeps at
    least one token, and the history keeps at least the prompt reserve. *)
Theorem build_token_budget_bounds (total cfg : Z) :
  Word.in_usize total → Word.in_usize cfg →
  let b := build_token_budget total cfg in
  policy_validate (from_budget b) = Ok () ∧
  reserved_for_output b + reserved_for_system b + reserved_for_prompt (total_budget b)
    ≤ total_budget b ∧
  (1 ≤ cfg → 1 ≤ reserved_for_output b) ∧
  available_budget (from_budget b) =
    Ok (total_budget b - reserved_for_output b - reserved_for_system b) ∧
  reserved_for_prompt (total_budget b) ≤
    total_budget b - reserved_for_output b - reserved_for_system b.
Proof.
  intros Ht Hc b.
  assert (1 ≤ total_budget b) by (subst b; unfold_budget; simpl; lia).
  assert (p_total_budget (from_budget b) ≠ 0) by (simpl; lia).
  unfold policy_validate, available_budget, available_of.
  assert (F64.in_closed F64.zero F64.one (p_hard_limit_ratio (from_budget b)) = true) as ->
    by reflexivity.
  destruct (Z.eqb_spec (p_total_budget (from_budget b)) 0); [done|]. cbn [negb].
  unfold Word.in_usize in *. subst b.
  repeat split; [unfold_budget; simpl in *; lia..| |unfold_budget; simpl; lia].
  f_equal. unfold_budget. simpl in *. lia.
Qed.

(** On a window of at most 2049 tokens the daemon's budget leaves the
    history nothing as soon as any output is configured: the system reserve
    and one output token fill the window, the history limit is zero, and the
    severity analysis reports an invalid configuration for every estimate
    (the caller [ContextManager::analyze] turns that into a panic). *)
Theorem small_window_unusable (total cfg : Z) (t : ContextThresholds) (estimated : Z) :
  0 ≤ total ≤ 2049 → 1 ≤ cfg →
  let p := from_budget (build_token_budget total cfg) in
  history_limit p = Ok 0 ∧
  analyze t estimated p =
    Err (InvalidConfiguration (M (lit
      "history_limit must be greater than zero (check total_budget vs reserved tokens)"))).
Proof.
  intros Ht Hc p.
  assert (history_limit p = Ok 0) as Hh; [|split; [done|]; unfold analyze; by rewrite Hh].
  unfold history_limit, available_budget.
  assert (F64.in_closed F64.zero F64.one (p_hard_limit_ratio p) = true) as -> by reflexivity.
  assert (p_total_budget p ≠ 0) by (subst p; simpl; lia).
  destruct (Z.eqb_spec (p_total_budget p) 0); [done|]. simpl.
  assert (available_of p = 0) as ->.
  { subst p. unfold available_of. simpl. unfold_budget. lia. }
  reflexivity.
Qed.

Lemma validate_gate_iff mt w r m cp cs :
  Word.in_usize w → 0 ≤ mt → 0 ≤ r →
  validate_max_tokens_against_window mt w r m cp cs = Ok () ↔ mt + r < w.
Proof.
  unfold Word.in_usize, validate_max_tokens_against_window, Word.saturating_add.
  intros Hw Hm Hr. destruct (Z.ltb_spec (Z.min Word.usize_max (mt + r)) w).
  - split; [lia|done].
  - split; [|lia]. case_match; discriminate.
Qed.

(** A turn the TUI's [max_tokens] gate admits has room for input: the
    available budget of the turn (window less output less system reserve) is
    positive; and no positive output size is admitted on a window that the
    default system reserve fills. *)
Theorem turn_gate_sound (window max_tokens : Z) (ratio : f64) (model path : str) :
  Word.in_usize window → 0 ≤ max_tokens →
  evaluate_max_tokens_against_window window max_tokens model path = Ok () →
  1 ≤ available_of (from_budget
        {| total_budget := window; reserved_for_output := max_tokens;
           reserved_for_system := system_reserve window; hard_limit_ratio := ratio |}) ∧
  (window ≤ DEFAULT_SYSTEM_TOKEN_RESERVE + 1 → max_tokens = 0).
Proof.
  intros Hw Hm H. apply validate_gate_iff in H; [|done|done|].
  - unfold available_of. simpl. unfold Word.in_usize in *. unfold_budget. lia.
  - apply system_reserve_bounds. unfold Word.in_usize in Hw. lia.
Qed.

(** ** Witnesses *)

Definition demo_thresholds : ContextThresholds :=
  {| auto_compact_ratio := DEFAULT_AUTO_COMPACT_RATIO; blocking_ratio := DEFAULT_BLOCKING_RATIO |}.
Definition demo_policy : CompactionPolicy := from_budget (build_token_budget 128000 4096).

Lemma analyze_monotone_witness :
  ∃ a1 a2, analyze demo_thresholds 80000 demo_policy = Ok a1 ∧
    analyze demo_thresholds 96000 demo_policy = Ok a2 ∧
    severity_rank (severity a1) ≤ severity_rank (severity a2).
Proof.
  destruct (analyze demo_thresholds 80000 demo_policy) as [a1|] eqn:E1; [|by vm_compute in E1].
  destruct (analyze demo_thresholds 96000 demo_policy) as [a2|] eqn:E2; [|by vm_compute in E2].
  exists a1, a2. split; [done|split; [done|]].
  apply (analyze_monotone demo_thresholds demo_policy 80000 96000 a1 a2 E1 E2). lia.
Defined.

Lemma build_token_budget_bounds_witness :
  available_budget (from_budget (build_token_budget 8192 1024)) = Ok 5120.
Proof.
  destruct (build_token_budget_bounds 8192 1024) as (_&_&_&H&_).
  - unfold Word.in_usize, Word.usize_max. lia.
  - unfold Word.in_usize, Word.usize_max. lia.
  - exact H.
Defined.

Lemma small_window_unusable_witness :
  history_limit (from_budget (build_token_budget 2048 512)) = Ok 0.
Proof. apply (small_window_unusable 2048 512 demo_thresholds 10); lia. Defined.

Lemma turn_gate_sound_witness :
  1 ≤ available_of (from_budget
        {| total_budget := 8192; reserved_for_output := 1024;
           reserved_for_system := system_reserve 8192; hard_limit_ratio := F64.one |}).
Proof.
  apply (turn_gate_sound 8192 1024 F64.one (lit "m") (lit "c.toml")).
  - unfold Word.in_usize, Word.usize_max. lia.
  - lia.
  - reflexivity.
Defined.
