(* ===== verification/Estimator.v ===== *)
(** * Token estimators

    The [TokenEstimator] trait of crates/agent-contracts as a class, the
    laws its clients in crates/compact rely on, and [RoughTokenEstimator]
    (crates/compact/src/estimator.rs), which satisfies them. Second part: the
    estimator of crates/core/src/token_estimator.rs with its one-shot caches. *)

From S2P Require Import Prelude RStr F64 Message Budget.

Class TokenEstimator `{J : JsonLib} := {
  estimate_message_tokens : ChatMessage → Z;
  estimate_messages_tokens : list ChatMessage → Z;
  estimate_text_tokens : str → Z;
}.

(** What the summary builder relies on: the estimate of a text depends only
    monotonically on its number of characters, the empty text is free, and
    splitting a text never makes it cheaper. *)
Class TextEstimatorLaws `{J : JsonLib} (E : TokenEstimator) : Prop := {
  est_empty : estimate_text_tokens [] = 0;
  est_mono s t : (length s ≤ length t)%nat → estimate_text_tokens s ≤ estimate_text_tokens t;
  est_subadd s t :
    estimate_text_tokens (s ++ t) ≤ estimate_text_tokens s + estimate_text_tokens t;
}.

Section Laws.
Context `{J : JsonLib} {E : TokenEstimator} {L : TextEstimatorLaws E}.

Lemma est_length s t : length s = length t → estimate_text_tokens s = estimate_text_tokens t.
Proof. intros. apply Z.le_antisymm; apply est_mono; lia. Qed.

Lemma est_nonneg s : 0 ≤ estimate_text_tokens s.
Proof. rewrite <-est_empty. apply est_mono. simpl. lia. Qed.
End Laws.

(** ** [RoughTokenEstimator] *)

Record RoughTokenEstimatorConfig := {
  chars_per_token : Z;
  message_overhead_tokens : Z;
  tool_use_overhead_tokens : Z;
  tool_result_overhead_tokens : Z;
  image_block_overhead_tokens : Z;
  document_block_overhead_tokens : Z;
}.

Record RoughTokenEstimator := { rough_config : RoughTokenEstimatorConfig }.

Definition rough_try_new (c : RoughTokenEstimatorConfig) : CompactResult RoughTokenEstimator :=
  if chars_per_token c =? 0
  then Err (InvalidConfiguration (M (lit "chars_per_token must be greater than zero")))
  else Ok {| rough_config := c |}.

Definition rough_text (r : RoughTokenEstimator) (text : str) : Z :=
  let characters := char_count text in
  if characters =? 0 then 0 else Word.div_ceil characters (chars_per_token (rough_config r)).

Section Rough.
Context `{J : JsonLib}.

Definition rough_block (r : RoughTokenEstimator) (b : ContentBlock) : Z :=
  let c := rough_config r in
  match b with
  | Text text => rough_text r text
  | ToolUse _ tool_name input =>
      Word.add (Word.add (tool_use_overhead_tokens c) (rough_text r tool_name))
        (rough_text r (value_to_string input))
  | ToolResult _ tool_name output _ =>
      Word.add (Word.add (tool_result_overhead_tokens c) (rough_text r tool_name))
        (rough_text r output)
  | Image d => Word.add (image_block_overhead_tokens c) (rough_text r d)
  | Document d => Word.add (document_block_overhead_tokens c) (rough_text r d)
  end.

Definition rough_message (r : RoughTokenEstimator) (m : ChatMessage) : Z :=
  Word.add (message_overhead_tokens (rough_config r)) (Word.sum (rough_block r <$> blocks m)).

Definition rough_messages (r : RoughTokenEstimator) (ms : list ChatMessage) : Z :=
  Word.sum (rough_message r <$> ms).

Definition rough_estimator (r : RoughTokenEstimator) : TokenEstimator := {|
  estimate_message_tokens := rough_message r;
  estimate_messages_tokens := rough_messages r;
  estimate_text_tokens := rough_text r;
|}.

Lemma rough_laws_pos r :
  0 < chars_per_token (rough_config r) → TextEstimatorLaws (rough_estimator r).
Proof.
  intros Hpos. split; simpl; unfold rough_text, char_count.
  - done.
  - intros s t Hle. repeat case_match; b2p; try lia.
    + apply Word.div_ceil_nonneg; lia.
    + apply Word.div_ceil_mono; lia.
  - intros s t. rewrite length_app, Nat2Z.inj_add.
    pose proof (Word.div_ceil_subadd (Z.of_nat (length s)) (Z.of_nat (length t)) _ Hpos).
    repeat case_match; b2p; try lia.
    + replace (Z.of_nat (length s)) with 0 by lia. by rewrite Z.add_0_l.
    + replace (Z.of_nat (length t)) with 0 by lia. by rewrite !Z.add_0_r.
Qed.

(** Every estimator that [RoughTokenEstimator::try_new] accepts meets the
    laws the summary builder is verified against. *)
Theorem rough_estimator_laws c r :
  Word.in_usize (chars_per_token c) → rough_try_new c = Ok r →
  TextEstimatorLaws (rough_estimator r).
Proof.
  unfold rough_try_new, Word.in_usize. intros Hc H. case_hyp H; [discriminate|].
  inv_ok. b2p. apply rough_laws_pos. simpl. lia.
Qed.

(** The estimate of a history is the sum of its parts, modulo the width of
    [usize]. *)
Lemma rough_messages_app r ms ms' :
  rough_messages r (ms ++ ms') = Word.add (rough_messages r ms) (rough_messages r ms').
Proof.
  unfold rough_messages. rewrite !Word.sum_wrap, fmap_app, foldr_app.
  unfold Word.add, Word.usize_wrap. rewrite <-Z.add_mod by lia. f_equal.
  induction (rough_message r <$> ms) as [|x l IH]; simpl; [done|]. rewrite IH. lia.
Qed.
End Rough.

(** The tuning constants of crates/compact/src/defaults.rs. *)
Definition default_rough_config : RoughTokenEstimatorConfig := {|
  chars_per_token := 4;
  message_overhead_tokens := 4;
  tool_use_overhead_tokens := 8;
  tool_result_overhead_tokens := 8;
  image_block_overhead_tokens := 256;
  document_block_overhead_tokens := 256;
|}.
Definition default_rough : RoughTokenEstimator := {| rough_config := default_rough_config |}.

Lemma rough_estimator_laws_witness :
  TextEstimatorLaws (J := text_json) (rough_estimator (J := text_json) default_rough).
Proof.
  apply (rough_estimator_laws (J := text_json) default_rough_config default_rough).
  - unfold Word.in_usize, Word.usize_max. simpl. lia.
  - reflexivity.
Defined.

(** ** The agent loop's estimator *)

Module LoopEstimator.
Section LoopEstimator.
Context `{J : JsonLib}.

Definition TOOLS_BASE_OVERHEAD_TOKENS : Z := 200.
Definition TOOLS_AVG_TOKENS_PER_TOOL : Z := 150.

(** The two [OnceLock]s. *)
Record t := { system_prompt_tokens : option Z; tools_tokens : option Z }.
Definition new : t := {| system_prompt_tokens := None; tools_tokens := None |}.

Definition estimate_text_precise (text : str) : Z :=
  let count := char_count text in
  let bytes := utf8_len text in
  let four := F64.of_usize 4 in
  let ascii_ratio :=
    if 0 <? count then
      let q := F64.div (F64.of_usize bytes) (F64.of_usize count) in
      if F64.lt q four then q else four
    else four in
  if F64.lt (F64.of_ratio 25 10) ascii_ratio
  then Z.max (count / 2) 1 + 20
  else Z.max (count / 4) 1 + 20.

Definition estimate_text_quick (text : str) : Z :=
  let count := char_count text in
  let has_chinese := existsb (fun c => 127 <? c)%N text in
  if has_chinese then count / 2 + 10 else count / 4 + 10.

Definition estimate_block (b : ContentBlock) : Z :=
  match b with
  | Text text => estimate_text_quick text
  | ToolUse _ _ input => estimate_text_quick (value_to_string input) + 20
  | ToolResult _ _ output _ => estimate_text_quick output + 15
  | Image d => estimate_text_quick d + 100
  | Document d => estimate_text_quick d + 150
  end.

Definition estimate_message (m : ChatMessage) : Z :=
  match estimated_tokens m with
  | Some cached => cached
  | None =>
      let total := foldl (fun total b => Word.add total (estimate_block b)) 0 (blocks m) in
      let total := match reasoning_content m with
                   | Some r => Word.add total (estimate_text_quick r)
                   | None => total
                   end in
      Word.add total 10
  end.

Definition estimate_history_messages (ms : list ChatMessage) : Z :=
  Word.sum (estimate_message <$> ms).

(** [get_or_init] on a [OnceLock]: the first value stays. *)
Definition get_or_init (cell : option Z) (v : Z) : Z * option Z :=
  match cell with Some x => (x, Some x) | None => (v, Some v) end.

Definition estimate_system_prompt (e : t) (prompt : str) : Z * t :=
  let '(v, c) := get_or_init (system_prompt_tokens e) (estimate_text_precise prompt) in
  (v, {| system_prompt_tokens := c; tools_tokens := tools_tokens e |}).

Definition estimate_tools (e : t) (count : Z) : Z * t :=
  let '(v, c) := get_or_init (tools_tokens e)
    (Word.add TOOLS_BASE_OVERHEAD_TOKENS (Word.usize_wrap (count * TOOLS_AVG_TOKENS_PER_TOOL))) in
  (v, {| system_prompt_tokens := system_prompt_tokens e; tools_tokens := c |}).

Definition estimate_input_tokens (e : t) (prompt : str) (tools_count : Z)
    (ms : list ChatMessage) : Z * t :=
  let '(system_tokens, e) := estimate_system_prompt e prompt in
  let '(tools, e) := estimate_tools e tools_count in
  (Word.add (Word.add system_tokens tools) (estimate_history_messages ms), e).

Definition update_message_cache (m : ChatMessage) : ChatMessage :=
  match estimated_tokens m with
  | Some _ => m
  | None =>
      {| role := role m; blocks := blocks m; message_id := message_id m;
         timestamp_ms := timestamp_ms m; api_usage_tokens := api_usage_tokens m;
         reasoning_content := reasoning_content m;
         estimated_tokens := Some (estimate_message m) |}
  end.

(** A sequence of requests priced by one estimator. *)
Fixpoint run (e : t) (calls : list (str * Z * list ChatMessage)) : list Z * t :=
  match calls with
  | [] => ([], e)
  | (p, n, ms) :: calls =>
      let '(v, e) := estimate_input_tokens e p n ms in
      let '(vs, e) := run e calls in
      (v :: vs, e)
  end.

Lemma update_message_cache_estimate m :
  estimate_message (update_message_cache m) = estimate_message m.
Proof.
  unfold update_message_cache. destruct (estimated_tokens m) eqn:Em; [done|].
  unfold estimate_message at 1. simpl. done.
Qed.

(** The prompt and tool share of the first call prices every later call. *)
Lemma run_cached sys tools calls vs e' :
  run {| system_prompt_tokens := Some sys; tools_tokens := Some tools |} calls = (vs, e') →
  vs = (fun '(_, _, ms) => Word.add (Word.add sys tools) (estimate_history_messages ms)) <$> calls.
Proof.
  revert vs e'. induction calls as [|[[p n] ms] calls IH]; intros vs e'; simpl.
  - by intros [= <- _].
  - destruct (run _ calls) as [vs0 e0] eqn:E. intros [= <- _]. f_equal. by eapply IH.
Qed.

(** Filling the per-message caches never changes a price, and one
    estimator prices the system prompt and the tool list of its first
    request into every later request, whatever prompt and tool count that
    request has; only the history part is fresh. *)
Theorem estimator_caches p n ms calls vs e' :
  run new ((p, n, ms) :: calls) = (vs, e') →
  vs = (fun ms => Word.add
          (Word.add (estimate_text_precise p)
             (Word.add TOOLS_BASE_OVERHEAD_TOKENS
                (Word.usize_wrap (n * TOOLS_AVG_TOKENS_PER_TOOL))))
          (estimate_history_messages ms)) <$> (ms :: (snd <$> calls)) ∧
  (∀ ms', estimate_history_messages (update_message_cache <$> ms') =
          estimate_history_messages ms').
Proof.
  simpl. destruct (run _ calls) as [vs0 e0] eqn:E. intros [= <- _].
  apply run_cached in E as ->. split.
  - simpl. f_equal. rewrite <-list_fmap_compose. apply list_fmap_ext. by intros ? [[??]?].
  - intros ms'. unfold estimate_history_messages. f_equal. rewrite <-list_fmap_compose.
    apply list_fmap_ext. intros ???. simpl. apply update_message_cache_estimate.
Qed.
End LoopEstimator.

Lemma estimator_caches_witness :
  ∃ vs e', run (J := text_json) new
    [(lit "short", 1, []); (lit "a system prompt that is a great deal longer", 40, [])] = (vs, e') ∧
  vs = [371; 371].
Proof.
  destruct (run (J := text_json) new
    [(lit "short", 1, []); (lit "a system prompt that is a great deal longer", 40, [])])
    as [vs e'] eqn:E.
  exists vs, e'. split; [done|].
  destruct (estimator_caches (J := text_json) _ _ _ _ _ _ E) as [-> _].
  vm_compute. reflexivity.
Defined.
End LoopEstimator.
