(* ===== verification/Compaction.v ===== *)
(** * Choosing and replacing the messages to compact

    crates/compact/src/compaction.rs: the boundary search, the candidate
    window, the loop that moves the window's end so that no kept tool result
    loses its tool call, and the replacement of the candidates by a summary
    message. Indexes are [nat]; a history is a list of messages. *)

From S2P Require Import Prelude RStr Message Budget.

Inductive PartialDirection := BeforePivot | AfterPivot.

Record CompactionBoundary := {
  pivot_message_id : str;
  direction : PartialDirection;
}.

Record CompactionWindow := { start : nat; stop : nat }.

Section Compaction.
Context `{J : JsonLib}.
Implicit Types (ms : list ChatMessage) (m : ChatMessage).

Definition is_system m : bool := bool_decide (role m = System).
Definition is_user m : bool := bool_decide (role m = User).
Definition is_assistant m : bool := bool_decide (role m = Assistant).

(** [iter().enumerate()]. *)
Definition enumerate {A} (l : list A) : list (nat * A) := imap pair l.

(** [iter().position(f)]. *)
Definition position {A} (f : A → bool) (l : list A) : option nat :=
  fst <$> list_find (fun x => f x = true) l.

(** [find_map]. *)
Definition find_map {A B} (f : A → option B) (l : list A) : option B := head (omap f l).

Definition discover_boundary ms (preserve_tail_messages : nat) : option CompactionBoundary :=
  let boundary_search_end := (length ms - preserve_tail_messages)%nat in
  find_map (fun '(index, m) =>
      match message_id m with
      | None => None
      | Some id =>
          let has_removable_history := existsb (fun m => negb (is_system m)) (take index ms) in
          if has_removable_history
          then Some {| pivot_message_id := id; direction := BeforePivot |}
          else None
      end)
    (reverse (enumerate (take boundary_search_end ms))).

Definition resolve_boundary_index ms (b : CompactionBoundary) : CompactResult nat :=
  Result.ok_or (position (fun m => bool_decide (message_id m = Some (pivot_message_id b))) ms)
    (BoundaryNotFound (pivot_message_id b)).

Definition resolve_compaction_window ms (preserve_tail_messages : nat)
    (boundary : option CompactionBoundary) : CompactResult CompactionWindow :=
  let protected_tail_start := (length ms - preserve_tail_messages)%nat in
  let? window :=
    match boundary with
    | Some b =>
        let? boundary_index := resolve_boundary_index ms b in
        match direction b with
        | BeforePivot => Ok {| start := 0; stop := boundary_index |}
        | AfterPivot => Ok {| start := S boundary_index; stop := protected_tail_start |}
        end
    | None => Ok {| start := 0; stop := protected_tail_start |}
    end in
  Ok {| start := Nat.min (start window) (length ms); stop := Nat.min (stop window) (length ms) |}.

Definition message_tool_result_ids m : list str :=
  omap (fun b => match b with ToolResult call_id _ _ _ => Some call_id | _ => None end) (blocks m).

Definition message_has_tool_use_with_ids m (ids : list str) : bool :=
  existsb (fun b => match b with
                    | ToolUse call_id _ _ => bool_decide (call_id ∈ ids)
                    | _ => false
                    end) (blocks m).

(** [messages[index]] under a test, for an index in range. *)
Definition test_at (f : ChatMessage → bool) ms (i : nat) : bool :=
  match ms !! i with Some m => f m | None => false end.

(** [for index in (lo..hi).rev() { if test(index) { acc = acc.min(index) } }]. *)
Definition lower_to_match (test : nat → bool) (lo hi : nat) (acc : nat) : nat :=
  foldl (fun acc i => if test i then Nat.min acc i else acc) acc (reverse (seq lo (hi - lo))).

Definition same_assistant_id (id : str) m : bool :=
  is_assistant m && bool_decide (message_id m = Some id).

Definition find_required_keep_start ms (window_start keep_start : nat) : nat :=
  let kept_messages := drop keep_start ms in
  let required_tool_use_ids := concat (message_tool_result_ids <$> kept_messages) in
  let required :=
    match required_tool_use_ids with
    | [] => keep_start
    | _ => lower_to_match
             (test_at (fun m => message_has_tool_use_with_ids m required_tool_use_ids) ms)
             window_start keep_start keep_start
    end in
  foldl (fun required kept =>
      if negb (is_assistant kept) then required
      else match message_id kept with
           | None => required
           | Some id =>
               lower_to_match (test_at (same_assistant_id id) ms) window_start keep_start required
           end)
    required kept_messages.

(** The [loop] of [adjust_keep_start_for_invariants]; every round that does
    not return lowers the start, so [keep_start] rounds and one more are
    enough ([adjust_loop_fixpoint]). *)
Fixpoint adjust_loop (fuel : nat) ms (floor_start adjusted : nat) : nat :=
  match fuel with
  | O => adjusted
  | S fuel =>
      let required := find_required_keep_start ms floor_start adjusted in
      if (required =? adjusted)%nat then adjusted else adjust_loop fuel ms floor_start required
  end.

Definition adjust_keep_start_for_invariants ms (keep_start floor_start : nat) : nat :=
  if (keep_start <=? floor_start)%nat || (length ms <=? keep_start)%nat
  then Nat.min keep_start (length ms)
  else adjust_loop (S keep_start) ms floor_start keep_start.

Definition first_user_index ms : option nat := position is_user ms.

Definition candidate_indexes ms (preserve_tail_messages : nat)
    (boundary : option CompactionBoundary) : CompactResult (list nat) :=
  let? window := resolve_compaction_window ms preserve_tail_messages boundary in
  let adjusted_end := adjust_keep_start_for_invariants ms (stop window) (start window) in
  Ok (omap (fun '(index, m) =>
        if is_system m then None
        else if bool_decide (Some index = first_user_index ms) then None
        else if (index <? start window)%nat || (adjusted_end <=? index)%nat then None
        else Some index)
      (enumerate ms)).

Definition list_min (l : list nat) : option nat :=
  match l with [] => None | x :: l => Some (foldl Nat.min x l) end.

Definition apply_candidate_replacement ms (cands : list nat) (replacement : option ChatMessage) :
    list ChatMessage :=
  let first_candidate := list_min cands in
  foldl (fun res '(index, m) =>
      let res := if bool_decide (Some index = first_candidate)
                 then match replacement with Some r => res ++ [r] | None => res end
                 else res in
      if bool_decide (index ∈ cands) then res else res ++ [m])
    [] (enumerate ms).

(** [ContextManager::resolve_candidates]. *)
Definition resolve_candidates ms (preserve_tail_messages : nat)
    (boundary : option CompactionBoundary) :
    CompactResult (option CompactionBoundary * list nat) :=
  let effective := match boundary with
                   | Some b => Some b
                   | None => discover_boundary ms preserve_tail_messages
                   end in
  let? cands := candidate_indexes ms preserve_tail_messages effective in
  Ok (effective, cands).

(** ** The loop that lowers the window's end *)

Section Decreasing.
Context {A : Type} (g : nat → A → nat) (g_le : ∀ a x, (g a x ≤ a)%nat).

Lemma foldl_decreasing l a : (foldl g a l ≤ a)%nat.
Proof.
  revert a; induction l as [|x l IH]; intros a; simpl; [done|].
  etrans; [apply IH|apply g_le].
Qed.

Lemma foldl_stable l a x : foldl g a l = a → x ∈ l → g a x = a.
Proof.
  induction l as [|y l IH]; intros Hf Hx; [by apply not_elem_of_nil in Hx|].
  simpl in Hf. pose proof (foldl_decreasing l (g a y)). pose proof (g_le a y).
  assert (g a y = a) as Hy by lia. rewrite Hy in Hf.
  apply elem_of_cons in Hx as [->|Hx]; auto.
Qed.

Lemma foldl_above lo l a :
  (∀ a x, x ∈ l → (lo ≤ a → lo ≤ g a x)%nat) → (lo ≤ a)%nat → (lo ≤ foldl g a l)%nat.
Proof.
  revert a; induction l as [|x l IH]; intros a Hg Ha; simpl; [done|].
  apply IH; [intros; apply Hg; [by right|done]|]. apply Hg; [by left|done].
Qed.
End Decreasing.

Lemma lower_step_le (test : nat → bool) a i : ((if test i then Nat.min a i else a) ≤ a)%nat.
Proof. destruct (test i); lia. Qed.

Lemma lower_to_match_le test lo hi a : (lower_to_match test lo hi a ≤ a)%nat.
Proof. unfold lower_to_match. apply foldl_decreasing, lower_step_le. Qed.

Lemma lower_to_match_above test lo hi a : (lo ≤ a → lo ≤ lower_to_match test lo hi a)%nat.
Proof.
  intros Ha. unfold lower_to_match. apply foldl_above; [|done].
  intros b i Hi%elem_of_reverse%elem_of_seq ?. destruct (test i); lia.
Qed.

Lemma lower_to_match_stable test lo hi i :
  lower_to_match test lo hi hi = hi → (lo ≤ i < hi)%nat → test i = false.
Proof.
  unfold lower_to_match. intros Hf Hi.
  assert (i ∈ reverse (seq lo (hi - lo))) as Hin by (apply elem_of_reverse, elem_of_seq; lia).
  pose proof (foldl_stable _ (lower_step_le test) _ _ _ Hf Hin) as H.
  simpl in H. destruct (test i); [lia|done].
Qed.

Lemma keep_assistant_le ms ws ks a kept :
  ((if negb (is_assistant kept) then a
    else match message_id kept with
         | None => a
         | Some id => lower_to_match (test_at (same_assistant_id id) ms) ws ks a
         end) ≤ a)%nat.
Proof. repeat case_match; try done. apply lower_to_match_le. Qed.

Lemma find_required_le ms ws ks : (find_required_keep_start ms ws ks ≤ ks)%nat.
Proof.
  unfold find_required_keep_start. etrans; [apply foldl_decreasing, keep_assistant_le|].
  case_match; [done|apply lower_to_match_le].
Qed.

Lemma find_required_above ms ws ks : (ws ≤ ks → ws ≤ find_required_keep_start ms ws ks)%nat.
Proof.
  intros H. unfold find_required_keep_start. apply foldl_above.
  - intros a m _ Ha. repeat case_match; try done. by apply lower_to_match_above.
  - case_match; [done|by apply lower_to_match_above].
Qed.

(** What makes a window's end safe: nothing kept from [ks] on answers a tool
    call inside the window or continues an assistant message of it. *)
Definition keep_start_safe ms (ws ks : nat) : Prop :=
  ∀ i j mi mj, (ws ≤ i < ks)%nat → (ks ≤ j)%nat → ms !! i = Some mi → ms !! j = Some mj →
    message_has_tool_use_with_ids mi (message_tool_result_ids mj) = false ∧
    (∀ id, same_assistant_id id mi = true → same_assistant_id id mj = false).

Lemma has_tool_use_mono m ids ids' :
  (∀ x, x ∈ ids → x ∈ ids') →
  message_has_tool_use_with_ids m ids = true → message_has_tool_use_with_ids m ids' = true.
Proof.
  unfold message_has_tool_use_with_ids. rewrite !existsb_exists.
  intros Hsub (b & Hb & Ht). exists b. split; [done|]. destruct b; try done.
  apply bool_decide_eq_true in Ht. apply bool_decide_eq_true. auto.
Qed.

Lemma required_tool_use_stable ms ws ks i mi mj :
  let ids := concat (message_tool_result_ids <$> drop ks ms) in
  match ids with
  | [] => ks
  | _ => lower_to_match (test_at (fun m => message_has_tool_use_with_ids m ids) ms) ws ks ks
  end = ks →
  (ws ≤ i < ks)%nat → ms !! i = Some mi → mj ∈ drop ks ms →
  message_has_tool_use_with_ids mi (message_tool_result_ids mj) = false.
Proof.
  intros ids Hst Hi Hmi Hmj.
  assert (∀ x, x ∈ message_tool_result_ids mj → x ∈ ids) as Hsub.
  { intros x Hx. unfold ids. apply list_elem_of_In, in_concat. exists (message_tool_result_ids mj).
    split; [|by apply list_elem_of_In]. apply list_elem_of_In, list_elem_of_fmap. eauto. }
  apply not_true_is_false. intros Ht. pose proof (has_tool_use_mono _ _ _ Hsub Ht) as Ht'.
  clearbody ids. destruct ids as [|x ids].
  - unfold message_has_tool_use_with_ids in Ht'. apply existsb_exists in Ht' as (b&_&Hb).
    by destruct b.
  - pose proof (lower_to_match_stable _ _ _ i Hst Hi) as Hf.
    unfold test_at in Hf. rewrite Hmi in Hf. congruence.
Qed.

Lemma find_required_stable ms ws ks :
  find_required_keep_start ms ws ks = ks → keep_start_safe ms ws ks.
Proof.
  unfold find_required_keep_start. set (ids := concat _). set (r0 := match ids with [] => _ | _ => _ end).
  set (g := fun _ _ => _). intros Hst i j mi mj Hi Hj Hmi Hmj.
  assert (∀ a m, (g a m ≤ a)%nat) as Hg by (intros; apply keep_assistant_le).
  assert (r0 ≤ ks)%nat as Hr0 by (unfold r0; case_match; [done|apply lower_to_match_le]).
  assert (r0 = ks) as Hr.
  { pose proof (foldl_decreasing g Hg (drop ks ms) r0). lia. }
  assert (mj ∈ drop ks ms) as Hin.
  { apply list_elem_of_lookup. exists (j - ks)%nat. rewrite lookup_drop.
    by replace (ks + (j - ks))%nat with j by lia. }
  split.
  - eapply required_tool_use_stable; eauto.
  - intros id Hid. rewrite Hr in Hst. pose proof (foldl_stable g Hg _ _ _ Hst Hin) as Hgj.
    unfold g in Hgj. apply not_true_is_false. unfold same_assistant_id. intros [Ha Hm]%andb_true_iff.
    apply bool_decide_eq_true in Hm. rewrite Ha, Hm in Hgj. simpl in Hgj.
    pose proof (lower_to_match_stable _ _ _ i Hgj Hi) as Hf.
    unfold test_at in Hf. rewrite Hmi in Hf. congruence.
Qed.

Lemma adjust_loop_fixpoint fuel ms ws ks :
  (ks < fuel)%nat →
  let r := adjust_loop fuel ms ws ks in
  find_required_keep_start ms ws r = r ∧ (r ≤ ks)%nat ∧ (ws ≤ ks → ws ≤ r)%nat.
Proof.
  revert ks; induction fuel as [|fuel IH]; intros ks Hf; [lia|]. simpl.
  destruct (Nat.eqb_spec (find_required_keep_start ms ws ks) ks) as [He|He]; [done|].
  pose proof (find_required_le ms ws ks). pose proof (find_required_above ms ws ks).
  destruct (IH (find_required_keep_start ms ws ks)) as (?&?&?); [lia|]. split; [done|]. lia.
Qed.

Lemma adjust_safe ms ks ws :
  let r := adjust_keep_start_for_invariants ms ks ws in
  keep_start_safe ms ws r ∧ (r ≤ ks)%nat.
Proof.
  unfold adjust_keep_start_for_invariants. destruct (_ || _) eqn:E; cbv zeta.
  - split; [|lia]. intros i j mi mj Hi Hj Hmi Hmj.
    apply orb_true_iff in E as [E|E]; b2p; [lia|].
    apply lookup_lt_Some in Hmj. lia.
  - destruct (adjust_loop_fixpoint (S ks) ms ws ks) as (Hfix&Hle&_); [lia|].
    split; [by apply find_required_stable|done].
Qed.

(** ** Candidates *)

Lemma elem_of_enumerate {A} (l : list A) i x : (i, x) ∈ enumerate l ↔ l !! i = Some x.
Proof.
  unfold enumerate. rewrite list_elem_of_lookup. split.
  - intros (k & Hk). rewrite list_lookup_imap in Hk.
    destruct (l !! k) eqn:E; simplify_eq/=. done.
  - intros H. exists i. by rewrite list_lookup_imap, H.
Qed.

Lemma fst_enumerate {A} (l : list A) : fst <$> enumerate l = seq 0 (length l).
Proof.
  unfold enumerate. apply list_eq. intros i. rewrite list_lookup_fmap, list_lookup_imap. destruct (l !! i) eqn:E; simpl.
  - apply lookup_lt_Some in E. by rewrite lookup_seq_lt.
  - apply lookup_ge_None in E. by rewrite lookup_seq_ge.
Qed.

Lemma position_Some {A} (f : A → bool) l i :
  position f l = Some i ↔
  ∃ x, l !! i = Some x ∧ f x = true ∧ (∀ j y, l !! j = Some y → (j < i)%nat → f y = false).
Proof.
  unfold position. rewrite fmap_Some. split.
  - intros ([i' x] & (Hx&Hf&Hmin)%list_find_Some & ->). exists x. repeat split; auto.
    intros j y Hy Hj. apply not_true_is_false. eauto.
  - intros (x&Hx&Hf&Hmin). exists (i, x). split; [|done]. apply list_find_Some.
    repeat split; auto. intros j y Hy Hj. rewrite (Hmin j y Hy Hj). done.
Qed.

Lemma position_is_Some {A} (f : A → bool) l i x :
  l !! i = Some x → f x = true → ∃ k, position f l = Some k ∧ (k ≤ i)%nat.
Proof.
  intros Hx Hf. unfold position.
  destruct (list_find (fun x => f x = true) l) as [[k y]|] eqn:E.
  - exists k. split; [done|]. apply list_find_Some in E as (_&_&Hmin).
    destruct (decide (i < k)%nat) as [Hlt|]; [|lia]. exfalso. eapply Hmin; eauto.
  - apply list_find_None in E. rewrite Forall_lookup in E. exfalso. eapply E; eauto.
Qed.

Lemma omap_sublist_fmap {A B} (f : A → option B) (g : A → B) l :
  (∀ x y, f x = Some y → y = g x) → omap f l `sublist_of` g <$> l.
Proof.
  intros Hf. induction l as [|x l IH]; [constructor|]. csimpl.
  destruct (f x) as [y|] eqn:E; [|by constructor]. rewrite (Hf _ _ E). by constructor.
Qed.

Definition candidate_test ms (w : CompactionWindow) (adj i : nat) : Prop :=
  ∃ m, ms !! i = Some m ∧ is_system m = false ∧ Some i ≠ first_user_index ms ∧
       (start w ≤ i < adj)%nat.

Lemma candidate_indexes_ok ms pt b cands :
  candidate_indexes ms pt b = Ok cands →
  ∃ w, resolve_compaction_window ms pt b = Ok w ∧
    (∀ i, i ∈ cands ↔
       candidate_test ms w (adjust_keep_start_for_invariants ms (stop w) (start w)) i) ∧
    cands `sublist_of` seq 0 (length ms).
Proof.
  unfold candidate_indexes. intros H. inv_ok. exists v. split; [done|]. split.
  - intros i. rewrite list_elem_of_omap. unfold candidate_test. split.
    + intros ([k m] & Hin%elem_of_enumerate & Hs).
      repeat case_match; simplify_eq. b2p. exists m. repeat split; auto; lia.
    + intros (m & Hm & Hs & Hu & Hi). exists (i, m). rewrite elem_of_enumerate. split; [done|].
      rewrite Hs, bool_decide_eq_false_2 by done.
      destruct (Nat.ltb_spec i (start v)); [lia|]. simpl.
      destruct (Nat.leb_spec (adjust_keep_start_for_invariants ms (stop v) (start v)) i); [lia|done].
  - rewrite <-fst_enumerate. apply omap_sublist_fmap. intros [k m] y Hy.
    repeat case_match; simplify_eq. done.
Qed.

Lemma sublist_seq_NoDup l n : l `sublist_of` seq 0 n → NoDup l.
Proof. intros. eapply sublist_NoDup; [apply NoDup_seq|done]. Qed.

Lemma discover_boundary_Some ms pt b :
  discover_boundary ms pt = Some b →
  direction b = BeforePivot ∧
  ∃ i m, (i < length ms - pt)%nat ∧ ms !! i = Some m ∧ message_id m = Some (pivot_message_id b).
Proof.
  unfold discover_boundary, find_map. intros H. apply head_Some_elem_of in H.
  apply list_elem_of_omap in H as ([i m] & Hin & Hb).
  apply elem_of_reverse, elem_of_enumerate in Hin.
  apply lookup_take_Some in Hin as [Hm Hi].
  destruct (message_id m) as [id|] eqn:Hid; [|done]. case_match; simplify_eq. simpl.
  split; [done|]. exists i, m. auto.
Qed.

Lemma resolve_boundary_index_le ms b i m :
  ms !! i = Some m → message_id m = Some (pivot_message_id b) →
  ∃ k, resolve_boundary_index ms b = Ok k ∧ (k ≤ i)%nat.
Proof.
  intros Hm Hid. unfold resolve_boundary_index.
  destruct (position_is_Some (fun m => bool_decide (message_id m = Some (pivot_message_id b)))
              ms i m) as (k & -> & Hk); [done|by apply bool_decide_eq_true|].
  simpl. eauto.
Qed.

(** The window that [resolve_candidates] uses when no boundary is given
    starts at the front and stops before the protected tail. *)
Lemma discovered_window ms pt :
  ∃ w, resolve_compaction_window ms pt (discover_boundary ms pt) = Ok w ∧
    start w = 0%nat ∧ (stop w ≤ length ms - pt)%nat.
Proof.
  unfold resolve_compaction_window. destruct (discover_boundary ms pt) as [b|] eqn:E.
  - apply discover_boundary_Some in E as (Hdir & i & m & Hi & Hm & Hid).
    destruct (resolve_boundary_index_le ms b i m Hm Hid) as (k & -> & Hk).
    rewrite Hdir. simpl. eexists. split; [done|]. simpl. lia.
  - simpl. eexists. split; [done|]. simpl. lia.
Qed.

(** ** Replacement *)

(** The messages that survive, in order. *)
Definition kept_from (k : nat) ms (cands : list nat) : list ChatMessage :=
  omap (fun '(i, m) => if bool_decide (i ∈ cands) then None else Some m) (imap (fun i m => ((k + i)%nat, m)) ms).
Definition kept ms (cands : list nat) : list ChatMessage := kept_from 0 ms cands.

Lemma list_min_spec l a :
  list_min l = Some a ↔ a ∈ l ∧ (∀ x, x ∈ l → (a ≤ x)%nat).
Proof.
  assert (∀ l x, let r := foldl Nat.min x l in
            r ∈ x :: l ∧ ∀ y, y ∈ x :: l → (r ≤ y)%nat) as Hf.
  { clear. induction l as [|y l IH]; intros x; simpl.
    - split; [by left|]. intros z [->|Hz]%elem_of_cons; [done|]. by apply not_elem_of_nil in Hz.
    - destruct (IH (Nat.min x y)) as [Hin Hle]. split.
      + apply elem_of_cons in Hin as [->|Hin]; [|set_solver].
        destruct (Nat.min_spec x y) as [[_ ->]|[_ ->]]; set_solver.
      + intros z Hz. apply elem_of_cons in Hz as [->|Hz].
        { etrans; [apply Hle; by left|lia]. }
        apply elem_of_cons in Hz as [->|Hz].
        { etrans; [apply Hle; by left|lia]. }
        apply Hle. by right. }
  destruct l as [|x l]; simpl.
  - split; [done|]. intros [H _]. by apply not_elem_of_nil in H.
  - destruct (Hf l x) as [Hin Hle]. split.
    + intros [= <-]. done.
    + intros [Ha Hmin]. f_equal. apply Nat.le_antisymm; [by apply Hle|by apply Hmin].
Qed.

Definition step_replace (cands : list nat) (first : option nat) (r : option ChatMessage)
    (res : list ChatMessage) (x : nat * ChatMessage) : list ChatMessage :=
  let '(index, m) := x in
  let res := if bool_decide (Some index = first)
             then match r with Some r => res ++ [r] | None => res end else res in
  if bool_decide (index ∈ cands) then res else res ++ [m].

Lemma imap_shift {A} k (x : A) l :
  imap (fun i y => ((k + i)%nat, y)) (x :: l) = (k, x) :: imap (fun i y => ((S k + i)%nat, y)) l.
Proof.
  simpl. rewrite Nat.add_0_r. f_equal. apply imap_ext. intros i y _. simpl. f_equal. lia.
Qed.

Lemma kept_from_cons k m ms cands :
  kept_from k (m :: ms) cands =
    (if bool_decide (k ∈ cands) then [] else [m]) ++ kept_from (S k) ms cands.
Proof.
  unfold kept_from. rewrite imap_shift. csimpl. destruct (bool_decide _); done.
Qed.

(** Past the first candidate, and with no replacement, the loop copies what
    is kept. *)
Lemma replace_tail cands first r k ms res :
  (∀ i, first = Some i → (i < k)%nat ∨ r = None) →
  foldl (step_replace cands first r) res (imap (fun i m => ((k + i)%nat, m)) ms) =
    res ++ kept_from k ms cands.
Proof.
  revert k res; induction ms as [|m ms IH]; intros k res Hfirst.
  - by rewrite app_nil_r.
  - rewrite imap_shift, kept_from_cons. cbn [foldl]. rewrite IH.
    + unfold step_replace at 1. assert ((if bool_decide (Some k = first)
               then match r with Some r0 => res ++ [r0] | None => res end else res) = res) as ->.
      { destruct (bool_decide_reflect (Some k = first)) as [<-|]; [|done].
        destruct (Hfirst k eq_refl) as [Hk| ->]; [lia|done]. }
      destruct (bool_decide _); by rewrite <-?app_assoc.
    + intros i Hi. destruct (Hfirst i Hi); [left; lia|by right].
Qed.

Lemma replace_before cands f r k ms res :
  (k ≤ f)%nat → (f < k + length ms)%nat → f ∈ cands →
  foldl (step_replace cands (Some f) (Some r)) res (imap (fun i m => ((k + i)%nat, m)) ms) =
    res ++ kept_from k (take (f - k) ms) cands ++ r :: kept_from f (drop (f - k) ms) cands.
Proof.
  revert k res; induction ms as [|m ms IH]; intros k res Hk Hf Hin; [simpl in Hf; lia|].
  destruct (decide (k = f)) as [->|Hne].
  - rewrite Nat.sub_diag, take_0, drop_0. rewrite imap_shift, kept_from_cons.
    cbn [foldl]. rewrite replace_tail by (intros i [= ->]; left; lia). unfold step_replace.
    rewrite (bool_decide_eq_true_2 (Some f = Some f)), (bool_decide_eq_true_2 (f ∈ cands)) by done.
    rewrite <-app_assoc. done.
  - replace (f - k)%nat with (S (f - S k)) by lia. simpl take. simpl drop.
    rewrite imap_shift, kept_from_cons. cbn [foldl].
    simpl length in Hf. rewrite IH by (done || lia). unfold step_replace.
    rewrite (bool_decide_eq_false_2 (Some k = Some f)) by congruence.
    destruct (bool_decide (k ∈ cands)); by rewrite <-?app_assoc.
Qed.

Lemma kept_from_split k ms cands n :
  kept_from k ms cands = kept_from k (take n ms) cands ++ kept_from (k + n) (drop n ms) cands.
Proof.
  revert n k. induction ms as [|m ms IH]; intros n k.
  - rewrite take_nil, drop_nil. done.
  - destruct n as [|n]; [by rewrite Nat.add_0_r, take_0, drop_0|].
    simpl take. simpl drop. rewrite !kept_from_cons, (IH n (S k)), <-app_assoc.
    by replace (S k + n)%nat with (k + S n)%nat by lia.
Qed.

Lemma kept_split ms cands n :
  kept ms cands = kept (take n ms) cands ++ kept_from n (drop n ms) cands.
Proof. apply kept_from_split. Qed.

Lemma apply_replacement_spec ms cands f r :
  list_min cands = Some f → (f < length ms)%nat →
  apply_candidate_replacement ms cands (Some r) =
    kept (take f ms) cands ++ r :: kept_from f (drop f ms) cands.
Proof.
  intros Hf Hlen. pose proof (proj1 (list_min_spec _ _) Hf) as [Hin _].
  unfold apply_candidate_replacement, enumerate. rewrite Hf.
  pose proof (replace_before cands f r 0 ms []) as H. rewrite Nat.sub_0_r in H.
  apply H; [lia|lia|done].
Qed.

Lemma kept_from_ext k ms c c' :
  (∀ i, (k ≤ i)%nat → i ∈ c ↔ i ∈ c') → kept_from k ms c = kept_from k ms c'.
Proof.
  revert k. induction ms as [|m ms IH]; intros k H; [done|]. rewrite !kept_from_cons.
  rewrite (IH (S k)) by (intros; apply H; lia).
  by rewrite (bool_decide_ext _ _ (H k (le_n k))).
Qed.

Lemma length_kept_from k ms cands :
  NoDup cands → (∀ i, i ∈ cands → (k ≤ i < k + length ms)%nat) →
  (length (kept_from k ms cands) + length cands = length ms)%nat.
Proof.
  revert k cands. induction ms as [|m ms IH]; intros k cands Hnd Hr.
  - destruct cands as [|i cands]; [done|]. specialize (Hr i). simpl in Hr.
    exfalso. assert (k ≤ i < k + 0)%nat by (apply Hr; by left). lia.
  - rewrite kept_from_cons, length_app. destruct (bool_decide_reflect (k ∈ cands)) as [Hin|Hni].
    + apply list_elem_of_split in Hin as (l1 & l2 & ->).
      assert (kept_from (S k) ms (l1 ++ k :: l2) = kept_from (S k) ms (l1 ++ l2)) as ->.
      { apply kept_from_ext. intros i Hi. rewrite !elem_of_app, elem_of_cons. split; [|tauto].
        intros [?|[Hk|?]]; [auto|lia|auto]. }
      apply NoDup_app in Hnd as (Hnd1 & Hd & Hnd2). apply NoDup_cons in Hnd2 as [Hk Hnd2].
      specialize (IH (S k) (l1 ++ l2)). rewrite length_app in *. simpl in *.
      rewrite <-IH; [lia| |].
      * apply NoDup_app. split; [done|]. split; [|done]. intros x Hx Hx'. apply (Hd x Hx). by right.
      * intros i Hi. assert (i ≠ k) as Hne.
        { intros ->. apply elem_of_app in Hi as [Hi|Hi]; [|done]. apply (Hd k Hi). by left. }
        assert (k ≤ i < k + S (length ms))%nat; [|lia]. apply Hr. set_solver.
    + simpl. rewrite <-(IH (S k) cands Hnd); [lia|].
      intros i Hi. assert (i ≠ k) by (intros ->; done). specialize (Hr i Hi). simpl in Hr. lia.
Qed.

Lemma kept_from_none k ms cands :
  (∀ i, i ∈ cands → (i < k)%nat) → kept_from k ms cands = ms.
Proof.
  revert k. induction ms as [|m ms IH]; intros k H; [done|].
  rewrite kept_from_cons, bool_decide_eq_false_2.
  - simpl. f_equal. apply IH. intros i Hi. specialize (H i Hi). lia.
  - intros Hin. specialize (H _ Hin). lia.
Qed.

Lemma elem_of_kept ms cands i m : ms !! i = Some m → i ∉ cands → m ∈ kept ms cands.
Proof.
  intros Hm Hi. unfold kept, kept_from. apply list_elem_of_omap. exists (i, m). split.
  - apply list_elem_of_lookup. exists i. by rewrite list_lookup_imap, Hm.
  - by rewrite bool_decide_eq_false_2.
Qed.

Lemma candidates_in_range ms pt b cands i :
  candidate_indexes ms pt b = Ok cands → i ∈ cands → (i < length ms)%nat.
Proof.
  intros (w & _ & Hc & _)%candidate_indexes_ok Hi. apply Hc in Hi as (m & Hm & _).
  by apply lookup_lt_Some in Hm.
Qed.

Lemma resolve_candidates_protected ms pt :
  ∃ b cands, resolve_candidates ms pt None = Ok (b, cands) ∧
    candidate_indexes ms pt b = Ok cands ∧
    ∀ i, i ∈ cands → (i < length ms - pt)%nat ∧ Some i ≠ first_user_index ms ∧
                     ∃ m, ms !! i = Some m ∧ role m ≠ System.
Proof.
  destruct (discovered_window ms pt) as (w & Hw & Hs & He).
  assert (∃ cands, candidate_indexes ms pt (discover_boundary ms pt) = Ok cands) as [cands Hc].
  { unfold candidate_indexes. rewrite Hw. simpl. eauto. }
  exists (discover_boundary ms pt), cands. unfold resolve_candidates. rewrite Hc. simpl.
  split; [done|]. split; [done|]. intros i Hi.
  apply candidate_indexes_ok in Hc as (w' & Hw' & Hin & _). assert (w' = w) as -> by congruence.
  apply Hin in Hi as (m & Hm & Hsys & Hu & Hr).
  pose proof (adjust_safe ms (stop w) (start w)) as [_ Hle]. cbv zeta in Hle.
  split; [lia|]. split; [done|]. exists m. split; [done|].
  unfold is_system in Hsys. by apply bool_decide_eq_false in Hsys.
Qed.

(** Automatic compaction always finds its candidates (the boundary it
    discovers is never reported missing), and it never picks a system
    message, the first user message, or one of the last
    [preserve_tail_messages] messages. *)
Theorem candidates_protected ms (preserve_tail_messages : nat) :
  ∃ b cands, resolve_candidates ms preserve_tail_messages None = Ok (b, cands) ∧
    ∀ i, i ∈ cands →
      (i < length ms - preserve_tail_messages)%nat ∧ Some i ≠ first_user_index ms ∧
      ∃ m, ms !! i = Some m ∧ role m ≠ System.
Proof.
  destruct (resolve_candidates_protected ms preserve_tail_messages) as (b & c & Hr & _ & H). eauto.
Qed.

(** C21: compaction never separates a kept tool result from its tool call nor
    splits an assistant message: when message [i] is compacted away and a
    later message [j] is kept (not a system message nor the first user
    message, which are always kept), no tool result of [j] answers a tool
    call of [i], and [i] and [j] are not parts of one assistant message. *)
Theorem candidates_no_orphans ms pt b cands i j mi mj :
  candidate_indexes ms pt b = Ok cands → i ∈ cands → j ∉ cands → (i < j)%nat →
  ms !! i = Some mi → ms !! j = Some mj → role mj ≠ System → Some j ≠ first_user_index ms →
  message_has_tool_use_with_ids mi (message_tool_result_ids mj) = false ∧
  (∀ id, same_assistant_id id mi = true → same_assistant_id id mj = false).
Proof.
  intros (w & Hw & Hin & _)%candidate_indexes_ok Hi Hj Hij Hmi Hmj Hsys Hu.
  apply Hin in Hi as (m & Hm & _ & _ & Hr).
  pose proof (adjust_safe ms (stop w) (start w)) as [Hsafe _]. cbv zeta in Hsafe.
  apply (Hsafe i j); auto.
  destruct (decide (adjust_keep_start_for_invariants ms (stop w) (start w) ≤ j)%nat); [done|].
  exfalso. apply Hj, Hin. exists mj. split; [done|].
  unfold is_system. rewrite bool_decide_eq_false_2 by done. repeat split; [done|lia|lia].
Qed.

Lemma replacement_shape ms pt b cands r :
  candidate_indexes ms pt b = Ok cands → cands ≠ [] →
  ∃ pre suf, apply_candidate_replacement ms cands (Some r) = pre ++ r :: suf ∧
    pre ++ suf = kept ms cands ∧
    (length (apply_candidate_replacement ms cands (Some r)) + length cands = S (length ms))%nat ∧
    (∀ n, (∀ i, i ∈ cands → (i < n)%nat) → drop n ms `suffix_of` suf).
Proof.
  intros Hc Hne. pose proof (fun i => candidates_in_range ms pt b cands i Hc) as Hrange.
  assert (NoDup cands) as Hnd.
  { apply candidate_indexes_ok in Hc as (_ & _ & _ & Hs). by eapply sublist_seq_NoDup. }
  destruct (list_min cands) as [f|] eqn:Hf; [|by destruct cands].
  pose proof (proj1 (list_min_spec _ _) Hf) as [Hin Hmin].
  rewrite (apply_replacement_spec ms cands f r Hf) by eauto.
  eexists _, _. split; [done|]. rewrite <-kept_split. split; [done|]. split.
  - assert (length (kept ms cands) + length cands = length ms)%nat as Hl.
    { apply length_kept_from; [done|]. intros i Hi. split; [lia|]. simpl. eauto. }
    rewrite (kept_split ms cands f), length_app in Hl. rewrite length_app. simpl. lia.
  - intros n Hn. assert (f < n)%nat by auto.
    exists (kept_from f (take (n - f) (drop f ms)) cands).
    rewrite (kept_from_split f (drop f ms) cands (n - f)). f_equal.
    replace (f + (n - f))%nat with n by lia. rewrite kept_from_none by auto.
    rewrite drop_drop. f_equal. lia.
Qed.

(** Replacing the candidates by a summary keeps every other message, in
    order, and puts the summary where the first candidate was; the history
    shrinks by the number of candidates and grows by the one summary. *)
Theorem replacement_keeps_rest ms pt b cands r :
  candidate_indexes ms pt b = Ok cands → cands ≠ [] →
  ∃ pre suf, apply_candidate_replacement ms cands (Some r) = pre ++ r :: suf ∧
    pre ++ suf = kept ms cands ∧
    (length (apply_candidate_replacement ms cands (Some r)) + length cands = S (length ms))%nat.
Proof.
  intros Hc Hne. destruct (replacement_shape ms pt b cands r Hc Hne) as (pre & suf & ?&?&?&_).
  eauto.
Qed.
End Compaction.

(** ** Witnesses *)

(** A history with two tool exchanges; the second is cut by a plain tail of
    three messages. *)
Definition demo_history : list (ChatMessage (J := text_json)) :=
  let J := text_json in
  [ system_message (lit "be helpful");
    user_message (lit "fix the build");
    new_message Assistant [ToolUse (lit "c1") (lit "bash") (lit "ls")] (Some (lit "a1")) 1 None;
    tool_result_message (lit "c1") (lit "bash") (lit "src") false 2;
    new_message Assistant [Text (lit "looking"); ToolUse (lit "c2") (lit "grep") (lit "main")]
      (Some (lit "a2")) 3 None;
    tool_result_message (lit "c2") (lit "grep") (lit "main.rs") false 4;
    assistant_message (lit "found it") 5;
    user_message (lit "go on") ].

Example demo_candidates :
  candidate_indexes (J := text_json) demo_history 3 None = Ok [2; 3]%nat.
Proof. reflexivity. Qed.

Lemma candidates_no_orphans_witness :
  message_has_tool_use_with_ids (J := text_json)
    (new_message Assistant [ToolUse (lit "c1") (lit "bash") (lit "ls" : @Value text_json)]
       (Some (lit "a1")) 1 None)
    (message_tool_result_ids (J := text_json)
       (tool_result_message (lit "c2") (lit "grep") (lit "main.rs") false 4)) = false.
Proof.
  refine (proj1 (candidates_no_orphans (J := text_json) demo_history 3 None [2; 3]%nat 2 5 _ _
    eq_refl _ _ _ eq_refl eq_refl _ _)).
  - by left.
  - intros [H|[H|[]]]%list_elem_of_In; discriminate H.
  - lia.
  - discriminate.
  - by vm_compute.
Defined.

Lemma replacement_keeps_rest_witness :
  (length (apply_candidate_replacement (J := text_json) demo_history [2; 3]%nat
    (Some (user_message (lit "sum")))) = 7)%nat.
Proof.
  destruct (replacement_keeps_rest (J := text_json) demo_history 3 None [2; 3]%nat
    (user_message (lit "sum")) eq_refl) as (pre & suf & _ & _ & Hlen); [done|].
  simpl in Hlen. vm_compute in Hlen. vm_compute. lia.
Defined.
