(* ===== verification/Summary.v ===== *)
(** * Compressed summaries

    crates/compact/src/summary.rs: rendering messages within a token budget,
    normalising and de-duplicating lines, selecting the lines of a summary by
    priority, and the whole summarisation around the provider's answer. The
    provider and the serde_json calls are parameters. *)

From S2P Require Import Prelude RStr F64 Message Budget Estimator Compaction.

Record SummaryCompressionBudget := {
  max_summary_tokens : Z;
  preserve_tail_messages : nat;
}.

Definition validate_summary_budget (b : SummaryCompressionBudget) : CompactResult () :=
  if max_summary_tokens b =? 0
  then Err (InvalidConfiguration (M (lit "max_summary_tokens must be greater than zero")))
  else if (preserve_tail_messages b =? 0)%nat
  then Err (InvalidConfiguration (M (lit "preserve_tail_messages must be greater than zero")))
  else Ok ().

Record SummaryCompressionResult := {
  summary : str;
  covered_message_count : nat;
  sc_estimated_tokens : Z;
  compressed_line_count : nat;
  removed_duplicate_lines : nat;
  omitted_line_count : nat;
}.

Inductive SummaryLineKind :=
| Header | Scope | PreviousSectionHeader | NewSectionHeader
| PreviousDetail | NewDetail | OmissionNotice.
#[global] Instance SummaryLineKind_eq_dec : EqDecision SummaryLineKind.
Proof. solve_decision. Defined.

Record SummaryLine := { line_text : str; line_kind : SummaryLineKind }.

Record CompactSummarySource := {
  src_covered_message_count : nat;
  src_previous_context : list str;
  src_new_context : list str;
}.
Record CompactSummaryResponse := {
  resp_previous_context : list str;
  resp_new_context : list str;
}.

(** The serde_json calls: the pretty-printed source, the printed response
    schema, and the parser of the answer. *)
Class SummaryJson := {
  source_to_string_pretty : CompactSummarySource → result str str;
  schema_hint : str;
  response_from_str : str → result CompactSummaryResponse str;
}.

Inductive RetryBudget := Foreground | Background.

(** ** Lines *)

Definition normalize_line (line : str) : str := join (lit " ") (split_whitespace line).

Definition strip_bullet_prefix (line : str) : str :=
  match strip_prefix (lit "- ") line with
  | Some l => l
  | None => default line (strip_prefix (lit "* ") line)
  end.

Record DedupeState := {
  seen : gset str;
  normalized : list str;
  duplicates : nat;
}.

Definition dedupe_step (st : DedupeState) (line : str) : DedupeState :=
  let normalized_line := normalize_line line in
  match normalized_line with
  | [] => st
  | _ =>
      let key := to_ascii_lowercase normalized_line in
      if decide (key ∈ seen st)
      then {| seen := seen st; normalized := normalized st; duplicates := S (duplicates st) |}
      else {| seen := {[ key ]} ∪ seen st; normalized := normalized st ++ [normalized_line];
              duplicates := duplicates st |}
  end.

Definition normalize_and_dedupe_lines (lines : list str) : list str * nat :=
  let st := foldl dedupe_step {| seen := ∅; normalized := []; duplicates := 0 |} lines in
  (normalized st, duplicates st).

Definition normalize_model_lines (lines : list str) : list str :=
  (normalize_and_dedupe_lines
     ((fun line => trim (trim_start_matches (lit "* ")
                           (trim_start_matches (lit "- ") (trim line)))) <$> lines)).1.

(** The lines of an earlier summary that are not structure. *)
Definition is_structure_line (normalized : str) : bool :=
  bool_decide (normalized = []) || bool_decide (normalized = lit "Conversation summary:")
  || starts_with (lit "- Scope:") normalized
  || bool_decide (normalized = lit "- Previously compacted context:")
  || bool_decide (normalized = lit "- Newly compacted context:")
  || starts_with (lit "- Additional detail lines omitted:") normalized.

Definition extract_previous_summary_lines (previous_summary : option str) : list str * nat :=
  match previous_summary with
  | None => ([], O)
  | Some text =>
      normalize_and_dedupe_lines
        (omap (fun line =>
           let normalized := normalize_line line in
           if is_structure_line normalized then None else Some (strip_bullet_prefix normalized))
         (lines text))
  end.

Definition build_summary_lines (covered : nat) (previous_lines new_lines : list str) :
    list SummaryLine :=
  [ {| line_text := lit "Conversation summary:"; line_kind := Header |};
    {| line_text := lit "- Scope: " ++ show (Z.of_nat covered) ++ lit " compacted message(s).";
       line_kind := Scope |} ]
  ++ match previous_lines with
     | [] => []
     | _ => {| line_text := lit "- Previously compacted context:";
               line_kind := PreviousSectionHeader |}
            :: ((fun l => {| line_text := lit "  - " ++ l; line_kind := PreviousDetail |})
                <$> previous_lines)
     end
  ++ {| line_text := lit "- Newly compacted context:"; line_kind := NewSectionHeader |}
  :: ((fun l => {| line_text := lit "  - " ++ l; line_kind := NewDetail |}) <$> new_lines).

Definition line_priority (k : SummaryLineKind) : nat :=
  match k with
  | Header | Scope => 0
  | NewSectionHeader | NewDetail => 1
  | PreviousSectionHeader | PreviousDetail => 2
  | OmissionNotice => 3
  end.

Definition parse_compact_summary_response `{SummaryJson} (text : option str) :
    CompactResult CompactSummaryResponse :=
  match text with
  | None => Err (SummaryParse (M (lit "summary provider returned no text payload")))
  | Some text =>
      let cleaned := trim text in
      let cleaned := match strip_prefix (lit "```json") cleaned with
                     | Some c => c
                     | None => default cleaned (strip_prefix (lit "```") cleaned)
                     end in
      let cleaned := trim (default cleaned (strip_suffix (lit "```") cleaned)) in
      Result.map_err
        (fun e => SummaryParse (M (lit "summary provider returned invalid JSON: " ++ e)))
        (response_from_str cleaned)
  end.

Section Summary.
Context `{J : JsonLib} {E : TokenEstimator}.

(** ** Rendering within a budget *)

Fixpoint accept_words (max_tokens : Z) (accepted words : list str) : list str :=
  match words with
  | [] => accepted
  | word :: words =>
      let candidate := match accepted with
                       | [] => word
                       | _ => join (lit " ") accepted ++ lit " " ++ word
                       end in
      if max_tokens <? estimate_text_tokens candidate then accepted
      else accept_words max_tokens (accepted ++ [word]) words
  end.

Fixpoint accept_chars (max_tokens : Z) (accepted text : str) : str :=
  match text with
  | [] => accepted
  | c :: text =>
      let candidate := accepted ++ [c] in
      if max_tokens <? estimate_text_tokens candidate then accepted
      else accept_chars max_tokens candidate text
  end.

Definition fit_text_to_token_budget (text : str) (max_tokens : Z) : str :=
  if (max_tokens =? 0) || bool_decide (text = []) then []
  else
    match accept_words max_tokens [] (split_whitespace text) with
    | [] => accept_chars max_tokens [] text
    | accepted => join (lit " ") accepted
    end.

(** [prefix] and what of [payload] fits after it. *)
Definition prefixed (prefix payload : str) (max_tokens : Z) : str :=
  prefix ++ fit_text_to_token_budget payload
              (Word.saturating_sub max_tokens (estimate_text_tokens prefix)).

Definition render_block (b : ContentBlock) (max_tokens : Z) : str :=
  match b with
  | Text text => fit_text_to_token_budget text max_tokens
  | ToolUse call_id tool_name input =>
      prefixed (lit "tool_use:" ++ tool_name ++ lit ":" ++ call_id ++ lit ":")
        (value_to_string input) max_tokens
  | ToolResult call_id tool_name output is_error =>
      prefixed (lit "tool_result:" ++ tool_name ++ lit ":" ++ call_id ++ lit ":"
                ++ show_bool is_error ++ lit ":") output max_tokens
  | Image description => prefixed (lit "image:") description max_tokens
  | Document description => prefixed (lit "document:") description max_tokens
  end.

Fixpoint render_blocks (content_budget : Z) (rendered : list str) (bs : list ContentBlock) :
    list str :=
  match bs with
  | [] => rendered
  | b :: bs =>
      let block_budget := Word.saturating_sub content_budget
                            (estimate_text_tokens (join (lit " | ") rendered)) in
      if block_budget =? 0 then rendered
      else
        let rendered_block := render_block b block_budget in
        let candidate := match rendered with
                         | [] => rendered_block
                         | _ => join (lit " | ") rendered ++ lit " | " ++ rendered_block
                         end in
        if content_budget <? estimate_text_tokens candidate then rendered
        else render_blocks content_budget (rendered ++ [rendered_block]) bs
  end.

Definition render_message_line (m : ChatMessage) (max_tokens : Z) : str :=
  let prefix := lit "[" ++ role_as_str (role m) ++ lit "] " in
  let prefix_tokens := estimate_text_tokens prefix in
  if max_tokens <=? prefix_tokens then trim_end prefix
  else
    match render_blocks (Word.saturating_sub max_tokens prefix_tokens) [] (blocks m) with
    | [] => trim_end prefix
    | rendered => prefix ++ join (lit " | ") rendered
    end.

(** ** Selecting lines *)

Definition summary_text (ls : list SummaryLine) : str := join nl (line_text <$> ls).

Definition summary_lines_fit (ls : list SummaryLine) (max_tokens : Z) : bool :=
  estimate_text_tokens (summary_text ls) <=? max_tokens.

Definition lines_at (ls : list SummaryLine) (idx : list nat) : list SummaryLine :=
  omap (fun i => ls !! i) idx.

Definition select_step (ls : list SummaryLine) (max_tokens : Z) (priority : nat)
    (selected : list nat) (x : nat * SummaryLine) : list nat :=
  let '(index, line) := x in
  if negb (line_priority (line_kind line) =? priority)%nat || bool_decide (index ∈ selected)
  then selected
  else if summary_lines_fit (lines_at ls selected ++ [line]) max_tokens
       then selected ++ [index] else selected.

Definition select_indexes (ls : list SummaryLine) (max_tokens : Z) : list nat :=
  foldl (fun selected priority =>
           foldl (select_step ls max_tokens priority) selected (enumerate ls))
    [] [0; 1; 2; 3]%nat.

Definition select_summary_lines (ls : list SummaryLine) (max_tokens : Z) : list SummaryLine :=
  lines_at ls (merge_sort (≤)%nat (select_indexes ls max_tokens)).

(** ** The summarisation *)

Record LlmProvider := {
  complete_with_budget : LlmRequest → RetryBudget → result LlmResponse LlmError;
}.

Context `{SJ : SummaryJson}.

Definition build_summary_request (source : CompactSummarySource) (c : CompletionConfig) :
    CompactResult LlmRequest :=
  let? source_json :=
    Result.map_err
      (fun e => SummaryParse (M (lit "failed to serialize compact summary source: " ++ e)))
      (source_to_string_pretty source) in
  Ok {| req_messages :=
          [ system_message (lit "You compress conversation history into structured recall JSON. Use only the supplied source lines. Preserve concrete decisions, current state, failures, corrections, file references, and tool outcomes that still matter. Keep every string concise. Do not add markdown bullets or headings inside field values. Return ONLY a valid JSON object, no markdown fences.");
            user_message (lit "Summarize this compact source into structured JSON matching this schema:"
                          ++ nl ++ schema_hint ++ nl ++ nl ++ lit "Source:" ++ nl ++ source_json) ];
        req_tools := [];
        tool_choice := ChoiceAuto;
        req_max_tokens := Some (max_tokens c);
        req_temperature := Some (temperature c);
        response_format := FormatJsonObject;
        reasoning_effort := EffortDefault |}.

Definition budget_exhausted (max_tokens : Z) : CompactError :=
  SummaryBudgetExhausted (M (lit "max_summary_tokens=" ++ show max_tokens
    ++ lit " is too small to fit the first message summary")).

(** The summary built from the provider's answer. *)
Definition assemble_summary (covered duplicates : nat) (previous new : list str) (max_tokens : Z) :
    CompactResult SummaryCompressionResult :=
  let merged_lines := build_summary_lines covered (normalize_model_lines previous)
                        (normalize_model_lines new) in
  let compressed := select_summary_lines merged_lines max_tokens in
  let omitted := (length merged_lines - length compressed)%nat in
  let notice := {| line_text := lit "- Additional detail lines omitted: " ++ show (Z.of_nat omitted);
                   line_kind := OmissionNotice |} in
  let compressed :=
    if (0 <? omitted)%nat && summary_lines_fit (compressed ++ [notice]) max_tokens
    then compressed ++ [notice] else compressed in
  if negb (existsb (fun l => bool_decide (line_kind l = NewDetail)) compressed)
  then Err (budget_exhausted max_tokens)
  else Ok {| summary := summary_text compressed;
             covered_message_count := covered;
             sc_estimated_tokens := estimate_text_tokens (summary_text compressed);
             compressed_line_count := length compressed;
             removed_duplicate_lines := duplicates;
             omitted_line_count := omitted |}.

Definition summarize_messages_with_previous (ms : list ChatMessage)
    (previous_summary : option str) (budget : SummaryCompressionBudget)
    (provider : LlmProvider) (request_config : CompletionConfig) :
    CompactResult SummaryCompressionResult :=
  let? _ := validate_summary_budget budget in
  let? _ := Result.map_err (fun e => InvalidConfiguration (M e))
              (validate_completion_config request_config) in
  let '(new_lines, new_duplicates) :=
    normalize_and_dedupe_lines ((fun m => render_message_line m (max_summary_tokens budget)) <$> ms) in
  let '(previous_lines, previous_duplicates) := extract_previous_summary_lines previous_summary in
  let duplicates := (new_duplicates + previous_duplicates)%nat in
  match new_lines with
  | [] => Err (budget_exhausted (max_summary_tokens budget))
  | _ =>
      let? request := build_summary_request
        {| src_covered_message_count := length ms; src_previous_context := previous_lines;
           src_new_context := new_lines |} request_config in
      let? response := Result.map_err Llm (complete_with_budget provider request Background) in
      let? compact := parse_compact_summary_response (am_text (resp_message response)) in
      assemble_summary (length ms) duplicates (resp_previous_context compact)
        (resp_new_context compact) (max_summary_tokens budget)
  end.

Definition summarize_messages (ms : list ChatMessage) (budget : SummaryCompressionBudget)
    (provider : LlmProvider) (request_config : CompletionConfig) :
    CompactResult SummaryCompressionResult :=
  summarize_messages_with_previous ms None budget provider request_config.
End Summary.

(** ** Budgets are respected *)

Section Fits.
Context `{J : JsonLib} {E : TokenEstimator} {L : TextEstimatorLaws E} `{SJ : SummaryJson}.

Lemma accept_words_fit max acc words :
  acc ≠ [] → estimate_text_tokens (join (lit " ") acc) ≤ max →
  accept_words max acc words ≠ [] ∧
  estimate_text_tokens (join (lit " ") (accept_words max acc words)) ≤ max.
Proof.
  revert acc; induction words as [|w words IH]; intros acc Hne Hfit; [done|].
  cbn [accept_words]. destruct (max <? _) eqn:Ht; [done|]. b2p.
  apply IH; [by destruct acc|]. rewrite join_snoc by done. by destruct acc.
Qed.

Lemma accept_chars_fit max acc text :
  estimate_text_tokens acc ≤ max → estimate_text_tokens (accept_chars max acc text) ≤ max.
Proof.
  revert acc; induction text as [|c text IH]; intros acc Hfit; [done|].
  cbn [accept_chars]. destruct (max <? _) eqn:Ht; [done|]. b2p. auto.
Qed.

Lemma fit_text_fits text max :
  0 ≤ max → estimate_text_tokens (fit_text_to_token_budget text max) ≤ max.
Proof.
  intros Hmax. unfold fit_text_to_token_budget. destruct (_ || _); [by rewrite est_empty|].
  destruct (accept_words max [] (split_whitespace text)) as [|w ws] eqn:Ew.
  - apply accept_chars_fit. by rewrite est_empty.
  - rewrite <-Ew. destruct (split_whitespace text) as [|w0 words]; [done|].
    cbn [accept_words] in *. destruct (max <? _) eqn:Ht; [done|]. b2p.
    by apply accept_words_fit.
Qed.

Lemma render_blocks_fit budget rendered bs :
  estimate_text_tokens (join (lit " | ") rendered) ≤ budget →
  estimate_text_tokens (join (lit " | ") (render_blocks budget rendered bs)) ≤ budget.
Proof.
  revert rendered; induction bs as [|b bs IH]; intros rendered Hfit; [done|].
  cbn [render_blocks]. destruct (_ =? 0); [done|]. destruct (budget <? _) eqn:Ht; [done|].
  b2p. apply IH. destruct rendered; [done|]. by rewrite join_snoc.
Qed.

Definition role_prefix (m : ChatMessage) : str := lit "[" ++ role_as_str (role m) ++ lit "] ".

Lemma render_message_line_bound m max :
  estimate_text_tokens (render_message_line m max) ≤
    Z.max max (estimate_text_tokens (role_prefix m)).
Proof.
  unfold render_message_line. fold (role_prefix m). destruct (max <=? _) eqn:Ht; b2p.
  - etrans; [apply est_mono, trim_end_length|lia].
  - assert (0 ≤ Word.saturating_sub max (estimate_text_tokens (role_prefix m))) as Hpos
      by (unfold Word.saturating_sub; lia).
    pose proof (render_blocks_fit (Word.saturating_sub max (estimate_text_tokens (role_prefix m)))
                  [] (blocks m)) as Hfit.
    destruct (render_blocks _ _ _) as [|r rs].
    + etrans; [apply est_mono, trim_end_length|lia].
    + etrans; [apply est_subadd|]. rewrite est_empty in Hfit. specialize (Hfit Hpos).
      unfold Word.saturating_sub in Hfit. lia.
Qed.

(** A text cut to a token budget is within the budget, and a message
    rendered as a summary line is within the budget whenever its role prefix
    alone is. *)
Theorem rendering_within_budget (text : str) (m : ChatMessage) (max : Z) :
  0 ≤ max →
  estimate_text_tokens (fit_text_to_token_budget text max) ≤ max ∧
  (estimate_text_tokens (role_prefix m) ≤ max →
   estimate_text_tokens (render_message_line m max) ≤ max).
Proof.
  intros Hmax. split; [by apply fit_text_fits|]. intros Hp.
  pose proof (render_message_line_bound m max). lia.
Qed.

Lemma lines_at_app ls i1 i2 : lines_at ls (i1 ++ i2) = lines_at ls i1 ++ lines_at ls i2.
Proof. unfold lines_at. by rewrite omap_app. Qed.

Lemma lines_at_perm ls i1 i2 : i1 ≡ₚ i2 → lines_at ls i1 ≡ₚ lines_at ls i2.
Proof. intros H. unfold lines_at. by rewrite H. Qed.

Lemma summary_text_perm_est ls ls' :
  ls ≡ₚ ls' → estimate_text_tokens (summary_text ls) = estimate_text_tokens (summary_text ls').
Proof.
  intros H. apply est_length. unfold summary_text. apply length_join_perm. by rewrite H.
Qed.

Definition selection_fits (ls : list SummaryLine) (max : Z) (sel : list nat) : Prop :=
  estimate_text_tokens (summary_text (lines_at ls sel)) ≤ max ∧ NoDup sel ∧
  Forall (fun i => i < length ls)%nat sel.

Lemma select_step_fits ls max p sel i line :
  ls !! i = Some line → selection_fits ls max sel →
  selection_fits ls max (select_step ls max p sel (i, line)).
Proof.
  intros Hi (Hfit & Hnd & Hr). unfold select_step. destruct (_ || _) eqn:Eg; [done|].
  destruct (summary_lines_fit _ _) eqn:Ef; [|done].
  apply orb_false_iff in Eg as [_ Hni]. b2p. unfold summary_lines_fit in Ef. b2p.
  split; [|split].
  - rewrite lines_at_app. unfold lines_at at 2. csimpl. by rewrite Hi.
  - apply NoDup_app. split; [done|]. split; [|apply NoDup_singleton]. set_solver.
  - apply Forall_app. split; [done|]. constructor; [by eapply lookup_lt_Some|constructor].
Qed.

Lemma select_indexes_fits ls max : 0 ≤ max → selection_fits ls max (select_indexes ls max).
Proof.
  intros Hmax. unfold select_indexes.
  assert (∀ p sel, selection_fits ls max sel →
            selection_fits ls max (foldl (select_step ls max p) sel (enumerate ls))) as Hround.
  { intros p sel Hsel. assert (∀ i l, (i, l) ∈ enumerate ls → ls !! i = Some l) as Hen.
    { intros i l. apply elem_of_enumerate. }
    revert sel Hsel Hen. generalize (enumerate ls) as es.
    induction es as [|[i l] es IH]; intros sel Hsel Hen; [done|]. cbn [foldl]. apply IH.
    - apply select_step_fits; [apply Hen; by left|done].
    - intros; apply Hen; by right. }
  cbn [foldl]. do 4 apply Hround. split; [|split; [constructor|constructor]].
  change (summary_text (lines_at ls [])) with ([] : str). by rewrite est_empty.
Qed.

Lemma select_summary_lines_fits ls max :
  0 ≤ max → summary_lines_fit (select_summary_lines ls max) max = true.
Proof.
  intros Hmax. destruct (select_indexes_fits ls max Hmax) as (Hfit & _ & _).
  unfold summary_lines_fit. apply Z.leb_le. etrans; [|exact Hfit]. apply Z.eq_le_incl.
  apply summary_text_perm_est, lines_at_perm, merge_sort_Permutation.
Qed.

Lemma assemble_summary_fits covered dups prev new max r :
  0 ≤ max → assemble_summary covered dups prev new max = Ok r →
  sc_estimated_tokens r = estimate_text_tokens (summary r) ∧
  estimate_text_tokens (summary r) ≤ max.
Proof.
  intros Hmax. unfold assemble_summary. set (merged := build_summary_lines _ _ _).
  set (sel := select_summary_lines merged max).
  pose proof (select_summary_lines_fits merged max Hmax) as Hsel. fold sel in Hsel.
  intros H. unfold summary_lines_fit in Hsel. apply Z.leb_le in Hsel.
  destruct (_ && _) eqn:Ec in H; (destruct (negb _); [done|]); inv_ok; simpl; split; try done.
  apply andb_true_iff in Ec as [_ Ec]. by apply Z.leb_le in Ec.
Qed.

(** When summarisation succeeds, whatever the model answered, the
    summary is within the configured token budget and its reported size is
    its estimate. *)
Theorem summary_within_budget ms prev budget provider cfg r :
  0 ≤ max_summary_tokens budget →
  summarize_messages_with_previous ms prev budget provider cfg = Ok r →
  sc_estimated_tokens r = estimate_text_tokens (summary r) ∧
  estimate_text_tokens (summary r) ≤ max_summary_tokens budget ∧
  covered_message_count r = length ms.
Proof.
  intros Hmax H. unfold summarize_messages_with_previous in H. inv_ok.
  destruct (normalize_and_dedupe_lines _) as [new_lines nd].
  destruct (extract_previous_summary_lines _) as [pl pd].
  destruct new_lines; [done|]. inv_ok.
  destruct (assemble_summary_fits _ _ _ _ _ _ Hmax H) as [??]. split; [done|]. split; [done|].
  unfold assemble_summary in H. destruct (negb _); [done|]. by inv_ok.
Qed.
End Fits.

(** ** Normalised lines *)

(** A line as [normalize_line] leaves it. *)
Definition clean (l : str) : Prop := l ≠ [] ∧ normalize_line l = l.

Lemma normalize_line_idem l : normalize_line (normalize_line l) = normalize_line l.
Proof. unfold normalize_line. by rewrite split_whitespace_join by apply split_whitespace_words. Qed.

Lemma normalize_line_clean l : normalize_line l ≠ [] → clean (normalize_line l).
Proof. intros. split; [done|apply normalize_line_idem]. Qed.

Lemma elem_of_join_words c ws :
  Forall is_word ws → c ∈ join (lit " ") ws → c = 32%N ∨ is_whitespace c = false.
Proof.
  induction 1 as [|w ws [_ Hw] Hws IH]; [intros Hc; by apply not_elem_of_nil in Hc|].
  rewrite Forall_forall in Hw. destruct ws as [|w' ws]; [intros Hc; right; auto|].
  rewrite join_cons by done. rewrite !elem_of_app. intros [Hc|[Hc|Hc]]; auto.
  left. change (c ∈ [32%N]) in Hc. by apply list_elem_of_singleton in Hc.
Qed.

Lemma clean_chars l c : clean l → c ∈ l → c = 32%N ∨ is_whitespace c = false.
Proof.
  intros [_ Hn] Hc. rewrite <-Hn in Hc. eapply elem_of_join_words; [|done].
  apply split_whitespace_words.
Qed.

Lemma split_whitespace_space s : split_whitespace (32%N :: s) = split_whitespace s.
Proof.
  transitivity (match split_ws (32%N :: s) with ([], ws) => ws | (w, ws) => w :: ws end); [done|].
  by rewrite split_ws_space.
Qed.

Lemma split_whitespace_word w s :
  is_word w → split_whitespace (w ++ 32%N :: s) = w :: split_whitespace s.
Proof.
  intros [Hne Hw]. unfold split_whitespace at 1. rewrite split_ws_word_app by done.
  rewrite split_ws_space. simpl. rewrite app_nil_r. by destruct w.
Qed.

Lemma dash_word : is_word (lit "-").
Proof. split; [done|]. by repeat constructor. Qed.

Lemma normalize_bullet l : clean l → normalize_line (lit "  - " ++ l) = lit "- " ++ l.
Proof.
  intros [Hne Hn]. unfold normalize_line in *.
  change (lit "  - " ++ l) with (32%N :: 32%N :: lit "-" ++ 32%N :: l).
  rewrite !split_whitespace_space, split_whitespace_word by apply dash_word.
  rewrite join_cons; [by rewrite Hn|]. intros Hnil. rewrite Hnil in Hn. by subst l.
Qed.

(** ** De-duplication *)

Definition line_key (l : str) : str := to_ascii_lowercase l.

Record dedupe_inv (processed : list str) (st : DedupeState) : Prop := {
  di_clean : Forall clean (normalized st);
  di_nodup : NoDup (line_key <$> normalized st);
  di_seen : ∀ k, k ∈ seen st ↔ k ∈ line_key <$> normalized st;
  di_cover : ∀ l, l ∈ processed → normalize_line l ≠ [] →
             line_key (normalize_line l) ∈ line_key <$> normalized st;
  di_from : ∀ l, l ∈ normalized st → l ∈ normalize_line <$> processed;
  di_count : (length (normalized st) + duplicates st =
              length (filter (fun l => normalize_line l ≠ []) processed))%nat;
}.

Lemma dedupe_step_inv processed st l :
  dedupe_inv processed st → dedupe_inv (processed ++ [l]) (dedupe_step st l).
Proof.
  intros []. unfold dedupe_step. fold (line_key (normalize_line l)).
  destruct (normalize_line l) as [|c n] eqn:En.
  - split; auto.
    + intros x [Hx| ->%list_elem_of_singleton]%elem_of_app; [by apply di_cover0|done].
    + intros x Hx. rewrite fmap_app. set_solver.
    + rewrite filter_app, length_app, filter_cons_False by (rewrite En; tauto). simpl. lia.
  - assert (clean (c :: n)) as Hcl by (rewrite <-En; apply normalize_line_clean; by rewrite En).
    assert (length (filter (fun l => normalize_line l ≠ []) (processed ++ [l])) =
            S (length (filter (fun l => normalize_line l ≠ []) processed))) as Hlen.
    { rewrite filter_app, length_app, filter_cons_True by (by rewrite En). simpl. lia. }
    case_decide as Hin; split; simpl; auto.
    + intros x [Hx| ->%list_elem_of_singleton]%elem_of_app Hne; [by apply di_cover0|].
      rewrite En. by apply di_seen0.
    + intros x Hx. rewrite fmap_app. set_solver.
    + lia.
    + apply Forall_app. auto.
    + rewrite fmap_app. apply NoDup_app. split; [done|]. split; [|apply NoDup_singleton].
      intros k Hk. rewrite <-di_seen0 in Hk. csimpl. set_solver.
    + intros k. rewrite fmap_app. csimpl. rewrite elem_of_app, <-di_seen0. set_solver.
    + intros x [Hx| ->%list_elem_of_singleton]%elem_of_app Hne; rewrite fmap_app, elem_of_app.
      * left. by apply di_cover0.
      * right. rewrite En. csimpl. set_solver.
    + intros x [Hx| ->%list_elem_of_singleton]%elem_of_app; rewrite fmap_app, elem_of_app.
      * left. by apply di_from0.
      * right. csimpl. rewrite En. set_solver.
    + rewrite length_app. simpl. lia.
Qed.

Lemma dedupe_fold_inv ls processed st :
  dedupe_inv processed st → dedupe_inv (processed ++ ls) (foldl dedupe_step st ls).
Proof.
  revert processed st; induction ls as [|l ls IH]; intros processed st H; simpl.
  - by rewrite app_nil_r.
  - replace (processed ++ l :: ls) with ((processed ++ [l]) ++ ls) by (by rewrite <-app_assoc).
    apply IH. by apply dedupe_step_inv.
Qed.

Lemma dedupe_inv_all ls :
  dedupe_inv ls (foldl dedupe_step {| seen := ∅; normalized := []; duplicates := 0 |} ls).
Proof.
  apply (dedupe_fold_inv ls []). split; simpl; try apply NoDup_nil_2; set_solver.
Qed.

(** De-duplication returns normalised, non-empty lines that are distinct
    up to ASCII case, loses no line up to case, invents none, and the number
    of removed duplicates accounts for every non-blank input line. *)
Theorem dedupe_spec (ls out : list str) (removed : nat) :
  normalize_and_dedupe_lines ls = (out, removed) →
  Forall clean out ∧
  NoDup (line_key <$> out) ∧
  (∀ l, l ∈ ls → normalize_line l ≠ [] → line_key (normalize_line l) ∈ line_key <$> out) ∧
  (∀ l, l ∈ out → l ∈ normalize_line <$> ls) ∧
  (length out + removed = length (filter (fun l => normalize_line l ≠ []) ls))%nat.
Proof.
  unfold normalize_and_dedupe_lines. intros [= <- <-].
  destruct (dedupe_inv_all ls). auto.
Qed.

Lemma dedupe_distinct_fold ls st :
  Forall clean ls → NoDup (line_key <$> ls) → (∀ l, l ∈ ls → line_key l ∉ seen st) →
  let st' := foldl dedupe_step st ls in
  normalized st' = normalized st ++ ls ∧ duplicates st' = duplicates st.
Proof.
  revert st; induction ls as [|l ls IH]; intros st Hc Hnd Hs; simpl.
  - by rewrite app_nil_r.
  - apply Forall_cons in Hc as [[Hne Hl] Hc]. csimpl in Hnd. apply NoDup_cons in Hnd as [Hni Hnd].
    assert (dedupe_step st l = {| seen := {[ line_key l ]} ∪ seen st;
              normalized := normalized st ++ [l]; duplicates := duplicates st |}) as ->.
    { unfold dedupe_step. rewrite Hl. destruct l as [|c l]; [done|].
      rewrite decide_False; [done|]. apply Hs. by left. }
    destruct (IH {| seen := {[ line_key l ]} ∪ seen st; normalized := normalized st ++ [l];
                    duplicates := duplicates st |}) as [-> ->]; auto; simpl.
    + intros x Hx. rewrite not_elem_of_union, not_elem_of_singleton. split.
      * intros He. apply Hni. rewrite <-He. by apply list_elem_of_fmap_2.
      * apply Hs. by right.
    + by rewrite <-app_assoc.
Qed.

Lemma dedupe_distinct ls :
  Forall clean ls → NoDup (line_key <$> ls) → normalize_and_dedupe_lines ls = (ls, O).
Proof.
  intros Hc Hnd. unfold normalize_and_dedupe_lines.
  destruct (dedupe_distinct_fold ls {| seen := ∅; normalized := []; duplicates := 0 |}) as [-> ->];
    auto. simpl. set_solver.
Qed.

(** ** Reading a summary back *)

Definition is_digit (c : N) : Prop := (48 ≤ c ≤ 57)%N.

Lemma pretty_N_char_digit x : is_digit (Ascii.N_of_ascii (pretty_N_char x)).
Proof.
  unfold is_digit. destruct x as [|p]; [by vm_compute|].
  do 4 (try destruct p as [p|p|]); by vm_compute.
Qed.

Lemma pretty_N_go_digits x s :
  Forall is_digit (lit s) → Forall is_digit (lit (pretty_N_go x s)).
Proof.
  revert s. induction (N.lt_wf_0 x) as [x _ IH]; intros s Hs.
  destruct (decide (x = 0)%N) as [->|Hx]; [by rewrite pretty_N_go_0|].
  rewrite pretty_N_go_step by lia. apply IH; [apply N.div_lt; lia|].
  change (lit (String ?c s)) with (Ascii.N_of_ascii c :: lit s).
  constructor; [apply pretty_N_char_digit|done].
Qed.

Lemma show_digits n : Forall is_digit (show n).
Proof.
  unfold show. change (pretty (Z.to_N n)) with
    (if decide (Z.to_N n = 0)%N then "0" else pretty_N_go (Z.to_N n) "").
  case_decide; [by repeat constructor; vm_compute|]. apply pretty_N_go_digits. constructor.
Qed.

Lemma plain_no_break l : l ≠ [] → Forall (fun c => c ≠ 10%N ∧ c ≠ 13%N) l → plain_line l.
Proof.
  intros Hne H. rewrite Forall_forall in H. split; [|split; [|done]];
    intros Hin; by destruct (H _ Hin).
Qed.

Lemma scope_line_plain n :
  plain_line (lit "- Scope: " ++ show n ++ lit " compacted message(s).").
Proof.
  apply plain_no_break; [done|]. rewrite !Forall_app. split; [|split].
  - by repeat constructor.
  - eapply Forall_impl; [apply show_digits|]. unfold is_digit. simpl. lia.
  - by repeat constructor.
Qed.

Lemma clean_bullet_plain l : clean l → plain_line (lit "  - " ++ l).
Proof.
  intros Hc. apply plain_no_break; [done|]. apply Forall_app. split; [by repeat constructor|].
  apply Forall_forall. intros c Hin.
  destruct (clean_chars l c Hc Hin) as [->|Hw]; [done|]. split; by intros ->.
Qed.

Lemma build_summary_lines_plain n prev new :
  Forall clean prev → Forall clean new →
  Forall plain_line (line_text <$> build_summary_lines n prev new).
Proof.
  intros Hp Hn.
  assert (∀ k ls, Forall clean ls →
            Forall plain_line (line_text <$>
              ((fun l => {| line_text := lit "  - " ++ l; line_kind := k |}) <$> ls))) as Hd.
  { intros k ls H. rewrite <-list_fmap_compose, Forall_fmap. eapply Forall_impl; [exact H|].
    intros l. apply clean_bullet_plain. }
  unfold build_summary_lines. rewrite !fmap_app, !Forall_app. split; [|split].
  - csimpl. repeat constructor; try (by apply plain_no_break; [done|repeat constructor]).
    all: apply scope_line_plain.
  - destruct prev; [constructor|]. csimpl. constructor; [|by apply (Hd PreviousDetail) in Hp].
    apply plain_no_break; [done|]. by repeat constructor.
  - rewrite fmap_cons. constructor; [|by apply Hd].
    apply plain_no_break; [done|]. by repeat constructor.
Qed.

Definition extract_line (line : str) : option str :=
  let normalized := normalize_line line in
  if is_structure_line normalized then None else Some (strip_bullet_prefix normalized).

Lemma normalize_scope_line rest :
  is_structure_line (normalize_line (lit "- Scope: " ++ rest)) = true.
Proof.
  unfold normalize_line.
  change (lit "- Scope: " ++ rest) with (lit "-" ++ 32%N :: lit "Scope:" ++ 32%N :: rest).
  rewrite split_whitespace_word by apply dash_word.
  rewrite split_whitespace_word by (split; [done|by repeat constructor]).
  unfold is_structure_line.
  assert (∃ t, join (lit " ") (lit "-" :: lit "Scope:" :: split_whitespace rest) =
                lit "- Scope:" ++ t) as [t ->].
  { rewrite join_cons by done. destruct (split_whitespace rest) as [|w ws].
    - exists []. done.
    - exists (lit " " ++ join (lit " ") (w :: ws)). done. }
  rewrite starts_with_app. by rewrite !orb_true_r.
Qed.

Lemma extract_bullet l :
  clean l →
  extract_line (lit "  - " ++ l) =
    if is_structure_line (lit "- " ++ l) then None else Some l.
Proof.
  intros Hc. unfold extract_line. rewrite normalize_bullet by done.
  destruct (is_structure_line _); [done|]. unfold strip_bullet_prefix.
  by rewrite strip_prefix_app.
Qed.

(** The details that a reader of the summary can tell from its structure. *)
Definition keepable (l : str) : Prop := is_structure_line (lit "- " ++ l) = false.
#[global] Instance keepable_dec l : Decision (keepable l).
Proof. unfold keepable. apply _. Defined.

Lemma list_omap_cons {A B} (f : A → option B) x l :
  omap f (x :: l) = match f x with Some y => y :: omap f l | None => omap f l end.
Proof. done. Qed.

Lemma extract_bullets ls k :
  Forall clean ls →
  omap extract_line (line_text <$>
    ((fun l => {| line_text := lit "  - " ++ l; line_kind := k |}) <$> ls)) = filter keepable ls.
Proof.
  induction 1 as [|l ls Hl Hls IH]; [done|]. rewrite !fmap_cons, list_omap_cons. cbn [line_text].
  rewrite extract_bullet by done.
  destruct (decide (keepable l)) as [Hk|Hk].
  - rewrite filter_cons_True by done. unfold keepable in Hk. rewrite Hk. by rewrite IH.
  - rewrite filter_cons_False by done. unfold keepable in Hk.
    apply not_false_iff_true in Hk. by rewrite Hk, IH.
Qed.

Lemma extract_build n prev new :
  Forall clean prev → Forall clean new →
  extract_previous_summary_lines (Some (summary_text (build_summary_lines n prev new))) =
    normalize_and_dedupe_lines (filter keepable (prev ++ new)).
Proof.
  intros Hp Hn. unfold extract_previous_summary_lines. f_equal.
  unfold summary_text, nl. rewrite lines_join by (by apply build_summary_lines_plain).
  change (fun line : str => _) with extract_line.
  unfold build_summary_lines. rewrite !fmap_app, !omap_app, filter_app.
  assert (omap extract_line (line_text <$>
    [ {| line_text := lit "Conversation summary:"; line_kind := Header |};
      {| line_text := lit "- Scope: " ++ show (Z.of_nat n) ++ lit " compacted message(s).";
         line_kind := Scope |} ]) = []) as ->.
  { rewrite !fmap_cons, !list_omap_cons. cbn [line_text].
    assert (extract_line (lit "- Scope: " ++ show (Z.of_nat n) ++ lit " compacted message(s).")
            = None) as ->; [|done].
    unfold extract_line. by rewrite normalize_scope_line. }
  rewrite app_nil_l. f_equal.
  - destruct prev as [|p prev]; [done|]. rewrite fmap_cons. simpl omap at 1.
    by rewrite <-(extract_bullets (p :: prev) PreviousDetail).
  - rewrite fmap_cons. rewrite <-(extract_bullets new NewDetail) by done. done.
Qed.

Lemma list_filter_keep {A} (P : A → Prop) `{!∀ x, Decision (P x)} (l : list A) :
  Forall P l → filter P l = l.
Proof.
  induction 1 as [|x l Hx Hl IH]; [done|]. rewrite filter_cons_True by done. by f_equal.
Qed.

(** A summary can be read back: the detail lines extracted from the text
    of a built summary are exactly the previous and new details, in order and
    with no duplicate reported, when they are normalised, pairwise distinct up
    to case, and none looks like a structural line of the format. *)
Theorem summary_round_trip (n : nat) (prev new : list str) :
  Forall clean (prev ++ new) → NoDup (line_key <$> prev ++ new) → Forall keepable (prev ++ new) →
  extract_previous_summary_lines (Some (summary_text (build_summary_lines n prev new))) =
    (prev ++ new, O).
Proof.
  intros Hc Hnd Hk. pose proof Hc as [Hp Hn]%Forall_app. rewrite extract_build by done.
  rewrite list_filter_keep by done. by apply dedupe_distinct.
Qed.

(** A detail that starts with "Scope:" is written into the summary as an
    ordinary bullet but dropped when the summary is read back for the next
    compaction, because the bullet then looks like the summary's own scope
    line. *)
Theorem scope_detail_lost (n : nat) (rest : str) :
  clean (lit "Scope: " ++ rest) →
  lit "  - Scope: " ++ rest ∈ line_text <$> build_summary_lines n [] [lit "Scope: " ++ rest] ∧
  extract_previous_summary_lines
    (Some (summary_text (build_summary_lines n [] [lit "Scope: " ++ rest]))) = ([], O).
Proof.
  intros Hc. split.
  - unfold build_summary_lines. csimpl. rewrite !elem_of_cons. right. right. right. by left.
  - rewrite extract_build by (auto using Forall_nil_2, Forall_cons_2).
    rewrite app_nil_l, filter_cons_False; [done|]. unfold keepable, is_structure_line.
    change (lit "- " ++ lit "Scope: " ++ rest) with (lit "- Scope:" ++ 32%N :: rest).
    rewrite starts_with_app, !orb_true_r. done.
Qed.

(** ** Witnesses *)

Definition demo_summary_json : SummaryJson := {|
  source_to_string_pretty := fun _ => Ok (lit "{}");
  schema_hint := lit "{}";
  response_from_str := fun s => Ok {| resp_previous_context := [];
                                      resp_new_context := [s; lit "- " ++ s] |};
|}.
Definition demo_usage : Usage :=
  {| prompt_tokens := 0; completion_tokens := 0; usage_total_tokens := 0; cached_tokens := 0;
     cache_write_tokens := 0 |}.
Definition demo_provider : LlmProvider (J := text_json) := {|
  complete_with_budget := fun _ _ =>
    Ok {| resp_message := {| am_text := Some (lit "```json decided to keep the parser ```");
                             am_reasoning_content := None; tool_calls := [];
                             usage := demo_usage; stop_reason := EndTurn |};
          kv_cache_chunk_hashes := [] |};
|}.
Definition demo_summary_budget : SummaryCompressionBudget :=
  {| max_summary_tokens := 40; preserve_tail_messages := 3 |}.
Definition demo_completion : CompletionConfig :=
  {| max_tokens := 4096; temperature := F64.of_ratio 2 10 |}.
Definition demo_estimator : TokenEstimator (J := text_json) :=
  rough_estimator (J := text_json) default_rough.
Lemma demo_laws : TextEstimatorLaws (J := text_json) demo_estimator.
Proof. apply rough_laws_pos. by vm_compute. Qed.

Lemma rendering_within_budget_witness :
  estimate_text_tokens (TokenEstimator := demo_estimator)
    (render_message_line (J := text_json) (E := demo_estimator)
       (user_message (lit "please fix the build of the parser crate today")) 6) ≤ 6.
Proof.
  pose proof (rendering_within_budget (J := text_json) (E := demo_estimator) (L := demo_laws)
    (lit "x") (user_message (lit "please fix the build of the parser crate today")) 6) as H.
  apply H; [lia|]. by vm_compute.
Defined.

Lemma summary_within_budget_witness :
  ∃ r, summarize_messages_with_previous (J := text_json) (E := demo_estimator)
         (SJ := demo_summary_json) (take 2 demo_history) None demo_summary_budget demo_provider
         demo_completion = Ok r ∧
       estimate_text_tokens (TokenEstimator := demo_estimator) (summary r) ≤ 40.
Proof.
  destruct (summarize_messages_with_previous (J := text_json) (E := demo_estimator)
         (SJ := demo_summary_json) (take 2 demo_history) None demo_summary_budget demo_provider
         demo_completion) as [r|e] eqn:Er; [|by vm_compute in Er].
  exists r. split; [done|].
  apply (summary_within_budget (J := text_json) (E := demo_estimator) (L := demo_laws)
           (SJ := demo_summary_json) (take 2 demo_history) None demo_summary_budget
           demo_provider demo_completion r); [by vm_compute|exact Er].
Defined.

Lemma dedupe_spec_witness :
  ∃ out removed, normalize_and_dedupe_lines [lit "a  b"; lit " A B "; lit "  "; lit "c"]
                 = (out, removed) ∧ (length out + removed = 3)%nat.
Proof.
  destruct (normalize_and_dedupe_lines [lit "a  b"; lit " A B "; lit "  "; lit "c"])
    as [out removed] eqn:Ed.
  exists out, removed. split; [done|].
  destruct (dedupe_spec _ _ _ Ed) as (_ & _ & _ & _ & Hc). rewrite Hc. by vm_compute.
Defined.

Lemma summary_round_trip_witness :
  extract_previous_summary_lines
    (Some (summary_text (build_summary_lines 7 [lit "kept the parser"]
             [lit "tests pass"; lit "- open: docs"]))) =
  ([lit "kept the parser"; lit "tests pass"; lit "- open: docs"], O).
Proof.
  apply (summary_round_trip 7 [lit "kept the parser"] [lit "tests pass"; lit "- open: docs"]).
  - repeat constructor; try done; by vm_compute.
  - apply (bool_decide_unpack _). by vm_compute.
  - apply (bool_decide_unpack _). by vm_compute.
Defined.

Lemma scope_detail_lost_witness :
  extract_previous_summary_lines
    (Some (summary_text (build_summary_lines 3 [] [lit "Scope: auth module only"]))) = ([], O).
Proof.
  apply (scope_detail_lost 3 (lit "auth module only")). split; [done|]. by vm_compute.
Defined.
