(* ===== verification/ContextManager.v ===== *)
(** * The compression pipeline

    crates/compact/src/manager.rs ([ContextManager]: analysis, candidate
    resolution, automatic compaction, the pipeline's [compress]),
    crates/compact/src/envelope.rs, the no-op pipeline of passthrough.rs and
    the default construction of defaults.rs. *)

From S2P Require Import Prelude RStr F64 Message Budget Estimator Compaction Summary.

Record CompressionMeta := {
  last_compact_turn : option Z;
  compact_summary : option str;
}.

Section Pipeline.
Context `{J : JsonLib}.

Record CompressedView := {
  v_messages : list ChatMessage;
  removed_count : nat;
  v_summary : option str;
  updated_meta : CompressionMeta;
  v_estimated_tokens : Z;
}.

(** The [CompressionPipeline] trait. [pipeline_analyze] returns no error in
    the source: an [Err] here is the panic of its [expect]. *)
Class CompressionPipeline (T : Type) := {
  pipeline_analyze : T → list ChatMessage → ∀ {B} `{TokenBudgetPolicy B}, B →
                     CompactResult ContextAnalysis;
  pipeline_compress : T → list ChatMessage → ∀ {B} `{TokenBudgetPolicy B}, B →
                      CompressionMeta → result CompressedView CompressionError;
}.

(** ** Envelope *)

Record ContextSection := { label : str; message_count : nat; token_estimate : Z }.
Record ContextBreakdown := {
  b_total_tokens : Z;
  head_tokens : Z;
  summary_tokens : Z;
  tail_tokens : Z;
}.
Record ContextEnvelope := {
  sections : list ContextSection;
  breakdown : ContextBreakdown;
  analysis : ContextAnalysis;
}.

Definition build_envelope_from (E : TokenEstimator) (ms : list ChatMessage) (summary : option str)
    (an : ContextAnalysis) (preserve_tail : nat) : ContextEnvelope :=
  let tail_start := (length ms - preserve_tail)%nat in
  let head := take tail_start ms in
  let tail := drop tail_start ms in
  let head_tokens := estimate_messages_tokens head in
  let tail_tokens := estimate_messages_tokens tail in
  let summary_tokens := match summary with Some s => estimate_text_tokens s | None => 0 end in
  let total := Word.add (Word.add head_tokens tail_tokens) summary_tokens in
  let head_section := {| label := lit "head"; message_count := length head;
                         token_estimate := head_tokens |} in
  let tail_section := {| label := lit "tail"; message_count := length tail;
                         token_estimate := tail_tokens |} in
  {| sections := match summary with
                 | Some _ => [head_section;
                              {| label := lit "summary"; message_count := 1;
                                 token_estimate := summary_tokens |};
                              tail_section]
                 | None => [head_section; tail_section]
                 end;
     breakdown := {| b_total_tokens := total; head_tokens := head_tokens;
                     summary_tokens := summary_tokens; tail_tokens := tail_tokens |};
     analysis := an |}.

(** ** [ContextManager] *)

Record ContextManagerConfig := {
  thresholds : ContextThresholds;
  summary_budget : SummaryCompressionBudget;
}.

Definition validate_manager_config (c : ContextManagerConfig) : CompactResult () :=
  let? _ := validate_thresholds (thresholds c) in
  let? _ := validate_summary_budget (summary_budget c) in
  Ok ().

Record ContextManager := {
  estimator : TokenEstimator;
  config : ContextManagerConfig;
  summary_provider : LlmProvider;
  summary_request : CompletionConfig;
}.

(** [CompactionPolicyService::new]. *)
Definition policy_service_new (t : ContextThresholds) : CompactResult ContextThresholds :=
  let? _ := validate_thresholds t in Ok t.

(** The manager's service holds the thresholds of its configuration. *)
Definition new_context_manager (E : TokenEstimator) (c : ContextManagerConfig) (p : LlmProvider)
    (req : CompletionConfig) : CompactResult ContextManager :=
  let? _ := validate_manager_config c in
  let? _ := Result.map_err (fun e => InvalidConfiguration (M e))
              (validate_completion_config req) in
  let? _ := policy_service_new (thresholds c) in
  Ok {| estimator := E; config := c; summary_provider := p; summary_request := req |}.

Definition checked_analyze (cm : ContextManager) (ms : list ChatMessage)
    (budget : TokenBudgetConfig) : CompactResult ContextAnalysis :=
  let estimated := @estimate_messages_tokens _ (estimator cm) ms in
  analyze (thresholds (config cm)) estimated (from_budget budget).

Definition build_envelope (cm : ContextManager) (ms : list ChatMessage)
    (budget : TokenBudgetConfig) (summary : option str) : CompactResult ContextEnvelope :=
  let? an := checked_analyze cm ms budget in
  Ok (build_envelope_from (estimator cm) ms summary an
        (preserve_tail_messages (summary_budget (config cm)))).

Definition is_compression_summary (m : ChatMessage) : bool :=
  is_assistant m &&
  existsb (fun b => match b with
                    | Text text => starts_with (lit "auto_compact:" ++ nl) text
                    | _ => false
                    end) (blocks m).

Record CompactionResult := {
  c_messages : list ChatMessage;
  c_summary : option str;
  c_boundary : option CompactionBoundary;
  c_updated_meta : CompressionMeta;
  c_estimated_tokens : Z;
}.

Context `{SJ : SummaryJson}.

Definition auto_compact (cm : ContextManager) (ms : list ChatMessage) (meta : CompressionMeta)
    (boundary : option CompactionBoundary) (preserve_tail : nat) :
    CompactResult CompactionResult :=
  let? ' (boundary, candidates) := resolve_candidates ms preserve_tail boundary in
  match candidates with
  | [] =>
      Ok {| c_messages := ms; c_summary := compact_summary meta; c_boundary := boundary;
            c_updated_meta := meta;
            c_estimated_tokens := @estimate_messages_tokens _ (estimator cm) ms |}
  | _ =>
      let candidate_messages := omap (fun i => ms !! i) candidates in
      let candidates_include_summary := existsb is_compression_summary candidate_messages in
      let previous_summary := if candidates_include_summary then None else compact_summary meta in
      let? s := @summarize_messages_with_previous _ (estimator cm) _ candidate_messages
                  previous_summary (summary_budget (config cm)) (summary_provider cm)
                  (summary_request cm) in
      let inherited_message_id := find_map message_id candidate_messages in
      let summary_message :=
        new_message Assistant [Text (lit "auto_compact:" ++ nl ++ summary s)]
          inherited_message_id
          (match last candidate_messages with Some m => timestamp_ms m | None => 0 end) None in
      let compacted := apply_candidate_replacement ms candidates (Some summary_message) in
      Ok {| c_messages := compacted; c_summary := Some (summary s); c_boundary := boundary;
            c_updated_meta :=
              {| last_compact_turn :=
                   Some (Word.add_u32 (default 0 (last_compact_turn meta)) 1);
                 compact_summary := Some (summary s) |};
            c_estimated_tokens := @estimate_messages_tokens _ (estimator cm) compacted |}
  end.

Definition compress (cm : ContextManager) (ms : list ChatMessage) {B} `{TokenBudgetPolicy B}
    (budget : B) (meta : CompressionMeta) : result CompressedView CompressionError :=
  let budget := budget_to_config budget in
  let? an := Result.map_err compression_error_from (checked_analyze cm ms budget) in
  if negb (should_compact an) then
    Ok {| v_messages := ms; removed_count := 0; v_summary := compact_summary meta;
          updated_meta := meta; v_estimated_tokens := an_estimated_tokens an |}
  else
    let? r := Result.map_err compression_error_from
                (auto_compact cm ms meta None
                   (preserve_tail_messages (summary_budget (config cm)))) in
    let working := c_messages r in
    Ok {| v_messages := working;
          removed_count := (length ms - length working)%nat;
          v_summary := c_summary r;
          updated_meta := c_updated_meta r;
          v_estimated_tokens := @estimate_messages_tokens _ (estimator cm) working |}.

#[export] Instance ContextManager_pipeline : CompressionPipeline ContextManager := {
  pipeline_analyze cm ms B H b := checked_analyze cm ms (budget_to_config b);
  pipeline_compress := compress;
}.

(** ** The no-op pipeline *)

Inductive PassthroughCompressionPipeline := Passthrough.

Definition passthrough_block_bytes (b : ContentBlock) : Z :=
  match b with
  | Text text => utf8_len text
  | ToolUse call_id tool_name input =>
      Word.add (Word.add (utf8_len call_id) (utf8_len tool_name)) (utf8_len (value_to_string input))
  | ToolResult call_id tool_name output _ =>
      Word.add (Word.add (utf8_len call_id) (utf8_len tool_name)) (utf8_len output)
  | Image d | Document d => utf8_len d
  end.

Definition passthrough_analyze (ms : list ChatMessage) {B} `{TokenBudgetPolicy B} (budget : B) :
    ContextAnalysis :=
  let estimated := Word.sum (passthrough_block_bytes <$> concat (blocks <$> ms)) in
  let available := match tbp_available_budget budget with Ok n => n | Err _ => 0 end in
  {| severity := Normal; an_estimated_tokens := estimated; should_compact := false;
     total_tokens := estimated; available_tokens := available;
     usage_ratio := if available =? 0 then F64.zero
                    else F64.div (F64.of_usize estimated) (F64.of_usize available) |}.

Definition passthrough_compress (ms : list ChatMessage) (meta : CompressionMeta) :
    result CompressedView CompressionError :=
  Ok {| v_messages := ms; removed_count := 0; v_summary := None; updated_meta := meta;
        v_estimated_tokens := Z.of_nat (length ms) |}.

#[export] Instance Passthrough_pipeline :
    CompressionPipeline PassthroughCompressionPipeline := {
  pipeline_analyze _ ms B H b := Ok (passthrough_analyze ms b);
  pipeline_compress _ ms B H b meta := passthrough_compress ms meta;
}.

(** ** Defaults *)

Record CompactOverrides := {
  ov_auto_compact_ratio : option f64;
  ov_blocking_ratio : option f64;
  ov_summary_max_tokens : option Z;
  ov_summary_preserve_tail : option nat;
  ov_summary_llm_max_tokens : option Z;
}.
Definition no_overrides : CompactOverrides :=
  {| ov_auto_compact_ratio := None; ov_blocking_ratio := None; ov_summary_max_tokens := None;
     ov_summary_preserve_tail := None; ov_summary_llm_max_tokens := None |}.

Definition DEFAULT_SUMMARY_MAX_TOKENS : Z := 1024.
Definition DEFAULT_SUMMARY_PRESERVE_TAIL : nat := 4.
Definition DEFAULT_SUMMARY_LLM_MAX_TOKENS : Z := 4096.
Definition DEFAULT_SUMMARY_TEMPERATURE : f64 := F64.of_ratio 2 10.

Definition build_context_manager (overrides : option CompactOverrides) (provider : LlmProvider) :
    CompactResult ContextManager :=
  let ov := default no_overrides overrides in
  let? est := rough_try_new default_rough_config in
  let cfg := {|
    thresholds := {|
      auto_compact_ratio := default DEFAULT_AUTO_COMPACT_RATIO (ov_auto_compact_ratio ov);
      blocking_ratio := default DEFAULT_BLOCKING_RATIO (ov_blocking_ratio ov) |};
    summary_budget := {|
      max_summary_tokens := default DEFAULT_SUMMARY_MAX_TOKENS (ov_summary_max_tokens ov);
      preserve_tail_messages :=
        default DEFAULT_SUMMARY_PRESERVE_TAIL (ov_summary_preserve_tail ov) |} |} in
  let completion := {|
    max_tokens := default DEFAULT_SUMMARY_LLM_MAX_TOKENS (ov_summary_llm_max_tokens ov);
    temperature := DEFAULT_SUMMARY_TEMPERATURE |} in
  new_context_manager (rough_estimator est) cfg provider completion.
End Pipeline.

(** ** What compression preserves *)

Section Properties.
Context `{J : JsonLib} `{SJ : SummaryJson}.
Implicit Types (ms : list ChatMessage) (meta : CompressionMeta).

Lemma summary_message_recognised s id ts :
  is_compression_summary (new_message Assistant [Text (lit "auto_compact:" ++ nl ++ s)] id ts None)
    = true.
Proof.
  unfold is_compression_summary, is_assistant. cbn [role blocks new_message existsb].
  rewrite app_assoc, starts_with_app. done.
Qed.

(** The two ways automatic compaction succeeds. *)
Lemma auto_compact_ok cm ms meta pt r :
  auto_compact cm ms meta None pt = Ok r →
  ∃ b cands, resolve_candidates ms pt None = Ok (b, cands) ∧ candidate_indexes ms pt b = Ok cands ∧
    ((cands = [] ∧ c_messages r = ms ∧ c_updated_meta r = meta) ∨
     (cands ≠ [] ∧ ∃ s sm,
        c_messages r = apply_candidate_replacement ms cands (Some sm) ∧
        is_compression_summary sm = true ∧ c_summary r = Some s ∧
        compact_summary (c_updated_meta r) = Some s)).
Proof.
  destruct (resolve_candidates_protected ms pt) as (b & cands & Hr & Hc & _).
  unfold auto_compact. rewrite Hr. cbn [Result.bind]. intros H. exists b, cands.
  split; [done|]. split; [done|]. destruct cands as [|i cands]; inv_ok.
  - by left.
  - right. split; [done|]. eexists _, _. split; [done|].
    split; [apply summary_message_recognised|]. done.
Qed.

Lemma protected_index ms pt b cands i :
  resolve_candidates ms pt None = Ok (b, cands) →
  (∃ m, ms !! i = Some m ∧ role m = System) ∨ Some i = first_user_index ms ∨
    (length ms - pt ≤ i)%nat →
  i ∉ cands.
Proof.
  intros Hr Hi Hin. destruct (resolve_candidates_protected ms pt) as (b' & c' & Hr' & _ & H).
  rewrite Hr in Hr'. simplify_eq. destruct (H i Hin) as (Hlt & Hu & m & Hm & Hs).
  destruct Hi as [(m' & Hm' & Hs')|[Hi|Hi]]; [congruence|done|lia].
Qed.

Lemma compacted_keeps cm ms meta pt r i m :
  auto_compact cm ms meta None pt = Ok r → ms !! i = Some m →
  role m = System ∨ Some i = first_user_index ms ∨ (length ms - pt ≤ i)%nat →
  m ∈ c_messages r.
Proof.
  intros (b & cands & Hr & Hc & Hcase)%auto_compact_ok Hm Hi.
  destruct Hcase as [(_ & -> & _)|(Hne & s & sm & -> & _)]; [by eapply list_elem_of_lookup_2|].
  destruct (replacement_shape ms pt b cands sm Hc Hne) as (pre & suf & -> & Hk & _ & _).
  assert (m ∈ pre ++ suf) as Hin.
  { rewrite Hk. eapply elem_of_kept; [done|]. eapply protected_index; [done|].
    destruct Hi as [Hs|[Hu|Ht]]; eauto. }
  apply elem_of_app in Hin. rewrite elem_of_app, elem_of_cons. tauto.
Qed.

Lemma compacted_tail cm ms meta pt r :
  auto_compact cm ms meta None pt = Ok r →
  drop (length ms - pt) ms `suffix_of` c_messages r ∧ (length (c_messages r) ≤ length ms)%nat.
Proof.
  intros (b & cands & Hr & Hc & Hcase)%auto_compact_ok.
  destruct Hcase as [(_ & -> & _)|(Hne & s & sm & -> & _)].
  - split; [|done]. exists (take (length ms - pt) ms). by rewrite take_drop.
  - destruct (replacement_shape ms pt b cands sm Hc Hne) as (pre & suf & Ha & _ & Hlen & Hsuf).
    split; [|destruct cands; [done|simpl in Hlen; lia]].
    rewrite Ha. apply suffix_app_r, suffix_cons_r. apply Hsuf. intros i Hi.
    destruct (resolve_candidates_protected ms pt) as (b' & c' & Hr' & _ & H).
    rewrite Hr in Hr'. simplify_eq. by destruct (H i Hi).
Qed.

(** C24: a successful [compress] never loses a protected message: every system
    message, the first user message and each of the last
    [preserve_tail_messages] messages is still in the view; the tail is the
    view's tail, unchanged and in order; and the reported number of removed
    messages is the difference in length. *)
Theorem compress_preserves cm ms {B} `{TokenBudgetPolicy B} (budget : B) meta v :
  compress cm ms budget meta = Ok v →
  let pt := preserve_tail_messages (summary_budget (config cm)) in
  (∀ i m, ms !! i = Some m →
     role m = System ∨ Some i = first_user_index ms ∨ (length ms - pt ≤ i)%nat →
     m ∈ v_messages v) ∧
  drop (length ms - pt) ms `suffix_of` v_messages v ∧
  (length (v_messages v) + removed_count v = length ms)%nat.
Proof.
  intros Hv pt. unfold compress in Hv. inv_ok. destruct (negb (should_compact v0)) eqn:Es; inv_ok.
  - cbn [v_messages removed_count]. split; [|split; [|lia]].
    + intros. by eapply list_elem_of_lookup_2.
    + exists (take (length ms - pt) ms). by rewrite take_drop.
  - cbn [v_messages removed_count]. destruct (compacted_tail _ _ _ _ _ Hok0) as [Ht Hl].
    split; [|split; [done|lia]]. intros i m Hm Hi. by eapply compacted_keeps.
Qed.

(** History is rewritten only with a summary standing in for what is
    removed: a successful [compress] either returns the very history it was
    given (always so below the auto-compact threshold, with the metadata
    untouched), or its view contains a message recognised as a compression
    summary and the metadata carries the summary text. *)
Theorem compress_rewrites_with_summary cm ms {B} `{TokenBudgetPolicy B} (budget : B) meta v :
  compress cm ms budget meta = Ok v →
  (v_messages v = ms ∧ updated_meta v = meta ∧ removed_count v = O) ∨
  (∃ an s sm, checked_analyze cm ms (budget_to_config budget) = Ok an ∧ should_compact an = true ∧
     sm ∈ v_messages v ∧ is_compression_summary sm = true ∧
     v_summary v = Some s ∧ compact_summary (updated_meta v) = Some s).
Proof.
  intros Hv. unfold compress in Hv. inv_ok. destruct (negb (should_compact v0)) eqn:Es; inv_ok.
  - by left.
  - cbn [v_messages updated_meta removed_count v_summary]. b2p.
    apply auto_compact_ok in Hok0 as (b & cands & Hr & Hc & Hcase).
    destruct Hcase as [(_ & -> & ->)|(Hne & s & sm & Hm & Hsm & Hs & Hmeta)].
    + left. split; [done|]. split; [done|lia].
    + right. exists v0, s, sm. split; [done|]. split; [done|].
      destruct (replacement_shape ms _ b cands sm Hc Hne) as (pre & suf & Ha & _).
      rewrite Hm, Ha. split; [set_solver|]. done.
Qed.

Lemma new_context_manager_ok E c p req cm :
  new_context_manager E c p req = Ok cm →
  config cm = c ∧ validate_thresholds (thresholds c) = Ok () ∧
  validate_summary_budget (summary_budget c) = Ok () ∧ validate_completion_config req = Ok ().
Proof.
  unfold new_context_manager, validate_manager_config. intros H. inv_ok.
  repeat match goal with u : () |- _ => destruct u end. done.
Qed.

(** With no [compact] section the shared constructor always yields a
    working pipeline, whatever the provider, and whatever overrides it
    accepts, the manager it builds has valid thresholds, a positive summary
    budget and a non-empty protected tail. *)
Theorem build_context_manager_valid (provider : LlmProvider) (ov : option CompactOverrides) cm :
  (∃ cm, build_context_manager None provider = Ok cm) ∧
  (build_context_manager ov provider = Ok cm →
     validate_thresholds (thresholds (config cm)) = Ok () ∧
     max_summary_tokens (summary_budget (config cm)) ≠ 0 ∧
     preserve_tail_messages (summary_budget (config cm)) ≠ O).
Proof.
  split; [eexists; reflexivity|]. unfold build_context_manager. intros H. inv_ok.
  apply new_context_manager_ok in H as (-> & Ht & Hb & _). split; [done|].
  unfold validate_summary_budget in Hb. repeat case_match; try done. by b2p.
Qed.

Lemma build_envelope_counts E ms s an pt :
  sum_list (message_count <$> sections (build_envelope_from E ms s an pt)) =
    (length ms + match s with Some _ => 1 | None => 0 end)%nat.
Proof.
  unfold build_envelope_from. cbn [sections].
  destruct s; simpl; rewrite length_take, length_drop; lia.
Qed.
End Properties.

(** ** Witnesses *)

Definition demo_manager : ContextManager (J := text_json) := {|
  estimator := demo_estimator;
  config := {| thresholds := demo_thresholds; summary_budget := demo_summary_budget |};
  summary_provider := demo_provider;
  summary_request := demo_completion;
|}.
Definition demo_tight_policy : CompactionPolicy :=
  {| p_total_budget := 60; p_reserved_for_output := 0; p_reserved_for_system := 0;
     p_hard_limit_ratio := F64.one |}.
Definition demo_meta : CompressionMeta := {| last_compact_turn := None; compact_summary := None |}.
Definition demo_compress : result (CompressedView (J := text_json)) CompressionError :=
  compress (J := text_json) (SJ := demo_summary_json) demo_manager demo_history demo_tight_policy
    demo_meta.

Example demo_compress_ok :
  match demo_compress with Ok v => removed_count v = 1%nat | Err _ => False end.
Proof. vm_compute. reflexivity. Qed.

Lemma compress_preserves_witness :
  ∃ v, demo_compress = Ok v ∧ (length (v_messages v) + removed_count v = 8)%nat.
Proof.
  destruct demo_compress as [v|] eqn:Ev; [|by vm_compute in Ev]. exists v. split; [done|].
  destruct (compress_preserves (J := text_json) (SJ := demo_summary_json) demo_manager
    demo_history demo_tight_policy demo_meta v Ev) as (_ & _ & H). exact H.
Defined.

Lemma compress_rewrites_with_summary_witness :
  ∃ v, demo_compress = Ok v ∧ v_messages v ≠ demo_history ∧
       ∃ sm, sm ∈ v_messages v ∧ is_compression_summary (J := text_json) sm = true.
Proof.
  destruct demo_compress as [v|] eqn:Ev; [|by vm_compute in Ev]. exists v. split; [done|].
  assert (v_messages v ≠ demo_history) as Hne.
  { intros Heq. assert (length (v_messages v) = 8%nat) as Hl by (by rewrite Heq).
    clear Heq. unfold demo_compress in Ev.
    assert (match demo_compress with Ok v => length (v_messages v) | Err _ => O end = 7%nat)
      as H7 by (by vm_compute).
    unfold demo_compress in H7. rewrite Ev in H7. congruence. }
  split; [done|].
  destruct (compress_rewrites_with_summary (J := text_json) (SJ := demo_summary_json) demo_manager
    demo_history demo_tight_policy demo_meta v Ev) as [[Heq _]|(_ & _ & sm & _ & _ & Hin & Hs & _)].
  - destruct (Hne Heq).
  - exists sm. split; assumption.
Defined.

Lemma build_context_manager_valid_witness :
  ∃ cm, build_context_manager (J := text_json) None demo_provider = Ok cm ∧
        preserve_tail_messages (summary_budget (config cm)) ≠ O.
Proof.
  assert (∃ cm, build_context_manager (J := text_json) None demo_provider = Ok cm) as [cm Ec]
    by (eexists; reflexivity).
  exists cm. split; [done|].
  apply (build_context_manager_valid (J := text_json) demo_provider None cm). done.
Defined.
