(* ===== verification/Lifecycle.v ===== *)
(** * The backend lifecycle state machine

    crates/agent-contracts/src/backend/lifecycle.rs: the states of a backend,
    the lifecycle operations, and [BackendLifecycleStateMachine] with its
    begin / complete / fail protocol. The last part runs the machine as a
    transition system. *)

From S2P Require Import Prelude RStr.

Inductive BackendLifecycleState :=
| Unknown | Creating | Active | Pausing | Paused | Loading | Deleting | Deleted | Failed.
#[global] Instance BackendLifecycleState_eq_dec : EqDecision BackendLifecycleState.
Proof. solve_decision. Defined.

Inductive BackendLifecycleOperation := CreateSandbox | Load | Pause | Delete | Inspect.
#[global] Instance BackendLifecycleOperation_eq_dec : EqDecision BackendLifecycleOperation.
Proof. solve_decision. Defined.

Definition operation_plane_usable (s : BackendLifecycleState) : bool :=
  match s with Active => true | _ => false end.
Definition is_terminal (s : BackendLifecycleState) : bool :=
  match s with Deleted => true | _ => false end.
Definition is_transient (s : BackendLifecycleState) : bool :=
  match s with Creating | Pausing | Loading | Deleting => true | _ => false end.

Definition state_display (s : BackendLifecycleState) : str :=
  match s with
  | Unknown => lit "unknown"
  | Creating => lit "creating"
  | Active => lit "active"
  | Pausing => lit "pausing"
  | Paused => lit "paused"
  | Loading => lit "loading"
  | Deleting => lit "deleting"
  | Deleted => lit "deleted"
  | Failed => lit "failed"
  end.

Definition operation_display (o : BackendLifecycleOperation) : str :=
  match o with
  | CreateSandbox => lit "create_sandbox"
  | Load => lit "load"
  | Pause => lit "pause"
  | Delete => lit "delete"
  | Inspect => lit "inspect"
  end.

Definition in_progress_state (o : BackendLifecycleOperation) : option BackendLifecycleState :=
  match o with
  | CreateSandbox => Some Creating
  | Load => Some Loading
  | Pause => Some Pausing
  | Delete => Some Deleting
  | Inspect => None
  end.

Definition success_state (o : BackendLifecycleOperation) : option BackendLifecycleState :=
  match o with
  | CreateSandbox | Load => Some Active
  | Pause => Some Paused
  | Delete => Some Deleted
  | Inspect => None
  end.

Inductive BackendControlError :=
| InvalidRequest (message : str)
| InvalidState (current : option BackendLifecycleState)
    (requested_operation : BackendLifecycleOperation) (message : str)
| UnsupportedCapability (provider capability : str)
| NotFound (provider id : str)
| ProviderError (provider message : str)
| ControlTimeout (operation : BackendLifecycleOperation) (timeout_ms : Z)
| Transport (message : str).

Definition begin (current : option BackendLifecycleState) (operation : BackendLifecycleOperation) :
    result BackendLifecycleState BackendControlError :=
  match operation with
  | Inspect => Ok (default Unknown current)
  | _ =>
      match current, operation with
      | Some Deleted, Delete => Ok Deleted
      | _, _ =>
          let allowed :=
            match current, operation with
            | None, CreateSandbox => true
            | None, Load => true
            | Some Paused, Load => true
            | Some Active, Pause => true
            | Some Active, Delete => true
            | Some Paused, Delete => true
            | Some Failed, Delete => true
            | _, _ => false
            end in
          if negb allowed
          then Err (InvalidState current operation
                      (lit "backend lifecycle operation is not valid for current state"))
          else Result.ok_or (in_progress_state operation)
                 (InvalidState current operation (lit "operation has no in-progress state"))
      end
  end.

Definition complete_success (current : BackendLifecycleState)
    (operation : BackendLifecycleOperation) : result BackendLifecycleState BackendControlError :=
  match in_progress_state operation with
  | None => Err (InvalidState (Some current) operation
                   (lit "inspect completion must use reconcile_inspected_state"))
  | Some expected_current =>
      if bool_decide (current = Deleted) && bool_decide (operation = Delete) then Ok Deleted
      else if negb (bool_decide (current = expected_current))
      then Err (InvalidState (Some current) operation
                  (lit "expected state " ++ state_display expected_current
                   ++ lit " before completing operation"))
      else Result.ok_or (success_state operation)
             (InvalidState (Some current) operation (lit "operation has no success state"))
  end.

Definition complete_failure (current : BackendLifecycleState)
    (operation : BackendLifecycleOperation) : result BackendLifecycleState BackendControlError :=
  match operation with
  | Inspect => Ok current
  | _ =>
      match in_progress_state operation with
      | None => Ok Failed
      | Some expected_current =>
          if bool_decide (current = Deleted) && bool_decide (operation = Delete) then Ok Deleted
          else if negb (bool_decide (current = expected_current))
          then Err (InvalidState (Some current) operation
                      (lit "expected state " ++ state_display expected_current
                       ++ lit " before failing operation"))
          else Ok Failed
      end
  end.

Definition reconcile_inspected_state (inspected : BackendLifecycleState) :
    result BackendLifecycleState BackendControlError := Ok inspected.

(** ** The protocol *)

(** One successful call of the machine. [Inspect] only observes. *)
Inductive event :=
| Begin (o : BackendLifecycleOperation)
| Succeed (o : BackendLifecycleOperation)
| Fail_ (o : BackendLifecycleOperation).

Definition apply_event (s : option BackendLifecycleState) (e : event) :
    result (option BackendLifecycleState) BackendControlError :=
  match e, s with
  | Begin Inspect, _ => let? _ := begin s Inspect in Ok s
  | Begin o, _ => Result.map Some (begin s o)
  | Succeed o, Some st => Result.map Some (complete_success st o)
  | Fail_ o, Some st => Result.map Some (complete_failure st o)
  | Succeed o, None | Fail_ o, None => Err (InvalidState None o (lit "no backend"))
  end.

Inductive step : option BackendLifecycleState → event → option BackendLifecycleState → Prop :=
| step_event s e s' : apply_event s e = Ok s' → step s e s'.

(** States reached by successful calls from "no backend", with the calls. *)
Inductive reachable : list event → option BackendLifecycleState → Prop :=
| reach_init : reachable [] None
| reach_step h s e s' : reachable h s → step s e s' → reachable (h ++ [e]) s'.

(** The operation begun last and not yet completed. *)
Definition pending_step (p : option BackendLifecycleOperation) (e : event) :
    option BackendLifecycleOperation :=
  match e with
  | Begin Inspect | Fail_ Inspect => p
  | Begin o => Some o
  | Succeed _ | Fail_ _ => None
  end.
Definition pending (h : list event) : option BackendLifecycleOperation :=
  foldl pending_step None h.

Ltac destruct_lifecycle :=
  repeat match goal with
  | s : option BackendLifecycleState |- _ => destruct s
  | s : BackendLifecycleState |- _ => destruct s
  | o : BackendLifecycleOperation |- _ => destruct o
  end.

Lemma begin_transient s o st :
  o ≠ Inspect → begin s o = Ok st →
  in_progress_state o = Some st ∨ (s = Some Deleted ∧ o = Delete ∧ st = Deleted).
Proof. intros Ho H. destruct_lifecycle; simpl in *; simplify_eq; auto. Qed.

(** The three-phase protocol cannot get stuck or cross over. An operation
    that begins puts the backend in that operation's own in-progress state
    (a repeated delete of a deleted backend stays put); from there completing
    it always yields the operation's success state, failing it always yields
    [Failed] (or [Deleted] for the repeated delete), completing any other
    operation is refused, and no second operation can begin. *)
Theorem begin_then_complete (s : option BackendLifecycleState) (o : BackendLifecycleOperation)
    (st : BackendLifecycleState) :
  o ≠ Inspect → begin s o = Ok st →
  complete_success st o = Result.ok_or (success_state o)
    (InvalidState (Some st) o (lit "operation has no success state")) ∧
  success_state o ≠ None ∧
  complete_failure st o = Ok (if is_terminal st then Deleted else Failed) ∧
  (∀ o', o' ≠ o → o' ≠ Inspect → Result.is_ok (complete_success st o') = false ∧
                                  Result.is_ok (complete_failure st o') = false) ∧
  (∀ o', o' ≠ Inspect → is_terminal st = false → Result.is_ok (begin (Some st) o') = false).
Proof.
  intros Ho H. apply begin_transient in H; [|done].
  destruct_lifecycle; destruct H as [H|(?&?&?)]; simplify_eq/=;
    split_and!; try done; intros []; done.
Qed.

(** The pending operation and the state determine each other as far as the
    protocol needs it. *)
Definition consistent (s : option BackendLifecycleState) (p : option BackendLifecycleOperation) :
    bool :=
  match s, p with
  | None, None => true
  | None, Some _ => false
  | Some st, None => negb (is_transient st) && negb (bool_decide (st = Unknown))
  | Some st, Some o =>
      bool_decide (in_progress_state o = Some st)
      || bool_decide (o = Delete) && bool_decide (st = Deleted)
  end.

Lemma consistent_step s p e s' :
  consistent s p = true → apply_event s e = Ok s' → consistent s' (pending_step p e) = true.
Proof.
  intros Hc He. destruct e as [o|o|o], o; destruct s as [[]|]; try discriminate He;
    injection He as <-; destruct p as [[]|]; revert Hc; vm_compute; congruence.
Qed.

Lemma reachable_consistent h s : reachable h s → consistent s (pending h) = true.
Proof.
  unfold pending. induction 1 as [|h s e s' Hr IH Hs]; [done|].
  destruct Hs as [s e s' He]. rewrite foldl_app. exact (consistent_step _ _ _ _ IH He).
Qed.

(** In every run of the machine the backend is in a transient state only
    while exactly the operation with that in-progress state is pending, is
    never in the [Unknown] state (which only an inspection can report), and
    once deleted it stays deleted whatever calls succeed afterwards. *)
Theorem lifecycle_runs (h : list event) (st : BackendLifecycleState) :
  reachable h (Some st) →
  st ≠ Unknown ∧
  (is_transient st = true → ∃ o, pending h = Some o ∧ in_progress_state o = Some st) ∧
  (st = Deleted → ∀ e s', step (Some st) e s' → s' = Some Deleted).
Proof.
  intros H%reachable_consistent. split_and!.
  - intros ->. by destruct (pending h) as [[]|].
  - intros Ht. destruct (pending h) as [o|]; [|by destruct st].
    exists o. split; [done|]. by destruct st, o.
  - intros -> e s' Hs. inversion Hs as [s0 e0 s1 He]; subst.
    destruct e as [o|o|o], o; vm_compute in He; congruence.
Qed.

Lemma begin_then_complete_witness :
  complete_success Pausing Pause = Ok Paused ∧
  Result.is_ok (begin (Some Pausing) Delete) = false.
Proof.
  destruct (begin_then_complete (Some Active) Pause Pausing) as (H1 & _ & _ & _ & H2);
    [done|done|]. split; [exact H1|]. by apply H2.
Defined.

Lemma lifecycle_runs_witness :
  reachable [Begin CreateSandbox; Succeed CreateSandbox; Begin Pause] (Some Pausing) ∧
  ∃ o, pending [Begin CreateSandbox; Succeed CreateSandbox; Begin Pause] = Some o ∧
       in_progress_state o = Some Pausing.
Proof.
  assert (reachable [Begin CreateSandbox; Succeed CreateSandbox; Begin Pause] (Some Pausing)) as H.
  { apply (reach_step [Begin CreateSandbox; Succeed CreateSandbox] (Some Active) (Begin Pause)).
    - apply (reach_step [Begin CreateSandbox] (Some Creating) (Succeed CreateSandbox)).
      + apply (reach_step [] None (Begin CreateSandbox)); [constructor|by constructor].
      + by constructor.
    - by constructor. }
  split; [exact H|]. apply (lifecycle_runs _ _ H). done.
Defined.
