(* ===== verification/SandboxCounter.v ===== *)
(** * The shared sandbox counter

    apps/shared/src/backend/sandbox_counter.rs: the per-key count of live
    sandboxes kept in a file shared between processes, with time-limited
    reservations and ghost credits. The file is a value of type
    [option SandboxCounterData] (None: it does not exist); each operation runs
    under the in-process lock and the file lock, so it is one atomic step that
    takes the outcome of its system calls as an [Env]. *)

From S2P Require Import Prelude RStr.

Definition MAX_ACTIVE_SANDBOXES_PER_KEY : Z := 20.
Definition PENDING_RESERVATION_TTL_MS : Z := 300000.

(** PBKDF2 and base64 of the identifier. *)
Class KeyHash := { hash_key_identifier : str → str }.

Record SandboxCounterKey := { sandbox_type : str; key_identifier : str }.

Definition new_key `{KeyHash} (ty id : str) : SandboxCounterKey :=
  {| sandbox_type := ty; key_identifier := hash_key_identifier id |}.

Definition to_string_key (k : SandboxCounterKey) : str :=
  sandbox_type k ++ lit ":" ++ key_identifier k.

Record PendingReservation := { reserved_at_ms : Z }.

Record SandboxCounterData := {
  counts : gmap str Z;
  pending_reservations : gmap str (list PendingReservation);
  ghosts : gmap str Z;
}.
Definition default_data : SandboxCounterData :=
  {| counts := ∅; pending_reservations := ∅; ghosts := ∅ |}.

Definition set_counts (d : SandboxCounterData) c :=
  {| counts := c; pending_reservations := pending_reservations d; ghosts := ghosts d |}.
Definition set_pending (d : SandboxCounterData) p :=
  {| counts := counts d; pending_reservations := p; ghosts := ghosts d |}.
Definition set_ghosts (d : SandboxCounterData) g :=
  {| counts := counts d; pending_reservations := pending_reservations d; ghosts := g |}.

Inductive SandboxCounterError :=
| LimitExceeded (current max : Z) (key : SandboxCounterKey)
| FileError (message : str)
| LockError (message : str)
| ParseError (message : str).

(** [Vec::pop]. *)
Definition vec_pop {A} (l : list A) : list A := take (length l - 1) l.

Definition pop_pending (d : SandboxCounterData) (k : str) : bool * SandboxCounterData :=
  match pending_reservations d !! k with
  | Some reservations =>
      let reservations := vec_pop reservations in
      (true, set_pending d
               (match reservations with
                | [] => delete k (pending_reservations d)
                | _ => <[k := reservations]> (pending_reservations d)
                end))
  | None => (false, d)
  end.

(** The outcome of the system calls of one operation: the clock, the lock,
    reading and parsing the file, the save done by the garbage collection and
    the save of the operation. *)
Record Env := {
  now_ms : Z;
  lock_error : option str;
  load_error : option SandboxCounterError;
  gc_save_error : option SandboxCounterError;
  save_error : option SandboxCounterError;
}.
Definition ok_env (now : Z) : Env :=
  {| now_ms := now; lock_error := None; load_error := None; gc_save_error := None;
     save_error := None |}.

Abbreviation disk := (option SandboxCounterData).

Definition fresh (now : Z) (r : PendingReservation) : bool :=
  Word.saturating_sub now (reserved_at_ms r) <? PENDING_RESERVATION_TTL_MS.

Definition retain_fresh (now : Z) (rs : list PendingReservation) : list PendingReservation :=
  filter (fun r => fresh now r = true) rs.

Definition gc_map (now : Z) (p : gmap str (list PendingReservation)) :
    gmap str (list PendingReservation) :=
  omap (fun rs => match retain_fresh now rs with [] => None | rs => Some rs end) p.

(** The data without stale reservations, and whether anything was removed. *)
Definition gc_stale_pending (now : Z) (d : SandboxCounterData) : bool * SandboxCounterData :=
  let p := gc_map now (pending_reservations d) in
  (negb (bool_decide (map_Forall (fun _ rs => retain_fresh now rs ≠ [] ∧
                                              length (retain_fresh now rs) = length rs)
                        (pending_reservations d))),
   set_pending d p).

Definition acquire_lock (e : Env) : result () SandboxCounterError :=
  match lock_error e with
  | Some m => Err (LockError m)
  | None => Ok ()
  end.

(** [atomic_save_json]: the file has the new contents or the old ones. *)
Definition save_data (err : option SandboxCounterError) (old : disk) (d : SandboxCounterData) :
    result () SandboxCounterError * disk :=
  match err with
  | Some e => (Err e, old)
  | None => (Ok (), Some d)
  end.

Definition load_data (e : Env) (f : disk) :
    result SandboxCounterData SandboxCounterError * disk :=
  match f with
  | None => (Ok default_data, None)
  | Some d =>
      match load_error e with
      | Some err => (Err err, f)
      | None =>
          let '(removed, d') := gc_stale_pending (now_ms e) d in
          let f' := if removed then (save_data (gc_save_error e) f d').2 else f in
          (Ok d', f')
      end
  end.

(** Lock, load, then [body] on the data and the file as loaded. *)
Definition with_data {T} (e : Env) (f : disk)
    (body : SandboxCounterData → disk → result T SandboxCounterError * disk) :
    result T SandboxCounterError * disk :=
  match acquire_lock e with
  | Err err => (Err err, f)
  | Ok _ =>
      match load_data e f with
      | (Err err, f') => (Err err, f')
      | (Ok d, f') => body d f'
      end
  end.

Definition count_of (d : SandboxCounterData) (k : str) : Z := default 0 (counts d !! k).
Definition pending_of (d : SandboxCounterData) (k : str) : list PendingReservation :=
  default [] (pending_reservations d !! k).
Definition ghosts_of (d : SandboxCounterData) (k : str) : Z := default 0 (ghosts d !! k).
Definition pending_len (d : SandboxCounterData) (k : str) : Z := Z.of_nat (length (pending_of d k)).

Definition check_and_reserve (max_per_key : Z) (e : Env) (f : disk) (key : SandboxCounterKey) :
    result () SandboxCounterError * disk :=
  with_data e f (fun d f =>
    let k := to_string_key key in
    let current := count_of d k in
    let pending := pending_len d k in
    if max_per_key <=? Word.add current pending
    then (Err (LimitExceeded (Word.add current pending) max_per_key key), f)
    else save_data (save_error e) f
           (set_pending d
              (<[k := pending_of d k ++ [{| reserved_at_ms := now_ms e |}]]>
                 (pending_reservations d)))).

Definition confirm_creation (max_per_key : Z) (e : Env) (f : disk) (key : SandboxCounterKey) :
    result () SandboxCounterError * disk :=
  with_data e f (fun d f =>
    let k := to_string_key key in
    let '(_, d) := pop_pending d k in
    let current := count_of d k in
    let d := if current <? max_per_key
             then set_counts d (<[k := current + 1]> (counts d))
             else set_ghosts d (<[k := Word.add (ghosts_of d k) 1]> (ghosts d)) in
    save_data (save_error e) f d).

Definition cancel_reservation (e : Env) (f : disk) (key : SandboxCounterKey) :
    result () SandboxCounterError * disk :=
  with_data e f (fun d f =>
    let '(popped, d) := pop_pending d (to_string_key key) in
    if popped then save_data (save_error e) f d else (Ok (), f)).

Definition release (e : Env) (f : disk) (key : SandboxCounterKey) :
    result () SandboxCounterError * disk :=
  with_data e f (fun d f =>
    let k := to_string_key key in
    let g := ghosts_of d k in
    if 0 <? g then
      save_data (save_error e) f
        (set_ghosts d (if 1 <? g then <[k := g - 1]> (ghosts d) else delete k (ghosts d)))
    else
      let current := count_of d k in
      if 0 <? current
      then save_data (save_error e) f (set_counts d (<[k := current - 1]> (counts d)))
      else (Ok (), f)).

Definition reconcile_counts (e : Env) (f : disk) (live_counts : gmap str Z) :
    result () SandboxCounterError * disk :=
  with_data e f (fun d f =>
    (* Drop keys that no longer have any live backends. *)
    let dead := filter (fun kv => live_counts !! kv.1 = None) (counts d) in
    let kept := filter (fun kv => ¬ (live_counts !! kv.1 = None)) (counts d) in
    (* Overwrite the rest with the freshly computed live counts. *)
    let differing := filter (fun kv => kept !! kv.1 ≠ Some kv.2) live_counts in
    let new_counts := differing ∪ kept in
    let changed := negb (bool_decide (dead = ∅)) || negb (bool_decide (differing = ∅))
                   || negb (bool_decide (ghosts d = ∅)) in
    if changed then save_data (save_error e) f (set_ghosts (set_counts d new_counts) ∅)
    else (Ok (), f)).

Definition get_total_count (e : Env) (f : disk) (key : SandboxCounterKey) :
    result Z SandboxCounterError * disk :=
  with_data e f (fun d f =>
    let k := to_string_key key in (Ok (Word.add (count_of d k) (pending_len d k)), f)).

(** ** The abstract pool

    What the counter promises its clients, per key: how many sandboxes are
    live and which reservations are outstanding. *)

Record pool := { live : Z; reserved : list PendingReservation }.

Definition abs (d : SandboxCounterData) (k : str) : pool :=
  {| live := count_of d k + ghosts_of d k; reserved := pending_of d k |}.
Definition abs_disk (f : disk) (k : str) : pool := abs (default default_data f) k.

Definition expire (now : Z) (p : pool) : pool :=
  {| live := live p; reserved := retain_fresh now (reserved p) |}.

Definition outstanding (p : pool) : Z := live p + Z.of_nat (length (reserved p)).

Inductive op :=
| OReserve (key : SandboxCounterKey)
| OConfirm (key : SandboxCounterKey)
| OCancel (key : SandboxCounterKey)
| ORelease (key : SandboxCounterKey)
| OReconcile (live_counts : gmap str Z).

Definition exec (max : Z) (e : Env) (f : disk) (o : op) : result () SandboxCounterError * disk :=
  match o with
  | OReserve key => check_and_reserve max e f key
  | OConfirm key => confirm_creation max e f key
  | OCancel key => cancel_reservation e f key
  | ORelease key => release e f key
  | OReconcile lc => reconcile_counts e f lc
  end.

(** The operations on pools: a reservation is admitted while live sandboxes
    and reservations leave room, a confirmation turns the latest reservation
    into a live sandbox, a release ends one. *)
Definition admits (max : Z) (p : pool) : bool := outstanding p <? max.

Definition pool_op (max now : Z) (o : op) (k : str) (p : pool) : pool :=
  match o with
  | OReserve key =>
      if decide (k = to_string_key key)
      then if admits max p
           then {| live := live p; reserved := reserved p ++ [{| reserved_at_ms := now |}] |}
           else p
      else p
  | OConfirm key =>
      if decide (k = to_string_key key)
      then {| live := live p + 1; reserved := vec_pop (reserved p) |} else p
  | OCancel key =>
      if decide (k = to_string_key key)
      then {| live := live p; reserved := vec_pop (reserved p) |} else p
  | ORelease key =>
      if decide (k = to_string_key key)
      then {| live := Z.max 0 (live p - 1); reserved := reserved p |} else p
  | OReconcile lc => {| live := default 0 (lc !! k); reserved := reserved p |}
  end.

Definition pool_accepts (max : Z) (o : op) (m : str → pool) : bool :=
  match o with
  | OReserve key => admits max (m (to_string_key key))
  | _ => true
  end.

(** The invariant of the file: ghost credits exist only while the confirmed
    count of the key is at the limit. *)
Definition key_inv (max : Z) (d : SandboxCounterData) (k : str) : Prop :=
  0 ≤ count_of d k ∧ 0 ≤ ghosts_of d k ∧ (0 < ghosts_of d k → max ≤ count_of d k).
Definition data_inv (max : Z) (d : SandboxCounterData) : Prop := ∀ k, key_inv max d k.
Definition disk_inv (max : Z) (f : disk) : Prop := data_inv max (default default_data f).

Definition op_ok (o : op) : Prop :=
  match o with
  | OReconcile lc => map_Forall (fun _ n => 0 ≤ n) lc
  | _ => True
  end.

(** The counters of a key are far from the width of [usize]. *)
Definition roomy (f : disk) : Prop :=
  ∀ k, outstanding (abs_disk f k) < Word.usize_max.

(** ** Loading *)

Lemma retain_fresh_le now rs : (length (retain_fresh now rs) ≤ length rs)%nat.
Proof. apply length_filter. Qed.

Lemma retain_fresh_id now rs :
  length (retain_fresh now rs) = length rs → retain_fresh now rs = rs.
Proof.
  unfold retain_fresh. induction rs as [|r rs IH]; [done|]. rewrite filter_cons.
  pose proof (length_filter (fun r => fresh now r = true) rs).
  case_decide; simpl; intros Hl; [|lia]. f_equal. apply IH. lia.
Qed.

Lemma gc_noop now d d' : gc_stale_pending now d = (false, d') → d' = d.
Proof.
  unfold gc_stale_pending. intros [= Hf <-]. apply negb_false_iff, bool_decide_eq_true in Hf.
  assert (gc_map now (pending_reservations d) = pending_reservations d) as ->; [|by destruct d].
  apply map_eq. intros k. unfold gc_map. rewrite lookup_omap.
  destruct (pending_reservations d !! k) as [rs|] eqn:Ek; [|done]. simpl.
  destruct (Hf k rs Ek) as [Hne Hl]. rewrite (retain_fresh_id now rs Hl) in *. by destruct rs.
Qed.

Lemma pending_of_gc now d k :
  default [] (gc_map now (pending_reservations d) !! k) = retain_fresh now (pending_of d k).
Proof.
  unfold gc_map, pending_of. rewrite lookup_omap.
  destruct (pending_reservations d !! k) as [rs|]; [|done]. simpl.
  by destruct (retain_fresh now rs).
Qed.

Lemma load_data_ok e f d f' :
  load_data e f = (Ok d, f') →
  (∀ k, abs d k = expire (now_ms e) (abs_disk f k)) ∧
  (∀ k, count_of d k = count_of (default default_data f) k ∧
        ghosts_of d k = ghosts_of (default default_data f) k) ∧
  (f' = f ∨ f' = Some d) ∧ (gc_save_error e = None → ∀ k, abs_disk f' k = abs d k).
Proof.
  unfold load_data. destruct f as [d0|]; [|by intros [= <- <-]; auto].
  destruct (load_error e); [done|].
  destruct (gc_stale_pending (now_ms e) d0) as [removed d1] eqn:Eg. intros [= <- <-].
  assert (∀ k, abs d1 k = expire (now_ms e) (abs d0 k)) as Habs.
  { intros k. unfold gc_stale_pending in Eg. injection Eg as _ <-.
    unfold abs, expire. simpl. f_equal. unfold pending_of at 1. simpl. apply pending_of_gc. }
  split; [done|]. split; [|split].
  - intros k. unfold gc_stale_pending in Eg. by injection Eg as _ <-.
  - destruct removed; [|by left]. unfold save_data. destruct (gc_save_error e); auto.
  - intros Hs k. destruct removed; [by rewrite Hs|].
    apply gc_noop in Eg. by subst.
Qed.

Lemma load_data_inv max e f d f' :
  load_data e f = (Ok d, f') → disk_inv max f → data_inv max d ∧ disk_inv max f'.
Proof.
  intros (_ & Hc & Hf & _)%load_data_ok Hi.
  assert (data_inv max d) as Hd.
  { intros k. unfold key_inv. destruct (Hc k) as [-> ->]. apply Hi. }
  split; [done|]. by destruct Hf as [-> | ->].
Qed.


(** A call whose system calls succeed runs its body on the expired data. *)
Lemma with_data_ok {T} now f (body : SandboxCounterData → disk → result T SandboxCounterError * disk) :
  ∃ d f', load_data (ok_env now) f = (Ok d, f') ∧
    with_data (ok_env now) f body = body d f' ∧
    (∀ k, abs d k = expire now (abs_disk f k)) ∧ (∀ k, abs_disk f' k = abs d k).
Proof.
  destruct (load_data (ok_env now) f) as [r f'] eqn:El.
  assert (∃ d, r = Ok d) as [d ->].
  { unfold load_data in El. destruct f as [d0|]; simpl in El; [|simplify_eq; by eexists].
    destruct (gc_stale_pending now d0) as [? d1]. simplify_eq. by eexists. }
  exists d, f'. destruct (load_data_ok _ _ _ _ El) as (Ha & _ & _ & Hf).
  split_and!; [done| |done|by apply Hf]. unfold with_data, acquire_lock. simpl. by rewrite El.
Qed.

(** ** The operations on the data *)

Lemma pop_pending_abs d k b d' :
  pop_pending d k = (b, d') →
  counts d' = counts d ∧ ghosts d' = ghosts d ∧ (b = false → d' = d) ∧
  ∀ k', pending_of d' k' = if decide (k' = k) then vec_pop (pending_of d k') else pending_of d k'.
Proof.
  unfold pop_pending, pending_of.
  destruct (pending_reservations d !! k) as [rs|] eqn:Ek; intros [= <- <-].
  - split_and!; [done|done|done|]. intros k'. case_decide as Hk; simpl.
    + subst. rewrite Ek. destruct (vec_pop rs) eqn:Ev; simpl; simplify_map_eq; by rewrite Ev.
    + by destruct (vec_pop rs); simpl; simplify_map_eq.
  - split_and!; [done|done|done|]. intros k'. case_decide; [|done]. subst. by rewrite Ek.
Qed.

Lemma reconcile_new_counts (c lc : gmap str Z) :
  let kept := filter (fun kv => ¬ (lc !! kv.1 = None)) c in
  filter (fun kv => kept !! kv.1 ≠ Some kv.2) lc ∪ kept = lc.
Proof.
  intros kept. apply map_eq. intros k. destruct (lc !! k) as [n|] eqn:El.
  - destruct (decide (kept !! k = Some n)) as [Hk|Hk].
    + apply lookup_union_Some_raw. right. split; [|done].
      apply map_lookup_filter_None. right. intros x Hx Hc. apply Hc. simpl in *. congruence.
    + apply lookup_union_Some_raw. left. by apply map_lookup_filter_Some.
  - apply lookup_union_None. split; apply map_lookup_filter_None; [by left|].
    right. intros x _ Hc. by apply Hc.
Qed.

Lemma reconcile_unchanged (c lc : gmap str Z) :
  let kept := filter (fun kv => ¬ (lc !! kv.1 = None)) c in
  filter (fun kv => lc !! kv.1 = None) c = ∅ →
  filter (fun kv => kept !! kv.1 ≠ Some kv.2) lc = ∅ → c = lc.
Proof.
  intros kept Hd He. rewrite <- (reconcile_new_counts c lc). fold kept.
  rewrite He, map_empty_union. symmetry. apply map_filter_id.
  intros k n Hk Hn. simpl in *. apply (f_equal (lookup k)) in Hd.
  rewrite lookup_empty in Hd. apply map_lookup_filter_None in Hd as [Hd|Hd]; [congruence|].
  by apply (Hd n).
Qed.

Lemma pool_eq l r l' r' : l = l' → r = r' → {| live := l; reserved := r |} = {| live := l'; reserved := r' |}.
Proof. by intros -> ->. Qed.

Lemma outstanding_abs d k : outstanding (abs d k) = count_of d k + ghosts_of d k + pending_len d k.
Proof. done. Qed.

Lemma abs_set_pending d k rs k' :
  abs (set_pending d (<[k := rs]> (pending_reservations d))) k' =
  if decide (k' = k) then {| live := live (abs d k'); reserved := rs |} else abs d k'.
Proof.
  unfold abs. apply symmetry. case_decide as Hk; [subst k'|]; apply pool_eq; try done;
    unfold pending_of; simpl; by simplify_map_eq.
Qed.

(** The code tests confirmed count and reservations; ghosts do not change the
    answer because they exist only at the limit. *)
Lemma admits_abs max d k :
  key_inv max d k → outstanding (abs d k) < Word.usize_max →
  admits max (abs d k) = negb (max <=? Word.add (count_of d k) (pending_len d k)).
Proof.
  intros (Hc & Hg & Himp) Hlt. unfold admits. rewrite outstanding_abs in *.
  assert (0 ≤ pending_len d k) by (unfold pending_len; lia).
  rewrite Word.add_id by (unfold Word.in_usize; lia).
  apply eq_iff_eq_true. rewrite negb_true_iff, Z.leb_gt, Z.ltb_lt. lia.
Qed.

Lemma confirm_abs max d k k' :
  key_inv max d k → outstanding (abs d k) < Word.usize_max →
  let '(_, d1) := pop_pending d k in
  let current := count_of d1 k in
  let d2 := if current <? max
            then set_counts d1 (<[k := current + 1]> (counts d1))
            else set_ghosts d1 (<[k := Word.add (ghosts_of d1 k) 1]> (ghosts d1)) in
  abs d2 k' = (if decide (k' = k)
               then {| live := live (abs d k') + 1; reserved := vec_pop (reserved (abs d k')) |}
               else abs d k') ∧
  (key_inv max d k' → key_inv max d2 k').
Proof.
  intros (Hc & Hg & Himp) Hlt. rewrite outstanding_abs in Hlt.
  assert (0 ≤ pending_len d k) by (unfold pending_len; lia).
  destruct (pop_pending d k) as [b d1] eqn:Ep.
  destruct (pop_pending_abs _ _ _ _ Ep) as (Ec & Eg & _ & Epd). cbn zeta.
  unfold abs, key_inv, count_of, ghosts_of in *. rewrite Ec, Eg.
  destruct (Z.ltb_spec (default 0 (counts d !! k)) max); unfold pending_of at 1; simpl;
    fold (pending_of d1 k'); rewrite Epd, ?Ec, ?Eg;
    (case_decide as Hk; [subst k'|]); simplify_map_eq; try (split; [done|done]).
  - split; [apply pool_eq; [lia|done]|]. lia.
  - rewrite Word.add_id by (unfold Word.in_usize; lia).
    split; [apply pool_eq; [lia|done]|]. lia.
Qed.

Lemma release_abs max d k k' :
  key_inv max d k → 0 < ghosts_of d k ∨ 0 < count_of d k →
  let g := ghosts_of d k in
  let d2 := if 0 <? g
            then set_ghosts d (if 1 <? g then <[k := g - 1]> (ghosts d) else delete k (ghosts d))
            else set_counts d (<[k := count_of d k - 1]> (counts d)) in
  abs d2 k' = (if decide (k' = k)
               then {| live := Z.max 0 (live (abs d k') - 1); reserved := reserved (abs d k') |}
               else abs d k') ∧
  (key_inv max d k' → key_inv max d2 k').
Proof.
  intros (Hc & Hg & Himp) Hpos. cbn zeta.
  destruct (Z.ltb_spec 0 (ghosts_of d k)); [destruct (Z.ltb_spec 1 (ghosts_of d k))|];
    unfold abs, key_inv, count_of, ghosts_of in *; simpl;
    (case_decide as Hk; [subst k'|]); simplify_map_eq; try (split; [done|done]);
    (split; [apply pool_eq; [simpl; lia|done]|lia]).
Qed.

(** An outcome implements an operation on the pools [m]. *)
Definition implements (max now : Z) (o : op) (m : str → pool)
    (res : result () SandboxCounterError * disk) : Prop :=
  Result.is_ok res.1 = pool_accepts max o m ∧
  (∀ k, abs_disk res.2 k = pool_op max now o k (m k)) ∧ disk_inv max res.2.

Section Bodies.
Context (max now : Z) (f : disk) (d : SandboxCounterData) (f' : disk) (m : str → pool).
Context (Hload : load_data (ok_env now) f = (Ok d, f')).
Context (Hd : data_inv max d) (Hf' : disk_inv max f').
Context (Hm : ∀ k, abs d k = m k) (Hfm : ∀ k, abs_disk f' k = abs d k).
Context (Hroom : ∀ k, outstanding (abs d k) < Word.usize_max).

Lemma reserve_implements key :
  implements max now (OReserve key) m (check_and_reserve max (ok_env now) f key).
Proof using All.
  unfold implements, check_and_reserve, with_data, acquire_lock. cbn [lock_error ok_env].
  rewrite Hload. cbn zeta. unfold pool_accepts, pool_op. rewrite <- Hm.
  rewrite (admits_abs max d _ (Hd _) (Hroom _)).
  destruct (max <=? _) eqn:El; simpl.
  - split_and!; [done| |done]. intros k. rewrite Hfm, <- Hm. case_decide as Hk; [|done].
    subst. by rewrite (admits_abs max d _ (Hd _) (Hroom _)), El.
  - split_and!; [done| |done]. intros k. rewrite <- Hm. unfold abs_disk. cbn [default from_option].
    change (abs (set_pending d (<[to_string_key key :=
                   pending_of d (to_string_key key) ++ [{| reserved_at_ms := now |}]]>
                   (pending_reservations d))) k = pool_op max now (OReserve key) k (abs d k)).
    rewrite abs_set_pending. unfold pool_op. case_decide as Hk; [|done]. subst.
    by rewrite (admits_abs max d _ (Hd _) (Hroom _)), El.
Qed.

Lemma confirm_implements key :
  implements max now (OConfirm key) m (confirm_creation max (ok_env now) f key).
Proof using All.
  unfold implements, confirm_creation, with_data, acquire_lock. cbn [lock_error ok_env].
  rewrite Hload. cbn zeta.
  pose proof (λ k, confirm_abs max d (to_string_key key) k (Hd _) (Hroom _)) as Hc.
  destruct (pop_pending d (to_string_key key)) as [b d1]. cbn zeta in Hc. simpl.
  split_and!; [done| |].
  - intros k. rewrite <- Hm. apply Hc.
  - intros k. apply Hc, Hd.
Qed.

Lemma cancel_implements key :
  implements max now (OCancel key) m (cancel_reservation (ok_env now) f key).
Proof using All.
  unfold implements, cancel_reservation, with_data, acquire_lock. cbn [lock_error ok_env].
  rewrite Hload. cbn zeta.
  destruct (pop_pending d (to_string_key key)) as [b d1] eqn:Ep.
  destruct (pop_pending_abs _ _ _ _ Ep) as (Ec & Eg & Eb & Epd).
  assert (∀ k, abs d1 k = pool_op max now (OCancel key) k (m k)) as Ha.
  { intros k. rewrite <- Hm. unfold pool_op, abs, count_of, ghosts_of. rewrite Epd, Ec, Eg.
    by case_decide. }
  destruct b; simpl.
  - split_and!; [done|done|]. intros k. unfold key_inv, count_of, ghosts_of. simpl.
    rewrite Ec, Eg. apply Hd.
  - split_and!; [done| |done]. intros k. rewrite Hfm, <- (Eb eq_refl). apply Ha.
Qed.

Lemma release_implements key :
  implements max now (ORelease key) m (release (ok_env now) f key).
Proof using All.
  unfold implements, release, with_data, acquire_lock. cbn [lock_error ok_env].
  rewrite Hload. cbn zeta.
  pose proof (λ k, release_abs max d (to_string_key key) k (Hd _)) as Hr. cbn zeta in Hr.
  destruct (Z.ltb_spec 0 (ghosts_of d (to_string_key key))) as [Hg|Hg].
  - simpl. split_and!; [done| |]; intros k; [rewrite <- Hm|]; apply Hr; auto.
  - destruct (Z.ltb_spec 0 (count_of d (to_string_key key))) as [Hc|Hc]; simpl.
    + split_and!; [done| |]; intros k; [rewrite <- Hm|]; apply Hr; auto.
    + split_and!; [done| |done]. intros k. rewrite Hfm, <- Hm. case_decide as Hk; [|done].
      subst. unfold abs. apply pool_eq; [|done]. simpl. destruct (Hd (to_string_key key)). lia.
Qed.

Lemma reconcile_implements lc :
  map_Forall (fun _ n => 0 ≤ n) lc →
  implements max now (OReconcile lc) m (reconcile_counts (ok_env now) f lc).
Proof using All.
  intros Hlc.
  assert (implements max now (OReconcile lc) m
            (Ok (), Some (set_ghosts (set_counts d lc) ∅))) as Hsaved.
  { unfold implements. simpl. split_and!; [done| |]; intros k.
    - rewrite <- Hm. unfold abs_disk, abs, count_of, ghosts_of. simpl.
      apply pool_eq; [rewrite lookup_empty; simpl; lia|done].
    - unfold key_inv, count_of, ghosts_of. simpl. rewrite lookup_empty. simpl.
      destruct (lc !! k) as [n|] eqn:El; simpl; [specialize (Hlc _ _ El); simpl in Hlc|]; lia. }
  unfold reconcile_counts, with_data, acquire_lock. cbn [lock_error ok_env].
  rewrite Hload. cbn zeta. rewrite reconcile_new_counts.
  case_bool_decide as E1; [|exact Hsaved]. case_bool_decide as E2; [|exact Hsaved].
  case_bool_decide as E3; [|exact Hsaved]. simpl. unfold implements. simpl.
  split_and!; [done| |done]. intros k. rewrite Hfm, <- Hm. unfold abs. simpl.
  apply pool_eq; [|done]. unfold count_of, ghosts_of.
  rewrite E3, lookup_empty, (reconcile_unchanged _ _ E1 E2). simpl. lia.
Qed.
End Bodies.

(** A call whose system calls succeed implements its operation. *)
Lemma exec_implements max now f o :
  disk_inv max f → roomy f → op_ok o →
  implements max now o (fun k => expire now (abs_disk f k)) (exec max (ok_env now) f o).
Proof.
  intros Hi Hr Ho.
  destruct (with_data_ok now f (fun d f => (Ok (), f))) as (d & f' & El & _ & Hm & Hfm).
  destruct (load_data_inv max _ _ _ _ El Hi) as [Hd Hf'].
  assert (∀ k, outstanding (abs d k) < Word.usize_max) as Hroom.
  { intros k. rewrite Hm. specialize (Hr k). unfold outstanding, expire in *.
    cbn [live reserved] in *. pose proof (retain_fresh_le now (reserved (abs_disk f k))). lia. }
  destruct o; simpl; eauto using reserve_implements, confirm_implements, cancel_implements,
    release_implements, reconcile_implements.
Qed.

(** ** Failing system calls *)

Lemma expire_idem now p : expire now (expire now p) = expire now p.
Proof.
  unfold expire. apply pool_eq; [done|]. simpl. unfold retain_fresh.
  rewrite list_filter_filter. apply list_filter_iff. tauto.
Qed.

(** The data loaded does not depend on the collection's own save. *)
Lemma load_data_same e f d f1 :
  load_data e f = (Ok d, f1) → ∃ f2, load_data (ok_env (now_ms e)) f = (Ok d, f2).
Proof.
  unfold load_data. destruct f as [d0|]; [|by intros [= <- <-]; eauto].
  destruct (load_error e); [done|]. simpl. destruct (gc_stale_pending (now_ms e) d0).
  intros [= <- <-]. eauto.
Qed.

(** Compared with the run in which every system call succeeds, a run that gets
    as far as the data saves the same, or saves nothing. *)
Lemma exec_cases max e f o d f1 f2 :
  lock_error e = None → load_data e f = (Ok d, f1) →
  load_data (ok_env (now_ms e)) f = (Ok d, f2) →
  let '(r, f') := exec max e f o in
  let '(r2, f2') := exec max (ok_env (now_ms e)) f o in
  (r = r2 ∧ f' = f2') ∨ (r = r2 ∧ f' = f1 ∧ f2' = f2) ∨ (Result.is_ok r = false ∧ f' = f1).
Proof.
  intros Hl H1 H2. destruct o; simpl exec;
    unfold check_and_reserve, confirm_creation, cancel_reservation, release, reconcile_counts,
      with_data, acquire_lock; rewrite Hl; cbn [lock_error ok_env]; rewrite H1, H2; cbn zeta;
    unfold save_data; cbn [save_error now_ms ok_env]; repeat case_match; simplify_eq; auto.
Qed.

Lemma exec_early max e f o :
  lock_error e ≠ None ∨ (lock_error e = None ∧ Result.is_ok (load_data e f).1 = false) →
  Result.is_ok (exec max e f o).1 = false ∧ (exec max e f o).2 = f.
Proof.
  intros H.
  assert (∀ T (body : SandboxCounterData → disk → result T SandboxCounterError * disk),
    Result.is_ok (with_data e f body).1 = false ∧ (with_data e f body).2 = f) as Hw.
  { intros T body. unfold with_data, acquire_lock. destruct (lock_error e); [done|].
    destruct H as [|[_ H]]; [done|]. unfold load_data in *.
    destruct f as [d0|]; [|done]. destruct (load_error e); [done|].
    by destruct (gc_stale_pending (now_ms e) d0). }
  destruct o; apply Hw.
Qed.

Lemma exec_outcomes max e f o :
  (Result.is_ok (exec max e f o).1 = false ∧ (exec max e f o).2 = f) ∨
  (∃ d f1 f2, load_data e f = (Ok d, f1) ∧ load_data (ok_env (now_ms e)) f = (Ok d, f2) ∧
     let '(r, f') := exec max e f o in
     let '(r2, f2') := exec max (ok_env (now_ms e)) f o in
     (r = r2 ∧ f' = f2') ∨ (r = r2 ∧ f' = f1 ∧ f2' = f2) ∨ (Result.is_ok r = false ∧ f' = f1)).
Proof.
  destruct (lock_error e) eqn:Hl; [left; apply exec_early; left; congruence|].
  destruct (load_data e f) as [[d|err] f1] eqn:E1.
  - right. destruct (load_data_same _ _ _ _ E1) as [f2 E2].
    exists d, f1, f2. split_and!; [done|done|]. by apply (exec_cases max e f o d).
  - left. apply exec_early. right. by rewrite E1.
Qed.

Lemma loaded_abs e f d f1 k :
  load_data e f = (Ok d, f1) →
  expire (now_ms e) (abs_disk f1 k) = expire (now_ms e) (abs_disk f k) ∧
  live (abs_disk f1 k) = live (abs_disk f k) ∧
  (length (reserved (abs_disk f1 k)) ≤ length (reserved (abs_disk f k)))%nat.
Proof.
  intros (Ha & _ & [-> | ->] & _)%load_data_ok; [done|].
  change (abs_disk (Some d) k) with (abs d k). rewrite Ha, expire_idem.
  split_and!; [done|done|]. apply retain_fresh_le.
Qed.

(** How far one call can push a key: used to bound the counters of a run. *)
Definition within (B n : Z) (f : disk) : Prop :=
  ∀ k, live (abs_disk f k) ≤ B + n ∧ Z.of_nat (length (reserved (abs_disk f k))) ≤ n.

Definition reconcile_within (B : Z) (o : op) : Prop :=
  match o with
  | OReconcile lc => map_Forall (fun _ n => 0 ≤ n ≤ B) lc
  | _ => True
  end.

Lemma pool_op_within B n max now o k p :
  0 ≤ B → 0 ≤ n → reconcile_within B o →
  live p ≤ B + n → Z.of_nat (length (reserved p)) ≤ n →
  live (pool_op max now o k p) ≤ B + (n + 1) ∧
  Z.of_nat (length (reserved (pool_op max now o k p))) ≤ n + 1.
Proof.
  intros HB Hn Ho Hl Hr. destruct o as [key|key|key|key|lc]; simpl;
    repeat case_match; simpl; unfold vec_pop; rewrite ?length_app, ?length_take; simpl; try lia.
  all: destruct (lc !! k) as [x|] eqn:El; simpl;
    [specialize (Ho _ _ El); simpl in Ho|]; lia.
Qed.

Lemma exec_step max B n e f o :
  disk_inv max f → within B n f → 0 ≤ B → 0 ≤ n → B + 2 * n < Word.usize_max →
  reconcile_within B o →
  disk_inv max (exec max e f o).2 ∧ within B (n + 1) (exec max e f o).2.
Proof.
  intros Hi Hw HB Hn Hlt Ho.
  assert (within B (n + 1) f) as Hw1 by (intros k; destruct (Hw k); lia).
  destruct (exec_outcomes max e f o) as [[Hno ->]|(d & f1 & f2 & E1 & E2 & Hc)]; [done|].
  destruct (load_data_inv max _ _ _ _ E1 Hi) as [_ Hi1].
  assert (within B (n + 1) f1) as Hwf1.
  { intros k. destruct (loaded_abs _ _ _ _ k E1) as (_ & -> & Hle). destruct (Hw k). lia. }
  assert (roomy f) as Hr by (intros k; destruct (Hw k); unfold outstanding; lia).
  assert (op_ok o) as Hok.
  { destruct o; try done. simpl in *. intros k x Hx. by apply Ho in Hx as [? _]. }
  destruct (exec_implements max (now_ms e) f o Hi Hr Hok) as (_ & Ha & Hi2).
  destruct (exec max e f o) as [r f'], (exec max (ok_env (now_ms e)) f o) as [r2 f2'].
  simpl in *. destruct Hc as [[_ ->]|[(_ & -> & _)|[_ ->]]]; [|by split|by split].
  split; [done|]. intros k. rewrite Ha. apply pool_op_within; [done..| |].
  - by destruct (Hw k).
  - pose proof (retain_fresh_le (now_ms e) (reserved (abs_disk f k))). destruct (Hw k).
    cbn [expire reserved]. lia.
Qed.

(** The effect of a call, whatever its system calls do. *)
Lemma exec_effect max e f o :
  disk_inv max f → roomy f → op_ok o →
  let now := now_ms e in
  let m := fun k => expire now (abs_disk f k) in
  disk_inv max (exec max e f o).2 ∧
  (Result.is_ok (exec max e f o).1 = true →
   pool_accepts max o m = true ∧
   ∀ k, expire now (abs_disk (exec max e f o).2 k) = expire now (pool_op max now o k (m k))) ∧
  (Result.is_ok (exec max e f o).1 = false →
   ∀ k, expire now (abs_disk (exec max e f o).2 k) = m k).
Proof.
  intros Hi Hr Hok now m.
  destruct (exec_implements max now f o Hi Hr Hok) as (Hacc & Ha & Hi2).
  destruct (exec_outcomes max e f o) as [[Hno ->]|(d & f1 & f2 & E1 & E2 & Hc)]; [by rewrite Hno|].
  destruct (load_data_inv max _ _ _ _ E1 Hi) as [_ Hi1].
  pose proof (λ k, proj1 (loaded_abs _ _ _ _ k E1)) as H1.
  pose proof (λ k, proj1 (loaded_abs _ _ _ _ k E2)) as H2.
  fold now in Hc.
  destruct (exec max e f o) as [r f'], (exec max (ok_env now) f o) as [r2 f2'].
  simpl in *. destruct Hc as [[-> ->]|[(-> & -> & ->)|[-> ->]]]; [| |by split_and!].
  - split_and!; [done| |].
    + intros Hk. split; [by trans (Result.is_ok r2)|]. intros k. by rewrite Ha.
    + intros Hk k. rewrite Ha. rewrite Hk in Hacc. destruct o as [key| | | |]; try done. simpl in *.
      destruct (decide (k = to_string_key key)) as [->|]; [|apply expire_idem].
      unfold m in *. rewrite <- Hacc. apply expire_idem.
  - split_and!; [done| |done]. intros Hk. split; [by trans (Result.is_ok r2)|].
    intros k. rewrite H1, <- Ha. symmetry. apply H2.
Qed.

(** C30: The shared counter implements the pool of its contract. With every
    stale reservation expired first: when its system calls succeed, a call is
    accepted exactly when the pool admits it, changes the pool of its own key as
    the contract says and leaves every other key alone. When some system call
    fails, a call that still reports success has had exactly that effect, and
    one that reports an error has changed nothing. Either way ghost credits
    stay confined to keys whose confirmed count is at the limit. *)
Theorem counter_refines max e f o :
  disk_inv max f → roomy f → op_ok o →
  let now := now_ms e in
  let m := fun k => expire now (abs_disk f k) in
  implements max now o m (exec max (ok_env now) f o) ∧
  disk_inv max (exec max e f o).2 ∧
  (Result.is_ok (exec max e f o).1 = true →
   pool_accepts max o m = true ∧
   ∀ k, expire now (abs_disk (exec max e f o).2 k) = expire now (pool_op max now o k (m k))) ∧
  (Result.is_ok (exec max e f o).1 = false →
   ∀ k, expire now (abs_disk (exec max e f o).2 k) = m k).
Proof. intros Hi Hr Hok now m. split; [by apply exec_implements|by apply exec_effect]. Qed.

Definition demo_key : SandboxCounterKey :=
  {| sandbox_type := lit "e2b"; key_identifier := lit "abc" |}.
Definition demo_data : SandboxCounterData :=
  {| counts := {[ to_string_key demo_key := 1 ]};
     pending_reservations :=
       {[ to_string_key demo_key := [{| reserved_at_ms := 0 |}; {| reserved_at_ms := 200000 |}] ]};
     ghosts := ∅ |}.

Lemma counter_refines_witness :
  ∃ f', exec 2 (ok_env 300000) (Some demo_data) (OReserve demo_key) =
        (Err (LimitExceeded 2 2 demo_key), f') ∧
  expire 300000 (abs_disk f' (to_string_key demo_key)) =
  {| live := 1; reserved := [{| reserved_at_ms := 200000 |}] |}.
Proof.
  eexists. split; [vm_compute; reflexivity|].
  destruct (counter_refines 2 (ok_env 300000) (Some demo_data) (OReserve demo_key))
    as (_ & _ & _ & He).
  - intros k. unfold key_inv, count_of, ghosts_of, demo_data. simpl. rewrite lookup_empty.
    destruct (decide (k = to_string_key demo_key)) as [->|]; simplify_map_eq; simpl; lia.
  - intros k. unfold outstanding, Word.usize_max, abs_disk, abs, count_of, ghosts_of, pending_of, demo_data.
    simpl. rewrite lookup_empty.
    destruct (decide (k = to_string_key demo_key)) as [->|]; simplify_map_eq; simpl; lia.
  - done.
  - exact (He ltac:(vm_compute; reflexivity) (to_string_key demo_key)).
Defined.

(** A run of the counter: calls of any process, in any order, at any time, with
    any outcome of their system calls. *)
Definition run (max : Z) (f : disk) (steps : list (Env * op)) : disk :=
  foldl (fun f '(e, o) => (exec max e f o).2) f steps.

Lemma run_inv max B steps n f :
  disk_inv max f → within B n f → 0 ≤ B → 0 ≤ n →
  Forall (fun s => reconcile_within B s.2) steps →
  B + 2 * (n + Z.of_nat (length steps)) < Word.usize_max →
  disk_inv max (run max f steps) ∧ within B (n + Z.of_nat (length steps)) (run max f steps).
Proof.
  unfold run. revert n f. induction steps as [|[e o] steps IH]; intros n f Hi Hw HB Hn Hall Hlt.
  - simpl. by rewrite Z.add_0_r.
  - apply Forall_cons in Hall as [Ho Hall]. cbn [length] in *. cbn [foldl].
    destruct (exec_step max B n e f o) as [Hi' Hw']; try done; [lia|].
    destruct (IH (n + 1) _ Hi' Hw' HB) as [? Hw'']; [lia|done|lia|].
    split; [done|]. by replace (n + Z.of_nat (S (length steps))) with (n + 1 + Z.of_nat (length steps)) by lia.
Qed.

(** The limit on sandboxes holds in every run. Start from no file, let any
    processes make any calls in any order with any I/O failures (fewer than
    about 2^63 of them): whenever a reservation then succeeds, the live
    sandboxes of the key, confirmed or ghost, and its unexpired reservations,
    the new one included, are at most the limit; and when the counter can be
    read, the count it reports is below the limit exactly when a reservation
    would be admitted. *)
Theorem counter_run_safe max B steps e key :
  0 ≤ B → Forall (fun s => reconcile_within B s.2) steps →
  B + 2 * Z.of_nat (length steps) < Word.usize_max →
  let f := run max None steps in
  let k := to_string_key key in
  (Result.is_ok (check_and_reserve max e f key).1 = true →
   outstanding (expire (now_ms e) (abs_disk (check_and_reserve max e f key).2 k)) ≤ max) ∧
  (∀ n, (get_total_count e f key).1 = Ok n →
   (n <? max) = admits max (expire (now_ms e) (abs_disk f k))).
Proof.
  intros HB Hall Hlt f k.
  destruct (run_inv max B steps 0 None) as [Hi Hw]; try done.
  { intros k'. split; [|done]. change (0 ≤ B + 0). lia. }
  fold f in Hi, Hw.
  assert (roomy f) as Hr by (intros k'; destruct (Hw k'); unfold outstanding; lia).
  split.
  - intros Hok. destruct (exec_effect max e f (OReserve key) Hi Hr I) as (_ & Heff & _).
    simpl exec in Heff. destruct (Heff Hok) as [Hadm Habs]. rewrite (Habs k).
    cbn [pool_accepts pool_op] in Hadm |- *.
    rewrite decide_True by done. fold k in Hadm. rewrite Hadm.
    apply Z.ltb_lt in Hadm. unfold outstanding in *. cbn [live reserved expire] in *.
    etrans; [apply Z.add_le_mono_l, inj_le, retain_fresh_le|]. rewrite length_app. cbn [length]. lia.
  - intros n. unfold get_total_count, with_data, acquire_lock. destruct (lock_error e); [done|].
    destruct (load_data e f) as [[d|] f1] eqn:El; [|done]. intros [= <-]. fold k.
    destruct (load_data_ok _ _ _ _ El) as (Ha & _). rewrite <- Ha.
    destruct (load_data_inv max _ _ _ _ El Hi) as [Hd _].
    rewrite (admits_abs max d k (Hd k)).
    + apply Z.ltb_antisym.
    + specialize (Hr k). rewrite Ha. unfold outstanding, expire in *. cbn [live reserved].
      pose proof (retain_fresh_le (now_ms e) (reserved (abs_disk f k))). lia.
Qed.

Lemma counter_run_safe_witness :
  let steps := [(ok_env 0, OReserve demo_key); (ok_env 1, OConfirm demo_key)] in
  outstanding (expire 5 (abs_disk (check_and_reserve 2 (ok_env 5) (run 2 None steps) demo_key).2
                                  (to_string_key demo_key))) ≤ 2.
Proof.
  intros steps. apply (counter_run_safe 2 0 steps (ok_env 5) demo_key).
  - done.
  - by repeat constructor.
  - done.
  - vm_compute. reflexivity.
Defined.
