(* ===== verification/HostPath.v ===== *)
(** * Host paths of the local backend

    crates/operation_backend/src/backends/local/backend.rs (path normalization,
    resolution and classification), path.rs (the path resolver) and the data of
    crates/agent-contracts/src/backend/{error,permission}.rs and types/path.rs.

    A [Path] is the sequence of its components on a Unix host, which is what
    Rust's equality, [starts_with], [strip_prefix], [parent], [file_name] and
    [join] on paths look at; its text is the canonical one (no repeated or
    trailing separator). File names are valid UTF-8. *)

From S2P Require Import Prelude RStr.

(** ** [std::path] *)

Inductive Component :=
| RootDir
| CurDir
| ParentDir
| Normal (part : str).
#[global] Instance Component_eq_dec : EqDecision Component.
Proof. solve_decision. Defined.

Abbreviation Path := (list Component).

Module Path.
Definition SEP : char := 47%N.

Definition segment (s : str) : option Component :=
  if decide (s = []) then None
  else if decide (s = lit ".") then None
  else if decide (s = lit "..") then Some ParentDir
  else Some (Normal s).

(** [Path::new(s).components()]: a leading "." of a relative path is kept,
    every other "." and empty segment is dropped. *)
Definition new (s : str) : Path :=
  let segs := split_char SEP s in
  match s, segs with
  | c :: _, first :: rest =>
      if (c =? SEP)%N then RootDir :: omap segment segs
      else if decide (first = lit ".") then CurDir :: omap segment rest
      else omap segment segs
  | _, _ => []
  end.

Definition component_text (c : Component) : str :=
  match c with
  | RootDir => lit "/"
  | CurDir => lit "."
  | ParentDir => lit ".."
  | Normal part => part
  end.

Definition display (p : Path) : str :=
  match p with
  | RootDir :: rest => SEP :: join [SEP] (component_text <$> rest)
  | _ => join [SEP] (component_text <$> p)
  end.

Definition is_absolute (p : Path) : bool :=
  match p with RootDir :: _ => true | _ => false end.

Definition push (p q : Path) : Path :=
  if is_absolute q then q
  else match p with
       | [] => q
       | _ => p ++ filter (fun c => c ≠ CurDir) q
       end.
Abbreviation join := push.

Definition parent (p : Path) : option Path :=
  match last p with
  | None | Some RootDir => None
  | Some _ => Some (take (length p - 1) p)
  end.

(** [PathBuf::pop]: whether there was a parent, and the path after it. *)
Definition pop (p : Path) : bool * Path :=
  match parent p with
  | Some q => (true, q)
  | None => (false, p)
  end.

Definition file_name (p : Path) : option str :=
  match last p with Some (Normal n) => Some n | _ => None end.

Fixpoint strip_prefix (root p : Path) : option Path :=
  match root, p with
  | [], _ => Some p
  | c :: root, d :: p => if decide (c = d) then strip_prefix root p else None
  | _ :: _, [] => None
  end.

Definition starts_with (p root : Path) : bool := bool_decide (root `prefix_of` p).
End Path.

Example path_new_ex :
  Path.new (lit "//a/./b/../c/") = [RootDir; Normal (lit "a"); Normal (lit "b"); ParentDir; Normal (lit "c")]
  ∧ Path.new (lit "./a/.") = [CurDir; Normal (lit "a")] ∧ Path.new [] = [].
Proof. done. Qed.

(** ** Contract data *)

Inductive SandboxPermissionCapability := Read | Write | ExecCwd | ExecRuntime.
#[global] Instance Capability_eq_dec : EqDecision SandboxPermissionCapability.
Proof. solve_decision. Defined.

Inductive SandboxPermissionScope := Once | Session.
#[global] Instance Scope_eq_dec : EqDecision SandboxPermissionScope.
Proof. solve_decision. Defined.

Record SandboxPolicyDenial := {
  denial_backend_id : str;
  denial_isolation : str;
  denial_operation : str;
  denial_capability : SandboxPermissionCapability;
  denial_path : str;
}.

Record SandboxPermissionGrantRequest := {
  request_denial : SandboxPolicyDenial;
  request_scope : SandboxPermissionScope;
}.

Inductive ExecutionState := NotStarted | RunningOrCompleted.

Inductive OperationError :=
| InvalidPath (message : str)
| NotFound (path : str)
| AlreadyExists (path : str)
| NotDirectory (path : str)
| NotFile (path : str)
| PermissionDenied (path : str)
| SandboxPolicyDenied (denial : SandboxPolicyDenial)
| Unsupported (message : str)
| ExecutionFailed (message : str)
| ExecutionInterrupted (message : str) (stdout stderr : list Byte.byte) (state : ExecutionState)
| Transport (message : str).

Inductive PathNamespace := Workspace | Home | Temp | Uncategorized.

Record BackendPath := {
  backend_id : str;
  namespace : PathNamespace;
  relative_path : str;
  native_path : str;
}.

Definition assert_owned_by (p : BackendPath) (id : str) : result () OperationError :=
  if negb (bool_decide (backend_id p = [])) && negb (bool_decide (backend_id p = id))
  then Err (PermissionDenied (native_path p))
  else Ok ().

(** ** Normalization *)

(** One component of the walk in [normalize_absolute_host_path]. *)
Definition normalize_step (path : Path) (acc : result Path OperationError) (c : Component) :
    result Path OperationError :=
  let? normalized := acc in
  match c with
  | RootDir => Ok (Path.push normalized [RootDir])
  | CurDir => Ok normalized
  | ParentDir =>
      match Path.pop normalized with
      | (true, q) => Ok q
      | (false, _) => Err (InvalidPath (lit "path escapes root: " ++ Path.display path))
      end
  | Normal part => Ok (Path.push normalized [Normal part])
  end.

Definition normalize_absolute_host_path (path : Path) : result Path OperationError :=
  if negb (Path.is_absolute path)
  then Err (InvalidPath (lit "path must be absolute: " ++ Path.display path))
  else
    let? normalized := foldl (normalize_step path) (Ok []) path in
    if negb (Path.is_absolute normalized)
    then Err (InvalidPath (lit "path must remain absolute: " ++ Path.display path))
    else Ok normalized.

(** ** The backend's view of host paths *)

(** The fields of [LocalBackendState] the path code reads. *)
Record LocalBackendState := {
  state_backend_id : str;
  workspace_root_host : Path;
  home_dir_host : option Path;
  temp_root_host : Path;
}.

Definition backend_path_to_host (st : LocalBackendState) (p : BackendPath) :
    result Path OperationError :=
  let? native := normalize_absolute_host_path (Path.new (native_path p)) in
  let? _ := assert_owned_by p (state_backend_id st) in
  Ok native.

Fixpoint classify_roots (roots : list (Path * PathNamespace)) (normalized : Path) :
    PathNamespace * str :=
  match roots with
  | [] => (Uncategorized, Path.display normalized)
  | (root, ns) :: roots =>
      if decide (root = []) then classify_roots roots normalized
      else match Path.strip_prefix root normalized with
           | Some relative => (ns, trim_start_matches [Path.SEP] (Path.display relative))
           | None => classify_roots roots normalized
           end
  end.

Definition classify_host_path (st : LocalBackendState) (normalized : Path) : PathNamespace * str :=
  classify_roots
    [(workspace_root_host st, Workspace); (default [] (home_dir_host st), Home);
     (temp_root_host st, Temp)] normalized.

Definition host_path_to_backend (st : LocalBackendState) (p : Path) :
    result BackendPath OperationError :=
  let? normalized := normalize_absolute_host_path p in
  let '(ns, relative) := classify_host_path st normalized in
  Ok {| backend_id := state_backend_id st; namespace := ns; relative_path := relative;
        native_path := Path.display normalized |}.

Definition resolve_host_path (st : LocalBackendState) (raw_path : str) (base : Path) :
    result Path OperationError :=
  if bool_decide (raw_path = lit "~") || starts_with (lit "~/") raw_path then
    let? home := Result.ok_or (home_dir_host st) (Unsupported (lit "home_dir is not configured")) in
    normalize_absolute_host_path
      (Path.join home (Path.new (default [] (strip_prefix (lit "~/") raw_path))))
  else
    let candidate := Path.new raw_path in
    normalize_absolute_host_path
      (if Path.is_absolute candidate then candidate else Path.join base candidate).

Inductive ResolveBase :=
| BaseWorkspaceRoot
| BaseHomeDir
| BaseExplicit (path : BackendPath).

Definition resolve_path (st : LocalBackendState) (base : ResolveBase) (raw_path : str) :
    result BackendPath OperationError :=
  match base with
  | BaseExplicit path =>
      let? explicit := backend_path_to_host st path in
      let? resolved := resolve_host_path st raw_path explicit in
      host_path_to_backend st resolved
  | BaseWorkspaceRoot =>
      let? resolved := resolve_host_path st raw_path (workspace_root_host st) in
      host_path_to_backend st resolved
  | BaseHomeDir =>
      let? home := Result.ok_or (home_dir_host st)
                     (Unsupported (lit "home_dir is not configured")) in
      let? resolved := resolve_host_path st raw_path home in
      host_path_to_backend st resolved
  end.

Example resolve_ex :
  let st := {| state_backend_id := lit "local"; workspace_root_host := Path.new (lit "/ws");
               home_dir_host := None; temp_root_host := Path.new (lit "/tmp") |} in
  resolve_path st BaseWorkspaceRoot (lit "a/../b") =
  Ok {| backend_id := lit "local"; namespace := Workspace; relative_path := lit "b";
        native_path := lit "/ws/b" |}
  ∧ resolve_host_path st (lit "../../x") (Path.new (lit "/ws")) =
    Err (InvalidPath (lit "path escapes root: /ws/../../x")).
Proof. done. Qed.

(** ** Normalized paths *)

(** An absolute path without "." and ".." whose names are file names. *)
Definition valid_part (s : str) : Prop :=
  s ≠ [] ∧ s ≠ lit "." ∧ s ≠ lit ".." ∧ Path.SEP ∉ s.
Definition abs_path (parts : list str) : Path := RootDir :: (Normal <$> parts).
Definition normalized (p : Path) : Prop := ∃ parts, p = abs_path parts ∧ Forall valid_part parts.

Lemma segment_Some s c :
  Path.segment s = Some c → c = ParentDir ∨ (c = Normal s ∧ s ≠ [] ∧ s ≠ lit "." ∧ s ≠ lit "..").
Proof.
  unfold Path.segment. destruct (decide (s = [])); [done|].
  destruct (decide (s = lit ".")); [done|].
  destruct (decide (s = lit "..")); intros [= <-]; auto.
Qed.

Lemma segment_valid s : valid_part s → Path.segment s = Some (Normal s).
Proof. intros (? & ? & ? & _). unfold Path.segment. by rewrite !decide_False. Qed.

Lemma split_char_free c s l : l ∈ split_char c s → c ∉ l.
Proof.
  revert l. induction s as [|x s IH]; intros l; simpl.
  { intros ->%list_elem_of_singleton. apply not_elem_of_nil. }
  destruct (N.eqb_spec x c) as [->|Hne].
  { rewrite elem_of_cons. intros [->|Hl]; [apply not_elem_of_nil|by apply IH]. }
  destruct (split_char c s) as [|l0 ls].
  { intros ->%list_elem_of_singleton. rewrite list_elem_of_singleton. congruence. }
  rewrite elem_of_cons. intros [->|Hl]; [|apply IH; by right].
  apply not_elem_of_cons. split; [congruence|]. apply IH. by left.
Qed.

(** A component of a parsed path after the root is "..", or a file name. *)
Definition inner (c : Component) : Prop :=
  c = ParentDir ∨ c = CurDir ∨ ∃ s, c = Normal s ∧ valid_part s.

(** Paths made by [Path::new] and [join]: a root only in front. *)
Definition wf_path (p : Path) : Prop :=
  match p with RootDir :: q => Forall inner q | _ => Forall inner p end.

Lemma wf_inner p : Forall inner p → wf_path p.
Proof. destruct p as [|[]]; [done|apply Forall_inv_tail|done..]. Qed.

Lemma segments_inner s l :
  l ⊆ split_char Path.SEP s → Forall inner (omap Path.segment l).
Proof.
  intros Hl. apply Forall_forall. intros x (g & Hg & Hx)%list_elem_of_omap.
  apply segment_Some in Hx as [->|(-> & ? & ? & ?)]; [by left|].
  right; right. exists g. split; [done|]. split_and!; try done.
  apply (split_char_free _ s). by apply Hl.
Qed.

Lemma new_wf s : wf_path (Path.new s).
Proof.
  unfold Path.new. destruct s as [|c s]; [constructor|].
  pose proof (segments_inner (c :: s)) as Hall.
  destruct (split_char Path.SEP (c :: s)) as [|first rest]; [constructor|].
  destruct (c =? Path.SEP)%N; [by apply (Hall (first :: rest))|].
  case_decide; [|by apply wf_inner, (Hall (first :: rest))].
  constructor; [by right; left|]. apply Hall. by apply list_subseteq_cons.
Qed.

Lemma new_absolute s p : Path.new s = RootDir :: p → Forall inner p.
Proof. intros H. pose proof (new_wf s) as Hw. by rewrite H in Hw. Qed.

(** Printing a normalized path and parsing it back. *)
Lemma new_display p : normalized p → Path.new (Path.display p) = p.
Proof.
  intros (parts & -> & Hv). unfold abs_path, Path.display.
  assert (Path.component_text <$> (Normal <$> parts) = parts) as ->.
  { rewrite <- list_fmap_compose. by apply list_fmap_id. }
  unfold Path.new. change (split_char Path.SEP (Path.SEP :: ?x)) with ([] :: split_char Path.SEP x).
  rewrite N.eqb_refl. f_equal. cbn [omap list_omap].
  change (Path.segment []) with (@None Component). cbn iota.
  destruct (decide (parts = [])) as [->|Hne]; [done|].
  rewrite split_char_join; [|done|].
  2: { eapply Forall_impl; [exact Hv|]. by intros s (_ & _ & _ & ?). }
  clear Hne. induction Hv as [|s parts Hs Hv IH]; [done|].
  cbn [omap list_omap]. rewrite segment_valid by done. simpl. by f_equal.
Qed.

(** The normal form, read from the right: a name is kept unless a ".." to its
    right removes it; the first component counts the ".." left over. *)
Fixpoint scan (p : Path) : nat * list str :=
  match p with
  | [] => (0%nat, [])
  | Normal s :: p =>
      match scan p with
      | (O, kept) => (0%nat, s :: kept)
      | (S k, kept) => (k, kept)
      end
  | ParentDir :: p => let '(k, kept) := scan p in (S k, kept)
  | _ :: p => scan p
  end.

Lemma normalize_step_err path p e : foldl (normalize_step path) (Err e) p = Err e.
Proof. by induction p. Qed.

Lemma abs_path_snoc st s : abs_path (st ++ [s]) = abs_path st ++ [Normal s].
Proof. unfold abs_path. by rewrite fmap_app. Qed.

Lemma parent_abs_path st s : Path.parent (abs_path (st ++ [s])) = Some (abs_path st).
Proof.
  rewrite abs_path_snoc. unfold Path.parent. rewrite last_snoc.
  by rewrite length_app, Nat.add_sub, take_app_length.
Qed.

Lemma pop_abs_path st s : Path.pop (abs_path (st ++ [s])) = (true, abs_path st).
Proof. unfold Path.pop. by rewrite parent_abs_path. Qed.

Lemma walk_scan path st p :
  Forall inner p →
  foldl (normalize_step path) (Ok (abs_path st)) p =
  let '(k, kept) := scan p in
  if decide (k ≤ length st)%nat
  then Ok (abs_path (take (length st - k) st ++ kept))
  else Err (InvalidPath (lit "path escapes root: " ++ Path.display path)).
Proof.
  intros Hp. revert st. induction Hp as [|c p Hc Hp IH]; intros st.
  - simpl. by rewrite Nat.sub_0_r, firstn_all, app_nil_r.
  - cbn [foldl]. destruct Hc as [->|[->|(s & -> & Hs)]]; cbn [normalize_step Result.bind scan].
    + destruct (decide (st = [])) as [->|Hne].
      * simpl. rewrite normalize_step_err. destruct (scan p). by rewrite decide_False by (simpl; lia).
      * destruct (exists_last Hne) as (st' & x & ->). rewrite pop_abs_path, IH.
        destruct (scan p) as [k kept]. rewrite length_app. simpl.
        repeat case_decide; try lia; [|done]. do 2 f_equal.
        rewrite take_app_le by lia. do 2 f_equal. lia.
    + apply IH.
    + change (Path.push (abs_path st) [Normal s]) with (abs_path st ++ [Normal s]).
      rewrite <- abs_path_snoc, IH. destruct (scan p) as [[|k] kept]; rewrite length_app; simpl.
      * repeat case_decide; try lia. do 2 f_equal.
        rewrite !Nat.sub_0_r, !firstn_all2 by (rewrite ?length_app; simpl; lia).
        by rewrite <- app_assoc.
      * repeat case_decide; try lia; [|done]. do 2 f_equal.
        rewrite take_app_le by lia. do 2 f_equal. lia.
Qed.

Lemma scan_valid p : Forall inner p → Forall valid_part (scan p).2.
Proof.
  induction 1 as [|c p Hc _ IH]; [done|].
  destruct Hc as [->|[->|(s & -> & Hs)]]; simpl; destruct (scan p) as [[|k] kept]; simpl in *; auto.
Qed.

(** Normalizing an absolute path is the scan of its components. *)
Lemma normalize_scan p :
  Forall inner p →
  normalize_absolute_host_path (RootDir :: p) =
  let '(k, kept) := scan p in
  if decide (k = 0%nat) then Ok (abs_path kept)
  else Err (InvalidPath (lit "path escapes root: " ++ Path.display (RootDir :: p))).
Proof.
  intros Hp. unfold normalize_absolute_host_path. cbn [Path.is_absolute negb foldl].
  change (normalize_step (RootDir :: p) (Ok []) RootDir) with (@Ok Path OperationError (abs_path [])).
  rewrite (walk_scan (RootDir :: p) [] p Hp). destruct (scan p) as [k kept]. simpl.
  destruct (decide (k ≤ 0)%nat); case_decide; try lia; done.
Qed.

Lemma scan_names parts : scan (Normal <$> parts) = (0%nat, parts).
Proof. induction parts as [|s parts IH]; [done|]. rewrite fmap_cons. cbn [scan]. by rewrite IH. Qed.

Lemma inner_names parts : Forall valid_part parts → Forall inner (Normal <$> parts).
Proof.
  intros H. apply Forall_fmap. eapply Forall_impl; [exact H|]. intros s Hs. right; right. eauto.
Qed.

Lemma normalize_id p : normalized p → normalize_absolute_host_path p = Ok p.
Proof.
  intros (parts & -> & Hv). unfold abs_path at 1.
  rewrite normalize_scan by (by apply inner_names). by rewrite scan_names.
Qed.

Lemma normalize_ok p q :
  Forall inner p → normalize_absolute_host_path (RootDir :: p) = Ok q → normalized q.
Proof.
  intros Hp. rewrite normalize_scan by done. pose proof (scan_valid p Hp) as Hv.
  destruct (scan p) as [k kept]. case_decide; [|done]. intros [= <-]. by exists kept.
Qed.

Lemma normalize_relative p :
  Path.is_absolute p = false →
  normalize_absolute_host_path p = Err (InvalidPath (lit "path must be absolute: " ++ Path.display p)).
Proof. intros H. unfold normalize_absolute_host_path. by rewrite H. Qed.

(** Path normalization computes the lexical normal form of any text: a
    relative path is refused; an absolute one is read from the right, a name
    being dropped when a ".." to its right cancels it, and the call fails
    exactly when some ".." is left over, that is when the path climbs above the
    root. The result has no "." or "..", normalizing it again changes nothing,
    and printing and parsing it gives it back. *)
Theorem normalize_spec s :
  normalize_absolute_host_path (Path.new s) =
    match Path.new s with
    | RootDir :: p =>
        let '(k, kept) := scan p in
        if decide (k = 0%nat) then Ok (abs_path kept)
        else Err (InvalidPath (lit "path escapes root: " ++ Path.display (RootDir :: p)))
    | p => Err (InvalidPath (lit "path must be absolute: " ++ Path.display p))
    end ∧
  (∀ q, normalize_absolute_host_path (Path.new s) = Ok q →
     normalized q ∧ normalize_absolute_host_path q = Ok q ∧ Path.new (Path.display q) = q).
Proof.
  destruct (Path.new s) as [|[| | |part] p] eqn:Es; try (by split; [apply normalize_relative|]).
  apply new_absolute in Es. split; [by apply normalize_scan|].
  intros q Hq%normalize_ok; [|done]. auto using normalize_id, new_display.
Qed.

(** Normalization as a test. *)
#[global] Instance valid_part_dec s : Decision (valid_part s).
Proof. unfold valid_part. apply _. Defined.

Definition name_ok (c : Component) : bool :=
  match c with Normal s => bool_decide (valid_part s) | _ => false end.
Definition is_normalized (p : Path) : bool :=
  match p with RootDir :: r => forallb name_ok r | _ => false end.

Lemma is_normalized_spec p : is_normalized p = true ↔ normalized p.
Proof.
  split.
  - destruct p as [|[| | |s] p]; try done. simpl. intros H.
    assert (∃ parts, p = Normal <$> parts ∧ Forall valid_part parts) as (parts & -> & Hv).
    { induction p as [|c p IH]; [by exists []|]. apply andb_true_iff in H as [Hc H].
      destruct (IH H) as (parts & -> & Hv). destruct c as [| | |s]; try done.
      apply bool_decide_eq_true in Hc. exists (s :: parts). split; [done|]. by constructor. }
    by exists parts.
  - intros (parts & -> & Hv). simpl. apply forallb_forall. intros c Hc.
    apply list_elem_of_In, list_elem_of_fmap in Hc as (s & -> & Hs). simpl.
    apply bool_decide_eq_true. by eapply Forall_forall in Hv.
Qed.

Lemma forallb_normalized l : forallb is_normalized l = true → Forall normalized l.
Proof.
  intros H. apply Forall_forall. intros p Hp. apply is_normalized_spec.
  rewrite forallb_forall in H. by apply H, list_elem_of_In.
Qed.

(** ** Resolution *)

Definition wf_state (st : LocalBackendState) : Prop :=
  wf_path (workspace_root_host st) ∧ (∀ h, home_dir_host st = Some h → wf_path h).

Lemma push_wf p q : wf_path p → wf_path q → wf_path (Path.push p q).
Proof.
  intros Hp Hq. unfold Path.push. destruct (Path.is_absolute q) eqn:Ea; [done|].
  assert (Forall inner q) as Hq' by (by destruct q as [|[]]).
  assert (Forall inner (filter (fun c => c ≠ CurDir) q)) as Hf.
  { apply Forall_forall. intros c [_ Hc]%list_elem_of_filter. by eapply Forall_forall in Hq'. }
  destruct p as [|c p]; [done|]. destruct c; simpl in *;
    rewrite ?app_comm_cons; by apply Forall_app.
Qed.

Lemma normalize_wf p q : wf_path p → normalize_absolute_host_path p = Ok q → normalized q.
Proof.
  intros Hp Hq. destruct p as [|[| | |s] p]; try done.
  by apply (normalize_ok p).
Qed.

Lemma resolve_normalized st raw base q :
  wf_state st → wf_path base → resolve_host_path st raw base = Ok q → normalized q.
Proof.
  intros [_ Hh] Hb. unfold resolve_host_path. case_match.
  - destruct (home_dir_host st) as [h|]; [|done]. simpl.
    apply normalize_wf, push_wf; [by apply Hh|apply new_wf].
  - apply normalize_wf. case_match; [apply new_wf|]. apply push_wf; [done|apply new_wf].
Qed.

Lemma strip_prefix_spec root p r : Path.strip_prefix root p = Some r ↔ p = root ++ r.
Proof.
  revert p. induction root as [|c root IH]; intros [|d p]; simpl; try (split; congruence).
  case_decide; [subst|split; [done|congruence]]. rewrite IH. split; congruence.
Qed.

(** The relative text of a path below a root leads back to it. *)
Lemma new_relative parts :
  Forall valid_part parts →
  Path.new (join [Path.SEP] parts) = Normal <$> parts ∧
  trim_start_matches [Path.SEP] (join [Path.SEP] parts) = join [Path.SEP] parts.
Proof.
  intros Hv. destruct parts as [|s parts]; [done|].
  assert (∃ x t, join [Path.SEP] (s :: parts) = x :: t ∧ x ≠ Path.SEP) as (x & t & Ej & Hx).
  { apply Forall_cons in Hv as [(Hne & _ & _ & Hsep) _]. destruct s as [|y s]; [done|].
    apply not_elem_of_cons in Hsep as [? _].
    exists y. destruct parts; simpl; eexists; (split; [done|]); congruence. }
  split.
  - assert (omap Path.segment (s :: parts) = Normal <$> (s :: parts)) as Ho.
    { clear -Hv. induction Hv as [|s' ps Hs _ IH]; [done|].
      cbn [omap list_omap]. rewrite segment_valid by done. rewrite fmap_cons. by f_equal. }
    assert (split_char Path.SEP (join [Path.SEP] (s :: parts)) = s :: parts) as Es.
    { apply split_char_join; [done|]. eapply Forall_impl; [exact Hv|]. by intros ? (_ & _ & _ & ?). }
    unfold Path.new. rewrite Es, Ej. destruct (N.eqb_spec x Path.SEP); [done|].
    apply Forall_cons in Hv as [(_ & Hdot & _) _]. by rewrite decide_False.
  - apply trim_start_matches_none; [done|]. rewrite Ej. simpl.
    case_match; [|done]. congruence.
Qed.

Lemma normalized_suffix root r :
  normalized (root ++ r) → root ≠ [] →
  ∃ parts, r = Normal <$> parts ∧ Forall valid_part parts.
Proof.
  intros (parts & E & Hv) Hne. destruct root as [|c root]; [done|].
  injection E as -> E. symmetry in E. apply fmap_app_inv in E as (p1 & p2 & -> & -> & ->).
  exists p2. split; [done|]. by apply Forall_app in Hv as [_ ?].
Qed.

Lemma filter_names (parts : list str) :
  filter (fun c => c ≠ CurDir) (Normal <$> parts) = Normal <$> parts.
Proof.
  induction parts as [|s parts IH]; [done|]. rewrite fmap_cons, filter_cons_True by done.
  by rewrite IH.
Qed.

Lemma classify_spec roots q ns rel :
  normalized q → classify_roots roots q = (ns, rel) →
  (∃ root, (root, ns) ∈ roots ∧ root ≠ [] ∧ Path.join root (Path.new rel) = q) ∨
  (ns = Uncategorized ∧ rel = Path.display q ∧
   Forall (fun r => r.1 = [] ∨ ¬ r.1 `prefix_of` q) roots).
Proof.
  intros Hq. induction roots as [|[root n] roots IH]; cbn [classify_roots].
  { intros [= <- <-]. right. auto. }
  assert (∀ x, root = [] ∨ ¬ root `prefix_of` q → classify_roots roots q = (ns, rel) → x = (root, n) →
    (∃ r, (r, ns) ∈ x :: roots ∧ r ≠ [] ∧ Path.join r (Path.new rel) = q) ∨
    (ns = Uncategorized ∧ rel = Path.display q ∧
     Forall (fun r => r.1 = [] ∨ ¬ r.1 `prefix_of` q) (x :: roots))) as Hnext.
  { intros x Hx Hc ->. destruct (IH Hc) as [(r & Hr & ?)|(? & ? & ?)].
    - left. exists r. split; [by right|done].
    - right. split_and!; [done|done|]. by constructor. }
  case_decide as Hr; [intros; eauto|].
  destruct (Path.strip_prefix root q) as [r|] eqn:Es.
  - apply strip_prefix_spec in Es as ->. intros [= <- <-]. left.
    exists root. split; [by left|]. split; [done|].
    destruct (normalized_suffix _ _ Hq Hr) as (parts & -> & Hv).
    assert (Path.display (Normal <$> parts) = join [Path.SEP] parts) as ->.
    { assert (Path.component_text <$> (Normal <$> parts) = parts) as E.
      { rewrite <- list_fmap_compose. by apply list_fmap_id. }
      destruct parts as [|s ps]; [done|]. unfold Path.display. rewrite fmap_cons in *. by rewrite E. }
    destruct (new_relative parts Hv) as [Hnew ->]. rewrite Hnew. unfold Path.join.
    assert (Path.is_absolute (Normal <$> parts) = false) as -> by (by destruct parts).
    destruct root; [done|]. f_equal. apply filter_names.
  - intros Hc. apply Hnext; [right|done|done]. intros [r ->].
    assert (Path.strip_prefix root (root ++ r) = Some r) by (by apply strip_prefix_spec). congruence.
Qed.

Definition namespace_root (st : LocalBackendState) (ns : PathNamespace) : option Path :=
  match ns with
  | Workspace => Some (workspace_root_host st)
  | Home => home_dir_host st
  | Temp => Some (temp_root_host st)
  | Uncategorized => None
  end.

(** What a resolved path is worth: it belongs to the backend, its native text
    leads back to the same normalized host path, and its namespace and relative
    text denote that path too. *)
Definition resolves_to (st : LocalBackendState) (bp : BackendPath) (q : Path) : Prop :=
  normalized q ∧ native_path bp = Path.display q ∧ backend_path_to_host st bp = Ok q ∧
  match namespace bp with
  | Uncategorized => relative_path bp = Path.display q
  | ns => ∃ root, namespace_root st ns = Some root ∧
                  Path.join root (Path.new (relative_path bp)) = q
  end.

Lemma host_path_to_backend_spec st q :
  normalized q →
  ∃ bp, host_path_to_backend st q = Ok bp ∧ backend_id bp = state_backend_id st ∧
        resolves_to st bp q.
Proof.
  intros Hq. unfold host_path_to_backend. rewrite normalize_id by done. cbn [Result.bind].
  destruct (classify_host_path st q) as [ns rel] eqn:Ec.
  eexists. split; [done|]. split; [done|]. split_and!; [done|done| |].
  - unfold backend_path_to_host. cbn [native_path]. rewrite new_display, normalize_id by done.
    cbn [Result.bind]. unfold assert_owned_by. cbn [backend_id].
    rewrite (bool_decide_true (state_backend_id st = state_backend_id st)) by done.
    by rewrite andb_false_r.
  - simpl. apply classify_spec in Ec; [|done].
    destruct Ec as [(root & Hr & Hne & Hj)|(-> & -> & _)]; [|done].
    rewrite !elem_of_cons, elem_of_nil in Hr.
    destruct Hr as [[= -> ->]|[[= -> ->]|[[= -> ->]|[]]]]; simpl; try (by eexists).
    destruct (home_dir_host st); [|done]. by eexists.
Qed.

(** Resolving a path is sound: whatever the text, the base and the
    configured directories, a resolved path belongs to this backend, its native
    text is a normalized absolute path that the backend maps back to the same
    host path, its namespace root joined with its relative text denotes that
    path as well, and every other backend refuses it. *)
Theorem resolve_path_sound st base raw bp :
  wf_state st → resolve_path st base raw = Ok bp →
  backend_id bp = state_backend_id st ∧
  (∃ q, resolves_to st bp q) ∧
  (∀ st', state_backend_id st ≠ [] → state_backend_id st' ≠ state_backend_id st →
     backend_path_to_host st' bp = Err (PermissionDenied (native_path bp))).
Proof.
  intros Hst Hres.
  assert (∃ q, normalized q ∧ host_path_to_backend st q = Ok bp) as (q & Hq & Hb).
  { assert (∀ b, wf_path b →
      Result.bind (resolve_host_path st raw b) (host_path_to_backend st) = Ok bp →
      ∃ q, normalized q ∧ host_path_to_backend st q = Ok bp) as Hgo.
    { intros b Hb H. inv_ok. exists v. split; [|done]. by eapply resolve_normalized. }
    unfold resolve_path in Hres. destruct base as [| |path].
    - exact (Hgo _ (proj1 Hst) Hres).
    - destruct (home_dir_host st) as [h|] eqn:Eh; [|done].
      exact (Hgo h (proj2 Hst h Eh) Hres).
    - apply bind_ok_inv in Hres as (e & He & Hres). apply (Hgo e); [|exact Hres].
      unfold backend_path_to_host in He. inv_ok.
      match goal with H : normalize_absolute_host_path _ = Ok _ |- _ =>
        apply normalize_wf in H as (parts & -> & Hv); [|apply new_wf] end.
      by apply inner_names. }
  destruct (host_path_to_backend_spec st q Hq) as (bp' & Hb' & Hid & Hrt).
  assert (bp' = bp) as -> by congruence. split; [done|]. split; [by eexists|].
  intros st' Hne Hother. destruct Hrt as (_ & Hn & _ & _).
  unfold backend_path_to_host. rewrite Hn, new_display, normalize_id by done. cbn [Result.bind].
  unfold assert_owned_by. by rewrite Hid, !bool_decide_false, <- Hn by congruence.
Qed.

Definition demo_state : LocalBackendState :=
  {| state_backend_id := lit "local"; workspace_root_host := Path.new (lit "/ws");
     home_dir_host := Some (Path.new (lit "/home/u")); temp_root_host := Path.new (lit "/tmp") |}.

Lemma resolve_path_sound_witness :
  ∃ bp, resolve_path demo_state BaseWorkspaceRoot (lit "~/../u//x/./y") = Ok bp ∧
        (∃ q, resolves_to demo_state bp q) ∧ namespace bp = Home.
Proof.
  eexists. split; [vm_compute; reflexivity|]. split; [|reflexivity].
  destruct (resolve_path_sound demo_state BaseWorkspaceRoot (lit "~/../u//x/./y")
              {| backend_id := lit "local"; namespace := Home; relative_path := lit "x/y";
                 native_path := lit "/home/u/x/y" |}) as (_ & Hq & _).
  - split; [apply new_wf|]. intros h Eh. simplify_eq Eh. intros <-. apply (new_wf (lit "/home/u")).
  - vm_compute. reflexivity.
  - exact Hq.
Defined.
