(* ===== verification/LocalPolicy.v ===== *)
(** * The local backend's isolation policy

    crates/operation_backend/src/backends/local/policy.rs: which host paths a
    local session may read, write and run in, the permission grants a user adds,
    and the profiles handed to the three sandbox launchers (seatbelt, bubblewrap,
    dyn-sandbox). The policy's mutex-guarded grant store is a field of the
    policy; grants and revocations return the new policy. *)

From S2P Require Import Prelude RStr HostPath.

(** ** The host *)

(** What the policy asks of the file system. [canonicalize] is [None] when the
    call fails. *)
Class FileSystem := {
  canonicalize : Path → option Path;
  path_exists : Path → bool;
  is_dir : Path → bool;
  is_file : Path → bool;
}.

(** The compile-time target and the PATH variable, split. *)
Record Host := {
  target_macos : bool;
  target_linux : bool;
  path_var : option (list Path);
}.

(** ** Data *)

Record PathIsolationConfig := {
  allow_network : bool;
  readable_roots : list Path;
  writable_roots : list Path;
}.

Inductive LocalIsolationConfig :=
| IsolationNone
| MacosSeatbelt (config : PathIsolationConfig)
| LinuxBubblewrap (config : PathIsolationConfig)
| LinuxDynsandbox (roots : PathIsolationConfig).

Record SandboxPermissionGrant := {
  grant_id : Z;
  grant_capability : SandboxPermissionCapability;
  grant_path : Path;
}.

Record GrantStore := { next_id : Z; store_grants : list SandboxPermissionGrant }.
Definition default_store : GrantStore := {| next_id := 0; store_grants := [] |}.

Record LocalBackendPolicy := {
  isolation : LocalIsolationConfig;
  grants : GrantStore;
  poisoned : bool;  (* a thread panicked while it held the store's lock *)
}.

Inductive LocalIsolationOptions :=
| OptMacosSeatbelt (allow_network : bool) (readable writable : list str)
| OptLinuxBubblewrap (allow_network : bool) (readable writable : list str)
| OptLinuxDynsandbox (allow_network : bool) (readable writable : list str) (no_landlock : bool).

Module Build.
Inductive OperationBackendBuildError :=
| InvalidConfig (message : str)
| UnsupportedBackend (kind : str)
| Unsupported (message : str)
| ResourceLimitExceeded (message : str)
| BuildFailed (message : str).
End Build.

Definition capability_str (c : SandboxPermissionCapability) : str :=
  match c with
  | Read => lit "read"
  | Write => lit "write"
  | ExecCwd => lit "exec_cwd"
  | ExecRuntime => lit "exec_runtime"
  end.

Definition denial_str (d : SandboxPolicyDenial) : str :=
  denial_isolation d ++ lit " blocked " ++ capability_str (denial_capability d) ++ lit " " ++
  denial_path d ++ lit " for " ++ denial_operation d.

Definition execution_state_str (s : ExecutionState) : str :=
  match s with
  | NotStarted => lit "not_started"
  | RunningOrCompleted => lit "running_or_completed"
  end.

Definition operation_error_str (e : OperationError) : str :=
  match e with
  | InvalidPath m => lit "invalid path: " ++ m
  | NotFound p => lit "not found: " ++ p
  | AlreadyExists p => lit "already exists: " ++ p
  | NotDirectory p => lit "not a directory: " ++ p
  | NotFile p => lit "not a file: " ++ p
  | PermissionDenied p => lit "permission denied: " ++ p
  | SandboxPolicyDenied d => lit "sandbox policy denied: " ++ denial_str d
  | Unsupported m => lit "unsupported operation: " ++ m
  | ExecutionFailed m => lit "execution failed: " ++ m
  | ExecutionInterrupted m _ _ st =>
      lit "execution interrupted (" ++ execution_state_str st ++ lit "): " ++ m
  | Transport m => lit "transport error: " ++ m
  end.

(** [Path::new(MAIN_SEPARATOR_STR)]. *)
Definition root_path : Path := [RootDir].

Definition path_is_within (path root : Path) : bool :=
  bool_decide (path = root) || Path.starts_with path root.

Definition push_unique_path (paths : list Path) (path : Path) : list Path :=
  if existsb (fun existing => bool_decide (existing = path)) paths then paths
  else paths ++ [path].

(** Fold the grants into the readable and writable roots. *)
Definition merge_grant (rw : list Path * list Path) (g : SandboxPermissionGrant) :
    list Path * list Path :=
  let '(readable, writable) := rw in
  match grant_capability g with
  | Read | ExecCwd => (push_unique_path readable (grant_path g), writable)
  | ExecRuntime => (readable, writable)
  | Write => (push_unique_path readable (grant_path g), push_unique_path writable (grant_path g))
  end.
Definition merge_grants_into_roots (readable writable : list Path)
    (gs : list SandboxPermissionGrant) : list Path * list Path :=
  foldl merge_grant (readable, writable) gs.

Definition sandbox_denial (isolation operation : str) (capability : SandboxPermissionCapability)
    (path : Path) : OperationError :=
  SandboxPolicyDenied
    {| denial_backend_id := lit "local"; denial_isolation := isolation;
       denial_operation := operation; denial_capability := capability;
       denial_path := Path.display path |}.

Definition sandbox_denial_from_result (r : result () OperationError) :
    result (option SandboxPolicyDenial) OperationError :=
  match r with
  | Ok _ => Ok None
  | Err (SandboxPolicyDenied denial) => Ok (Some denial)
  | Err error => Err error
  end.

Definition allows (g : SandboxPermissionGrant) (requested : SandboxPermissionCapability) : bool :=
  match grant_capability g, requested with
  | Write, Read => true
  | ExecCwd, Read => true
  | granted, requested => bool_decide (granted = requested)
  end.

Definition active_grants (pol : LocalBackendPolicy) : list SandboxPermissionGrant :=
  if poisoned pol then [] else store_grants (grants pol).

Definition lock_grants (pol : LocalBackendPolicy) : result GrantStore OperationError :=
  if poisoned pol then Err (Transport (lit "local sandbox grant store lock poisoned"))
  else Ok (grants pol).

Definition active_path_isolation (pol : LocalBackendPolicy) : option (str * PathIsolationConfig) :=
  match isolation pol with
  | IsolationNone => None
  | MacosSeatbelt config => Some (lit "macos_seatbelt", config)
  | LinuxBubblewrap config => Some (lit "linux_bubblewrap", config)
  | LinuxDynsandbox roots => Some (lit "linux_dynsandbox", roots)
  end.

Definition is_granted (pol : LocalBackendPolicy) (path : Path)
    (capability : SandboxPermissionCapability) : result bool OperationError :=
  let? store := lock_grants pol in
  Ok (existsb (fun g => allows g capability && path_is_within path (grant_path g))
              (store_grants store)).

Definition set_grants (pol : LocalBackendPolicy) (s : GrantStore) : LocalBackendPolicy :=
  {| isolation := isolation pol; grants := s; poisoned := poisoned pol |}.

Definition has_exec_runtime (gs : list SandboxPermissionGrant) : bool :=
  existsb (fun g => bool_decide (grant_capability g = ExecRuntime)) gs.

(** ** Checks and grants *)

Section Policy.
Context `{FS : FileSystem}.

Definition normalize_for_read (path : Path) : result Path OperationError :=
  let? normalized := normalize_absolute_host_path path in
  match canonicalize normalized with
  | Some canonical => normalize_absolute_host_path canonical
  | None => Ok normalized
  end.

Definition normalize_for_write (path : Path) : result Path OperationError :=
  let? normalized := normalize_absolute_host_path path in
  match canonicalize normalized with
  | Some canonical => normalize_absolute_host_path canonical
  | None =>
      match Path.parent normalized with
      | Some parent =>
          match canonicalize parent, Path.file_name normalized with
          | Some canonical_parent, Some name =>
              normalize_absolute_host_path (Path.join canonical_parent [Normal name])
          | _, _ => Ok normalized
          end
      | None => Ok normalized
      end
  end.

(** [any(root) || is_granted(..)?]: the store is looked at only when no root
    contains the path. *)
Definition within_roots_or_granted (pol : LocalBackendPolicy) (roots : list Path) (path : Path)
    (capability : SandboxPermissionCapability) : result bool OperationError :=
  if existsb (path_is_within path) roots then Ok true
  else is_granted pol path capability.

Definition check_read (pol : LocalBackendPolicy) (path : Path) (operation : str) :
    result () OperationError :=
  match active_path_isolation pol with
  | None => Ok ()
  | Some (isolation_name, config) =>
      let? path := normalize_for_read path in
      let? allowed := within_roots_or_granted pol (readable_roots config) path Read in
      if (allowed : bool) then Ok ()
      else Err (sandbox_denial isolation_name operation Read path)
  end.

Definition check_write (pol : LocalBackendPolicy) (path : Path) (operation : str) :
    result () OperationError :=
  match active_path_isolation pol with
  | None => Ok ()
  | Some (isolation_name, config) =>
      let? path := normalize_for_write path in
      let? allowed := within_roots_or_granted pol (writable_roots config) path Write in
      if (allowed : bool) then Ok ()
      else Err (sandbox_denial isolation_name operation Write path)
  end.

Definition check_exec_cwd (pol : LocalBackendPolicy) (path : Path) : result () OperationError :=
  match active_path_isolation pol with
  | None => Ok ()
  | Some (isolation_name, config) =>
      let? path := normalize_for_read path in
      let? allowed := within_roots_or_granted pol (readable_roots config) path ExecCwd in
      if (allowed : bool) then Ok ()
      else Err (sandbox_denial isolation_name (lit "bash") ExecCwd path)
  end.

Definition is_authorizable_write_target (path : Path) : bool :=
  if bool_decide (path = root_path) then false
  else if path_exists path then true
  else match Path.parent path with
       | Some parent => if bool_decide (parent = root_path) then false else path_exists parent
       | None => false
       end.

Definition sandbox_denial_for_path (pol : LocalBackendPolicy) (path : Path)
    (capability : SandboxPermissionCapability) (operation : str) :
    result (option SandboxPolicyDenial) OperationError :=
  match capability with
  | Read =>
      let? path := normalize_for_read path in
      if negb (path_exists path) || bool_decide (path = root_path) then Ok None
      else sandbox_denial_from_result (check_read pol path operation)
  | Write =>
      let? path := normalize_for_write path in
      if negb (is_authorizable_write_target path) then Ok None
      else sandbox_denial_from_result (check_write pol path operation)
  | ExecCwd =>
      let? path := normalize_for_read path in
      if negb (is_dir path) || bool_decide (path = root_path) then Ok None
      else sandbox_denial_from_result (check_exec_cwd pol path)
  | ExecRuntime => Ok None
  end.

Definition write_grant_root (path : Path) : Path :=
  if is_dir path then path
  else match Path.parent path with
       | Some parent => if bool_decide (parent = root_path) then path else parent
       | None => path
       end.

Definition grant (pol : LocalBackendPolicy) (request : SandboxPermissionGrantRequest) :
    result Z OperationError * LocalBackendPolicy :=
  let denial := request_denial request in
  if bool_decide (denial_capability denial = ExecRuntime)
     && negb (bool_decide (request_scope request = Once))
  then (Err (Unsupported (lit "exec runtime sandbox bypass can only be granted for one retry")), pol)
  else
    let path :=
      match denial_capability denial with
      | Read | ExecCwd => normalize_for_read (Path.new (denial_path denial))
      | ExecRuntime => Ok []
      | Write => Result.map write_grant_root (normalize_for_write (Path.new (denial_path denial)))
      end in
    match path, lock_grants pol with
    | Err e, _ => (Err e, pol)
    | Ok _, Err e => (Err e, pol)
    | Ok path, Ok store =>
        let id := Word.add (next_id store) 1 in
        (Ok id,
         set_grants pol
           {| next_id := id;
              store_grants := store_grants store ++
                [{| grant_id := id; grant_capability := denial_capability denial;
                    grant_path := path |}] |})
    end.

Definition revoke (pol : LocalBackendPolicy) (id : Z) :
    result () OperationError * LocalBackendPolicy :=
  match lock_grants pol with
  | Err e => (Err e, pol)
  | Ok store =>
      (Ok (), set_grants pol
                {| next_id := next_id store;
                   store_grants := filter (fun g => grant_id g ≠ id) (store_grants store) |})
  end.

(** ** Building a policy *)

Definition normalize_build_path (field_name : str) (path : Path) :
    result Path Build.OperationBackendBuildError :=
  Result.map_err (fun e => Build.InvalidConfig (field_name ++ lit ": " ++ operation_error_str e))
    (let? path := normalize_absolute_host_path path in
     Ok (default path (canonicalize path))).

Definition normalize_build_roots (field_name : str) (roots : list str) :
    result (list Path) Build.OperationBackendBuildError :=
  Result.collect ((fun root => normalize_build_path field_name (Path.new root)) <$> roots).

Definition build_path_isolation_config (net : bool) (readable writable : list str)
    (workspace_root temp_root : Path) :
    result PathIsolationConfig Build.OperationBackendBuildError :=
  let? readable :=
    match readable with
    | [] => let? ws := normalize_build_path (lit "workspace_root") workspace_root in Ok [ws]
    | _ => normalize_build_roots (lit "readable_roots") readable
    end in
  let? writable :=
    match writable with
    | [] => let? ws := normalize_build_path (lit "workspace_root") workspace_root in
            let? tmp := normalize_build_path (lit "temp_root") temp_root in Ok [ws; tmp]
    | _ => normalize_build_roots (lit "writable_roots") writable
    end in
  Ok {| allow_network := net; readable_roots := foldl push_unique_path readable writable;
        writable_roots := writable |}.

Definition in_path (host : Host) (program : str) : bool :=
  match path_var host with
  | Some dirs => existsb (fun dir => is_file (Path.join dir (Path.new program))) dirs
  | None => false
  end.
Definition bubblewrap_available (host : Host) : bool :=
  target_linux host && in_path host (lit "bwrap").
Definition linux_dynsandbox_available (host : Host) : bool :=
  target_linux host && in_path host (lit "dyn-sandbox").

Definition fresh_policy (i : LocalIsolationConfig) : LocalBackendPolicy :=
  {| isolation := i; grants := default_store; poisoned := false |}.
Definition unrestricted : LocalBackendPolicy := fresh_policy IsolationNone.

Definition from_isolation_options (host : Host) (options : option LocalIsolationOptions)
    (workspace_root temp_root : Path) :
    result LocalBackendPolicy Build.OperationBackendBuildError :=
  match options with
  | None => Ok unrestricted
  | Some (OptMacosSeatbelt net readable writable) =>
      if negb (target_macos host)
      then Err (Build.Unsupported (lit "macos_seatbelt isolation is only supported on macOS"))
      else
        let? config := build_path_isolation_config net readable writable workspace_root temp_root in
        Ok (fresh_policy (MacosSeatbelt config))
  | Some (OptLinuxBubblewrap net readable writable) =>
      if negb (target_linux host)
      then Err (Build.Unsupported (lit "linux_bubblewrap isolation is only supported on Linux"))
      else if negb (bubblewrap_available host)
      then Err (Build.Unsupported
                  (lit "linux_bubblewrap isolation requires bubblewrap (bwrap) in PATH"))
      else
        let? config := build_path_isolation_config net readable writable workspace_root temp_root in
        Ok (fresh_policy (LinuxBubblewrap config))
  | Some (OptLinuxDynsandbox net readable writable _) =>
      if negb (target_linux host)
      then Err (Build.Unsupported (lit "linux_dynsandbox isolation is only supported on Linux"))
      else if negb (linux_dynsandbox_available host)
      then Err (Build.Unsupported (lit "linux_dynsandbox isolation requires dyn-sandbox in PATH"))
      else
        let? roots := build_path_isolation_config net readable writable workspace_root temp_root in
        Ok (fresh_policy (LinuxDynsandbox roots))
  end.
End Policy.

(** ** What the file system promises

    [std::fs::canonicalize] returns an absolute path with all components
    normalized and links resolved; resolving such a path again gives it back,
    and a name is resolved in a directory the same way whichever path led to
    that directory. *)
Class FileSystemLaws (FS : FileSystem) : Prop := {
  canonicalize_normalized : ∀ p q, canonicalize p = Some q → normalized q;
  canonicalize_idem : ∀ p q, canonicalize p = Some q → canonicalize q = Some q;
  canonicalize_entry : ∀ p q name, canonicalize p = Some q →
    canonicalize (p ++ [Normal name]) = canonicalize (q ++ [Normal name]);
}.

Lemma within_iff p root : path_is_within p root = true ↔ root `prefix_of` p.
Proof.
  unfold path_is_within, Path.starts_with. rewrite orb_true_iff, !bool_decide_eq_true.
  split; [intros [-> | ?]; [reflexivity|done]|auto].
Qed.

Lemma exists_within p roots :
  existsb (path_is_within p) roots = true ↔ ∃ r, r ∈ roots ∧ r `prefix_of` p.
Proof.
  rewrite existsb_exists. setoid_rewrite within_iff. setoid_rewrite <- list_elem_of_In. naive_solver.
Qed.

Lemma push_unique_elem paths p q : q ∈ push_unique_path paths p ↔ q ∈ paths ∨ q = p.
Proof.
  unfold push_unique_path. destruct (existsb _ paths) eqn:E; [|set_solver].
  apply existsb_exists in E as (x & Hx & ->%bool_decide_eq_true). rewrite <- list_elem_of_In in Hx.
  naive_solver.
Qed.

Lemma foldl_push_unique paths l q : q ∈ foldl push_unique_path paths l ↔ q ∈ paths ∨ q ∈ l.
Proof.
  revert paths. induction l as [|x l IH]; intros paths; simpl; [set_solver|].
  rewrite IH, push_unique_elem. set_solver.
Qed.

(** The roots a set of grants adds: [Write] grants to both lists, [Read] and
    [ExecCwd] grants to the readable roots. *)
Definition grants_read (g : SandboxPermissionGrant) : bool := allows g Read.
Definition grants_write (g : SandboxPermissionGrant) : bool := allows g Write.

Lemma merge_grants_elem gs : ∀ readable writable q,
  (q ∈ (merge_grants_into_roots readable writable gs).1 ↔
   q ∈ readable ∨ ∃ g, g ∈ gs ∧ grants_read g = true ∧ grant_path g = q) ∧
  (q ∈ (merge_grants_into_roots readable writable gs).2 ↔
   q ∈ writable ∨ ∃ g, g ∈ gs ∧ grants_write g = true ∧ grant_path g = q).
Proof.
  unfold merge_grants_into_roots.
  induction gs as [|g gs IH]; intros readable writable q; cbn [foldl]; [set_solver|].
  assert (∀ P : SandboxPermissionGrant → Prop,
    (∃ g', g' ∈ g :: gs ∧ P g') ↔ P g ∨ ∃ g', g' ∈ gs ∧ P g') as Hcons.
  { intros P. setoid_rewrite elem_of_cons. naive_solver. }
  rewrite !Hcons. destruct g as [gid cap gp].
  unfold grants_read, grants_write, allows, merge_grant; cbn [grant_capability grant_path].
  destruct cap; cbn -[push_unique_path];
    destruct (IH (push_unique_path readable gp) (push_unique_path writable gp) q) as [H1 H2];
    destruct (IH (push_unique_path readable gp) writable q) as [H3 H4];
    destruct (IH readable writable q) as [H5 H6];
    rewrite ?push_unique_elem in *; unfold grants_read, grants_write, allows in *;
    split; first [rewrite H1|rewrite H2|rewrite H3|rewrite H4|rewrite H5|rewrite H6]; naive_solver.
Qed.

Section PolicyLaws.
Context `{FS : FileSystem} {Laws : FileSystemLaws FS}.

Lemma normalize_for_read_ok p q :
  wf_path p → normalize_for_read p = Ok q → normalized q ∧ normalize_for_read q = Ok q.
Proof using Laws.
  intros Hp. unfold normalize_for_read.
  destruct (normalize_absolute_host_path p) as [n|] eqn:En; [|done]. cbn [Result.bind].
  apply normalize_wf in En; [|done]. destruct (canonicalize n) as [c|] eqn:Ec.
  - pose proof (canonicalize_normalized _ _ Ec) as Hc. rewrite normalize_id by done.
    intros [= <-]. split; [done|]. rewrite normalize_id by done. cbn [Result.bind].
    rewrite (canonicalize_idem _ _ Ec). by apply normalize_id.
  - intros [= <-]. split; [done|]. rewrite normalize_id by done. cbn [Result.bind]. by rewrite Ec.
Qed.

Lemma normalized_cases n :
  normalized n → n = root_path ∨
  ∃ d name, n = d ++ [Normal name] ∧ normalized d ∧ valid_part name ∧
            Path.parent n = Some d ∧ Path.file_name n = Some name.
Proof using.
  intros (parts & -> & Hv). destruct (decide (parts = [])) as [->|Hne]; [by left|right].
  destruct (exists_last Hne) as (st & s & ->). apply Forall_app in Hv as [Hst Hs].
  apply Forall_cons in Hs as [Hs _]. exists (abs_path st), s. rewrite parent_abs_path, abs_path_snoc.
  split; [done|]. split; [by exists st|]. split; [exact Hs|]. split; [reflexivity|].
  unfold Path.file_name. by rewrite last_snoc.
Qed.

Lemma entry_normalized d name : normalized d → valid_part name → normalized (d ++ [Normal name]).
Proof using.
  intros (parts & -> & Hv) Hn. exists (parts ++ [name]). rewrite abs_path_snoc.
  split; [done|]. apply Forall_app. by rewrite Forall_singleton.
Qed.

Lemma normalize_for_write_ok p q :
  wf_path p → normalize_for_write p = Ok q → normalized q ∧ normalize_for_write q = Ok q.
Proof using Laws.
  intros Hp. unfold normalize_for_write at 1.
  destruct (normalize_absolute_host_path p) as [n|] eqn:En; [|done]. cbn [Result.bind].
  apply normalize_wf in En; [|done]. destruct (canonicalize n) as [c|] eqn:Ec.
  { pose proof (canonicalize_normalized _ _ Ec) as Hc. rewrite normalize_id by done.
    intros [= <-]. split; [done|]. unfold normalize_for_write. rewrite normalize_id by done.
    cbn [Result.bind]. rewrite (canonicalize_idem _ _ Ec). by apply normalize_id. }
  assert (normalize_for_write n = Ok n → ∀ q, Ok n = @Ok Path OperationError q →
          normalized q ∧ normalize_for_write q = Ok q) as Hsame.
  { by intros Hn q' [= <-]. }
  destruct (normalized_cases n En) as [->|(d & name & -> & Hd & Hname & Epar & Efile)].
  { apply Hsame. unfold normalize_for_write. rewrite normalize_id by done. simpl. by rewrite Ec. }
  rewrite Epar, Efile. destruct (canonicalize d) as [c|] eqn:Ecd.
  - assert (normalized (c ++ [Normal name])) as Hcn.
    { apply entry_normalized; [|done]. by eapply canonicalize_normalized. }
    assert (Path.join c [Normal name] = c ++ [Normal name]) as ->.
    { pose proof (canonicalize_normalized _ _ Ecd) as (ps & -> & _). done. }
    rewrite normalize_id by done. intros [= <-]. split; [done|].
    unfold normalize_for_write. rewrite normalize_id by done. cbn [Result.bind].
    rewrite <- (canonicalize_entry _ _ _ Ecd), Ec.
    destruct (normalized_cases _ Hcn) as [Hr|(d' & name' & E & _ & _ & -> & ->)].
    { apply (f_equal length) in Hr. pose proof (canonicalize_normalized _ _ Ecd) as (ps & -> & _).
      rewrite length_app in Hr. simpl in Hr. lia. }
    apply app_inj_tail in E as [<- [= <-]]. rewrite (canonicalize_idem _ _ Ecd).
    pose proof (canonicalize_normalized _ _ Ecd) as (ps & -> & _).
    change (Path.join (abs_path ps) [Normal name]) with (abs_path ps ++ [Normal name]).
    by apply normalize_id.
  - apply Hsame. unfold normalize_for_write. rewrite normalize_id by done. cbn [Result.bind].
    by rewrite Ec, Epar, Ecd.
Qed.

(** ** The checks, in terms of the effective roots *)

(** The roots that hold once the live grants are folded in. *)
Definition effective_roots (pol : LocalBackendPolicy) (config : PathIsolationConfig) :
    list Path * list Path :=
  merge_grants_into_roots (readable_roots config) (writable_roots config) (active_grants pol).

Definition covered (roots : list Path) (p : Path) : Prop := ∃ r, r ∈ roots ∧ r `prefix_of` p.

Lemma within_or_granted_spec pol roots q cap :
  poisoned pol = false →
  ∃ b, within_roots_or_granted pol roots q cap = Ok b ∧
    (b = true ↔ covered roots q ∨
       ∃ g, g ∈ active_grants pol ∧ allows g cap = true ∧ grant_path g `prefix_of` q).
Proof using.
  intros Hp. unfold within_roots_or_granted, is_granted, lock_grants, active_grants. rewrite Hp.
  cbn [Result.bind]. destruct (existsb (path_is_within q) roots) eqn:Er.
  - exists true. split; [done|]. apply exists_within in Er.
    split; [by left|done].
  - eexists. split; [done|]. rewrite existsb_exists. setoid_rewrite andb_true_iff.
    setoid_rewrite within_iff. setoid_rewrite <- list_elem_of_In.
    split; [intros (g & ? & ? & ?); right; by exists g|].
    intros [Hc|(g & ? & ? & ?)]; [|by exists g]. apply exists_within in Hc. congruence.
Qed.

(** The [Read] and [Write] checks ask whether the path lies under an effective
    root. *)
Lemma effective_read pol config q :
  poisoned pol = false →
  ∃ b, within_roots_or_granted pol (readable_roots config) q Read = Ok b ∧
       (b = true ↔ covered (effective_roots pol config).1 q).
Proof using.
  intros Hp. destruct (within_or_granted_spec pol (readable_roots config) q Read Hp) as (b & Hb & Hiff).
  exists b. split; [done|]. rewrite Hiff. unfold covered, effective_roots.
  setoid_rewrite (λ q, proj1 (merge_grants_elem (active_grants pol) (readable_roots config)
                                (writable_roots config) q)).
  unfold grants_read. naive_solver.
Qed.

Lemma effective_write pol config q :
  poisoned pol = false →
  ∃ b, within_roots_or_granted pol (writable_roots config) q Write = Ok b ∧
       (b = true ↔ covered (effective_roots pol config).2 q).
Proof using.
  intros Hp. destruct (within_or_granted_spec pol (writable_roots config) q Write Hp) as (b & Hb & Hiff).
  exists b. split; [done|]. rewrite Hiff. unfold covered, effective_roots.
  setoid_rewrite (λ q, proj2 (merge_grants_elem (active_grants pol) (readable_roots config)
                                (writable_roots config) q)).
  unfold grants_write. naive_solver.
Qed.

(** ** Grants *)

(** The three checks as one, by capability. *)
Definition check (pol : LocalBackendPolicy) (cap : SandboxPermissionCapability) (p : Path)
    (op : str) : result () OperationError :=
  match cap with
  | Read => check_read pol p op
  | Write => check_write pol p op
  | ExecCwd => check_exec_cwd pol p
  | ExecRuntime => Ok ()
  end.
Definition norm (cap : SandboxPermissionCapability) (p : Path) : result Path OperationError :=
  match cap with Write => normalize_for_write p | _ => normalize_for_read p end.
Definition roots_for (cap : SandboxPermissionCapability) (c : PathIsolationConfig) : list Path :=
  match cap with Write => writable_roots c | _ => readable_roots c end.
Definition op_for (cap : SandboxPermissionCapability) (op : str) : str :=
  match cap with ExecCwd => lit "bash" | _ => op end.

Lemma check_unfold pol cap p op :
  cap ≠ ExecRuntime →
  check pol cap p op =
  match active_path_isolation pol with
  | None => Ok ()
  | Some (name, config) =>
      let? q := norm cap p in
      let? allowed := within_roots_or_granted pol (roots_for cap config) q cap in
      if (allowed : bool) then Ok () else Err (sandbox_denial name (op_for cap op) cap q)
  end.
Proof using. by destruct cap. Qed.

Lemma norm_ok cap p q : wf_path p → norm cap p = Ok q → normalized q ∧ norm cap q = Ok q.
Proof using Laws. destruct cap; simpl; eauto using normalize_for_read_ok, normalize_for_write_ok. Qed.

Lemma normalize_err p e : wf_path p → normalize_absolute_host_path p = Err e → ∃ m, e = InvalidPath m.
Proof using.
  intros Hp. destruct p as [|[| | |s] p]; try (intros [= <-]; by eexists).
  rewrite normalize_scan by done. destruct (scan p). case_decide; [done|].
  intros [= <-]. by eexists.
Qed.

(** A path is refused only when its text is. *)
Lemma norm_err cap p e : wf_path p → norm cap p = Err e → normalize_absolute_host_path p = Err e.
Proof using Laws.
  intros Hp. unfold norm, normalize_for_read, normalize_for_write.
  destruct (normalize_absolute_host_path p) as [n|e'] eqn:En; [|by destruct cap].
  cbn [Result.bind]. apply normalize_wf in En; [|done].
  destruct (canonicalize n) as [c|] eqn:Ec.
  { rewrite normalize_id by (by eapply canonicalize_normalized). by destruct cap. }
  destruct (normalized_cases n En) as [->|(dir & name & -> & Hd & Hname & -> & ->)]; [by destruct cap|].
  destruct (canonicalize dir) as [c|] eqn:Ecd; [|by destruct cap]. destruct cap; try done.
  pose proof (canonicalize_normalized _ _ Ecd) as Hc. destruct (Hc) as (ps & -> & _).
  change (Path.join (abs_path ps) [Normal name]) with (abs_path ps ++ [Normal name]).
  by rewrite normalize_id by (by apply entry_normalized).
Qed.

Lemma check_denied pol cap p op d :
  wf_path p → poisoned pol = false → check pol cap p op = Err (SandboxPolicyDenied d) →
  ∃ name config q, cap ≠ ExecRuntime ∧ active_path_isolation pol = Some (name, config) ∧
    norm cap p = Ok q ∧ SandboxPolicyDenied d = sandbox_denial name (op_for cap op) cap q.
Proof using Laws.
  intros Hp Hpo Hc. destruct (decide (cap = ExecRuntime)) as [->|Hcap]; [done|].
  rewrite check_unfold in Hc by done.
  destruct (active_path_isolation pol) as [[name config]|]; [|done].
  destruct (norm cap p) as [q|e] eqn:En; simpl in Hc; [|].
  2: { apply norm_err in En; [|done]. apply normalize_err in En as [m ->]; done. }
  destruct (within_or_granted_spec pol (roots_for cap config) q cap Hpo) as (b & Hb & _).
  rewrite Hb in Hc. simpl in Hc. destruct b; [done|]. injection Hc as <-. by exists name, config, q.
Qed.

Lemma grant_root_prefix q : normalized q → write_grant_root q `prefix_of` q.
Proof using.
  intros Hq. unfold write_grant_root. destruct (is_dir q); [done|].
  destruct (normalized_cases q Hq) as [->|(dir & name & -> & _ & _ & -> & _)]; [done|].
  case_bool_decide; [done|]. by exists [Normal name].
Qed.

(** The live grants have positive ids up to the last one handed out. *)
Definition store_inv (s : GrantStore) : Prop :=
  0 ≤ next_id s ∧ NoDup (grant_id <$> store_grants s) ∧
  Forall (fun g => 0 < grant_id g ≤ next_id s) (store_grants s).

Lemma revoke_fresh gs g :
  Forall (fun g' => grant_id g' ≠ grant_id g) gs →
  filter (fun g' => grant_id g' ≠ grant_id g) (gs ++ [g]) = gs.
Proof using.
  intros H. rewrite filter_app. rewrite (filter_cons_False _ g []) by tauto.
  change (filter _ []) with (@nil SandboxPermissionGrant). rewrite app_nil_r.
  induction H as [|g' gs' Hg _ IH]; [done|]. rewrite filter_cons_True by done. by rewrite IH.
Qed.

(** Only the isolation, the live grants and the state of the lock matter. *)
Lemma check_ext pol pol' cap p op :
  isolation pol' = isolation pol → poisoned pol' = poisoned pol →
  store_grants (grants pol') = store_grants (grants pol) →
  check pol' cap p op = check pol cap p op.
Proof using.
  intros Hi Hpo Hg. destruct (decide (cap = ExecRuntime)) as [->|Hcap]; [done|].
  rewrite !check_unfold by done. unfold active_path_isolation. rewrite Hi.
  unfold within_roots_or_granted, is_granted, lock_grants. rewrite Hpo.
  destruct (isolation pol); destruct (poisoned pol); simpl; rewrite ?Hg; done.
Qed.
End PolicyLaws.

(** ** Policies over time *)

(** Roots and grants hold normalized paths. *)
Definition policy_normal (pol : LocalBackendPolicy) : Prop :=
  (∀ name c, active_path_isolation pol = Some (name, c) →
     Forall normalized (readable_roots c) ∧ Forall normalized (writable_roots c)) ∧
  Forall (fun g => grant_capability g = ExecRuntime ∨ normalized (grant_path g))
         (store_grants (grants pol)).

Lemma effective_roots_normal pol name c :
  policy_normal pol → active_path_isolation pol = Some (name, c) →
  Forall normalized (effective_roots pol c).1 ∧ Forall normalized (effective_roots pol c).2.
Proof.
  intros [Hroots Hg] Ha. destruct (Hroots _ _ Ha) as [Hr Hw].
  assert (∀ g cap, g ∈ active_grants pol → cap ≠ ExecRuntime → allows g cap = true →
    normalized (grant_path g)) as Hgp.
  { intros g cap Hin Hcap Hal. unfold active_grants in Hin. destruct (poisoned pol); [set_solver|].
    eapply Forall_forall in Hg as [He|?]; [|done|exact Hin]. unfold allows in Hal. rewrite He in Hal.
    destruct cap; done. }
  split; apply Forall_forall; intros q Hq;
    [apply (proj1 (merge_grants_elem (active_grants pol) _ _ q)) in Hq as [Hq|(g & Hin & Hal & <-)]
    |apply (proj2 (merge_grants_elem (active_grants pol) _ _ q)) in Hq as [Hq|(g & Hin & Hal & <-)]].
  - by eapply Forall_forall in Hr.
  - by apply (Hgp g Read).
  - by eapply Forall_forall in Hw.
  - by apply (Hgp g Write).
Qed.


(** Every configured writable root is readable. *)
Definition roots_nested (pol : LocalBackendPolicy) : Prop :=
  ∀ name c, active_path_isolation pol = Some (name, c) → writable_roots c ⊆ readable_roots c.

Lemma effective_nested pol name c :
  roots_nested pol → active_path_isolation pol = Some (name, c) →
  (effective_roots pol c).2 ⊆ (effective_roots pol c).1.
Proof.
  intros Hn Ha q Hq. unfold effective_roots in *.
  apply (proj2 (merge_grants_elem _ _ _ _)) in Hq. apply (proj1 (merge_grants_elem _ _ _ _)).
  destruct Hq as [Hq|(g & Hin & Hw & <-)]; [left; by eapply Hn|right].
  exists g. split_and!; [done| |done]. unfold grants_read, grants_write, allows in *.
  by destruct (grant_capability g).
Qed.

Section Runs.
Context `{FS : FileSystem} {Laws : FileSystemLaws FS}.

(** The states of a policy: built from options, then changed by [n] grants and
    revocations with arbitrary arguments. *)
Inductive policy_run (host : Host) (options : option LocalIsolationOptions) (ws tmp : Path) :
    nat → LocalBackendPolicy → Prop :=
| run_built pol : from_isolation_options host options ws tmp = Ok pol →
    policy_run host options ws tmp 0 pol
| run_grant n pol request r pol' : policy_run host options ws tmp n pol →
    grant pol request = (r, pol') → policy_run host options ws tmp (S n) pol'
| run_revoke n pol id r pol' : policy_run host options ws tmp n pol →
    revoke pol id = (r, pol') → policy_run host options ws tmp (S n) pol'.

Lemma normalize_build_path_ok field p q :
  wf_path p → normalize_build_path field p = Ok q → normalized q.
Proof using Laws.
  intros Hp H. unfold normalize_build_path in H. inv_ok.
  match goal with H : normalize_absolute_host_path p = Ok _ |- _ =>
    apply normalize_wf in H; [|done] end.
  destruct (canonicalize v) eqn:Ec; simpl; [by eapply canonicalize_normalized|done].
Qed.

Lemma normalize_build_roots_ok field roots qs :
  normalize_build_roots field roots = Ok qs → Forall normalized qs.
Proof using Laws.
  unfold normalize_build_roots. revert qs. induction roots as [|r roots IH]; intros qs H.
  - simpl in H. inv_ok. constructor.
  - rewrite fmap_cons in H. cbn [Result.collect] in H. inv_ok. constructor; [|by apply IH].
    eapply normalize_build_path_ok; [|eassumption]; apply new_wf.
Qed.

Lemma build_config_ok net readable writable ws tmp c :
  wf_path ws → wf_path tmp →
  build_path_isolation_config net readable writable ws tmp = Ok c →
  Forall normalized (readable_roots c) ∧ Forall normalized (writable_roots c) ∧
  writable_roots c ⊆ readable_roots c.
Proof using Laws.
  intros Hws Htmp H. unfold build_path_isolation_config in H.
  apply bind_ok_inv in H as (r & Hr & H). apply bind_ok_inv in H as (w & Hw & H). injection H as <-.
  assert (Forall normalized r) as Nr.
  { destruct readable; [|by eapply normalize_build_roots_ok]. inv_ok. constructor; [|done].
    eapply normalize_build_path_ok; [|eassumption]; done. }
  assert (Forall normalized w) as Nw.
  { destruct writable; [|by eapply normalize_build_roots_ok]. inv_ok.
    apply Forall_cons; split; [|apply Forall_cons; split; [|done]];
      (eapply normalize_build_path_ok; [|eassumption]; done). }
  simpl. split_and!; [|done|].
  - apply Forall_forall. intros q [Hq|Hq]%foldl_push_unique;
      [by eapply Forall_forall in Nr|by eapply Forall_forall in Nw].
  - intros q Hq. apply foldl_push_unique. by right.
Qed.

Definition policy_inv (n : nat) (pol : LocalBackendPolicy) : Prop :=
  policy_normal pol ∧ roots_nested pol ∧ poisoned pol = false ∧
  store_inv (grants pol) ∧ next_id (grants pol) ≤ Z.of_nat n.

Lemma from_options_inv host options ws tmp pol :
  wf_path ws → wf_path tmp → from_isolation_options host options ws tmp = Ok pol →
  policy_inv 0 pol.
Proof using Laws.
  intros Hws Htmp H.
  assert (∀ i, (∀ name c, active_path_isolation (fresh_policy i) = Some (name, c) →
      Forall normalized (readable_roots c) ∧ Forall normalized (writable_roots c) ∧
      writable_roots c ⊆ readable_roots c) → policy_inv 0 (fresh_policy i)) as Hfresh.
  { intros i Hi. split; [|split; [|split; [|split]]]; try done.
    - split; [|constructor]. intros name c Ha. by destruct (Hi name c Ha) as (? & ? & _).
    - intros name c Ha. by destruct (Hi name c Ha) as (_ & _ & ?).
    - split; [done|]. split; [constructor|constructor]. }
  destruct options as [[net r w|net r w|net r w nl]|]; simpl in H.
  4: { injection H as <-. by apply Hfresh. }
  1: destruct (negb (target_macos host)); [done|].
  2, 3: destruct (negb (target_linux host)); [done|].
  2: destruct (negb (bubblewrap_available host)); [done|].
  3: destruct (negb (linux_dynsandbox_available host)); [done|].
  all: apply bind_ok_inv in H as (c & Hc & H); injection H as <-.
  all: apply Hfresh; intros name c' Ha; simplify_eq Ha; intros _ <-;
    exact (build_config_ok _ _ _ _ _ _ Hws Htmp Hc).
Qed.

Lemma write_grant_root_normalized q : normalized q → normalized (write_grant_root q).
Proof using.
  intros Hq. unfold write_grant_root. destruct (is_dir q); [done|].
  destruct (normalized_cases q Hq) as [->|(dir & name & -> & Hd & _ & -> & _)]; [done|].
  by case_bool_decide.
Qed.

Lemma grant_inv n pol request r pol' :
  Z.of_nat (S n) ≤ Word.usize_max → policy_inv n pol → grant pol request = (r, pol') →
  policy_inv (S n) pol'.
Proof using Laws.
  intros Hlt Hinv Hg. assert (policy_inv (S n) pol) as Hkeep.
  { destruct Hinv as (? & ? & ? & ? & ?). split_and!; try done. lia. }
  destruct Hinv as ([Hroots Hgn] & Hnest & Hpo & (H0 & Hnd & Hall) & Hle).
  unfold grant in Hg. case_match; [by injection Hg as _ <-|].
  destruct (match denial_capability (request_denial request) with
            | Read | ExecCwd => _ | Write => _ | ExecRuntime => _ end) as [path|] eqn:Epath;
    [|by injection Hg as _ <-].
  unfold lock_grants in Hg. rewrite Hpo in Hg. injection Hg as _ <-.
  rewrite Word.add_id by (unfold Word.in_usize; lia).
  assert (denial_capability (request_denial request) = ExecRuntime ∨ normalized path) as Hpath.
  { destruct (denial_capability (request_denial request)); auto; right.
    - by eapply normalize_for_read_ok; [apply new_wf|].
    - destruct (normalize_for_write _) as [q|] eqn:Eq; [|done]. injection Epath as <-.
      apply write_grant_root_normalized. by eapply normalize_for_write_ok; [apply new_wf|].
    - by eapply normalize_for_read_ok; [apply new_wf|]. }
  split; [split; [done|]|split; [done|split; [done|split; [split; [|split]|]]]]; simpl.
  - apply Forall_app. split; [done|]. by apply Forall_cons.
  - lia.
  - rewrite fmap_app. apply NoDup_app. split; [done|]. split; [|apply NoDup_singleton].
    intros x (g & -> & Hin)%list_elem_of_fmap Hx%list_elem_of_singleton. simpl in Hx.
    eapply Forall_forall in Hall; [|exact Hin]. simpl in Hall. lia.
  - apply Forall_app. split; [|apply Forall_cons; simpl; split; [lia|done]].
    eapply Forall_impl; [exact Hall|]. simpl. intros. lia.
  - lia.
Qed.

Lemma revoke_inv n pol id r pol' :
  policy_inv n pol → revoke pol id = (r, pol') → policy_inv (S n) pol'.
Proof using.
  intros ([Hroots Hgn] & Hnest & Hpo & (H0 & Hnd & Hall) & Hle) H.
  unfold revoke, lock_grants in H. rewrite Hpo in H. injection H as _ <-.
  assert (∀ P, Forall P (store_grants (grants pol)) →
    Forall P (filter (fun g => grant_id g ≠ id) (store_grants (grants pol)))) as Hf.
  { intros P HP. apply Forall_forall. intros g [_ Hin]%list_elem_of_filter.
    by eapply Forall_forall in HP. }
  split; [split; [done|by apply Hf]|split; [done|split; [done|split; [split; [|split]|]]]]; simpl.
  - done.
  - by apply NoDup_fmap_filter.
  - by apply Hf.
  - lia.
Qed.
End Runs.

(** A concrete file system: every normalized path exists except entries called
    "new", "/link" is a link to "/ws", and names without a dot but
    "bwrap" are directories. *)
Module DemoFs.
Definition follow (p : Path) : Path :=
  match p with
  | RootDir :: Normal s :: r => if decide (s = lit "link") then RootDir :: Normal (lit "ws") :: r else p
  | _ => p
  end.
Definition present (p : Path) : bool := bool_decide (last p ≠ Some (Normal (lit "new"))).
Definition dirlike (p : Path) : bool :=
  match last p with
  | Some (Normal s) => negb (contains_char 46%N s) && negb (bool_decide (s = lit "bwrap"))
  | _ => true
  end.

#[global] Instance fs : FileSystem := {|
  canonicalize p := if is_normalized p && present p then Some (follow p) else None;
  path_exists := present;
  is_dir p := present p && dirlike p;
  is_file p := present p && negb (dirlike p);
|}.

Lemma follow_spec p : is_normalized p = true →
  is_normalized (follow p) = true ∧ follow (follow p) = follow p ∧
  (present p = true → present (follow p) = true) ∧
  ∀ n, follow (p ++ [Normal n]) = follow (follow p ++ [Normal n]).
Proof.
  intros Hn. destruct p as [|[| | |s] p]; try done. destruct p as [|[| | |s] p]; try done.
  simpl follow. case_decide as Hs.
  - subst. split_and!; [|done| |done].
    + by simpl in *.
    + unfold present. rewrite !bool_decide_eq_true. intros H. destruct p; [done|exact H].
  - simpl. rewrite decide_False by done. split_and!; [done..|]. intros n.
    by rewrite decide_False.
Qed.

#[global] Instance laws : FileSystemLaws fs.
Proof.
  constructor; simpl; intros p q; destruct (is_normalized p && present p) eqn:E; try done;
    apply andb_true_iff in E as [Hn Hp]; destruct (follow_spec p Hn) as (H1 & H2 & H3 & H4).
  - intros [= <-]. by apply is_normalized_spec.
  - intros [= <-]. by rewrite H1, H3, H2.
  - intros name [= <-]. rewrite H4.
    assert (∀ x, is_normalized x = true → is_normalized (x ++ [Normal name]) = name_ok (Normal name)) as Hx.
    { intros x Hx. destruct x as [|[] x]; try done. simpl in *.
      rewrite forallb_app, Hx. simpl. by rewrite andb_true_r. }
    rewrite (Hx p Hn), (Hx (follow p) H1). unfold present. by rewrite !last_snoc.
Qed.
End DemoFs.

(** ** Properties *)

(** A permission round trip: when a check refuses an operation on a path,
    a grant built from the very denial it returned succeeds with an id no live
    grant has, the same check then passes, and revoking that id leaves exactly
    the grants there were before, so the same denial comes back. *)
Theorem grant_revoke_round_trip `{FS : FileSystem} {Laws : FileSystemLaws FS}
    pol cap p op d scope :
  poisoned pol = false → store_inv (grants pol) → next_id (grants pol) < Word.usize_max →
  wf_path p → check pol cap p op = Err (SandboxPolicyDenied d) →
  ∃ id pol', grant pol {| request_denial := d; request_scope := scope |} = (Ok id, pol') ∧
    store_inv (grants pol') ∧ id ∉ grant_id <$> store_grants (grants pol) ∧
    check pol' cap p op = Ok () ∧
    ∃ pol'', revoke pol' id = (Ok (), pol'') ∧
      store_grants (grants pol'') = store_grants (grants pol) ∧
      check pol'' cap p op = Err (SandboxPolicyDenied d).
Proof.
  intros Hpo (Hn0 & Hnd & Hall) Hlt Hp Hc.
  destruct (check_denied pol cap p op d Hp Hpo Hc) as (name & config & q & Hcap & Ha & Hq & Hd).
  destruct (norm_ok cap p q Hp Hq) as [Hqn Hqq]. injection Hd as ->.
  set (id := Word.add (next_id (grants pol)) 1).
  assert (id = next_id (grants pol) + 1) as Eid by (apply Word.add_id; unfold Word.in_usize; lia).
  set (gp := match cap with Write => write_grant_root q | _ => q end).
  set (g := {| grant_id := id; grant_capability := cap; grant_path := gp |}).
  set (pol' := set_grants pol {| next_id := id; store_grants := store_grants (grants pol) ++ [g] |}).
  assert (Forall (fun g' => grant_id g' ≠ id) (store_grants (grants pol))) as Hfresh.
  { eapply Forall_impl; [exact Hall|]. simpl. intros. lia. }
  assert (gp `prefix_of` q) as Hpre.
  { unfold gp. destruct cap; auto using grant_root_prefix. }
  assert (store_inv (grants pol')) as Hinv'.
  { split; [simpl; lia|]. split; simpl.
    - rewrite fmap_app. apply NoDup_app. split_and!; [done| |apply NoDup_singleton].
      intros x (g' & -> & Hg')%list_elem_of_fmap Hx%list_elem_of_singleton.
      eapply Forall_forall in Hfresh; [|exact Hg']. done.
    - apply Forall_app. split; [|apply Forall_cons; split; [simpl; lia|done]].
      eapply Forall_impl; [exact Hall|]. simpl. intros. lia. }
  exists id, pol'. split; [|split; [exact Hinv'|split; [|split]]].
  - unfold grant. simpl. rewrite bool_decide_false by done. simpl.
    rewrite new_display by done. unfold lock_grants. rewrite Hpo. unfold pol', g, gp.
    destruct cap; try done; simpl in Hqq; rewrite Hqq; done.
  - intros (g' & E & Hg')%list_elem_of_fmap. eapply Forall_forall in Hfresh; [|exact Hg']. done.
  - rewrite check_unfold by done. unfold active_path_isolation in *.
    change (isolation pol') with (isolation pol). rewrite Ha, Hq. cbn [Result.bind].
    destruct (within_or_granted_spec pol' (roots_for cap config) q cap Hpo) as (b & -> & Hb).
    cbn [Result.bind]. destruct b; [done|]. exfalso. apply diff_false_true, Hb. right.
    exists g. unfold active_grants. change (poisoned pol') with (poisoned pol). rewrite Hpo.
    simpl. split_and!; [set_solver| |done]. unfold allows. simpl.
    destruct cap; try done; by apply bool_decide_eq_true.
  - pose proof (revoke_fresh _ g Hfresh) as Ef. eexists. split.
    { unfold revoke, lock_grants. change (poisoned pol') with (poisoned pol). rewrite Hpo. reflexivity. }
    split; [exact Ef|]. rewrite <- Hc. by apply check_ext.
Qed.

(** A bubblewrap policy with one read-only root and one writable root. *)
Definition demo_host : Host :=
  {| target_macos := false; target_linux := true; path_var := Some [Path.new (lit "/usr/bin")] |}.
Definition demo_config : PathIsolationConfig :=
  {| allow_network := false;
     readable_roots := [Path.new (lit "/ro"); Path.new (lit "/ws/out")];
     writable_roots := [Path.new (lit "/ws/out")] |}.
Definition demo_policy : LocalBackendPolicy := fresh_policy (LinuxBubblewrap demo_config).
Definition demo_denial : SandboxPolicyDenial :=
  {| denial_backend_id := lit "local"; denial_isolation := lit "linux_bubblewrap";
     denial_operation := lit "file_write"; denial_capability := Write;
     denial_path := lit "/ws/src/new" |}.

Lemma grant_revoke_round_trip_witness :
  check demo_policy Write (Path.new (lit "/link/src/new")) (lit "file_write")
    = Err (SandboxPolicyDenied demo_denial) ∧
  ∃ id pol', grant demo_policy {| request_denial := demo_denial; request_scope := Once |} = (Ok id, pol') ∧
    check pol' Write (Path.new (lit "/link/src/new")) (lit "file_write") = Ok ().
Proof.
  assert (check demo_policy Write (Path.new (lit "/link/src/new")) (lit "file_write")
          = Err (SandboxPolicyDenied demo_denial)) as Hc by (vm_compute; reflexivity).
  split; [exact Hc|].
  destruct (grant_revoke_round_trip demo_policy Write (Path.new (lit "/link/src/new"))
              (lit "file_write") demo_denial Once) as (id & pol' & Hg & _ & _ & Hok & _).
  - reflexivity.
  - split; [done|]. split; constructor.
  - reflexivity.
  - apply new_wf.
  - exact Hc.
  - exists id, pol'. split; [exact Hg|exact Hok].
Defined.

(** C40: The policy is well formed in every state a session can bring it to.
    Whatever the options, the host and the directories, and after any sequence
    of grants and revocations with any arguments (fewer than 2^64 of them):
    every root and every path grant is a normalized absolute path, every
    writable root is readable, also after the grants are folded in, and the live
    grants have distinct ids. *)
Theorem policy_run_inv `{FS : FileSystem} {Laws : FileSystemLaws FS} host options ws tmp n pol :
  wf_path ws → wf_path tmp → Z.of_nat n ≤ Word.usize_max →
  policy_run host options ws tmp n pol →
  policy_inv n pol ∧
  (∀ name c, active_path_isolation pol = Some (name, c) →
     Forall normalized (effective_roots pol c).1 ∧
     (effective_roots pol c).2 ⊆ (effective_roots pol c).1).
Proof.
  intros Hws Htmp Hn Hrun.
  assert (policy_inv n pol) as Hinv.
  { induction Hrun as [pol H|n pol request r pol' _ IH H|n pol id r pol' _ IH H].
    - exact (from_options_inv _ _ _ _ _ Hws Htmp H).
    - eapply grant_inv; [done| |done]. apply IH. lia.
    - eapply revoke_inv; [|done]. apply IH. lia. }
  split; [done|]. destruct Hinv as (Hnorm & Hnest & _). intros name c Ha.
  split; [by eapply effective_roots_normal|by eapply effective_nested].
Qed.

Lemma policy_run_inv_witness :
  ∃ pol, policy_run demo_host (Some (OptLinuxBubblewrap false [] [])) (Path.new (lit "/link"))
           (Path.new (lit "/tmp")) 0 pol ∧ policy_inv 0 pol.
Proof.
  eexists. assert (policy_run demo_host (Some (OptLinuxBubblewrap false [] []))
    (Path.new (lit "/link")) (Path.new (lit "/tmp")) 0
    (fresh_policy (LinuxBubblewrap
       {| allow_network := false;
          readable_roots := [Path.new (lit "/ws"); Path.new (lit "/tmp")];
          writable_roots := [Path.new (lit "/ws"); Path.new (lit "/tmp")] |}))) as Hrun.
  { apply run_built. vm_compute. reflexivity. }
  split; [exact Hrun|].
  apply (policy_run_inv demo_host (Some (OptLinuxBubblewrap false [] [])) (Path.new (lit "/link"))
           (Path.new (lit "/tmp")) 0).
  - apply new_wf.
  - apply new_wf.
  - vm_compute. discriminate.
  - exact Hrun.
Defined.

Section Agreement.
Context `{FS : FileSystem} {Laws : FileSystemLaws FS}.

(** A check gives the same answer on a path and on its normal form. *)
Lemma check_norm pol cap p q op :
  wf_path p → cap ≠ ExecRuntime → norm cap p = Ok q → check pol cap q op = check pol cap p op.
Proof using Laws.
  intros Hp Hcap Hq. destruct (norm_ok cap p q Hp Hq) as [_ Hqq].
  rewrite !check_unfold by done. by rewrite Hq, Hqq.
Qed.

(** Targets the user can be asked about. *)
Definition askable (cap : SandboxPermissionCapability) (q : Path) : bool :=
  match cap with
  | Read => path_exists q && negb (bool_decide (q = root_path))
  | Write => is_authorizable_write_target q
  | ExecCwd => is_dir q && negb (bool_decide (q = root_path))
  | ExecRuntime => false
  end.

Lemma preflight_unfold pol cap p q op :
  wf_path p → cap ≠ ExecRuntime → norm cap p = Ok q →
  sandbox_denial_for_path pol p cap op =
  if askable cap q then sandbox_denial_from_result (check pol cap p op) else Ok None.
Proof using Laws.
  intros Hp Hcap Hq. rewrite <- (check_norm pol cap p q op Hp Hcap Hq).
  destruct cap; try done; simpl in Hq; unfold sandbox_denial_for_path, askable, check;
    rewrite Hq; cbn [Result.bind].
  - by destruct (path_exists q), (bool_decide (q = root_path)).
  - by destruct (is_authorizable_write_target q).
  - by destruct (is_dir q), (bool_decide (q = root_path)).
Qed.
End Agreement.

(** Asking the user first is faithful to the check. For a path capability,
    [sandbox_denial_for_path] reports a denial exactly when the check itself
    would refuse the operation with that very denial and the target is one a
    grant can be given for (an existing path for reading, an existing or
    creatable one for writing, a directory for running in, never the root);
    otherwise it reports none, and it fails only when the path itself is
    refused. *)
Theorem preflight_agrees `{FS : FileSystem} {Laws : FileSystemLaws FS} pol cap p op :
  wf_path p → poisoned pol = false → cap ≠ ExecRuntime →
  match norm cap p with
  | Ok q =>
      (∀ d, sandbox_denial_for_path pol p cap op = Ok (Some d) ↔
            askable cap q = true ∧ check pol cap p op = Err (SandboxPolicyDenied d)) ∧
      (sandbox_denial_for_path pol p cap op = Ok None ↔
       askable cap q = false ∨ check pol cap p op = Ok ())
  | Err e => sandbox_denial_for_path pol p cap op = Err e ∧ ∃ m, e = InvalidPath m
  end.
Proof.
  intros Hp Hpo Hcap. destruct (norm cap p) as [q|e] eqn:Hq.
  - rewrite (preflight_unfold pol cap p q op Hp Hcap Hq).
    assert (check pol cap p op = Ok () ∨ ∃ d, check pol cap p op = Err (SandboxPolicyDenied d)) as Hc.
    { rewrite check_unfold by done. destruct (active_path_isolation pol) as [[name c]|]; [|by left].
      rewrite Hq. cbn [Result.bind].
      destruct (within_or_granted_spec pol (roots_for cap c) q cap Hpo) as ([|] & -> & _);
        [by left|right; by eexists]. }
    destruct (askable cap q), Hc as [->|[d' ->]]; simpl; split; naive_solver.
  - split.
    + destruct cap; try done; simpl in *; by rewrite Hq.
    + apply norm_err in Hq; [|done]. by eapply normalize_err.
Qed.

Lemma preflight_agrees_witness :
  sandbox_denial_for_path demo_policy (Path.new (lit "/link/src/new")) Write (lit "file_write") =
  Ok (Some demo_denial).
Proof.
  pose proof (preflight_agrees demo_policy Write (Path.new (lit "/link/src/new")) (lit "file_write")
                (new_wf _) eq_refl ltac:(discriminate)) as H.
  destruct (norm Write (Path.new (lit "/link/src/new"))) as [q|e] eqn:Eq; [|discriminate Eq].
  apply H. injection Eq as <-. split; vm_compute; reflexivity.
Defined.

(** What may be written may be read, for a path that exists: in every
    well-formed policy state, if [check_write] accepts an existing path then
    [check_read] accepts it too. *)
Theorem write_implies_read `{FS : FileSystem} {Laws : FileSystemLaws FS} n pol p norm_p c op op' :
  policy_inv n pol → wf_path p →
  normalize_absolute_host_path p = Ok norm_p → canonicalize norm_p = Some c →
  check_write pol p op = Ok () → check_read pol p op' = Ok ().
Proof.
  intros (_ & Hnest & Hpo & _) Hp Hn Hc. unfold check_write, check_read.
  destruct (active_path_isolation pol) as [[name config]|] eqn:Ha; [|done].
  assert (normalize_for_write p = Ok c ∧ normalize_for_read p = Ok c) as [-> ->].
  { unfold normalize_for_write, normalize_for_read. rewrite Hn. cbn [Result.bind]. rewrite Hc.
    rewrite normalize_id by (by eapply canonicalize_normalized). done. }
  cbn [Result.bind].
  destruct (effective_write pol config c Hpo) as (w & -> & Hw).
  destruct (effective_read pol config c Hpo) as (r & -> & Hr). cbn [Result.bind].
  destruct w; [|done]. intros _. destruct (proj1 Hw eq_refl) as (root & Hin & Hpre).
  rewrite (proj2 Hr); [done|]. exists root. split; [|done]. by eapply effective_nested.
Qed.

Definition linked_policy : LocalBackendPolicy :=
  fresh_policy (LinuxBubblewrap
    {| allow_network := false;
       readable_roots := [Path.new (lit "/ws"); Path.new (lit "/tmp")];
       writable_roots := [Path.new (lit "/ws"); Path.new (lit "/tmp")] |}).

Lemma write_implies_read_witness :
  check_read linked_policy (Path.new (lit "/link/src")) (lit "stat") = Ok ().
Proof.
  apply (write_implies_read 0 linked_policy (Path.new (lit "/link/src")) (Path.new (lit "/link/src"))
           (Path.new (lit "/ws/src")) (lit "file_write")).
  - apply (from_options_inv demo_host (Some (OptLinuxBubblewrap false [] [])) (Path.new (lit "/link"))
             (Path.new (lit "/tmp"))); [apply new_wf|apply new_wf|vm_compute; reflexivity].
  - apply new_wf.
  - vm_compute. reflexivity.
  - vm_compute. reflexivity.
  - vm_compute. reflexivity.
Defined.

(** For a path that does not exist yet the two checks disagree when the
    workspace is reached through a link: with the workspace given as "/link", a
    link to "/ws", the default policy lets a session write the new file
    "/link/new" but refuses to read (or stat) it, although its directory is
    readable and the same file named "/ws/new" may be read. The read check
    resolves links only in paths that exist, the write check also those of the
    parent directory. *)
Theorem missing_path_read_refused :
  from_isolation_options demo_host (Some (OptLinuxBubblewrap false [] []))
    (Path.new (lit "/link")) (Path.new (lit "/tmp")) = Ok linked_policy ∧
  check_write linked_policy (Path.new (lit "/link/new")) (lit "file_write") = Ok () ∧
  check_read linked_policy (Path.new (lit "/link")) (lit "stat") = Ok () ∧
  check_read linked_policy (Path.new (lit "/ws/new")) (lit "stat") = Ok () ∧
  check_read linked_policy (Path.new (lit "/link/new")) (lit "stat") =
    Err (SandboxPolicyDenied
      {| denial_backend_id := lit "local"; denial_isolation := lit "linux_bubblewrap";
         denial_operation := lit "stat"; denial_capability := Read;
         denial_path := lit "/link/new" |}).
Proof. split_and!; vm_compute; reflexivity. Qed.
