(* ===== verification/Launcher.v ===== *)
(** * Sandbox launchers and command construction of the local backend

    The profiles of crates/operation_backend/src/backends/local/policy.rs
    (seatbelt text, bubblewrap and dyn-sandbox arguments), spawn_wrapper.rs,
    exec/command_spec.rs and the part of exec/mod.rs that turns a request into
    the command to spawn. *)

From S2P Require Import Prelude RStr Message HostPath LocalPolicy.

(** ** Seatbelt *)

Record Profile := {
  profile_readable : list Path;
  profile_writable : list Path;
  profile_network : bool;
}.

Definition from_config_and_grants (config : PathIsolationConfig)
    (gs : list SandboxPermissionGrant) : Profile :=
  let '(readable, writable) :=
    merge_grants_into_roots (readable_roots config) (writable_roots config) gs in
  {| profile_readable := readable; profile_writable := writable;
     profile_network := allow_network config |}.

Definition QUOTE : char := 34%N.
Definition BACKSLASH : char := 92%N.

(** [str::replace] of a character; a backslash is doubled before a quote gets
    one. *)
Definition replace_char (c : char) (by_ : str) (s : str) : str :=
  s ≫= fun x => if (x =? c)%N then by_ else [x].
Definition escape (s : str) : str :=
  replace_char QUOTE [BACKSLASH; QUOTE] (replace_char BACKSLASH [BACKSLASH; BACKSLASH] s).

Definition profile_string (p : Path) : str := [QUOTE] ++ escape (Path.display p) ++ [QUOTE].

Definition quoted (s : str) : str := [QUOTE] ++ s ++ [QUOTE].

Definition read_rule (kind : str) (text : str) : str :=
  lit "(allow file-read* (" ++ kind ++ lit " " ++ text ++ lit "))".
Definition write_rule (kind : str) (text : str) : str :=
  lit "(allow file-write* (" ++ kind ++ lit " " ++ text ++ lit "))".

Definition base_lines : list str :=
  [ lit "(version 1)"; lit "(deny default)"; lit "(allow process*)"; lit "(allow sysctl-read)";
    lit "(allow file-read-metadata)";
    read_rule (lit "subpath") (quoted (lit "/bin"));
    read_rule (lit "subpath") (quoted (lit "/sbin"));
    read_rule (lit "subpath") (quoted (lit "/usr"));
    read_rule (lit "subpath") (quoted (lit "/System"));
    read_rule (lit "subpath") (quoted (lit "/Library/Apple"));
    read_rule (lit "literal") (quoted (lit "/dev/null"));
    write_rule (lit "literal") (quoted (lit "/dev/null")) ].

Definition readable_lines (root : Path) : list str :=
  [ read_rule (lit "literal") (profile_string root); read_rule (lit "subpath") (profile_string root) ].
Definition writable_lines (root : Path) : list str :=
  readable_lines root ++
  [ write_rule (lit "literal") (profile_string root); write_rule (lit "subpath") (profile_string root) ].

Definition profile_lines (p : Profile) : list str :=
  base_lines ++ (profile_readable p ≫= readable_lines) ++ (profile_writable p ≫= writable_lines) ++
  (if profile_network p then [lit "(allow network*)"] else []).
Definition to_profile_text (p : Profile) : str := join [10%N] (profile_lines p).

Definition seatbelt_profile (pol : LocalBackendPolicy) : option Profile :=
  match isolation pol with
  | MacosSeatbelt config =>
      let gs := active_grants pol in
      if has_exec_runtime gs then None else Some (from_config_and_grants config gs)
  | IsolationNone | LinuxBubblewrap _ | LinuxDynsandbox _ => None
  end.

(** ** dyn-sandbox *)

Definition requires_stdin (pol : LocalBackendPolicy) : bool :=
  match isolation pol with LinuxDynsandbox _ => true | _ => false end.

Definition is_member (roots : list Path) (root : Path) : bool :=
  existsb (fun w => bool_decide (w = root)) roots.

Definition linux_dynsandbox_args (pol : LocalBackendPolicy) (cwd : Path) : option (list str) :=
  match isolation pol with
  | LinuxDynsandbox roots =>
      let gs := active_grants pol in
      if has_exec_runtime gs then None
      else
        let '(readable, writable) :=
          merge_grants_into_roots (readable_roots roots) (writable_roots roots) gs in
        Some ((readable ≫= fun root =>
                 if is_member writable root then []
                 else [lit "--mount"; Path.display root ++ lit ":ro"]) ++
              (writable ≫= fun root => [lit "--mount"; Path.display root ++ lit ":rw"]) ++
              [lit "-c"; Path.display cwd])
  | _ => None
  end.

(** ** bubblewrap *)

Record Builder := { b_args : list str; b_dirs : list Path }.
Definition new_builder : Builder := {| b_args := []; b_dirs := [] |}.
Definition arg (b : Builder) (value : str) : Builder :=
  {| b_args := b_args b ++ [value]; b_dirs := b_dirs b |}.

Definition ensure_step (st : Builder * Path) (c : Component) : Builder * Path :=
  let '(b, current) := st in
  let current := Path.push current [c] in
  if bool_decide (current = root_path) then (b, current)
  else if is_member (b_dirs b) current then (b, current)
  else
    let b := arg (arg b (lit "--dir")) (Path.display current) in
    ({| b_args := b_args b; b_dirs := b_dirs b ++ [current] |}, current).
Definition ensure_directory (b : Builder) (dest : Path) : Builder :=
  (foldl ensure_step (b, []) dest).1.

Definition runtime_roots : list str :=
  [lit "/usr"; lit "/bin"; lit "/sbin"; lit "/lib"; lit "/lib64"].
Definition special_roots : list str := [lit "/proc"; lit "/dev"].
Definition etc_roots : list str :=
  [ lit "/etc/ld.so.cache"; lit "/etc/ld.so.conf"; lit "/etc/ld.so.conf.d";
    lit "/etc/nsswitch.conf"; lit "/etc/passwd"; lit "/etc/group"; lit "/etc/hosts";
    lit "/etc/resolv.conf"; lit "/etc/ssl"; lit "/etc/ca-certificates"; lit "/etc/pki";
    lit "/etc/localtime" ].

Section Bubblewrap.
Context `{FS : FileSystem}.

Definition ensure_bind_destination (b : Builder) (source dest : Path) : Builder :=
  ensure_directory b (if is_file source then default root_path (Path.parent dest) else dest).

Definition ro_bind (b : Builder) (source dest : Path) : Builder :=
  let b := ensure_bind_destination b source dest in
  arg (arg (arg b (lit "--ro-bind")) (Path.display source)) (Path.display dest).
Definition rw_bind (b : Builder) (source dest : Path) : Builder :=
  let b := ensure_bind_destination b source dest in
  arg (arg (arg b (lit "--bind")) (Path.display source)) (Path.display dest).

Definition bind_existing (b : Builder) (root : str) : Builder :=
  let path := Path.new root in
  if path_exists path then ro_bind b path path else b.
Definition mount_special (b : Builder) (root : str) : Builder :=
  let path := Path.new root in
  if path_exists path
  then arg (arg b (if decide (root = lit "/proc") then lit "--proc" else lit "--dev"))
           (Path.display path)
  else b.

Definition bind_runtime_roots (b : Builder) : Builder :=
  let b := foldl bind_existing b runtime_roots in
  let b := foldl mount_special b special_roots in
  foldl bind_existing b etc_roots.

Definition to_args (p : Profile) (cwd : Path) : list str :=
  let b := new_builder in
  let b := foldl arg b [lit "--die-with-parent"; lit "--unshare-user"; lit "--unshare-ipc";
                        lit "--unshare-pid"; lit "--unshare-uts"; lit "--unshare-cgroup-try"] in
  let b := if negb (profile_network p) then arg b (lit "--unshare-net") else b in
  let b := bind_runtime_roots b in
  let b := foldl (fun b root => if is_member (profile_writable p) root then b
                                else ro_bind b root root) b (profile_readable p) in
  let b := foldl (fun b root => rw_bind b root root) b (profile_writable p) in
  let b := ensure_directory b cwd in
  let b := arg b (lit "--chdir") in
  let b := arg b (Path.display cwd) in
  b_args b.

Definition bubblewrap_args (pol : LocalBackendPolicy) (cwd : Path) : option (list str) :=
  match isolation pol with
  | LinuxBubblewrap config =>
      let gs := active_grants pol in
      if has_exec_runtime gs then None
      else Some (to_args (from_config_and_grants config gs) cwd)
  | IsolationNone | MacosSeatbelt _ | LinuxDynsandbox _ => None
  end.
End Bubblewrap.

(** ** Spawn wrappers *)

Record SpawnWrapper := { prefix : list str; externalize_fs_writes : bool }.

Definition parse_spawn_wrapper (wrapper : Json) : option SpawnWrapper :=
  match json_get wrapper (lit "prefix") with
  | Some (JArray []) => None
  | Some (JArray elements) =>
      parsed ← mapM as_str elements;
      Some {| prefix := parsed;
              externalize_fs_writes :=
                default false (json_get wrapper (lit "externalize_fs_writes") ≫= as_bool) |}
  | _ => None
  end.

Definition wrapper_step (winner : option SpawnWrapper) (entry : Json) : option SpawnWrapper :=
  match json_get entry (lit "spawn_wrapper") with
  | None => winner
  | Some wrapper =>
      match parse_spawn_wrapper wrapper with
      | Some parsed => match winner with None => Some parsed | Some _ => winner end
      | None => winner
      end
  end.

Definition spawn_wrapper_from_extra (extra : option Json) : option SpawnWrapper :=
  match extra with
  | Some (JArray entries) => foldl wrapper_step None entries
  | _ => None
  end.

(** ** Commands *)

(** The fields of an exec request that decide the command. *)
Record ExecRequest := {
  command : str;
  command_args : list str;
  shell : option str;
  cwd : option BackendPath;
  extra : option Json;
}.

Record LocalCommandSpec := { program : str; spec_args : list str }.

Definition build_command_spec (request : ExecRequest) : result LocalCommandSpec OperationError :=
  match trim (command request) with
  | [] => Err (ExecutionFailed (lit "command cannot be empty"))
  | _ =>
      match shell request with
      | Some shell =>
          match command_args request with
          | [] => Ok {| program := shell; spec_args := [lit "-c"; command request] |}
          | _ => Err (Unsupported (lit "shell execution does not support args"))
          end
      | None => Ok {| program := command request; spec_args := command_args request |}
      end
  end.

(** [std::fs::metadata]: whether the path is a directory, or the error. *)
Inductive IoError :=
| IoNotFound
| IoAlreadyExists
| IoPermissionDenied
| IoOther (text : str).
Class Metadata := { metadata_is_dir : Path → result bool IoError }.

Definition io_error_for_path (path : Path) (error : IoError) : OperationError :=
  match error with
  | IoNotFound => NotFound (Path.display path)
  | IoAlreadyExists => AlreadyExists (Path.display path)
  | IoPermissionDenied => PermissionDenied (Path.display path)
  | IoOther text => Transport (Path.display path ++ lit ": " ++ text)
  end.

(** The program and its arguments handed to the operating system. *)
Abbreviation Command := (str * list str)%type.

Section Commands.
Context `{FS : FileSystem} `{MD : Metadata}.

Definition state_ensure_directory (path : Path) : result () OperationError :=
  let? is_dir := Result.map_err (io_error_for_path path) (metadata_is_dir path) in
  if (is_dir : bool) then Ok () else Err (NotDirectory (Path.display path)).

Definition inner_program_args (request : ExecRequest) (spec : LocalCommandSpec)
    (pol : LocalBackendPolicy) (cwd : option Path) : Command :=
  let plain := (program spec, spec_args spec) in
  match seatbelt_profile pol with
  | Some profile =>
      (lit "sandbox-exec", [lit "-p"; to_profile_text profile] ++ program spec :: spec_args spec)
  | None =>
      match cwd with
      | Some cwd =>
          match linux_dynsandbox_args pol cwd with
          | Some args =>
              (lit "dyn-sandbox", args ++ lit "--" :: program spec :: spec_args spec)
          | None =>
              match bubblewrap_args pol cwd with
              | Some args => (lit "bwrap", args ++ program spec :: spec_args spec)
              | None => plain
              end
          end
      | None => plain
      end
  end.

Definition command_from_spec (request : ExecRequest) (spec : LocalCommandSpec)
    (pol : LocalBackendPolicy) (cwd : option Path) : Command :=
  let inner := inner_program_args request spec pol cwd in
  match spawn_wrapper_from_extra (extra request) with
  | Some wrapper =>
      match prefix wrapper with
      | first :: rest => (first, rest ++ inner.1 :: inner.2)
      | [] => inner
      end
  | None => inner
  end.

(** The command and working directory [spawn_child] spawns. *)
Definition spawn_child_command (st : LocalBackendState) (pol : LocalBackendPolicy)
    (request : ExecRequest) : result (Command * Path) OperationError :=
  let? spec := build_command_spec request in
  let? cwd := match cwd request with
              | Some cwd => backend_path_to_host st cwd
              | None => Ok (workspace_root_host st)
              end in
  let? _ := check_exec_cwd pol cwd in
  let? _ := state_ensure_directory cwd in
  Ok (command_from_spec request spec pol (Some cwd), cwd).
End Commands.

(** ** Seatbelt strings *)

(** How the profile reader takes a quoted string: a backslash makes the next
    character literal, an unescaped quote ends the string. *)
Fixpoint unescape (s : str) : option (str * str) :=
  match s with
  | [] => None
  | c :: s' =>
      if (c =? QUOTE)%N then Some ([], s')
      else if (c =? BACKSLASH)%N then
        match s' with
        | [] => None
        | x :: s'' => '(t, rest) ← unescape s''; Some (x :: t, rest)
        end
      else '(t, rest) ← unescape s'; Some (c :: t, rest)
  end.
Definition read_quoted (s : str) : option (str * str) :=
  match s with
  | c :: s' => if (c =? QUOTE)%N then unescape s' else None
  | [] => None
  end.

Lemma unescape_escape s rest : unescape (escape s ++ QUOTE :: rest) = Some (s, rest).
Proof.
  induction s as [|c s IH]; [done|]. unfold escape, replace_char in *. cbn [mbind list_bind app].
  destruct (N.eqb_spec c BACKSLASH) as [->|Hb].
  - cbn [mbind list_bind app N.eqb]. change (BACKSLASH =? QUOTE)%N with false. cbn [app].
    cbn [unescape]. change (BACKSLASH =? QUOTE)%N with false.
    change (BACKSLASH =? BACKSLASH)%N with true. cbn iota. by rewrite IH.
  - cbn [mbind list_bind app]. destruct (N.eqb_spec c QUOTE) as [->|Hq]; cbn [app unescape].
    + change (BACKSLASH =? QUOTE)%N with false. change (BACKSLASH =? BACKSLASH)%N with true.
      cbn iota. by rewrite IH.
    + destruct (N.eqb_spec c QUOTE); [done|]. destruct (N.eqb_spec c BACKSLASH); [done|].
      by rewrite IH.
Qed.

(** ** What bubblewrap does with the options

    bubblewrap is not part of the program. What is said of it here is what its
    manual page says of the options the program uses: it begins with an empty
    root and processes the options in order; [--ro-bind SRC DEST] and
    [--bind SRC DEST] mount a host path, read-only or read-write, at a path of the
    sandbox, and so do [--proc] and [--dev] with a file system of their own, over
    what was there; [--dir] creates a directory, [--chdir] sets the working
    directory and the other flags mount nothing. *)
Inductive BwrapOption :=
| RoBind (src dest : Path)
| RwBind (src dest : Path)
| MountProc (dest : str)
| MountDev (dest : str)
| MakeDir (dir : str)
| Chdir (dir : str)
| DieWithParent | UnshareUser | UnshareIpc | UnsharePid | UnshareUts | UnshareCgroupTry | UnshareNet.

Definition option_args (o : BwrapOption) : list str :=
  match o with
  | RoBind src dest => [lit "--ro-bind"; Path.display src; Path.display dest]
  | RwBind src dest => [lit "--bind"; Path.display src; Path.display dest]
  | MountProc dest => [lit "--proc"; dest]
  | MountDev dest => [lit "--dev"; dest]
  | MakeDir dir => [lit "--dir"; dir]
  | Chdir dir => [lit "--chdir"; dir]
  | DieWithParent => [lit "--die-with-parent"]
  | UnshareUser => [lit "--unshare-user"]
  | UnshareIpc => [lit "--unshare-ipc"]
  | UnsharePid => [lit "--unshare-pid"]
  | UnshareUts => [lit "--unshare-uts"]
  | UnshareCgroupTry => [lit "--unshare-cgroup-try"]
  | UnshareNet => [lit "--unshare-net"]
  end.

(** What a path of the sandbox shows: a host path, or a file system of its own. *)
Inductive Shown := HostRO (p : Path) | HostRW (p : Path) | SpecialFs.

(** [sandbox_view args q]: what a command that bubblewrap runs with the options
    [args] finds at [q]; [None] where nothing is mounted. *)
Class Bubblewrap := sandbox_view : list str → Path → option Shown.

Definition plain_option (o : BwrapOption) : Prop :=
  match o with RoBind _ _ | RwBind _ _ | MountProc _ | MountDev _ => False | _ => True end.

Class BubblewrapLaws (BW : Bubblewrap) : Prop := {
  bw_empty q : sandbox_view [] q = None;
  bw_ro_bind os src dest q : normalized src → normalized dest →
    sandbox_view (concat (option_args <$> os) ++ option_args (RoBind src dest)) q
    = if decide (dest `prefix_of` q) then Some (HostRO (src ++ drop (length dest) q))
      else sandbox_view (concat (option_args <$> os)) q;
  bw_bind os src dest q : normalized src → normalized dest →
    sandbox_view (concat (option_args <$> os) ++ option_args (RwBind src dest)) q
    = if decide (dest `prefix_of` q) then Some (HostRW (src ++ drop (length dest) q))
      else sandbox_view (concat (option_args <$> os)) q;
  bw_proc os dest q :
    sandbox_view (concat (option_args <$> os) ++ option_args (MountProc dest)) q
    = if decide (Path.new dest `prefix_of` q) then Some SpecialFs
      else sandbox_view (concat (option_args <$> os)) q;
  bw_dev os dest q :
    sandbox_view (concat (option_args <$> os) ++ option_args (MountDev dest)) q
    = if decide (Path.new dest `prefix_of` q) then Some SpecialFs
      else sandbox_view (concat (option_args <$> os)) q;
  bw_plain os o q : plain_option o →
    sandbox_view (concat (option_args <$> os) ++ option_args o) q
    = sandbox_view (concat (option_args <$> os)) q
}.






Section Mounts.
Context `{FS : FileSystem}.










End Mounts.

(** ** What the sandbox shows *)

#[global] Instance covered_dec roots p : Decision (covered roots p).
Proof.
  refine (cast_if (decide (Exists (fun r => r `prefix_of` p) roots))); unfold covered; by rewrite <-Exists_exists.
Defined.

Section View.
Context `{BW : Bubblewrap} {BL : BubblewrapLaws BW}.








End View.


(** A bubblewrap that does what the laws say: it reads its options from the left. *)
Module DemoBwrap.
Fixpoint reads (args : list str) (q : Path) (v : option Shown) : option Shown :=
  match args with
  | [] => v
  | flag :: rest =>
      if decide (flag = lit "--ro-bind") then
        match rest with
        | src :: dest :: rest =>
            reads rest q (if decide (Path.new dest `prefix_of` q)
                          then Some (HostRO (Path.new src ++ drop (length (Path.new dest)) q)) else v)
        | _ => v
        end
      else if decide (flag = lit "--bind") then
        match rest with
        | src :: dest :: rest =>
            reads rest q (if decide (Path.new dest `prefix_of` q)
                          then Some (HostRW (Path.new src ++ drop (length (Path.new dest)) q)) else v)
        | _ => v
        end
      else if decide (flag = lit "--proc" ∨ flag = lit "--dev") then
        match rest with
        | dest :: rest => reads rest q (if decide (Path.new dest `prefix_of` q) then Some SpecialFs else v)
        | _ => v
        end
      else if decide (flag = lit "--dir" ∨ flag = lit "--chdir") then
        match rest with _ :: rest => reads rest q v | _ => v end
      else reads rest q v
  end.
#[global] Instance demo_bwrap : Bubblewrap := fun args q => reads args q None.

Lemma reads_options os args q v :
  reads (concat (option_args <$> os) ++ args) q v = reads args q (reads (concat (option_args <$> os)) q v).
Proof.
  revert v. induction os as [|o os IH]; intros v; [done|]. rewrite fmap_cons. cbn [concat].
  rewrite <-(assoc_L (++)). destruct o; cbn [option_args app reads];
    repeat (rewrite decide_False by (by intros [=] || by intros [[=]|[=]]) || rewrite decide_True by (by auto));
    try apply IH; cbn [reads]; apply IH.
Qed.

#[global] Instance demo_bwrap_laws : BubblewrapLaws demo_bwrap.
Proof.
  split; unfold sandbox_view, demo_bwrap; try done; intros; rewrite reads_options; cbn [option_args reads].
  - by rewrite decide_True, !new_display.
  - by rewrite decide_False, decide_True, !new_display.
  - rewrite !(decide_False (P := _ = _)) by done. by rewrite decide_True by auto.
  - rewrite !(decide_False (P := _ = _)) by done. by rewrite decide_True by auto.
  - by destruct o.
Qed.
End DemoBwrap.


(** ** Commands *)

(** The launcher of an isolation, and the arguments before the command. *)
Definition launcher_prefix `{FS : FileSystem} (pol : LocalBackendPolicy) (cwd : Path) :
    list str :=
  if has_exec_runtime (active_grants pol) then []
  else match isolation pol with
       | IsolationNone => []
       | MacosSeatbelt config =>
           [lit "sandbox-exec"; lit "-p";
            to_profile_text (from_config_and_grants config (active_grants pol))]
       | LinuxBubblewrap config =>
           lit "bwrap" :: to_args (from_config_and_grants config (active_grants pol)) cwd
       | LinuxDynsandbox _ =>
           lit "dyn-sandbox" :: default [] (linux_dynsandbox_args pol cwd) ++ [lit "--"]
       end.

Definition argv (c : Command) : list str := c.1 :: c.2.

Lemma inner_argv `{FS : FileSystem} request spec pol cwd :
  argv (inner_program_args request spec pol (Some cwd)) =
  launcher_prefix pol cwd ++ program spec :: spec_args spec.
Proof.
  unfold inner_program_args, launcher_prefix, seatbelt_profile, bubblewrap_args, argv.
  destruct (isolation pol) as [|c|c|c] eqn:Ei; unfold linux_dynsandbox_args; rewrite Ei;
    destruct (has_exec_runtime (active_grants pol)); try done.
  destruct (merge_grants_into_roots _ _ _). simpl. by rewrite <- !app_assoc.
Qed.

Lemma parse_spawn_wrapper_prefix w v : parse_spawn_wrapper w = Some v → prefix v ≠ [].
Proof.
  unfold parse_spawn_wrapper. destruct (json_get w (lit "prefix")) as [[| | | |[|e l]|]|]; try done.
  destruct (mapM as_str (e :: l)) as [parsed|] eqn:Em; [|done]. intros [= <-]. simpl.
  apply length_mapM in Em. by destruct parsed.
Qed.

Lemma spawn_wrapper_prefix extra v : spawn_wrapper_from_extra extra = Some v → prefix v ≠ [].
Proof.
  unfold spawn_wrapper_from_extra. destruct extra as [[| | | |entries|]|]; try done.
  assert (∀ w, (∀ v, w = Some v → prefix v ≠ []) →
    ∀ v, foldl wrapper_step w entries = Some v → prefix v ≠ []) as H.
  { induction entries as [|e entries IH]; intros w Hw; [done|]. cbn [foldl]. apply IH.
    intros v'. unfold wrapper_step. destruct (json_get e (lit "spawn_wrapper")) as [wr|]; [|by apply Hw].
    destruct (parse_spawn_wrapper wr) as [pv|] eqn:Ep; [|by apply Hw].
    destruct w; [by apply Hw|]. intros [= <-]. by eapply parse_spawn_wrapper_prefix. }
  by apply H.
Qed.

(** C36: Every command a local session runs is run by its sandbox launcher.
    When a request is accepted, its working directory passed the policy's check,
    the argument vector is an optional plugin prefix, then the launcher of the
    configured isolation with the profile of the current roots and grants, then
    exactly the requested program and arguments; the launcher is left out only
    when no isolation is configured or while a user's one-shot bypass is live. *)
Theorem spawn_is_sandboxed `{FS : FileSystem} `{MD : Metadata} st pol request cmd dir :
  spawn_child_command st pol request = Ok (cmd, dir) →
  check_exec_cwd pol dir = Ok () ∧
  (∃ pre spec, build_command_spec request = Ok spec ∧
     argv cmd = pre ++ launcher_prefix pol dir ++ program spec :: spec_args spec ∧
     pre = default [] (prefix <$> spawn_wrapper_from_extra (extra request))) ∧
  (launcher_prefix pol dir = [] ↔
   isolation pol = IsolationNone ∨
   ∃ g, g ∈ active_grants pol ∧ grant_capability g = ExecRuntime).
Proof.
  intros H. unfold spawn_child_command in H.
  apply bind_ok_inv in H as (spec & Hspec & H). apply bind_ok_inv in H as (d & Hd & H).
  apply bind_ok_inv in H as ([] & Hcheck & H). apply bind_ok_inv in H as ([] & _ & H).
  injection H as <- <-. split; [done|]. split.
  - eexists _, spec. split; [done|]. split; [|reflexivity]. unfold command_from_spec.
    rewrite <- inner_argv with (request := request).
    destruct (spawn_wrapper_from_extra (extra request)) as [w|] eqn:Ew; [|done].
    pose proof (spawn_wrapper_prefix _ _ Ew). simpl. by destruct (prefix w).
  - unfold launcher_prefix. destruct (has_exec_runtime (active_grants pol)) eqn:Er.
    + split; [|done]. intros _. right. apply existsb_exists in Er as (g & Hin & Hc).
      exists g. rewrite list_elem_of_In. by apply bool_decide_eq_true in Hc.
    + split; [by destruct (isolation pol); try done; left|].
      intros [->|(g & Hin & Hc)]; [done|]. exfalso. apply not_true_iff_false in Er. apply Er.
      apply existsb_exists. exists g. split; [by apply list_elem_of_In|by apply bool_decide_eq_true].
Qed.

Lemma spawn_is_sandboxed_witness :
  let MD := {| metadata_is_dir := fun _ => Ok true |} in
  let request := {| command := lit "ls"; command_args := []; shell := None; cwd := None;
                    extra := None |} in
  let st := {| state_backend_id := lit "local"; workspace_root_host := Path.new (lit "/ws/out");
               home_dir_host := None; temp_root_host := Path.new (lit "/tmp") |} in
  ∃ cmd dir, spawn_child_command st demo_policy request = Ok (cmd, dir) ∧
             check_exec_cwd demo_policy dir = Ok () ∧ cmd.1 = lit "bwrap".
Proof.
  intros MD request st.
  destruct (spawn_child_command st demo_policy request) as [[cmd dir]|] eqn:E; [|discriminate E].
  exists cmd, dir. split; [reflexivity|].
  destruct (spawn_is_sandboxed st demo_policy request cmd dir E) as (Hc & _ & _).
  split; [exact Hc|]. injection E as <- <-. reflexivity.
Defined.

(** Paths cannot break out of a seatbelt profile: whatever characters a
    path holds, the profile reader takes the text written for it as one quoted
    string with exactly that path, and continues right after it. *)
Theorem profile_string_round_trip p rest :
  read_quoted (profile_string p ++ rest) = Some (Path.display p, rest).
Proof.
  unfold profile_string, read_quoted. simpl. rewrite <- app_assoc. apply unescape_escape.
Qed.
