(* ===== verification/HookPoint.v ===== *)
(** * Hook points and the hooker registry

    crates/hook: the names of hook points, their categories, the escaping of
    free-form segments, and the registry that finds the enabled hookers of a
    point. What a hooker does when it is invoked is not here: plugins are
    programs of the user (see [ToolCall]). *)

From S2P Require Import Prelude RStr Message.

(** [BuildError] of agent-types. *)
Inductive BuildError :=
| MissingRequiredField (field : str)
| InvalidConfig (message : str)
| DependencyError (message : str).

Definition build_error_str (e : BuildError) : str :=
  match e with
  | MissingRequiredField f => lit "missing required field: " ++ f
  | InvalidConfig m => lit "invalid config: " ++ m
  | DependencyError m => lit "dependency error: " ++ m
  end.

Inductive HookPointCategory :=
| ToolPre | ToolPost | ToolError | LlmPre | LlmPost | LlmError
| SessionCreated | SessionClosed | SessionState
| ChatSystemTransform | ChatMessageReceived | CommandExecuteBefore.
#[global] Instance HookPointCategory_eq_dec : EqDecision HookPointCategory.
Proof. solve_decision. Defined.

(** [escape_hook_point_segment]. *)
Definition escape_hook_point_segment (segment : str) : str :=
  replace_char 46 (lit "%2E") (replace_char 37 (lit "%25") segment).

Section Category.
Context `{UnicodeCase}.

Definition category_table : list (str * str * HookPointCategory) :=
  [(lit "tool", lit "pre", ToolPre); (lit "tool", lit "post", ToolPost);
   (lit "tool", lit "error", ToolError);
   (lit "llm", lit "pre", LlmPre); (lit "llm", lit "post", LlmPost);
   (lit "llm", lit "error", LlmError);
   (lit "session", lit "created", SessionCreated); (lit "session", lit "closed", SessionClosed);
   (lit "session", lit "state", SessionState);
   (lit "chat", lit "transform", ChatSystemTransform);
   (lit "chat", lit "received", ChatMessageReceived);
   (lit "chat", lit "before", CommandExecuteBefore)].

(** The [match] on the pair of lower-cased segments. *)
Definition category_of (action stage : str) : option HookPointCategory :=
  match filter (fun e => e.1 = (action, stage)) category_table with
  | e :: _ => Some e.2
  | [] => None
  end.

Definition resolve_hook_point_category (hook_point : str) : result HookPointCategory BuildError :=
  match split_char 46 hook_point with
  | [_; action; _; stage] =>
      if bool_decide (trim action = []) || bool_decide (trim stage = [])
      then Err (InvalidConfig
                  (lit "hook_point action/stage segments must not be empty: " ++ hook_point))
      else
        let a := to_lowercase action in
        let s := to_lowercase stage in
        match category_of a s with
        | Some c => Ok c
        | None =>
            Err (InvalidConfig
                   (lit "unsupported hook_point category for action='" ++ a
                    ++ lit "' stage='" ++ s ++ lit "': " ++ hook_point))
        end
  | _ => Err (InvalidConfig
                (lit "hook_point must have 4 dot-separated segments: " ++ hook_point))
  end.
End Category.

(** ** The registry *)

(** What the registry knows of a [Hooker]. *)
Record Hooker := { hooker_id : str; hooker_point : str }.
#[global] Instance Hooker_eq_dec : EqDecision Hooker.
Proof. solve_decision. Defined.

(** The [HashMap] of hookers is the list of its values in iteration order. *)
Record HookerRegistryImpl := {
  hookers : list Hooker;
  enabled_hookers : gset str;
  policies : list (str * Json);
}.

Definition hook_point_matches (pattern candidate : str) : bool :=
  let ps := split_char 46 pattern in
  let cs := split_char 46 candidate in
  (length ps =? length cs)%nat
  && forallb (fun '(p, c) => bool_decide (p = c) || bool_decide (p = lit "*")) (zip ps cs).

Definition list_for_hook_point (r : HookerRegistryImpl) (hook_point : str) : list Hooker :=
  filter (fun h => hook_point_matches (hooker_point h) hook_point = true) (hookers r).

Definition is_enabled (r : HookerRegistryImpl) (id : str) : bool :=
  bool_decide (id ∈ enabled_hookers r).

Inductive HookerDefaultMode := DefaultAll | DefaultNone.
Record HookerRegistryConfig := {
  default_mode : HookerDefaultMode;
  config_enabled : list str;
  config_disabled : list str;
  config_policies : list (str * Json);
}.

(** The loop that fills the map: an id that is already there is an error. *)
Fixpoint insert_hookers (acc : list Hooker) (hs : list Hooker) :
    result (list Hooker) BuildError :=
  match hs with
  | [] => Ok acc
  | h :: hs =>
      if bool_decide (hooker_id h ∈ hooker_id <$> acc)
      then Err (InvalidConfig (lit "duplicate hooker id in registry: " ++ hooker_id h))
      else insert_hookers (acc ++ [h]) hs
  end.

(** A loop that refuses the first element satisfying [bad]. *)
Fixpoint reject_first (bad : str → bool) (prefix : str) (ids : list str) : result () BuildError :=
  match ids with
  | [] => Ok ()
  | id :: ids => if bad id then Err (InvalidConfig (prefix ++ id)) else reject_first bad prefix ids
  end.

(** [HookerRegistryBuilderImpl::build] on the hookers that [build_hookers]
    returned. *)
Definition build_hooker_registry (built : result (list Hooker) BuildError)
    (config : HookerRegistryConfig) : result HookerRegistryImpl BuildError :=
  let? hs := built in
  let? hs := insert_hookers [] hs in
  let registered := list_to_set (C := gset str) (hooker_id <$> hs) in
  let unknown id := negb (bool_decide (id ∈ registered)) in
  let? _ := reject_first unknown (lit "unknown enabled hooker id: ") (config_enabled config) in
  let? _ := reject_first unknown (lit "unknown disabled hooker id: ") (config_disabled config) in
  let? _ := reject_first unknown (lit "unknown policy hooker id: ")
              (fst <$> config_policies config) in
  let? _ := reject_first (fun id => bool_decide (id ∈ config_disabled config))
              (lit "hooker id appears in both enabled and disabled: ")
              (config_enabled config) in
  let base := match default_mode config with DefaultAll => registered | DefaultNone => ∅ end in
  Ok {| hookers := hs;
        enabled_hookers :=
          (base ∪ list_to_set (config_enabled config)) ∖ list_to_set (config_disabled config);
        policies := config_policies config |}.

(** The hookers a phase runs: the matching ones that are enabled, by id. *)
Definition hooker_le (a b : Hooker) : Prop := str_le (hooker_id a) (hooker_id b).
#[global] Instance hooker_le_dec a b : Decision (hooker_le a b).
Proof. unfold hooker_le. apply _. Defined.
#[global] Instance hooker_le_total : Total hooker_le.
Proof. intros a b. unfold hooker_le. apply (total str_le). Qed.
#[global] Instance hooker_le_trans : Transitive hooker_le.
Proof. intros a b c. unfold hooker_le. apply transitivity. Qed.

Definition phase_hookers (r : HookerRegistryImpl) (hook_point : str) : list Hooker :=
  merge_sort hooker_le
    (filter (fun h => is_enabled r (hooker_id h) = true) (list_for_hook_point r hook_point)).

(** ** Tool hook points *)

(** [ToolCallImpl::build_tool_hook_point]. *)
Definition build_tool_hook_point (agent_id tool_name stage : str) : str :=
  escape_hook_point_segment agent_id ++ lit ".Tool." ++ escape_hook_point_segment tool_name
  ++ lit "." ++ stage.

(** Escaping is a prefix code on characters. *)
Definition escape_char (c : char) : str :=
  if (c =? 37)%N then lit "%25" else if (c =? 46)%N then lit "%2E" else [c].

Lemma escape_bind s : escape_hook_point_segment s = s ≫= escape_char.
Proof.
  unfold escape_hook_point_segment, replace_char. induction s as [|c s IH]; [done|].
  cbn [mbind list_bind]. rewrite bind_app. f_equal; [|exact IH]. unfold escape_char.
  destruct (N.eqb_spec c 37) as [->|]; [reflexivity|]. simpl.
  destruct (N.eqb_spec c 46) as [->|]; reflexivity.
Qed.

Lemma escape_char_inj c d s t :
  escape_char c ++ s = escape_char d ++ t → c = d ∧ s = t.
Proof.
  unfold escape_char. change (lit "%25") with [37; 50; 53]%N. change (lit "%2E") with [37; 50; 69]%N.
  destruct (N.eqb_spec c 37), (N.eqb_spec c 46), (N.eqb_spec d 37), (N.eqb_spec d 46);
    cbn [app]; intros E; simplify_eq; done.
Qed.

Lemma escape_inj s t : escape_hook_point_segment s = escape_hook_point_segment t → s = t.
Proof.
  rewrite !escape_bind. revert t. induction s as [|c s IH]; intros [|d t]; cbn [mbind list_bind].
  - done.
  - unfold escape_char. by destruct (d =? 37)%N, (d =? 46)%N.
  - unfold escape_char. by destruct (c =? 37)%N, (c =? 46)%N.
  - intros [-> E]%escape_char_inj. f_equal. by apply IH.
Qed.

Lemma escape_no_dot s : 46%N ∉ escape_hook_point_segment s.
Proof.
  unfold escape_hook_point_segment. intros [H|[_ H]]%elem_of_replace_char; [|done].
  by apply (bool_decide_unpack (46%N ∉ lit "%2E")).
Qed.

Lemma tool_point_segments agent tool stage :
  46%N ∉ stage →
  split_char 46 (build_tool_hook_point agent tool stage) =
  [escape_hook_point_segment agent; lit "Tool"; escape_hook_point_segment tool; stage].
Proof.
  intros Hst. unfold build_tool_hook_point. change (lit ".Tool.") with (46%N :: lit "Tool" ++ [46%N]).
  change (lit ".") with [46%N]. rewrite <-app_comm_cons, <-!app_assoc. cbn [app].
  rewrite split_char_app by apply escape_no_dot. rewrite split_char_app by by vm_compute; set_solver.
  rewrite split_char_app by apply escape_no_dot. by rewrite split_char_no.
Qed.

(** The three stages of a tool call. *)
Inductive ToolStage := StagePre | StagePost | StageError.
Definition stage_str (s : ToolStage) : str :=
  match s with StagePre => lit "pre" | StagePost => lit "post" | StageError => lit "error" end.
Definition stage_category (s : ToolStage) : HookPointCategory :=
  match s with StagePre => ToolPre | StagePost => ToolPost | StageError => ToolError end.

Lemma stage_no_dot s : 46%N ∉ stage_str s.
Proof. destruct s; apply (bool_decide_unpack (46%N ∉ _)); vm_compute; exact I. Qed.
Lemma stage_str_inj s s' : stage_str s = stage_str s' → s = s'.
Proof. by destruct s, s'. Qed.

Lemma resolve_tool_point `{UnicodeCase} agent tool s :
  resolve_hook_point_category (build_tool_hook_point agent tool (stage_str s))
    = Ok (stage_category s).
Proof.
  unfold resolve_hook_point_category. rewrite tool_point_segments by apply stage_no_dot.
  rewrite !to_lowercase_ascii by (destruct s; repeat constructor). by destruct s.
Qed.

(** The hook point of a tool call is well formed whatever the agent id
    and the tool name contain: it resolves to the category of its stage, two
    calls share a point exactly when agent, tool and stage agree, and the
    pattern [*.Tool.*.stage] matches it exactly for its own stage. *)
Theorem tool_hook_points `{UnicodeCase} agent tool s :
  resolve_hook_point_category (build_tool_hook_point agent tool (stage_str s))
    = Ok (stage_category s) ∧
  (∀ agent' tool' s',
     build_tool_hook_point agent tool (stage_str s)
       = build_tool_hook_point agent' tool' (stage_str s') →
     agent = agent' ∧ tool = tool' ∧ s = s') ∧
  (∀ s', hook_point_matches (lit "*.Tool.*." ++ stage_str s')
           (build_tool_hook_point agent tool (stage_str s)) = true ↔ s' = s).
Proof.
  split_and!.
  - apply resolve_tool_point.
  - intros agent' tool' s' E. apply (f_equal (split_char 46)) in E.
    rewrite !tool_point_segments in E by apply stage_no_dot. simplify_eq.
    split_and!; auto using escape_inj, stage_str_inj.
  - intros s'. unfold hook_point_matches. rewrite tool_point_segments by apply stage_no_dot.
    assert (split_char 46 (lit "*.Tool.*." ++ stage_str s') =
            [lit "*"; lit "Tool"; lit "*"; stage_str s']) as -> by by destruct s'.
    cbn [length zip zip_with forallb]. rewrite !(bool_decide_true (lit "*" = lit "*")) by done.
    rewrite !(bool_decide_true (lit "Tool" = lit "Tool")), !orb_true_r by done. cbn.
    rewrite andb_true_r, orb_true_iff, !bool_decide_eq_true. split.
    + intros [E|E]; [by apply stage_str_inj|by destruct s'].
    + intros ->. by left.
Qed.

(** ** The registry a configuration gives *)

Lemma insert_hookers_ok acc hs r :
  NoDup (hooker_id <$> acc) → insert_hookers acc hs = Ok r →
  r = acc ++ hs ∧ NoDup (hooker_id <$> r).
Proof.
  revert acc. induction hs as [|h hs IH]; intros acc Hnd; simpl.
  - intros [= <-]. by rewrite app_nil_r.
  - case_bool_decide as Hin; [done|]. intros E. apply IH in E as [-> Hr].
    + split; [by rewrite <-app_assoc|done].
    + rewrite fmap_app. apply NoDup_app. split_and!; [done| |apply NoDup_singleton].
      intros x Hx ->%list_elem_of_singleton. done.
Qed.

Lemma reject_first_ok bad p ids u :
  reject_first bad p ids = Ok u → ∀ id, id ∈ ids → bad id = false.
Proof.
  induction ids as [|i ids IH]; simpl; [set_solver|]. destruct (bad i) eqn:E; [done|].
  intros H id [->|?]%elem_of_cons; auto.
Qed.

Lemma phase_hookers_elem r p h :
  h ∈ phase_hookers r p ↔
  h ∈ hookers r ∧ hook_point_matches (hooker_point h) p = true ∧ is_enabled r (hooker_id h) = true.
Proof.
  unfold phase_hookers, list_for_hook_point. rewrite merge_sort_Permutation, !list_elem_of_filter.
  naive_solver.
Qed.

(** The order of the hash map does not show. *)
Lemma phase_hookers_perm r r' p :
  NoDup (hooker_id <$> hookers r) → hookers r ≡ₚ hookers r' →
  enabled_hookers r = enabled_hookers r' → phase_hookers r p = phase_hookers r' p.
Proof.
  intros Hnd Hp He. unfold phase_hookers, list_for_hook_point, is_enabled. rewrite <-He.
  apply (Sorted_unique_strong hooker_le).
  - intros x y Hx Hy Hxy Hyx. rewrite merge_sort_Permutation in Hx, Hy.
    apply list_elem_of_filter in Hx as [_ [_ Hx]%list_elem_of_filter].
    apply list_elem_of_filter in Hy as [_ [_ Hy]%list_elem_of_filter].
    rewrite <-Hp in Hy. eapply NoDup_fmap_eq; [done..|]. by apply (anti_symm str_le).
  - apply Sorted_merge_sort, _.
  - apply Sorted_merge_sort, _.
  - rewrite !merge_sort_Permutation. by rewrite Hp.
Qed.

(** A registry that builds runs at a hook point exactly the hookers
    that match it and that the configuration enables (not disabled, and on by
    default or by name), sorted by id, whatever order the hash map yields;
    ids are distinct and every id the configuration names is registered. *)
Theorem registry_runs_enabled hs config r p :
  build_hooker_registry (Ok hs) config = Ok r →
  (∀ h, h ∈ phase_hookers r p ↔
     h ∈ hs ∧ hook_point_matches (hooker_point h) p = true ∧
     hooker_id h ∉ config_disabled config ∧
     (default_mode config = DefaultAll ∨ hooker_id h ∈ config_enabled config)) ∧
  Sorted hooker_le (phase_hookers r p) ∧
  NoDup (hooker_id <$> hs) ∧
  (∀ id, id ∈ config_enabled config ++ config_disabled config ++ (config_policies config).*1 →
         id ∈ hooker_id <$> hs) ∧
  (∀ hs', hs ≡ₚ hs' →
     phase_hookers {| hookers := hs'; enabled_hookers := enabled_hookers r;
                      policies := policies r |} p = phase_hookers r p).
Proof.
  unfold build_hooker_registry. cbn [Result.bind]. intros E. inv_ok. rename Hok into Hins.
  apply insert_hookers_ok in Hins as [-> Hnd]; [|constructor]. cbn [app] in *.
  pose proof (reject_first_ok _ _ _ _ Hok0) as He. pose proof (reject_first_ok _ _ _ _ Hok1) as Hd.
  pose proof (reject_first_ok _ _ _ _ Hok2) as Hpo. pose proof (reject_first_ok _ _ _ _ Hok3) as Hx.
  split_and!.
  - intros h. rewrite phase_hookers_elem. unfold is_enabled. cbn [hookers enabled_hookers].
    rewrite bool_decide_eq_true, elem_of_difference, elem_of_union, !elem_of_list_to_set.
    destruct (default_mode config).
    + rewrite elem_of_list_to_set, list_elem_of_fmap. naive_solver.
    + set_solver.
  - apply Sorted_merge_sort, _.
  - done.
  - intros id Hid. destruct (decide (id ∈ hooker_id <$> hs)) as [|Hn]; [done|].
    assert (bool_decide (id ∈ list_to_set (C := gset str) (hooker_id <$> hs)) = false) as Hb
      by (apply bool_decide_eq_false; by rewrite elem_of_list_to_set).
    apply elem_of_app in Hid as [Hi|[Hi|Hi]%elem_of_app];
      [apply He in Hi|apply Hd in Hi|apply Hpo in Hi]; by rewrite Hb in Hi.
  - intros hs' Hp. apply phase_hookers_perm; cbn; [by rewrite <-Hp|done|done].
Qed.

Definition demo_hookers : list Hooker :=
  [{| hooker_id := lit "b"; hooker_point := lit "*.Tool.*.pre" |};
   {| hooker_id := lit "a"; hooker_point := lit "main.Tool.bash.pre" |};
   {| hooker_id := lit "c"; hooker_point := lit "*.Tool.*.post" |}].
Definition demo_hook_config : HookerRegistryConfig :=
  {| default_mode := DefaultAll; config_enabled := [lit "b"]; config_disabled := [];
     config_policies := [] |}.

Definition demo_registry : HookerRegistryImpl :=
  match build_hooker_registry (Ok demo_hookers) demo_hook_config with
  | Ok r => r
  | Err _ => {| hookers := []; enabled_hookers := ∅; policies := [] |}
  end.

Lemma registry_runs_enabled_witness :
  hooker_id <$> phase_hookers demo_registry (lit "main.Tool.bash.pre") = [lit "a"; lit "b"] ∧
  Sorted hooker_le (phase_hookers demo_registry (lit "main.Tool.bash.pre")).
Proof.
  split; [vm_compute; reflexivity|].
  eapply (registry_runs_enabled demo_hookers demo_hook_config). vm_compute. reflexivity.
Defined.
