(* ===== verification/ToolCall.v ===== *)
(** * Tool calls

    crates/tool/src/framework: the tool filter and the construction of a call,
    and [ToolCallImpl::execute]: pre-hooks, lifecycle store, executor,
    post-hooks or error hooks, result. Plugins and tools are programs of the
    user; what they answer is a parameter. Spans of the trace recorder are left
    out. *)

From S2P Require Import Prelude RStr F64 Message Budget HostPath LocalPolicy Launcher HookPoint.

(** ** Data (crates/agent-types/src/tool) *)

Record EffectProfile := {
  reads_filesystem : bool;
  writes_filesystem : bool;
  network_access : bool;
  side_effects : bool;
}.

(** What a [ToolSpecView] shows. *)
Record ToolSpecView := {
  ts_id : str;
  ts_name : str;
  ts_description : str;
  ts_input_schema : Json;
  ts_output_contract : str;
  ts_effect_profile : EffectProfile;
}.

(** An [Arc<dyn ToolExecutor>]: its spec and which object it is. *)
Record ToolExecutor := { exec_spec : ToolSpecView; exec_object : nat }.

Record RawToolCall := { raw_call_id : str; raw_tool_name : str; raw_input : Json }.
Record FinalToolCall := {
  call_id : str;
  tool_name : str;
  call_input : Json;
  call_extra : option Json;
}.
(** [FinalToolCall { call_id, tool_name, input, ..Default::default() }]. *)
Definition new_final_call (id name : str) (input : Json) : FinalToolCall :=
  {| call_id := id; tool_name := name; call_input := input; call_extra := None |}.
Definition set_input (c : FinalToolCall) (v : Json) : FinalToolCall :=
  {| call_id := call_id c; tool_name := tool_name c; call_input := v; call_extra := call_extra c |}.
Definition set_extra (c : FinalToolCall) (e : option Json) : FinalToolCall :=
  {| call_id := call_id c; tool_name := tool_name c; call_input := call_input c; call_extra := e |}.

Inductive RawToolOutcome := Success (output : str) | ErrorOutcome (message : str).
Inductive ToolExecutorOutput :=
| OutputCompleted (raw_outcome : RawToolOutcome)
| OutputSuspended (suspend_token : str).
Inductive ToolExecutionError :=
| NotFound (tool_name : str)
| ExecutionFailed (message : str)
| ToolTimeout (timeout_ms : Z)
| PermissionDenied (message : str).

Definition tool_error_str (e : ToolExecutionError) : str :=
  match e with
  | NotFound n => lit "tool not found: " ++ n
  | ExecutionFailed m => lit "execution failed: " ++ m
  | ToolTimeout ms => lit "timeout after " ++ show ms ++ lit "ms"
  | PermissionDenied m => lit "permission denied: " ++ m
  end.

Inductive PreHookResult :=
| Allow (extra : option Json)
| Deny (reason : str)
| Transform (modified_input : Json) (extra : option Json).
Inductive PostHookResult := Accept | PostTransform (modified_output : str).
Inductive ErrorHookResult := Propagate | Recover (output : str).

Inductive ToolExecutionResult :=
| Denied (final_call : FinalToolCall) (pre : list PreHookResult) (error_hooks : list ErrorHookResult)
    (error : option ToolExecutionError)
| Completed (final_call : FinalToolCall) (raw_outcome : RawToolOutcome) (pre : list PreHookResult)
    (post : list PostHookResult)
| Suspended (final_call : FinalToolCall) (pre : list PreHookResult) (suspend_token : str)
| ToolFailed (final_call : FinalToolCall) (pre : list PreHookResult)
    (error_hooks : list ErrorHookResult) (execution_error : ToolExecutionError).

Definition final_call (r : ToolExecutionResult) : FinalToolCall :=
  match r with
  | Denied c _ _ _ | Completed c _ _ _ | Suspended c _ _ | ToolFailed c _ _ _ => c
  end.
Definition result_tool_name (r : ToolExecutionResult) : str := tool_name (final_call r).
Definition result_call_id (r : ToolExecutionResult) : str := call_id (final_call r).

Inductive ToolLifecycleStatus :=
| StPending | StRunning | StDenied | StCompleted | StSuspended | StFailed.
Record ToolLifecycleRecord := {
  lr_call_id : str;
  lr_tool_name : str;
  lr_status : ToolLifecycleStatus;
  started_at_ms : Z;
  finished_at_ms : option Z;
}.

(** The events a call emits, each with the call's id and tool name. *)
Inductive ToolLifecycleEvent :=
| EvPending (call_id tool_name args_preview : str)
| EvRunning (call_id tool_name args_preview : str)
| EvDenied (call_id tool_name reason args_preview : str)
| EvCompleted (call_id tool_name args_preview : str)
| EvFailed (call_id tool_name error args_preview : str).

Inductive HookInvokeInput :=
| HookPre (call : FinalToolCall)
| HookPost (call : FinalToolCall) (outcome : RawToolOutcome)
| HookError (call : FinalToolCall) (error : ToolExecutionError).
(** The answer of a hooker; a variant of another category is only named. *)
Inductive HookInvokePrimary :=
| PrimaryPre (r : PreHookResult)
| PrimaryPost (r : PostHookResult)
| PrimaryError (r : ErrorHookResult)
| PrimaryOther (category : HookPointCategory).
Inductive HookInvokeError :=
| HookTool (e : ToolExecutionError)
| HookLlm (e : Budget.LlmError)
| HookChat (message : str)
| HookSession (message : str).
Definition hook_error_str (e : HookInvokeError) : str :=
  match e with
  | HookTool e => tool_error_str e
  | HookLlm e => llm_error_str e
  | HookChat m | HookSession m => m
  end.

(** ** The filter and the construction of a call *)

Record ToolFilterImpl := {
  visible_specs : list ToolSpecView;
  specs_by_name : gmap str ToolSpecView;
  executors_by_name : gmap str ToolExecutor;
}.

(** [collect] into a [HashMap]: the last entry of a key wins. *)
Definition collect_map {A} (l : list (str * A)) : gmap str A := list_to_map (reverse l).

Definition new_tool_filter (visible : list ToolSpecView) (executors : gmap str ToolExecutor) :
    ToolFilterImpl :=
  {| visible_specs := visible;
     specs_by_name := collect_map ((fun s => (ts_name s, s)) <$> visible);
     executors_by_name := executors |}.

(** [tool_filter_from_specs]; [get_executor] is the registry's lookup. *)
Definition tool_filter_from_specs (visible : list ToolSpecView)
    (get_executor : str → option ToolExecutor) : ToolFilterImpl :=
  new_tool_filter visible (collect_map (omap (fun spec =>
    match get_executor (ts_id spec) with
    | Some executor =>
        if bool_decide (ts_id (exec_spec executor) = ts_id spec)
           && bool_decide (ts_name (exec_spec executor) = ts_name spec)
        then Some (ts_name spec, executor)
        else None
    | None => None
    end) visible)).

Definition get_spec_for_name (f : ToolFilterImpl) (name : str) : option ToolSpecView :=
  specs_by_name f !! name.
Definition get_executor_for_name (f : ToolFilterImpl) (name : str) : option ToolExecutor :=
  executors_by_name f !! name.

Record ToolCallImpl := {
  tc_final_call : FinalToolCall;
  tc_spec : ToolSpecView;
  tc_executor : ToolExecutor;
}.

Definition build_with_filter_ref (raw : RawToolCall) (f : ToolFilterImpl) :
    result ToolCallImpl BuildError :=
  match get_spec_for_name f (raw_tool_name raw) with
  | None => Err (InvalidConfig (lit "tool '" ++ raw_tool_name raw
                                ++ lit "' is not visible in the current ToolFilter"))
  | Some visible_spec =>
      match get_executor_for_name f (raw_tool_name raw) with
      | None => Err (InvalidConfig (lit "tool '" ++ raw_tool_name raw
                                    ++ lit "' is missing an executor in the current ToolFilter"))
      | Some executor =>
          Ok {| tc_final_call := new_final_call (raw_call_id raw) (raw_tool_name raw) (raw_input raw);
                tc_spec := visible_spec; tc_executor := executor |}
      end
  end.

(** ** Execution *)

(** What a call sees of [RuntimeView]: the agent id, the hookers, and what
    they, the tool, the lifecycle store and the clock answer. *)
Class ToolRuntime := {
  World : Type;
  rt_agent_id : str;
  rt_hookers : HookerRegistryImpl;
  hooker_invoke : Hooker → HookInvokeInput → World →
                  result HookInvokePrimary HookInvokeError * World;
  executor_invoke : ToolExecutor → FinalToolCall → World →
                    result ToolExecutorOutput ToolExecutionError * World;
  store_begin : FinalToolCall → ToolSpecView → World → ToolLifecycleRecord * World;
  current_time_ms : World → Z * World;
}.

(** What a call does to the outside, oldest first, with the answers of
    hookers and of the executor. *)
Inductive Effect :=
| InvokeHooker (id : str) (input : HookInvokeInput)
    (answer : result HookInvokePrimary HookInvokeError)
| InvokeExecutor (executor : ToolExecutor) (call : FinalToolCall)
    (answer : result ToolExecutorOutput ToolExecutionError)
| StoreBegin (call : FinalToolCall)
| StoreUpdate (record : ToolLifecycleRecord)
| StoreFinish (record : ToolLifecycleRecord) (result : ToolExecutionResult)
| StoreFail (record : ToolLifecycleRecord) (error : ToolExecutionError)
| Emit (event : ToolLifecycleEvent).

(** The category in the messages of [{:?}]. *)
Definition category_debug (c : HookPointCategory) : str :=
  match c with
  | ToolPre => lit "ToolPre" | ToolPost => lit "ToolPost" | ToolError => lit "ToolError"
  | LlmPre => lit "LlmPre" | LlmPost => lit "LlmPost" | LlmError => lit "LlmError"
  | SessionCreated => lit "SessionCreated" | SessionClosed => lit "SessionClosed"
  | SessionState => lit "SessionState" | ChatSystemTransform => lit "ChatSystemTransform"
  | ChatMessageReceived => lit "ChatMessage" | CommandExecuteBefore => lit "CommandExecuteBefore"
  end.

(** [hooker_visible_call]. *)
Definition hooker_visible_call (c : FinalToolCall) : FinalToolCall := set_extra c None.

(** [accumulate_extra]. *)
Definition accumulate_extra (c : FinalToolCall) (id : str) (extra : option Json) : FinalToolCall :=
  match extra with
  | None | Some JNull => c
  | Some entry =>
      let entry := match entry with
                   | JObject map => JObject (field_insert (lit "hooker_id") (JString id) map)
                   | other => other
                   end in
      match call_extra c with
      | Some (JArray entries) => set_extra c (Some (JArray (entries ++ [entry])))
      | _ => set_extra c (Some (JArray [entry]))
      end
  end.

Section Execute.
Context `{JsonText} `{UnicodeCase} `{RT : ToolRuntime}.

Record ToolState := { world : World; effects : list Effect }.
Abbreviation M A := (St.M ToolState A).

Definition perform (e : Effect) : M () :=
  fun s => ((), {| world := world s; effects := effects s ++ [e] |}).
Definition outside {A} (f : World → A * World) : M A :=
  fun s => let '(a, w) := f (world s) in (a, {| world := w; effects := effects s |}).

Definition invoke_hooker (h : Hooker) (input : HookInvokeInput) :
    M (result HookInvokePrimary HookInvokeError) :=
  let! answer := outside (hooker_invoke h input) in
  let! _ := perform (InvokeHooker (hooker_id h) input answer) in
  St.ret answer.

Record ToolExecutionState := {
  st_final_call : FinalToolCall;
  st_lifecycle_record : option ToolLifecycleRecord;
  st_pre : list PreHookResult;
  st_post : list PostHookResult;
  st_error_hooks : list ErrorHookResult;
  st_raw_outcome : option RawToolOutcome;
  st_execution_error : option ToolExecutionError;
}.
Definition initialize_execution_state (c : FinalToolCall) : ToolExecutionState :=
  {| st_final_call := c; st_lifecycle_record := None; st_pre := []; st_post := [];
     st_error_hooks := []; st_raw_outcome := None; st_execution_error := None |}.

Definition with_call st c := {| st_final_call := c; st_lifecycle_record := st_lifecycle_record st;
  st_pre := st_pre st; st_post := st_post st; st_error_hooks := st_error_hooks st;
  st_raw_outcome := st_raw_outcome st; st_execution_error := st_execution_error st |}.
Definition with_record st r := {| st_final_call := st_final_call st; st_lifecycle_record := r;
  st_pre := st_pre st; st_post := st_post st; st_error_hooks := st_error_hooks st;
  st_raw_outcome := st_raw_outcome st; st_execution_error := st_execution_error st |}.
Definition with_pre st p := {| st_final_call := st_final_call st;
  st_lifecycle_record := st_lifecycle_record st;
  st_pre := p; st_post := st_post st; st_error_hooks := st_error_hooks st;
  st_raw_outcome := st_raw_outcome st; st_execution_error := st_execution_error st |}.
Definition with_post st p := {| st_final_call := st_final_call st;
  st_lifecycle_record := st_lifecycle_record st;
  st_pre := st_pre st; st_post := p; st_error_hooks := st_error_hooks st;
  st_raw_outcome := st_raw_outcome st; st_execution_error := st_execution_error st |}.
Definition with_error_hooks st p := {| st_final_call := st_final_call st;
  st_lifecycle_record := st_lifecycle_record st;
  st_pre := st_pre st; st_post := st_post st; st_error_hooks := p;
  st_raw_outcome := st_raw_outcome st; st_execution_error := st_execution_error st |}.
Definition with_outcome st o := {| st_final_call := st_final_call st;
  st_lifecycle_record := st_lifecycle_record st;
  st_pre := st_pre st; st_post := st_post st; st_error_hooks := st_error_hooks st;
  st_raw_outcome := o; st_execution_error := st_execution_error st |}.
Definition with_error st e := {| st_final_call := st_final_call st;
  st_lifecycle_record := st_lifecycle_record st;
  st_pre := st_pre st; st_post := st_post st; st_error_hooks := st_error_hooks st;
  st_raw_outcome := st_raw_outcome st; st_execution_error := e |}.

(** The part the three hook sequences share: the hookers of the stage, or
    why the stage cannot run. [None] is a stage without hookers. *)
Definition stage_hookers (c : FinalToolCall) (s : ToolStage) (label expected : str) :
    result (option (list Hooker)) ToolExecutionError :=
  let point := build_tool_hook_point rt_agent_id (tool_name c) (stage_str s) in
  match phase_hookers rt_hookers point with
  | [] => Ok None
  | hs =>
      match resolve_hook_point_category point with
      | Err error =>
          Err (ExecutionFailed (lit "failed to resolve " ++ label ++ lit "-hook category for tool call '"
                 ++ call_id c ++ lit "' (hook_point='" ++ point ++ lit "'): "
                 ++ build_error_str error))
      | Ok category =>
          if decide (category = stage_category s) then Ok (Some hs)
          else Err (ExecutionFailed (label ++ lit "-hook sequence expected " ++ expected
                      ++ lit " category but got " ++ category_debug category
                      ++ lit " for hook point " ++ point))
      end
  end.

(** The pre-hook loop: the call as it has been transformed so far and the
    results so far; a failing hooker denies the call. *)
Fixpoint pre_hook_loop (hs : list Hooker) (c : FinalToolCall) (results : list PreHookResult) :
    M (FinalToolCall * list PreHookResult) :=
  match hs with
  | [] => St.ret (c, results)
  | h :: hs =>
      let! output := invoke_hooker h (HookPre (hooker_visible_call c)) in
      match output with
      | Err error =>
          St.ret (c, results ++ [Deny (lit "pre-hooker '" ++ hooker_id h
                    ++ lit "' failed, tool call denied (fail-closed): " ++ hook_error_str error)])
      | Ok (PrimaryPre (Allow extra)) =>
          pre_hook_loop hs (accumulate_extra c (hooker_id h) extra) (results ++ [Allow None])
      | Ok (PrimaryPre (Deny reason)) => St.ret (c, results ++ [Deny reason])
      | Ok (PrimaryPre (Transform modified_input extra)) =>
          let c := accumulate_extra (set_input c modified_input) (hooker_id h) extra in
          pre_hook_loop hs c (results ++ [Transform (call_input c) None])
      | Ok _ =>
          St.ret (c, results ++ [Deny (lit "pre-hooker '" ++ hooker_id h
                    ++ lit "' returned non-pre output, tool call denied (fail-closed)")])
      end
  end.

Definition run_pre_hook_sequence (st : ToolExecutionState) :
    M (ToolExecutionState * result (list PreHookResult) ToolExecutionError) :=
  match stage_hookers (st_final_call st) StagePre (lit "pre") (lit "ToolPre") with
  | Err e => St.ret (st, Err e)
  | Ok None => St.ret (st, Ok [])
  | Ok (Some hs) =>
      let! ' (c, results) := pre_hook_loop hs (st_final_call st) [] in
      St.ret (with_call st c, Ok results)
  end.

(** The post-hook loop: a hooker that fails is skipped. *)
Fixpoint post_hook_loop (hs : list Hooker) (c : FinalToolCall) (outcome : RawToolOutcome)
    (results : list PostHookResult) : M (RawToolOutcome * list PostHookResult) :=
  match hs with
  | [] => St.ret (outcome, results)
  | h :: hs =>
      let! output := invoke_hooker h (HookPost (hooker_visible_call c) outcome) in
      match output with
      | Ok (PrimaryPost Accept) => post_hook_loop hs c outcome (results ++ [Accept])
      | Ok (PrimaryPost (PostTransform modified)) =>
          post_hook_loop hs c (Success modified) (results ++ [PostTransform modified])
      | _ => post_hook_loop hs c outcome results
      end
  end.

Definition run_post_hook_sequence (st : ToolExecutionState) :
    M (ToolExecutionState * result (list PostHookResult) ToolExecutionError) :=
  match st_raw_outcome st with
  | None => St.ret (st, Ok [])
  | Some outcome =>
      match stage_hookers (st_final_call st) StagePost (lit "post") (lit "ToolPost") with
      | Err e => St.ret (st, Err e)
      | Ok None => St.ret (st, Ok [])
      | Ok (Some hs) =>
          let! ' (outcome, results) := post_hook_loop hs (st_final_call st) outcome [] in
          St.ret (with_outcome st (Some outcome), Ok results)
      end
  end.

Fixpoint error_hook_loop (hs : list Hooker) (c : FinalToolCall) (error : ToolExecutionError)
    (results : list ErrorHookResult) : M (list ErrorHookResult) :=
  match hs with
  | [] => St.ret results
  | h :: hs =>
      let! output := invoke_hooker h (HookError (hooker_visible_call c) error) in
      match output with
      | Ok (PrimaryError r) => error_hook_loop hs c error (results ++ [r])
      | _ => error_hook_loop hs c error results
      end
  end.

Definition run_error_hook_sequence (st : ToolExecutionState) (error : ToolExecutionError) :
    M (result (list ErrorHookResult) ToolExecutionError) :=
  match stage_hookers (st_final_call st) StageError (lit "error") (lit "ToolError") with
  | Err e => St.ret (Err e)
  | Ok None => St.ret (Ok [])
  | Ok (Some hs) =>
      let! results := error_hook_loop hs (st_final_call st) error [] in
      St.ret (Ok results)
  end.

Definition collect_error_hook_results_after_begin (st : ToolExecutionState)
    (error : ToolExecutionError) : M ToolExecutionState :=
  let! r := run_error_hook_sequence st error in
  St.ret match r with Ok results => with_error_hooks st results | Err _ => st end.

(** *** Lifecycle *)

(** [load_execution_context] always returns [Ok]. *)
Definition load_execution_context (c : FinalToolCall) (spec : ToolSpecView) :
    M (result ToolLifecycleRecord ToolExecutionError) :=
  let! _ := perform (StoreBegin c) in
  let! record := outside (store_begin c spec) in
  St.ret (Ok record).

Definition set_status (r : ToolLifecycleRecord) (s : ToolLifecycleStatus) : ToolLifecycleRecord :=
  {| lr_call_id := lr_call_id r; lr_tool_name := lr_tool_name r; lr_status := s;
     started_at_ms := started_at_ms r; finished_at_ms := finished_at_ms r |}.
Definition set_finished (r : ToolLifecycleRecord) (t : Z) : ToolLifecycleRecord :=
  {| lr_call_id := lr_call_id r; lr_tool_name := lr_tool_name r; lr_status := lr_status r;
     started_at_ms := started_at_ms r; finished_at_ms := Some t |}.

Definition mark_lifecycle_running (st : ToolExecutionState) : M ToolExecutionState :=
  match st_lifecycle_record st with
  | None => St.ret st
  | Some record =>
      let record := set_status record StRunning in
      let! _ := perform (StoreUpdate record) in
      St.ret (with_record st (Some record))
  end.

Definition persist_terminal_lifecycle (st : ToolExecutionState) (r : ToolExecutionResult) : M () :=
  match st_lifecycle_record st with
  | None => St.ret ()
  | Some record =>
      let! now := outside current_time_ms in
      let record := set_finished record now in
      match r with
      | Completed _ _ _ _ => perform (StoreFinish (set_status record StCompleted) r)
      | Suspended _ _ _ => perform (StoreFinish (set_status record StSuspended) r)
      | Denied _ _ _ _ => perform (StoreFinish (set_status record StDenied) r)
      | ToolFailed _ _ _ error => perform (StoreFail (set_status record StFailed) error)
      end
  end.

Inductive ExecutorPhaseResult :=
| PhaseCompleted (raw_outcome : RawToolOutcome)
| PhaseSuspended (suspend_token : str)
| PhaseFailed (error : ToolExecutionError).

(** Also [Ok] always: an error of the executor is a phase result. *)
Definition invoke_resolved_executor (x : ToolExecutor) (c : FinalToolCall) :
    M (result ExecutorPhaseResult ToolExecutionError) :=
  let! r := outside (executor_invoke x c) in
  let! _ := perform (InvokeExecutor x c r) in
  St.ret match r with
         | Ok (OutputCompleted raw) => Ok (PhaseCompleted raw)
         | Ok (OutputSuspended token) => Ok (PhaseSuspended token)
         | Err e => Ok (PhaseFailed e)
         end.

(** *** Results and events *)

Definition first_deny (pre : list PreHookResult) : option str :=
  head (omap (fun r => match r with Deny reason => Some reason | _ => None end) pre).

Definition build_denied_result (st : ToolExecutionState) : ToolExecutionResult :=
  Denied (st_final_call st) (st_pre st) (st_error_hooks st)
    match st_execution_error st with
    | Some e => Some e
    | None => PermissionDenied <$> first_deny (st_pre st)
    end.
Definition build_failed_result (st : ToolExecutionState) (e : ToolExecutionError) :=
  ToolFailed (st_final_call st) (st_pre st) (st_error_hooks st) e.
Definition build_completed_result (st : ToolExecutionState) (raw : RawToolOutcome) :=
  Completed (st_final_call st) raw (st_pre st) (st_post st).
Definition build_suspended_result (st : ToolExecutionState) (token : str) :=
  Suspended (st_final_call st) (st_pre st) token.

Definition format_tool_args_preview (c : FinalToolCall) : str :=
  json_to_string_pretty (call_input c).
Definition denied_reason (st : ToolExecutionState) : str :=
  match first_deny (st_pre st) with
  | Some reason => reason
  | None => default (lit "tool execution denied") (tool_error_str <$> st_execution_error st)
  end.
Definition result_error_message (r : ToolExecutionResult) : str :=
  match r with
  | ToolFailed _ _ _ e => tool_error_str e
  | Denied _ _ _ error => default (lit "tool execution denied") (tool_error_str <$> error)
  | _ => []
  end.

Definition emit_failed (st : ToolExecutionState) (r : ToolExecutionResult) : M () :=
  perform (Emit (EvFailed (call_id (st_final_call st)) (tool_name (st_final_call st))
                   (result_error_message r) (format_tool_args_preview (st_final_call st)))).
Definition emit_completed (st : ToolExecutionState) : M () :=
  perform (Emit (EvCompleted (call_id (st_final_call st)) (tool_name (st_final_call st))
                   (format_tool_args_preview (st_final_call st)))).

(** The end of a call whose executor, or whose post-hooks, failed. *)
Definition finish_failed (st : ToolExecutionState) (error : ToolExecutionError) :
    M (result ToolExecutionResult ToolExecutionError) :=
  let! st := collect_error_hook_results_after_begin st error in
  let r := build_failed_result st error in
  let! _ := persist_terminal_lifecycle st r in
  let! _ := emit_failed st r in
  St.ret (Ok r).
Definition finish_completed (st : ToolExecutionState) (raw : RawToolOutcome) :
    M (result ToolExecutionResult ToolExecutionError) :=
  let r := build_completed_result st raw in
  let! _ := persist_terminal_lifecycle st r in
  let! _ := emit_completed st in
  St.ret (Ok r).

(** What follows a running call: executor, then post-hooks or error hooks. *)
Definition run_executor (x : ToolExecutor) (st : ToolExecutionState) :
    M (result ToolExecutionResult ToolExecutionError) :=
  let! phase := invoke_resolved_executor x (st_final_call st) in
  match phase with
  | Ok (PhaseSuspended token) =>
      let r := build_suspended_result st token in
      let! _ := persist_terminal_lifecycle st r in
      St.ret (Ok r)
  | Err error => finish_failed (with_error st (Some error)) error
  | Ok (PhaseFailed error) => finish_failed (with_error st (Some error)) error
  | Ok (PhaseCompleted raw) =>
      let! ' (st, post) := run_post_hook_sequence (with_outcome st (Some raw)) in
      match post with
      | Ok results =>
          let st := with_post st results in
          finish_completed st (default raw (st_raw_outcome st))
      | Err error =>
          let! st := collect_error_hook_results_after_begin (with_error st (Some error)) error in
          finish_completed st (default raw (st_raw_outcome st))
      end
  end.

(** [ToolCallImpl::execute]. *)
Definition execute (tc : ToolCallImpl) : M (result ToolExecutionResult ToolExecutionError) :=
  let st := initialize_execution_state (tc_final_call tc) in
  let! ' (st, pre) := run_pre_hook_sequence st in
  let st := match pre with
            | Ok results => with_pre st results
            | Err error =>
                with_pre st [Deny (lit "pre-hook phase failed, tool call denied (fail-closed): "
                                   ++ tool_error_str error)]
            end in
  match first_deny (st_pre st) with
  | Some _ =>
      let r := build_denied_result st in
      let! _ := perform (Emit (EvDenied (call_id (st_final_call st)) (tool_name (st_final_call st))
                                 (denied_reason st) (format_tool_args_preview (st_final_call st)))) in
      St.ret (Ok r)
  | None =>
      let! record := load_execution_context (st_final_call st) (tc_spec tc) in
      match record with
      | Ok record =>
          let! st := mark_lifecycle_running (with_record st (Some record)) in
          let! _ := perform (Emit (EvRunning (call_id (st_final_call st))
                                     (tool_name (st_final_call st))
                                     (format_tool_args_preview (st_final_call st)))) in
          run_executor (tc_executor tc) st
      | Err error =>
          let! st := collect_error_hook_results_after_begin (with_error st (Some error)) error in
          let r := build_failed_result st error in
          let! _ := emit_failed st r in
          St.ret (Ok r)
      end
  end.

(** ** What the trace of a call looks like *)

(** The answers that let a call go on, and the call they make of it. *)
Definition consent (c : FinalToolCall) (id : str)
    (o : result HookInvokePrimary HookInvokeError) : option (FinalToolCall * PreHookResult) :=
  match o with
  | Ok (PrimaryPre (Allow extra)) => Some (accumulate_extra c id extra, Allow None)
  | Ok (PrimaryPre (Transform v extra)) =>
      let c := accumulate_extra (set_input c v) id extra in
      Some (c, Transform (call_input c) None)
  | _ => None
  end.

(** The pre-hook loop over the answers it gets. *)
Inductive pre_trace : list Hooker → FinalToolCall → list Effect → FinalToolCall →
    list PreHookResult → Prop :=
| pre_nil c : pre_trace [] c [] c []
| pre_stop h hs c o reason :
    consent c (hooker_id h) o = None →
    pre_trace (h :: hs) c [InvokeHooker (hooker_id h) (HookPre (hooker_visible_call c)) o] c
      [Deny reason]
| pre_next h hs c o c1 r tr c2 rs :
    consent c (hooker_id h) o = Some (c1, r) →
    pre_trace hs c1 tr c2 rs →
    pre_trace (h :: hs) c (InvokeHooker (hooker_id h) (HookPre (hooker_visible_call c)) o :: tr) c2
      (r :: rs).

Lemma invoke_hooker_run h i s :
  ∃ o s', invoke_hooker h i s = (o, s') ∧ effects s' = effects s ++ [InvokeHooker (hooker_id h) i o].
Proof.
  unfold invoke_hooker, outside, perform, St.bind, St.ret.
  destruct (hooker_invoke h i (world s)) as [o w]. eauto.
Qed.

Lemma pre_hook_loop_run hs c rs s :
  ∃ c' new tr s', pre_hook_loop hs c rs s = ((c', rs ++ new), s') ∧
    effects s' = effects s ++ tr ∧ pre_trace hs c tr c' new.
Proof.
  revert c rs s. induction hs as [|h hs IH]; intros c rs s; simpl.
  - exists c, [], [], s. rewrite !app_nil_r. repeat constructor.
  - unfold St.bind.
    destruct (invoke_hooker_run h (HookPre (hooker_visible_call c)) s) as (o & s1 & -> & E1).
    assert (∀ c1 r, consent c (hooker_id h) o = Some (c1, r) →
      ∃ c' new tr s', pre_hook_loop hs c1 (rs ++ [r]) s1 = ((c', rs ++ new), s') ∧
        effects s' = effects s ++ tr ∧ pre_trace (h :: hs) c tr c' new) as Hnext.
    { intros c1 r Hc. destruct (IH c1 (rs ++ [r]) s1) as (c' & new & tr & s' & E & Es & Hp).
      exists c', (r :: new), (InvokeHooker (hooker_id h) (HookPre (hooker_visible_call c)) o :: tr), s'.
      rewrite E, <-app_assoc, Es, E1, <-app_assoc. eauto using pre_trace. }
    destruct o as [[[e|reason|v e]|p|p|p]|e]; simpl in Hnext; eauto 12 using pre_trace.
Qed.

(** Every hooker of [hs] is asked once, in order, with an input in [P]. *)
Definition asks (hs : list Hooker) (P : HookInvokeInput → Prop) (tr : list Effect) : Prop :=
  Forall2 (fun h e => ∃ i o, e = InvokeHooker (hooker_id h) i o ∧ P i) hs tr.

Definition tool_hookers (c : FinalToolCall) (s : ToolStage) : list Hooker :=
  phase_hookers rt_hookers (build_tool_hook_point rt_agent_id (tool_name c) (stage_str s)).

(** The category check of a stage cannot fail. *)
Lemma stage_hookers_ok c s label expected :
  stage_hookers c s label expected =
  Ok match tool_hookers c s with [] => None | hs => Some hs end.
Proof.
  unfold stage_hookers, tool_hookers.
  destruct (phase_hookers _ _) as [|h hs] eqn:E; [done|].
  rewrite resolve_tool_point. by rewrite decide_True.
Qed.

Lemma post_hook_loop_run hs c out rs s :
  ∃ out' new tr s', post_hook_loop hs c out rs s = ((out', rs ++ new), s') ∧
    effects s' = effects s ++ tr ∧
    asks hs (fun i => ∃ o, i = HookPost (hooker_visible_call c) o) tr.
Proof.
  revert out rs s. induction hs as [|h hs IH]; intros out rs s; simpl.
  - exists out, [], [], s. rewrite !app_nil_r. repeat constructor.
  - unfold St.bind.
    destruct (invoke_hooker_run h (HookPost (hooker_visible_call c) out) s) as (o & s1 & -> & E1).
    assert (∀ out1 new, ∃ out' new' tr s',
      post_hook_loop hs c out1 (rs ++ new) s1 = ((out', rs ++ new'), s') ∧
      effects s' = effects s ++ tr ∧
      asks (h :: hs) (fun i => ∃ o, i = HookPost (hooker_visible_call c) o) tr) as Hnext.
    { intros out1 new. destruct (IH out1 (rs ++ new) s1) as (out' & new' & tr & s' & E & Es & Ha).
      exists out', (new ++ new'), (InvokeHooker (hooker_id h) (HookPost (hooker_visible_call c) out) o :: tr), s'.
      rewrite E, Es, E1, <-!app_assoc. split_and!; [done..|]. constructor; eauto. }
    destruct o as [[p|[|m]|p|p]|e]; first [apply Hnext | specialize (Hnext out []); rewrite app_nil_r in Hnext; apply Hnext].
Qed.

Lemma error_hook_loop_run hs c err rs s :
  ∃ new tr s', error_hook_loop hs c err rs s = (rs ++ new, s') ∧
    effects s' = effects s ++ tr ∧ asks hs (eq (HookError (hooker_visible_call c) err)) tr.
Proof.
  revert rs s. induction hs as [|h hs IH]; intros rs s; simpl.
  - exists [], [], s. rewrite !app_nil_r. repeat constructor.
  - unfold St.bind.
    destruct (invoke_hooker_run h (HookError (hooker_visible_call c) err) s) as (o & s1 & -> & E1).
    assert (∀ new, ∃ new' tr s',
      error_hook_loop hs c err (rs ++ new) s1 = (rs ++ new', s') ∧
      effects s' = effects s ++ tr ∧
      asks (h :: hs) (eq (HookError (hooker_visible_call c) err)) tr) as Hnext.
    { intros new. destruct (IH (rs ++ new) s1) as (new' & tr & s' & E & Es & Ha).
      exists (new ++ new'), (InvokeHooker (hooker_id h) (HookError (hooker_visible_call c) err) o :: tr), s'.
      rewrite E, Es, E1, <-!app_assoc. split_and!; [done..|]. constructor; eauto. }
    destruct o as [[p|p|p|p]|e]; first [apply Hnext | specialize (Hnext []); rewrite app_nil_r in Hnext; apply Hnext].
Qed.

(** *** The protocol

    The trace a call leaves and the result it reports: hookers are asked
    before the store is told, the store before the executor runs, and the
    store and the listeners hear the same end. *)
Definition ev_preview (c : FinalToolCall) (mk : str → str → str → ToolLifecycleEvent) : Effect :=
  Emit (mk (call_id c) (tool_name c) (json_to_string_pretty (call_input c))).

Definition started (x : ToolExecutor) (c : FinalToolCall) (record : ToolLifecycleRecord)
    (answer : result ToolExecutorOutput ToolExecutionError) : list Effect :=
  [StoreBegin c; StoreUpdate (set_status record StRunning); ev_preview c EvRunning;
   InvokeExecutor x c answer].
Definition closed_record (record : ToolLifecycleRecord) (now : Z) (status : ToolLifecycleStatus) :=
  set_status (set_finished (set_status record StRunning) now) status.

Inductive protocol (x : ToolExecutor) (c0 : FinalToolCall) :
    list Effect → ToolExecutionResult → Prop :=
| proto_denied tr c pre reason :
    pre_trace (tool_hookers c0 StagePre) c0 tr c pre → first_deny pre = Some reason →
    protocol x c0 (tr ++ [ev_preview c (fun i n p => EvDenied i n reason p)])
      (Denied c pre [] (Some (PermissionDenied reason)))
| proto_suspended tr c pre record now token :
    pre_trace (tool_hookers c0 StagePre) c0 tr c pre → first_deny pre = None →
    let r := Suspended c pre token in
    protocol x c0 (tr ++ started x c record (Ok (OutputSuspended token))
                   ++ [StoreFinish (closed_record record now StSuspended) r]) r
| proto_completed tr c pre record now raw tr2 raw' post :
    pre_trace (tool_hookers c0 StagePre) c0 tr c pre → first_deny pre = None →
    asks (tool_hookers c StagePost) (fun i => ∃ o, i = HookPost (hooker_visible_call c) o) tr2 →
    let r := Completed c raw' pre post in
    protocol x c0 (tr ++ started x c record (Ok (OutputCompleted raw)) ++ tr2
                   ++ [StoreFinish (closed_record record now StCompleted) r;
                       ev_preview c EvCompleted]) r
| proto_failed tr c pre record now error tr2 eh :
    pre_trace (tool_hookers c0 StagePre) c0 tr c pre → first_deny pre = None →
    asks (tool_hookers c StageError) (eq (HookError (hooker_visible_call c) error)) tr2 →
    protocol x c0 (tr ++ started x c record (Err error) ++ tr2
                   ++ [StoreFail (closed_record record now StFailed) error;
                       ev_preview c (fun i n p => EvFailed i n (tool_error_str error) p)])
      (ToolFailed c pre eh error).

Lemma run_pre_hook_sequence_run c s :
  ∃ c' pre tr s',
    run_pre_hook_sequence (initialize_execution_state c) s =
      ((with_call (initialize_execution_state c) c', Ok pre), s') ∧
    effects s' = effects s ++ tr ∧ pre_trace (tool_hookers c StagePre) c tr c' pre.
Proof.
  unfold run_pre_hook_sequence. rewrite stage_hookers_ok. cbn [st_final_call initialize_execution_state].
  destruct (tool_hookers c StagePre) as [|h hs].
  - exists c, [], [], s. rewrite app_nil_r. repeat constructor.
  - unfold St.bind. destruct (pre_hook_loop_run (h :: hs) c [] s) as (c' & new & tr & s' & -> & E & Hp).
    exists c', new, tr, s'. done.
Qed.

(** The state in which the executor is invoked. *)
Definition running_state (c : FinalToolCall) (pre : list PreHookResult)
    (record : ToolLifecycleRecord) : ToolExecutionState :=
  with_record (with_pre (initialize_execution_state c) pre) (Some (set_status record StRunning)).

Lemma run_post_run c pre record raw s :
  let st := with_outcome (running_state c pre record) (Some raw) in
  ∃ raw' post tr s',
    run_post_hook_sequence st s = ((with_outcome st (Some raw'), Ok post), s') ∧
    effects s' = effects s ++ tr ∧
    asks (tool_hookers c StagePost) (fun i => ∃ o, i = HookPost (hooker_visible_call c) o) tr.
Proof.
  intros st. unfold run_post_hook_sequence. cbn [st_raw_outcome with_outcome st].
  rewrite stage_hookers_ok. change (st_final_call st) with c.
  destruct (tool_hookers c StagePost) as [|h hs].
  - exists raw, [], [], s. rewrite app_nil_r. repeat constructor.
  - unfold St.bind. destruct (post_hook_loop_run (h :: hs) c raw [] s) as (o & new & tr & s' & -> & E & Hp).
    exists o, new, tr, s'. done.
Qed.

Lemma collect_error_run st error s :
  ∃ eh tr s', collect_error_hook_results_after_begin st error s = (with_error_hooks st eh, s') ∧
    effects s' = effects s ++ tr ∧
    asks (tool_hookers (st_final_call st) StageError)
      (eq (HookError (hooker_visible_call (st_final_call st)) error)) tr.
Proof.
  unfold collect_error_hook_results_after_begin, run_error_hook_sequence. rewrite stage_hookers_ok.
  destruct (tool_hookers _ _) as [|h hs].
  - exists [], [], s. rewrite app_nil_r. repeat constructor.
  - unfold St.bind, St.ret.
    destruct (error_hook_loop_run (h :: hs) (st_final_call st) error [] s) as (new & tr & s' & -> & E & Hp).
    exists new, tr, s'. done.
Qed.

Lemma run_executor_run x c pre record s :
  ∃ r tr s', run_executor x (running_state c pre record) s = (Ok r, s') ∧
    effects s' = effects s ++ tr ∧
    ∀ c0 tr0, pre_trace (tool_hookers c0 StagePre) c0 tr0 c pre → first_deny pre = None →
    protocol x c0 (tr0 ++ [StoreBegin c; StoreUpdate (set_status record StRunning);
                           ev_preview c EvRunning] ++ tr) r.
Proof.
  unfold run_executor, invoke_resolved_executor, outside at 1, perform at 1, St.bind, St.ret.
  change (st_final_call (running_state c pre record)) with c.
  destruct (executor_invoke x c (world s)) as [answer w] eqn:Ex.
  cbn [world effects]. destruct answer as [[raw|token]|error]; cbn beta iota.
  - destruct (run_post_run c pre record raw
      {| world := w; effects := effects s ++ [InvokeExecutor x c (Ok (OutputCompleted raw))] |})
      as (raw' & post & tr & s' & -> & E & Ha). cbn [effects] in E.
    unfold finish_completed, persist_terminal_lifecycle, outside, perform, St.bind, St.ret. cbn.
    destruct (current_time_ms (world s')) as [now w'] eqn:Ec.
    eexists _, _, _. split; [reflexivity|]. cbn [effects]. rewrite E, <-!app_assoc. split; [reflexivity|].
    intros c0 tr0 Hp Hd. exact (proto_completed x c0 tr0 c pre record now raw tr raw' post Hp Hd Ha).
  - unfold persist_terminal_lifecycle, outside, perform, St.bind, St.ret. cbn.
    destruct (current_time_ms w) as [now w'] eqn:Ec.
    eexists _, _, _. split; [reflexivity|]. cbn [effects]. rewrite <-!app_assoc. split; [reflexivity|].
    intros c0 tr0 Hp Hd. exact (proto_suspended x c0 tr0 c pre record now token Hp Hd).
  - unfold finish_failed.
    destruct (collect_error_run (with_error (running_state c pre record) (Some error)) error
      {| world := w; effects := effects s ++ [InvokeExecutor x c (Err error)] |})
      as (eh & tr & s' & E1 & E & Ha). unfold St.bind at 1. rewrite E1. cbn [effects] in E.
    unfold persist_terminal_lifecycle, emit_failed, outside, perform, St.bind, St.ret. cbn.
    destruct (current_time_ms (world s')) as [now w'] eqn:Ec.
    eexists _, _, _. split; [reflexivity|]. cbn [effects]. rewrite E, <-!app_assoc. split; [reflexivity|].
    intros c0 tr0 Hp Hd. exact (proto_failed x c0 tr0 c pre record now error tr eh Hp Hd Ha).
Qed.

Lemma execute_runs tc s :
  ∃ r tr s', execute tc s = (Ok r, s') ∧ effects s' = effects s ++ tr ∧
    protocol (tc_executor tc) (tc_final_call tc) tr r.
Proof.
  unfold execute. unfold St.bind at 1.
  destruct (run_pre_hook_sequence_run (tc_final_call tc) s) as (c & pre & tr & s1 & -> & E1 & Hp).
  cbn [st_pre with_pre]. destruct (first_deny pre) as [reason|] eqn:Hd.
  - unfold perform, St.bind, St.ret. eexists _, _, _. split; [reflexivity|]. cbn [effects].
    rewrite E1, <-app_assoc. split; [reflexivity|].
    unfold build_denied_result, denied_reason. cbn. rewrite Hd.
    exact (proto_denied (tc_executor tc) (tc_final_call tc) tr c pre reason Hp Hd).
  - unfold load_execution_context, mark_lifecycle_running, outside, perform, St.bind, St.ret. cbn.
    destruct (store_begin c (tc_spec tc) (world s1)) as [record w] eqn:Eb. cbn.
    destruct (run_executor_run (tc_executor tc) c pre record
      {| world := w; effects := ((effects s1 ++ [StoreBegin c])
           ++ [StoreUpdate (set_status record StRunning)]) ++ [ev_preview c EvRunning] |})
      as (r & tr2 & s2 & E & Es & Hr).
    exists r, (tr ++ [StoreBegin c; StoreUpdate (set_status record StRunning);
                      ev_preview c EvRunning] ++ tr2), s2.
    split; [exact E|]. split; [|by apply Hr].
    rewrite Es. cbn [effects]. rewrite E1, <-!app_assoc. done.
Qed.
(** ** Consent *)

(** The questions put to pre-hookers, with their answers, and the runs of the
    executor, in a trace. *)
Definition pre_question (e : Effect) :
    option (str * FinalToolCall * result HookInvokePrimary HookInvokeError) :=
  match e with InvokeHooker id (HookPre c) o => Some (id, c, o) | _ => None end.
Definition execution (e : Effect) : option (ToolExecutor * FinalToolCall) :=
  match e with InvokeExecutor x c _ => Some (x, c) | _ => None end.
Definition consents (o : result HookInvokePrimary HookInvokeError) : bool :=
  match o with Ok (PrimaryPre (Allow _ | Transform _ _)) => true | _ => false end.
(** The call after the answers [qs]. *)
Definition answered (c : FinalToolCall)
    (qs : list (str * FinalToolCall * result HookInvokePrimary HookInvokeError)) : FinalToolCall :=
  foldl (fun c q => match consent c q.1.1 q.2 with Some (c', _) => c' | None => c end) c qs.

Lemma consents_consent c id o : consents o = bool_decide (is_Some (consent c id o)).
Proof. by destruct o as [[[e|r|v e]|p|p|p]|e]. Qed.

Lemma accumulate_extra_ids c id e :
  call_id (accumulate_extra c id e) = call_id c ∧ tool_name (accumulate_extra c id e) = tool_name c.
Proof. unfold accumulate_extra. repeat case_match; done. Qed.
Lemma consent_ids c id o c1 r :
  consent c id o = Some (c1, r) → call_id c1 = call_id c ∧ tool_name c1 = tool_name c.
Proof.
  destruct o as [[[e|?|v e]|p|p|p]|e]; simpl; intros [= <- <-].
  - apply accumulate_extra_ids.
  - apply (accumulate_extra_ids (set_input c v)).
Qed.
Lemma pre_trace_ids hs c tr c' pre :
  pre_trace hs c tr c' pre → call_id c' = call_id c ∧ tool_name c' = tool_name c.
Proof. induction 1; [done..|]. apply consent_ids in H1. naive_solver congruence. Qed.

(** The result of a consenting hooker is not a refusal. *)
Lemma consent_result c id o c1 r : consent c id o = Some (c1, r) → first_deny [r] = None.
Proof. destruct o as [[[e|?|v e]|p|p|p]|e]; simpl; by intros [= <- <-]. Qed.
Lemma first_deny_cons r rs : first_deny [r] = None → first_deny (r :: rs) = first_deny rs.
Proof. unfold first_deny. by destruct r. Qed.

(** A loop that ends without a refusal has asked everyone. *)
Lemma pre_trace_allowed hs c tr c' pre :
  pre_trace hs c tr c' pre → first_deny pre = None →
  let qs := omap pre_question tr in
  (fun q => q.1.1) <$> qs = hooker_id <$> hs ∧ Forall (fun q => consents q.2 = true) qs ∧
  Forall (fun q => call_extra q.1.2 = None) qs ∧ c' = answered c qs ∧ omap execution tr = [].
Proof.
  induction 1 as [c|h hs c o reason Hc|h hs c o c1 r tr c2 rs Hc Hp IH].
  - by repeat constructor.
  - by unfold first_deny.
  - rewrite first_deny_cons by by eapply consent_result. intros Hd.
    destruct (IH Hd) as (Eids & Hall & Hex & Eans & Hx). cbn [omap list_omap pre_question].
    split_and!.
    + cbn. by rewrite Eids.
    + constructor; [|done]. cbn [snd]. by rewrite (consents_consent c (hooker_id h)), Hc.
    + by constructor.
    + cbn. by rewrite Hc.
    + done.
Qed.

(** A loop that ends with a refusal stopped at the hooker that refused. *)
Lemma pre_trace_denied hs c tr c' pre reason :
  pre_trace hs c tr c' pre → first_deny pre = Some reason →
  let qs := omap pre_question tr in
  ∃ qs' q, qs = qs' ++ [q] ∧ (fun q => q.1.1) <$> qs = hooker_id <$> take (length qs) hs ∧
    Forall (fun q => consents q.2 = true) qs' ∧ consents q.2 = false ∧ omap execution tr = [].
Proof.
  induction 1 as [c|h hs c o reason0 Hc|h hs c o c1 r tr c2 rs Hc Hp IH].
  - done.
  - intros _. eexists [], _. cbn. split_and!; [done|done|constructor| |done].
    cbn [snd]. by rewrite (consents_consent c (hooker_id h)), Hc.
  - rewrite first_deny_cons by by eapply consent_result. intros Hd.
    destruct (IH Hd) as (qs' & q & E & Eids & Hall & Hq & Hx). cbn [omap list_omap pre_question].
    eexists (_ :: qs'), q. split_and!; [by rewrite E|..].
    + cbn. by rewrite Eids.
    + constructor; [|done]. cbn [snd]. by rewrite (consents_consent c (hooker_id h)), Hc.
    + done.
    + done.
Qed.

Lemma asks_silent hs P tr :
  asks hs P tr → (∀ i, P i → ∀ c, i ≠ HookPre c) →
  omap pre_question tr = [] ∧ omap execution tr = [].
Proof.
  intros Ha HP. induction Ha as [|h e hs tr (i & o & -> & Hi) _ IH]; [done|].
  cbn. destruct i; [by destruct (HP _ Hi call)|..]; exact IH.
Qed.

(** Who was asked and what ran, in a protocol trace. *)
Definition consent_spec (x : ToolExecutor) (c0 : FinalToolCall) (tr : list Effect)
    (r : ToolExecutionResult) : Prop :=
  let hs := tool_hookers c0 StagePre in
  let qs := omap pre_question tr in
  match r with
  | Denied _ _ _ _ =>
      omap execution tr = [] ∧
      ∃ qs' q, qs = qs' ++ [q] ∧ (fun q => q.1.1) <$> qs = hooker_id <$> take (length qs) hs ∧
        Forall (fun q => consents q.2 = true) qs' ∧ consents q.2 = false
  | _ =>
      (fun q => q.1.1) <$> qs = hooker_id <$> hs ∧
      Forall (fun q => consents q.2 = true ∧ call_extra q.1.2 = None) qs ∧
      omap execution tr = [(x, answered c0 qs)]
  end.

Lemma protocol_consent x c0 tr r : protocol x c0 tr r → consent_spec x c0 tr r.
Proof.
  intros Hp.
  destruct Hp as [tr c pre reason Hp Hd|tr c pre record now token Hp Hd
    |tr c pre record now raw tr2 raw' post Hp Hd Ha|tr c pre record now error tr2 eh Hp Hd Ha];
    unfold consent_spec; rewrite !omap_app.
  { destruct (pre_trace_denied _ _ _ _ _ _ Hp Hd) as (qs' & q & ? & ? & ? & ? & ?).
    cbn [omap list_omap pre_question execution ev_preview]. rewrite !app_nil_r. eauto 10. }
  all: destruct (pre_trace_allowed _ _ _ _ _ Hp Hd) as (Eids & Hall & Hex & -> & ->).
  2: apply asks_silent in Ha as [-> ->]; [|by intros ? [? ->]].
  3: apply asks_silent in Ha as [-> ->]; [|by intros ? <-].
  all: cbn; rewrite !app_nil_r; split_and!; [done| |done]; by apply Forall_and.
Qed.

Lemma protocol_execution x c0 tr r y c :
  protocol x c0 tr r → (y, c) ∈ omap execution tr →
  Forall (fun q => consents q.2 = true) (omap pre_question tr) ∧
  c = answered c0 (omap pre_question tr).
Proof.
  intros Hp%protocol_consent Hx. unfold consent_spec in Hp.
  destruct r; [destruct Hp as [E _]; rewrite E in Hx; by apply elem_of_nil in Hx|..];
    destruct Hp as (_ & [Hall _]%Forall_and & E); rewrite E in Hx;
    apply list_elem_of_singleton in Hx as [= -> ->]; done.
Qed.

Lemma protocol_ids x c0 tr r :
  protocol x c0 tr r → result_call_id r = call_id c0 ∧ result_tool_name r = tool_name c0.
Proof.
  intros Hp. destruct Hp as [???? Hp|????? ? Hp|????????? Hp|???????? Hp];
    by apply pre_trace_ids in Hp as [??].
Qed.

(** C20: a tool runs only with the consent of every enabled pre-hooker of its
    hook point. Unless the call is denied, they were all asked, in id order,
    all allowed or transformed it, none saw what another contributed, and the
    executor ran once, on the call with their changes; a denied call stopped
    at a hooker that refused, failed or answered something else, and the
    executor did not run. *)
Theorem execute_needs_consent tc s r s' :
  execute tc s = (Ok r, s') →
  ∃ tr, effects s' = effects s ++ tr ∧ consent_spec (tc_executor tc) (tc_final_call tc) tr r.
Proof.
  intros E. destruct (execute_runs tc s) as (r' & tr & s1 & E' & Htr & Hp).
  rewrite E in E'. injection E' as <- <-. eauto using protocol_consent.
Qed.

(** C32: executing a call always ends with a result, never with an error, and
    leaves a trace of the protocol: pre-hooks; then either the event of the
    denial, or begin, running, executor, the hooks of the outcome, one
    closing record of the store that matches the result, and its event (a
    suspended call has none). The result carries the call's id and tool
    name. *)
Theorem execute_follows_protocol tc s :
  ∃ r tr s', execute tc s = (Ok r, s') ∧ effects s' = effects s ++ tr ∧
    protocol (tc_executor tc) (tc_final_call tc) tr r ∧
    result_call_id r = call_id (tc_final_call tc) ∧
    result_tool_name r = tool_name (tc_final_call tc).
Proof.
  destruct (execute_runs tc s) as (r & tr & s' & E & Htr & Hp). exists r, tr, s'.
  destruct (protocol_ids _ _ _ _ Hp). done.
Qed.
(** ** Spawn wrappers of plugins *)

(** What an answer adds to the call's [extra], and the wrapper in it. *)
Definition contribution (o : result HookInvokePrimary HookInvokeError) : option Json :=
  match o with
  | Ok (PrimaryPre (Allow (Some e) | Transform _ (Some e))) =>
      match e with JNull => None | e => Some e end
  | _ => None
  end.
Definition tagged (id : str) (e : Json) : Json :=
  match e with
  | JObject map => JObject (field_insert (lit "hooker_id") (JString id) map)
  | other => other
  end.
Definition wrapper_in (e : Json) : option SpawnWrapper :=
  json_get e (lit "spawn_wrapper") ≫= parse_spawn_wrapper.

Lemma wrapper_in_tagged id e : wrapper_in (tagged id e) = wrapper_in e.
Proof.
  unfold wrapper_in. destruct e; try done. cbn [tagged json_get]. by rewrite field_insert_lookup.
Qed.

Lemma wrapper_steps w l :
  foldl wrapper_step w l = match w with Some _ => w | None => head (omap wrapper_in l) end.
Proof.
  revert w. induction l as [|e l IH]; intros w; cbn [foldl]; [by destruct w|]. rewrite IH.
  unfold wrapper_step, wrapper_in. cbn [omap list_omap].
  destruct (json_get e (lit "spawn_wrapper")) as [v|]; cbn; [|done].
  by destruct (parse_spawn_wrapper v), w.
Qed.

(** The extra channel as the list of its entries. *)
Definition extra_entries (c : FinalToolCall) : option (list Json) :=
  match call_extra c with
  | None => Some []
  | Some (JArray l) => Some l
  | Some _ => None
  end.

Lemma accumulate_extra_entries c id e l :
  extra_entries c = Some l →
  extra_entries (accumulate_extra c id e) =
  Some (l ++ match e with
             | None | Some JNull => []
             | Some e => [tagged id e]
             end).
Proof.
  unfold extra_entries, accumulate_extra. intros E.
  destruct e as [[| | | | |]|]; rewrite ?app_nil_r; try exact E;
    destruct (call_extra c) as [[| | | | |]|]; simplify_eq; reflexivity.
Qed.

Lemma consent_entries c id o c1 r l :
  consent c id o = Some (c1, r) → extra_entries c = Some l →
  extra_entries c1 = Some (l ++ option_list (tagged id <$> contribution o)).
Proof.
  destruct o as [[[e|?|v e]|p|p|p]|e]; cbn [consent]; intros [= <- <-] E.
  - rewrite (accumulate_extra_entries _ _ _ _ E). by destruct e as [[]|].
  - rewrite (accumulate_extra_entries (set_input c v) _ _ _ E). by destruct e as [[]|].
Qed.

Lemma answered_entries c qs l :
  Forall (fun q => consents q.2 = true) qs → extra_entries c = Some l →
  extra_entries (answered c qs) =
  Some (l ++ omap (fun q => tagged q.1.1 <$> contribution q.2) qs).
Proof.
  intros Hall. revert c l. induction Hall as [|[[id v] o] qs Hq _ IH]; intros c l E.
  - by rewrite app_nil_r.
  - unfold answered. cbn [foldl fst snd] in *. rewrite (consents_consent c id) in Hq.
    apply bool_decide_eq_true in Hq as [[c1 r] Hc]. rewrite Hc.
    fold (answered c1 qs). rewrite (IH c1 _ (consent_entries _ _ _ _ _ _ Hc E)), <-app_assoc.
    f_equal. f_equal. cbn [omap list_omap fst snd]. by destruct (contribution o).
Qed.

(** A call built for the batch runs under the spawn wrapper of the first
    pre-hooker, in id order, whose contribution holds a well-formed one, and
    under none if there is no such hooker. *)
Theorem plugin_wrapper_priority raw f tc s r s' tr x c :
  build_with_filter_ref raw f = Ok tc → execute tc s = (Ok r, s') →
  effects s' = effects s ++ tr → (x, c) ∈ omap execution tr →
  spawn_wrapper_from_extra (call_extra c) =
  head (omap (fun q => contribution q.2 ≫= wrapper_in) (omap pre_question tr)).
Proof.
  intros Hb E Htr Hx. destruct (execute_runs tc s) as (r' & tr' & s1 & E' & Htr' & Hp).
  rewrite E in E'. injection E' as <- <-. rewrite Htr in Htr'. apply app_inv_head in Htr' as <-.
  destruct (protocol_execution _ _ _ _ _ _ Hp Hx) as (Hall & ->).
  assert (extra_entries (tc_final_call tc) = Some []) as E0.
  { revert Hb. unfold build_with_filter_ref. repeat case_match; intros; simplify_eq; done. }
  pose proof (answered_entries _ _ _ Hall E0) as El. cbn [app] in El.
  set (qs := omap pre_question tr) in *. unfold extra_entries in El.
  assert (omap (fun q => contribution q.2 ≫= wrapper_in) qs =
          omap wrapper_in (omap (fun q => tagged q.1.1 <$> contribution q.2) qs)) as ->.
  { clear. induction qs as [|q qs IH]; [done|]. cbn. rewrite IH.
    destruct (contribution q.2); [|done]. cbn. by rewrite wrapper_in_tagged. }
  unfold spawn_wrapper_from_extra. repeat case_match; simplify_eq; rewrite ?wrapper_steps; try done.
  by rewrite <-El.
Qed.
End Execute.

(** ** The filter *)

Lemma collect_map_elem {A} (l : list (str * A)) k v :
  collect_map l !! k = Some v → (k, v) ∈ l.
Proof. unfold collect_map. intros H%elem_of_list_to_map_2. by rewrite elem_of_reverse in H. Qed.
Lemma collect_map_none {A} (l : list (str * A)) k :
  collect_map l !! k = None ↔ k ∉ l.*1.
Proof.
  unfold collect_map. rewrite <-not_elem_of_list_to_map, fmap_reverse. by rewrite elem_of_reverse.
Qed.

(** The executor the registry has for a spec, if it is that spec's. *)
Definition registered_executor (get_executor : str → option ToolExecutor) (spec : ToolSpecView)
    (x : ToolExecutor) : Prop :=
  get_executor (ts_id spec) = Some x ∧ ts_id (exec_spec x) = ts_id spec ∧
  ts_name (exec_spec x) = ts_name spec.

Lemma filter_executor visible get_executor name x :
  get_executor_for_name (tool_filter_from_specs visible get_executor) name = Some x →
  ∃ spec, spec ∈ visible ∧ ts_name spec = name ∧ registered_executor get_executor spec x.
Proof.
  unfold get_executor_for_name. cbn. intros (spec & Hs & E)%collect_map_elem%list_elem_of_omap.
  repeat case_match; simplify_eq. b2p. by exists spec.
Qed.

Lemma filter_executor_none visible get_executor name :
  get_executor_for_name (tool_filter_from_specs visible get_executor) name = None →
  ∀ spec x, spec ∈ visible → ts_name spec = name → ¬ registered_executor get_executor spec x.
Proof.
  unfold get_executor_for_name. cbn. rewrite collect_map_none. intros Hn spec x Hs <- (E & Ei & En).
  apply Hn. apply list_elem_of_fmap. exists (ts_name spec, x). split; [done|].
  apply list_elem_of_omap. exists spec. split; [done|]. rewrite E.
  by rewrite !bool_decide_true by done.
Qed.

(** With distinct tool names, a call of the model is built exactly when
    its tool is visible and the registry holds that tool's executor, under the
    same id and name; it keeps the id, name and input and starts without
    [extra]. Any other call is refused with a message that names the tool. *)
Theorem build_exactly_visible visible get_executor raw :
  NoDup (ts_name <$> visible) →
  match build_with_filter_ref raw (tool_filter_from_specs visible get_executor) with
  | Ok tc =>
      tc_spec tc ∈ visible ∧ ts_name (tc_spec tc) = raw_tool_name raw ∧
      registered_executor get_executor (tc_spec tc) (tc_executor tc) ∧
      tc_final_call tc = new_final_call (raw_call_id raw) (raw_tool_name raw) (raw_input raw)
  | Err e =>
      (∃ m, e = InvalidConfig (lit "tool '" ++ raw_tool_name raw ++ m)) ∧
      ∀ spec x, spec ∈ visible → ts_name spec = raw_tool_name raw →
        ¬ registered_executor get_executor spec x
  end.
Proof.
  intros Hnd. unfold build_with_filter_ref.
  destruct (get_spec_for_name _ _) as [spec|] eqn:Hs.
  - unfold get_spec_for_name in Hs. cbn in Hs.
    apply collect_map_elem, list_elem_of_fmap in Hs as (spec' & [= E ->] & Hs).
    destruct (get_executor_for_name _ _) as [x|] eqn:Hx.
    + apply filter_executor in Hx as (spec & Hsp & En & Hx). cbn.
      assert (spec = spec') as -> by (eapply (NoDup_fmap_eq ts_name); [done..|congruence]). done.
    + split; [by eexists|]. by apply filter_executor_none.
  - unfold get_spec_for_name in Hs. cbn in Hs. rewrite collect_map_none in Hs.
    split; [by eexists|]. intros spec x Hsp E _. apply Hs. rewrite <-E.
    rewrite <-list_fmap_compose. by apply (list_elem_of_fmap_2 (fst ∘ (fun s => (ts_name s, s)))).
Qed.

(** ** A concrete run *)

Definition demo_json : JsonText :=
  {| json_to_string _ := lit "{}"; json_to_string_pretty _ := lit "{}" |}.
Definition demo_wrapper_extra : Json :=
  JObject [(lit "spawn_wrapper", JObject [(lit "prefix", JArray [JString (lit "firejail")])])].

(** Hooker [a] contributes a wrapper, hooker [b] rewrites the input. *)
Definition demo_runtime : ToolRuntime := {|
  World := nat;
  rt_agent_id := lit "main";
  rt_hookers := demo_registry;
  hooker_invoke h i w :=
    (match i with
     | HookPre _ => if decide (hooker_id h = lit "a")
                    then Ok (PrimaryPre (Allow (Some demo_wrapper_extra)))
                    else Ok (PrimaryPre (Transform (JString (lit "ls -l")) None))
     | _ => Ok (PrimaryPost Accept)
     end, S w);
  executor_invoke _ _ w := (Ok (OutputCompleted (Success (lit "done"))), S w);
  store_begin c _ w :=
    ({| lr_call_id := call_id c; lr_tool_name := tool_name c; lr_status := StPending;
        started_at_ms := 0; finished_at_ms := None |}, S w);
  current_time_ms w := (Z.of_nat w, S w);
|}.

Definition demo_profile : EffectProfile :=
  {| reads_filesystem := true; writes_filesystem := true; network_access := false;
     side_effects := true |}.
Definition demo_spec : ToolSpecView :=
  {| ts_id := lit "builtin.bash"; ts_name := lit "bash"; ts_description := []; ts_input_schema := JNull;
     ts_output_contract := []; ts_effect_profile := demo_profile |}.
Definition demo_executors (id : str) : option ToolExecutor :=
  if decide (id = lit "builtin.bash") then Some {| exec_spec := demo_spec; exec_object := 0 |} else None.
Definition demo_raw : RawToolCall :=
  {| raw_call_id := lit "call_1"; raw_tool_name := lit "bash"; raw_input := JString (lit "ls") |}.
Definition demo_filter : ToolFilterImpl := tool_filter_from_specs [demo_spec] demo_executors.
Definition demo_call : ToolCallImpl :=
  {| tc_final_call := new_final_call (lit "call_1") (lit "bash") (JString (lit "ls"));
     tc_spec := demo_spec; tc_executor := {| exec_spec := demo_spec; exec_object := 0 |} |}.
Definition demo_run :=
  execute (H := demo_json) (H0 := ascii_case) (RT := demo_runtime) demo_call
    {| world := 0%nat : @World demo_runtime; effects := [] |}.

Lemma execute_needs_consent_witness :
  ∃ r, demo_run.1 = Ok r ∧
  consent_spec (RT := demo_runtime) (tc_executor demo_call) (tc_final_call demo_call)
    (effects demo_run.2) r.
Proof.
  eexists. split; [vm_compute; reflexivity|].
  destruct (execute_needs_consent (H := demo_json) (H0 := ascii_case) (RT := demo_runtime) demo_call
    {| world := 0%nat : @World demo_runtime; effects := [] |} _ demo_run.2
    ltac:(vm_compute; reflexivity)) as (tr & E & Hc).
  cbn [effects app] in E. rewrite E. exact Hc.
Defined.

Lemma plugin_wrapper_priority_witness :
  spawn_wrapper_from_extra (call_extra (answered (tc_final_call demo_call)
    (omap pre_question (effects demo_run.2)))) =
  Some {| prefix := [lit "firejail"]; externalize_fs_writes := false |}.
Proof.
  rewrite (plugin_wrapper_priority (H := demo_json) (H0 := ascii_case) (RT := demo_runtime) demo_raw
    demo_filter demo_call {| world := 0%nat : @World demo_runtime; effects := [] |}
    (match demo_run.1 with Ok r => r | Err _ => Suspended (tc_final_call demo_call) [] [] end)
    demo_run.2 (effects demo_run.2) (tc_executor demo_call)).
  - vm_compute. reflexivity.
  - vm_compute. reflexivity.
  - vm_compute. reflexivity.
  - reflexivity.
  - apply list_elem_of_singleton. vm_compute. reflexivity.
Defined.

Lemma build_exactly_visible_witness :
  ∃ tc, build_with_filter_ref demo_raw demo_filter = Ok tc ∧ tc_spec tc ∈ [demo_spec].
Proof.
  pose proof (build_exactly_visible [demo_spec] demo_executors demo_raw
    ltac:(apply NoDup_singleton)) as H.
  assert (build_with_filter_ref demo_raw demo_filter = Ok demo_call) as E by (vm_compute; reflexivity).
  unfold demo_filter in E. rewrite E in H. exists demo_call. split; [exact E|apply H].
Defined.
