(* ===== verification/Prompt.v ===== *)
(** * Prompt assembly

    crates/prompt: the decision about tools, the stable system sections, the
    per-turn reminder, and the request built of them; with the data of
    crates/agent-types/src/context/prompt. The prompt of chat channels
    ([compose_channel_system_prompt]) is left out. *)

From S2P Require Import Prelude RStr F64 Message Budget HostPath LocalPolicy Launcher HookPoint.
From S2P Require Import ToolCall.

Record FeatureFlags := {
  ff_auto_compact : bool;
  cache_editing : bool;
  tool_execution : bool;
  skill_matching : bool;
  kvcache_enabled : bool;
  kvcache_debug_enabled : bool;
  redact_secrets_display : bool;
}.

Record SkillSummary := { skill_id : str; skill_description : str }.
Record MemorySnippet := { snippet_source : str; snippet_content : str; relevance_score : f64 }.
Record EnvironmentInfo := {
  env_model : str;
  env_cwd : str;
  workspace_root : option str;
  env_date : str;
  env_agent_id : str;
}.

Inductive PromptBuildError :=
| SystemPromptTooLarge (tokens : Z)
| EmptyMessages
| BuildFailed (message : str).
Definition prompt_error_str (e : PromptBuildError) : str :=
  match e with
  | SystemPromptTooLarge n => lit "system prompt too large: " ++ show n ++ lit " tokens exceeds budget"
  | EmptyMessages => lit "no messages to build prompt from"
  | BuildFailed m => lit "build failed: " ++ m
  end.

(** ** Context *)

Record InstructionContext := { ins_source : str; ins_content : str }.
Record PromptContext := {
  environment : EnvironmentInfo;
  instructions : list InstructionContext;
  memory_snippets : list MemorySnippet;
  skill_snippets : list SkillSummary;
}.

Definition instruction_of (s : MemorySnippet) : option InstructionContext :=
  match strip_prefix (lit "instruction:") (snippet_source s) with
  | Some source => Some {| ins_source := trim source; ins_content := snippet_content s |}
  | None =>
      if decide (trim (snippet_source s) = lit "instruction")
      then Some {| ins_source := lit "memory"; ins_content := snippet_content s |}
      else None
  end.

(** The loop of [split_instruction_snippets]. *)
Definition split_instruction_snippets (snippets : list MemorySnippet) :
    list InstructionContext * list MemorySnippet :=
  foldl (fun '(ins, mem) s =>
           match instruction_of s with
           | Some i => (ins ++ [i], mem)
           | None => (ins, mem ++ [s])
           end) ([], []) snippets.

(** ** Sections *)

Definition nonempty (s : str) : option str := match s with [] => None | _ => Some s end.
Definition blank_line : str := [10; 10]%N.
Definition nl_str : str := [10]%N.

Definition WORKSPACE_PROMPT_MARKER_BEGIN : str := lit "<xiaoo_workspace_prompt>".
Definition WORKSPACE_PROMPT_MARKER_END : str := lit "</xiaoo_workspace_prompt>".
Definition REPO_MAP_HEADER : str :=
  lit "## Repository map" ++ nl_str ++
  lit "Static overview of source files and their top-level definitions (not exhaustive; use glob/grep for full detail):".

Definition split_workspace_prompt_block (base_system : str) : str * option str :=
  let base := trim base_system in
  match find WORKSPACE_PROMPT_MARKER_BEGIN base with
  | None => (base, None)
  | Some (before, rest) =>
      match find WORKSPACE_PROMPT_MARKER_END
              (drop (length WORKSPACE_PROMPT_MARKER_BEGIN) rest) with
      | None => (base, None)
      | Some (inside, rest) =>
          let before := trim before in
          let after := trim (drop (length WORKSPACE_PROMPT_MARKER_END) rest) in
          (join blank_line (option_list (nonempty before) ++ option_list (nonempty after)),
           nonempty (trim inside))
      end
  end.

Definition split_repo_map_section (base_system : str) : str * option str :=
  let base := trim base_system in
  match find REPO_MAP_HEADER base with
  | None => (base, None)
  | Some (before, from) => (trim before, nonempty (trim from))
  end.

Definition compose_skill_section (c : PromptContext) : option str :=
  match skill_snippets c with
  | [] => None
  | skills =>
      Some (lit "### Available Skills" ++ blank_line
            ++ lit "Invoke skills by name using `skill` tool or `/skill-name` command." ++ nl_str
            ++ join nl_str ((fun s => lit "- " ++ trim (skill_id s) ++ lit ": "
                                      ++ trim (skill_description s)) <$> skills))
  end.

Definition env_line (label value : str) : list str :=
  if decide (trim value = []) then [] else [lit "- " ++ label ++ lit ": " ++ value].

Definition compose_environment_section (c : PromptContext) : option str :=
  let e := environment c in
  match env_line (lit "model") (env_model e) ++ env_line (lit "agent_id") (env_agent_id e)
        ++ env_line (lit "today") (env_date e) ++ env_line (lit "cwd") (env_cwd e)
        ++ match workspace_root e with Some r => env_line (lit "workspace_root") r | None => [] end with
  | [] => None
  | lines => Some (lit "## Environment" ++ nl_str ++ join nl_str lines)
  end.

Definition compose_system_sections (base_system : str) (c : PromptContext) : list str :=
  let '(base, workspace_prompt) := split_workspace_prompt_block base_system in
  let '(base, repo_map) := split_repo_map_section base in
  option_list (nonempty (trim base)) ++ option_list workspace_prompt
  ++ option_list (compose_skill_section c) ++ option_list repo_map
  ++ option_list (compose_environment_section c).

Definition compose_progress_section (c : PromptContext) : option str :=
  s ← head (filter (fun s => snippet_source s = lit "horizon") (memory_snippets c));
  content ← nonempty (trim (snippet_content s));
  Some (lit "## Progress" ++ nl_str ++ content).

Definition compose_plan_section (c : PromptContext) : option str :=
  match omap (fun s => nonempty (trim (snippet_content s)))
          (filter (fun s => snippet_source s = lit "plan") (memory_snippets c)) with
  | [] => None
  | items =>
      Some (foldl (fun section item => section ++ nl_str ++ lit "- " ++ item)
              (lit "## Active plan" ++ nl_str ++ lit "Open items from your todo list " ++ [8212%N]
               ++ lit " keep working until each is done or you update the plan with todo_write:")
              items)
  end.

Definition compose_memory_section (c : PromptContext) : option str :=
  match omap (fun s =>
          content ← nonempty (trim (snippet_content s));
          let label := replace_char 58 (lit "/") (trim (snippet_source s)) in
          Some match label with
               | [] => content
               | _ => lit "[" ++ label ++ lit "] " ++ content
               end)
          (filter (fun s => snippet_source s ≠ lit "horizon" ∧ snippet_source s ≠ lit "plan")
             (memory_snippets c)) with
  | [] => None
  | lines => Some (lit "## Memory" ++ nl_str ++ join nl_str lines)
  end.

Definition compose_instructions_section (c : PromptContext) : option str :=
  match instructions c with
  | [] => None
  | ins =>
      Some (lit "## Instructions" ++ nl_str
            ++ join nl_str ((fun i => lit "- " ++ trim (ins_source i) ++ lit ": "
                                      ++ trim (ins_content i)) <$> ins))
  end.

Definition compose_turn_context_reminder (c : PromptContext) : option str :=
  match option_list (compose_progress_section c) ++ option_list (compose_plan_section c)
        ++ option_list (compose_instructions_section c) ++ option_list (compose_memory_section c) with
  | [] => None
  | blocks =>
      Some (lit "<system-reminder>" ++ nl_str ++ lit "# Context" ++ nl_str
            ++ lit "Auto-injected runtime state for this turn (not authored by the user); the latest reminder supersedes any earlier ones."
            ++ blank_line ++ join blank_line blocks ++ nl_str ++ lit "</system-reminder>")
  end.

(** ** The decision about tools *)

Inductive PromptState := NewUserTurn | AfterToolResult.
Inductive PromptAction := AnswerOnly | PlanAndMaybeUseTools | IntegrateToolResults.
Inductive ToolMode := ModeNone | ModeAuto | ModeRequired.

Definition infer_action (s : PromptState) (has_visible_tools : bool) : PromptAction :=
  match s with
  | AfterToolResult => IntegrateToolResults
  | NewUserTurn => if has_visible_tools then PlanAndMaybeUseTools else AnswerOnly
  end.
Definition infer_tool_mode (a : PromptAction) (has_visible_tools : bool) : ToolMode :=
  match a with
  | AnswerOnly => ModeNone
  | IntegrateToolResults | PlanAndMaybeUseTools => if has_visible_tools then ModeAuto else ModeNone
  end.

Section Builder.
Context `{JT : JsonText}.

Record PromptDecision := {
  pd_state : PromptState;
  pd_action : PromptAction;
  pd_tool_mode : ToolMode;
  pd_tool_choice : ToolChoice;
  pd_response_format : ResponseFormat;
}.

Definition infer_state (last : ChatMessage) : PromptState :=
  if bool_decide (role last = Tool)
     || existsb (fun b => match b with ToolResult _ _ _ _ => true | _ => false end) (blocks last)
  then AfterToolResult else NewUserTurn.

Definition decide_prompt (ms : list ChatMessage) (has_visible_tools : bool) :
    result PromptDecision PromptBuildError :=
  match last ms with
  | None => Err EmptyMessages
  | Some m =>
      let state := infer_state m in
      let action := infer_action state has_visible_tools in
      let mode := infer_tool_mode action has_visible_tools in
      Ok {| pd_state := state; pd_action := action; pd_tool_mode := mode;
            pd_tool_choice := match mode with
                              | ModeNone => ChoiceNone
                              | ModeAuto => ChoiceAuto
                              | ModeRequired => ChoiceRequired
                              end;
            pd_response_format := FormatText |}
  end.

Record PromptBuildInput := {
  in_system_prompt : str;
  in_messages : list ChatMessage;
  in_visible_tools : list ToolSpecView;
  in_skill_summaries : list SkillSummary;
  in_memory_snippets : list MemorySnippet;
  in_environment : EnvironmentInfo;
  in_feature_flags : FeatureFlags;
  in_turn_count : Z;
  in_budget : TokenBudgetConfig;
}.
Record PromptBuildResult := {
  pr_request : LlmRequest;
  pr_estimated_input_tokens : Z;
  pr_system_parts : list str;
}.

Definition collect_prompt_context (i : PromptBuildInput) : PromptContext :=
  let '(ins, mem) := split_instruction_snippets (in_memory_snippets i) in
  {| environment := in_environment i; instructions := ins; memory_snippets := mem;
     skill_snippets := in_skill_summaries i |}.

Definition validate_input (i : PromptBuildInput) : result () PromptBuildError :=
  if decide (trim (in_system_prompt i) = [])
  then Err (BuildFailed (lit "missing required context: system_prompt"))
  else if decide (in_messages i = []) then Err EmptyMessages
  else if total_budget (in_budget i) =? 0 then Err (BuildFailed (lit "prompt budget exhausted"))
  else if negb (tool_execution (in_feature_flags i)) && negb (bool_decide (in_visible_tools i = []))
  then Err (BuildFailed (lit "invalid prompt state: visible tools provided while tool execution feature is disabled"))
  else Ok ().

Definition tool_name_le (a b : ToolSpec) : Prop := str_le (spec_name a) (spec_name b).
#[global] Instance tool_name_le_dec a b : Decision (tool_name_le a b).
Proof. unfold tool_name_le. apply _. Defined.

Definition project_tools (visible : list ToolSpecView) : list ToolSpec :=
  merge_sort tool_name_le
    ((fun t => {| spec_name := ts_name t; spec_description := ts_description t;
                  parameters := ts_input_schema t |}) <$> visible).

Definition block_size (b : ContentBlock) : Z :=
  match b with
  | Text t => utf8_len t
  | ToolUse c n i => Word.add (Word.add (utf8_len c) (utf8_len n)) (utf8_len (value_to_string i))
  | ToolResult c n o _ => Word.add (Word.add (utf8_len c) (utf8_len n)) (utf8_len o)
  | Image d | Document d => utf8_len d
  end.
Definition estimate_request_size (r : LlmRequest) : Z :=
  let message_size := Word.sum ((fun m => Word.sum (block_size <$> blocks m)) <$> req_messages r) in
  let tool_size := Word.sum ((fun t => Word.add (Word.add (utf8_len (spec_name t))
                       (utf8_len (spec_description t))) (utf8_len (value_to_string (parameters t))))
                     <$> req_tools r) in
  let format_size := match response_format r with
                     | FormatText | FormatJsonObject => 0
                     | FormatJsonSchema _ s => utf8_len (value_to_string s)
                     end in
  let choice_size := match tool_choice r with ChoiceSpecific n => utf8_len n | _ => 0 end in
  Word.add (Word.add (Word.add message_size tool_size) format_size) choice_size.

(** [PromptBuilderImpl::build_inner]. *)
Definition build_prompt (i : PromptBuildInput) : result PromptBuildResult PromptBuildError :=
  let? _ := validate_input i in
  let skills := if skill_matching (in_feature_flags i) then in_skill_summaries i else [] in
  let? decision := decide_prompt (in_messages i) (negb (bool_decide (in_visible_tools i = []))) in
  let context := collect_prompt_context
    {| in_system_prompt := in_system_prompt i; in_messages := in_messages i;
       in_visible_tools := in_visible_tools i; in_skill_summaries := skills;
       in_memory_snippets := in_memory_snippets i; in_environment := in_environment i;
       in_feature_flags := in_feature_flags i; in_turn_count := in_turn_count i;
       in_budget := in_budget i |} in
  let system_parts := compose_system_sections (in_system_prompt i) context in
  let system_text := join blank_line system_parts in
  if decide (trim system_text = [])
  then Err (BuildFailed (lit "missing required context: system_prompt"))
  else
    let history := filter (fun m => role m ≠ System) (in_messages i) in
    let reminder :=
      match compose_turn_context_reminder context with
      | Some r => if decide (trim r = []) then [] else [user_message r]
      | None => []
      end in
    let request :=
      {| req_messages := system_message system_text :: history ++ reminder;
         req_tools := project_tools (in_visible_tools i);
         tool_choice := pd_tool_choice decision;
         req_max_tokens := Some (reserved_for_output (in_budget i));
         req_temperature := None;
         response_format := pd_response_format decision;
         reasoning_effort := EffortDefault |} in
    Ok {| pr_request := request; pr_estimated_input_tokens := estimate_request_size request;
          pr_system_parts := system_parts |}.

(** ** Prefix stability *)

(** What the stable part of a request is made of. *)
Definition same_session (i i' : PromptBuildInput) : Prop :=
  in_system_prompt i = in_system_prompt i' ∧ in_skill_summaries i = in_skill_summaries i' ∧
  in_environment i = in_environment i' ∧ in_feature_flags i = in_feature_flags i'.

(** The system sections do not look at the snippets. *)
Lemma system_sections_stable base c c' :
  environment c = environment c' → skill_snippets c = skill_snippets c' →
  compose_system_sections base c = compose_system_sections base c'.
Proof.
  intros E1 E2. unfold compose_system_sections, compose_skill_section, compose_environment_section.
  by rewrite E1, E2.
Qed.

Lemma collect_context_fields i :
  environment (collect_prompt_context i) = in_environment i ∧
  skill_snippets (collect_prompt_context i) = in_skill_summaries i.
Proof. unfold collect_prompt_context. by destruct (split_instruction_snippets _). Qed.

(** A request is the system text, the history and at most one reminder. *)
Definition system_text_of (i : PromptBuildInput) : str :=
  join blank_line (compose_system_sections (in_system_prompt i)
    {| environment := in_environment i; instructions := []; memory_snippets := [];
       skill_snippets := if skill_matching (in_feature_flags i) then in_skill_summaries i else [] |}).

Lemma build_prompt_shape i r :
  build_prompt i = Ok r →
  ∃ reminder, (length reminder ≤ 1)%nat ∧
  req_messages (pr_request r) =
    system_message (system_text_of i) :: filter (fun m => role m ≠ System) (in_messages i) ++ reminder
  ∧ req_tools (pr_request r) = project_tools (in_visible_tools i)
  ∧ tool_choice (pr_request r) = (if decide (in_visible_tools i = []) then ChoiceNone else ChoiceAuto)
  ∧ trim (system_text_of i) ≠ [].
Proof.
  unfold build_prompt. intros E. inv_ok. rename v0 into d. unfold decide_prompt in Hok0.
  destruct (last (in_messages i)) as [m|]; [|done]. injection Hok0 as <-.
  match type of E with context [collect_prompt_context ?a] => set (i' := a) in *;
    destruct (collect_context_fields i') as [Ee Es] end.
  assert (join blank_line (compose_system_sections (in_system_prompt i) (collect_prompt_context i'))
          = system_text_of i) as Esys.
  { unfold system_text_of. f_equal. by apply system_sections_stable. }
  rewrite Esys in E. destruct (decide (trim (system_text_of i) = [])); [done|].
  injection E as <-. eexists. split; [|split; [reflexivity|]].
  - repeat case_match; simpl; lia.
  - split_and!; [done| |done]. cbn. unfold infer_tool_mode, infer_action.
    destruct (decide (in_visible_tools i = [])) as [En|Hn].
    + rewrite bool_decide_eq_true_2 by done. by destruct (infer_state m).
    + rewrite bool_decide_eq_false_2 by done. by destruct (infer_state m).
Qed.

Lemma project_tools_perm l l' :
  NoDup (ts_name <$> l) → l ≡ₚ l' → project_tools l = project_tools l'.
Proof.
  intros Hnd Hp. unfold project_tools.
  assert (Transitive tool_name_le) by (intros a b c; apply (transitivity (R := str_le))).
  assert (Total tool_name_le) by (intros a b; apply (total str_le)).
  apply (Sorted_unique_strong tool_name_le).
  - intros x y. rewrite !merge_sort_Permutation, <-Hp. intros (t & -> & Ht)%list_elem_of_fmap
      (t' & -> & Ht')%list_elem_of_fmap H1 H2.
    assert (t = t') as ->; [|done]. eapply (NoDup_fmap_eq ts_name); [done..|].
    by apply (anti_symm str_le).
  - apply Sorted_merge_sort, _.
  - apply Sorted_merge_sort, _.
  - rewrite !merge_sort_Permutation. by rewrite Hp.
Qed.

(** Requests of one session share their prefix. If the history only grew,
    a later request repeats the earlier one up to the trailing reminder,
    whatever the turn, the snippets and the budget are; with the same tools,
    in any order, it offers the same tool list, and tools are offered with
    the choice [auto] exactly when there are any. *)
Theorem prompt_prefix_stable i i' r r' new :
  build_prompt i = Ok r → build_prompt i' = Ok r' → same_session i i' →
  in_messages i' = in_messages i ++ new →
  ∃ shared reminder tail,
    req_messages (pr_request r) = shared ++ reminder ∧ (length reminder ≤ 1)%nat ∧
    req_messages (pr_request r') = shared ++ tail ∧
    shared = system_message (system_text_of i) :: filter (fun m => role m ≠ System) (in_messages i) ∧
    (NoDup (ts_name <$> in_visible_tools i) → in_visible_tools i ≡ₚ in_visible_tools i' →
     req_tools (pr_request r) = req_tools (pr_request r') ∧
     tool_choice (pr_request r) = tool_choice (pr_request r')) ∧
    (tool_choice (pr_request r) = ChoiceAuto ↔ in_visible_tools i ≠ []).
Proof.
  intros (rem & Hl & E & Et & Ec & _)%build_prompt_shape
    (rem' & _ & E' & Et' & Ec' & _)%build_prompt_shape (H1 & H2 & H3 & H4) Hm.
  eexists _, rem, (filter (fun m => role m ≠ System) new ++ rem').
  rewrite app_comm_cons in E. split_and!; [exact E|done| |done| |].
  - assert (system_text_of i' = system_text_of i) as Esys
      by (unfold system_text_of; by rewrite H1, H2, H3, H4).
    rewrite E', Esys, Hm, filter_app, <-app_assoc. done.
  - intros Hnd Hp. rewrite Et, Et', Ec, Ec'. split; [by apply project_tools_perm|].
    destruct (decide (in_visible_tools i = [])) as [En|Hn].
    + rewrite En in Hp. apply Permutation_nil_l in Hp. by rewrite decide_True by done.
    + rewrite decide_False; [done|]. intros En. rewrite En in Hp. by apply Permutation_nil_r in Hp.
  - rewrite Ec. by destruct (decide (in_visible_tools i = [])).
Qed.
End Builder.

Definition demo_env : EnvironmentInfo :=
  {| env_model := []; env_cwd := []; workspace_root := None; env_date := []; env_agent_id := lit "main" |}.
Definition demo_flags : FeatureFlags :=
  {| ff_auto_compact := true; cache_editing := true; tool_execution := true; skill_matching := true;
     kvcache_enabled := false; kvcache_debug_enabled := false; redact_secrets_display := true |}.
Definition demo_input (turn : Z) (snippets : list MemorySnippet)
    (ms : list (ChatMessage (J := json_lib (H := demo_json)))) : PromptBuildInput :=
  {| in_system_prompt := lit "You are xiaoO."; in_messages := ms; in_visible_tools := [demo_spec];
     in_skill_summaries := []; in_memory_snippets := snippets; in_environment := demo_env;
     in_feature_flags := demo_flags; in_turn_count := turn;
     in_budget := build_token_budget 128000 4096 |}.
Definition demo_plan : MemorySnippet :=
  {| snippet_source := lit "plan"; snippet_content := lit "[ ] write tests";
     relevance_score := F64.of_ratio 9 10 |}.

Lemma prompt_prefix_stable_witness :
  let i := demo_input 1 [] [user_message (lit "hi")] in
  let i' := demo_input 2 [demo_plan] [user_message (lit "hi"); assistant_message (lit "hello") 0] in
  ∃ r r', build_prompt (JT := demo_json) i = Ok r ∧ build_prompt (JT := demo_json) i' = Ok r' ∧
  ∃ shared tail, req_messages (pr_request r') = shared ++ tail ∧ length shared = 2%nat.
Proof.
  intros i i'.
  destruct (build_prompt (JT := demo_json) i) as [r|] eqn:E; [|vm_compute in E; discriminate E].
  destruct (build_prompt (JT := demo_json) i') as [r'|] eqn:E'; [|vm_compute in E'; discriminate E'].
  exists r, r'. split; [done|]. split; [done|].
  destruct (prompt_prefix_stable (JT := demo_json) i i' r r' [assistant_message (lit "hello") 0]
    E E' ltac:(done) eq_refl) as (sh & rem & tail & _ & _ & E2 & Esh & _).
  exists sh, tail. split; [exact E2|]. rewrite Esh. reflexivity.
Defined.
