(* ===== verification/Stream.v ===== *)
(** * Streaming to the display

    crates/core/src/agent_loop.rs: the secrets of the history and their
    redaction, the accumulation of a streamed answer, its throttled emission
    to the event sink, and the flush that closes it. *)

From S2P Require Import Prelude RStr F64 Message Budget Estimator.

(** [serde_json::from_str::<Value>]. *)
Class JsonParse := { json_from_str : str → option Json }.

(** ** Secrets *)

Definition json_array (v : Json) : option (list Json) :=
  match v with JArray l => Some l | _ => None end.

(** The value of an answer that was typed as a secret. *)
Definition secret_of_answer (answer : Json) : option str :=
  let is_text := bool_decide ((json_get answer (lit "kind") ≫= as_str) = Some (lit "text")) in
  let has_display_value :=
    match json_get answer (lit "display_value") with Some JNull | None => false | Some _ => true end in
  match json_get answer (lit "value") ≫= as_str with
  | Some v => if is_text && has_display_value && negb (bool_decide (v = [])) then Some v else None
  | None => None
  end.

Definition extract_secrets_from_messages `{JsonLib} `{JsonParse} (ms : list ChatMessage) : list str :=
  let outputs := omap (fun b => match b with
                                | ToolResult _ name output _ =>
                                    if decide (name = lit "ask_user_question") then Some output else None
                                | _ => None
                                end)
                   (concat (blocks <$> filter (fun m => role m = Tool) ms)) in
  let answers := omap (fun output => json_from_str output ≫= fun v =>
                         json_get v (lit "answers") ≫= json_array) outputs in
  omap secret_of_answer (concat answers).

Definition SECRET_MARKER : str := lit "<SECRET>".

Definition filter_secrets_in_text (text : str) (secrets : list str) : str :=
  foldl (fun filtered secret =>
           if contains secret filtered then replace secret SECRET_MARKER filtered else filtered)
    text secrets.

(** ** Events *)

Record ToolResultEvent := {
  tre_call_id : str;
  tre_tool_name : str;
  output_preview : str;
  tre_is_error : bool;
  args_preview : str;
}.
Record LoopEndSummary := { le_turn_count : Z; le_total_tokens : Z; le_stop_reason : str }.

Inductive SinkEvent :=
| OnTurnStart (agent : str) (turn : Z)
| OnAssistantMessage (agent text : str)
| OnAssistantReasoning (agent text : str)
| OnAssistantMessageDelta (agent delta : str)
| OnAssistantReasoningDelta (agent delta : str)
| OnToolResult (agent : str) (event : ToolResultEvent)
| OnLoopEnd (agent : str) (summary : LoopEndSummary).

(** A sink is known by whether it takes deltas. *)
Record LoopEventSink := { supports_message_delta : bool }.

(** ** The stream *)

Definition STREAM_EMIT_MIN_DELTA_CHARS : Z := 32.
(** In milliseconds. *)
Definition STREAM_EMIT_MAX_LATENCY : Z := 80.

Record StreamEmitState := { last_emit_len : Z; last_emit_at : option Z }.
Definition default_emit : StreamEmitState := {| last_emit_len := 0; last_emit_at := None |}.

(** [should_emit] at the instant [now]. *)
Definition should_emit (e : StreamEmitState) (now current_len : Z) : bool * StreamEmitState :=
  let delta_ok := STREAM_EMIT_MIN_DELTA_CHARS <=? Word.saturating_sub current_len (last_emit_len e) in
  let latency_ok := match last_emit_at e with
                    | Some t => STREAM_EMIT_MAX_LATENCY <=? Word.saturating_sub now t
                    | None => false
                    end in
  if delta_ok || latency_ok
  then (true, {| last_emit_len := current_len; last_emit_at := Some now |})
  else (false, e).

(** One of the two channels of a stream: its buffer and its throttle. *)
Record Channel := { buffer : str; emit_state : StreamEmitState }.
Definition empty_channel : Channel := {| buffer := []; emit_state := default_emit |}.
Record AssistantStreamState := { text_channel : Channel; reasoning_channel : Channel }.
Definition default_stream : AssistantStreamState :=
  {| text_channel := empty_channel; reasoning_channel := empty_channel |}.

Record StreamChunk := {
  chunk_reset : bool;
  delta_text : option str;
  delta_reasoning : option str;
}.

Section Stream.
Context (agent : str) (secrets : list str).

(** What a delta does to a channel; [snapshot] and [delta_event] are the
    sink's methods for it. *)
Definition push_delta (sink : option LoopEventSink) (snapshot delta_event : str → SinkEvent)
    (now : Z) (c : Channel) (delta : str) : Channel * list SinkEvent :=
  let buffer' := buffer c ++ delta in
  match sink with
  | None => ({| buffer := buffer'; emit_state := emit_state c |}, [])
  | Some sk =>
      if supports_message_delta sk && bool_decide (secrets = [])
      then ({| buffer := buffer'; emit_state := emit_state c |}, [delta_event delta])
      else
        let '(emit, e) := should_emit (emit_state c) now (utf8_len buffer') in
        ({| buffer := buffer'; emit_state := e |},
         if emit then [snapshot (filter_secrets_in_text buffer' secrets)] else [])
  end.

Definition push_opt (sink : option LoopEventSink) (snapshot delta_event : str → SinkEvent)
    (now : Z) (c : Channel) (delta : option str) : Channel * list SinkEvent :=
  match delta with
  | Some d => push_delta sink snapshot delta_event now c d
  | None => (c, [])
  end.

Definition stream_assistant_chunk (sink : option LoopEventSink) (now : Z)
    (st : AssistantStreamState) (chunk : StreamChunk) : AssistantStreamState * list SinkEvent :=
  if chunk_reset chunk
  then (default_stream,
        match sink with
        | Some _ => [OnAssistantMessage agent []; OnAssistantReasoning agent []]
        | None => []
        end)
  else
    let '(r, ev1) := push_opt sink (OnAssistantReasoning agent) (OnAssistantReasoningDelta agent) now
                       (reasoning_channel st) (delta_reasoning chunk) in
    let '(t, ev2) := push_opt sink (OnAssistantMessage agent) (OnAssistantMessageDelta agent) now
                       (text_channel st) (delta_text chunk) in
    ({| text_channel := t; reasoning_channel := r |}, ev1 ++ ev2).

(** The chunks of a call, each with the instant it arrives at. *)
Fixpoint stream_chunks (sink : option LoopEventSink) (st : AssistantStreamState)
    (chunks : list (Z * StreamChunk)) : AssistantStreamState * list SinkEvent :=
  match chunks with
  | [] => (st, [])
  | (now, c) :: chunks =>
      let '(st, ev) := stream_assistant_chunk sink now st c in
      let '(st, ev') := stream_chunks sink st chunks in
      (st, ev ++ ev')
  end.

(** The flush of one channel, after the stream or after a cancellation (where
    an empty partial is not shown). *)
Definition flush_channel (snapshot : str → SinkEvent) (c : Channel) (content : option str) :
    list SinkEvent :=
  match content with
  | Some text =>
      if last_emit_len (emit_state c) =? utf8_len text then []
      else [snapshot (filter_secrets_in_text text secrets)]
  | None => []
  end.

Definition flush_stream (sink : option LoopEventSink) (st : AssistantStreamState)
    (text reasoning : option str) : list SinkEvent :=
  match sink with
  | None => []
  | Some _ =>
      flush_channel (OnAssistantMessage agent) (text_channel st) text
      ++ flush_channel (OnAssistantReasoning agent) (reasoning_channel st) reasoning
  end.
End Stream.

(** ** Redaction *)

Lemma filter_nil secrets : filter_secrets_in_text [] secrets = [].
Proof.
  unfold filter_secrets_in_text. induction secrets as [|s l IH]; [done|]. cbn [foldl].
  destruct (contains s []); [|exact IH]. exact IH.
Qed.

(** A secret that shares no character with the marker. *)
Definition plain_secret (s : str) : Prop := s ≠ [] ∧ ∀ c, c ∈ s → c ∉ SECRET_MARKER.

Lemma filter_no_new q text secrets :
  plain_secret q → Forall plain_secret secrets →
  occurs q (filter_secrets_in_text text secrets) → occurs q text.
Proof.
  intros [Hq Hd] Hs. revert text. induction Hs as [|s l [Hs _] _ IH]; intros text; [done|].
  unfold filter_secrets_in_text in *. cbn [foldl]. intros Ho%IH.
  destruct (contains s text); [|done]. by eapply replace_fuel_new in Ho.
Qed.

(** The filter leaves none of the secrets, as long as they share no character
    with the marker that replaces them, and does not touch text without one. *)
Lemma filter_hides text secrets :
  Forall plain_secret secrets →
  (∀ s, s ∈ secrets → ¬ occurs s (filter_secrets_in_text text secrets)) ∧
  ((∀ s, s ∈ secrets → ¬ occurs s text) → filter_secrets_in_text text secrets = text).
Proof.
  intros Hs. split.
  - revert text. induction Hs as [|s l Hp Hs IH]; intros text q; [by intros ?%elem_of_nil|].
    intros [->|Hq]%elem_of_cons; unfold filter_secrets_in_text; cbn [foldl].
    + intros Ho%filter_no_new; [|done..]. destruct (contains s text) eqn:Ec.
      * revert Ho. apply replace_fuel_gone; [apply Hp|done|apply Hp|done].
      * apply contains_iff in Ho. congruence.
    + by apply IH.
  - clear Hs. induction secrets as [|s l IH]; [done|]. intros Hn.
    unfold filter_secrets_in_text. cbn [foldl]. destruct (contains s text) eqn:Ec.
    + apply contains_iff in Ec. exfalso. apply (Hn s); [set_solver|done].
    + apply IH. set_solver.
Qed.

(** ** What the display ends with *)

(** A sink replaces its text by a snapshot and appends a delta. *)
Definition show_text (shown : str) (e : SinkEvent) : str :=
  match e with
  | OnAssistantMessage _ t => t
  | OnAssistantMessageDelta _ d => shown ++ d
  | _ => shown
  end.
Definition show_reasoning (shown : str) (e : SinkEvent) : str :=
  match e with
  | OnAssistantReasoning _ t => t
  | OnAssistantReasoningDelta _ d => shown ++ d
  | _ => shown
  end.

Section Display.
Context (agent : str) (secrets : list str) (sk : LoopEventSink).

(** A channel and what its display shows: in delta mode everything so far,
    otherwise the redacted text of the last emission. *)
Definition in_step (c : Channel) (shown : str) : Prop :=
  if supports_message_delta sk && bool_decide (secrets = [])
  then shown = buffer c ∧ last_emit_len (emit_state c) = 0
  else ∃ old rest, buffer c = old ++ rest ∧ last_emit_len (emit_state c) = utf8_len old ∧
       shown = filter_secrets_in_text old secrets.

Lemma in_step_empty : in_step empty_channel [].
Proof.
  unfold in_step. destruct (_ && _); [done|]. exists [], []. by rewrite filter_nil.
Qed.

Lemma should_emit_cases e now len :
  (∃ e', should_emit e now len = (true, e') ∧ last_emit_len e' = len) ∨
  should_emit e now len = (false, e).
Proof. unfold should_emit. destruct (_ || _); eauto. Qed.

Lemma push_opt_in_step snapshot delta_event (show : str → SinkEvent → str) now c d shown c' ev :
  (∀ s t, show s (snapshot t) = t) → (∀ s t, show s (delta_event t) = s ++ t) →
  in_step c shown → push_opt secrets (Some sk) snapshot delta_event now c d = (c', ev) →
  in_step c' (foldl show shown ev).
Proof.
  intros Hs Hd Hin. destruct d as [d|]; cbn [push_opt]; [|by intros [= <- <-]].
  unfold push_delta, in_step in *. destruct (supports_message_delta sk && _).
  - intros [= <- <-]. destruct Hin as [-> ?]. cbn. by rewrite Hd.
  - destruct Hin as (old & rest & Eb & El & ->).
    destruct (should_emit_cases (emit_state c) now (utf8_len (buffer c ++ d))) as [(e & -> & Ee)| ->];
      intros [= <- <-]; cbn.
    + exists (buffer c ++ d), []. by rewrite app_nil_r, Hs.
    + exists old, (rest ++ d). by rewrite Eb, app_assoc.
Qed.

Lemma push_opt_silent snapshot delta_event (show : str → SinkEvent → str) now c d c' ev shown :
  (∀ s t, show s (snapshot t) = s) → (∀ s t, show s (delta_event t) = s) →
  push_opt secrets (Some sk) snapshot delta_event now c d = (c', ev) → foldl show shown ev = shown.
Proof.
  intros Hs Hd. destruct d as [d|]; cbn [push_opt]; [|by intros [= <- <-]].
  unfold push_delta. destruct (supports_message_delta sk && _).
  - intros [= <- <-]. cbn. by rewrite Hd.
  - destruct (should_emit _ _ _) as [[] ?]; intros [= <- <-]; cbn; by rewrite ?Hs.
Qed.

Lemma stream_chunks_in_step chunks st st' ev a b :
  in_step (text_channel st) a → in_step (reasoning_channel st) b →
  stream_chunks agent secrets (Some sk) st chunks = (st', ev) →
  in_step (text_channel st') (foldl show_text a ev) ∧
  in_step (reasoning_channel st') (foldl show_reasoning b ev).
Proof.
  revert st ev a b. induction chunks as [|[now ch] chunks IH]; intros st ev a b Ha Hb; cbn [stream_chunks].
  { by intros [= <- <-]. }
  destruct (stream_assistant_chunk _ _ _ _ st ch) as [st1 ev1] eqn:E1.
  destruct (stream_chunks _ _ _ st1 chunks) as [st2 ev2] eqn:E2. intros [= <- <-].
  rewrite !foldl_app. eapply IH; [| |done]; revert E1; unfold stream_assistant_chunk;
    (destruct (chunk_reset ch); [intros [= <- <-]; apply in_step_empty|]);
    destruct (push_opt _ _ _ _ _ (reasoning_channel st) _) as [r ev3] eqn:Er;
    destruct (push_opt _ _ _ _ _ (text_channel st) _) as [t ev4] eqn:Et;
    intros [= <- <-]; cbn [text_channel reasoning_channel]; rewrite foldl_app.
  - rewrite (push_opt_silent (OnAssistantReasoning agent) (OnAssistantReasoningDelta agent) show_text _ _ _ _ _ a (fun _ _ => eq_refl) (fun _ _ => eq_refl) Er).
    eapply (push_opt_in_step (OnAssistantMessage agent) (OnAssistantMessageDelta agent) show_text);
      [done|done|exact Ha|exact Et].
  - rewrite (push_opt_silent (OnAssistantMessage agent) (OnAssistantMessageDelta agent) show_reasoning _ _ _ _ _ _ (fun _ _ => eq_refl) (fun _ _ => eq_refl) Et).
    eapply (push_opt_in_step (OnAssistantReasoning agent) (OnAssistantReasoningDelta agent)
              show_reasoning); [done|done|exact Hb|exact Er].
Qed.

Lemma utf8_len_app s t : utf8_len (s ++ t) = utf8_len s + utf8_len t.
Proof.
  induction s as [|c s IH]; [done|].
  change (utf8_len ((c :: s) ++ t)) with (utf8_len_char c + utf8_len (s ++ t)).
  change (utf8_len (c :: s)) with (utf8_len_char c + utf8_len s). lia.
Qed.
Lemma utf8_len_char_pos c : 0 < utf8_len_char c.
Proof. unfold utf8_len_char. repeat case_match; lia. Qed.
Lemma utf8_len_nonneg s : 0 ≤ utf8_len s.
Proof.
  induction s as [|c s IH]; [done|]. change (utf8_len (c :: s)) with (utf8_len_char c + utf8_len s).
  pose proof (utf8_len_char_pos c). lia.
Qed.
Lemma utf8_len_pos c s : 0 < utf8_len (c :: s).
Proof.
  change (utf8_len (c :: s)) with (utf8_len_char c + utf8_len s).
  pose proof (utf8_len_char_pos c). pose proof (utf8_len_nonneg s). lia.
Qed.

(** The flush shows what the throttle held back. *)
Lemma flush_channel_shows snapshot (show : str → SinkEvent → str) c shown text :
  (∀ s t, show s (snapshot t) = t) → in_step c shown → buffer c = text →
  foldl show shown (flush_channel secrets snapshot c (Some text)) = filter_secrets_in_text text secrets.
Proof.
  intros Hs Hin Eb. unfold flush_channel, in_step in *. destruct (Z.eqb_spec (last_emit_len (emit_state c)) (utf8_len text)) as [E|E].
  2: { cbn. by rewrite Hs. }
  cbn. destruct (supports_message_delta sk && _) eqn:Em.
  - destruct Hin as [-> El]. rewrite Eb. destruct text as [|x text]; [by rewrite filter_nil|].
    pose proof (utf8_len_pos x text). lia.
  - destruct Hin as (old & rest & E' & El & ->). f_equal. rewrite <-Eb, E'.
    destruct rest as [|x rest]; [by rewrite app_nil_r|].
    rewrite <-Eb, E', utf8_len_app in E. pose proof (utf8_len_pos x rest). lia.
Qed.
End Display.

Lemma foldl_silent {A B} (f : A → B → A) a l : (∀ b, b ∈ l → ∀ a, f a b = a) → foldl f a l = a.
Proof.
  intros H. induction l as [|b l IH]; [done|]. cbn. rewrite H by set_solver. apply IH. set_solver.
Qed.

(** Whatever the chunks, their times and the resets of retries, and
    whether the sink takes deltas or snapshots, once the stream is flushed
    the display shows the redacted text and reasoning of the answer, when
    that is what was streamed since the last reset. *)
Theorem stream_display_complete agent secrets sk chunks st ev text reasoning :
  stream_chunks agent secrets (Some sk) default_stream chunks = (st, ev) →
  buffer (text_channel st) = text → buffer (reasoning_channel st) = reasoning →
  let all := ev ++ flush_stream agent secrets (Some sk) st (Some text) (Some reasoning) in
  foldl show_text [] all = filter_secrets_in_text text secrets ∧
  foldl show_reasoning [] all = filter_secrets_in_text reasoning secrets.
Proof.
  intros E Et Er. destruct (stream_chunks_in_step agent secrets sk chunks default_stream st ev [] []
    (in_step_empty _ _) (in_step_empty _ _) E) as [Ht Hr].
  cbn zeta. unfold flush_stream. rewrite !foldl_app. split.
  - rewrite (foldl_silent show_text _ (flush_channel _ (OnAssistantReasoning agent) _ _)).
    + by eapply flush_channel_shows.
    + unfold flush_channel. case_match; [set_solver|]. by intros ? ->%list_elem_of_singleton.
  - rewrite (foldl_silent show_reasoning _ (flush_channel _ (OnAssistantMessage agent) _ _)).
    + by eapply flush_channel_shows.
    + unfold flush_channel. case_match; [set_solver|]. by intros ? ->%list_elem_of_singleton.
Qed.

Definition demo_chunks : list (Z * StreamChunk) :=
  [(0, {| chunk_reset := false; delta_text := Some (lit "wrong"); delta_reasoning := None |});
   (5, {| chunk_reset := true; delta_text := None; delta_reasoning := None |});
   (9, {| chunk_reset := false; delta_text := Some (lit "it is hun"); delta_reasoning := Some (lit "hm") |});
   (99, {| chunk_reset := false; delta_text := Some (lit "ter2"); delta_reasoning := None |})].

Lemma stream_display_complete_witness :
  let r := stream_chunks (lit "main") [lit "hunter2"] (Some {| supports_message_delta := true |})
             default_stream demo_chunks in
  foldl show_text [] (r.2 ++ flush_stream (lit "main") [lit "hunter2"]
    (Some {| supports_message_delta := true |}) r.1 (Some (lit "it is hunter2")) (Some (lit "hm")))
  = lit "it is <SECRET>".
Proof.
  intros r.
  destruct (stream_display_complete (lit "main") [lit "hunter2"] {| supports_message_delta := true |}
    demo_chunks r.1 r.2 (lit "it is hunter2") (lit "hm")) as [-> _];
    vm_compute; reflexivity.
Defined.
