(* ===== verification/ToolOutput.v ===== *)
(** * Tool output and the history

    crates/core/src/tool_exec.rs: classification of tool results, repair and
    validation of tool calls, the streak of repeated calls, truncation of long
    outputs and the message that carries them; and the pruning of stale
    outputs of crates/core/src/agent_loop.rs. *)

From S2P Require Import Prelude RStr F64 Message Budget Estimator HostPath LocalPolicy Launcher.
From S2P Require Import HookPoint ToolCall Stream.

(** ** Results *)

Definition is_failure_result (r : ToolExecutionResult) : bool :=
  match r with
  | Completed _ (ErrorOutcome _) _ _ | ToolFailed _ _ _ _ | Denied _ _ _ _ => true
  | _ => false
  end.
Definition is_success_result (r : ToolExecutionResult) : bool :=
  match r with Completed _ (Success _) _ _ => true | _ => false end.

Definition tool_output (r : ToolExecutionResult) : str :=
  match r with
  | Completed _ (Success output) _ _ => output
  | Completed _ (ErrorOutcome message) _ _ => message
  | ToolFailed _ _ _ e => tool_error_str e
  | Denied _ _ _ error => lit "denied: " ++ default [] (tool_error_str <$> error)
  | Suspended _ _ token => lit "suspended:" ++ token
  end.

Inductive LoopStopRule := AfterSuccessfulTool (tool_name : str).
Definition stop_rule_matches_tool_result (rule : LoopStopRule) (r : ToolExecutionResult) : bool :=
  match rule with
  | AfterSuccessfulTool name => bool_decide (result_tool_name r = name) && is_success_result r
  end.
Definition should_stop_after_tool_result (rules : list LoopStopRule) (r : ToolExecutionResult) : bool :=
  existsb (fun rule => stop_rule_matches_tool_result rule r) rules.

Definition is_parallel_safe (p : EffectProfile) : bool :=
  negb (writes_filesystem p) && negb (side_effects p) && (reads_filesystem p || network_access p).

(** Suspension (crates/core/src/suspend.rs). *)
Inductive LoopSuspendReason := SuspendToolCall (tool_name suspend_token : str).
Record SuspendedToolCall := { sc_final_call : FinalToolCall; sc_reason : LoopSuspendReason }.
Definition from_tool_result (r : ToolExecutionResult) : option SuspendedToolCall :=
  match r with
  | Suspended c _ token =>
      Some {| sc_final_call := c; sc_reason := SuspendToolCall (tool_name c) token |}
  | _ => None
  end.

(** ** Calls of the model *)

Section Calls.
Context `{JT : JsonText}.

Definition map_calls (f : nat → ToolUseBlock → ToolUseBlock) (m : AssistantMessage) : AssistantMessage :=
  {| am_text := am_text m; am_reasoning_content := am_reasoning_content m;
     tool_calls := imap f (tool_calls m); usage := usage m; stop_reason := stop_reason m |}.

Definition synthesize_missing_call_ids (m : AssistantMessage) (turn : Z) : AssistantMessage :=
  map_calls (fun idx tc =>
    if decide (trim (tu_call_id tc) = [])
    then {| tu_call_id := lit "call_" ++ show turn ++ lit "_" ++ show (Z.of_nat idx);
            tu_tool_name := tu_tool_name tc; tu_input := tu_input tc |}
    else tc) m.

Definition is_ascii_alphanumeric (c : char) : bool :=
  ((48 <=? c) && (c <=? 57) || (65 <=? c) && (c <=? 90) || (97 <=? c) && (c <=? 122))%N.
Definition normalize_tool_name (s : str) : str :=
  to_ascii_lowercase (filter (fun c => is_ascii_alphanumeric c = true) s).

(** The first visible tool with a normalized name ([or_insert_with]). *)
Definition find_normalized (visible : list ToolSpecView) (name : str) : option str :=
  head (ts_name <$> filter (fun t => normalize_tool_name (ts_name t) = normalize_tool_name name) visible).

Definition repair_tool_names (m : AssistantMessage) (visible : list ToolSpecView) : AssistantMessage :=
  match visible with
  | [] => m
  | _ =>
      map_calls (fun _ tc =>
        if decide (tu_tool_name tc ∈ ts_name <$> visible) then tc
        else match find_normalized visible (tu_tool_name tc) with
             | Some fixed => {| tu_call_id := tu_call_id tc; tu_tool_name := fixed;
                                tu_input := tu_input tc |}
             | None => tc
             end) m
  end.

Definition is_valid_tool_call_id (id : str) : bool := negb (bool_decide (trim id = [])).
Definition is_valid_tool_name (name : str) : bool := negb (bool_decide (trim name = [])).
Definition is_valid_tool_call (tc : ToolUseBlock) : bool :=
  is_valid_tool_call_id (tu_call_id tc) && is_valid_tool_name (tu_tool_name tc).

Definition invalid_tool_call_message (tc : ToolUseBlock) : str :=
  match is_valid_tool_call_id (tu_call_id tc), is_valid_tool_name (tu_tool_name tc) with
  | false, false => lit "invalid tool call: missing call_id and tool_name"
  | false, true => lit "invalid tool call: missing call_id"
  | true, false => lit "invalid tool call: missing tool_name"
  | true, true => lit "invalid tool call"
  end.

Definition build_invalid_tool_call_result (tc : ToolUseBlock) (now : Z) : ChatMessage :=
  tool_result_message (tu_call_id tc) (tu_tool_name tc)
    (lit "Error: " ++ invalid_tool_call_message tc ++ lit ".") true now.

Definition build_framework_failed_tool_result (c : FinalToolCall) (message : str) :
    ToolExecutionResult :=
  ToolFailed c [] [] (ExecutionFailed message).

(** [PreparedToolCall]: a call, or the failure that stands for it. *)
Definition build_tool_call (raw : RawToolCall) (f : ToolFilterImpl) :
    result ToolCallImpl ToolExecutionResult :=
  Result.map_err (fun error => build_framework_failed_tool_result
      (new_final_call (raw_call_id raw) (raw_tool_name raw) (raw_input raw))
      (lit "tool call build failed: " ++ build_error_str error))
    (build_with_filter_ref raw f).
End Calls.

(** ** Truncation *)

Definition MAX_TOOL_OUTPUT_BYTES : Z := 50 * 1024.
Definition MAX_TOOL_OUTPUT_LINES : Z := 2000.

(** The bytes of a character in UTF-8. *)
Definition utf8_bytes (c : char) : list Z :=
  let z := Z.of_N c in
  if z <? 128 then [z]
  else if z <? 2048 then [192 + z / 64; 128 + z mod 64]
  else if z <? 65536 then [224 + z / 4096; 128 + z / 64 mod 64; 128 + z mod 64]
  else [240 + z / 262144; 128 + z / 4096 mod 64; 128 + z / 64 mod 64; 128 + z mod 64].
Definition as_bytes (s : str) : list Z := s ≫= utf8_bytes.

(** The [while] of [char_boundary_before]. *)
Fixpoint boundary_loop (bytes : list Z) (i : nat) : nat :=
  match i with
  | O => O
  | S j => if Z.land (nth i bytes 0) 192 =? 128 then boundary_loop bytes j else i
  end.
Definition char_boundary_before (s : str) (index : Z) : Z :=
  if utf8_len s <=? index then utf8_len s
  else Z.of_nat (boundary_loop (as_bytes s) (Z.to_nat index)).

(** [&s[..n]] for a boundary [n]. *)
Fixpoint take_bytes (n : Z) (s : str) : str :=
  match s with
  | [] => []
  | c :: s => if utf8_len_char c <=? n then c :: take_bytes (n - utf8_len_char c) s else []
  end.

Record Preview := {
  pv_total_lines : Z;
  pv_kept_bytes : Z;
  pv_kept_lines : Z;
  pv_hit_byte_limit : bool;
  pv_done : bool;
  pv_text : str;
}.

(** One round of the slow path. *)
Definition preview_step (p : Preview) (line : str) : Preview :=
  let total := pv_total_lines p + 1 in
  if pv_done p then
    {| pv_total_lines := total; pv_kept_bytes := pv_kept_bytes p; pv_kept_lines := pv_kept_lines p;
       pv_hit_byte_limit := pv_hit_byte_limit p; pv_done := true; pv_text := pv_text p |}
  else
    let line_size := utf8_len line + (if bool_decide (pv_text p = []) then 0 else 1) in
    if MAX_TOOL_OUTPUT_LINES <? pv_kept_lines p + 1 then
      {| pv_total_lines := total; pv_kept_bytes := pv_kept_bytes p; pv_kept_lines := pv_kept_lines p;
         pv_hit_byte_limit := pv_hit_byte_limit p; pv_done := true; pv_text := pv_text p |}
    else if MAX_TOOL_OUTPUT_BYTES <? pv_kept_bytes p + line_size then
      {| pv_total_lines := total; pv_kept_bytes := pv_kept_bytes p; pv_kept_lines := pv_kept_lines p;
         pv_hit_byte_limit := true; pv_done := true; pv_text := pv_text p |}
    else
      {| pv_total_lines := total; pv_kept_bytes := pv_kept_bytes p + line_size;
         pv_kept_lines := pv_kept_lines p + 1; pv_hit_byte_limit := pv_hit_byte_limit p;
         pv_done := false;
         pv_text := (if bool_decide (pv_text p = []) then [] else pv_text p ++ [10%N]) ++ line |}.

Definition preview_lines (output : str) : Preview :=
  foldl preview_step
    {| pv_total_lines := 0; pv_kept_bytes := 0; pv_kept_lines := 0; pv_hit_byte_limit := false;
       pv_done := false; pv_text := [] |} (lines output).

(** With the byte-level fallback for single long lines. *)
Definition preview_of (output : str) : Preview :=
  let p := preview_lines output in
  if bool_decide (pv_text p = []) && (0 <? utf8_len output) then
    let boundary := char_boundary_before output MAX_TOOL_OUTPUT_BYTES in
    {| pv_total_lines := pv_total_lines p; pv_kept_bytes := boundary; pv_kept_lines := 0;
       pv_hit_byte_limit := true; pv_done := pv_done p; pv_text := take_bytes boundary output |}
  else p.

Definition fits_thresholds (output : str) : bool :=
  (utf8_len output <=? MAX_TOOL_OUTPUT_BYTES)
  && (Z.of_nat (length (lines output)) <=? MAX_TOOL_OUTPUT_LINES).

(** The note under a preview; [saved] is where the full output went. *)
Definition truncation_note (output : str) (p : Preview) (saved : option str) : str :=
  [10%N] ++ lit "[Tool output truncated ("
  ++ (if pv_hit_byte_limit p then lit "byte limit" else lit "line limit")
  ++ lit "): omitted " ++ show (Word.saturating_sub (utf8_len output) (pv_kept_bytes p))
  ++ lit " bytes (" ++ show (Word.saturating_sub (pv_total_lines p) (pv_kept_lines p))
  ++ lit " lines), showing first " ++ show (pv_kept_bytes p) ++ lit " bytes ("
  ++ show (pv_kept_lines p) ++ lit " lines)]" ++ [10%N]
  ++ match saved with
     | Some path => lit "Full output saved to: " ++ path ++ [10%N]
     | None => []
     end
  ++ lit "Use `file_read` with offset/limit or `grep` to search the full content.".

(** [truncate_tool_output], given where the file was saved. *)
Definition truncate_tool_output (output : str) (saved : option str) : str :=
  if fits_thresholds output then output
  else let p := preview_of output in pv_text p ++ truncation_note output p saved.

(** *** The byte loop finds character boundaries *)

Definition valid_char (c : char) : Prop := (c < 1114112)%N.

Lemma byte_table b : 0 ≤ b < 256 →
  (Z.land b 192 =? 128) = (128 <=? b) && (b <? 192).
Proof.
  intros Hb. enough (forallb (fun n => Bool.eqb (Z.land (Z.of_nat n) 192 =? 128)
    ((128 <=? Z.of_nat n) && (Z.of_nat n <? 192))) (seq 0 256) = true) as H.
  { rewrite forallb_forall in H. specialize (H (Z.to_nat b)).
    rewrite Z2Nat.id in H by lia. apply Bool.eqb_prop, H, in_seq. lia. }
  vm_compute. reflexivity.
Qed.

(** A character is a leading byte and continuation bytes. *)
Lemma utf8_bytes_shape c : valid_char c →
  ∃ b bs, utf8_bytes c = b :: bs ∧ (Z.land b 192 =? 128) = false ∧
    Forall (fun x => (Z.land x 192 =? 128) = true) bs ∧
    Z.of_nat (length (utf8_bytes c)) = utf8_len_char c.
Proof.
  unfold valid_char, utf8_bytes, utf8_len_char. intros Hc.
  assert (∀ x, (Z.land (128 + x mod 64) 192 =? 128) = true) as Hcont.
  { intros x. pose proof (Z.mod_pos_bound x 64 ltac:(lia)). rewrite byte_table by lia. lia. }
  destruct (N.ltb_spec c 128), (N.ltb_spec c 2048), (N.ltb_spec c 65536); try lia;
    repeat (case_match; try lia); eexists _, _; (split; [reflexivity|]);
    (split; [rewrite byte_table|split; [repeat constructor; apply Hcont|done]]).
  all: try lia.
  all: match goal with |- context [Z.of_N ?d / ?k] =>
         assert (0 ≤ Z.of_N d / k) by (apply Z.div_pos; lia);
         first [assert (Z.of_N d / k < 16) by (apply Z.div_lt_upper_bound; lia)
               |assert (Z.of_N d / k < 32) by (apply Z.div_lt_upper_bound; lia)] end; lia.
Qed.

Lemma boundary_loop_cont pre b bs post k :
  (Z.land b 192 =? 128) = false → Forall (fun x => (Z.land x 192 =? 128) = true) bs →
  (k ≤ length bs)%nat →
  boundary_loop (pre ++ (b :: bs) ++ post) (length pre + k) = length pre.
Proof.
  intros Hb Hbs. induction k as [|k IH]; intros Hk.
  - rewrite Nat.add_0_r. destruct pre as [|x pre]; [done|]. cbn [length boundary_loop].
    rewrite (app_nth2 (x :: pre)) by (cbn; lia). cbn [length]. rewrite Nat.sub_diag. cbn. by rewrite Hb.
  - rewrite Nat.add_succ_r. cbn [boundary_loop]. rewrite app_nth2 by lia.
    replace (S (length pre + k) - length pre)%nat with (S k) by lia. cbn [app nth].
    rewrite app_nth1 by lia. rewrite (proj1 (Forall_nth _ 0 bs) Hbs k ltac:(lia)). apply IH. lia.
Qed.

Lemma utf8_len_cons c s : utf8_len (c :: s) = utf8_len_char c + utf8_len s.
Proof. done. Qed.

Lemma boundary_loop_spec pre s k :
  Forall valid_char s → Z.of_nat k < utf8_len s →
  Z.of_nat (boundary_loop (pre ++ as_bytes s) (length pre + k)) =
  Z.of_nat (length pre) + utf8_len (take_bytes (Z.of_nat k) s).
Proof.
  intros Hs. revert pre k. induction Hs as [|c s Hc Hs IH]; intros pre k Hk.
  { cbn in Hk. lia. }
  rewrite utf8_len_cons in Hk. unfold as_bytes in *. cbn [mbind list_bind take_bytes].
  destruct (utf8_bytes_shape c Hc) as (b & bs & E & Hb & Hbs & El).
  destruct (Z.leb_spec (utf8_len_char c) (Z.of_nat k)).
  - specialize (IH (pre ++ utf8_bytes c) (k - length (utf8_bytes c))%nat).
    rewrite <-app_assoc, length_app in IH.
    replace (length pre + length (utf8_bytes c) + (k - length (utf8_bytes c)))%nat
      with (length pre + k)%nat in IH by lia.
    rewrite IH by lia. rewrite utf8_len_cons, Nat2Z.inj_sub, El by lia. lia.
  - rewrite E in *. rewrite boundary_loop_cont; [|done..|cbn in El; lia]. cbn. lia.
Qed.

Lemma take_bytes_le n s : 0 ≤ n → utf8_len (take_bytes n s) ≤ n.
Proof.
  revert n. induction s as [|c s IH]; intros n Hn; [done|]. cbn [take_bytes].
  destruct (Z.leb_spec (utf8_len_char c) n); [|done]. rewrite utf8_len_cons.
  specialize (IH (n - utf8_len_char c)). lia.
Qed.

Lemma char_boundary_spec s n :
  Forall valid_char s → 0 ≤ n → char_boundary_before s n = utf8_len (take_bytes n s).
Proof.
  intros Hs Hn. unfold char_boundary_before. destruct (Z.leb_spec (utf8_len s) n).
  - f_equal. revert n Hn H. clear Hs. induction s as [|c s IH]; intros n Hn Hl; [done|].
    rewrite utf8_len_cons in Hl. pose proof (utf8_len_nonneg s). cbn [take_bytes].
    rewrite (proj2 (Z.leb_le _ _)) by lia. f_equal. apply IH; lia.
  - pose proof (boundary_loop_spec [] s (Z.to_nat n) Hs) as E. cbn in E.
    rewrite Z2Nat.id in E by lia. apply E. lia.
Qed.

(** *** Bounds *)

Lemma split_char_clean c s : Forall (fun l => c ∉ l) (split_char c s).
Proof.
  induction s as [|x s IH]; simpl; [repeat constructor; apply not_elem_of_nil|].
  destruct (N.eqb_spec x c); [constructor; [apply not_elem_of_nil|done]|].
  destruct (split_char c s) as [|l ls]; [repeat constructor; set_solver|].
  inversion_clear IH. constructor; [set_solver|done].
Qed.

Lemma lines_of_le ls : (length (lines_of ls) ≤ length ls)%nat.
Proof. induction ls as [|l [|l' ls] IH]; simpl in *; [done|destruct l; simpl; lia|lia]. Qed.

Lemma strip_suffix_Some p s r : strip_suffix p s = Some r → s = r ++ p.
Proof.
  unfold strip_suffix. destruct (strip_prefix _ _) as [t|] eqn:E; [|done]. intros [= <-].
  apply strip_prefix_Some in E. apply (f_equal reverse) in E.
  by rewrite reverse_involutive, reverse_app, reverse_involutive in E.
Qed.

Lemma lines_clean s : Forall (fun l => 10%N ∉ l) (lines s).
Proof.
  unfold lines. pose proof (split_char_clean 10 s) as H.
  induction (split_char 10 s) as [|l [|l' ls] IH]; [constructor| |].
  - inversion_clear H. cbn [lines_of]. destruct l; by repeat constructor.
  - inversion_clear H. change (lines_of (l :: l' :: ls)) with (strip_cr l :: lines_of (l' :: ls)).
    constructor; [|by apply IH]. unfold strip_cr.
    destruct (strip_suffix [13%N] l) as [r|] eqn:E; [|done]. apply strip_suffix_Some in E as ->. set_solver.
Qed.

Lemma lines_join_le ls : Forall (fun l => 10%N ∉ l) ls → (length (lines (join [10%N] ls)) ≤ length ls)%nat.
Proof.
  intros H. destruct ls as [|l ls]; [done|]. unfold lines. rewrite split_char_join by done.
  apply lines_of_le.
Qed.

(** What the slow path keeps: its bytes and lines are counted right. *)
Definition preview_ok (p : Preview) : Prop :=
  pv_kept_bytes p = utf8_len (pv_text p) ∧ pv_kept_bytes p ≤ MAX_TOOL_OUTPUT_BYTES ∧
  ∃ ls, pv_text p = join [10%N] ls ∧ Forall (fun l => 10%N ∉ l) ls ∧
    Z.of_nat (length ls) ≤ pv_kept_lines p ≤ MAX_TOOL_OUTPUT_LINES.

Lemma preview_step_ok p line : preview_ok p → 10%N ∉ line → preview_ok (preview_step p line).
Proof.
  intros (Eb & Hb & ls & Et & Hls & Hl) Hline. unfold preview_step.
  destruct (pv_done p); [by repeat (split; eauto)|].
  destruct (Z.ltb_spec MAX_TOOL_OUTPUT_LINES (pv_kept_lines p + 1)); [by repeat (split; eauto)|].
  destruct (Z.ltb_spec MAX_TOOL_OUTPUT_BYTES
    (pv_kept_bytes p + (utf8_len line + (if bool_decide (pv_text p = []) then 0 else 1))));
    [by repeat (split; eauto)|].
  unfold preview_ok. cbn [pv_kept_bytes pv_text pv_kept_lines].
  case_bool_decide as Hnil; (split; [|split; [lia|]]).
  - rewrite Eb, Hnil. change (utf8_len []) with 0. cbn [app]. lia.
  - exists [line]. cbn [length]. split_and!; [done|by repeat constructor|lia..].
  - rewrite !utf8_len_app, Eb. change (utf8_len [10%N]) with 1. lia.
  - exists (ls ++ [line]). rewrite length_app. cbn [length]. split_and!; [|by apply Forall_app_2; [|constructor]|lia..].
    rewrite Et, join_snoc, <-app_assoc; [done|]. intros ->. apply Hnil. by rewrite Et.
Qed.

Lemma preview_fold_ok p ls :
  preview_ok p → Forall (fun l => 10%N ∉ l) ls → preview_ok (foldl preview_step p ls).
Proof.
  intros Hp Hls. revert p Hp. induction Hls as [|l ls Hl _ IH]; intros p Hp; [done|].
  cbn. apply IH. by apply preview_step_ok.
Qed.

Lemma preview_lines_ok output : preview_ok (preview_lines output).
Proof.
  apply preview_fold_ok; [|apply lines_clean]. split; [done|]. split; [done|].
  exists []. split_and!; [done|constructor|done..].
Qed.

(** Blank lines are counted and leave the preview empty. *)
Lemma preview_blanks p blanks :
  pv_text p = [] → pv_done p = false → pv_kept_bytes p = 0 →
  Forall (fun l => l = []) blanks →
  pv_kept_lines p + Z.of_nat (length blanks) ≤ MAX_TOOL_OUTPUT_LINES →
  let p' := foldl preview_step p blanks in
  pv_text p' = [] ∧ pv_done p' = false ∧ pv_kept_bytes p' = 0 ∧
  pv_kept_lines p' = pv_kept_lines p + Z.of_nat (length blanks).
Proof.
  intros Ht Hd Hb Hall. revert p Ht Hd Hb. induction Hall as [|l ls -> _ IH]; intros p Ht Hd Hb Hn.
  { cbn in *. split_and!; [done..|lia]. }
  cbn [foldl length] in *.
  assert (preview_step p [] =
    {| pv_total_lines := pv_total_lines p + 1; pv_kept_bytes := 0; pv_kept_lines := pv_kept_lines p + 1;
       pv_hit_byte_limit := pv_hit_byte_limit p; pv_done := false; pv_text := [] |}) as ->.
  { unfold preview_step. rewrite Hd, Ht, Hb. cbn.
    destruct (Z.ltb_spec MAX_TOOL_OUTPUT_LINES (pv_kept_lines p + 1)); [lia|done]. }
  destruct (IH {| pv_total_lines := pv_total_lines p + 1; pv_kept_bytes := 0;
    pv_kept_lines := pv_kept_lines p + 1; pv_hit_byte_limit := pv_hit_byte_limit p; pv_done := false;
    pv_text := [] |}) as (? & ? & ? & E); [done..|cbn; lia|]. split_and!; [done..|]. cbn in E. lia.
Qed.

Lemma preview_step_keeps p line : pv_text p ≠ [] → pv_text (preview_step p line) ≠ [].
Proof.
  intros Hp. unfold preview_step. rewrite (bool_decide_eq_false_2 (pv_text p = [])) by done.
  repeat case_match; try done. cbn. by destruct (pv_text p).
Qed.
Lemma preview_fold_keeps p ls : pv_text p ≠ [] → pv_text (foldl preview_step p ls) ≠ [].
Proof. revert p. induction ls; intros p Hp; [done|]. cbn. by apply IHls, preview_step_keeps. Qed.

(** A first non-blank line that fits is shown. *)
Lemma preview_lines_nonempty output blanks l rest :
  lines output = blanks ++ l :: rest → Forall (fun l => l = []) blanks →
  Z.of_nat (length blanks) < MAX_TOOL_OUTPUT_LINES → l ≠ [] → utf8_len l ≤ MAX_TOOL_OUTPUT_BYTES →
  pv_text (preview_lines output) ≠ [].
Proof.
  intros E Hb Hn Hl Hle. unfold preview_lines. rewrite E, foldl_app. cbn [foldl].
  apply preview_fold_keeps. set (p0 := Build_Preview _ _ _ _ _ _).
  destruct (preview_blanks p0 blanks) as (Ht & Hd & Hk & Hkl); [done..|cbn; lia|].
  cbn zeta in *. cbn [p0 pv_kept_lines] in Hkl. rewrite Z.add_0_l in Hkl. unfold preview_step at 1. rewrite Hd, Ht, Hk, Hkl.
  rewrite bool_decide_eq_true_2 by done.
  destruct (Z.ltb_spec MAX_TOOL_OUTPUT_LINES (Z.of_nat (length blanks) + 1)); [lia|].
  destruct (Z.ltb_spec MAX_TOOL_OUTPUT_BYTES (0 + (utf8_len l + 0))); [lia|]. exact Hl.
Qed.

Lemma boundary_loop_le bytes i : (boundary_loop bytes i ≤ i)%nat.
Proof. induction i as [|i IH]; [done|]. cbn. case_match; lia. Qed.

Lemma char_boundary_range s n : 0 ≤ n → 0 ≤ char_boundary_before s n ≤ n.
Proof.
  intros Hn. unfold char_boundary_before. destruct (Z.leb_spec (utf8_len s) n).
  - pose proof (utf8_len_nonneg s). lia.
  - pose proof (boundary_loop_le (as_bytes s) (Z.to_nat n)). lia.
Qed.

Lemma take_bytes_exact n s : 0 ≤ n → take_bytes (utf8_len (take_bytes n s)) s = take_bytes n s.
Proof.
  revert n. induction s as [|c s IH]; intros n Hn; [done|]. cbn [take_bytes].
  destruct (Z.leb_spec (utf8_len_char c) n).
  - rewrite utf8_len_cons. pose proof (utf8_len_nonneg (take_bytes (n - utf8_len_char c) s)).
    rewrite (proj2 (Z.leb_le _ _)) by lia. f_equal.
    replace (utf8_len_char c + utf8_len (take_bytes (n - utf8_len_char c) s) - utf8_len_char c)
      with (utf8_len (take_bytes (n - utf8_len_char c) s)) by lia. apply IH. lia.
  - change (utf8_len []) with 0. pose proof (utf8_len_char_pos c).
    by rewrite (proj2 (Z.leb_gt _ _)) by lia.
Qed.

Lemma preview_done_text p ls :
  pv_done p = true → pv_text (foldl preview_step p ls) = pv_text p ∧
  pv_done (foldl preview_step p ls) = true.
Proof.
  revert p. induction ls as [|l ls IH]; intros p Hd; [done|]. cbn [foldl].
  destruct (IH (preview_step p l)) as [-> ->]; unfold preview_step; by rewrite Hd.
Qed.

Lemma preview_lines_long output l rest :
  lines output = l :: rest → MAX_TOOL_OUTPUT_BYTES < utf8_len l → pv_text (preview_lines output) = [].
Proof.
  intros E Hl. unfold preview_lines. rewrite E. cbn [foldl].
  set (p0 := Build_Preview _ _ _ _ _ _).
  assert (preview_step p0 l = {| pv_total_lines := 1; pv_kept_bytes := 0; pv_kept_lines := 0;
    pv_hit_byte_limit := true; pv_done := true; pv_text := [] |}) as ->.
  { unfold preview_step. cbn [p0 pv_done pv_text pv_kept_lines pv_kept_bytes].
    rewrite bool_decide_eq_true_2 by done.
    destruct (Z.ltb_spec MAX_TOOL_OUTPUT_LINES (0 + 1)); [done|].
    by rewrite (proj2 (Z.ltb_lt MAX_TOOL_OUTPUT_BYTES (0 + (utf8_len l + 0)))) by lia. }
  by apply preview_done_text.
Qed.

(** An output within 51,200 bytes and 2,000 lines goes to the model as it
    is. A longer one becomes a preview of at most 51,200 bytes and a note; the
    preview has at most 2,000 lines if its first non-blank line is among the
    first 2,000 and fits, and if the first line alone is too long it is the
    longest run of whole characters that fits. *)
Theorem truncate_bounds output saved :
  (fits_thresholds output = true → truncate_tool_output output saved = output) ∧
  (fits_thresholds output = false → ∃ preview,
     truncate_tool_output output saved = preview ++ truncation_note output (preview_of output) saved ∧
     utf8_len preview ≤ MAX_TOOL_OUTPUT_BYTES ∧
     (∀ blanks l rest, lines output = blanks ++ l :: rest → Forall (fun l => l = []) blanks →
        Z.of_nat (length blanks) < MAX_TOOL_OUTPUT_LINES → l ≠ [] →
        utf8_len l ≤ MAX_TOOL_OUTPUT_BYTES →
        Z.of_nat (length (lines preview)) ≤ MAX_TOOL_OUTPUT_LINES) ∧
     (∀ l rest, lines output = l :: rest → MAX_TOOL_OUTPUT_BYTES < utf8_len l →
        Forall valid_char output → preview = take_bytes MAX_TOOL_OUTPUT_BYTES output)).
Proof.
  unfold truncate_tool_output. split; [by intros ->|]. intros ->.
  exists (pv_text (preview_of output)). split; [done|].
  destruct (preview_lines_ok output) as (Eb & Hb & ls & Et & Hls & Hl).
  pose proof (char_boundary_range output MAX_TOOL_OUTPUT_BYTES ltac:(done)) as Hc.
  unfold preview_of. split_and!.
  - case_match; cbn [pv_text]; [|lia]. etransitivity; [apply take_bytes_le; lia|lia].
  - intros blanks l rest E Hbl Hn Hne Hle.
    rewrite (bool_decide_eq_false_2 _ (preview_lines_nonempty _ _ _ _ E Hbl Hn Hne Hle)).
    cbn [andb]. rewrite Et. pose proof (lines_join_le ls Hls). lia.
  - intros l rest E Hlong Hv. rewrite (preview_lines_long _ _ _ E Hlong).
    rewrite bool_decide_eq_true_2 by done. cbn [andb].
    assert (0 < utf8_len output) as Hpos.
    { destruct output as [|c o]; [done|]. apply utf8_len_pos. }
    rewrite (proj2 (Z.ltb_lt _ _) Hpos). cbn [pv_text].
    rewrite char_boundary_spec by done. by apply take_bytes_exact.
Qed.

Lemma take_bytes_all s : take_bytes (utf8_len s) s = s.
Proof.
  induction s as [|c s IH]; [done|]. cbn [take_bytes]. rewrite utf8_len_cons.
  pose proof (utf8_len_nonneg s). rewrite (proj2 (Z.leb_le _ _)) by lia. f_equal.
  by replace (utf8_len_char c + utf8_len s - utf8_len_char c) with (utf8_len s) by lia.
Qed.

Lemma utf8_len_newlines n : utf8_len (replicate n 10%N) = Z.of_nat n.
Proof.
  induction n as [|n IH]; [done|]. cbn [replicate]. rewrite utf8_len_cons, IH.
  change (utf8_len_char 10%N) with 1. lia.
Qed.
Lemma lines_newlines n : lines (replicate n 10%N) = replicate n [].
Proof.
  unfold lines. assert (split_char 10 (replicate n 10%N) = replicate (S n) []) as ->.
  { induction n as [|n IH]; [done|]. cbn. by rewrite IH. }
  induction n as [|n IH]; [done|]. cbn [replicate] in *.
  change (lines_of ([] :: [] :: replicate n [])) with (strip_cr [] :: lines_of ([] :: replicate n [])).
  by rewrite IH.
Qed.

(** Blank lines alone leave the preview empty. *)
Lemma preview_newlines output n : lines output = replicate n [] → pv_text (preview_lines output) = [].
Proof.
  intros E. unfold preview_lines. rewrite E. set (p0 := Build_Preview _ _ _ _ _ _).
  rewrite <-(take_drop 2000 (replicate n [])), foldl_app.
  assert (Forall (fun l => l = []) (replicate n ([] : str))) as Hall by by apply Forall_replicate.
  destruct (preview_blanks p0 (take 2000 (replicate n []))) as (Ht & Hd & Hk & Hkl);
    [done..|by apply Forall_take|rewrite length_take, length_replicate; cbn [p0 pv_kept_lines]; unfold MAX_TOOL_OUTPUT_LINES; lia|].
  cbn zeta in *. set (p1 := foldl _ p0 _) in *. clearbody p1.
  destruct (decide (2000 ≤ n)%nat) as [Hn|Hn].
  2: { rewrite drop_ge by (rewrite length_replicate; lia). done. }
  rewrite length_take, length_replicate, Nat.min_l in Hkl by lia.
  destruct (drop 2000 (replicate n [])) as [|l ls]; [done|]. cbn [foldl].
  assert (pv_done (preview_step p1 l) = true ∧ pv_text (preview_step p1 l) = []) as [Hd1 Ht1].
  { unfold preview_step. rewrite Hd, Hkl.
    rewrite (proj2 (Z.ltb_lt MAX_TOOL_OUTPUT_LINES (pv_kept_lines p0 + Z.of_nat 2000 + 1))); [done|].
    cbn [p0 pv_kept_lines]. unfold MAX_TOOL_OUTPUT_LINES. lia. }
  rewrite <-Ht1. by apply preview_done_text.
Qed.

(** The line limit does not hold for blank lines: an output of up to
    51,200 newlines is shown in full, whatever number of lines that is. *)
Theorem blank_output_shown_in_full n saved :
  (2000 < n)%nat → Z.of_nat n ≤ MAX_TOOL_OUTPUT_BYTES →
  let output := replicate n 10%N in
  truncate_tool_output output saved
  = output ++ truncation_note output (preview_of output) saved ∧
  Z.of_nat (length (lines output)) = Z.of_nat n.
Proof.
  intros Hn Hb output.
  assert (lines output = replicate n []) as El by apply lines_newlines.
  assert (utf8_len output = Z.of_nat n) as Eu by apply utf8_len_newlines.
  split; [|by rewrite El, length_replicate].
  unfold truncate_tool_output, fits_thresholds. rewrite El, Eu, length_replicate.
  rewrite (proj2 (Z.leb_gt (Z.of_nat n) MAX_TOOL_OUTPUT_LINES)), andb_false_r
    by (unfold MAX_TOOL_OUTPUT_LINES; lia).
  f_equal. unfold preview_of. rewrite bool_decide_eq_true_2, Eu by (eapply preview_newlines, El).
  rewrite (proj2 (Z.ltb_lt 0 (Z.of_nat n))) by lia. cbn [andb pv_text].
  unfold char_boundary_before. rewrite Eu, (proj2 (Z.leb_le _ _)) by lia.
  rewrite <-Eu. apply take_bytes_all.
Qed.

Lemma blank_output_shown_in_full_witness :
  Z.of_nat (length (lines (replicate 3000 10%N))) = 3000.
Proof.
  destruct (blank_output_shown_in_full 3000 None) as [_ E].
  - lia.
  - unfold MAX_TOOL_OUTPUT_BYTES. lia.
  - exact E.
Defined.

(** ** Repeated calls *)

(** [DefaultHasher] over the tool name, the input and a successful output. *)
Class SignatureHash := { signature_hash : str → str → option str → Z }.

Record Streak := {
  last_failure_sig : option Z;
  repeated_failure_count : Z;
  last_success_sig : option Z;
  repeated_success_count : Z;
}.
Definition no_streak : Streak :=
  {| last_failure_sig := None; repeated_failure_count := 0; last_success_sig := None;
     repeated_success_count := 0 |}.

Definition REPEATED_FAILURE_THRESHOLD : Z := 3.
Definition REPEATED_SUCCESS_THRESHOLD : Z := 3.

Definition streak_note (failed : bool) (tool : str) (repetitions : Z) : str :=
  if failed
  then lit "The `" ++ tool ++ lit "` call has now failed " ++ show repetitions
       ++ lit " times in a row with identical arguments. Stop retrying it unchanged " ++ [8212%N]
       ++ lit " change approach: fix the arguments, read the relevant file or state to understand why it fails, or use a different tool to reach the goal."
  else lit "The `" ++ tool ++ lit "` call has now run " ++ show repetitions
       ++ lit " times in a row with identical arguments and the same result " ++ [8212%N]
       ++ lit " that output is already in your context above. Stop repeating it: use what you have, or take a different action toward the goal.".

Section Streaks.
Context `{JT : JsonText} `{SH : SignatureHash}.

Definition tool_call_signature (r : ToolExecutionResult) : Z :=
  signature_hash (result_tool_name r) (json_to_string (call_input (final_call r)))
    match r with Completed _ (Success output) _ _ => Some output | _ => None end.

(** The counter of one kind: the last signature and its count so far. *)
Definition bump (last : option Z) (count sig threshold : Z) : option Z * Z * option Z :=
  let count := if decide (last = Some sig) then Word.add_u32 count 1 else 1 in
  if count <? threshold then (Some sig, count, None) else (None, 0, Some count).

Definition update_tool_streak (st : Streak) (r : ToolExecutionResult) : Streak * option str :=
  let failed := is_failure_result r in
  let sig := tool_call_signature r in
  if failed then
    let '(last, count, reps) :=
      bump (last_failure_sig st) (repeated_failure_count st) sig REPEATED_FAILURE_THRESHOLD in
    ({| last_failure_sig := last; repeated_failure_count := count; last_success_sig := None;
        repeated_success_count := 0 |}, streak_note failed (result_tool_name r) <$> reps)
  else
    let '(last, count, reps) :=
      bump (last_success_sig st) (repeated_success_count st) sig REPEATED_SUCCESS_THRESHOLD in
    ({| last_failure_sig := None; repeated_failure_count := 0; last_success_sig := last;
        repeated_success_count := count |}, streak_note failed (result_tool_name r) <$> reps).

(** The state and the notes after a sequence of results. *)
Fixpoint run_streak (st : Streak) (rs : list ToolExecutionResult) : Streak * list (option str) :=
  match rs with
  | [] => (st, [])
  | r :: rs =>
      let '(st, note) := update_tool_streak st r in
      let '(st, notes) := run_streak st rs in
      (st, note :: notes)
  end.

(** *** Reference: the length of the run of identical results *)

Definition streak_key (r : ToolExecutionResult) : bool * Z := (is_failure_result r, tool_call_signature r).

(** The run at the head of a history that has the newest result first. *)
Fixpoint run_from (k : bool * Z) (h : list ToolExecutionResult) : nat :=
  match h with
  | [] => 0
  | r :: h => if decide (streak_key r = k) then S (run_from k h) else 0
  end.

(** What the counters hold after a history. *)
Definition streak_of (h : list ToolExecutionResult) : Streak :=
  match h with
  | [] => no_streak
  | r :: _ =>
      let k := (run_from (streak_key r) h mod 3)%nat in
      let last := if decide (k = 0%nat) then None else Some (tool_call_signature r) in
      if is_failure_result r
      then {| last_failure_sig := last; repeated_failure_count := Z.of_nat k;
              last_success_sig := None; repeated_success_count := 0 |}
      else {| last_failure_sig := None; repeated_failure_count := 0;
              last_success_sig := last; repeated_success_count := Z.of_nat k |}
  end.

Lemma bump_spec last count sig n :
  last = (if decide (n mod 3 = 0)%nat then None else Some sig) → count = Z.of_nat (n mod 3) →
  bump last count sig 3 =
  let k := (S n mod 3)%nat in
  (if decide (k = 0%nat) then None else Some sig, Z.of_nat k, if decide (k = 0%nat) then Some 3 else None).
Proof.
  intros -> ->. unfold bump.
  assert (n mod 3 = 0 ∧ S n mod 3 = 1 ∨ n mod 3 = 1 ∧ S n mod 3 = 2 ∨ n mod 3 = 2 ∧ S n mod 3 = 0)%nat as H.
  { pose proof (Nat.div_mod_eq n 3). pose proof (Nat.div_mod_eq (S n) 3).
    pose proof (Nat.mod_upper_bound n 3). pose proof (Nat.mod_upper_bound (S n) 3). lia. }
  destruct H as [[-> ->]|[[-> ->]|[-> ->]]]; cbn; [done|..]; by rewrite decide_True.
Qed.

(** A fresh signature starts a run. *)
Lemma bump_fresh last count sig : last ≠ Some sig → bump last count sig 3 = (Some sig, 1, None).
Proof. intros H. unfold bump. by rewrite decide_False. Qed.

Lemma run_from_head r h : run_from (streak_key r) (r :: h) = S (run_from (streak_key r) h).
Proof. cbn. by rewrite decide_True. Qed.

Lemma streak_step h r :
  update_tool_streak (streak_of h) r =
  (streak_of (r :: h),
   if decide (run_from (streak_key r) (r :: h) mod 3 = 0)%nat
   then Some (streak_note (is_failure_result r) (result_tool_name r) 3) else None).
Proof.
  unfold streak_of at 2. rewrite run_from_head. unfold update_tool_streak.
  change REPEATED_FAILURE_THRESHOLD with 3. change REPEATED_SUCCESS_THRESHOLD with 3.
  destruct h as [|r0 h].
  { unfold streak_of, no_streak; cbn [last_failure_sig last_success_sig]. rewrite !bump_fresh by done.
    by destruct (is_failure_result r). }
  destruct (decide (streak_key r0 = streak_key r)) as [E|E].
  - injection E as Ef Es. assert (run_from (streak_key r0) (r0 :: h) = run_from (streak_key r) (r0 :: h)) as Er
      by (unfold streak_key; by rewrite Ef, Es).
    unfold streak_of. rewrite Er, Ef, Es. set (n := run_from (streak_key r) (r0 :: h)).
    destruct (is_failure_result r); cbn [last_failure_sig last_success_sig repeated_failure_count
      repeated_success_count]; rewrite (bump_spec _ _ _ n) by done; cbn zeta;
      destruct (decide (S n mod 3 = 0)%nat); done.
  - assert (run_from (streak_key r) (r0 :: h) = 0%nat) as -> by (cbn; by rewrite decide_False).
    change (1 mod 3)%nat with 1%nat. unfold streak_of.
    assert (∀ f : bool, f = is_failure_result r → is_failure_result r0 = f →
      (if decide (run_from (streak_key r0) (r0 :: h) mod 3 = 0)%nat then None
       else Some (tool_call_signature r0)) ≠ Some (tool_call_signature r)) as Hne.
    { intros f -> Ef. case_decide; [done|]. intros [= Es]. apply E. unfold streak_key. congruence. }
    destruct (is_failure_result r) eqn:Fr, (is_failure_result r0) eqn:Fr0;
      cbn [last_failure_sig last_success_sig repeated_failure_count repeated_success_count];
      rewrite bump_fresh by (done || by eapply Hne); done.
Qed.

(** The note about repetition appears exactly at every third result of a
    run of results of the same kind with the same signature, however many
    results precede it and whatever they are. *)
Theorem streak_notes_every_third (rs : list ToolExecutionResult) r :
  let h := reverse rs in
  let st := (run_streak no_streak rs).1 in
  (update_tool_streak st r).2 =
  if decide (run_from (streak_key r) (r :: h) mod 3 = 0)%nat
  then Some (streak_note (is_failure_result r) (result_tool_name r) 3) else None.
Proof.
  intros h st. subst st.
  assert (∀ h0, (run_streak (streak_of h0) rs).1 = streak_of (reverse rs ++ h0)) as H.
  { clear. induction rs as [|r rs IH]; intros h0; [done|]. cbn [run_streak].
    rewrite streak_step. specialize (IH (r :: h0)). destruct (run_streak _ rs) as [st' ns] eqn:E.
    rewrite reverse_cons, <-app_assoc. exact IH. }
  specialize (H []). rewrite app_nil_r in H. change (streak_of []) with no_streak in H.
  rewrite H. by rewrite streak_step.
Qed.
End Streaks.

(** ** Messages of results *)

Section ResultMessages.
Context `{JT : JsonText}.

(** [build_tool_result_message_with_appendix]; [saved] and [now] are what
    saving the full output and the clock answer. *)
Definition output_with_appendix (r : ToolExecutionResult) (appendix : str) : str :=
  tool_output r ++ (if negb (bool_decide (appendix = [])) && is_success_result r then appendix else []).
Definition build_tool_result_message_with_appendix (r : ToolExecutionResult) (appendix : str)
    (saved : option str) (now : Z) : ChatMessage :=
  tool_result_message (result_call_id r) (result_tool_name r)
    (truncate_tool_output (output_with_appendix r appendix) saved) (is_failure_result r) now.
Definition build_tool_result_message (r : ToolExecutionResult) (saved : option str) (now : Z) :
    ChatMessage :=
  build_tool_result_message_with_appendix r [] saved now.

(** ** Pruning *)

Definition KEEP_RECENT_TOOL_BYTES : Z := 40000.
Definition MIN_PRUNABLE_BYTES : Z := 1000.
Definition PRUNED_MARKER : str :=
  lit "[older tool output pruned to save context " ++ [8212%N]
  ++ lit " re-run the tool or read the file if you still need it]".

(** One block, with the bytes kept so far. *)
Definition prune_block (kept : Z) (b : ContentBlock) : Z * ContentBlock :=
  match b with
  | ToolResult c n output e =>
      if decide (output = PRUNED_MARKER) then (kept, b)
      else if kept <? KEEP_RECENT_TOOL_BYTES then (kept + utf8_len output, b)
      else if MIN_PRUNABLE_BYTES <? utf8_len output then (kept, ToolResult c n PRUNED_MARKER e)
      else (kept, b)
  | _ => (kept, b)
  end.
Fixpoint prune_blocks (kept : Z) (bs : list ContentBlock) : Z * list ContentBlock :=
  match bs with
  | [] => (kept, [])
  | b :: bs =>
      let '(kept, b) := prune_block kept b in
      let '(kept, bs) := prune_blocks kept bs in
      (kept, b :: bs)
  end.
Definition set_blocks (m : ChatMessage) (bs : list ContentBlock) : ChatMessage :=
  {| role := role m; blocks := bs; message_id := message_id m; timestamp_ms := timestamp_ms m;
     api_usage_tokens := api_usage_tokens m; reasoning_content := reasoning_content m;
     estimated_tokens := estimated_tokens m |}.
(** The messages newest first ([iter_mut().rev()]). *)
Fixpoint prune_newest_first (kept : Z) (ms : list ChatMessage) : list ChatMessage :=
  match ms with
  | [] => []
  | m :: ms =>
      let '(kept, bs) := prune_blocks kept (blocks m) in
      set_blocks m bs :: prune_newest_first kept ms
  end.
Definition prune_stale_tool_output (ms : list ChatMessage) : list ChatMessage :=
  reverse (prune_newest_first 0 (reverse ms)).

(** A block but for the text of an output. *)
Definition block_frame (b : ContentBlock) : ContentBlock :=
  match b with ToolResult c n _ e => ToolResult c n [] e | b => b end.
Definition message_frame (m : ChatMessage) : ChatMessage := set_blocks m (block_frame <$> blocks m).

Lemma prune_block_frame kept b : block_frame (prune_block kept b).2 = block_frame b.
Proof. destruct b; cbn; repeat case_match; done. Qed.
Lemma prune_blocks_frame kept bs : block_frame <$> (prune_blocks kept bs).2 = block_frame <$> bs.
Proof.
  revert kept. induction bs as [|b bs IH]; intros kept; [done|]. cbn [prune_blocks].
  pose proof (prune_block_frame kept b) as Hb. destruct (prune_block kept b) as [k1 b1].
  specialize (IH k1). destruct (prune_blocks k1 bs) as [k2 bs2]. cbn in *. by rewrite Hb, IH.
Qed.
Lemma prune_newest_frame kept ms :
  message_frame <$> prune_newest_first kept ms = message_frame <$> ms.
Proof.
  revert kept. induction ms as [|m ms IH]; intros kept; [done|]. cbn [prune_newest_first].
  pose proof (prune_blocks_frame kept (blocks m)) as Hb. destruct (prune_blocks kept (blocks m)) as [k bs].
  rewrite !fmap_cons, IH. f_equal. unfold message_frame. cbn in *. by rewrite Hb.
Qed.

(** Pruning again changes nothing and counts the same. *)
Lemma marker_small : utf8_len PRUNED_MARKER ≤ MIN_PRUNABLE_BYTES.
Proof. vm_compute. discriminate. Qed.
Lemma prune_block_again kept b :
  prune_block kept (prune_block kept b).2 = prune_block kept b.
Proof.
  destruct b as [|? ? ?|c n o e| |]; cbn; try done.
  destruct (decide (o = PRUNED_MARKER)) as [->|Ho]; cbn; [by rewrite decide_True|].
  destruct (kept <? KEEP_RECENT_TOOL_BYTES) eqn:E1; cbn; [by rewrite decide_False, E1|].
  destruct (MIN_PRUNABLE_BYTES <? utf8_len o) eqn:E2; cbn.
  - by rewrite decide_True.
  - by rewrite decide_False, E1, E2.
Qed.
Lemma prune_blocks_again kept bs :
  prune_blocks kept (prune_blocks kept bs).2 = prune_blocks kept bs.
Proof.
  revert kept. induction bs as [|b bs IH]; intros kept; [done|]. cbn [prune_blocks].
  pose proof (prune_block_again kept b) as Hb. destruct (prune_block kept b) as [k1 b1].
  specialize (IH k1). destruct (prune_blocks k1 bs) as [k2 bs2]. cbn [snd prune_blocks] in *.
  by rewrite Hb, IH.
Qed.
Lemma prune_newest_again kept ms :
  prune_newest_first kept (prune_newest_first kept ms) = prune_newest_first kept ms.
Proof.
  revert kept. induction ms as [|m ms IH]; intros kept; [done|]. cbn [prune_newest_first].
  pose proof (prune_blocks_again kept (blocks m)) as Hb. destruct (prune_blocks kept (blocks m)) as [k bs].
  cbn [snd prune_newest_first set_blocks blocks] in *. by rewrite Hb, IH.
Qed.

(** The outputs of a history, newest message first, and what is kept. *)
Definition tool_outputs (bs : list ContentBlock) : list str :=
  omap (fun b => match b with
                 | ToolResult _ _ o _ => if decide (o = PRUNED_MARKER) then None else Some o
                 | _ => None
                 end) bs.
Definition output_bytes (bs : list ContentBlock) : Z := foldr Z.add 0 (utf8_len <$> tool_outputs bs).

Lemma output_bytes_app a b : output_bytes (a ++ b) = output_bytes a + output_bytes b.
Proof.
  unfold output_bytes, tool_outputs. rewrite omap_app, fmap_app, foldr_app.
  generalize (foldr Z.add 0 (utf8_len <$> omap (fun b => match b with
    | ToolResult _ _ o _ => if decide (o = PRUNED_MARKER) then None else Some o | _ => None end) b)).
  intros z. induction (utf8_len <$> _) as [|x l IH]; cbn; lia.
Qed.
Lemma output_bytes_nonneg bs : 0 ≤ output_bytes bs.
Proof.
  unfold output_bytes. induction (tool_outputs bs) as [|o l IH]; [done|]. cbn.
  pose proof (utf8_len_nonneg o). lia.
Qed.

(** While the window is not full, blocks are untouched and counted. *)
Lemma prune_blocks_recent kept bs :
  kept + output_bytes bs < KEEP_RECENT_TOOL_BYTES → prune_blocks kept bs = (kept + output_bytes bs, bs).
Proof.
  revert kept. induction bs as [|b bs IH]; intros kept Hk.
  { cbn. f_equal. unfold output_bytes. cbn. lia. }
  change (b :: bs) with ([b] ++ bs) in Hk |- *. rewrite output_bytes_app in *.
  pose proof (output_bytes_nonneg bs). pose proof (output_bytes_nonneg [b]).
  cbn [prune_blocks app]. assert (prune_block kept b = (kept + output_bytes [b], b)) as ->.
  { destruct b as [|? ? ?|c n o e| |]; cbn [prune_block]; unfold output_bytes; cbn; try (f_equal; lia).
    destruct (decide (o = PRUNED_MARKER)); cbn; [f_equal; lia|].
    rewrite (proj2 (Z.ltb_lt _ _)) by lia. f_equal. lia. }
  rewrite IH by lia. f_equal. lia.
Qed.

Lemma prune_newest_recent kept new old :
  kept + output_bytes (concat (blocks <$> new)) < KEEP_RECENT_TOOL_BYTES →
  prune_newest_first kept (new ++ old) =
  new ++ prune_newest_first (kept + output_bytes (concat (blocks <$> new))) old.
Proof.
  revert kept. induction new as [|m new IH]; intros kept Hk.
  { cbn. f_equal. unfold output_bytes. cbn. lia. }
  rewrite fmap_cons in *. cbn [concat] in *. rewrite output_bytes_app in *.
  pose proof (output_bytes_nonneg (concat (blocks <$> new))).
  rewrite <-app_comm_cons. cbn [prune_newest_first]. rewrite prune_blocks_recent by lia.
  rewrite IH by lia. rewrite Z.add_assoc. cbn. f_equal. by destruct m.
Qed.

(** Pruning keeps every message and block, with roles, ids and flags: only
    texts of tool outputs change, so pairs of calls and results stay intact;
    the newest messages whose outputs stay under 40,000 bytes are untouched;
    and pruning twice is pruning once. *)
Theorem prune_safe old new :
  let ms := old ++ new in
  message_frame <$> prune_stale_tool_output ms = message_frame <$> ms ∧
  prune_stale_tool_output (prune_stale_tool_output ms) = prune_stale_tool_output ms ∧
  (output_bytes (concat (blocks <$> reverse new)) < KEEP_RECENT_TOOL_BYTES →
   ∃ old', prune_stale_tool_output ms = old' ++ new ∧ length old' = length old).
Proof.
  intros ms. unfold prune_stale_tool_output. split_and!.
  - rewrite fmap_reverse, prune_newest_frame, fmap_reverse. by rewrite reverse_involutive.
  - by rewrite reverse_involutive, prune_newest_again.
  - intros Hn. subst ms. rewrite reverse_app, prune_newest_recent by lia.
    rewrite reverse_app, reverse_involutive. eexists. split; [done|].
    rewrite length_reverse. rewrite <-(length_fmap message_frame), prune_newest_frame, length_fmap.
    by rewrite length_reverse.
Qed.

(** Pruning does not lower the price of a history whose messages are
    already priced: [update_message_cache] leaves the old price in place, so
    the token estimate after a forced compression counts the pruned outputs
    at full size. *)
Theorem pruned_history_priced_in_full ms :
  Forall (fun m => is_Some (estimated_tokens m)) ms →
  LoopEstimator.estimate_history_messages
    (LoopEstimator.update_message_cache <$> prune_stale_tool_output ms)
  = LoopEstimator.estimate_history_messages ms.
Proof.
  intros Hs. unfold LoopEstimator.estimate_history_messages. f_equal.
  rewrite <-list_fmap_compose.
  assert (∀ m m', message_frame m' = message_frame m → is_Some (estimated_tokens m) →
    LoopEstimator.estimate_message (LoopEstimator.update_message_cache m') =
    LoopEstimator.estimate_message m) as Hm.
  { intros m m' E [t Ht]. rewrite LoopEstimator.update_message_cache_estimate.
    apply (f_equal estimated_tokens) in E. cbn in E. unfold LoopEstimator.estimate_message.
    by rewrite E, Ht. }
  assert (message_frame <$> prune_stale_tool_output ms = message_frame <$> ms) as E.
  { unfold prune_stale_tool_output.
    rewrite fmap_reverse, prune_newest_frame, fmap_reverse. by rewrite reverse_involutive. }
  revert E. generalize (prune_stale_tool_output ms). intros ms' E. revert ms' E.
  induction Hs as [|m ms Hp _ IH]; intros [|m' ms'] E; try done.
  rewrite !fmap_cons in E. apply (inj2 cons) in E as [E1 E2]. rewrite !fmap_cons. f_equal; [by apply Hm|].
  by apply IH.
Qed.
End ResultMessages.

Definition demo_priced : ChatMessage (J := json_lib (H := demo_json)) :=
  LoopEstimator.update_message_cache
    (tool_result_message (lit "call_1") (lit "bash") (replicate 4000 120%N) false 0).

Lemma pruned_history_priced_in_full_witness :
  LoopEstimator.estimate_history_messages
    (LoopEstimator.update_message_cache <$> prune_stale_tool_output (replicate 12 demo_priced))
  = 12420.
Proof.
  rewrite pruned_history_priced_in_full.
  - vm_compute. reflexivity.
  - apply Forall_replicate. vm_compute. eauto.
Defined.

(** The last two of these twelve outputs are indeed pruned. *)
Example demo_pruned :
  omap (fun b => match b with ToolResult _ _ o _ => Some (utf8_len o) | _ => None end)
    (concat (blocks <$> prune_stale_tool_output (replicate 12 demo_priced)))
  = [100; 100] ++ replicate 10 4000.
Proof. vm_compute. reflexivity. Qed.
