(* ===== verification/LoopState.v ===== *)
(** * State of the agent loop

    crates/core/src/loop_state.rs, kvcache.rs, snapshot.rs, input.rs and the
    context of agent_loop.rs ([TurnState], [LoopContext]); outcomes and errors
    of crates/agent-types/src/outcome; and what the loop asks of the outside:
    the provider, the prompt builder, the user, the clock. *)

From S2P Require Import Prelude RStr F64 Message Budget Estimator Compaction Summary.
From S2P Require Import ContextManager HostPath LocalPolicy Launcher HookPoint ToolCall Prompt.
From S2P Require Import Stream ToolOutput.

(** ** Outcomes *)

Record TokenUsage := {
  tu_prompt : Z;
  tu_completion : Z;
  tu_total : Z;
  tu_cached : Z;
  tu_cache_write : Z;
}.
Definition zero_usage : TokenUsage :=
  {| tu_prompt := 0; tu_completion := 0; tu_total := 0; tu_cached := 0; tu_cache_write := 0 |}.
Definition add_assign (a b : TokenUsage) : TokenUsage :=
  {| tu_prompt := Word.saturating_add (tu_prompt a) (tu_prompt b);
     tu_completion := Word.saturating_add (tu_completion a) (tu_completion b);
     tu_total := Word.saturating_add (tu_total a) (tu_total b);
     tu_cached := Word.saturating_add (tu_cached a) (tu_cached b);
     tu_cache_write := Word.saturating_add (tu_cache_write a) (tu_cache_write b) |}.
Definition usage_of_response (u : Usage) : TokenUsage :=
  {| tu_prompt := prompt_tokens u; tu_completion := completion_tokens u;
     tu_total := usage_total_tokens u; tu_cached := cached_tokens u;
     tu_cache_write := cache_write_tokens u |}.

(** [AgentError]; [Panicked] stands for a panic of the code. The text of a
    compression error is the display of the error, which is kept itself. *)
Inductive AgentError :=
| AeLlmProvider (message : str)
| AeToolExecution (message : str)
| AeCompression (e : CompressionError)
| AePromptBuild (message : str)
| AeTokenBudgetExhausted
| Panicked (message : str).

(** ** Cache hashes *)

Abbreviation KvCacheMap := (gmap str str).
Definition diff_deleted (m : KvCacheMap) (new_hashes : list str) : list str :=
  filter (fun h => h ∉ new_hashes) (map_to_list m).*1.
Definition kv_replace (new_hashes : list str) (text : str) : KvCacheMap :=
  foldl (fun m h => <[h := text]> m) ∅ new_hashes.

Section State.
Context `{JT : JsonText}.

Inductive AgentOutcome :=
| OComplete (reply : str) (messages : list ChatMessage) (turn_count : Z) (token_usage : TokenUsage)
    (estimated_input_tokens : Z)
| OMaxTurnsReached (partial_reply : option str) (messages : list ChatMessage) (turn_count : Z)
    (token_usage : TokenUsage) (estimated_input_tokens : Z)
| OBudgetExhausted (partial_reply : option str) (messages : list ChatMessage) (turn_count : Z)
    (token_usage : TokenUsage) (estimated_input_tokens : Z)
| OCancelled (partial_reply : option str) (messages : list ChatMessage) (turn_count : Z)
    (token_usage : TokenUsage) (estimated_input_tokens : Z).

Inductive LoopRunResult :=
| RunComplete (outcome : AgentOutcome)
| RunSuspended (calls : list SuspendedToolCall).

(** [LoopState], without the cancellation token; the streak counters are
    grouped. *)
Record LoopState := {
  session_id : str;
  messages : list ChatMessage;
  turn_count : Z;
  token_usage : TokenUsage;
  last_token_usage : TokenUsage;
  compression_meta : CompressionMeta;
  kv_cache_map : KvCacheMap;
  plan_nudged : bool;
  streak : Streak;
  tool_executed : bool;
}.
Record LoopStateSnapshot := {
  ss_session_id : str;
  ss_messages : list ChatMessage;
  ss_turn_count : Z;
  ss_token_usage : TokenUsage;
  ss_last_token_usage : TokenUsage;
  ss_compression_meta : CompressionMeta;
  ss_kv_cache_map : KvCacheMap;
}.

Definition new_loop_state (id : str) : LoopState :=
  {| session_id := id; messages := []; turn_count := 0; token_usage := zero_usage;
     last_token_usage := zero_usage;
     compression_meta := {| last_compact_turn := None; compact_summary := None |};
     kv_cache_map := ∅; plan_nudged := false; streak := no_streak; tool_executed := false |}.
Definition to_snapshot (s : LoopState) : LoopStateSnapshot :=
  {| ss_session_id := session_id s; ss_messages := messages s; ss_turn_count := turn_count s;
     ss_token_usage := token_usage s; ss_last_token_usage := last_token_usage s;
     ss_compression_meta := compression_meta s; ss_kv_cache_map := kv_cache_map s |}.
Definition from_snapshot (s : LoopStateSnapshot) : LoopState :=
  {| session_id := ss_session_id s; messages := ss_messages s; turn_count := ss_turn_count s;
     token_usage := ss_token_usage s; last_token_usage := ss_last_token_usage s;
     compression_meta := ss_compression_meta s; kv_cache_map := ss_kv_cache_map s;
     plan_nudged := false; streak := no_streak; tool_executed := false |}.

(** ** Input and turn *)

Record CommandContext := { cmd_command : str; cmd_arguments : str }.

(** [runtime_view] and [pending_user_messages] say whether there is one. *)
Record AgentLoopInput := {
  user_text : str;
  append_user_message : bool;
  event_sink : option LoopEventSink;
  agent_id : option str;
  visible_tools : list ToolSpecView;
  runtime_view : bool;
  input_reasoning_effort : ReasoningEffort;
  stop_rules : list LoopStopRule;
  pending_user_messages : bool;
  command_context : option CommandContext;
}.
Definition with_user_text (i : AgentLoopInput) (t : str) : AgentLoopInput :=
  {| user_text := t; append_user_message := append_user_message i; event_sink := event_sink i;
     agent_id := agent_id i; visible_tools := visible_tools i; runtime_view := runtime_view i;
     input_reasoning_effort := input_reasoning_effort i; stop_rules := stop_rules i;
     pending_user_messages := pending_user_messages i; command_context := command_context i |}.

Inductive LoopDecision := Continue | ReturnComplete | ReturnMaxTurns | ReturnBudgetExhausted | ReturnCancelled.

(** [TurnState], without spans and timings. *)
Record TurnState := {
  turn_number : Z;
  compression_output : option CompressedView;
  build_messages_output : option PromptBuildResult;
  assistant_message : option AssistantMessage;
  tool_results : list ToolExecutionResult;
  decision : option LoopDecision;
  force_return_complete : bool;
}.
Definition new_turn (n : Z) : TurnState :=
  {| turn_number := n; compression_output := None; build_messages_output := None;
     assistant_message := None; tool_results := []; decision := None; force_return_complete := false |}.

(** ** Chat hooks *)

Inductive ChatHookInput :=
| HookSystemTransform (session : str) (current_system : list str)
| HookChatMessage (session agent : str) (message_id : option str) (message : ChatMessage)
    (prior_message_count : Z)
| HookCommandBefore (command session arguments body : str).
Inductive ChatHookPrimary :=
| SystemAllow
| SystemTransform (system : list str)
| MessageAccept
| MessageTransform (message : ChatMessage)
| CommandAllow
| CommandTransform (body : str)
| CommandDeny (reason : str)
| ChatOther (category : HookPointCategory).

(** ** Skills *)

Record SkillSpec := {
  user_invocable : bool;
  skill_location : option str;
  full_prompt : str;
}.

(** ** The outside *)

(** What the loop asks beside tools and tool hooks. The pipeline is the one
    whose provider answers as it does at this moment; [poll_order] is the
    order in which [join_all] completes its futures. *)
Class LoopWorld `{RT : ToolRuntime} (P : Type) := {
  is_cancelled : World → bool * World;
  drain_pending : World → list str * World;
  open_todo_lines : World → list str * World;
  prior_message_count : World → Z * World;
  chat_invoke : Hooker → ChatHookInput → World → result ChatHookPrimary HookInvokeError * World;
  provider_complete : LlmRequest → World → result LlmResponse Budget.LlmError * World;
  provider_stream : LlmRequest → World →
    list (Z * StreamChunk) * result LlmResponse Budget.LlmError * World;
  current_pipeline : World → P * World;
  save_output : str → str → str → World → option str * World;
  poll_order : nat → World → list nat * World;
}.

(** The snapshot of the runtime: what is fixed for a run. *)
Record RuntimeSnapshot := {
  system_prompt : str;
  feature_flags : FeatureFlags;
  max_turns : Z;
  token_budget_config : TokenBudgetConfig;
  get_executor : str → option ToolExecutor;
  spec_count : Z;
  list_skills : list SkillSummary;
  get_skill : str → option SkillSpec;
  (** [XIAOO_NON_STREAMING] is set. *)
  non_streaming : bool;
}.
End State.

(** ** Context *)

Section Context.
Context `{JT : JsonText} `{RT : ToolRuntime}.

(** What the loop does to the outside. *)
Inductive LoopEffect :=
| Sink (e : SinkEvent)
| Asked (request : LlmRequest) (answer : result LlmResponse Budget.LlmError)
| Compressed (view : CompressedView)
| Evict (hashes : list str)
| ToolEffect (e : Effect).

Record Ctx := {
  state : LoopState;
  input : AgentLoopInput;
  turn : TurnState;
  estimator : LoopEstimator.t;
  outer : World;
  log : list LoopEffect;
}.

Definition set_state (f : LoopState → LoopState) (c : Ctx) : Ctx :=
  {| state := f (state c); input := input c; turn := turn c; estimator := estimator c;
     outer := outer c; log := log c |}.
Definition set_turn (f : TurnState → TurnState) (c : Ctx) : Ctx :=
  {| state := state c; input := input c; turn := f (turn c); estimator := estimator c;
     outer := outer c; log := log c |}.

Abbreviation L A := (St.M Ctx A).

Definition gets {A} (f : Ctx → A) : L A := fun c => (f c, c).
Definition modify (f : Ctx → Ctx) : L () := fun c => ((), f c).
Definition ask {A} (f : World → A * World) : L A :=
  fun c => let '(a, w) := f (outer c) in
           (a, {| state := state c; input := input c; turn := turn c; estimator := estimator c;
                  outer := w; log := log c |}).
Definition emit (es : list LoopEffect) : L () :=
  fun c => ((), {| state := state c; input := input c; turn := turn c; estimator := estimator c;
                   outer := outer c; log := log c ++ es |}).
(** A tool's effects run in the loop's world. *)
Definition lift_tool {A} (m : St.M ToolState A) : L A :=
  fun c => let '(a, s) := m {| world := outer c; effects := [] |} in
           (a, {| state := state c; input := input c; turn := turn c; estimator := estimator c;
                  outer := world s; log := log c ++ (ToolEffect <$> effects s) |}).

(** Updates of the parts. *)
Definition with_messages (f : list ChatMessage → list ChatMessage) (s : LoopState) : LoopState :=
  {| session_id := session_id s; messages := f (messages s); turn_count := turn_count s;
     token_usage := token_usage s; last_token_usage := last_token_usage s;
     compression_meta := compression_meta s; kv_cache_map := kv_cache_map s;
     plan_nudged := plan_nudged s; streak := streak s; tool_executed := tool_executed s |}.
Definition with_turn_count (f : Z → Z) (s : LoopState) : LoopState :=
  {| session_id := session_id s; messages := messages s; turn_count := f (turn_count s);
     token_usage := token_usage s; last_token_usage := last_token_usage s;
     compression_meta := compression_meta s; kv_cache_map := kv_cache_map s;
     plan_nudged := plan_nudged s; streak := streak s; tool_executed := tool_executed s |}.
Definition with_usage (total last : TokenUsage) (s : LoopState) : LoopState :=
  {| session_id := session_id s; messages := messages s; turn_count := turn_count s;
     token_usage := total; last_token_usage := last;
     compression_meta := compression_meta s; kv_cache_map := kv_cache_map s;
     plan_nudged := plan_nudged s; streak := streak s; tool_executed := tool_executed s |}.
Definition with_meta (m : CompressionMeta) (s : LoopState) : LoopState :=
  {| session_id := session_id s; messages := messages s; turn_count := turn_count s;
     token_usage := token_usage s; last_token_usage := last_token_usage s;
     compression_meta := m; kv_cache_map := kv_cache_map s;
     plan_nudged := plan_nudged s; streak := streak s; tool_executed := tool_executed s |}.
Definition with_kv (m : KvCacheMap) (s : LoopState) : LoopState :=
  {| session_id := session_id s; messages := messages s; turn_count := turn_count s;
     token_usage := token_usage s; last_token_usage := last_token_usage s;
     compression_meta := compression_meta s; kv_cache_map := m;
     plan_nudged := plan_nudged s; streak := streak s; tool_executed := tool_executed s |}.
Definition with_nudged (b : bool) (s : LoopState) : LoopState :=
  {| session_id := session_id s; messages := messages s; turn_count := turn_count s;
     token_usage := token_usage s; last_token_usage := last_token_usage s;
     compression_meta := compression_meta s; kv_cache_map := kv_cache_map s;
     plan_nudged := b; streak := streak s; tool_executed := tool_executed s |}.
Definition with_streak (k : Streak) (s : LoopState) : LoopState :=
  {| session_id := session_id s; messages := messages s; turn_count := turn_count s;
     token_usage := token_usage s; last_token_usage := last_token_usage s;
     compression_meta := compression_meta s; kv_cache_map := kv_cache_map s;
     plan_nudged := plan_nudged s; streak := k; tool_executed := tool_executed s |}.
Definition with_tool_executed (b : bool) (s : LoopState) : LoopState :=
  {| session_id := session_id s; messages := messages s; turn_count := turn_count s;
     token_usage := token_usage s; last_token_usage := last_token_usage s;
     compression_meta := compression_meta s; kv_cache_map := kv_cache_map s;
     plan_nudged := plan_nudged s; streak := streak s; tool_executed := b |}.

Definition with_compression (v : CompressedView) (t : TurnState) : TurnState :=
  {| turn_number := turn_number t; compression_output := Some v;
     build_messages_output := build_messages_output t; assistant_message := assistant_message t;
     tool_results := tool_results t; decision := decision t;
     force_return_complete := force_return_complete t |}.
Definition with_prompt (r : PromptBuildResult) (t : TurnState) : TurnState :=
  {| turn_number := turn_number t; compression_output := compression_output t;
     build_messages_output := Some r; assistant_message := assistant_message t;
     tool_results := tool_results t; decision := decision t;
     force_return_complete := force_return_complete t |}.
Definition with_assistant (m : option AssistantMessage) (t : TurnState) : TurnState :=
  {| turn_number := turn_number t; compression_output := compression_output t;
     build_messages_output := build_messages_output t; assistant_message := m;
     tool_results := tool_results t; decision := decision t;
     force_return_complete := force_return_complete t |}.
Definition with_result (r : ToolExecutionResult) (t : TurnState) : TurnState :=
  {| turn_number := turn_number t; compression_output := compression_output t;
     build_messages_output := build_messages_output t; assistant_message := assistant_message t;
     tool_results := tool_results t ++ [r]; decision := decision t;
     force_return_complete := force_return_complete t |}.
Definition with_decision (d : LoopDecision) (t : TurnState) : TurnState :=
  {| turn_number := turn_number t; compression_output := compression_output t;
     build_messages_output := build_messages_output t; assistant_message := assistant_message t;
     tool_results := tool_results t; decision := Some d;
     force_return_complete := force_return_complete t |}.
Definition with_force_complete (t : TurnState) : TurnState :=
  {| turn_number := turn_number t; compression_output := compression_output t;
     build_messages_output := build_messages_output t; assistant_message := assistant_message t;
     tool_results := tool_results t; decision := decision t; force_return_complete := true |}.

(** The pushes fill the message's token cache first. *)
Definition push_message (m : ChatMessage) : L () :=
  modify (set_state (with_messages (fun ms => ms ++ [LoopEstimator.update_message_cache m]))).

Definition agent_id_or_anonymous (i : AgentLoopInput) : str := default (lit "anonymous") (agent_id i).

(** An event for the sink, if there is one. *)
Definition to_sink (e : SinkEvent) : L () :=
  let! i := gets input in
  match event_sink i with
  | Some _ => emit [Sink e]
  | None => St.ret ()
  end.

Definition append_assistant_to_history : L () :=
  let! msg := gets (fun c => assistant_message (turn c)) in
  match msg with
  | None => St.ret ()
  | Some msg =>
      let! now := ask current_time_ms in
      push_message
        {| role := Assistant;
           blocks := match am_text msg with Some t => [Text t] | None => [] end
                     ++ ((fun tc => ToolUse (tu_call_id tc) (tu_tool_name tc) (tu_input tc))
                         <$> tool_calls msg);
           message_id := None; timestamp_ms := now;
           api_usage_tokens := Some (usage_total_tokens (usage msg));
           reasoning_content := am_reasoning_content msg; estimated_tokens := None |}
  end.
End Context.
