(* ===== verification/LlmTurn.v ===== *)
(** * The model's part of a turn

    crates/core/src/agent_loop.rs: chat hooks, compression with pruning, the
    prompt of a turn, the token pre-check, the call of the provider with
    streaming and cancellation, and the retry at the context limit. *)

From S2P Require Import Prelude RStr F64 Message Budget Estimator Compaction Summary.
From S2P Require Import ContextManager HostPath LocalPolicy Launcher HookPoint ToolCall Prompt.
From S2P Require Import Stream ToolOutput LoopState.

Inductive CompressionTrigger := Automatic | ContextLimitRetry | PreCheckExceeded.
Definition is_forced (t : CompressionTrigger) : bool :=
  match t with Automatic => false | ContextLimitRetry | PreCheckExceeded => true end.

(** An error of the provider, or a panic of the loop. *)
Inductive LlmFault := FaultLlm (e : Budget.LlmError) | FaultPanic (message : str).

Section Turn.
Context `{JT : JsonText} `{JP : JsonParse} `{RT : ToolRuntime}.
Context {P : Type} `{PP : !CompressionPipeline P} `{LW : !LoopWorld P}.
Context {B : Type} `{TB : !TokenBudgetPolicy B} (policy : B) (snap : RuntimeSnapshot).
Abbreviation L A := (St.M Ctx A).

(** ** Chat hooks *)

(** [run_chat_hook_chain]: [apply] gives the new accumulator and whether to
    stop, or [None] for an answer of another kind, which is skipped. *)
Fixpoint run_chat_hook_chain {Acc} (hs : list Hooker) (build_input : Acc → ChatHookInput)
    (apply : Acc → ChatHookPrimary → option (Acc * bool)) (acc : Acc) : L Acc :=
  match hs with
  | [] => St.ret acc
  | h :: hs =>
      let! output := ask (chat_invoke h (build_input acc)) in
      match output with
      | Err _ => run_chat_hook_chain hs build_input apply acc
      | Ok o =>
          match apply acc o with
          | None => run_chat_hook_chain hs build_input apply acc
          | Some (acc, true) => St.ret acc
          | Some (acc, false) => run_chat_hook_chain hs build_input apply acc
          end
      end
  end.

Definition chat_agent_segment (id : option str) : str := default (lit "anonymous") id.
Definition chat_hookers (id : option str) (suffix : str) : list Hooker :=
  phase_hookers rt_hookers (chat_agent_segment id ++ suffix).

(** The rewrite of the merged system message. *)
Definition set_first_system (ms : list ChatMessage) (joined : str) : list ChatMessage :=
  match ms with
  | m :: ms => if decide (role m = System) then set_blocks m [Text joined] :: ms else m :: ms
  | [] => []
  end.
Definition with_system_parts (r : PromptBuildResult) (system : list str) : PromptBuildResult :=
  let q := pr_request r in
  {| pr_request := {| req_messages := set_first_system (req_messages q) (join blank_line system);
                      req_tools := req_tools q; tool_choice := tool_choice q;
                      req_max_tokens := req_max_tokens q; req_temperature := req_temperature q;
                      response_format := response_format q; reasoning_effort := reasoning_effort q |};
     pr_estimated_input_tokens := pr_estimated_input_tokens r;
     pr_system_parts := system |}.

Definition run_chat_system_transform_sequence (r : PromptBuildResult) : L PromptBuildResult :=
  let! i := gets input in
  let! session := gets (fun c => session_id (state c)) in
  if negb (runtime_view i) then St.ret r
  else run_chat_hook_chain (chat_hookers (agent_id i) (lit ".Chat.system.transform"))
         (fun r => HookSystemTransform session (pr_system_parts r))
         (fun r o => match o with
                     | SystemAllow => Some (r, false)
                     | SystemTransform system => Some (with_system_parts r system, false)
                     | _ => None
                     end) r.

Definition run_chat_message_hook (session : str) (id : option str) (candidate : ChatMessage) :
    L ChatMessage :=
  let! prior := ask prior_message_count in
  run_chat_hook_chain (chat_hookers id (lit ".Chat.message.received"))
    (fun m => HookChatMessage session (chat_agent_segment id) (message_id m) m prior)
    (fun m o => match o with
                | MessageAccept => Some (m, false)
                | MessageTransform m' => Some (m', false)
                | _ => None
                end) candidate.

Definition apply_chat_message_hook (view : bool) (session : str) (id : option str)
    (candidate : ChatMessage) : L ChatMessage :=
  if view then run_chat_message_hook session id candidate else St.ret candidate.

Definition run_command_execute_before_hook (session : str) (id : option str) (cmd : CommandContext)
    (body : str) : L (str * option str) :=
  run_chat_hook_chain (chat_hookers id (lit ".Chat.command.before"))
    (fun acc => HookCommandBefore (cmd_command cmd) session (cmd_arguments cmd) acc.1)
    (fun acc o => match o with
                  | CommandAllow => Some (acc, false)
                  | CommandTransform body => Some ((body, acc.2), false)
                  | CommandDeny reason => Some ((acc.1, Some reason), true)
                  | _ => None
                  end) (body, None).

(** ** Compression *)

Definition compress_step (trigger : CompressionTrigger) : L (result () AgentError) :=
  let! ms := gets (fun c => messages (state c)) in
  let! meta := gets (fun c => compression_meta (state c)) in
  let! p := ask current_pipeline in
  match pipeline_analyze p ms policy with
  | Err _ => St.ret (Err (Panicked (lit "compression analysis")))
  | Ok analysis =>
      if negb (is_forced trigger) && negb (should_compact analysis) then St.ret (Ok ())
      else
        match pipeline_compress p ms policy meta with
        | Err e => St.ret (Err (AeCompression e))
        | Ok view =>
            let view := {| v_messages := prune_stale_tool_output (v_messages view);
                           removed_count := removed_count view; v_summary := v_summary view;
                           updated_meta := updated_meta view;
                           v_estimated_tokens := v_estimated_tokens view |} in
            let! _ := modify (fun c =>
              set_turn (with_compression view)
                (set_state (fun s => with_meta (updated_meta view)
                   (with_messages (fun _ => LoopEstimator.update_message_cache <$> v_messages view) s)) c)) in
            let! _ := emit [Compressed view] in
            St.ret (Ok ())
        end
  end.

(** ** The prompt of a turn *)

Definition snippet (source content : str) (num den : Z) : MemorySnippet :=
  {| snippet_source := source; snippet_content := content; relevance_score := F64.of_ratio num den |}.

Definition horizon_snippet (turn max tokens_used : Z) : list MemorySnippet :=
  let remaining := Word.saturating_sub max turn in
  if (0 <? max) && (remaining <=? 5) then
    [snippet (lit "horizon")
       (lit "- turn: " ++ show turn ++ lit "/" ++ show max ++ lit " (" ++ show remaining
        ++ lit " remaining)" ++ nl_str ++ lit "- tokens used so far: ~" ++ show tokens_used ++ nl_str
        ++ lit "- NEARING THE TURN LIMIT " ++ [8212%N]
        ++ lit " stop investigating and converge now: apply your best fix, save the files, and finish this turn. A committed partial fix beats an unfinished exploration that gets cut off.")
       1 1]
  else [].

Definition budget_snippet (window context_input : Z) : list MemorySnippet :=
  if window =? 0 then []
  else
    let pct := Z.min Word.usize_max (context_input * 100) / window in
    if pct <? 25 then []
    else
      [snippet (lit "budget")
         (lit "- context window: ~" ++ show pct ++ lit "% used (" ++ show context_input ++ lit "/"
          ++ show window ++ lit " input tokens)"
          ++ (if 75 <=? pct
              then lit " " ++ [8212%N] ++ lit " running full; converge and finish before the earliest context is compacted away."
              else [])) 95 100].

Definition live_context_snippets : L (list MemorySnippet) :=
  let! n := gets (fun c => turn_number (turn c)) in
  let! last := gets (fun c => last_token_usage (state c)) in
  let! view := gets (fun c => runtime_view (input c)) in
  let fixed := horizon_snippet n (max_turns snap) (tu_total last)
               ++ budget_snippet (total_budget (token_budget_config snap)) (tu_prompt last) in
  if view then
    let! plan := ask open_todo_lines in
    St.ret (fixed ++ ((fun line => snippet (lit "plan") line 9 10) <$> plan))
  else St.ret fixed.

Definition with_effort (r : PromptBuildResult) (e : ReasoningEffort) : PromptBuildResult :=
  let q := pr_request r in
  {| pr_request := {| req_messages := req_messages q; req_tools := req_tools q;
                      tool_choice := tool_choice q; req_max_tokens := req_max_tokens q;
                      req_temperature := req_temperature q; response_format := response_format q;
                      reasoning_effort := e |};
     pr_estimated_input_tokens := pr_estimated_input_tokens r; pr_system_parts := pr_system_parts r |}.

Definition build_messages : L (result () AgentError) :=
  let! i := gets input in
  let! n := gets (fun c => turn_number (turn c)) in
  let! ms := gets (fun c => messages (state c)) in
  let is_final_turn := (0 <? max_turns snap) && (max_turns snap <=? n) in
  let! snippets := live_context_snippets in
  match build_prompt
    {| in_system_prompt := system_prompt snap; in_messages := ms;
       in_visible_tools := if is_final_turn then [] else visible_tools i;
       in_skill_summaries := list_skills snap; in_memory_snippets := snippets;
       in_environment := {| env_model := []; env_cwd := []; workspace_root := None; env_date := [];
                            env_agent_id := default [] (agent_id i) |};
       in_feature_flags := feature_flags snap; in_turn_count := n;
       in_budget := token_budget_config snap |} with
  | Err e => St.ret (Err (AePromptBuild (prompt_error_str e)))
  | Ok r =>
      let! r := run_chat_system_transform_sequence (with_effort r (input_reasoning_effort i)) in
      let! _ := modify (set_turn (with_prompt r)) in
      St.ret (Ok ())
  end.

(** ** The pre-check *)

Definition estimate_input : L Z :=
  fun c =>
    let '(v, e) := LoopEstimator.estimate_input_tokens (estimator c) (system_prompt snap)
                     (spec_count snap) (messages (state c)) in
    (v, {| state := state c; input := input c; turn := turn c; estimator := e; outer := outer c;
           log := log c |}).

Definition pre_check_token_budget : L (result () AgentError) :=
  let! estimated := estimate_input in
  let cfg := token_budget_config snap in
  let available := Word.saturating_sub
    (Word.saturating_sub (total_budget cfg) (reserved_for_output cfg)) (reserved_for_system cfg) in
  if estimated <=? available then St.ret (Ok ())
  else
    let!? _ := compress_step PreCheckExceeded in
    let!? _ := build_messages in
    let! _ := estimate_input in
    St.ret (Ok ()).

(** ** The provider *)

(** An answer: its usage is added to the account, the rest of the stream is
    shown, and the cache entries that are gone are evicted. *)
Definition finish_shown (st : AssistantStreamState) (secrets : list str) (response : LlmResponse) : L () :=
  let m := resp_message response in
  let! i := gets input in
  let! _ := emit (Sink <$> flush_stream (agent_id_or_anonymous i) secrets (event_sink i) st
                     (am_text m) (am_reasoning_content m)) in
  let! _ := modify (set_turn (with_assistant (Some m))) in
  if kvcache_enabled (feature_flags snap) then
    let! kv := gets (fun c => kv_cache_map (state c)) in
    let deleted := diff_deleted kv (kv_cache_chunk_hashes response) in
    let! _ := emit (match deleted with [] => [] | _ => [Evict deleted] end) in
    modify (set_state (with_kv (kv_replace (kv_cache_chunk_hashes response) (default [] (am_text m)))))
  else St.ret ().
Definition finish_call (st : AssistantStreamState) (secrets : list str) (response : LlmResponse) : L () :=
  let last := usage_of_response (usage (resp_message response)) in
  let! _ := modify (set_state (fun s => with_usage (add_assign (token_usage s) last) last s)) in
  finish_shown st secrets response.

(** The partial message of a cancelled stream. *)
Definition cancelled_call (st : AssistantStreamState) (secrets : list str) : L () :=
  let text := buffer (text_channel st) in
  let reasoning := buffer (reasoning_channel st) in
  match text, reasoning with
  | [], [] => St.ret ()
  | _, _ =>
      let! i := gets input in
      let! _ := emit (Sink <$> flush_stream (agent_id_or_anonymous i) secrets (event_sink i) st
                         (nonempty text) (nonempty reasoning)) in
      modify (set_turn (with_assistant (Some
        {| am_text := nonempty text; am_reasoning_content := nonempty reasoning; tool_calls := [];
           usage := {| prompt_tokens := 0; completion_tokens := 0; usage_total_tokens := 0;
                       cached_tokens := 0; cache_write_tokens := 0 |};
           stop_reason := EndTurn |})))
  end.

(** The question, streamed or not, and its answer. *)
Definition call_provider (built : PromptBuildResult) : L (result () LlmFault) :=
  let! i := gets input in
  let! ms := gets (fun c => messages (state c)) in
  let secrets := if redact_secrets_display (feature_flags snap)
                 then extract_secrets_from_messages ms else [] in
  if non_streaming snap then
    let! answer := ask (provider_complete (pr_request built)) in
    let! _ := emit [Asked (pr_request built) answer] in
    match answer with
    | Ok response => let! _ := finish_call default_stream secrets response in St.ret (Ok ())
    | Err e => St.ret (Err (FaultLlm e))
    end
  else
    let! ' (chunks, answer) := ask (provider_stream (pr_request built)) in
    let '(st, events) :=
      stream_chunks (agent_id_or_anonymous i) secrets (event_sink i) default_stream chunks in
    let! _ := emit (Sink <$> events) in
    let! _ := emit [Asked (pr_request built) answer] in
    match answer with
    | Ok response => let! _ := finish_call st secrets response in St.ret (Ok ())
    | Err Cancelled => let! _ := cancelled_call st secrets in St.ret (Ok ())
    | Err e => St.ret (Err (FaultLlm e))
    end.

Definition llm_call : L (result () LlmFault) :=
  let! cancelled := ask is_cancelled in
  if cancelled then St.ret (Ok ())
  else
    let! built := gets (fun c => build_messages_output (turn c)) in
    match built with
    | None => St.ret (Err (FaultPanic (lit "build_messages must run before llm_call")))
    | Some built => call_provider built
    end.

Definition fault_error (f : LlmFault) : AgentError :=
  match f with
  | FaultLlm e => AeLlmProvider (llm_error_str e)
  | FaultPanic m => Panicked m
  end.

Definition llm_call_with_recovery : L (result () AgentError) :=
  let! r := llm_call in
  match r with
  | Err (FaultLlm (ContextLengthExceeded _)) =>
      let!? _ := compress_step ContextLimitRetry in
      let!? _ := build_messages in
      let! r := llm_call in
      St.ret (Result.map_err fault_error r)
  | r => St.ret (Result.map_err fault_error r)
  end.
End Turn.
