(* ===== verification/ToolExec.v ===== *)
(** * Tool execution of a turn

    crates/core/src/tool_exec.rs: the calls of the model are repaired and
    validated, a single invalid call is retried once, the batch is built and
    executed, and its results are recorded in the history. *)

From S2P Require Import Prelude RStr F64 Message Budget Estimator Compaction Summary.
From S2P Require Import ContextManager HostPath LocalPolicy Launcher HookPoint ToolCall Prompt.
From S2P Require Import Stream ToolOutput LoopState LlmTurn.

(** ** Previews for the display *)

Fixpoint field_remove (key : str) (fields : list (str * Json)) : list (str * Json) :=
  match fields with
  | [] => []
  | (k, v) :: rest => if decide (k = key) then rest else (k, v) :: field_remove key rest
  end.

(** An answer whose secret value gives way to its display value. *)
Definition mask_answer (answer : Json) : Json :=
  match answer with
  | JObject fields =>
      if decide ((json_get answer (lit "kind") ≫= as_str) = Some (lit "text")) then
        match json_get answer (lit "display_value") with
        | Some JNull | None => answer
        | Some display =>
            JObject (field_remove (lit "display_value") (field_insert (lit "value") display fields))
        end
      else answer
  | _ => answer
  end.

Section Exec.
Context `{JT : JsonText} `{JP : JsonParse} `{UC : UnicodeCase} `{SH : SignatureHash} `{RT : ToolRuntime}.
Context {P : Type} `{PP : !CompressionPipeline P} `{LW : !LoopWorld P}.
Context {B : Type} `{TB : !TokenBudgetPolicy B} (policy : B) (snap : RuntimeSnapshot).
Abbreviation L A := (St.M Ctx A).

Definition filter_ask_user_question_output (output : str) : str :=
  match json_from_str output with
  | None => take 200 output
  | Some value =>
      let value :=
        match value with
        | JObject fields =>
            match field fields (lit "answers") with
            | Some (JArray answers) =>
                JObject (field_insert (lit "answers") (JArray (mask_answer <$> answers)) fields)
            | _ => value
            end
        | _ => value
        end in
      take 200 (json_to_string value)
  end.

Definition bash_args_preview (v : Json) (secrets : list str) : str :=
  json_to_string_pretty
    match v with
    | JObject fields =>
        match field fields (lit "command") with
        | Some (JString command) =>
            JObject (field_insert (lit "command") (JString (filter_secrets_in_text command secrets)) fields)
        | _ => v
        end
    | _ => v
    end.

Definition emit_tool_event (id name : str) (v : Json) (preview : str) (is_error : bool) : L () :=
  let! i := gets input in
  let! ms := gets (fun c => messages (state c)) in
  let args := if decide (name = lit "bash")
              then bash_args_preview v (extract_secrets_from_messages ms)
              else json_to_string_pretty v in
  to_sink (OnToolResult (agent_id_or_anonymous i)
    {| tre_call_id := id; tre_tool_name := name; output_preview := preview; tre_is_error := is_error;
       args_preview := args |}).

Definition emit_tool_result_event (r : ToolExecutionResult) : L () :=
  match r with
  | Suspended _ _ _ => St.ret ()
  | _ =>
      let output := tool_output r in
      let preview := if bool_decide (result_tool_name r = lit "ask_user_question")
                        && negb (is_failure_result r)
                     then filter_ask_user_question_output output else output in
      emit_tool_event (result_call_id r) (result_tool_name r) (call_input (final_call r)) preview
        (is_failure_result r)
  end.

(** ** Calls *)

(** [normalized_tool_calls]: the calls in order, the valid and the others. *)
Definition normalized_tool_calls : L (list ToolUseBlock * list ToolUseBlock) :=
  let! msg := gets (fun c => assistant_message (turn c)) in
  match msg with
  | None => St.ret ([], [])
  | Some m =>
      let! i := gets input in
      let! n := gets (fun c => turn_count (state c)) in
      let m := repair_tool_names (synthesize_missing_call_ids m n) (visible_tools i) in
      let! _ := modify (set_turn (with_assistant (Some m))) in
      St.ret (filter (fun tc => is_valid_tool_call tc = true) (tool_calls m),
              filter (fun tc => is_valid_tool_call tc = false) (tool_calls m))
  end.

Definition pop_message : L () := modify (set_state (with_messages (fun ms => take (length ms - 1) ms))).

(** [build_messages] fails with a prompt error only. *)
Definition retry_prompt_error (e : AgentError) : AgentError :=
  match e with
  | Panicked m => Panicked m
  | AePromptBuild m =>
      AePromptBuild (lit "retry after invalid tool call: prompt build error: " ++ m)
  | e => AePromptBuild (lit "retry after invalid tool call")
  end.

(** The retry of a single invalid call: its error is shown to the model. *)
Definition retry_invalid (invalid : ToolUseBlock) : L (result () AgentError) :=
  let! now := ask current_time_ms in
  let! _ := modify (set_state (with_messages
              (fun ms => ms ++ [build_invalid_tool_call_result invalid now]))) in
  let! r := (let! built := build_messages snap in
             match built with
             | Err e => St.ret (Err (retry_prompt_error e))
             | Ok _ => llm_call_with_recovery policy snap
             end) in
  let! _ := pop_message in
  St.ret r.

(** [sort_by_key] on a boolean key: a stable partition. *)
Definition joins_last (tcs : list ToolUseBlock) : list ToolUseBlock :=
  filter (fun tc => tu_tool_name tc ≠ lit "join_subagent") tcs
  ++ filter (fun tc => tu_tool_name tc = lit "join_subagent") tcs.

Definition set_calls (m : AssistantMessage) (tcs : list ToolUseBlock) : AssistantMessage :=
  {| am_text := am_text m; am_reasoning_content := am_reasoning_content m; tool_calls := tcs;
     usage := usage m; stop_reason := stop_reason m |}.

(** The events of the calls that are dropped. *)
Fixpoint report_invalid (tcs : list ToolUseBlock) : L () :=
  match tcs with
  | [] => St.ret ()
  | tc :: tcs =>
      let! _ := emit_tool_event (tu_call_id tc) (tu_tool_name tc) (tu_input tc)
                  (invalid_tool_call_message tc) true in
      report_invalid tcs
  end.

(** What follows once the calls are settled. *)
Definition accept_calls (valid invalid : list ToolUseBlock) : L (list ToolUseBlock) :=
  let calls := joins_last valid in
  let! _ := modify (set_turn (fun t =>
    with_assistant ((fun m => set_calls m calls) <$> assistant_message t) t)) in
  let! _ := append_assistant_to_history in
  let! _ := report_invalid invalid in
  St.ret calls.

Definition process_llm_tool_calls : L (result (list ToolUseBlock) AgentError) :=
  let! ' (valid, invalid) := normalized_tool_calls in
  match valid, invalid with
  | [], [tc] =>
      let!? _ := retry_invalid tc in
      let! ' (valid, invalid) := normalized_tool_calls in
      let! calls := accept_calls valid invalid in
      St.ret (Ok calls)
  | _, _ =>
      let! calls := accept_calls valid invalid in
      St.ret (Ok calls)
  end.

(** ** The batch *)

Definition execute_tool_call (call : result ToolCallImpl ToolExecutionResult) : L ToolExecutionResult :=
  match call with
  | Err r => St.ret r
  | Ok tc =>
      let! r := lift_tool (execute tc) in
      St.ret match r with
             | Ok r => r
             | Err e => build_framework_failed_tool_result (tc_final_call tc) (tool_error_str e)
             end
  end.

(** The calls at the positions of [order], with those positions. *)
Fixpoint execute_in_order (calls : list (result ToolCallImpl ToolExecutionResult)) (order : list nat) :
    L (list (nat * ToolExecutionResult)) :=
  match order with
  | [] => St.ret []
  | i :: order =>
      match calls !! i with
      | None => execute_in_order calls order
      | Some call =>
          let! r := execute_tool_call call in
          let! rs := execute_in_order calls order in
          St.ret ((i, r) :: rs)
      end
  end.

(** A schedule runs every call once: what the answer of [poll_order] repeats
    is ignored, what it omits comes last. *)
Definition complete_order (n : nat) (order : list nat) : list nat :=
  remove_dups order ++ filter (fun i => i ∉ order) (seq 0 n).

Definition in_call_order (n : nat) (rs : list (nat * ToolExecutionResult)) : list ToolExecutionResult :=
  omap (fun i => list_to_map (M := gmap nat ToolExecutionResult) rs !! i) (seq 0 n).

(** [execute_tool_batch]: [join_all] returns the results in call order. *)
Definition execute_tool_batch (calls : list (result ToolCallImpl ToolExecutionResult))
    (serialize : bool) : L (list ToolExecutionResult) :=
  let n := length calls in
  let! order := (if serialize then St.ret (seq 0 n)
                 else let! o := ask (poll_order n) in St.ret (complete_order n o)) in
  let! rs := execute_in_order calls order in
  St.ret (in_call_order n rs).

(** ** Recording *)

Definition build_and_push_result (r : ToolExecutionResult) : L () :=
  let! saved := (if fits_thresholds (tool_output r) then St.ret None
                 else ask (save_output (result_tool_name r) (result_call_id r) (tool_output r))) in
  let! now := ask current_time_ms in
  push_message (build_tool_result_message r saved now).

(** The loop of [record_tool_results]: the note, the suspended calls and
    whether a stop rule fired. *)
Fixpoint record_loop (rs : list ToolExecutionResult) (note : option str)
    (suspended : list SuspendedToolCall) (stop : bool) :
    L (option str * list SuspendedToolCall * bool) :=
  match rs with
  | [] => St.ret (note, suspended, stop)
  | r :: rs =>
      let! _ := modify (set_state (with_tool_executed true)) in
      let! i := gets input in
      let stop := should_stop_after_tool_result (stop_rules i) r || stop in
      let! _ := emit_tool_result_event r in
      match from_tool_result r with
      | Some call =>
          let! _ := modify (set_turn (with_result r)) in
          record_loop rs note (suspended ++ [call]) stop
      | None =>
          let! _ := build_and_push_result r in
          let! s := gets (fun c => streak (state c)) in
          let '(s, n) := update_tool_streak s r in
          let! _ := modify (set_state (with_streak s)) in
          let! _ := modify (set_turn (with_result r)) in
          record_loop rs (match n with Some n => Some n | None => note end) suspended stop
      end
  end.

Definition record_tool_results (rs : list ToolExecutionResult) : L (list SuspendedToolCall) :=
  let! ' (note, suspended, stop) := record_loop rs None [] false in
  match suspended with
  | [] =>
      let! _ := (if stop then modify (set_turn with_force_complete) else St.ret ()) in
      let! _ := (match note with Some n => push_message (user_message n) | None => St.ret () end) in
      St.ret []
  | _ => St.ret suspended
  end.

(** ** The whole phase *)

Definition raw_call (tc : ToolUseBlock) : RawToolCall :=
  {| raw_call_id := tu_call_id tc; raw_tool_name := tu_tool_name tc; raw_input := tu_input tc |}.

(** The batch runs in parallel only if every call that was built is of a tool
    that is safe to run in parallel. *)
Definition serialize_batch (f : ToolFilterImpl) (built : list (result ToolCallImpl ToolExecutionResult)) :
    bool :=
  negb (forallb (fun call =>
    match call with
    | Ok tc => match get_spec_for_name f (tool_name (tc_final_call tc)) with
               | Some spec => is_parallel_safe (ts_effect_profile spec)
               | None => false
               end
    | Err _ => true
    end) built).

(** [tool_exec::run]. *)
Definition run_tools : L (result (list SuspendedToolCall) AgentError) :=
  let! msg := gets (fun c => assistant_message (turn c)) in
  match msg with
  | None => St.ret (Ok [])
  | Some m =>
      let! i := gets input in
      if bool_decide (tool_calls m = []) || negb (tool_execution (feature_flags snap))
         || negb (runtime_view i) || bool_decide (agent_id i = None)
      then let! _ := append_assistant_to_history in St.ret (Ok [])
      else
        let!? calls := process_llm_tool_calls in
        let f := tool_filter_from_specs (visible_tools i) (get_executor snap) in
        let built := (fun tc => build_tool_call (raw_call tc) f) <$> calls in
        let! results := execute_tool_batch built (serialize_batch f built) in
        let! suspended := record_tool_results results in
        St.ret (Ok suspended)
  end.
End Exec.
