(* ===== verification/AgentLoop.v ===== *)
(** * The agent loop

    crates/core/src/agent_loop.rs: [run_agent_loop] with the preparation of
    the input (skill prefix, command hook, message hook), the turn (pending
    messages, compression, prompt, pre-check, provider, tools, decision) and
    the outcomes. A run of the loop takes fuel; [run_terminates] shows how
    much is enough when the number of turns is limited. *)

From S2P Require Import Prelude RStr F64 Message Budget Estimator Compaction Summary.
From S2P Require Import ContextManager HostPath LocalPolicy Launcher HookPoint ToolCall Prompt.
From S2P Require Import Stream ToolOutput LoopState LlmTurn ToolExec.

(** ** Skill prefix *)

(** [find(char::is_whitespace)]: the text before the first white space and
    the text from it on, if there is one. *)
Fixpoint split_at_whitespace (s : str) : str * str :=
  match s with
  | [] => ([], [])
  | c :: s' => if is_whitespace c then ([], s)
               else let '(a, b) := split_at_whitespace s' in (c :: a, b)
  end.

Definition try_expand_skill_prefix (get_skill : str → option SkillSpec) (user_message : str) :
    option str :=
  match trim user_message with
  | 47%N :: without_slash =>
      let '(skill_name, rest) := split_at_whitespace without_slash in
      let args := trim rest in
      if bool_decide (skill_name = []) then None
      else
        match get_skill skill_name with
        | None => None
        | Some spec =>
            if negb (user_invocable spec) then None
            else Some
              (match skill_location spec with
               | Some location => lit "[Skill directory: " ++ location ++ lit "]" ++ blank_line
               | None => []
               end
               ++ full_prompt spec
               ++ (if bool_decide (args = []) then []
                   else blank_line ++ lit "User request: " ++ args))
        end
  | _ => None
  end.

Section Loop.
Context `{JT : JsonText} `{JP : JsonParse} `{UC : UnicodeCase} `{SH : SignatureHash} `{RT : ToolRuntime}.
Context {P : Type} `{PP : !CompressionPipeline P} `{LW : !LoopWorld P}.
Context {B : Type} `{TB : !TokenBudgetPolicy B} (policy : B) (snap : RuntimeSnapshot).
Abbreviation L A := (St.M Ctx A).

Definition set_input (f : AgentLoopInput → AgentLoopInput) (c : Ctx) : Ctx :=
  {| state := state c; input := f (input c); turn := turn c; estimator := estimator c;
     outer := outer c; log := log c |}.
Definition set_user_text (t : str) : L () := modify (set_input (fun i => with_user_text i t)).

(** ** Pending messages *)

Definition push_hooked (message : str) : L () :=
  let! i := gets input in
  let! session := gets (fun c => session_id (state c)) in
  let! now := ask current_time_ms in
  let! m := apply_chat_message_hook (runtime_view i) session (agent_id i)
              (text_message User message now) in
  push_message m.
Fixpoint push_pending (pending : list str) : L () :=
  match pending with
  | [] => St.ret ()
  | message :: pending =>
      let! _ := (if bool_decide (trim message = []) then St.ret () else push_hooked message) in
      push_pending pending
  end.
Definition drain_pending_user_messages : L () :=
  let! i := gets input in
  if pending_user_messages i then
    let! pending := ask drain_pending in push_pending pending
  else St.ret ().

(** ** Outcomes *)

Definition current_turn_estimated_input_tokens (c : Ctx) : Z :=
  match build_messages_output (turn c) with Some r => pr_estimated_input_tokens r | None => 0 end.
Definition partial_reply_of (c : Ctx) : option str := assistant_message (turn c) ≫= am_text.

Definition build_outcome_complete (c : Ctx) : AgentOutcome :=
  OComplete (default [] (partial_reply_of c)) (messages (state c)) (turn_count (state c))
    (token_usage (state c)) (current_turn_estimated_input_tokens c).
Definition build_outcome_max_turns (c : Ctx) : AgentOutcome :=
  OMaxTurnsReached (partial_reply_of c) (messages (state c)) (turn_count (state c))
    (token_usage (state c)) (current_turn_estimated_input_tokens c).
Definition build_outcome_budget (c : Ctx) : AgentOutcome :=
  OBudgetExhausted (partial_reply_of c) (messages (state c)) (turn_count (state c))
    (token_usage (state c)) (current_turn_estimated_input_tokens c).
Definition build_outcome_cancelled (c : Ctx) : AgentOutcome :=
  OCancelled (partial_reply_of c) (messages (state c)) (turn_count (state c))
    (token_usage (state c)) (current_turn_estimated_input_tokens c).

Definition emit_loop_end (stop_reason : str) : L () :=
  let! i := gets input in
  let! s := gets state in
  to_sink (OnLoopEnd (agent_id_or_anonymous i)
    {| le_turn_count := turn_count s; le_total_tokens := tu_total (token_usage s);
       le_stop_reason := stop_reason |}).

(** ** The decision *)

Definition plan_reminder (open : list str) : str :=
  lit "You are about to stop, but your plan still has " ++ show (Z.of_nat (length open))
  ++ lit " open item(s):" ++ nl_str ++ join nl_str open ++ nl_str
  ++ lit "Finish them now, or call todo_write to mark them completed/cancelled if they no longer apply "
  ++ [8212%N] ++ lit " then stop.".

Definition can_execute_tool_calls (i : AgentLoopInput) : bool :=
  tool_execution (feature_flags snap) && bool_decide (visible_tools i ≠ []) && runtime_view i.
Definition last_turn (n : Z) : bool := (0 <? max_turns snap) && (max_turns snap <=? n).

(** [decide]. *)
Definition decide_turn : L LoopDecision :=
  let! cancelled := ask is_cancelled in
  let! t := gets turn in
  let! i := gets input in
  if cancelled then St.ret ReturnCancelled
  else if force_return_complete t then St.ret ReturnComplete
  else if last_turn (turn_number t) then St.ret ReturnMaxTurns
  else if match assistant_message t with
          | Some m => bool_decide (tool_calls m ≠ []) && can_execute_tool_calls i
          | None => false
          end
  then St.ret Continue
  else
    let! nudged := gets (fun c => plan_nudged (state c)) in
    if negb nudged && (turn_number t <? max_turns snap) then
      let! open := (if runtime_view i then ask open_todo_lines else St.ret []) in
      match open with
      | [] => St.ret ReturnComplete
      | _ =>
          let! _ := modify (set_state (with_nudged true)) in
          let! _ := push_message (user_message (plan_reminder open)) in
          St.ret Continue
      end
    else St.ret ReturnComplete.

Definition loop_decide : L () :=
  let! d := decide_turn in modify (set_turn (with_decision d)).

(** ** The turn *)

Definition count_turn : L () := modify (set_state (with_turn_count (fun n => Word.add_u32 n 1))).

(** What follows the decision: [None] is the next turn. *)
Definition act_on_decision : L (result (option LoopRunResult) AgentError) :=
  let! d := gets (fun c => decision (turn c)) in
  match d with
  | Some Continue =>
      let! _ := count_turn in
      let! _ := modify (set_turn (fun t => new_turn (Word.add_u32 (turn_number t) 1))) in
      St.ret (Ok None)
  | Some ReturnComplete =>
      let! _ := count_turn in
      let! _ := emit_loop_end (lit "complete") in
      let! o := gets build_outcome_complete in
      St.ret (Ok (Some (RunComplete o)))
  | Some ReturnMaxTurns =>
      let! _ := count_turn in
      let! o := gets build_outcome_max_turns in
      let! _ := emit_loop_end (lit "max_turns") in
      St.ret (Ok (Some (RunComplete o)))
  | Some ReturnBudgetExhausted =>
      let! _ := count_turn in
      let! o := gets build_outcome_budget in
      let! _ := emit_loop_end (lit "budget_exhausted") in
      St.ret (Ok (Some (RunComplete o)))
  | Some ReturnCancelled =>
      let! o := gets build_outcome_cancelled in
      let! _ := emit_loop_end (lit "cancelled") in
      St.ret (Ok (Some (RunComplete o)))
  | None => St.ret (Err (AeLlmProvider (lit "loop decision was not set")))
  end.

(** What a turn does before the model is asked. *)
Definition open_turn : L () :=
  let! _ := modify (set_turn (fun t => new_turn (turn_number t))) in
  let! i := gets input in
  let! t := gets turn in
  let! _ := to_sink (OnTurnStart (agent_id_or_anonymous i) (turn_number t)) in
  drain_pending_user_messages.

Definition run_turn : L (result (option LoopRunResult) AgentError) :=
  let! _ := open_turn in
  let!? _ := compress_step policy Automatic in
  let!? _ := build_messages snap in
  let!? _ := pre_check_token_budget policy snap in
  let!? _ := llm_call_with_recovery policy snap in
  let!? suspended := run_tools policy snap in
  match suspended with
  | [] => let! _ := loop_decide in act_on_decision
  | _ => let! _ := emit_loop_end (lit "suspended") in St.ret (Ok (Some (RunSuspended suspended)))
  end.

(** The loop; [None] when the fuel is used up. *)
Fixpoint run_turns (fuel : nat) : L (option (result LoopRunResult AgentError)) :=
  match fuel with
  | O => St.ret None
  | S fuel =>
      let! r := run_turn in
      match r with
      | Err e => St.ret (Some (Err e))
      | Ok (Some r) => St.ret (Some (Ok r))
      | Ok None => run_turns fuel
      end
  end.

(** ** The run *)

(** The user's message, or the outcome of a denied command. *)
Definition accept_user_text : L (option LoopRunResult) :=
  let! i := gets input in
  let! _ := (match try_expand_skill_prefix (get_skill snap) (user_text i) with
             | Some expanded => set_user_text expanded
             | None => St.ret ()
             end) in
  let! i := gets input in
  let! session := gets (fun c => session_id (state c)) in
  let! deny := (match command_context i with
                | Some cmd =>
                    if runtime_view i then
                      let! ' (body, deny) :=
                        run_command_execute_before_hook session (agent_id i) cmd (user_text i) in
                      match deny with
                      | Some reason =>
                          St.ret (Some (lit "Command '" ++ cmd_command cmd
                                        ++ lit "' denied by plugin: " ++ reason))
                      | None => let! _ := set_user_text body in St.ret None
                      end
                    else St.ret None
                | None => St.ret None
                end) in
  match deny with
  | Some deny_text =>
      let! now := ask current_time_ms in
      let! _ := push_message (text_message Assistant deny_text now) in
      let! _ := to_sink (OnAssistantMessage (agent_id_or_anonymous i) deny_text) in
      let! ms := gets (fun c => messages (state c)) in
      St.ret (Some (RunComplete (OComplete deny_text ms 0 zero_usage 0)))
  | None =>
      let! i := gets input in
      let! now := ask current_time_ms in
      let! m := apply_chat_message_hook (runtime_view i) session (agent_id i)
                  (text_message User (user_text i) now) in
      let! _ := (match text_content m with Some t => set_user_text t | None => St.ret () end) in
      let! _ := push_message m in
      St.ret None
  end.

(** A message of the user opens a new account. *)
Definition accept_user_message : L (option LoopRunResult) :=
  let! _ := modify (set_state (with_usage zero_usage zero_usage)) in accept_user_text.

Definition start (s : LoopState) (i : AgentLoopInput) (w : World) : Ctx :=
  {| state := s; input := i; turn := new_turn 1; estimator := LoopEstimator.new; outer := w;
     log := [] |}.

Definition run_agent_loop (fuel : nat) : L (option (result LoopRunResult AgentError)) :=
  let! i := gets input in
  let! denied := (if append_user_message i then accept_user_message else St.ret None) in
  match denied with
  | Some r => St.ret (Some (Ok r))
  | None => run_turns fuel
  end.
End Loop.

(** ** A concrete run *)

Module Demo.
#[export] Existing Instance demo_json.
#[export] Existing Instance ascii_case.
#[export] Existing Instance demo_runtime.
#[export] Instance demo_parse : JsonParse := {| json_from_str _ := None |}.
#[export] Instance demo_hash : SignatureHash :=
  {| signature_hash a b _ := utf8_len a + 256 * utf8_len b |}.

Definition demo_usage : Usage :=
  {| prompt_tokens := 10; completion_tokens := 5; usage_total_tokens := 15; cached_tokens := 0;
     cache_write_tokens := 0 |}.
Definition demo_response (text : str) (calls : list ToolUseBlock) : LlmResponse :=
  {| resp_message := {| am_text := Some text; am_reasoning_content := None; tool_calls := calls;
                        usage := demo_usage; stop_reason := EndTurn |};
     kv_cache_chunk_hashes := [] |}.
Definition demo_calls : list ToolUseBlock :=
  [{| tu_call_id := lit "c1"; tu_tool_name := lit "bash"; tu_input := JNull |};
   {| tu_call_id := lit "c2"; tu_tool_name := lit "Bash"; tu_input := JNull |}].
(** The model calls tools while it is offered some. *)
Definition demo_answer (q : LlmRequest) (w : nat) : result LlmResponse Budget.LlmError :=
  if decide (req_tools q = []) then Ok (demo_response (lit "done") [])
  else Ok (demo_response (lit "let me look") demo_calls).

#[export] Instance demo_world : LoopWorld PassthroughCompressionPipeline := {|
  is_cancelled w := (false, w);
  drain_pending w := ([], w);
  open_todo_lines w := ([], w);
  prior_message_count w := (0, w);
  chat_invoke _ _ w := (Ok MessageAccept, w);
  provider_complete q w := (demo_answer q w, w);
  provider_stream q w := (([], Err Timeout), w);
  current_pipeline w := (Passthrough, w);
  save_output _ _ _ w := (None, w);
  poll_order n w := (reverse (seq 0 n), w);
|}.

Definition demo_policy : CompactionPolicy := from_budget (build_token_budget 128000 4096).
Definition demo_snapshot (streaming : bool) : RuntimeSnapshot :=
  {| system_prompt := lit "You are xiaoO."; feature_flags := demo_flags; max_turns := 2;
     token_budget_config := build_token_budget 128000 4096; get_executor := demo_executors;
     spec_count := 1; list_skills := []; get_skill := fun _ => None;
     non_streaming := negb streaming |}.
Definition demo_input : AgentLoopInput :=
  {| user_text := lit "hello"; append_user_message := true; event_sink := None;
     agent_id := Some (lit "main"); visible_tools := [demo_spec]; runtime_view := true;
     input_reasoning_effort := EffortDefault; stop_rules := []; pending_user_messages := false;
     command_context := None |}.
Definition demo_start : Ctx := start (new_loop_state (lit "s1")) demo_input 0%nat.
Definition demo_loop (streaming : bool) :=
  run_agent_loop demo_policy (demo_snapshot streaming) 2 demo_start.

End Demo.
