(* ===== verification/LoopFacts.v ===== *)
(** * Frame rules of the agent loop

    Most operations of a turn touch little of the context. A relation that is
    kept by the small set of primitive steps ([Frame]) is kept by every
    operation built from them; the few operations that rewrite the history, ask
    the provider or set the prompt ([TurnFrame]) are proved for each relation. *)

From S2P Require Import Prelude RStr F64 Message Budget Estimator Compaction Summary.
From S2P Require Import ContextManager HostPath LocalPolicy Launcher HookPoint ToolCall Prompt.
From S2P Require Import Stream ToolOutput LoopState LlmTurn ToolExec AgentLoop.

Create HintDb frame.

(** Decompose a run into its steps; what is left are the steps. *)
Ltac moves_step :=
  match goal with
  | |- moves _ (St.ret _) => apply moves_ret; apply _
  | |- moves _ (St.bind _ _) => apply moves_bind; [apply _| |intros ?]
  | |- moves _ (St.bind_ok _ _) => apply moves_bind_ok; [apply _| |intros ?]
  | |- moves _ (match ?x with _ => _ end) => destruct x
  | |- moves _ (if ?x then _ else _) => destruct x
  end.
Ltac moves_auto := repeat first [solve [eauto with frame] | moves_step]; eauto with frame.

Lemma st_bind_ok_inv {S A B E} (m : St.M S (result A E)) (k : A → St.M S (result B E)) s b s' :
  St.bind_ok m k s = (Ok b, s') → ∃ a s1, m s = (Ok a, s1) ∧ k a s1 = (Ok b, s').
Proof. unfold St.bind_ok. destruct (m s) as [[a|e] s1]; intros; simplify_eq. eauto. Qed.
(** Name the steps of a run. *)
Ltac st_inv H :=
  match type of H with
  | St.bind_ok _ _ _ = (Ok _, _) => apply st_bind_ok_inv in H as (? & ? & ? & H)
  | St.bind _ _ _ = _ => apply st_bind_inv in H as (? & ? & ? & H)
  end.

Section Frames.
Context `{JT : JsonText} `{JP : JsonParse} `{UC : UnicodeCase} `{SH : SignatureHash} `{RT : ToolRuntime}.
Context {P : Type} `{PP : !CompressionPipeline P} `{LW : !LoopWorld P}.
Context {B : Type} `{TB : !TokenBudgetPolicy B} (policy : B) (snap : RuntimeSnapshot).

(** Effects other than a question to the provider and a compression. *)
Definition quiet (e : LoopEffect) : bool :=
  match e with Asked _ _ | Compressed _ => false | _ => true end.

Definition set_estimator (e : LoopEstimator.t) (c : Ctx) : Ctx :=
  {| state := state c; input := input c; turn := turn c; estimator := e; outer := outer c;
     log := log c |}.

(** Steps that leave the history alone, and the push of a message. *)
Class Base (R : Ctx → Ctx → Prop) := {
  fr_pre :: PreOrder R;
  fr_ask A (f : World → A * World) : moves R (ask f);
  fr_emit es : Forall (fun e => quiet e = true) es → moves R (emit es);
  fr_estimator e : moves R (modify (set_estimator e));
  fr_streak k : moves R (modify (set_state (with_streak k)));
  fr_executed b : moves R (modify (set_state (with_tool_executed b)));
  fr_kv m : moves R (modify (set_state (with_kv m)));
  fr_nudged : moves R (modify (set_state (with_nudged true)));
  fr_assistant m : moves R (modify (set_turn (with_assistant (Some m))));
  fr_edit g : moves R (modify (set_turn (fun t => with_assistant (g <$> assistant_message t) t)));
  fr_result r : moves R (modify (set_turn (with_result r)));
  fr_force : moves R (modify (set_turn with_force_complete));
  fr_decision d : moves R (modify (set_turn (with_decision d)));
}.
Class Frame (R : Ctx → Ctx → Prop) := {
  fr_base :: Base R;
  fr_push m : moves R (push_message m);
}.

Section Based.
Context (R : Ctx → Ctx → Prop) `{F : !Base R}.
Hint Resolve fr_ask fr_streak fr_executed fr_kv fr_nudged fr_assistant fr_edit fr_result fr_force
  fr_decision : frame.

Lemma moves_gets {A} (f : Ctx → A) : moves R (gets f).
Proof. intros c a c' [= _ <-]. reflexivity. Qed.
Hint Resolve moves_gets : frame.

Lemma moves_sinks es : moves R (emit (Sink <$> es)).
Proof. apply fr_emit, Forall_fmap, Forall_forall. done. Qed.
Lemma moves_to_sink e : moves R (to_sink e).
Proof. unfold to_sink. moves_auto. exact (moves_sinks [e]). Qed.
Hint Resolve moves_sinks moves_to_sink : frame.

Lemma moves_lift_tool {A} (m : St.M ToolState A) : moves R (lift_tool m).
Proof.
  intros c a c'. unfold lift_tool. destruct (m _) as [x s] eqn:E. intros [= _ <-].
  transitivity (ask (fun w => ((), world s)) c).2.
  - eapply fr_ask. apply surjective_pairing.
  - eapply (fr_emit (ToolEffect <$> effects s)); [|reflexivity].
    apply Forall_fmap, Forall_forall. done.
Qed.
Hint Resolve moves_lift_tool : frame.

Lemma moves_chat_hooks {Acc} hs build_input apply (acc : Acc) :
  moves R (run_chat_hook_chain hs build_input apply acc).
Proof. revert acc. induction hs as [|h hs IH]; intros acc; cbn [run_chat_hook_chain]; moves_auto. Qed.
Hint Resolve moves_chat_hooks : frame.

Lemma moves_system_transform r : moves R (run_chat_system_transform_sequence r).
Proof. unfold run_chat_system_transform_sequence. moves_auto. Qed.
Lemma moves_message_hook view session id m : moves R (apply_chat_message_hook view session id m).
Proof. unfold apply_chat_message_hook, run_chat_message_hook. moves_auto. Qed.
Lemma moves_snippets : moves R (live_context_snippets snap).
Proof. unfold live_context_snippets. moves_auto. Qed.
Hint Resolve moves_system_transform moves_message_hook moves_snippets : frame.

Lemma moves_estimate : moves R (estimate_input snap).
Proof.
  intros c a c'. unfold estimate_input. destruct (LoopEstimator.estimate_input_tokens _ _ _ _) as [v e].
  intros [= _ <-]. by eapply (fr_estimator e).
Qed.
Hint Resolve moves_estimate : frame.

Lemma moves_tool_event id name v preview is_error :
  moves R (emit_tool_event id name v preview is_error).
Proof. unfold emit_tool_event. moves_auto. Qed.
Hint Resolve moves_tool_event : frame.
Lemma moves_tool_result_event r : moves R (emit_tool_result_event r).
Proof. unfold emit_tool_result_event. moves_auto. Qed.
Lemma moves_report_invalid tcs : moves R (report_invalid tcs).
Proof. induction tcs as [|tc tcs IH]; cbn [report_invalid]; moves_auto. Qed.
Hint Resolve moves_tool_result_event moves_report_invalid : frame.

Lemma moves_normalized : moves R normalized_tool_calls.
Proof. unfold normalized_tool_calls. moves_auto. Qed.
Hint Resolve moves_normalized : frame.

Lemma moves_execute_call call : moves R (execute_tool_call call).
Proof. unfold execute_tool_call. moves_auto. Qed.
Hint Resolve moves_execute_call : frame.
Lemma moves_execute_in_order calls order : moves R (execute_in_order calls order).
Proof. induction order as [|i order IH]; cbn [execute_in_order]; moves_auto. Qed.
Hint Resolve moves_execute_in_order : frame.
Lemma moves_batch calls serialize : moves R (execute_tool_batch calls serialize).
Proof. unfold execute_tool_batch. moves_auto. Qed.

Lemma moves_loop_end reason : moves R (emit_loop_end reason).
Proof. unfold emit_loop_end. moves_auto. Qed.
Lemma moves_cancelled st secrets : moves R (cancelled_call st secrets).
Proof. unfold cancelled_call. moves_auto. Qed.
Lemma moves_finish_shown st secrets r : moves R (finish_shown snap st secrets r).
Proof.
  unfold finish_shown. moves_auto. apply fr_emit. by destruct (diff_deleted _ _); repeat constructor.
Qed.
Hint Resolve moves_batch moves_loop_end moves_cancelled moves_finish_shown : frame.

End Based.
#[local] Hint Extern 0 (Base _) => apply _ : frame.
#[local] Hint Resolve fr_ask fr_streak fr_executed fr_kv fr_nudged fr_assistant fr_edit fr_result
  fr_force fr_decision moves_gets moves_sinks moves_to_sink moves_lift_tool moves_chat_hooks
  moves_system_transform moves_message_hook moves_snippets moves_estimate moves_tool_event
  moves_tool_result_event moves_report_invalid moves_normalized moves_execute_call
  moves_execute_in_order moves_batch moves_loop_end moves_cancelled moves_finish_shown : frame.

Section Framed.
Context (R : Ctx → Ctx → Prop) `{F : !Frame R}.
Hint Resolve fr_push : frame.

Lemma moves_append_assistant : moves R append_assistant_to_history.
Proof. unfold append_assistant_to_history. moves_auto. Qed.
Hint Resolve moves_append_assistant : frame.
Lemma moves_accept valid invalid : moves R (accept_calls valid invalid).
Proof. unfold accept_calls. moves_auto. Qed.
Hint Resolve moves_accept : frame.
Lemma moves_push_result r : moves R (build_and_push_result r).
Proof. unfold build_and_push_result. moves_auto. Qed.
Hint Resolve moves_push_result : frame.
Lemma moves_record_loop rs note suspended stop : moves R (record_loop rs note suspended stop).
Proof.
  revert note suspended stop. induction rs as [|r rs IH]; intros; cbn [record_loop]; moves_auto.
Qed.
Hint Resolve moves_record_loop : frame.
Lemma moves_record rs : moves R (record_tool_results rs).
Proof. unfold record_tool_results. moves_auto. Qed.

Lemma moves_push_pending pending : moves R (push_pending pending).
Proof. induction pending as [|m pending IH]; cbn [push_pending]; unfold push_hooked; moves_auto. Qed.
Hint Resolve moves_record moves_push_pending : frame.
Lemma moves_drain : moves R drain_pending_user_messages.
Proof. unfold drain_pending_user_messages. moves_auto. Qed.
Lemma moves_decide_turn : moves R (decide_turn snap).
Proof. unfold decide_turn. moves_auto. Qed.
Hint Resolve moves_decide_turn : frame.
Lemma moves_loop_decide : moves R (loop_decide snap).
Proof. unfold loop_decide. moves_auto. Qed.
Hint Resolve moves_drain moves_loop_decide : frame.

(** A question to the provider and the account of its answer are one step. *)
Lemma moves_call_provider built :
  let q := pr_request built in
  (∀ e, moves R (emit [Asked q (Err e)])) →
  (∀ st secrets r, moves R (let! _ := emit [Asked q (Ok r)] in
     let! _ := finish_call snap st secrets r in St.ret (Ok () : result () LlmFault))) →
  moves R (call_provider snap built).
Proof.
  intros q Herr Hok.
  assert (∀ a st secrets, moves R (let! _ := emit [Asked q a] in
    match a with
    | Ok r => let! _ := finish_call snap st secrets r in St.ret (Ok ())
    | Err Cancelled => let! _ := cancelled_call st secrets in St.ret (Ok ())
    | Err e => St.ret (Err (FaultLlm e))
    end)) by (intros [r|[]] st secrets; moves_auto).
  assert (∀ a st secrets, moves R (let! _ := emit [Asked q a] in
    match a with
    | Ok r => let! _ := finish_call snap st secrets r in St.ret (Ok ())
    | Err e => St.ret (Err (FaultLlm e))
    end)) by (intros [r|e] st secrets; moves_auto).
  unfold call_provider. moves_auto.
Qed.
Lemma moves_llm_call :
  (∀ built, moves R (call_provider snap built)) → moves R (llm_call snap).
Proof. intros H. unfold llm_call. moves_auto. Qed.

(** What is left to prove of a relation, and the phases that follow. *)
Class TurnFrame := {
  tf_compress t : moves R (compress_step policy t);
  tf_build : moves R (build_messages snap);
  tf_llm : moves R (llm_call snap);
}.
Context `{TF : !TurnFrame}.
Hint Resolve tf_compress tf_build tf_llm : frame.

Lemma moves_recovery : moves R (llm_call_with_recovery policy snap).
Proof. unfold llm_call_with_recovery. moves_auto. Qed.
Lemma moves_pre_check : moves R (pre_check_token_budget policy snap).
Proof. unfold pre_check_token_budget. moves_auto. Qed.
Hint Resolve moves_recovery moves_pre_check : frame.

Lemma moves_process :
  (∀ tc, moves R (retry_invalid policy snap tc)) → moves R (process_llm_tool_calls policy snap).
Proof. intros H. unfold process_llm_tool_calls. moves_auto. Qed.
Lemma moves_run_tools :
  (∀ tc, moves R (retry_invalid policy snap tc)) → moves R (run_tools policy snap).
Proof. intros H%moves_process. unfold run_tools. moves_auto. Qed.

(** A turn up to the tools. *)
Definition ask_model : St.M Ctx (result () AgentError) :=
  let!? _ := compress_step policy Automatic in
  let!? _ := build_messages snap in
  let!? _ := pre_check_token_budget policy snap in
  llm_call_with_recovery policy snap.
Lemma moves_ask_model : moves R ask_model.
Proof. unfold ask_model. moves_auto. Qed.
End Framed.

Definition end_turn (suspended : list SuspendedToolCall) :
    St.M Ctx (result (option LoopRunResult) AgentError) :=
  match suspended with
  | [] => let! _ := loop_decide snap in act_on_decision
  | _ => let! _ := emit_loop_end (lit "suspended") in St.ret (Ok (Some (RunSuspended suspended)))
  end.
Lemma run_turn_phases c :
  run_turn policy snap c =
  (let! _ := open_turn in let!? _ := ask_model in
   let!? suspended := run_tools policy snap in end_turn suspended) c.
Proof.
  unfold run_turn, ask_model, St.bind, St.bind_ok. destruct (open_turn c) as [[] c1].
  destruct (compress_step policy Automatic c1) as [[[]|] c2]; [|done].
  destruct (build_messages snap c2) as [[[]|] c3]; [|done].
  by destruct (pre_check_token_budget policy snap c3) as [[[]|] c4].
Qed.
End Frames.

#[export] Hint Extern 0 (Base _) => apply _ : frame.
#[export] Hint Extern 0 (Frame _) => apply _ : frame.
#[export] Hint Extern 0 (TurnFrame _ _ _) => apply _ : frame.
#[export] Hint Resolve fr_ask fr_push fr_streak fr_executed fr_kv fr_nudged fr_assistant fr_edit
  fr_result fr_force fr_decision moves_gets moves_sinks moves_to_sink moves_lift_tool
  moves_chat_hooks moves_system_transform moves_message_hook moves_snippets moves_append_assistant
  moves_estimate moves_tool_event moves_tool_result_event moves_report_invalid moves_normalized
  moves_accept moves_execute_call moves_execute_in_order moves_batch moves_push_result
  moves_record_loop moves_record moves_push_pending moves_drain moves_loop_decide moves_loop_end
  moves_cancelled moves_finish_shown tf_compress tf_build tf_llm moves_recovery moves_pre_check
  moves_run_tools moves_ask_model : frame.
