(* ===== verification/Redaction.v ===== *)
(** * What the display sees of the secrets

    crates/core/src/agent_loop.rs: a question of the loop with the redaction of
    secrets switched on. The text and the reasoning that reach the sink while the
    answer streams, when it is flushed and when it is cancelled. *)

From S2P Require Import Prelude RStr F64 Message Budget Estimator Compaction ContextManager Lifecycle.
From S2P Require Import HookPoint ToolCall Prompt Stream ToolOutput LoopState LlmTurn AgentLoop LoopFacts.

Local Open Scope Z_scope.

(** The text an event puts on the display. *)
Definition assistant_text (e : SinkEvent) : option str :=
  match e with
  | OnAssistantMessage _ t | OnAssistantReasoning _ t
  | OnAssistantMessageDelta _ t | OnAssistantReasoningDelta _ t => Some t
  | _ => None
  end.

(** What a channel has received since the last reset. *)
Definition since_reset (delta : StreamChunk → option str) (chunks : list StreamChunk) : str :=
  foldl (fun acc ch => if chunk_reset ch then [] else acc ++ default [] (delta ch)) [] chunks.

Lemma since_reset_snoc delta chunks ch :
  since_reset delta (chunks ++ [ch])
  = if chunk_reset ch then [] else since_reset delta chunks ++ default [] (delta ch).
Proof. unfold since_reset. by rewrite foldl_app. Qed.

Section Redaction.
Context `{JT : JsonText} `{JP : JsonParse} `{UC : UnicodeCase} `{SH : SignatureHash} `{RT : ToolRuntime}.
Context {Pl : Type} `{PP : !CompressionPipeline Pl} `{LW : !LoopWorld Pl} (snap : RuntimeSnapshot).

(** What the provider said: a delta, all of a channel at some moment, or a part
    of its answer. *)
Inductive said (chunks : list StreamChunk) (answer : result LlmResponse Budget.LlmError) : str → Prop :=
| SaidDelta ch x : ch ∈ chunks → delta_text ch = Some x ∨ delta_reasoning ch = Some x → said chunks answer x
| SaidText k : said chunks answer (since_reset delta_text (take k chunks))
| SaidReasoning k : said chunks answer (since_reset delta_reasoning (take k chunks))
| SaidAnswer r x : answer = Ok r →
    am_text (resp_message r) = Some x ∨ am_reasoning_content (resp_message r) = Some x → said chunks answer x.

Lemma take_snoc {A} k (l : list A) x : take k l = take (k `min` length l) (l ++ [x]).
Proof. rewrite take_app_le by lia. by rewrite <-take_take, firstn_all. Qed.
Lemma said_snoc chunks ch answer x : said chunks answer x → said (chunks ++ [ch]) answer x.
Proof.
  intros H. destruct H as [c x Hc Hx|k|k|r x Hr Hx].
  - eapply SaidDelta; [|done]. set_solver.
  - rewrite (take_snoc k chunks ch). apply SaidText.
  - rewrite (take_snoc k chunks ch). apply SaidReasoning.
  - by eapply SaidAnswer.
Qed.
Lemma said_all chunks answer :
  said chunks answer (since_reset delta_text chunks) ∧ said chunks answer (since_reset delta_reasoning chunks).
Proof.
  pose proof (SaidText chunks answer (length chunks)). pose proof (SaidReasoning chunks answer (length chunks)).
  by rewrite firstn_all in *.
Qed.

(** ** The events of a stream *)

Section Events.
Context (agent : str) (secrets : list str) (Hplain : Forall plain_secret secrets).

(** [t] hides the secrets of something said, and is it when it has none. *)
Definition hides (Q : str → Prop) (t : str) : Prop :=
  (∀ s, s ∈ secrets → ¬ occurs s t) ∧ ∃ x, Q x ∧ ((∀ s, s ∈ secrets → ¬ occurs s x) → t = x).

Definition hidden (P : str → Prop) (ev : list SinkEvent) : Prop :=
  ∀ t, t ∈ omap assistant_text ev → hides P t.

Lemma hidden_app P ev1 ev2 : hidden P ev1 → hidden P ev2 → hidden P (ev1 ++ ev2).
Proof. intros H1 H2 t. rewrite omap_app. intros [?|?]%elem_of_app; auto. Qed.
Lemma hidden_mono (P Q : str → Prop) ev : (∀ x, P x → Q x) → hidden P ev → hidden Q ev.
Proof. intros HPQ H t Ht. destruct (H t Ht) as (H1 & x & Hx & H2). split; [done|]. eauto. Qed.
Lemma filter_hidden P x : P x → hides P (filter_secrets_in_text x secrets).
Proof using Hplain. intros Hx. destruct (filter_hides x secrets Hplain). split; [done|]. eauto. Qed.

Lemma push_opt_hidden P sink snapshot delta_event now c d c' ev :
  (∀ t, assistant_text (snapshot t) = Some t) → (∀ t, assistant_text (delta_event t) = Some t) →
  (∀ x, d = Some x → P x) → P (buffer c ++ default [] d) →
  push_opt secrets sink snapshot delta_event now c d = (c', ev) →
  hidden P ev ∧ buffer c' = buffer c ++ default [] d.
Proof using Hplain.
  intros Hs Hd Hx Hb. destruct d as [d|]; cbn [push_opt default]; [|intros [= <- <-]; rewrite app_nil_r].
  2: { split; [|done]. by intros t ?%elem_of_nil. }
  unfold push_delta. destruct sink as [sk|]; [|intros [= <- <-]; split; [|done]; by intros t ?%elem_of_nil].
  destruct (supports_message_delta sk && _) eqn:Em.
  - intros [= <- <-]. split; [|done]. intros t. cbn. rewrite Hd. intros ->%list_elem_of_singleton. 
    apply andb_prop in Em as [_ Em%bool_decide_eq_true].
    split; [rewrite Em; by intros s ?%elem_of_nil|]. exists d. auto.
  - destruct (should_emit _ _ _) as [[] e]; intros [= <- <-]; split; try done; intros t; [|by intros ?%elem_of_nil].
    cbn. rewrite Hs. intros ->%list_elem_of_singleton. by apply filter_hidden.
Qed.

(** The buffers hold what was said since the last reset. *)
Definition gathered (st : AssistantStreamState) (chunks : list StreamChunk) : Prop :=
  buffer (text_channel st) = since_reset delta_text chunks ∧
  buffer (reasoning_channel st) = since_reset delta_reasoning chunks.

Lemma chunk_hidden answer sink now st before ch st' ev :
  gathered st before → stream_assistant_chunk agent secrets sink now st ch = (st', ev) →
  gathered st' (before ++ [ch]) ∧ hidden (said (before ++ [ch]) answer) ev.
Proof using Hplain.
  intros [Ht Hr]. destruct (said_all (before ++ [ch]) answer) as [St Sr]. unfold gathered.
  unfold stream_assistant_chunk. rewrite !since_reset_snoc in *. destruct (chunk_reset ch).
  { intros [= <- <-]. split; [done|]. destruct sink; [|by intros t ?%elem_of_nil].
    intros t Hin. assert (t = []) as -> by (cbn in Hin; set_solver).
    rewrite <-(filter_nil secrets). by apply filter_hidden. }
  destruct (push_opt _ _ _ _ _ (reasoning_channel st) _) as [r ev1] eqn:E1.
  destruct (push_opt _ _ _ _ _ (text_channel st) _) as [t ev2] eqn:E2. intros [= <- <-].
  eapply (push_opt_hidden (said (before ++ [ch]) answer)) in E1 as [H1 B1], E2 as [H2 B2];
    rewrite ?Ht, ?Hr; try done; try (intros x Hx; eapply SaidDelta; [|eauto]; set_solver).
  cbn. rewrite B1, B2, Ht, Hr. split; [done|]. by apply hidden_app.
Qed.

Lemma stream_hidden answer sink chunks st before st' ev :
  gathered st before → stream_chunks agent secrets sink st chunks = (st', ev) →
  gathered st' (before ++ chunks.*2) ∧ hidden (said (before ++ chunks.*2) answer) ev.
Proof using Hplain.
  revert st before ev. induction chunks as [|[now ch] chunks IH]; intros st before ev Hg; cbn [stream_chunks].
  { intros [= <- <-]. cbn. rewrite app_nil_r. split; [done|]. by intros t ?%elem_of_nil. }
  destruct (stream_assistant_chunk _ _ _ _ st ch) as [st1 ev1] eqn:E1.
  destruct (stream_chunks _ _ _ st1 chunks) as [st2 ev2] eqn:E2. intros [= <- <-].
  destruct (chunk_hidden answer _ _ _ _ _ _ _ Hg E1) as [G1 H1].
  destruct (IH _ _ _ G1 E2) as [G2 H2]. rewrite <-(assoc_L (++)) in G2, H2. cbn [fmap list_fmap snd app] in *.
  split; [done|]. apply hidden_app; [|done]. eapply hidden_mono; [|exact H1].
  clear -chunks. intros x. change (ch :: chunks.*2) with ([ch] ++ chunks.*2). rewrite (assoc_L (++)).
  generalize (before ++ [ch]). induction chunks as [|c l IH] using rev_ind; intros b Hx; [by rewrite app_nil_r|].
  rewrite fmap_app, (assoc_L (++)). by apply said_snoc, IH.
Qed.

Lemma flush_hidden P sink st text reasoning :
  (∀ x, text = Some x → P x) → (∀ x, reasoning = Some x → P x) →
  hidden P (flush_stream agent secrets sink st text reasoning).
Proof using Hplain.
  intros Ht Hr. unfold flush_stream. destruct sink; [|by intros t ?%elem_of_nil].
  apply hidden_app; unfold flush_channel; repeat case_match; try (by intros t ?%elem_of_nil);
    intros t ->%list_elem_of_singleton; apply filter_hidden; auto.
Qed.
End Events.

(** ** A question *)

(** The chunks and the answer of the provider. *)
Definition exchange (q : LlmRequest) (w : World) : list (Z * StreamChunk) * result LlmResponse Budget.LlmError :=
  if non_streaming snap then ([], (provider_complete q w).1) else (provider_stream q w).1.

Definition sink_event (e : LoopEffect) : option SinkEvent :=
  match e with Sink e => Some e | _ => None end.

Lemma sink_events (ev : list SinkEvent) : omap sink_event (Sink <$> ev) = ev.
Proof. induction ev as [|e ev IH]; [done|]. cbn. by rewrite IH. Qed.

Section Question.
Context (secrets : list str) (Hplain : Forall plain_secret secrets).

(** The log grows by effects whose texts are hidden. *)
Definition veiled (Q : str → Prop) (c c' : Ctx) : Prop :=
  ∃ l, log c' = log c ++ l ∧ hidden secrets Q (omap sink_event l).

Lemma veiled_trans Q c1 c2 c3 : veiled Q c1 c2 → veiled Q c2 c3 → veiled Q c1 c3.
Proof.
  intros (l1 & E1 & H1) (l2 & E2 & H2). exists (l1 ++ l2). rewrite E2, E1, omap_app, app_assoc.
  split; [done|]. by apply hidden_app.
Qed.
Lemma veiled_quiet Q c c' : log c' = log c → veiled Q c c'.
Proof. intros E. exists []. rewrite E, app_nil_r. split; [done|]. by intros t ?%elem_of_nil. Qed.
Lemma veiled_emit Q l c : hidden secrets Q (omap sink_event l) → veiled Q c (emit l c).2.
Proof. intros H. by exists l. Qed.

Lemma finish_veiled Q st response c :
  (∀ x, am_text (resp_message response) = Some x → Q x) →
  (∀ x, am_reasoning_content (resp_message response) = Some x → Q x) →
  veiled Q c (finish_call snap st secrets response c).2.
Proof using Hplain.
  intros Ht Hr. unfold finish_call, finish_shown, St.bind, gets, modify, emit. cbn [input set_state].
  set (ev := flush_stream _ _ _ _ _ _). assert (hidden secrets Q ev) as Hev by by apply flush_hidden.
  destruct (kvcache_enabled _).
  - destruct (diff_deleted _ _) as [|d ds]; [exists (Sink <$> ev)|exists ((Sink <$> ev) ++ [Evict (d :: ds)])];
      cbn; rewrite ?app_nil_r, <-?(assoc_L (++)), ?omap_app, sink_events; cbn; rewrite ?app_nil_r; done.
  - exists (Sink <$> ev). by rewrite sink_events.
Qed.

Lemma cancelled_veiled Q st c :
  Q (buffer (text_channel st)) → Q (buffer (reasoning_channel st)) →
  veiled Q c (cancelled_call st secrets c).2.
Proof using Hplain.
  intros Ht Hr. unfold cancelled_call, St.bind, gets, modify, emit.
  assert (∀ i, veiled Q c (emit (Sink <$> flush_stream (agent_id_or_anonymous i) secrets (event_sink i) st
    (nonempty (buffer (text_channel st))) (nonempty (buffer (reasoning_channel st)))) c).2) as Hv.
  { intros i. apply veiled_emit. rewrite sink_events.
    apply flush_hidden; [done|..]; intros x; unfold nonempty; case_match; congruence. }
  destruct (buffer (text_channel st)) eqn:E1, (buffer (reasoning_channel st)) eqn:E2;
    [by apply veiled_quiet|apply Hv..].
Qed.
End Question.

Lemma call_veiled built c r c' chunks answer :
  redact_secrets_display (feature_flags snap) = true →
  let secrets := extract_secrets_from_messages (messages (state c)) in
  Forall plain_secret secrets →
  exchange (pr_request built) (outer c) = (chunks, answer) → call_provider snap built c = (r, c') →
  veiled secrets (said chunks.*2 answer) c c'.
Proof.
  intros Hflag secrets Hplain. unfold call_provider, exchange. rewrite Hflag.
  unfold St.bind at 1 2, gets. fold secrets. destruct (non_streaming snap).
  - unfold ask, St.bind at 1. destruct (provider_complete _ _) as [a w]. cbn [fst]. intros [= <- <-].
    set (c1 := Build_Ctx _ _ _ _ w _). unfold St.bind at 1.
    assert (veiled secrets (said [] a) c (emit [Asked (pr_request built) a] c1).2) as H1 by (exists [Asked (pr_request built) a]; split; [done|]; by intros t ?%elem_of_nil).
    destruct (emit _ c1) as [[] c2]. cbn [snd] in H1.
    destruct a as [resp|e]; [|by intros [= _ <-]]. unfold St.bind.
    pose proof (finish_veiled secrets Hplain (said [] (Ok resp)) default_stream resp c2) as H2.
    destruct (finish_call _ _ _ _ c2) as [[] c3]. intros [= _ <-]. eapply veiled_trans; [done|].
    apply H2; intros x Hx; by eapply SaidAnswer; eauto.
  - unfold ask, St.bind at 1. destruct (provider_stream _ _) as [[ch a] w]. cbn [fst]. intros [= <- <-].
    set (c1 := Build_Ctx _ _ _ _ w _).
    destruct (stream_chunks _ _ _ _ _) as [st ev] eqn:Es.
    destruct (stream_hidden _ secrets Hplain a _ _ default_stream [] _ _ (conj eq_refl eq_refl) Es) as [[G1 G2] Hev]. cbn [app] in *.
    unfold St.bind at 1 2.
    assert (veiled secrets (said ch.*2 a) c (emit [Asked (pr_request built) a] (emit (Sink <$> ev) c1).2).2) as H1.
    { exists ((Sink <$> ev) ++ [Asked (pr_request built) a]). cbn. rewrite <-(assoc_L (++)), omap_app, sink_events. cbn.
      by rewrite app_nil_r. }
    destruct (emit _ c1) as [[] c2]. cbn [snd] in H1. destruct (emit _ c2) as [[] c3]. cbn [snd] in H1.
    destruct (said_all ch.*2 a) as [St Sr].
    pose proof (cancelled_veiled secrets Hplain (said ch.*2 a) st c3) as H2. rewrite G1, G2 in H2.
    destruct a as [resp|e].
    + unfold St.bind. pose proof (finish_veiled secrets Hplain (said ch.*2 (Ok resp)) st resp c3) as H3.
      destruct (finish_call _ _ _ _ c3) as [[] c4]. intros [= _ <-]. eapply veiled_trans; [done|].
      apply H3; intros x Hx; by eapply SaidAnswer; eauto.
    + destruct e; try (by intros [= _ <-]). unfold St.bind.
      destruct (cancelled_call _ _ c3) as [[] c4]. intros [= _ <-]. eapply veiled_trans; [done|]. by apply H2.
Qed.

(** C37: with the redaction of secrets switched on, nothing of an answer that
    reaches the sink contains a secret of the history: no text and no
    reasoning, while it streams, when it is flushed and when it is cancelled,
    for a sink that takes deltas and for one that takes snapshots. What is
    shown is what the provider said, untouched when no secret occurs in it.
    The secrets are taken to share no character with the marker that replaces
    them. The previews of tool output, and everything when the switch is off,
    are not redacted by the code. *)
Theorem answer_redacted built c r c' :
  redact_secrets_display (feature_flags snap) = true →
  Forall plain_secret (extract_secrets_from_messages (messages (state c))) →
  call_provider snap built c = (r, c') →
  let '(chunks, answer) := exchange (pr_request built) (outer c) in
  ∃ l, log c' = log c ++ l ∧
    ∀ t, t ∈ omap assistant_text (omap sink_event l) →
      (∀ s, s ∈ extract_secrets_from_messages (messages (state c)) → ¬ occurs s t) ∧
      ∃ x, said chunks.*2 answer x ∧
        ((∀ s, s ∈ extract_secrets_from_messages (messages (state c)) → ¬ occurs s x) → t = x).
Proof.
  intros Hflag Hplain E. destruct (exchange _ _) as [chunks answer] eqn:Ex.
  exact (call_veiled built c r c' chunks answer Hflag Hplain Ex E).
Qed.
End Redaction.

(** ** A cancelled stream that names a password *)

Module RedactionDemo.
Import Demo.

(** The result of [ask_user_question] with a password in it. *)
Definition asked : Json :=
  JObject [(lit "answers", JArray [JObject [(lit "kind", JString (lit "text"));
    (lit "value", JString (lit "hunter2")); (lit "display_value", JString (lit "*******"))]])].
Definition reads_answer : JsonParse := {| json_from_str _ := Some asked |}.
Definition streams : LoopWorld PassthroughCompressionPipeline := {|
  is_cancelled w := (false, w);
  drain_pending w := ([], w);
  open_todo_lines w := ([], w);
  prior_message_count w := (0, w);
  chat_invoke _ _ w := (Ok MessageAccept, w);
  provider_complete q w := (demo_answer q w, w);
  provider_stream q w := ((demo_chunks, Err Cancelled), w);
  current_pipeline w := (Passthrough, w);
  save_output _ _ _ w := (None, w);
  poll_order n w := (reverse (seq 0 n), w);
|}.
Definition told : ChatMessage :=
  new_message Tool [ToolResult (lit "c1") (lit "ask_user_question") (lit "{...}") false] None 0 None.
Definition watched : AgentLoopInput :=
  {| user_text := lit "hello"; append_user_message := true;
     event_sink := Some {| supports_message_delta := true |};
     agent_id := Some (lit "main"); visible_tools := [demo_spec]; runtime_view := true;
     input_reasoning_effort := EffortDefault; stop_rules := []; pending_user_messages := false;
     command_context := None |}.
Definition context : Ctx :=
  start (with_messages (fun _ => [told]) (new_loop_state (lit "s1"))) watched 0%nat.
Definition question : PromptBuildResult :=
  {| pr_request := new_request [told]; pr_estimated_input_tokens := 0; pr_system_parts := [] |}.
Definition shown : list str :=
  omap assistant_text (omap sink_event
    (log (call_provider (JP := reads_answer) (LW := streams) (demo_snapshot true) question context).2)).
End RedactionDemo.

Lemma answer_redacted_witness :
  RedactionDemo.shown = [[]; []; lit "it is <SECRET>"; lit "hm"] ∧
  ∀ t, t ∈ RedactionDemo.shown → ¬ occurs (lit "hunter2") t.
Proof.
  split; [vm_compute; reflexivity|]. intros t Ht.
  destruct (call_provider (JP := RedactionDemo.reads_answer) (LW := RedactionDemo.streams)
    (Demo.demo_snapshot true) RedactionDemo.question RedactionDemo.context) as [r c'] eqn:E.
  destruct (answer_redacted (JP := RedactionDemo.reads_answer) (LW := RedactionDemo.streams)
    (Demo.demo_snapshot true) RedactionDemo.question RedactionDemo.context r c') as (l & El & Hl).
  - reflexivity.
  - assert (Es : extract_secrets_from_messages (H0 := RedactionDemo.reads_answer)
      (messages (state RedactionDemo.context)) = [lit "hunter2"]) by (vm_compute; reflexivity).
    rewrite Es. constructor; [|constructor]. split; [discriminate|]. intros c Hc.
    revert c Hc. apply Forall_forall. apply (bool_decide_unpack _). vm_compute. exact I.
  - exact E.
  - unfold RedactionDemo.shown in Ht. rewrite E in Ht. cbn [snd] in Ht. rewrite El in Ht.
    apply (Hl t Ht). vm_compute. left.
Defined.
