(* ===== verification/LoopRun.v ===== *)
(** * Runs of the agent loop

    What holds of every run: the token account, the history between
    compressions, the number of turns and of questions to the provider, the
    tools of the last turn, and the errors that cannot occur. *)

From S2P Require Import Prelude RStr F64 Message Budget Estimator Compaction Summary.
From S2P Require Import ContextManager HostPath LocalPolicy Launcher HookPoint ToolCall Prompt.
From S2P Require Import Stream ToolOutput LoopState LlmTurn ToolExec AgentLoop LoopFacts.

Section Runs.
Context `{JT : JsonText} `{JP : JsonParse} `{UC : UnicodeCase} `{SH : SignatureHash} `{RT : ToolRuntime}.
Context {P : Type} `{PP : !CompressionPipeline P} `{LW : !LoopWorld P}.
Context {B : Type} `{TB : !TokenBudgetPolicy B} (policy : B) (snap : RuntimeSnapshot).

(** ** The account and the history *)

Definition answer_usage (e : LoopEffect) : option TokenUsage :=
  match e with Asked _ (Ok r) => Some (usage_of_response (usage (resp_message r))) | _ => None end.
Definition compression (e : LoopEffect) : bool :=
  match e with Compressed _ => true | _ => false end.
Definition uncompressed (l : list LoopEffect) : Prop := Forall (fun e => compression e = false) l.

Record evolves_by (c c' : Ctx) (l : list LoopEffect) : Prop := {
  ev_log : log c' = log c ++ l;
  ev_input : with_user_text (input c') [] = with_user_text (input c) [];
  ev_session : session_id (state c') = session_id (state c);
  ev_usage : token_usage (state c') = foldl add_assign (token_usage (state c)) (omap answer_usage l);
  ev_history : uncompressed l → messages (state c) `prefix_of` messages (state c');
  ev_nudged : plan_nudged (state c) = true → plan_nudged (state c') = true;
}.
Definition evolves (c c' : Ctx) : Prop := ∃ l, evolves_by c c' l.

#[local] Instance evolves_pre : PreOrder evolves.
Proof.
  split.
  - intros c. exists []. by split; rewrite ?app_nil_r.
  - intros c1 c2 c3 (l & [E1 I1 S1 U1 H1 N1]) (l' & [E2 I2 S2 U2 H2 N2]). exists (l ++ l'). split.
    + by rewrite E2, E1, app_assoc.
    + congruence.
    + congruence.
    + by rewrite U2, U1, omap_app, foldl_app.
    + intros [??]%Forall_app. transitivity (messages (state c2)); auto.
    + auto.
Qed.

Lemma quiet_evolves es :
  Forall (fun e => quiet e = true) es → omap answer_usage es = [] ∧ uncompressed es.
Proof.
  induction 1 as [|e es He _ [IH1 IH2]]; [by split; [|constructor]|].
  destruct e; try done; (split; [exact IH1|by constructor]).
Qed.

(** A step that leaves the account and the log alone. *)
Lemma moves_evolves f :
  (∀ c, log (f c) = log c ∧ with_user_text (input (f c)) [] = with_user_text (input c) [] ∧
        session_id (state (f c)) = session_id (state c) ∧
        token_usage (state (f c)) = token_usage (state c) ∧
        messages (state c) `prefix_of` messages (state (f c)) ∧
        (plan_nudged (state c) = true → plan_nudged (state (f c)) = true)) →
  moves evolves (modify f).
Proof.
  intros H c a c' [= _ <-]. destruct (H c) as (El & Ei & Es & Eu & Hm & Hn). exists [].
  split; [by rewrite app_nil_r| | |..]; auto.
Qed.

#[local] Instance evolves_frame : Frame evolves.
Proof.
  split; [split; [apply _|..]|]; try by intros; apply moves_evolves; intros c; cbn; split_and!; auto using prefix_app_r.
  - intros A f c a c'. unfold ask. destruct (f (outer c)). intros [= _ <-]. exists [].
    by split; rewrite ?app_nil_r.
  - intros es [Hu Hc]%quiet_evolves c a c' [= _ <-]. exists es. by split; cbn; rewrite ?Hu.
Qed.

Lemma evolves_asked_err q e : moves evolves (emit [Asked q (Err e)]).
Proof. intros c a c' [= _ <-]. exists [Asked q (Err e)]. by split. Qed.
Lemma evolves_asked_ok {A} q st secrets r (a : A) :
  moves evolves (let! _ := emit [Asked q (Ok r)] in
    let! _ := finish_call snap st secrets r in St.ret a).
Proof.
  intros c b c' E. transitivity (set_state (fun s => let u := usage_of_response (usage (resp_message r)) in
    with_usage (add_assign (token_usage s) u) u s) (emit [Asked q (Ok r)] c).2).
  - exists [Asked q (Ok r)]. by split.
  - assert (moves evolves (let! _ := finish_shown snap st secrets r in St.ret a)) as H.
    { moves_auto. }
    exact (H _ _ _ E).
Qed.

#[local] Instance evolves_turn_frame : TurnFrame policy snap evolves.
Proof.
  split.
  - intros t c a c'. unfold compress_step. intros (ms & c1 & [= <- <-] & E)%st_bind_inv.
    apply st_bind_inv in E as (meta & c2 & [= <- <-] & E).
    apply st_bind_inv in E as (p & c1 & Ep & E). apply (fr_ask (R := evolves)) in Ep.
    etransitivity; [exact Ep|]. clear Ep.
    repeat case_match; try (injection E as _ <-; reflexivity).
    injection E as _ <-. eexists [Compressed _]. split; try done. by inversion 1.
  - unfold build_messages. moves_auto.
    by apply moves_evolves.
  - apply moves_llm_call; [apply _|]. intros built. apply moves_call_provider; [apply _|..].
    + intros. apply evolves_asked_err.
    + intros. apply evolves_asked_ok.
Qed.

Lemma evolves_retry tc : moves evolves (retry_invalid policy snap tc).
Proof.
  assert (moves evolves (let! built := build_messages snap in
            match built with
            | Err e => St.ret (Err (retry_prompt_error e))
            | Ok _ => llm_call_with_recovery policy snap
            end)) as Hm.
  { moves_auto. }
  intros c a c'. unfold retry_invalid.
  intros (now & c1 & Enow & E)%st_bind_inv. apply (fr_ask (R := evolves)) in Enow.
  etransitivity; [exact Enow|]. clear Enow.
  apply st_bind_inv in E as ([] & c2 & [= <-] & E).
  apply st_bind_inv in E as (r & c3 & Er & E). apply st_bind_inv in E as ([] & c4 & [= <-] & E).
  injection E as _ <-. apply Hm in Er as (l & [El Ei Es Eu Hh Hn]).
  exists l. split; try done. intros Hl. destruct (Hh Hl) as [k Ek]. cbn in Ek |- *. rewrite Ek.
  exists (take (length k) ([build_invalid_tool_call_result tc now] ++ k)).
  rewrite <-(app_assoc (messages _)), take_app_ge by (rewrite !length_app; cbn; lia).
  f_equal. f_equal. rewrite !length_app. cbn. lia.
Qed.

Lemma evolves_run_turn : moves evolves (run_turn policy snap).
Proof.
  pose proof evolves_retry. unfold run_turn, open_turn, act_on_decision, count_turn. moves_auto.
  all: by apply moves_evolves.
Qed.
Lemma evolves_run_turns fuel : moves evolves (run_turns policy snap fuel).
Proof.
  induction fuel as [|fuel IH]; cbn [run_turns]; pose proof evolves_run_turn; moves_auto.
Qed.

(** ** Turns and questions *)

Definition same_turn (c c' : Ctx) : Prop := turn_number (turn c') = turn_number (turn c).
#[local] Instance same_turn_pre : PreOrder same_turn.
Proof. split; [by intros c|]. intros c1 c2 c3. unfold same_turn. congruence. Qed.
#[local] Instance same_turn_frame : Frame same_turn.
Proof.
  split; [split; [apply _|..]|]; try by intros; intros ??? [= _ <-].
  intros A f c a c'. unfold ask. destruct (f (outer c)). by intros [= _ <-].
Qed.
#[local] Instance same_turn_turn_frame : TurnFrame policy snap same_turn.
Proof.
  split.
  - intros t. unfold compress_step. moves_auto; by intros ??? [= _ <-].
  - unfold build_messages. moves_auto. by intros ??? [= _ <-].
  - apply moves_llm_call; [apply _|]. intros built. apply moves_call_provider; [apply _|..]; unfold finish_call.
    + by intros ???? [= _ <-].
    + intros. moves_auto; by intros ??? [= _ <-].
Qed.
Lemma same_turn_retry tc : moves same_turn (retry_invalid policy snap tc).
Proof. unfold retry_invalid, pop_message. moves_auto; by intros ??? [= _ <-]. Qed.

Lemma decide_continues c c' :
  decide_turn snap c = (Continue, c') → last_turn snap (turn_number (turn c)) = false.
Proof.
  unfold decide_turn. intros (b & c1 & Ec%(fr_ask (R := same_turn)) & E)%st_bind_inv.
  apply st_bind_inv in E as (t & ? & [= <- <-] & E). apply st_bind_inv in E as (i & ? & [= <- <-] & E).
  rewrite <-Ec. destruct b; [discriminate E|]. destruct (force_return_complete (turn c1)); [discriminate E|].
  by destruct (last_turn snap _).
Qed.

Lemma same_turn_open : moves same_turn open_turn.
Proof. unfold open_turn. moves_auto. by intros ??? [= _ <-]. Qed.

Lemma run_turn_continues c c' :
  run_turn policy snap c = (Ok None, c') →
  last_turn snap (turn_number (turn c)) = false ∧
  turn_number (turn c') = Word.add_u32 (turn_number (turn c)) 1.
Proof.
  rewrite run_turn_phases. intros (? & c1 & E1%same_turn_open & E)%st_bind_inv.
  apply st_bind_ok_inv in E as (? & c2 & E2%(moves_ask_model policy snap same_turn) & E).
  apply st_bind_ok_inv in E as (calls & c3 & E3 & E).
  apply (moves_run_tools policy snap same_turn same_turn_retry) in E3.
  assert (same_turn c c3) as Ht by (etransitivity; [exact E1|etransitivity; [exact E2|exact E3]]).
  rewrite <-Ht. destruct calls; cbn [end_turn] in E; [|by st_inv E].
  apply st_bind_inv in E as ([] & c4 & E4 & E). unfold loop_decide in E4.
  apply st_bind_inv in E4 as (d & c5 & Ed & [= <-]).
  pose proof (moves_decide_turn snap same_turn _ _ _ Ed) as H5.
  unfold act_on_decision in E. apply st_bind_inv in E as (? & ? & [= <- <-] & E).
  cbn [decision turn set_turn with_decision] in E. destruct d; try by repeat st_inv E.
  split; [by eapply decide_continues|]. injection E as <-. cbn. by rewrite H5.
Qed.

(** The questions to the provider. *)
Definition question (e : LoopEffect) : option LlmRequest :=
  match e with Asked q _ => Some q | _ => None end.
Definition within (n : nat) (c c' : Ctx) : Prop :=
  ∃ l, log c' = log c ++ l ∧ (length (omap question l) ≤ n)%nat.

Lemma within_trans n m c1 c2 c3 : within n c1 c2 → within m c2 c3 → within (n + m) c1 c3.
Proof.
  intros (l & E & H) (l' & E' & H'). exists (l ++ l'). split; [by rewrite E', E, app_assoc|].
  rewrite omap_app, length_app. lia.
Qed.
Lemma within_bind n m {T U} (f : St.M Ctx T) (k : T → St.M Ctx U) :
  moves (within n) f → (∀ a, moves (within m) (k a)) → moves (within (n + m)) (St.bind f k).
Proof.
  intros Hf Hk c b c' (a & c1 & E1 & E2)%st_bind_inv.
  eapply within_trans; [by eapply Hf|by eapply Hk].
Qed.
Lemma within_le n m {A} (f : St.M Ctx A) : (n ≤ m)%nat → moves (within n) f → moves (within m) f.
Proof. intros Hle Hf c a c' (l & E & H)%Hf. exists l. split; [done|lia]. Qed.
Lemma within_bind_ok n m {T U E} (f : St.M Ctx (result T E)) (k : T → St.M Ctx (result U E)) :
  moves (within n) f → (∀ a, moves (within m) (k a)) → moves (within (n + m)) (St.bind_ok f k).
Proof.
  intros Hf Hk c b c'. unfold St.bind_ok. destruct (f c) as [[a|e] c1] eqn:E1.
  - intros E2. eapply within_trans; [by eapply Hf|by eapply Hk].
  - intros [= _ <-]. eapply (within_le n); [lia|exact Hf|exact E1].
Qed.
Lemma within_log f n : (∀ c, log (f c) = log c) → moves (within n) (modify f).
Proof. intros H c a c' [= _ <-]. exists []. rewrite app_nil_r, H. split; [done|cbn; lia]. Qed.
Lemma within_ret {A} (a : A) n : moves (within n) (St.ret a).
Proof. intros c b c' [= _ <-]. exists []. rewrite app_nil_r. split; [done|cbn; lia]. Qed.

#[local] Instance within_pre : PreOrder (within 0).
Proof.
  split; [intros c; exists []; by rewrite app_nil_r|].
  intros c1 c2 c3 H1 H2. exact (within_trans 0 0 _ _ _ H1 H2).
Qed.
#[local] Instance within_frame : Frame (within 0).
Proof.
  split; [split; [apply _|..]|]; try by intros; apply within_log.
  - intros A f c a c'. unfold ask. destruct (f (outer c)). intros [= _ <-]. exists [].
    by rewrite app_nil_r.
  - intros es He c a c' [= _ <-]. exists es. split; [done|].
    induction He as [|[] es]; try done; exact IHHe.
Qed.

Lemma within_compress t : moves (within 0) (compress_step policy t).
Proof.
  unfold compress_step. moves_auto; [by apply within_log|].
  intros ??? [= _ <-]. eexists [_]. split; [done|cbn; lia].
Qed.
Lemma within_build : moves (within 0) (build_messages snap).
Proof. unfold build_messages. moves_auto. by apply within_log. Qed.
Lemma within_finish st secrets r : moves (within 0) (finish_call snap st secrets r).
Proof. unfold finish_call. moves_auto. by apply within_log. Qed.
Lemma within_asked q a : moves (within 1) (emit [Asked q a]).
Proof. intros c b c' [= _ <-]. exists [Asked q a]. split; [done|cbn; lia]. Qed.

(** One step that asks nothing, then the rest. *)
Ltac quiet_step :=
  match goal with
  | |- moves _ (St.bind _ _) => apply (within_bind 0); [solve [moves_auto]|intros ?]
  | |- moves _ (St.bind_ok _ _) => apply (within_bind_ok 0); [solve [moves_auto]|intros ?]
  | _ => apply (within_le 0); [lia|solve [moves_auto]]
  end.

Lemma within_llm_call : moves (within 1) (llm_call snap).
Proof.
  pose proof within_finish. unfold llm_call, call_provider.
  repeat first [quiet_step|apply (within_bind 1 0); [apply within_asked|intros ?; solve [moves_auto]]
               |case_match].
Qed.
Lemma within_recovery : moves (within 2) (llm_call_with_recovery policy snap).
Proof.
  pose proof within_compress. pose proof within_build. unfold llm_call_with_recovery.
  apply (within_bind 1 1); [apply within_llm_call|].
  intros r. repeat first [quiet_step|apply (within_bind 1 0); [apply within_llm_call|intros ?; solve [moves_auto]]
                           |case_match].
Qed.
Lemma within_retry tc : moves (within 2) (retry_invalid policy snap tc).
Proof.
  pose proof within_build. unfold retry_invalid. quiet_step.
  apply (within_bind 0); [by apply within_log|intros _].
  apply (within_bind 2 0); [|intros ?; moves_auto; by apply within_log].
  quiet_step. case_match; [apply within_recovery|quiet_step].
Qed.
Lemma within_process : moves (within 2) (process_llm_tool_calls policy snap).
Proof.
  unfold process_llm_tool_calls.
  repeat first [quiet_step|apply (within_bind_ok 2 0); [apply within_retry|intros ?; solve [moves_auto]]
               |case_match].
Qed.
Lemma within_run_tools : moves (within 2) (run_tools policy snap).
Proof.
  unfold run_tools.
  repeat first [quiet_step|apply (within_bind_ok 2 0); [apply within_process|intros ?; solve [moves_auto]]
               |case_match].
Qed.
Lemma within_run_turn : moves (within 4) (run_turn policy snap).
Proof.
  pose proof within_compress. pose proof within_build.
  intros c a c'. rewrite run_turn_phases. revert c a c'.
  change (moves (within 4) (let! _ := open_turn in let!? _ := ask_model policy snap in
    let!? suspended := run_tools policy snap in end_turn snap suspended)).
  apply (within_bind 0); [unfold open_turn; moves_auto; by apply within_log|intros ?].
  apply (within_bind_ok 2 2).
  - assert (moves (within 0) (pre_check_token_budget policy snap))
      by (unfold pre_check_token_budget; moves_auto).
    unfold ask_model. repeat quiet_step. apply within_recovery.
  - intros ?. apply (within_bind_ok 2 0); [apply within_run_tools|intros calls].
    unfold end_turn, act_on_decision, count_turn. moves_auto; by apply within_log.
Qed.
Lemma within_run_turns fuel : moves (within (4 * fuel)) (run_turns policy snap fuel).
Proof.
  induction fuel as [|fuel IH]; cbn [run_turns]; [apply within_ret|].
  replace (4 * S fuel)%nat with (4 + 4 * fuel)%nat by lia.
  apply within_bind; [apply within_run_turn|]. intros [[]|]; [apply within_ret|exact IH|apply within_ret].
Qed.

(** *** Fuel *)

Lemma run_turns_total fuel c :
  0 < max_turns snap ≤ Word.u32_max → 1 ≤ turn_number (turn c) ≤ max_turns snap →
  (Z.to_nat (max_turns snap - turn_number (turn c)) < fuel)%nat →
  ∃ r c', run_turns policy snap fuel c = (Some r, c').
Proof.
  intros Hmax. revert c. induction fuel as [|fuel IH]; intros c Hn Hfuel; [lia|].
  cbn [run_turns]. unfold St.bind.
  destruct (run_turn policy snap c) as [[[r|]|e] c1] eqn:E; [by eauto| |by eauto].
  apply run_turn_continues in E as [Hlast Hnum]. unfold last_turn in Hlast.
  assert (turn_number (turn c1) = turn_number (turn c) + 1) as Hnum'.
  { rewrite Hnum. apply Z.mod_small. unfold Word.u32_max in Hmax. lia. }
  apply IH; lia.
Qed.
Lemma run_turns_more fuel k c r c' :
  run_turns policy snap fuel c = (Some r, c') → run_turns policy snap (fuel + k) c = (Some r, c').
Proof.
  revert c. induction fuel as [|fuel IH]; intros c; [done|]. cbn [run_turns Nat.add]. unfold St.bind.
  destruct (run_turn policy snap c) as [[[|]|] c1]; auto.
Qed.

(** ** Whole runs *)

Lemma evolves_accept : moves evolves (accept_user_text snap).
Proof.
  assert (∀ t, moves evolves (set_user_text t)) by by intros; apply moves_evolves.
  unfold accept_user_text, run_command_execute_before_hook. moves_auto.
Qed.
Lemma same_turn_accept : moves same_turn (accept_user_text snap).
Proof.
  assert (∀ t, moves same_turn (set_user_text t)) by by intros ???? [= _ <-].
  unfold accept_user_text, run_command_execute_before_hook. moves_auto.
Qed.
Lemma within_accept : moves (within 0) (accept_user_text snap).
Proof.
  assert (∀ t, moves (within 0) (set_user_text t)) by by intros; apply within_log.
  unfold accept_user_text, run_command_execute_before_hook. moves_auto.
Qed.

(** The context in which the first turn starts. *)
Definition opened (c : Ctx) : Ctx :=
  if append_user_message (input c)
  then set_state (with_usage zero_usage zero_usage) c else c.

Lemma run_agent_loop_inv fuel c r c' :
  run_agent_loop policy snap fuel c = (r, c') →
  ∃ c1, evolves (opened c) c1 ∧ same_turn c c1 ∧ within 0 c c1 ∧
    ((∃ d, accept_user_text snap (opened c) = (Some d, c') ∧ r = Some (Ok d) ∧ c' = c1 ∧
           append_user_message (input c) = true) ∨
     run_turns policy snap fuel c1 = (r, c')).
Proof.
  unfold run_agent_loop, opened. intros (i & ? & [= <- <-] & E)%st_bind_inv.
  apply st_bind_inv in E as (d & c1 & E1 & E). exists c1.
  destruct (append_user_message (input c)).
  - unfold accept_user_message in E1. apply st_bind_inv in E1 as ([] & ? & [= <-] & E1).
    split_and!; [by eapply evolves_accept|by eapply (same_turn_accept (set_state _ c))
                |by eapply (within_accept (set_state _ c))|].
    destruct d; [left|by right]. injection E as <- <-. eauto.
  - injection E1 as <- <-. split_and!; [done..|by right].
Qed.

Lemma accept_denies c d c' :
  accept_user_text snap c = (Some d, c') →
  ∃ t, d = RunComplete (OComplete t (messages (state c')) 0 zero_usage 0).
Proof.
  unfold accept_user_text. intros E. do 4 st_inv E.
  apply st_bind_inv in E as ([t|] & c5 & _ & E).
  - exists t. do 4 st_inv E. injection E as <- <-.
    match goal with H : gets _ _ = _ |- _ => by injection H as <- <- end.
  - do 5 st_inv E. discriminate E.
Qed.

(** What an outcome reports. *)
Definition outcome_messages (o : AgentOutcome) : list ChatMessage :=
  match o with
  | OComplete _ ms _ _ _ | OMaxTurnsReached _ ms _ _ _ | OBudgetExhausted _ ms _ _ _
  | OCancelled _ ms _ _ _ => ms
  end.
Definition outcome_usage (o : AgentOutcome) : TokenUsage :=
  match o with
  | OComplete _ _ _ u _ | OMaxTurnsReached _ _ _ u _ | OBudgetExhausted _ _ _ u _
  | OCancelled _ _ _ u _ => u
  end.
Definition reports (c : Ctx) (o : AgentOutcome) : Prop :=
  outcome_messages o = messages (state c) ∧ outcome_usage o = token_usage (state c).

Lemma loop_end_keeps reason c a c' : emit_loop_end reason c = (a, c') → state c' = state c.
Proof.
  unfold emit_loop_end. intros E. do 2 st_inv E. repeat match goal with H : gets _ _ = _ |- _ => injection H as <- <- end.
  unfold to_sink, St.bind, gets in E. cbn in E. by destruct (event_sink _); injection E as _ <-.
Qed.

Lemma act_reports c o c' :
  act_on_decision c = (Ok (Some (RunComplete o)), c') → reports c' o.
Proof.
  unfold act_on_decision. intros ([[]|] & c1 & _ & E)%st_bind_inv; repeat st_inv E; try discriminate E;
  injection E as <- <-; repeat match goal with
  | H : gets _ _ = _ |- _ => injection H as <- <-
  | H : emit_loop_end _ _ = _ |- _ => apply loop_end_keeps in H
  end; unfold reports; cbn; split; congruence.
Qed.

Lemma run_turns_reports fuel c o c' :
  run_turns policy snap fuel c = (Some (Ok (RunComplete o)), c') → reports c' o.
Proof.
  revert c. induction fuel as [|fuel IH]; intros c; [done|]. cbn [run_turns].
  intros ([[r|]|] & c1 & E1 & E)%st_bind_inv; [|by eapply IH|done].
  injection E as -> <-. rewrite run_turn_phases in E1. st_inv E1. st_inv E1.
  apply st_bind_ok_inv in E1 as ([|] & c4 & _ & E1);
    cbn [end_turn] in E1; st_inv E1; [by eapply act_reports|done].
Qed.

Lemma run_more fuel k c r c' :
  run_agent_loop policy snap fuel c = (Some r, c') →
  run_agent_loop policy snap (fuel + k) c = (Some r, c').
Proof.
  unfold run_agent_loop, St.bind, gets. destruct (_ c) as [[d|] c1]; [done|]. apply run_turns_more.
Qed.

(** C19: with a limit on the turns, a run returns: fuel for as many turns as
    the limit is always enough, more fuel changes nothing, and the provider
    is asked at most four times a turn (the call and its retry at the context
    limit, and the same for the retry of an invalid tool call). *)
Theorem run_terminates s i w :
  0 < max_turns snap ≤ Word.u32_max →
  ∃ r c', (∀ fuel, (Z.to_nat (max_turns snap) ≤ fuel)%nat →
             run_agent_loop policy snap fuel (start s i w) = (Some r, c')) ∧
          Z.of_nat (length (omap question (log c'))) ≤ 4 * max_turns snap.
Proof.
  intros Hmax. set (n := Z.to_nat (max_turns snap)).
  destruct (run_agent_loop policy snap n (start s i w)) as [r c'] eqn:E.
  pose proof (run_agent_loop_inv _ _ _ _ E) as (c1 & _ & Ht & (l & El & Hl) & Hr).
  assert (∃ r', r = Some r' ∧ within (4 * n) c1 c') as (r' & -> & l' & El' & Hl').
  { destruct Hr as [(d & _ & -> & -> & _)|Er].
    - exists (Ok d). split; [done|]. exists []. rewrite app_nil_r. split; [done|cbn; lia].
    - pose proof (within_run_turns _ _ _ _ Er) as Hw. unfold same_turn in Ht. cbn in Ht.
      destruct (run_turns_total n c1 Hmax) as (r' & c2 & E2); [lia..|].
      rewrite E2 in Er. injection Er as <- <-. eauto. }
  exists r', c'. split.
  - intros fuel Hle. replace fuel with (n + (fuel - n))%nat by lia. by apply run_more.
  - rewrite El', El. cbn [log start app]. rewrite omap_app, length_app. lia.
Qed.

(** C22: whatever happens in a run, the tokens charged to the session are
    exactly the usages the provider reported with its answers, failed and
    cancelled calls left out, summed with saturation from zero when the run
    starts with a message of the user and from the stored account when it
    resumes; an outcome reports that account and the history as stored. *)
Theorem usage_accounted fuel s i w :
  let '(r, c') := run_agent_loop policy snap fuel (start s i w) in
  token_usage (state c') =
    foldl add_assign (if append_user_message i then zero_usage else token_usage s)
      (omap answer_usage (log c')) ∧
  match r with Some (Ok (RunComplete o)) => reports c' o | _ => True end.
Proof.
  destruct (run_agent_loop _ _ _ _) as [r c'] eqn:E.
  apply run_agent_loop_inv in E as (c1 & (l & [El _ _ Eu _ _]) & _ & (l0 & El0 & Hl0) & Hr).
  assert (log (opened (start s i w)) = []) as E0 by by unfold opened; case_match.
  rewrite E0 in El. cbn in El, El0. rewrite El in El0. subst l0.
  assert (token_usage (state (opened (start s i w))) =
          if append_user_message i then zero_usage else token_usage s) as Es.
  { unfold opened. cbn. by destruct (append_user_message i). }
  destruct Hr as [(d & Ed & -> & -> & Hi)|Er].
  - rewrite Eu, El, Es. split; [done|]. apply accept_denies in Ed as [t ->]. split; [done|].
    cbn. rewrite Eu, Es. cbn in Hi. rewrite Hi.
    replace (omap answer_usage l) with (@nil TokenUsage); [done|].
    assert (length (omap answer_usage l) ≤ length (omap question l))%nat as Hle.
    { clear. induction l as [|[| ? [] | | |] l IH]; cbn; lia. }
    destruct (omap answer_usage l); [done|]. cbn in Hle. lia.
  - pose proof (evolves_run_turns _ _ _ _ Er) as (l' & [El' _ _ Eu' _ _]). split.
    + by rewrite Eu', Eu, Es, El', El, omap_app, foldl_app.
    + destruct r as [[[o|]|]|]; try done. by eapply run_turns_reports.
Qed.

(** C23: between compressions the history only grows: unless a compression
    is in its log, a run leaves every message that was there in place, byte
    for byte, and only appends. *)
Theorem history_append_only fuel s i w :
  let c' := (run_agent_loop policy snap fuel (start s i w)).2 in
  uncompressed (log c') → messages s `prefix_of` messages (state c').
Proof.
  destruct (run_agent_loop _ _ _ _) as [r c'] eqn:E. cbn [snd]. intros Hu.
  apply run_agent_loop_inv in E as (c1 & H1 & _ & _ & Hr).
  assert (evolves (opened (start s i w)) c') as (l & [El _ _ _ Hh _]).
  { destruct Hr as [(d & _ & _ & -> & _)|Er%evolves_run_turns]; [done|by transitivity c1]. }
  assert (log (opened (start s i w)) = []) as E0 by by unfold opened; case_match.
  rewrite E0 in El. cbn in El. rewrite El in Hu. specialize (Hh Hu).
  revert Hh. unfold opened. by case_match.
Qed.

(** ** The last turn *)

Definition no_tools (q : LlmRequest) : Prop := req_tools q = [] ∧ tool_choice q = ChoiceNone.
Definition in_last_turn (c : Ctx) : Prop :=
  last_turn snap (turn_number (turn c)) = true ∧
  ∀ r, build_messages_output (turn c) = Some r → no_tools (pr_request r).
Definition withholds (c c' : Ctx) : Prop :=
  in_last_turn c → in_last_turn c' ∧
  ∃ l, log c' = log c ++ l ∧ Forall no_tools (omap question l).

#[local] Instance withholds_pre : PreOrder withholds.
Proof.
  split.
  - intros c H. split; [done|]. exists []. by rewrite app_nil_r.
  - intros c1 c2 c3 H12 H23 [H2 (l & E & Hl)]%H12. destruct (H23 H2) as [H3 (l' & E' & Hl')].
    split; [done|]. exists (l ++ l'). rewrite E', E, app_assoc, omap_app. split; [done|by apply Forall_app].
Qed.
Lemma withholds_modify f :
  (∀ c, log (f c) = log c ∧ turn_number (turn (f c)) = turn_number (turn c) ∧
        build_messages_output (turn (f c)) = build_messages_output (turn c)) →
  moves withholds (modify f).
Proof.
  intros H c a c' [= _ <-]. destruct (H c) as (El & Et & Eb). intros [Hn Hb].
  split; [split; by rewrite ?Et, ?Eb|]. exists []. by rewrite app_nil_r.
Qed.
#[local] Instance withholds_frame : Frame withholds.
Proof.
  split; [split; [apply _|..]|]; try by intros; apply withholds_modify.
  - intros A f c a c'. unfold ask. destruct (f (outer c)). intros [= _ <-] H. split; [done|].
    exists []. by rewrite app_nil_r.
  - intros es He c a c' [= _ <-] H. split; [done|]. exists es. split; [done|].
    induction He as [|[] es]; try done; exact IHHe.
Qed.

Lemma chat_chain_keeps {Acc} (I : Acc → Prop) hs build_input apply :
  (∀ acc o acc' b, apply acc o = Some (acc', b) → I acc → I acc') →
  ∀ acc c acc' c', run_chat_hook_chain hs build_input apply acc c = (acc', c') → I acc → I acc'.
Proof.
  intros Ha. induction hs as [|h hs IH]; intros acc c acc' c' E HI; cbn [run_chat_hook_chain] in E.
  - by injection E as <- _.
  - apply st_bind_inv in E as (o & c1 & _ & E). destruct o as [o|e]; [|by eapply IH].
    destruct (apply acc o) as [[acc1 b]|] eqn:E1; [|by eapply IH].
    destruct b; [injection E as <- _; by eapply Ha|eapply IH; [exact E|by eapply Ha]].
Qed.
Lemma system_transform_tools r c r' c' :
  run_chat_system_transform_sequence r c = (r', c') → no_tools (pr_request r) →
  no_tools (pr_request r').
Proof.
  unfold run_chat_system_transform_sequence. intros E. do 2 st_inv E. destruct (negb _).
  { by injection E as <- _. }
  revert E. apply (chat_chain_keeps (fun r => no_tools (pr_request r))).
  intros acc [] acc' b [= <- <-]; done.
Qed.

Lemma withholds_build : moves withholds (build_messages snap).
Proof.
  intros c a c' E. assert (moves withholds (live_context_snippets snap)) as Hs by moves_auto.
  unfold build_messages in E. apply st_bind_inv in E as (i & ? & [= <- <-] & E).
  apply st_bind_inv in E as (n & ? & [= <- <-] & E). apply st_bind_inv in E as (ms & ? & [= <- <-] & E).
  apply st_bind_inv in E as (sn & c1 & E1%Hs & E). clear Hs.
  destruct (build_prompt _) as [r|e] eqn:Er; [|by injection E as _ <-].
  apply st_bind_inv in E as (r' & c2 & E2 & [= _ <-]). intros Hc.
  pose proof (E1 Hc) as [H1 _]. 
  assert (no_tools (pr_request r')) as Hr'.
  { eapply system_transform_tools; [exact E2|]. destruct Hc as [Hn _].
    unfold last_turn in Hn. apply build_prompt_shape in Er as (? & _ & _ & Et & Ec & _).
    cbn in Et, Ec. rewrite Hn in Et, Ec. done. }
  pose proof (moves_system_transform withholds _ _ _ _ E2 H1) as [[Hn2 _] (l2 & El2 & Hl2)].
  destruct (E1 Hc) as [_ (l1 & El1 & Hl1)]. split; [split; [done|by intros ? [= <-]]|].
  exists (l1 ++ l2). cbn. rewrite El2, El1, app_assoc, omap_app. split; [done|by apply Forall_app].
Qed.

Lemma withholds_finish st secrets r : moves withholds (finish_call snap st secrets r).
Proof. unfold finish_call. moves_auto. by apply withholds_modify. Qed.

Lemma withholds_llm_call : moves withholds (llm_call snap).
Proof.
  intros c a c' E. unfold llm_call in E.
  apply st_bind_inv in E as (b & c1 & E1%(fr_ask (R := withholds)) & E).
  etransitivity; [exact E1|]. clear E1. destruct b; [by injection E as _ <-|].
  apply st_bind_inv in E as (built & ? & [= <- <-] & E).
  destruct (build_messages_output (turn c1)) as [r|] eqn:Eb; [|by injection E as _ <-].
  intros Hc1. assert (no_tools (pr_request r)) as Hr by by apply Hc1.
  assert (∀ b, moves withholds (emit [Asked (pr_request r) b])) as Ha.
  { intros b c2 [] c3 [= <-] H2. split; [done|]. exists [Asked (pr_request r) b].
    split; [done|]. by constructor; [|constructor]. }
  pose proof withholds_finish as Hf.
  assert (moves withholds (call_provider snap r)) as Hm.
  { apply moves_call_provider; [apply _|..]; intros; moves_auto. }
  by apply (Hm _ _ _ E).
Qed.

#[local] Instance withholds_turn_frame : TurnFrame policy snap withholds.
Proof.
  split; [|apply withholds_build|apply withholds_llm_call].
  intros t. unfold compress_step. moves_auto; [by apply withholds_modify|].
  intros ??? [= _ <-] H. split; [done|]. eexists [Compressed _]. split; [done|constructor].
Qed.
Lemma withholds_retry tc : moves withholds (retry_invalid policy snap tc).
Proof. unfold retry_invalid, pop_message. moves_auto; by apply withholds_modify. Qed.

Definition withheld (c c' : Ctx) : Prop := ∃ l, log c' = log c ++ l ∧ Forall no_tools (omap question l).
Lemma withheld_trans c1 c2 c3 : withheld c1 c2 → withheld c2 c3 → withheld c1 c3.
Proof.
  intros (l & E & Hl) (l' & E' & Hl'). exists (l ++ l').
  rewrite E', E, app_assoc, omap_app. split; [done|by apply Forall_app].
Qed.
Lemma within_withheld c c' : within 0 c c' → withheld c c'.
Proof.
  intros (l & E & Hl). exists l. split; [done|]. destruct (omap question l); [done|]. cbn in Hl. lia.
Qed.
Lemma within_end_turn calls : moves (within 0) (end_turn snap calls).
Proof. unfold end_turn, act_on_decision, count_turn. moves_auto; by apply within_log. Qed.

Lemma withheld_open c a c' :
  open_turn c = (a, c') → last_turn snap (turn_number (turn c)) = true →
  withheld c c' ∧ in_last_turn c'.
Proof.
  intros E Hlast. split.
  { apply within_withheld. revert E.
    apply (moves_bind (within 0)); [by apply within_log|intros ?; moves_auto]. }
  unfold open_turn in E. apply st_bind_inv in E as (? & ? & [= _ <-] & E).
  assert (moves withholds (let! i := gets input in let! t := gets turn in
    let! _ := to_sink (OnTurnStart (agent_id_or_anonymous i) (turn_number t)) in
    drain_pending_user_messages)) as Ho by moves_auto.
  by apply (Ho _ _ _ E).
Qed.

(** A turn that reaches the limit is the last one: it offers the model
    no tools and tells it to use none, in every question it asks, retries
    included, and it never goes on to another turn. *)
Theorem last_turn_is_last c r c' :
  run_turn policy snap c = (r, c') → last_turn snap (turn_number (turn c)) = true →
  r ≠ Ok None ∧
  ∃ l, log c' = log c ++ l ∧
    Forall (fun q => req_tools q = [] ∧ tool_choice q = ChoiceNone) (omap question l).
Proof.
  intros E Hlast. split.
  { intros ->. apply run_turn_continues in E as [Hf _]. congruence. }
  fold (withheld c c'). rewrite run_turn_phases in E. apply st_bind_inv in E as (? & c1 & E1 & E).
  apply withheld_open in E1 as [H1 Hc1]; [|done]. eapply withheld_trans; [exact H1|].
  unfold St.bind_ok in E. destruct (ask_model policy snap c1) as [a c2] eqn:E2.
  destruct (moves_ask_model policy snap withholds _ _ _ E2 Hc1) as [Hc2 H2].
  eapply withheld_trans; [exact H2|]. destruct a as [[]|e]; [|injection E as _ <-; apply within_withheld; reflexivity].
  destruct (run_tools policy snap c2) as [calls c3] eqn:E3.
  destruct (moves_run_tools policy snap withholds withholds_retry _ _ _ E3 Hc2) as [_ H3].
  eapply withheld_trans; [exact H3|]. apply within_withheld.
  destruct calls as [calls|e]; [by eapply within_end_turn|].
  injection E as _ <-. reflexivity.
Qed.

(** ** Errors *)

(** A pipeline that cannot analyse some history under the budget of the run:
    the budget leaves the history no room, or is not a valid one. *)
Definition unanalysable (ms : list ChatMessage) : Prop :=
  ∃ (p : P) err, pipeline_analyze p ms policy = Err err.

(** The errors a run can end with: those of the compression, of the prompt
    builder and of the provider, and the panic of an analysis that fails. *)
Definition reported (e : AgentError) : Prop :=
  (∃ x, e = AeCompression x) ∨ (∃ m, e = AePromptBuild m) ∨ (∃ x, e = AeLlmProvider (llm_error_str x)) ∨
  (e = Panicked (lit "compression analysis") ∧ ∃ ms, unanalysable ms).
Definition ready (c : Ctx) : Prop := is_Some (build_messages_output (turn c)).
Definition stays_ready (c c' : Ctx) : Prop := ready c → ready c'.
#[local] Instance stays_ready_pre : PreOrder stays_ready.
Proof. unfold stays_ready. split; [intros c H; exact H|]. intros c1 c2 c3. auto. Qed.
#[local] Instance stays_ready_frame : Frame stays_ready.
Proof.
  split; [split; [apply _|..]|]; try (intros; intros ??? [= _ <-]; exact id).
  intros A f c a c'. unfold ask. destruct (f (outer c)). intros [= _ <-] H. exact H.
Qed.
#[local] Instance stays_ready_turn_frame : TurnFrame policy snap stays_ready.
Proof.
  split.
  - intros t. unfold compress_step. moves_auto; intros ??? [= _ <-] H; exact H.
  - unfold build_messages. moves_auto. intros ??? [= _ <-] _. by eexists.
  - apply moves_llm_call; [apply _|]. intros built. apply moves_call_provider; [apply _|..]; unfold finish_call.
    + intros ???? [= _ <-] H. exact H.
    + intros. moves_auto; intros ??? [= _ <-] H; exact H.
Qed.

(** Every error of [m] is a reported one, once the prompt of the turn is built. *)
Definition calm {A} (m : St.M Ctx (result A AgentError)) : Prop :=
  ∀ c e c', ready c → m c = (Err e, c') → reported e.

Lemma calm_bind {T U} (m : St.M Ctx T) (k : T → St.M Ctx (result U AgentError)) :
  moves stays_ready m → (∀ a, calm (k a)) → calm (St.bind m k).
Proof. intros Hm Hk c e c' Hc (a & c1 & E1%Hm & E)%st_bind_inv. eapply Hk; [by apply E1|exact E]. Qed.
Lemma calm_bind_ok {T U} (m : St.M Ctx (result T AgentError)) (k : T → St.M Ctx (result U AgentError)) :
  calm m → moves stays_ready m → (∀ a, calm (k a)) → calm (St.bind_ok m k).
Proof.
  intros Hc Hm Hk c e c' Hr. unfold St.bind_ok. destruct (m c) as [[a|e'] c1] eqn:E1.
  - intros E. eapply Hk; [by eapply Hm|exact E].
  - intros [= <- <-]. by eapply Hc.
Qed.
Lemma calm_ok {T} (a : T) : calm (St.ret (Ok a)).
Proof. by intros c e c' _ [=]. Qed.

Ltac calm_step :=
  match goal with
  | |- calm (St.ret (Ok _)) => apply calm_ok
  | |- calm (St.bind _ _) => apply calm_bind; [solve [moves_auto]|intros ?]
  | |- calm (St.bind_ok _ _) => apply calm_bind_ok; [|solve [moves_auto]|intros ?]
  | |- calm (match ?x with _ => _ end) => destruct x
  end.

Lemma build_calm c e c' : build_messages snap c = (Err e, c') → reported e.
Proof.
  unfold build_messages. intros E. do 4 st_inv E. destruct (build_prompt _).
  - do 2 st_inv E. discriminate E.
  - injection E as <- _. right. left. by eexists.
Qed.
Lemma build_ready c a c' : build_messages snap c = (Ok a, c') → ready c'.
Proof.
  unfold build_messages. intros E. do 4 st_inv E. destruct (build_prompt _); [|discriminate E].
  do 2 st_inv E. injection E as _ <-. match goal with H : modify _ _ = _ |- _ => injection H as _ <- end.
  by eexists.
Qed.
Lemma llm_calm c f c' : ready c → llm_call snap c = (Err f, c') → ∃ e, f = FaultLlm e.
Proof.
  intros Hc. unfold llm_call. intros (b & c1 & E1%(fr_ask (R := stays_ready)) & E)%st_bind_inv.
  destruct b; [discriminate E|]. apply st_bind_inv in E as (built & ? & [= <- <-] & E).
  destruct (E1 Hc) as [r Er]. rewrite Er in E. unfold call_provider in E. do 2 st_inv E.
  destruct (non_streaming snap).
  - do 2 st_inv E. destruct x3; [st_inv E; discriminate E|]. injection E as <- _. by eexists.
  - apply st_bind_inv in E as ([chunks a] & ? & _ & E). destruct (stream_chunks _ _ _ _ _).
    do 2 st_inv E. destruct a as [?|[]]; try (st_inv E; discriminate E); injection E as <- _; by eexists.
Qed.

Lemma fault_reported e : reported (fault_error (FaultLlm e)).
Proof. right. right. left. by eexists. Qed.

Lemma compress_calm t c e c' : compress_step policy t c = (Err e, c') → reported e.
Proof.
  unfold compress_step. intros E. do 2 st_inv E. apply st_bind_inv in E as (p & c1 & _ & E).
  destruct (pipeline_analyze p x policy) as [?|err] eqn:Ha.
  2:{ injection E as <- _. do 3 right. split; [done|]. by exists x, p, err. }
  case_match; [discriminate E|]. destruct (pipeline_compress _ _ _ _).
  - do 2 st_inv E. discriminate E.
  - injection E as <- _. left. by eexists.
Qed.

Lemma calm_compress t : calm (compress_step policy t).
Proof. intros c e c' _. apply compress_calm. Qed.
Lemma calm_build : calm (build_messages snap).
Proof. intros c e c' _. apply build_calm. Qed.
Lemma calm_fault r : (∀ f, r = Err f → ∃ e, f = FaultLlm e) →
  calm (St.ret (Result.map_err fault_error r : result () AgentError)).
Proof.
  intros H c e c' _. destruct r as [|f]; intros [= <- <-]. destruct (H f eq_refl) as [x ->].
  apply fault_reported.
Qed.
Lemma calm_recovery : calm (llm_call_with_recovery policy snap).
Proof.
  assert (calm (let! r := llm_call snap in St.ret (Result.map_err fault_error r))) as Hlast.
  { intros c e c' Hc (r & c1 & E1 & E)%st_bind_inv. destruct r as [|f]; [discriminate E|].
    apply llm_calm in E1 as [x ->]; [|done]. injection E as <- _. apply fault_reported. }
  intros c e c' Hc. unfold llm_call_with_recovery. intros (r & c1 & E1 & E)%st_bind_inv.
  assert (moves stays_ready (llm_call snap)) as Hm by moves_auto. pose proof (Hm _ _ _ E1 Hc) as Hc1.
  destruct r as [|f]; [discriminate E|]. apply llm_calm in E1 as [x ->]; [|done].
  destruct x; try (eapply calm_fault; [|exact Hc1|exact E]; intros ? [= <-]; by eexists).
  revert c1 e c' Hc1 E.
  match goal with |- ∀ c e c', _ → ?m c = _ → _ => change (calm m) end.
  repeat first [apply calm_compress|apply calm_build|exact Hlast|calm_step].
Qed.
Lemma calm_pre_check : calm (pre_check_token_budget policy snap).
Proof.
  unfold pre_check_token_budget.
  repeat first [apply calm_compress|apply calm_build|calm_step].
Qed.
Lemma retry_error_reported e : reported e → reported (retry_prompt_error e).
Proof.
  intros [[x ->]|[[m ->]|[[x ->]|[-> H]]]]; [right; left; by eexists..|]. do 3 right. by split.
Qed.
Lemma calm_retry tc : calm (retry_invalid policy snap tc).
Proof.
  intros c e c' Hc. unfold retry_invalid.
  intros (now & c1 & E1%(fr_ask (R := stays_ready)) & E)%st_bind_inv.
  apply st_bind_inv in E as ([] & c2 & [= <-] & E). apply st_bind_inv in E as (r & c3 & E3 & E).
  st_inv E. injection E as -> <-. apply st_bind_inv in E3 as (b & c4 & E4 & E3).
  destruct b as [[]|e']; [eapply calm_recovery; [|exact E3]; by eapply build_ready|].
  injection E3 as <- _. by eapply retry_error_reported, build_calm.
Qed.
Lemma stays_ready_retry tc : moves stays_ready (retry_invalid policy snap tc).
Proof. unfold retry_invalid, pop_message. moves_auto; intros ??? [= _ <-]; exact id. Qed.
Lemma calm_run_tools : calm (run_tools policy snap).
Proof.
  pose proof stays_ready_retry as Hr.
  assert (calm (process_llm_tool_calls policy snap)) as Hp.
  { unfold process_llm_tool_calls. repeat first [apply calm_retry|calm_step]. }
  pose proof (moves_process policy snap stays_ready Hr) as Hm.
  unfold run_tools. repeat first [exact Hp|calm_step].
Qed.

(** The decision is always set. *)
Lemma end_turn_ok calls c e c' : end_turn snap calls c ≠ (Err e, c').
Proof.
  intros E. destruct calls; cbn [end_turn] in E; [|st_inv E; discriminate E].
  unfold loop_decide in E. apply st_bind_inv in E as ([] & c1 & E1 & E).
  apply st_bind_inv in E1 as (d & c2 & _ & [= <-]). unfold act_on_decision in E.
  apply st_bind_inv in E as (? & ? & [= <- <-] & E). cbn [decision turn set_turn with_decision] in E.
  destruct d; repeat st_inv E; discriminate E.
Qed.

Lemma run_turn_calm c e c' : run_turn policy snap c = (Err e, c') → reported e.
Proof.
  assert (calm (let!? _ := pre_check_token_budget policy snap in
                let!? _ := llm_call_with_recovery policy snap in
                let!? suspended := run_tools policy snap in end_turn snap suspended)) as Hrest.
  { pose proof stays_ready_retry as Hr. pose proof (moves_run_tools policy snap stays_ready Hr).
    repeat first [apply calm_pre_check|apply calm_recovery|apply calm_run_tools|calm_step].
    intros c1 e1 c2 _ E. by apply end_turn_ok in E. }
  unfold run_turn. intros (? & c1 & _ & E)%st_bind_inv. unfold St.bind_ok at 1 in E.
  destruct (compress_step policy Automatic c1) as [[[]|e1] c2] eqn:E2.
  2:{ injection E as <- _. by eapply compress_calm. }
  unfold St.bind_ok at 1 in E. destruct (build_messages snap c2) as [[[]|e1] c3] eqn:E3.
  - eapply Hrest; [by eapply build_ready|exact E].
  - injection E as <- _. by eapply build_calm.
Qed.

Lemma run_turns_calm fuel c e c' : run_turns policy snap fuel c = (Some (Err e), c') → reported e.
Proof.
  revert c. induction fuel as [|fuel IH]; intros c; [done|]. cbn [run_turns].
  intros ([[r|]|e'] & c1 & E1 & E)%st_bind_inv; [done|by eapply IH|].
  injection E as -> <-. by eapply run_turn_calm.
Qed.

(** C25: a run that fails, fails with an error of the compression, of the
    prompt builder or of the provider. The only panic is that of the analysis
    before a compression, and only when the pipeline cannot analyse a history
    under the budget of the run (a budget that leaves the history no room,
    for one). No other [expect] of a turn fails: the prompt is built before
    every question, and the decision is set before it is acted on. A run does
    not fail because of a tool. *)
Theorem run_errors_reported fuel c e c' :
  run_agent_loop policy snap fuel c = (Some (Err e), c') → reported e.
Proof.
  intros (c1 & _ & _ & _ & [(d & _ & [=] & _)|Er])%run_agent_loop_inv. by eapply run_turns_calm.
Qed.
End Runs.

(** ** Witnesses *)

Section Witnesses.
Import Demo.

Lemma run_terminates_witness :
  ∃ r c', (∀ fuel, (2 ≤ fuel)%nat →
    run_agent_loop demo_policy (demo_snapshot false) fuel demo_start = (Some r, c')) ∧
  Z.of_nat (length (omap question (log c'))) ≤ 8.
Proof.
  exact (run_terminates demo_policy (demo_snapshot false) (new_loop_state (lit "s1")) demo_input 0%nat
    ltac:(vm_compute; split; [reflexivity|discriminate])).
Defined.

Lemma history_append_only_witness :
  let s := with_messages (fun _ => [user_message (lit "earlier")]) (new_loop_state (lit "s1")) in
  messages s `prefix_of`
  messages (state (run_agent_loop demo_policy (demo_snapshot false) 2 (start s demo_input 0%nat)).2).
Proof.
  intros s. apply history_append_only.
  apply (Forall_impl (fun e => negb (compression e))).
  - apply forallb_True. vm_compute. exact I.
  - intros e H. by destruct (compression e).
Defined.

Lemma last_turn_is_last_witness :
  let c := set_turn (fun _ => new_turn 2) (set_state (with_messages (fun _ => [user_message (lit "hi")])) demo_start) in
  let r := run_turn demo_policy (demo_snapshot false) c in
  r.1 ≠ Ok None ∧ ∃ l, log r.2 = log c ++ l ∧
    Forall (fun q => req_tools q = [] ∧ tool_choice q = ChoiceNone) (omap question l).
Proof.
  intros c r. apply (last_turn_is_last demo_policy (demo_snapshot false) c).
  - apply surjective_pairing.
  - vm_compute. reflexivity.
Defined.

Lemma run_errors_reported_witness :
  ∃ e, (demo_loop true).1 = Some (Err e) ∧ reported demo_policy e.
Proof.
  eexists. split; [vm_compute; reflexivity|].
  apply (run_errors_reported demo_policy (demo_snapshot true) 2 demo_start _ (demo_loop true).2).
  vm_compute. reflexivity.
Defined.

(** Two turns: a batch of two calls, and the last turn without tools. *)
Example demo_loop_runs :
  match demo_loop false with
  | (Some (Ok (RunComplete (OMaxTurnsReached reply ms turns u _))), _) =>
      reply = Some (lit "done") ∧ role <$> ms = [User; Assistant; Tool; Tool; Assistant] ∧
      turns = 2 ∧ tu_total u = 30
  | _ => False
  end.
Proof. vm_compute. repeat split. Qed.
End Witnesses.
