(* ===== verification/ToolPairs.v ===== *)
(** * Pairing of tool calls and results

    What the tool phase of a turn leaves in the history: the message of the
    model with its calls, then one result for every call that is not
    suspended, in call order, whatever order the batch ran in. *)

From S2P Require Import Prelude RStr F64 Message Budget Estimator Compaction Summary.
From S2P Require Import ContextManager HostPath LocalPolicy Launcher HookPoint ToolCall Prompt.
From S2P Require Import Stream ToolOutput LoopState LlmTurn ToolExec AgentLoop LoopFacts.

Section Pairs.
Context `{JT : JsonText} `{JP : JsonParse} `{UC : UnicodeCase} `{SH : SignatureHash} `{RT : ToolRuntime}.
Context {P : Type} `{PP : !CompressionPipeline P} `{LW : !LoopWorld P}.
Context {B : Type} `{TB : !TokenBudgetPolicy B} (policy : B) (snap : RuntimeSnapshot).

(** The call id and the tool name of a result, of a prepared call and of a
    call of the model. *)
Definition result_ids (r : ToolExecutionResult) : str * str := (result_call_id r, result_tool_name r).
Definition prepared_ids (call : result ToolCallImpl ToolExecutionResult) : str * str :=
  match call with
  | Ok tc => (call_id (tc_final_call tc), tool_name (tc_final_call tc))
  | Err r => result_ids r
  end.
Definition call_ids (tc : ToolUseBlock) : str * str := (tu_call_id tc, tu_tool_name tc).

Lemma build_tool_call_ids f tc : prepared_ids (build_tool_call (raw_call tc) f) = call_ids tc.
Proof. unfold build_tool_call, build_with_filter_ref. by repeat case_match; simplify_eq. Qed.

Lemma execute_tool_call_ids call c r c' :
  execute_tool_call call c = (r, c') → result_ids r = prepared_ids call.
Proof.
  destruct call as [tc|r0]; cbn [execute_tool_call]; [|by intros [= <- _]].
  intros (x & c1 & E1 & E)%st_bind_inv. unfold lift_tool in E1.
  destruct (execute_runs tc {| world := outer c; effects := [] |}) as (r0 & tr & s & E0 & _ & Hp).
  rewrite E0 in E1. injection E1 as <- _. injection E as <- _.
  apply protocol_ids in Hp as [E1 E2]. unfold result_ids. by rewrite E1, E2.
Qed.

(** ** The batch *)

Lemma execute_in_order_ids calls order c rs c' :
  execute_in_order calls order c = (rs, c') →
  rs.*1 = filter (fun i => i < length calls)%nat order ∧
  Forall (fun x => prepared_ids <$> calls !! x.1 = Some (result_ids x.2)) rs.
Proof.
  revert c rs c'. induction order as [|i order IH]; intros c rs c' E; cbn [execute_in_order] in E.
  { injection E as <- _. done. }
  destruct (calls !! i) as [call|] eqn:Ei.
  - apply st_bind_inv in E as (r & c1 & E1 & E). apply st_bind_inv in E as (rs1 & c2 & E2 & E).
    injection E as <- _. apply IH in E2 as [Ef Hf]. apply execute_tool_call_ids in E1.
    rewrite filter_cons_True by by eapply lookup_lt_Some. cbn [fmap list_fmap fst]. rewrite Ef.
    split; [done|]. constructor; [|done]. cbn. by rewrite Ei, E1.
  - apply lookup_ge_None in Ei. rewrite filter_cons_False by lia. by eapply IH.
Qed.

Lemma complete_order_nodup n order : NoDup (complete_order n order).
Proof.
  apply NoDup_app. split_and!.
  - apply NoDup_remove_dups.
  - intros i Hi. rewrite elem_of_remove_dups in Hi. rewrite list_elem_of_filter. tauto.
  - apply NoDup_filter, NoDup_seq.
Qed.
Lemma complete_order_all n order i : (i < n)%nat → i ∈ complete_order n order.
Proof.
  intros Hi. apply elem_of_app. destruct (decide (i ∈ order)) as [?|Hn].
  - left. by apply elem_of_remove_dups.
  - right. apply list_elem_of_filter. split; [done|]. apply elem_of_seq. lia.
Qed.

Lemma omap_seq_ids (g : nat → option ToolExecutionResult) calls k :
  (∀ i call, calls !! i = Some call →
     ∃ r, g (k + i)%nat = Some r ∧ result_ids r = prepared_ids call) →
  result_ids <$> omap g (seq k (length calls)) = prepared_ids <$> calls.
Proof.
  revert k. induction calls as [|call calls IH]; intros k H; [done|]. cbn [length seq omap list_omap].
  destruct (H 0%nat call eq_refl) as (r & Er & Ei). rewrite Nat.add_0_r in Er. rewrite Er.
  cbn [fmap list_fmap]. rewrite Ei. f_equal. apply IH. intros i call' Hi.
  destruct (H (S i) call' Hi) as (r' & Er' & ?). rewrite Nat.add_succ_r in Er'. eauto.
Qed.

Lemma execute_tool_batch_ids calls serialize c rs c' :
  execute_tool_batch calls serialize c = (rs, c') → result_ids <$> rs = prepared_ids <$> calls.
Proof.
  unfold execute_tool_batch. intros (order & c1 & Eo & E)%st_bind_inv.
  apply st_bind_inv in E as (xs & c2 & E2 & E). injection E as <- _.
  assert (NoDup order ∧ ∀ i, (i < length calls)%nat → i ∈ order) as [Hnd Hall].
  { destruct serialize.
    - injection Eo as <- _. split; [apply NoDup_seq|]. intros i Hi. apply elem_of_seq. lia.
    - st_inv Eo. injection Eo as <- _. split; [apply complete_order_nodup|apply complete_order_all]. }
  apply execute_in_order_ids in E2 as [Ek Hids].
  assert (NoDup xs.*1) as Hx by (rewrite Ek; by apply NoDup_filter).
  assert (∀ i, (i < length calls)%nat → ∃ r, (i, r) ∈ xs) as Hin.
  { intros i Hi. assert (i ∈ xs.*1) as Hi' by (rewrite Ek; apply list_elem_of_filter; auto).
    apply list_elem_of_fmap in Hi' as ([j r] & -> & ?). by exists r. }
  apply omap_seq_ids. intros i call Hi. destruct (Hin i) as [r Hr]; [by eapply lookup_lt_Some|].
  exists r. split; [by apply elem_of_list_to_map_1|].
  rewrite Forall_forall in Hids. apply Hids in Hr. cbn in Hr. rewrite Hi in Hr. by injection Hr.
Qed.

(** ** Recording *)

(** A message that answers a call. *)
Definition answers (r : ToolExecutionResult) (m : ChatMessage) : Prop :=
  role m = Tool ∧ ∃ output, blocks m =
    [ToolResult (result_call_id r) (result_tool_name r) output (is_failure_result r)].
Definition is_suspended (r : ToolExecutionResult) : bool :=
  match r with Suspended _ _ _ => true | _ => false end.

Lemma update_cache_blocks m :
  role (LoopEstimator.update_message_cache m) = role m ∧
  blocks (LoopEstimator.update_message_cache m) = blocks m.
Proof. unfold LoopEstimator.update_message_cache. by case_match. Qed.

(** Steps that leave the history alone. *)
Definition same_history (c c' : Ctx) : Prop := messages (state c') = messages (state c).
#[local] Instance same_history_pre : PreOrder same_history.
Proof. split; [by intros c|]. intros c1 c2 c3. unfold same_history. congruence. Qed.
#[local] Instance same_history_base : Base same_history.
Proof.
  split; [apply _|..]; try by intros; intros ??? [= _ <-].
  intros A f c a c'. unfold ask. destruct (f (outer c)). by intros [= _ <-].
Qed.

Lemma push_result_answers r c a c' :
  build_and_push_result r c = (a, c') →
  ∃ m, messages (state c') = messages (state c) ++ [m] ∧ answers r m.
Proof.
  unfold build_and_push_result. intros (saved & c1 & E1 & E)%st_bind_inv.
  apply st_bind_inv in E as (now & c2 & E2%(fr_ask (R := same_history)) & [= _ <-]).
  assert (same_history c c1) as H1.
  { revert E1. case_match; [by intros [= _ <-]|by apply (fr_ask (R := same_history))]. }
  exists (LoopEstimator.update_message_cache (build_tool_result_message r saved now)).
  cbn [state set_state messages with_messages]. rewrite E2, H1. split; [done|].
  destruct (update_cache_blocks (build_tool_result_message r saved now)) as [Er Eb].
  split; [by rewrite Er|]. rewrite Eb. by eexists.
Qed.

Lemma record_loop_answers rs note suspended stop c res c' :
  record_loop rs note suspended stop c = (res, c') →
  res.1.2 = suspended ++ omap from_tool_result rs ∧
  ∃ ms, messages (state c') = messages (state c) ++ ms ∧
        Forall2 answers (filter (fun r => is_suspended r = false) rs) ms.
Proof.
  revert note suspended stop c. induction rs as [|r rs IH]; intros note suspended stop c E;
    cbn [record_loop] in E.
  { injection E as <- <-. cbn. rewrite app_nil_r. split; [done|]. exists []. by rewrite app_nil_r. }
  apply st_bind_inv in E as ([] & c1 & [= <-] & E). apply st_bind_inv in E as (i & ? & [= <- <-] & E).
  apply st_bind_inv in E as ([] & c2 & E2 & E). apply (moves_tool_result_event same_history) in E2.
  destruct (from_tool_result r) as [call|] eqn:Es.
  - apply st_bind_inv in E as ([] & c3 & [= <-] & E). apply IH in E as [-> (ms & Em & Hms)].
    cbn in Em. rewrite E2 in Em. cbn in Em. cbn [omap list_omap]. rewrite Es, <-app_assoc.
    split; [done|]. exists ms. split; [done|]. rewrite filter_cons_False; [done|]. by destruct r.
  - apply st_bind_inv in E as ([] & c3 & E3 & E). apply push_result_answers in E3 as (m & Em & Hm).
    apply st_bind_inv in E as (k & ? & [= <- <-] & E). destruct (update_tool_streak _ _) as [k' n].
    apply st_bind_inv in E as ([] & ? & [= <-] & E). apply st_bind_inv in E as ([] & ? & [= <-] & E).
    apply IH in E as [-> (ms & Em' & Hms)]. cbn in Em'. rewrite Em, E2 in Em'. cbn in Em'.
    cbn [omap list_omap]. rewrite Es. split; [done|]. exists (m :: ms).
    rewrite Em', <-app_assoc. split; [done|].
    rewrite filter_cons_True by by destruct r. by constructor.
Qed.

(** At most one note of the user, and none while a call is suspended. *)
Definition closing_note (suspended : list SuspendedToolCall) (note : list ChatMessage) : Prop :=
  (length note ≤ 1)%nat ∧ Forall (fun m => role m = User) note ∧ (suspended ≠ [] → note = []).

Lemma record_answers rs c suspended c' :
  record_tool_results rs c = (suspended, c') →
  suspended = omap from_tool_result rs ∧
  ∃ ms note, messages (state c') = messages (state c) ++ ms ++ note ∧
    Forall2 answers (filter (fun r => is_suspended r = false) rs) ms ∧ closing_note suspended note.
Proof.
  unfold record_tool_results. intros ([[note s] stop] & c1 & E1 & E)%st_bind_inv.
  apply record_loop_answers in E1 as [Es (ms & Em & Hms)]. cbn in Es. subst s.
  destruct (omap from_tool_result rs) as [|call calls].
  - apply st_bind_inv in E as ([] & c2 & E2 & E). apply st_bind_inv in E as ([] & c3 & E3 & E).
    injection E as <- <-. split; [done|]. assert (messages (state c2) = messages (state c1)) as H2.
    { destruct stop; by injection E2 as <-. }
    destruct note as [n|]; injection E3 as <-; cbn [state set_state messages with_messages].
    + exists ms, [LoopEstimator.update_message_cache (user_message n)].
      rewrite H2, Em, <-app_assoc. repeat split; try done. by repeat constructor.
    + exists ms, []. rewrite app_nil_r, H2. repeat split; try done. cbn. lia.
  - injection E as <- <-. split; [done|]. exists ms, []. rewrite app_nil_r. repeat split; try done. cbn; lia.
Qed.

(** ** The calls *)

Definition calls_of (msg : ChatMessage) (calls : list ToolUseBlock) : Prop :=
  role msg = Assistant ∧
  tool_use_blocks msg = (fun tc => (tu_call_id tc, tu_tool_name tc, tu_input tc)) <$> calls.

Lemma tool_use_of_calls (text : option str) (tcs : list ToolUseBlock) :
  omap (fun b => match b with ToolUse c n i => Some (c, n, i) | _ => None end)
    (match text with Some t => [Text t] | None => [] end
     ++ ((fun tc => ToolUse (tu_call_id tc) (tu_tool_name tc) (tu_input tc)) <$> tcs)) =
  (fun tc => (tu_call_id tc, tu_tool_name tc, tu_input tc)) <$> tcs.
Proof.
  assert (∀ l : list ContentBlock, omap (fun b => match b with ToolUse c n i => Some (c, n, i) | _ => None end)
    (match text with Some t => [Text t] | None => [] end ++ l) =
    omap (fun b => match b with ToolUse c n i => Some (c, n, i) | _ => None end) l) as ->
    by by destruct text.
  induction tcs as [|tc tcs IH]; [done|]. cbn in *. by rewrite IH.
Qed.

Lemma append_assistant_calls m c a c' :
  assistant_message (turn c) = Some m → append_assistant_to_history c = (a, c') →
  ∃ msg, messages (state c') = messages (state c) ++ [msg] ∧ calls_of msg (tool_calls m).
Proof.
  intros Em. unfold append_assistant_to_history. intros (? & ? & [= <- <-] & E)%st_bind_inv.
  rewrite Em in E. apply st_bind_inv in E as (now & c1 & E1%(fr_ask (R := same_history)) & E).
  unfold push_message in E. match type of E with context [LoopEstimator.update_message_cache ?m0] => set (msg := m0) in E end.
  injection E as _ <-. exists (LoopEstimator.update_message_cache msg).
  cbn [state set_state messages with_messages]. rewrite E1. split; [done|].
  destruct (update_cache_blocks msg) as [Er Eb]. split; [by rewrite Er|].
  unfold tool_use_blocks. rewrite Eb. apply tool_use_of_calls.
Qed.

Lemma accept_appends valid invalid m c calls c' :
  assistant_message (turn c) = Some m → accept_calls valid invalid c = (calls, c') →
  calls = joins_last valid ∧
  ∃ msg, messages (state c') = messages (state c) ++ [msg] ∧ calls_of msg calls.
Proof.
  intros Em. unfold accept_calls. intros ([] & c1 & [= <-] & E)%st_bind_inv.
  apply st_bind_inv in E as ([] & c2 & E2 & E). apply st_bind_inv in E as ([] & c3 & E3 & E).
  injection E as <- <-. split; [done|].
  apply (append_assistant_calls (set_calls m (joins_last valid))) in E2 as (msg & E2 & Hmsg).
  2:{ cbn. by rewrite Em. }
  apply (moves_report_invalid same_history) in E3. exists msg. by rewrite E3, E2.
Qed.

(** The model has spoken. *)
Definition speaks (c c' : Ctx) : Prop :=
  is_Some (assistant_message (turn c)) → is_Some (assistant_message (turn c')).
#[local] Instance speaks_pre : PreOrder speaks.
Proof. unfold speaks. split; [intros c H; exact H|]. intros c1 c2 c3. auto. Qed.
#[local] Instance speaks_frame : Frame speaks.
Proof.
  split; [split; [apply _|..]|]; try (intros; intros ??? [= _ <-]; exact id).
  - intros A f c a c'. unfold ask. destruct (f (outer c)). intros [= _ <-]. exact id.
  - intros m ??? [= _ <-] _. by eexists.
  - intros g ??? [= _ <-] [m Em]. cbn. rewrite Em. by eexists.
Qed.
#[local] Instance speaks_turn_frame : TurnFrame policy snap speaks.
Proof.
  split.
  - intros t. unfold compress_step. moves_auto; intros ??? [= _ <-]; exact id.
  - unfold build_messages. moves_auto. intros ??? [= _ <-]. exact id.
  - apply moves_llm_call; [apply _|]. intros built. apply moves_call_provider; [apply _|..]; unfold finish_call.
    + intros ???? [= _ <-]. exact id.
    + intros. moves_auto; intros ??? [= _ <-]; exact id.
Qed.
Lemma speaks_retry tc : moves speaks (retry_invalid policy snap tc).
Proof. unfold retry_invalid, pop_message. moves_auto; intros ??? [= _ <-]; exact id. Qed.

Lemma normalized_valid c valid invalid c' :
  normalized_tool_calls c = ((valid, invalid), c') → Forall (fun tc => is_valid_tool_call tc = true) valid.
Proof.
  unfold normalized_tool_calls. intros E. st_inv E. destruct x; [|by injection E as <- _ _].
  do 3 st_inv E. injection E as <- _ _. apply Forall_forall. intros tc Htc.
  by apply list_elem_of_filter in Htc as [? _].
Qed.
Lemma joins_last_perm tcs : joins_last tcs ≡ₚ tcs.
Proof.
  unfold joins_last. induction tcs as [|tc tcs IH]; [done|].
  destruct (decide (tu_tool_name tc = lit "join_subagent")).
  - rewrite filter_cons_False by by intros []. rewrite filter_cons_True by done.
    by rewrite <-Permutation_middle, IH.
  - rewrite filter_cons_True by done. rewrite filter_cons_False by done. cbn. by rewrite IH.
Qed.

Lemma accept_settled valid invalid c calls c' :
  is_Some (assistant_message (turn c)) →
  Forall (fun tc => is_valid_tool_call tc = true) valid →
  accept_calls valid invalid c = (calls, c') →
  Forall (fun tc => is_valid_tool_call tc = true) calls ∧
  ∃ base msg, messages (state c') = base ++ [msg] ∧ calls_of msg calls.
Proof.
  intros [m Em] Hv E. apply (accept_appends _ _ m) in E as [-> (msg & E & Hmsg)]; [|done].
  split; [by rewrite joins_last_perm|eauto].
Qed.

Lemma process_settled c calls c' :
  is_Some (assistant_message (turn c)) →
  process_llm_tool_calls policy snap c = (Ok calls, c') →
  Forall (fun tc => is_valid_tool_call tc = true) calls ∧
  ∃ base msg, messages (state c') = base ++ [msg] ∧ calls_of msg calls.
Proof.
  intros Hm. unfold process_llm_tool_calls. intros ([valid invalid] & c1 & E1 & E)%st_bind_inv.
  pose proof (normalized_valid _ _ _ _ E1) as Hv. apply (moves_normalized speaks) in E1.
  specialize (E1 Hm).
  assert (∀ c2 valid invalid, is_Some (assistant_message (turn c2)) →
    Forall (fun tc => is_valid_tool_call tc = true) valid →
    (let! calls := accept_calls valid invalid in St.ret (Ok calls : result _ AgentError)) c2 = (Ok calls, c') →
    Forall (fun tc => is_valid_tool_call tc = true) calls ∧
    ∃ base msg, messages (state c') = base ++ [msg] ∧ calls_of msg calls) as Hacc.
  { intros c2 valid' invalid' Hs Hv' (calls' & c3 & E3 & [= <- <-])%st_bind_inv. by eapply accept_settled. }
  destruct valid as [|v valid], invalid as [|tc [|tc' invalid]]; try (by eapply Hacc).
  apply st_bind_ok_inv in E as ([] & c2 & E2%speaks_retry & E). specialize (E2 E1).
  apply st_bind_inv in E as ([valid' invalid'] & c3 & E3 & E).
  eapply Hacc; [|by eapply normalized_valid|exact E].
  by apply (moves_normalized speaks) in E3; apply E3.
Qed.

(** Whether the calls of a message are executed at all. *)
Definition executes_calls (i : AgentLoopInput) (m : AssistantMessage) : bool :=
  bool_decide (tool_calls m ≠ []) && tool_execution (feature_flags snap) && runtime_view i
  && bool_decide (agent_id i ≠ None).

(** C1: when the calls of the model are executed, the history ends with the
    model's message, whose calls are valid, followed by exactly one result
    for each call that did not suspend, in call order, with the call's id and
    tool name, whatever order the batch ran in, and then at most one note. The
    suspended calls are returned in the same order, and then no note follows,
    so their results can still be put right after the others. *)
Theorem calls_and_results_pair c suspended c' m :
  run_tools policy snap c = (Ok suspended, c') →
  assistant_message (turn c) = Some m → executes_calls (input c) m = true →
  ∃ base msg calls rs ms note,
    messages (state c') = base ++ msg :: ms ++ note ∧
    calls_of msg calls ∧ Forall (fun tc => is_valid_tool_call tc = true) calls ∧
    result_ids <$> rs = call_ids <$> calls ∧ suspended = omap from_tool_result rs ∧
    Forall2 answers (filter (fun r => is_suspended r = false) rs) ms ∧
    closing_note suspended note.
Proof.
  intros E Em Hx. unfold run_tools in E. apply st_bind_inv in E as (? & ? & [= <- <-] & E).
  rewrite Em in E. apply st_bind_inv in E as (i & ? & [= <- <-] & E).
  unfold executes_calls in Hx. b2p.
  rewrite bool_decide_eq_false_2, bool_decide_eq_false_2 in E by done.
  replace (tool_execution _) with true in E. replace (runtime_view _) with true in E. cbn in E.
  apply st_bind_ok_inv in E as (calls & c1 & E1%process_settled & E); [|by eexists].
  destruct E1 as [Hv (base & msg & Eb & Hmsg)].
  apply st_bind_inv in E as (rs & c2 & E2 & E). apply st_bind_inv in E as (s & c3 & E3 & E).
  injection E as <- <-. apply record_answers in E3 as [-> (ms & note & E3 & Hms & Hnote)].
  exists base, msg, calls, rs, ms, note. split_and!; try done.
  - pose proof (moves_batch same_history _ _ _ _ _ E2) as Hh. rewrite E3, Hh, Eb, <-app_assoc. done.
  - apply execute_tool_batch_ids in E2. rewrite E2, <-list_fmap_compose.
    apply list_fmap_ext. intros ? tc _. apply build_tool_call_ids.
Qed.
End Pairs.

(** ** A witness *)

Section Witness.
Import Demo.

Definition demo_spoken : Ctx :=
  set_turn (with_assistant (Some (resp_message (demo_response (lit "let me look") demo_calls)))) demo_start.

Lemma calls_and_results_pair_witness :
  let r := run_tools demo_policy (demo_snapshot false) demo_spoken in
  r.1 = Ok [] ∧
  ∃ base msg calls rs ms note,
    messages (state r.2) = base ++ msg :: ms ++ note ∧ calls_of msg calls ∧
    result_ids <$> rs = call_ids <$> calls ∧
    Forall2 answers (filter (fun r => is_suspended r = false) rs) ms.
Proof.
  intros r. split; [vm_compute; reflexivity|].
  destruct (calls_and_results_pair demo_policy (demo_snapshot false) demo_spoken [] r.2
    (resp_message (demo_response (lit "let me look") demo_calls)))
    as (base & msg & calls & rs & ms & note & E & Hc & _ & Hi & _ & Ha & _).
  - vm_compute. reflexivity.
  - reflexivity.
  - vm_compute. reflexivity.
  - exists base, msg, calls, rs, ms, note. auto.
Defined.
End Witness.
