(* ===== verification/UrlFallback.v ===== *)
(** * Endpoint candidates and error classes

    crates/llm-client/src/url_fallback.rs: the URLs tried for a configured
    base, and which errors mean the next URL, a wrong configuration or a
    passing failure of the network. *)

From S2P Require Import Prelude RStr F64 Message Budget Stream.

(** ** Strings *)

Definition ends_with (p s : str) : bool := bool_decide (is_Some (strip_suffix p s)).
Fixpoint trim_start_char (c : char) (s : str) : str :=
  match s with
  | [] => []
  | d :: s' => if (d =? c)%N then trim_start_char c s' else s
  end.
(** [trim_end_matches] of a character. *)
Definition trim_end_char (c : char) (s : str) : str := reverse (trim_start_char c (reverse s)).
(** The text before the first of some characters. *)
Fixpoint before_any (cs : list char) (s : str) : str :=
  match s with
  | [] => []
  | c :: s => if bool_decide (c ∈ cs) then [] else c :: before_any cs s
  end.
(** The text from the first occurrence of a character on. *)
Fixpoint from_char (c : char) (s : str) : option str :=
  match s with
  | [] => None
  | d :: s' => if (d =? c)%N then Some s else from_char c s'
  end.
(** [u16::from_str]. *)
Definition digit (c : char) : option Z :=
  if (48 <=? c)%N && (c <=? 57)%N then Some (Z.of_N c - 48) else None.
Fixpoint parse_digits (max acc : Z) (s : str) : option Z :=
  match s with
  | [] => Some acc
  | c :: s =>
      match digit c with
      | None => None
      | Some d => let acc := acc * 10 + d in if acc <=? max then parse_digits max acc s else None
      end
  end.
Definition parse_u16 (s : str) : option Z :=
  match s with
  | 43%N :: (_ :: _) as ds => parse_digits 65535 0 (drop 1 s)
  | [] | [43%N] => None
  | _ => parse_digits 65535 0 s
  end.

Abbreviation slash := 47%N.
Definition trim_slashes : str → str := trim_end_char slash.

(** ** Candidates *)

Definition is_chat_completions_endpoint (base : str) : bool :=
  ends_with (lit "/chat/completions") (trim_slashes (before_any [63; 35]%N base)).

Definition has_version_path (base : str) : bool :=
  ends_with (lit "/v1") base || ends_with (lit "/v4") base || contains (lit "/v1/") base
  || contains (lit "/v4/") base || contains (lit "/api/v1") base || contains (lit "/api/paas/v4") base.

Definition build_base_url_candidates (original_base : str) : list str :=
  let base := trim_slashes original_base in
  if is_chat_completions_endpoint base then [base]
  else
    [base]
    ++ (if negb (has_version_path base) then [base ++ lit "/v1"] else [])
    ++ (if negb (contains (lit "/paas") base) && negb (has_version_path base)
        then [base ++ lit "/v4"] else []).

Definition build_endpoint_paths (base : str) : list str :=
  let base := trim_slashes base in
  lit "/chat/completions"
  :: (if negb (has_version_path base) then [lit "/v1/chat/completions"] else []).

Definition normalize_url_duplicates (url : str) : str :=
  let url := trim_slashes url in
  if contains (lit "/v1/v1") url then replace (lit "/v1/v1") (lit "/v1") url
  else if contains (lit "/v4/v4") url then replace (lit "/v4/v4") (lit "/v4") url
  else url.

(** The two loops: the URLs so far and what has been seen. *)
Definition push_base (st : list str * list str) (base : str) : list str * list str :=
  let '(final, seen) := st in
  let url := trim_slashes base in
  if bool_decide (url ∈ seen) then st else (final ++ [url], url :: seen).
Definition push_url (st : list str * list str) (url : str) : list str * list str :=
  let '(final, seen) := st in
  let normalized := normalize_url_duplicates url in
  if bool_decide (normalized ∈ seen) then st else (final ++ [url], normalized :: seen).
Definition endpoint_urls (base : str) : list str :=
  if is_chat_completions_endpoint base then []
  else (fun path => trim_slashes base ++ path) <$> build_endpoint_paths base.
Definition build_final_candidates (base_candidates : list str) : list str :=
  (foldl push_url (foldl push_base ([], []) base_candidates) (base_candidates ≫= endpoint_urls)).1.

(** ** Classes of errors *)

Definition http_status_code (msg : str) : option Z :=
  rest ← strip_prefix (lit "HTTP ") msg;
  code ← head (split_whitespace rest);
  parse_u16 code.

Definition URL_PATH_ERROR_KEYWORDS : list str := [lit "url error"].

Section Classes.
Context `{JP : JsonParse}.

Definition is_url_path_error_response (message : str) : bool :=
  if negb (bool_decide (http_status_code message = Some 400)) then false
  else
    match from_char 123%N message ≫= json_from_str with
    | None => false
    | Some body =>
        let error_message :=
          match json_get body (lit "message") ≫= as_str with
          | Some m => Some m
          | None => (json_get body (lit "error") ≫= (fun e => json_get e (lit "message"))) ≫= as_str
          end in
        match error_message with
        | None => false
        | Some m =>
            let normalized := to_ascii_lowercase (trim m) in
            existsb (fun keyword => contains keyword normalized) URL_PATH_ERROR_KEYWORDS
        end
    end.

Definition is_http_unauthorized_error (e : LlmError) : bool :=
  match e with ApiError msg => bool_decide (http_status_code msg = Some 401) | _ => false end.

Definition status_in (codes : list Z) (msg : str) : bool :=
  match http_status_code msg with Some c => existsb (Z.eqb c) codes | None => false end.

Definition is_endpoint_path_error (e : LlmError) : bool :=
  match e with
  | HttpError msg =>
      contains (lit "Connection failed") msg || contains (lit "timeout") msg
      || contains (lit "refused") msg || contains (lit "connect") msg
  | ApiError msg =>
      is_http_unauthorized_error e || status_in [404; 405] msg || contains (lit "Not Found") msg
      || contains (lit "endpoint not found") msg || contains (lit "route not found") msg
      || contains (lit "unexpected content type") msg || contains (lit "empty stream response") msg
      || is_url_path_error_response msg
  | StreamError _ | ParseError _ | Timeout | RequestFailed _ | LlmIoError _ => true
  | _ => false
  end.

Definition is_configuration_error (e : LlmError) : bool :=
  match e with
  | ApiError msg =>
      if is_endpoint_path_error e then false
      else status_in [400; 403] msg || contains (lit "Bad Request") msg || contains (lit "Invalid") msg
           || contains (lit "invalid_request_error") msg
  | AuthError _ | ModelNotFound _ | RateLimited _ _ | ContextLengthExceeded _ => true
  | _ => false
  end.

Definition is_retryable_network_error (e : LlmError) : bool :=
  match e with
  | Timeout | LlmIoError _ | StreamError _ | ParseError _ => true
  | ApiError msg =>
      status_in [502; 503; 504] msg || contains (lit "Bad Gateway") msg
      || contains (lit "Service Unavailable") msg || contains (lit "Gateway Timeout") msg
      || contains (lit "timeout") msg || contains (lit "network") msg || contains (lit "connection") msg
  | _ => false
  end.

Definition should_try_next_candidate (e : LlmError) : bool := is_endpoint_path_error e.
End Classes.

Example candidates_ex :
  build_final_candidates (build_base_url_candidates (lit "https://h/api/")) =
  lit <$> ["https://h/api"; "https://h/api/v1"; "https://h/api/v4"; "https://h/api/chat/completions";
           "https://h/api/v1/chat/completions"; "https://h/api/v4/chat/completions"].
Proof. vm_compute. reflexivity. Qed.
Example status_ex : http_status_code (lit "HTTP 401 Unauthorized: no") = Some 401.
Proof. vm_compute. reflexivity. Qed.
