(* ===== verification/RetryPolicy.v ===== *)
(** * Retries of provider calls

    crates/llm-client/src/request_policy.rs: which errors are retried, how long
    to wait, and the loop with its budgets. Time is in nanoseconds; the
    provider, the random numbers and how late timers fire are the outside. *)

From S2P Require Import Prelude RStr F64 F64Round DurationF64 Message Budget Stream UrlFallback.

Definition secs (n : Z) : Z := n * 1000000000.
Definition millis (n : Z) : Z := n * 1000000.

Definition REQUEST_TOTAL_BUDGET : Z := secs 180.
Definition REQUEST_OVERALL_BUDGET : Z := secs 360.
Definition BACKGROUND_REQUEST_TOTAL_BUDGET : Z := secs 120.
Definition BACKGROUND_REQUEST_OVERALL_BUDGET : Z := secs 240.
Definition STREAM_FIRST_CHUNK_TIMEOUT : Z := secs 60.
Definition STREAM_IDLE_TIMEOUT : Z := secs 30.
Definition MAX_NON_STREAM_RETRIES : Z := 5.
Definition MAX_STREAM_RETRIES : Z := 3.
Definition RETRY_BACKOFF_BASE : Z := millis 200.
Definition MAX_RETRY_BACKOFF : Z := secs 5.
Definition RATE_LIMITED_BACKOFF_CAP : Z := secs 120.
Definition MAX_STREAM_RATE_LIMIT_RETRIES : Z := 5.

Definition stream_deadline (bytes_received : Z) : Z :=
  if bytes_received =? 0 then STREAM_FIRST_CHUNK_TIMEOUT else STREAM_IDLE_TIMEOUT.

(** A duration within a budget, if there is one, up to the lateness of the timer. *)
Definition within_budget (budget : option Z) (took late : Z) : Prop :=
  0 ≤ took ∧ 0 ≤ late ∧ ∀ b, budget = Some b → took ≤ b + late.

Section Policy.
Context `{JP : JsonParse}.

Definition is_retryable (e : LlmError) : bool :=
  match e with
  | Timeout | HttpError _ | LlmIoError _ | StreamError _ | RateLimited _ _ => true
  | ApiError _ => is_retryable_network_error e
  | _ => false
  end.
Definition is_rate_limited (e : LlmError) : bool :=
  match e with RateLimited _ _ => true | _ => false end.

(** The backoff before jitter. *)
Definition exponential (attempt : Z) : Z :=
  Z.min (RETRY_BACKOFF_BASE * Z.shiftl 1 (Z.min attempt 5)) MAX_RETRY_BACKOFF.
Definition backoff_base (e : LlmError) (attempt : Z) : Z :=
  match e with
  | RateLimited retry_after_ms _ =>
      Z.min (Z.max (millis retry_after_ms) (exponential attempt)) RATE_LIMITED_BACKOFF_CAP
  | _ => exponential attempt
  end.

(** What a retry loop asks: how long a call takes undisturbed and what it
    answers, a random number ([rand::Rng::gen_range]), and by how much a timer is late. *)
Class RetryWorld (W T : Type) := {
  call_provider_once : Z → W → (Z * result T LlmError) * W;
  gen_range : f64 → f64 → W → f64 * W;
  timer_late : W → Z * W;
}.
(** A call and a timer take time, and a random number lies in its range. *)
Class RetryLaws (W T : Type) `{RW : RetryWorld W T} := {
  call_takes_time : ∀ attempt w, 0 ≤ (call_provider_once attempt w).1.1;
  timers_not_early : ∀ w, 0 ≤ (timer_late w).1;
  gen_range_within : ∀ lo hi w, Round.regular lo → Round.regular hi → F64.lt lo hi = true →
    let x := (gen_range lo hi w).1 in Round.regular x ∧ F64.le lo x = true ∧ F64.lt x hi = true;
}.

Section Loop.
Context {W T : Type} `{RW : RetryWorld W T}.

(** An attempt with its duration, the lateness of its timer and the answer the
    loop saw, or a wait and its lateness. *)
Inductive RetryEvent :=
| Attempted (attempt took late : Z) (answer : result T LlmError)
| Slept (duration late : Z).

Record RetryState := { clock : Z; rw : W; events : list RetryEvent }.
Abbreviation M A := (St.M RetryState A).

Definition now : M Z := fun s => (clock s, s).
Definition late : M Z :=
  fun s => let '(l, w) := timer_late (rw s) in (l, {| clock := clock s; rw := w; events := events s |}).
Definition sleep (d : Z) : M () :=
  let! l := late in
  fun s => ((), {| clock := clock s + d + l; rw := rw s; events := events s ++ [Slept d l] |}).

(** [rand::thread_rng().gen_range(lo..hi)]. *)
Definition random (lo hi : f64) : M f64 :=
  fun s => let '(x, w) := gen_range lo hi (rw s) in (x, {| clock := clock s; rw := w; events := events s |}).
(** The spread of a wait; [None] is the panic of [mul_f64]. *)
Definition jittered (base : Z) : M (option Z) :=
  let! factor := random (F64.of_ratio 8 10) (F64.of_ratio 12 10) in
  St.ret (Duration.mul_f64 base factor).
Definition rate_limit_jittered (base : Z) : M (option Z) :=
  let! factor := random F64.one (F64.of_ratio 12 10) in
  St.ret (Duration.mul_f64 base factor).
Definition retry_backoff (e : LlmError) (attempt : Z) : M (option Z) :=
  (if is_rate_limited e then rate_limit_jittered else jittered) (backoff_base e attempt).

(** [tokio::time::timeout], which asks the call first. *)
Definition timed_call (budget : option Z) (attempt : Z) : M (result T LlmError) :=
  let! l := late in
  fun s => let '((took, r), w) := call_provider_once attempt (rw s) in
           let '(d, r) := match budget with
                          | Some b => if took <=? b + l then (took, r) else (b + l, Err Timeout)
                          | None => (took, r)
                          end in
           (r, {| clock := clock s + d; rw := w; events := events s ++ [Attempted attempt d l r] |}).

Definition attempt_limit (attempt_budget remaining : option Z) : option Z :=
  match attempt_budget, remaining with
  | Some a, Some r => Some (Z.min a r)
  | Some a, None => Some a
  | None, r => r
  end.

(** [None]: the fuel is used up, or a panic. *)
Fixpoint retry_loop (fuel : nat) (attempt_budget overall_deadline : option Z) (max_retries attempt : Z) :
    M (option (result T LlmError)) :=
  match fuel with
  | O => St.ret None
  | S fuel =>
      let! t := now in
      let remaining := (fun deadline => Word.saturating_sub deadline t) <$> overall_deadline in
      if bool_decide (remaining = Some 0) then
        St.ret (Some (Err (RetryExhausted attempt
          (lit "request budget exhausted before the next attempt"))))
      else
        let! answer := timed_call (attempt_limit attempt_budget remaining) attempt in
        match answer with
        | Ok response => St.ret (Some (Ok response))
        | Err error =>
            if negb (is_retryable error) then St.ret (Some (Err error))
            else
              let effective_max_retries :=
                if bool_decide (overall_deadline = None) && is_rate_limited error
                then Z.max max_retries MAX_STREAM_RATE_LIMIT_RETRIES else max_retries in
              let exhausted := Err (RetryExhausted (attempt + 1) (llm_error_str error)) in
              if effective_max_retries <=? attempt then St.ret (Some exhausted)
              else
                let! backoff := retry_backoff error attempt in
                match backoff with
                | None => St.ret None
                | Some backoff =>
                    let! t := now in
                    if match overall_deadline with
                       | Some deadline => Word.saturating_sub deadline t <=? backoff
                       | None => false
                       end
                    then St.ret (Some exhausted)
                    else
                      let! _ := sleep backoff in
                      retry_loop fuel attempt_budget overall_deadline max_retries (attempt + 1)
                end
        end
  end.

Definition run_with_budget (fuel : nat) (attempt_budget overall_budget : option Z) (max_retries : Z) :
    M (option (result T LlmError)) :=
  let! t := now in
  retry_loop fuel attempt_budget ((fun b => t + b) <$> overall_budget) max_retries 0.

(** Enough fuel for every policy: the loop makes at most six attempts. *)
Definition policy_fuel : nat := 6.
Definition run : M (option (result T LlmError)) :=
  run_with_budget policy_fuel (Some REQUEST_TOTAL_BUDGET) (Some REQUEST_OVERALL_BUDGET)
    MAX_NON_STREAM_RETRIES.
Definition run_background : M (option (result T LlmError)) :=
  run_with_budget policy_fuel (Some BACKGROUND_REQUEST_TOTAL_BUDGET)
    (Some BACKGROUND_REQUEST_OVERALL_BUDGET) MAX_NON_STREAM_RETRIES.
Definition run_stream : M (option (result T LlmError)) :=
  run_with_budget policy_fuel None None MAX_STREAM_RETRIES.

(** ** What a run of the policy is

    Attempts numbered from [n], all but the last failed with an error worth
    retrying, each within its budget and followed by a wait of the right length;
    and the result that follows from the last of them. [left] is what remains of
    the overall budget. *)

Definition duration (e : RetryEvent) : Z :=
  match e with Attempted _ took _ _ => took | Slept d l => d + l end.
Definition lateness (e : RetryEvent) : Z :=
  match e with Attempted _ _ l _ | Slept _ l => l end.
Definition total (f : RetryEvent → Z) (es : list RetryEvent) : Z := foldr (fun e => Z.add (f e)) 0 es.
Abbreviation elapsed := (total duration).
Definition is_attempt (e : RetryEvent) : bool :=
  match e with Attempted _ _ _ _ => true | Slept _ _ => false end.
Definition attempts (es : list RetryEvent) : Z := Z.of_nat (length (List.filter is_attempt es)).

(** The retries an error may use. *)
Definition allowance (overall : option Z) (max_retries : Z) (e : LlmError) : Z :=
  if bool_decide (overall = None) && is_rate_limited e
  then Z.max max_retries MAX_STREAM_RATE_LIMIT_RETRIES else max_retries.
(** A wait honours the hint of a rate limit up to the cap, and is at most a
    fifth longer than the cap of its kind. *)
Definition wait_ok (e : LlmError) (d : Z) : Prop :=
  match e with
  | RateLimited hint _ =>
      Z.min (Z.max (millis hint) (millis 200)) RATE_LIMITED_BACKOFF_CAP
        ≤ d ≤ RATE_LIMITED_BACKOFF_CAP * 6 / 5 + 1
  | _ => millis 160 ≤ d ≤ MAX_RETRY_BACKOFF * 6 / 5 + 1
  end.
Definition spend (d : Z) (left : option Z) : option Z := (fun b => b - d) <$> left.

Inductive retry_run (attempt_budget : option Z) (max_retries : Z) :
    option Z → Z → list RetryEvent → result T LlmError → Prop :=
| run_settled left n took l r :
    within_budget attempt_budget took l → within_budget left took l → (∀ e, r = Err e → is_retryable e = false) →
    retry_run attempt_budget max_retries left n [Attempted n took l r] r
| run_gives_up left n took l e :
    within_budget attempt_budget took l → within_budget left took l → is_retryable e = true →
    (allowance left max_retries e ≤ n ∨
     ∃ b d, left = Some b ∧ wait_ok e d ∧ b - took ≤ d) →
    retry_run attempt_budget max_retries left n [Attempted n took l (Err e)]
      (Err (RetryExhausted (n + 1) (llm_error_str e)))
| run_overslept b n :
    b ≤ 0 →
    retry_run attempt_budget max_retries (Some b) n []
      (Err (RetryExhausted n (lit "request budget exhausted before the next attempt")))
| run_again left n took l e d l' es r :
    within_budget attempt_budget took l → within_budget left took l → is_retryable e = true →
    n < allowance left max_retries e → wait_ok e d → 0 ≤ l' →
    (∀ b, left = Some b → took + d < b) →
    retry_run attempt_budget max_retries (spend (took + d + l') left) (n + 1) es r →
    retry_run attempt_budget max_retries left n
      (Attempted n took l (Err e) :: Slept d l' :: es) r.

(** What the events did to the outside: every attempt is a call of the provider,
    whose answer counts unless a timer was faster. *)
Inductive threads (timers : bool) : W → list RetryEvent → W → Prop :=
| threads_done w : threads timers w [] w
| threads_random lo hi w es w' : threads timers (gen_range lo hi w).2 es w' → threads timers w es w'
| threads_late w es w' : threads timers (timer_late w).2 es w' → threads timers w es w'
| threads_attempt n w t answer w1 took l r es w' :
    call_provider_once n w = ((t, answer), w1) →
    (took = t ∧ r = answer ∨ timers = true ∧ took < t ∧ r = Err Timeout) →
    threads timers w1 es w' → threads timers w (Attempted n took l r :: es) w'
| threads_slept d l w es w' : threads timers w es w' → threads timers w (Slept d l :: es) w'.

Lemma threads_trans timers w1 es1 w2 es2 w3 :
  threads timers w1 es1 w2 → threads timers w2 es2 w3 → threads timers w1 (es1 ++ es2) w3.
Proof. induction 1; intros; cbn; eauto using threads. Qed.

(** ** The loop runs the policy *)

Lemma wait_nonneg e d : wait_ok e d → 0 ≤ d.
Proof. unfold wait_ok, RATE_LIMITED_BACKOFF_CAP, millis, secs. destruct e; lia. Qed.

Lemma exponential_range n : 0 ≤ n → millis 200 ≤ exponential n ≤ MAX_RETRY_BACKOFF.
Proof.
  intros Hn. unfold exponential, RETRY_BACKOFF_BASE, MAX_RETRY_BACKOFF, millis, secs.
  rewrite Z.shiftl_1_l. assert (1 ≤ 2 ^ Z.min n 5) by (apply (Z.pow_le_mono_r 2 0); lia). lia.
Qed.

Lemma spread_le a b : a ≤ b → a * 6 / 5 + 1 ≤ b * 6 / 5 + 1.
Proof. intros. assert (a * 6 / 5 ≤ b * 6 / 5) by (apply Z.div_le_mono; lia). lia. Qed.

Lemma backoff_base_range e n :
  0 ≤ n → 0 < backoff_base e n ≤ RATE_LIMITED_BACKOFF_CAP.
Proof.
  intros Hn. pose proof (exponential_range n Hn) as He. unfold backoff_base, MAX_RETRY_BACKOFF,
    RATE_LIMITED_BACKOFF_CAP, millis, secs in *. destruct e; lia.
Qed.

Lemma random_spec `{RL : !RetryLaws W T} lo hi s x s' :
  Round.regular lo → Round.regular hi → F64.lt lo hi = true → random lo hi s = (x, s') →
  Round.regular x ∧ F64.le lo x = true ∧ F64.lt x hi = true ∧
  clock s' = clock s ∧ events s' = events s ∧ ∀ timers, threads timers (rw s) [] (rw s').
Proof.
  intros H1 H2 H3. unfold random. pose proof (gen_range_within lo hi (rw s) H1 H2 H3) as Hx.
  destruct (gen_range lo hi (rw s)) as [x0 w] eqn:E. intros [= <- <-]. cbn in *. destruct Hx as (? & ? & ?).
  split_and!; try done. intros timers. apply (threads_random _ lo hi). rewrite E. apply threads_done.
Qed.

(** The lower end of a wait, and its upper end. *)
Lemma backoff_spread `{RL : !RetryLaws W T} e n s d s' :
  0 ≤ n → retry_backoff e n s = (d, s') →
  (∃ d', d = Some d' ∧ (if is_rate_limited e then backoff_base e n else backoff_base e n * 4 / 5) ≤ d'
    ≤ backoff_base e n * 6 / 5 + 1) ∧
  clock s' = clock s ∧ events s' = events s ∧ ∀ timers, threads timers (rw s) [] (rw s').
Proof.
  intros Hn. pose proof (backoff_base_range e n Hn) as Hb. unfold RATE_LIMITED_BACKOFF_CAP, secs in Hb.
  unfold retry_backoff. destruct (is_rate_limited e); unfold jittered, rate_limit_jittered, St.bind, St.ret.
  - destruct (random F64.one (F64.of_ratio 12 10) s) as [x s1] eqn:E. intros [= <- <-].
    apply random_spec in E as (Hx & H1 & H2 & ?); [|by vm_compute..]. split; [|done].
    exact (spread_after (backoff_base e n) ltac:(lia) x Hx H1 H2).
  - destruct (random (F64.of_ratio 8 10) (F64.of_ratio 12 10) s) as [x s1] eqn:E. intros [= <- <-].
    apply random_spec in E as (Hx & H1 & H2 & ?); [|by vm_compute..]. split; [|done].
    exact (spread_around (backoff_base e n) ltac:(lia) x Hx H1 H2).
Qed.

Lemma backoff_wait_ok `{RL : !RetryLaws W T} e n s d s' :
  0 ≤ n → retry_backoff e n s = (d, s') →
  (∃ d', d = Some d' ∧ wait_ok e d') ∧ clock s' = clock s ∧ events s' = events s ∧
  ∀ timers, threads timers (rw s) [] (rw s').
Proof.
  intros Hn ((d' & -> & Hd) & Hs)%backoff_spread; [|done]. split; [|done]. exists d'. split; [done|].
  pose proof (exponential_range n Hn) as He. pose proof (spread_le _ _ (proj2 He)) as Hs1.
  pose proof (spread_le _ _ (proj2 (backoff_base_range e n Hn))) as Hs2.
  assert (millis 160 ≤ exponential n * 4 / 5)
    by (apply Z.div_le_lower_bound; unfold millis, MAX_RETRY_BACKOFF, secs in *; lia).
  destruct e; cbn [is_rate_limited backoff_base wait_ok] in *; try (split; lia).
Qed.

Definition deadline_left (deadline : option Z) (s : RetryState) : option Z :=
  (fun d => d - clock s) <$> deadline.

Definition has_timers (ab deadline : option Z) : bool :=
  match ab, deadline with None, None => false | _, _ => true end.

Lemma late_ok `{RL : !RetryLaws W T} s l s' :
  late s = (l, s') → 0 ≤ l ∧ clock s' = clock s ∧ events s' = events s ∧
  ∀ timers, threads timers (rw s) [] (rw s').
Proof.
  unfold late. pose proof (timers_not_early (rw s)) as Hl. destruct (timer_late (rw s)) as [l0 w] eqn:E.
  intros [= <- <-]. split_and!; try done. intros timers. apply threads_late. rewrite E. apply threads_done.
Qed.

Lemma timed_call_ok `{RL : !RetryLaws W T} ab left n s r s' :
  (∀ b, ab = Some b → 0 ≤ b) → (∀ b, left = Some b → 0 < b) →
  timed_call (attempt_limit ab left) n s = (r, s') →
  ∃ took l, events s' = events s ++ [Attempted n took l r] ∧ clock s' = clock s + took ∧ 0 ≤ l ∧
          within_budget ab took l ∧ within_budget left took l ∧
          threads (has_timers ab left) (rw s) [Attempted n took l r] (rw s').
Proof.
  intros Hab Hl. unfold timed_call, St.bind. destruct (late s) as [l s1] eqn:El.
  apply late_ok in El as (Hl0 & <- & <- & Ht0). pose proof (call_takes_time n (rw s1)) as Ht.
  destruct (call_provider_once n (rw s1)) as [[t r0] w] eqn:Ec. cbn [fst] in Ht.
  assert (HT : ∀ took r, (took = t ∧ r = r0 ∨ has_timers ab left = true ∧ took < t ∧ r = Err Timeout) →
    threads (has_timers ab left) (rw s) [Attempted n took l r] w).
  { intros took r' Hr. apply (threads_trans _ _ [] _ [_] _ (Ht0 _)). eapply threads_attempt; [done..|]. apply threads_done. }
  unfold within_budget. destruct ab as [a|], left as [b|]; cbn [attempt_limit].
  all: repeat case_match; intros; simplify_eq/=; eexists _, l; split_and!; try reflexivity; try lia.
  all: try (apply HT; first [by left|right; split_and!; [done|lia|done]]).
  all: intros; simplify_eq; try specialize (Hab _ eq_refl); try specialize (Hl _ eq_refl); try lia.
Qed.

Lemma left_timers ab deadline s : has_timers ab (deadline_left deadline s) = has_timers ab deadline.
Proof. unfold has_timers, deadline_left. by destruct ab, deadline. Qed.

Lemma sleep_ok `{RL : !RetryLaws W T} d s u s' :
  sleep d s = (u, s') → ∃ l, 0 ≤ l ∧ clock s' = clock s + d + l ∧ events s' = events s ++ [Slept d l] ∧
    ∀ timers, threads timers (rw s) [Slept d l] (rw s').
Proof.
  unfold sleep, St.bind. destruct (late s) as [l s1] eqn:El.
  apply late_ok in El as (Hl0 & <- & <- & Ht0). intros [= _ <-]. exists l. split_and!; try done.
  intros timers. apply (threads_trans _ _ [] _ [_] _ (Ht0 _)). apply threads_slept, threads_done.
Qed.

(** How an attempt ends the loop. *)
Definition loop_ran (ab deadline : option Z) (mr n : Z) (s : RetryState)
    (out : option (result T LlmError) * RetryState) : Prop :=
  ∃ r es, out.1 = Some r ∧ retry_run ab mr (deadline_left deadline s) n es r ∧
    events out.2 = events s ++ es ∧ clock out.2 = clock s + elapsed es ∧
    threads (has_timers ab deadline) (rw s) es (rw out.2).

Lemma retry_loop_runs `{RL : !RetryLaws W T} ab deadline mr fuel : ∀ n s,
  (∀ b, ab = Some b → 0 ≤ b) → 0 ≤ n →
  n ≤ Z.max mr MAX_STREAM_RATE_LIMIT_RETRIES < n + Z.of_nat fuel →
  loop_ran ab deadline mr n s (retry_loop fuel ab deadline mr n s).
Proof.
  induction fuel as [|fuel IH]; intros n s Hab Hn Hf; [lia|].
  cbn [retry_loop]. unfold St.bind at 1, now at 1. cbv beta iota.
  destruct (bool_decide _) eqn:Hz.
  { apply bool_decide_eq_true in Hz. destruct deadline as [D|]; [|done].
    unfold Word.saturating_sub in Hz. cbn in Hz. injection Hz as Hz.
    eexists _, []. cbn. rewrite app_nil_r, Z.add_0_r. split_and!; try done; [|apply threads_done].
    apply run_overslept. lia. }
  apply bool_decide_eq_false in Hz.
  assert (Hl : ∀ b, deadline_left deadline s = Some b → 0 < b).
  { unfold deadline_left, Word.saturating_sub in *. destruct deadline; [|done]. cbn in *. intros b [= <-].
    assert (z - clock s ≤ 0 → False); [|lia]. intros. apply Hz. f_equal. lia. }
  assert (Hrem : (fun d => Word.saturating_sub d (clock s)) <$> deadline = deadline_left deadline s).
  { unfold deadline_left, Word.saturating_sub in *. destruct deadline; [|done]. cbn in *.
    f_equal. specialize (Hl _ eq_refl). lia. }
  rewrite Hrem. unfold St.bind at 1. destruct (timed_call _ _ _) as [answer s1] eqn:Hc.
  apply timed_call_ok in Hc as (took & l & Hev & Hclk & Hl0 & Ht1 & Ht2 & Hth); [|done..].
  rewrite left_timers in Hth.
  assert (Hend : ∀ r s2, retry_run ab mr (deadline_left deadline s) n [Attempted n took l answer] r →
    events s2 = events s1 → clock s2 = clock s1 → threads (has_timers ab deadline) (rw s1) [] (rw s2) →
    loop_ran ab deadline mr n s (Some r, s2)).
  { intros r s2 Hr He Hk Ht. exists r, [Attempted n took l answer]. cbn [fst snd]. rewrite He, Hk.
    split_and!; [done..|cbn; lia|]. apply (threads_trans _ _ [_] _ [] _ Hth Ht). }
  destruct answer as [response|e].
  { apply Hend; [|done..|apply threads_done]. by constructor. }
  destruct (is_retryable e) eqn:Hre; cbn [negb].
  2: { apply Hend; [|done..|apply threads_done]. constructor; [done..|]. by intros ? [= ->]. }
  destruct (_ <=? n) eqn:Hmax.
  { apply Hend; [|done..|apply threads_done].
    constructor; [done..|]. left. apply Z.leb_le in Hmax. revert Hmax.
    unfold allowance, deadline_left. by destruct deadline. }
  unfold St.bind at 1. destruct (retry_backoff _ _ _) as [d0 s2] eqn:Hb.
  apply backoff_wait_ok in Hb as ((d & -> & Hw) & Hclk2 & Hev2 & Hth2); [|done]. pose proof (wait_nonneg _ _ Hw).
  unfold St.bind at 1, now at 1. cbv beta iota. rewrite Hclk2, Hclk.
  destruct (match deadline with Some _ => _ | None => false end) eqn:Hd.
  { apply Hend; [|done..|apply Hth2]. constructor; [done..|]. right. destruct deadline as [D|]; [|done].
    exists (D - clock s), d. unfold Word.saturating_sub in Hd. split_and!; [done..|lia]. }
  unfold St.bind at 1. destruct (sleep d s2) as [[] s3] eqn:Hs.
  apply sleep_ok in Hs as (l' & Hl' & Hclk3 & Hev3 & Hth3).
  assert (Hspend : deadline_left deadline s3 = spend (took + d + l') (deadline_left deadline s)).
  { unfold deadline_left, spend. destruct deadline; [|done]. cbn. f_equal. lia. }
  destruct (IH (n + 1) s3) as (r & es & E & Hp & Hes & Hcs & Hth4); [done|lia| |].
  { apply Z.leb_gt in Hmax. revert Hmax. destruct (_ && _); lia. }
  exists r, (Attempted n took l (Err e) :: Slept d l' :: es). split_and!; [done| | | |].
  - rewrite Hspend in Hp. apply run_again; [done..| |exact Hw|done| |exact Hp].
    + apply Z.leb_gt in Hmax. revert Hmax. unfold allowance, deadline_left. by destruct deadline.
    + unfold deadline_left, Word.saturating_sub in *. destruct deadline; [|done]. intros b [= <-]. lia.
  - rewrite Hes, Hev3, Hev2, Hev. by rewrite <-!(assoc_L (++)).
  - rewrite Hcs, Hclk3, Hclk2, Hclk. change (elapsed (_ :: _ :: es)) with (took + (d + l' + elapsed es)). lia.
  - apply (threads_trans _ _ [_] _ (_ :: es) _ Hth). apply (threads_trans _ _ [] _ (_ :: es) _ (Hth2 _)).
    by apply (threads_trans _ _ [_] _ es _ (Hth3 _)).
Qed.

Lemma total_cons f e es : total f (e :: es) = f e + total f es.
Proof. done. Qed.
Lemma total_nil f : total f [] = 0.
Proof. done. Qed.

(** Every run keeps the budgets, up to the lateness of the timers. *)
Lemma retry_run_bounds ab mr left n es r :
  retry_run ab mr left n es r →
  0 ≤ elapsed es ∧ 0 ≤ total lateness es ∧ (∀ b, left = Some b → elapsed es ≤ Z.max 0 b + total lateness es) ∧
  n + attempts es ≤ Z.max (n + 1) (1 + match left with
                         | Some _ => mr
                         | None => Z.max mr MAX_STREAM_RATE_LIMIT_RETRIES
                         end).
Proof.
  unfold attempts.
  induction 1 as [left n took l r H1 H2 H3|left n took l e H1 H2 H3 H4|b n Hb
                 |left n took l e d l' es r H1 H2 H3 H4 H5 H6 H7 H8 (IH0 & IHl & IH1 & IH2)];
    rewrite ?total_cons; cbn [duration lateness List.filter is_attempt length] in *.
  1,2: rewrite !total_nil; destruct H2 as (? & ? & H2); split_and!; [lia..| |lia]; intros b ->;
    specialize (H2 _ eq_refl); lia.
  - rewrite !total_nil. split_and!; [lia..| |lia]. intros b' [= <-]. lia.
  - apply wait_nonneg in H5. destruct H2 as (? & ? & _). split_and!; [lia..| |].
    + intros b ->. specialize (IH1 _ eq_refl). specialize (H7 _ eq_refl). lia.
    + revert H4 IH2. unfold allowance. destruct left; cbn; [lia|]. destruct (is_rate_limited e); lia.
Qed.

(** The three policies at once. *)
Lemma run_with_budget_runs `{RL : !RetryLaws W T} ab overall mr s :
  (∀ b, ab = Some b → 0 ≤ b) → 0 ≤ mr ≤ 5 →
  ∃ r s' es, run_with_budget policy_fuel ab overall mr s = (Some r, s') ∧
    retry_run ab mr overall 0 es r ∧
    events s' = events s ++ es ∧ clock s' = clock s + elapsed es ∧
    threads (has_timers ab overall) (rw s) es (rw s').
Proof.
  intros Hab Hmr.
  assert (Hleft : deadline_left ((fun b => clock s + b) <$> overall) s = overall).
  { unfold deadline_left. destruct overall; [|done]. cbn. f_equal. lia. }
  assert (Htimers : has_timers ab ((fun b => clock s + b) <$> overall) = has_timers ab overall)
    by (unfold has_timers; by destruct ab, overall).
  unfold run_with_budget, St.bind, now.
  destruct (retry_loop_runs ab ((fun b => clock s + b) <$> overall) mr policy_fuel 0 s Hab)
    as (r & es & E & Hp & He & Hc & Ht); [lia|unfold policy_fuel, MAX_STREAM_RATE_LIMIT_RETRIES; lia|].
  rewrite Hleft in Hp. rewrite Htimers in Ht. destruct (retry_loop _ _ _ _ _ s) as [o s']. cbn in *. subst o. eauto 8.
Qed.



(** No call makes more than six attempts, and a call outside a stream is
    over within its overall budget, 360 s for the user's calls and 240 s for
    background work, whatever the provider does, up to the lateness of the timers. *)
Theorem retries_bounded `{RL : !RetryLaws W T} s :
  (∃ es, events (run s).2 = events s ++ es ∧
     clock s ≤ clock (run s).2 ≤ clock s + secs 360 + total lateness es ∧ attempts es ≤ 6) ∧
  (∃ es, events (run_background s).2 = events s ++ es ∧
     clock s ≤ clock (run_background s).2 ≤ clock s + secs 240 + total lateness es ∧ attempts es ≤ 6) ∧
  (∃ es, events (run_stream s).2 = events s ++ es ∧ attempts es ≤ 6).
Proof.
  unfold run, run_background, run_stream.
  destruct (run_with_budget_runs (Some REQUEST_TOTAL_BUDGET) (Some REQUEST_OVERALL_BUDGET)
    MAX_NON_STREAM_RETRIES s) as (r & s1 & es & -> & Hp & H3 & H4 & _); [by intros b [= <-]|done|].
  destruct (run_with_budget_runs (Some BACKGROUND_REQUEST_TOTAL_BUDGET)
    (Some BACKGROUND_REQUEST_OVERALL_BUDGET) MAX_NON_STREAM_RETRIES s)
    as (r2 & s2 & es2 & -> & Hp2 & H32 & H42 & _); [by intros b [= <-]|done|].
  destruct (run_with_budget_runs None None MAX_STREAM_RETRIES s)
    as (r3 & s3 & es3 & -> & Hp3 & H33 & H43 & _); [done..|].
  apply retry_run_bounds in Hp as (He0 & _ & He1 & Ha), Hp2 as (Hb0 & _ & Hb1 & Hb), Hp3 as (_ & _ & _ & Hc).
  specialize (He1 _ eq_refl). specialize (Hb1 _ eq_refl). cbn [snd].
  unfold REQUEST_OVERALL_BUDGET, BACKGROUND_REQUEST_OVERALL_BUDGET, MAX_NON_STREAM_RETRIES, MAX_STREAM_RETRIES,
    MAX_STREAM_RATE_LIMIT_RETRIES, secs in *.
  split_and!; [exists es|exists es2|exists es3]; split_and!; try done; lia.
Qed.
End Loop.
End Policy.

(** ** A provider with a script *)

Module RetryDemo.
#[local] Instance no_json : JsonParse := {| json_from_str _ := None |}.
(** Each call takes the next entry; after the script the calls never end. The
    random numbers are the low ends of their ranges, and timers are half a millisecond late. *)
#[local] Instance scripted : RetryWorld (list (Z * result nat LlmError)) nat := {|
  call_provider_once _ w :=
    match w with x :: w => ((Z.max 0 (x.1), x.2), w) | [] => ((secs 100000, Err Timeout), []) end;
  gen_range lo _ w := (lo, w);
  timer_late w := (500000, w)
|}.
Lemma le_self x : Round.regular x → F64.le x x = true.
Proof. intros H. apply Round.le_val; [done..|]. apply QArith_base.Qle_refl. Qed.
#[local] Instance scripted_laws : RetryLaws (list (Z * result nat LlmError)) nat.
Proof.
  constructor; cbn.
  - intros _ [|x w]; cbn; unfold secs; lia.
  - intros _. lia.
  - intros lo hi _ H1 _ H3. split_and!; [done|by apply le_self|done].
Qed.

Definition retry_start (w : list (Z * result nat LlmError)) :
    RetryState (W := list (Z * result nat LlmError)) (T := nat) :=
  {| clock := 0; rw := w; events := [] |}.

(** A rate limit, a timeout and an answer; and a provider that hangs. *)
Example run_ex :
  (run (retry_start [(secs 1, Err (RateLimited 30000 (lit "slow down"))); (secs 200, Ok 1%nat);
               (secs 2, Ok 7%nat)])).1 = Some (Ok 7%nat).
Proof. vm_compute. reflexivity. Qed.
(** The waits after a transport error begin at four fifths of 200 ms. *)
Definition waits (w : list (Z * result nat LlmError)) : list Z :=
  omap (fun e => match e with Slept d _ => Some d | _ => None end) (events (run (retry_start w)).2).
Example waits_ex : waits (replicate 3 (0, Err Timeout) ++ [(0, Ok 7%nat)]) = [millis 160; millis 320; millis 640].
Proof. vm_compute. reflexivity. Qed.
Example run_hanging_ex : clock (run (retry_start [])).2 = secs 360 + 500000.
Proof. vm_compute. reflexivity. Qed.
(** A wait that oversleeps the deadline. *)
Example overslept_ex :
  (run_with_budget policy_fuel (Some (secs 180)) (Some (millis 160 + 1)) 5
     (retry_start [(0, Err Timeout); (0, Ok 7%nat)])).1
  = Some (Err (RetryExhausted 1 (lit "request budget exhausted before the next attempt"))).
Proof. vm_compute. reflexivity. Qed.

Lemma retries_bounded_witness :
  ∃ es : list (RetryEvent (T := nat)), clock (run_background (retry_start [])).2 ≤ secs 240 + total lateness es.
Proof.
  destruct (retries_bounded (retry_start [])) as (_ & (es & _ & [_ H] & _) & _). exists es. exact H.
Defined.
End RetryDemo.
