(* ===== verification/ProviderWrapper.v ===== *)
(** * Provider calls with hooks and retries

    crates/llm-client/src/factory/wrapper.rs: a call of the provider through its
    wrapper: pre-hooks that may rewrite the request, the call under its retry
    policy ([RetryPolicy]), post-hooks that may rewrite the answer or error
    hooks that may recover from the error, and the trace spans around them. A
    runtime view is its registry of hookers. *)

From S2P Require Import Prelude RStr F64 Message Budget Estimator Compaction Summary.
From S2P Require Import Stream HostPath LocalPolicy HookPoint ToolCall.
From S2P Require Import F64Round DurationF64 UrlFallback RetryPolicy.

(** ** Hooks of a provider call *)

Section Types.
Context `{JT : JsonText}.

Inductive PreLlmHookResult := LlmAllow | LlmTransformRequest (modified_request : LlmRequest).
Inductive PostLlmHookResult := LlmAccept | LlmTransformResponse (modified_response : LlmResponse).
Inductive ErrorLlmHookResult := LlmPropagate | LlmRecover (response : LlmResponse).

Inductive LlmHookInput :=
| PreInput (request : LlmRequest)
| PostInput (request : LlmRequest) (response : LlmResponse)
| ErrorInput (request : LlmRequest) (error : Budget.LlmError).
Inductive LlmHookPrimary :=
| PreOutput (r : PreLlmHookResult)
| PostOutput (r : PostLlmHookResult)
| ErrorOutput (r : ErrorLlmHookResult)
| OtherOutput (category : HookPointCategory).

Inductive TraceOutcome := SpanOk | SpanError | SpanDenied | SpanCancelled.
Definition trace_outcome_for_error (e : Budget.LlmError) : TraceOutcome :=
  match e with Cancelled => SpanCancelled | _ => SpanError end.

Inductive SpanName := CallSpan | HookSpan (hooker : str).
#[global] Instance SpanName_eq_dec : EqDecision SpanName.
Proof. solve_decision. Defined.
(** What a call does to the outside, oldest first. *)
Inductive CallEffect :=
| SpanBegun (name : SpanName)
| SpanEnded (name : SpanName) (outcome : TraceOutcome)
| AskedHooker (id : str) (input : LlmHookInput) (answer : result LlmHookPrimary HookInvokeError)
| Shown (chunk : Z * StreamChunk).

(** The provider inside the wrapper: how long a call takes, what it streams
    and answers; random numbers and the lateness of timers, the hookers, the debug text of an
    answer, and what is left of the outside when a stream is dropped. *)
Class ProviderWorld (W : Type) := {
  inner_complete : LlmRequest → W → (Z * result LlmResponse Budget.LlmError) * W;
  inner_stream : LlmRequest → W →
    (Z * list (Z * StreamChunk) * result LlmResponse Budget.LlmError) * W;
  instant : W → Z;
  random_range : f64 → f64 → W → f64 * W;
  wakes_late : W → Z * W;
  llm_hooker_invoke : Hooker → LlmHookInput → W → result LlmHookPrimary HookInvokeError * W;
  primary_debug : LlmHookPrimary → str;
  stream_dropped : W → W;
}.
Class ProviderLaws (W : Type) `{PW : ProviderWorld W} := {
  complete_takes_time : ∀ r w, 0 ≤ (inner_complete r w).1.1;
  stream_takes_time : ∀ r w, 0 ≤ (inner_stream r w).1.1.1;
  wakes_not_early : ∀ w, 0 ≤ (wakes_late w).1;
  random_in_range : ∀ lo hi w, Round.regular lo → Round.regular hi → F64.lt lo hi = true →
    let x := (random_range lo hi w).1 in Round.regular x ∧ F64.le lo x = true ∧ F64.lt x hi = true;
}.
End Types.

Section Wrapper.
Context `{JT : JsonText} `{JP : JsonParse} `{UC : UnicodeCase}.
Context {W : Type} `{PW : !ProviderWorld W}.

(** ** Retries *)

Definition reset_chunk : StreamChunk :=
  {| chunk_reset := true; delta_text := None; delta_reasoning := None |}.

(** What the closures given to the retry policy do. *)
Definition complete_closure (request : LlmRequest) : RetryWorld W LlmResponse := {|
  call_provider_once _ w := inner_complete request w;
  gen_range := random_range;
  timer_late := wakes_late;
|}.
Definition stream_closure (request : LlmRequest) :
    RetryWorld (W * list (Z * StreamChunk)) LlmResponse := {|
  call_provider_once attempt '(w, shown) :=
    let shown := if 0 <? attempt then shown ++ [(instant w, reset_chunk)] else shown in
    let '((took, chunks, answer), w) := inner_stream request w in
    ((took, answer), (w, shown ++ chunks));
  gen_range lo hi '(w, shown) := let '(x, w) := random_range lo hi w in (x, (w, shown));
  timer_late '(w, shown) := let '(l, w) := wakes_late w in (l, (w, shown));
|}.

Record CallState := { call_clock : Z; outside_world : W; call_log : list CallEffect }.
Abbreviation M A := (St.M CallState A).

Definition note (es : list CallEffect) : M () :=
  fun s => ((), {| call_clock := call_clock s; outside_world := outside_world s;
                   call_log := call_log s ++ es |}).

Definition complete_with_retry (request : LlmRequest) (budget : RetryBudget) :
    M (option (result LlmResponse Budget.LlmError)) :=
  fun s =>
    let start := {| clock := call_clock s; rw := outside_world s; events := [] |} in
    let '(r, e) := match budget with
                   | Foreground => run (RW := complete_closure request) start
                   | Background => run_background (RW := complete_closure request) start
                   end in
    (r, {| call_clock := clock e; outside_world := rw e; call_log := call_log s |}).

(** The stream with its retries, and what it shows. *)
Definition complete_stream_with_retry (request : LlmRequest) (s : CallState) :
    option (result LlmResponse Budget.LlmError) * list (Z * StreamChunk) * CallState :=
  let start := {| clock := call_clock s; rw := (outside_world s, []); events := [] |} in
  let '(r, e) := run_stream (RW := stream_closure request) start in
  let '(w, shown) := rw e in
  (r, shown, {| call_clock := clock e; outside_world := w; call_log := call_log s |}).

(** ** The wrapper *)

Record LlmProviderWrapper := {
  wrapper_agent_id : option str;
  default_runtime_view : option HookerRegistryImpl;
}.

Definition build_llm_hook_point (wr : LlmProviderWrapper) (stage : str) : option str :=
  (fun id => id ++ lit ".Llm.complete." ++ stage) <$> wrapper_agent_id wr.

Definition has_enabled_pre_hooks (wr : LlmProviderWrapper) (view : option HookerRegistryImpl) : bool :=
  match view, build_llm_hook_point wr (lit "pre") with
  | Some registry, Some point =>
      existsb (fun h => is_enabled registry (hooker_id h)) (list_for_hook_point registry point)
  | _, _ => false
  end.

(** The start of each hook sequence: the hookers, or why it cannot run. *)
Definition llm_stage_hookers (wr : LlmProviderWrapper) (view : option HookerRegistryImpl)
    (stage : str) (expected : HookPointCategory) : result (list Hooker) Budget.LlmError :=
  match view, build_llm_hook_point wr stage with
  | Some registry, Some point =>
      match resolve_hook_point_category point with
      | Err e => Err (RequestFailed (lit "failed to resolve " ++ stage
                        ++ lit "-hook category (hook_point='" ++ point ++ lit "'): "
                        ++ build_error_str e))
      | Ok category =>
          if decide (category = expected) then Ok (phase_hookers registry point)
          else Err (RequestFailed (stage ++ lit "-hook sequence expected "
                      ++ category_debug expected ++ lit " category but got "
                      ++ category_debug category ++ lit " for hook point " ++ point))
      end
  | _, _ => Ok []
  end.

(** A hooker is asked inside a span of its own. *)
Definition ask_hooker (h : Hooker) (input : LlmHookInput) :
    M (result LlmHookPrimary HookInvokeError) :=
  fun s =>
    let '(answer, w) := llm_hooker_invoke h input (outside_world s) in
    (answer, {| call_clock := call_clock s; outside_world := w;
                call_log := call_log s ++ [SpanBegun (HookSpan (hooker_id h));
                                           AskedHooker (hooker_id h) input answer] |}).
Definition end_hook (h : Hooker) (outcome : TraceOutcome) : M () :=
  note [SpanEnded (HookSpan (hooker_id h)) outcome].

(** [run_pre_hook_sequence] after its start: a hooker that fails is skipped. *)
Fixpoint llm_pre_loop (hs : list Hooker) (request : LlmRequest) (results : list PreLlmHookResult) :
    M (LlmRequest * list PreLlmHookResult) :=
  match hs with
  | [] => St.ret (request, results)
  | h :: hs =>
      let! output := ask_hooker h (PreInput request) in
      match output with
      | Ok (PreOutput LlmAllow) =>
          let! _ := end_hook h SpanOk in llm_pre_loop hs request (results ++ [LlmAllow])
      | Ok (PreOutput (LlmTransformRequest r)) =>
          let! _ := end_hook h SpanOk in llm_pre_loop hs r (results ++ [LlmTransformRequest r])
      | _ => let! _ := end_hook h SpanError in llm_pre_loop hs request results
      end
  end.
Definition run_llm_pre_hook_sequence (wr : LlmProviderWrapper) (view : option HookerRegistryImpl)
    (request : LlmRequest) : M (LlmRequest * result (list PreLlmHookResult) Budget.LlmError) :=
  match llm_stage_hookers wr view (lit "pre") LlmPre with
  | Err e => St.ret (request, Err e)
  | Ok hs => let! ' (request, results) := llm_pre_loop hs request [] in St.ret (request, Ok results)
  end.

Definition invoke_failed (stage : str) (h : Hooker) (point : str) (e : HookInvokeError) : Budget.LlmError :=
  RequestFailed (lit "llm " ++ stage ++ lit "-hook invoke failed for hooker '" ++ hooker_id h
    ++ lit "' (hook_point='" ++ point ++ lit "'): " ++ hook_error_str e).
Definition unexpected_output (stage : str) (h : Hooker) (point : str) (o : LlmHookPrimary) : Budget.LlmError :=
  RequestFailed (lit "llm " ++ stage ++ lit "-hooker '" ++ hooker_id h
    ++ lit "' returned unexpected output " ++ primary_debug o ++ lit " for hook_point '"
    ++ point ++ lit "'").

(** [run_post_hook_sequence] after its start: a failure ends it; what earlier
    hookers made of the answer stays. *)
Fixpoint llm_post_loop (point : str) (hs : list Hooker) (request : LlmRequest) (response : LlmResponse)
    (results : list PostLlmHookResult) :
    M (LlmResponse * result (list PostLlmHookResult) Budget.LlmError) :=
  match hs with
  | [] => St.ret (response, Ok results)
  | h :: hs =>
      let! output := ask_hooker h (PostInput request response) in
      match output with
      | Ok (PostOutput LlmAccept) =>
          let! _ := end_hook h SpanOk in
          llm_post_loop point hs request response (results ++ [LlmAccept])
      | Ok (PostOutput (LlmTransformResponse r)) =>
          let! _ := end_hook h SpanOk in
          llm_post_loop point hs request r (results ++ [LlmTransformResponse r])
      | Ok other =>
          let! _ := end_hook h SpanError in
          St.ret (response, Err (unexpected_output (lit "post") h point other))
      | Err e =>
          let! _ := end_hook h SpanError in
          St.ret (response, Err (invoke_failed (lit "post") h point e))
      end
  end.
Definition stage_point (wr : LlmProviderWrapper) (stage : str) : str :=
  default [] (build_llm_hook_point wr stage).
Definition run_llm_post_hook_sequence (wr : LlmProviderWrapper) (view : option HookerRegistryImpl)
    (request : LlmRequest) (response : LlmResponse) :
    M (LlmResponse * result (list PostLlmHookResult) Budget.LlmError) :=
  match llm_stage_hookers wr view (lit "post") LlmPost with
  | Err e => St.ret (response, Err e)
  | Ok hs => llm_post_loop (stage_point wr (lit "post")) hs request response []
  end.

Fixpoint llm_error_loop (point : str) (hs : list Hooker) (request : LlmRequest) (error : Budget.LlmError)
    (results : list ErrorLlmHookResult) : M (result (list ErrorLlmHookResult) Budget.LlmError) :=
  match hs with
  | [] => St.ret (Ok results)
  | h :: hs =>
      let! output := ask_hooker h (ErrorInput request error) in
      match output with
      | Ok (ErrorOutput r) =>
          let! _ := end_hook h SpanOk in llm_error_loop point hs request error (results ++ [r])
      | Ok other =>
          let! _ := end_hook h SpanError in
          St.ret (Err (unexpected_output (lit "error") h point other))
      | Err e =>
          let! _ := end_hook h SpanError in St.ret (Err (invoke_failed (lit "error") h point e))
      end
  end.
Definition run_llm_error_hook_sequence (wr : LlmProviderWrapper) (view : option HookerRegistryImpl)
    (request : LlmRequest) (error : Budget.LlmError) :
    M (result (list ErrorLlmHookResult) Budget.LlmError) :=
  match llm_stage_hookers wr view (lit "error") LlmError with
  | Err e => St.ret (Err e)
  | Ok hs => llm_error_loop (stage_point wr (lit "error")) hs request error []
  end.

(** ** The lifecycle of a call *)

(** [StreamWithCancel (Some k)] is a cancellation noticed after [k] chunks and
    before the stream completes; a stream that completes first is delivered. *)
Inductive ScopedCall := Complete (budget : RetryBudget) | StreamWithCancel (cancel : option nat).
Inductive ScopedCallOutcome :=
| Response (r : result LlmResponse Budget.LlmError)
| CallCancelled.

Definition outcome_of_stream (r : result LlmResponse Budget.LlmError) : ScopedCallOutcome :=
  match r with Err Cancelled => CallCancelled | _ => Response r end.

Definition scoped_call (call : ScopedCall) (request : LlmRequest) : M (option ScopedCallOutcome) :=
  match call with
  | Complete budget =>
      let! r := complete_with_retry request budget in St.ret (Response <$> r)
  | StreamWithCancel cancel =>
      fun s =>
        let '(r, shown, s') := complete_stream_with_retry request s in
        match cancel with
        | None => let '(_, s') := note (Shown <$> shown) s' in (outcome_of_stream <$> r, s')
        | Some k =>
            let '(_, s') := note (Shown <$> take k shown)
              {| call_clock := call_clock s'; outside_world := stream_dropped (outside_world s);
                 call_log := call_log s |} in
            (Some CallCancelled, s')
        end
  end.

Definition span_note (view : option HookerRegistryImpl) (e : CallEffect) : M () :=
  if bool_decide (is_Some view) then note [e] else St.ret ().

Definition first_recovery (results : list ErrorLlmHookResult) : option LlmResponse :=
  head (omap (fun r => match r with LlmRecover resp => Some resp | LlmPropagate => None end) results).
Definition is_exhausted (e : Budget.LlmError) : bool :=
  match e with RetryExhausted _ _ => true | _ => false end.

(** The error arm: hooks run unless the retries are exhausted. *)
Definition recover_or_fail (wr : LlmProviderWrapper) (view : option HookerRegistryImpl)
    (request : LlmRequest) (error : Budget.LlmError) : M (result LlmResponse Budget.LlmError) :=
  let! recovered :=
    if bool_decide (is_Some view) && negb (is_exhausted error) then
      let! results := run_llm_error_hook_sequence wr view request error in
      St.ret (match results with Ok results => first_recovery results | Err _ => None end)
    else St.ret None in
  match recovered with
  | Some response =>
      let! _ := span_note view (SpanEnded CallSpan SpanOk) in St.ret (Ok response)
  | None =>
      let! _ := span_note view (SpanEnded CallSpan (trace_outcome_for_error error)) in
      St.ret (Err error)
  end.

Definition run_scoped_lifecycle (wr : LlmProviderWrapper) (runtime_view : option HookerRegistryImpl)
    (request : LlmRequest) (call : ScopedCall) : M (option (result LlmResponse Budget.LlmError)) :=
  let view := match runtime_view with Some _ => runtime_view | None => default_runtime_view wr end in
  let! _ := span_note view (SpanBegun CallSpan) in
  let! request :=
    if has_enabled_pre_hooks wr view
    then let! ' (request, _) := run_llm_pre_hook_sequence wr view request in St.ret request
    else St.ret request in
  let! outcome := scoped_call call request in
  match outcome with
  | None => St.ret None
  | Some (Response (Ok response)) =>
      let! response :=
        if bool_decide (is_Some view)
        then let! ' (response, _) := run_llm_post_hook_sequence wr view request response in
             St.ret response
        else St.ret response in
      let! _ := span_note view (SpanEnded CallSpan SpanOk) in
      St.ret (Some (Ok response))
  | Some CallCancelled =>
      let! _ := span_note view (SpanEnded CallSpan SpanCancelled) in
      St.ret (Some (Err Cancelled))
  | Some (Response (Err error)) =>
      let! r := recover_or_fail wr view request error in St.ret (Some r)
  end.

Definition complete_scoped wr runtime_view request :=
  run_scoped_lifecycle wr runtime_view request (Complete Foreground).
Definition complete_with_budget wr request budget :=
  run_scoped_lifecycle wr None request (Complete budget).
Definition complete wr request := complete_scoped wr None request.
Definition complete_stream_scoped_with_cancel wr runtime_view request cancel :=
  run_scoped_lifecycle wr runtime_view request (StreamWithCancel cancel).
Definition complete_stream_scoped wr runtime_view request :=
  complete_stream_scoped_with_cancel wr runtime_view request None.
Definition complete_stream wr request := complete_stream_scoped wr None request.

(** ** What a call is

    The hooks of a stage are asked in order, each in a span of its own. *)

Definition hook_entry (h : Hooker) (input : LlmHookInput)
    (answer : result LlmHookPrimary HookInvokeError) (outcome : TraceOutcome) : list CallEffect :=
  [SpanBegun (HookSpan (hooker_id h)); AskedHooker (hooker_id h) input answer;
   SpanEnded (HookSpan (hooker_id h)) outcome].

(** What an answer makes of the request, the response, the recoveries;
    [None] when the answer is a failure. *)
Definition pre_answer (a : result LlmHookPrimary HookInvokeError) (r : LlmRequest) : option LlmRequest :=
  match a with
  | Ok (PreOutput LlmAllow) => Some r
  | Ok (PreOutput (LlmTransformRequest r')) => Some r'
  | _ => None
  end.
Definition post_answer (a : result LlmHookPrimary HookInvokeError) (r : LlmResponse) : option LlmResponse :=
  match a with
  | Ok (PostOutput LlmAccept) => Some r
  | Ok (PostOutput (LlmTransformResponse r')) => Some r'
  | _ => None
  end.
Definition error_answer (a : result LlmHookPrimary HookInvokeError) : option ErrorLlmHookResult :=
  match a with Ok (ErrorOutput r) => Some r | _ => None end.

(** A failing pre-hooker is passed over; a failing post- or error hooker ends
    its stage, and voids the recoveries before it. *)
Inductive pre_hooks : list Hooker → LlmRequest → list CallEffect → LlmRequest → Prop :=
| pre_done r : pre_hooks [] r [] r
| pre_next h hs r a tr r' :
    pre_hooks hs (default r (pre_answer a r)) tr r' →
    pre_hooks (h :: hs) r
      (hook_entry h (PreInput r) a (if pre_answer a r is Some _ then SpanOk else SpanError) ++ tr) r'.
Inductive post_hooks (req : LlmRequest) :
    list Hooker → LlmResponse → list CallEffect → LlmResponse → Prop :=
| post_done r : post_hooks req [] r [] r
| post_fails h hs r a :
    post_answer a r = None →
    post_hooks req (h :: hs) r (hook_entry h (PostInput req r) a SpanError) r
| post_next h hs r a r1 tr r' :
    post_answer a r = Some r1 → post_hooks req hs r1 tr r' →
    post_hooks req (h :: hs) r (hook_entry h (PostInput req r) a SpanOk ++ tr) r'.
Inductive error_hooks (req : LlmRequest) (e : Budget.LlmError) :
    list Hooker → list CallEffect → option (list ErrorLlmHookResult) → Prop :=
| error_done : error_hooks req e [] [] (Some [])
| error_fails h hs a :
    error_answer a = None →
    error_hooks req e (h :: hs) (hook_entry h (ErrorInput req e) a SpanError) None
| error_next h hs a r tr rs :
    error_answer a = Some r → error_hooks req e hs tr rs →
    error_hooks req e (h :: hs) (hook_entry h (ErrorInput req e) a SpanOk ++ tr) (cons r <$> rs).

Definition llm_hookers (wr : LlmProviderWrapper) (view : option HookerRegistryImpl)
    (stage : str) (category : HookPointCategory) : list Hooker :=
  match llm_stage_hookers wr view stage category with Ok hs => hs | Err _ => [] end.

Definition in_span (view : option HookerRegistryImpl) (outcome : TraceOutcome)
    (tr : list CallEffect) : list CallEffect :=
  if view is Some _ then SpanBegun CallSpan :: tr ++ [SpanEnded CallSpan outcome] else tr.

(** The attempts of a call were calls of the provider with [req], in full or cut
    off by a timer. *)
Inductive completions (req : LlmRequest) : list (RetryEvent (T := LlmResponse)) → Prop :=
| completions_done : completions req []
| completions_slept d l es : completions req es → completions req (Slept d l :: es)
| completions_call n took l r es w t answer w' :
    inner_complete req w = ((t, answer), w') →
    (took = t ∧ r = answer ∨ took < t ∧ r = Err Timeout) →
    completions req es → completions req (Attempted n took l r :: es).

(** The attempts of a stream, and what they show: the chunks of each, after a
    reset from the second on. *)
Inductive streams (req : LlmRequest) : list (RetryEvent (T := LlmResponse)) → list (Z * StreamChunk) → Prop :=
| streams_done : streams req [] []
| streams_slept d l es shown : streams req es shown → streams req (Slept d l :: es) shown
| streams_call n took l r es shown w chunks w' at_ :
    inner_stream req w = ((took, chunks, r), w') → streams req es shown →
    streams req (Attempted n took l r :: es)
      ((if 0 <? n then [(at_, reset_chunk)] else []) ++ chunks ++ shown).

(** The provider was called with a request under the policy of the call, showed
    some chunks and the call ended so: an answer or error of the policy; for a
    stream a cancellation, whoever noticed it. *)
Definition provider_said (call : ScopedCall) (req : LlmRequest) (shown : list (Z * StreamChunk))
    (o : ScopedCallOutcome) : Prop :=
  match call with
  | Complete budget =>
      let '(each, all) := match budget with
                          | Foreground => (secs 180, secs 360)
                          | Background => (secs 120, secs 240)
                          end in
      ∃ es r, retry_run (Some each) 5 (Some all) 0 es r ∧ completions req es ∧ shown = [] ∧ o = Response r
  | StreamWithCancel None =>
      ∃ es r, retry_run None 3 None 0 es r ∧ streams req es shown ∧
        (r = Err Cancelled ∧ o = CallCancelled ∨ r ≠ Err Cancelled ∧ o = Response r)
  | StreamWithCancel (Some k) =>
      ∃ es r all, retry_run None 3 None 0 es r ∧ streams req es all ∧ shown = take k all ∧ o = CallCancelled
  end.

Inductive lifecycle (wr : LlmProviderWrapper) (view : option HookerRegistryImpl)
    (req : LlmRequest) (call : ScopedCall) :
    list CallEffect → result LlmResponse Budget.LlmError → Prop :=
| life_answered pre req' shown resp post resp' :
    pre_hooks (llm_hookers wr view (lit "pre") LlmPre) req pre req' →
    provider_said call req' shown (Response (Ok resp)) →
    post_hooks req' (llm_hookers wr view (lit "post") LlmPost) resp post resp' →
    lifecycle wr view req call (in_span view SpanOk (pre ++ (Shown <$> shown) ++ post)) (Ok resp')
| life_cancelled pre req' shown :
    pre_hooks (llm_hookers wr view (lit "pre") LlmPre) req pre req' →
    provider_said call req' shown CallCancelled →
    lifecycle wr view req call (in_span view SpanCancelled (pre ++ (Shown <$> shown)))
      (Err Cancelled)
| life_exhausted pre req' shown e :
    pre_hooks (llm_hookers wr view (lit "pre") LlmPre) req pre req' →
    provider_said call req' shown (Response (Err e)) → is_exhausted e = true →
    lifecycle wr view req call (in_span view SpanError (pre ++ (Shown <$> shown))) (Err e)
| life_failed pre req' shown e hooks rs :
    pre_hooks (llm_hookers wr view (lit "pre") LlmPre) req pre req' →
    provider_said call req' shown (Response (Err e)) → is_exhausted e = false →
    error_hooks req' e (llm_hookers wr view (lit "error") LlmError) hooks rs →
    rs ≫= first_recovery = None →
    lifecycle wr view req call
      (in_span view (trace_outcome_for_error e) (pre ++ (Shown <$> shown) ++ hooks)) (Err e)
| life_recovered pre req' shown e hooks rs resp :
    pre_hooks (llm_hookers wr view (lit "pre") LlmPre) req pre req' →
    provider_said call req' shown (Response (Err e)) → is_exhausted e = false →
    error_hooks req' e (llm_hookers wr view (lit "error") LlmError) hooks rs →
    rs ≫= first_recovery = Some resp →
    lifecycle wr view req call
      (in_span view SpanOk (pre ++ (Shown <$> shown) ++ hooks)) (Ok resp).

(** ** Every call is one *)

(** A run of an effect appends to the log and returns. *)
Definition logs {A} (m : M A) (Q : list CallEffect → A → Prop) : Prop :=
  ∀ s, ∃ a s' tr, m s = (a, s') ∧ call_log s' = call_log s ++ tr ∧ Q tr a.

Lemma logs_ret {A} (a : A) (Q : list CallEffect → A → Prop) : Q [] a → logs (St.ret a) Q.
Proof. intros HQ s. exists a, s, []. by rewrite app_nil_r. Qed.
Lemma logs_bind {A B} (m : M A) (k : A → M B) Q R :
  logs m Q → (∀ tr a, Q tr a → logs (k a) (fun tr' => R (tr ++ tr'))) → logs (St.bind m k) R.
Proof.
  intros Hm Hk s. destruct (Hm s) as (a & s1 & tr & E1 & L1 & Q1).
  destruct (Hk tr a Q1 s1) as (b & s2 & tr2 & E2 & L2 & Q2).
  exists b, s2, (tr ++ tr2). unfold St.bind. rewrite E1, E2, L2, L1. by rewrite (assoc_L (++)).
Qed.
Lemma logs_mono {A} (m : M A) (Q R : list CallEffect → A → Prop) :
  logs m Q → (∀ tr a, Q tr a → R tr a) → logs m R.
Proof. intros Hm H s. destruct (Hm s) as (a & s1 & tr & ? & ? & ?). exists a, s1, tr. eauto. Qed.
Lemma logs_note es (Q : list CallEffect → () → Prop) : Q es () → logs (note es) Q.
Proof. intros HQ s. by eexists _, _, _. Qed.
Lemma logs_span (view : option HookerRegistryImpl) e (Q : list CallEffect → () → Prop) :
  Q (if view is Some _ then [e] else []) () → logs (span_note view e) Q.
Proof.
  unfold span_note. destruct view; [rewrite bool_decide_true by eauto; apply logs_note|].
  rewrite bool_decide_false by (intros [? ?]; discriminate). apply logs_ret.
Qed.
(** A hooker asked and its span ended. *)
Lemma logs_hook {A} h input (k : result LlmHookPrimary HookInvokeError → M A)
    R :
  (∀ a, logs (k a) (fun tr => R ([SpanBegun (HookSpan (hooker_id h));
                                  AskedHooker (hooker_id h) input a] ++ tr))) →
  logs (St.bind (ask_hooker h input) k) R.
Proof.
  intros Hk. eapply logs_bind with
    (Q := fun tr a => tr = [SpanBegun (HookSpan (hooker_id h)); AskedHooker (hooker_id h) input a]).
  - intros s. unfold ask_hooker. destruct llm_hooker_invoke as [a w]. by eexists _, _, _.
  - intros tr a ->. apply Hk.
Qed.
Lemma logs_end {A} h o (m : M A) R :
  logs m (fun tr => R (SpanEnded (HookSpan (hooker_id h)) o :: tr)) →
  logs (St.bind (end_hook h o) (fun _ => m)) R.
Proof.
  intros Hm. eapply logs_bind with (Q := fun tr _ => tr = [SpanEnded (HookSpan (hooker_id h)) o]).
  - by apply logs_note.
  - by intros tr _ ->.
Qed.

Lemma llm_pre_loop_logs hs : ∀ r rs,
  logs (llm_pre_loop hs r rs) (fun tr a => pre_hooks hs r tr a.1).
Proof.
  induction hs as [|h hs IH]; intros r rs; cbn [llm_pre_loop]; [apply logs_ret; constructor|].
  apply logs_hook. intros a.
  assert (Hk : ∀ r1 o rs1, default r (pre_answer a r) = r1 →
    o = (if pre_answer a r is Some _ then SpanOk else SpanError) →
    logs (St.bind (end_hook h o) (fun _ => llm_pre_loop hs r1 rs1))
      (fun tr x => pre_hooks (h :: hs) r
         ([SpanBegun (HookSpan (hooker_id h)); AskedHooker (hooker_id h) (PreInput r) a] ++ tr) x.1)).
  { intros r1 o rs1 Hr Ho. apply logs_end. eapply logs_mono; [apply IH|]. cbn. intros tr x Hx. subst.
    by apply (pre_next h hs r a tr x.1). }
  destruct a as [[[|r'] | | |]|]; by apply Hk.
Qed.

Lemma llm_post_loop_logs point req hs : ∀ r rs,
  logs (llm_post_loop point hs req r rs) (fun tr a => post_hooks req hs r tr a.1).
Proof.
  induction hs as [|h hs IH]; intros r rs; cbn [llm_post_loop]; [apply logs_ret; constructor|].
  apply logs_hook. intros a.
  assert (Hf : ∀ e, post_answer a r = None →
    logs (St.bind (end_hook h SpanError) (fun _ => St.ret (r, Err e)))
      (fun tr (x : LlmResponse * result (list PostLlmHookResult) Budget.LlmError) => post_hooks req (h :: hs) r
         ([SpanBegun (HookSpan (hooker_id h)); AskedHooker (hooker_id h) (PostInput req r) a] ++ tr) x.1)).
  { intros e Ha. apply logs_end. apply logs_ret. cbn. by apply post_fails. }
  assert (Hk : ∀ r1 rs1, post_answer a r = Some r1 →
    logs (St.bind (end_hook h SpanOk) (fun _ => llm_post_loop point hs req r1 rs1))
      (fun tr x => post_hooks req (h :: hs) r
         ([SpanBegun (HookSpan (hooker_id h)); AskedHooker (hooker_id h) (PostInput req r) a] ++ tr) x.1)).
  { intros r1 rs1 Ha. apply logs_end. eapply logs_mono; [apply IH|]. cbn. intros tr x Hx.
    by apply (post_next req h hs r a r1 tr x.1). }
  destruct a as [[|[|r']| |]|]; by (apply Hk || apply Hf).
Qed.

Definition result_list {A E} (rs : result A E) : option A :=
  match rs with Ok l => Some l | Err _ => None end.

Lemma llm_error_loop_logs point req e hs : ∀ rs,
  logs (llm_error_loop point hs req e rs) (fun tr a => ∃ l, error_hooks req e hs tr l ∧
    result_list a = app rs <$> l).
Proof.
  induction hs as [|h hs IH]; intros rs; cbn [llm_error_loop].
  { apply logs_ret. exists (Some []). split; [constructor|]. cbn. by rewrite app_nil_r. }
  apply logs_hook. intros a.
  assert (Hf : ∀ e0, error_answer a = None →
    logs (St.bind (end_hook h SpanError) (fun _ => St.ret (Err e0)))
      (fun tr (x : result (list ErrorLlmHookResult) Budget.LlmError) => ∃ l, error_hooks req e (h :: hs)
         ([SpanBegun (HookSpan (hooker_id h)); AskedHooker (hooker_id h) (ErrorInput req e) a] ++ tr) l ∧
         result_list x = app rs <$> l)).
  { intros e0 Ha. apply logs_end. apply logs_ret. exists None. split; [|done]. cbn. by apply error_fails. }
  destruct a as [[| |r|]|]; try by apply Hf.
  apply logs_end. eapply logs_mono; [apply IH|]. cbn. intros tr x (l & Hl & Hx).
  exists (cons r <$> l). split; [by apply (error_next req e h hs (Ok (ErrorOutput r)) r tr l)|].
  rewrite Hx. destruct l; [|done]. cbn. by rewrite <-(assoc_L (++)).
Qed.

(** Without an enabled pre-hooker the sequence has no hookers, so that not
    copying the request is the same. *)
Lemma no_pre_hooks wr view :
  has_enabled_pre_hooks wr view = false → llm_hookers wr view (lit "pre") LlmPre = [].
Proof.
  unfold has_enabled_pre_hooks, llm_hookers, llm_stage_hookers. destruct view as [reg|]; [|done].
  destruct build_llm_hook_point as [p|]; [|done]. intros Hn.
  destruct resolve_hook_point_category; [|done]. case_decide; [|done].
  unfold phase_hookers. apply Permutation_nil_r. rewrite merge_sort_Permutation.
  apply Permutation_nil_r, elem_of_nil_inv. intros h [He Hh]%list_elem_of_filter.
  apply not_true_iff_false in Hn. apply Hn. apply existsb_exists. exists h.
  split; [by apply list_elem_of_In|done].
Qed.

(** Both kinds of call return. *)
#[local] Instance complete_closure_laws `{PL : !ProviderLaws W} req :
  RetryLaws W LlmResponse (RW := complete_closure req).
Proof.
  constructor; cbn; intros.
  - apply complete_takes_time.
  - apply wakes_not_early.
  - by apply random_in_range.
Qed.
#[local] Instance stream_closure_laws `{PL : !ProviderLaws W} req :
  RetryLaws (W * list (Z * StreamChunk)) LlmResponse (RW := stream_closure req).
Proof.
  constructor; cbn.
  - intros attempt [w shown]. pose proof (stream_takes_time req w).
    by destruct inner_stream as [[[took chunks] answer] w'].
  - intros [w shown]. pose proof (wakes_not_early w). by destruct wakes_late.
  - intros lo hi [w shown] H1 H2 H3. pose proof (random_in_range lo hi w H1 H2 H3). by destruct random_range.
Qed.

Lemma threads_completions req timers w es w' :
  threads (RW := complete_closure req) timers w es w' → completions req es.
Proof.
  induction 1 as [| | |n w t answer w1 took l r es w' Hc Hr _ IH|]; [constructor|done|done| |by constructor].
  eapply completions_call; [exact Hc| |done]. naive_solver.
Qed.
Lemma threads_streams req w es w' :
  threads (RW := stream_closure req) false w es w' → ∃ shown, streams req es shown ∧ w'.2 = w.2 ++ shown.
Proof.
  induction 1 as [w|lo hi [w sh] es w' _ IH|[w sh] es w' _ IH|n [w sh] t answer w1 took l r es w' Hc Hr _ IH|d l w es w' _ IH].
  - exists []. rewrite app_nil_r. split; [constructor|done].
  - cbn in IH. destruct (random_range lo hi w). exact IH.
  - cbn in IH. destruct (wakes_late w). exact IH.
  - cbn in Hc. destruct (inner_stream req w) as [[[t0 chunks] a0] w2] eqn:Ei. injection Hc as -> -> <-.
    destruct IH as (shown & Hs & E). destruct Hr as [[-> ->]|[[=] _]]. eexists. split; [by eapply streams_call|].
    rewrite E. cbn. destruct (0 <? n); cbn; by rewrite <-?(assoc_L (++)).
  - destruct IH as (shown & Hs & E). exists shown. split; [by constructor|done].
Qed.

Lemma complete_returns `{PL : !ProviderLaws W} req budget s :
  ∃ r s', complete_with_retry req budget s = (Some r, s') ∧ call_log s' = call_log s ∧
    provider_said (Complete budget) req [] (Response r).
Proof.
  unfold complete_with_retry, run, run_background, provider_said. destruct budget.
  - destruct (run_with_budget_runs (RL := complete_closure_laws req) (Some REQUEST_TOTAL_BUDGET)
      (Some REQUEST_OVERALL_BUDGET) MAX_NON_STREAM_RETRIES
      {| clock := call_clock s; rw := outside_world s; events := [] |}) as (r & e & es & -> & Hr & _ & _ & Ht);
      [by intros b [= <-]|done|]. eexists _, _. split_and!; [done..|]. exists es, r. split_and!; try done.
    by eapply threads_completions.
  - destruct (run_with_budget_runs (RL := complete_closure_laws req) (Some BACKGROUND_REQUEST_TOTAL_BUDGET)
      (Some BACKGROUND_REQUEST_OVERALL_BUDGET) MAX_NON_STREAM_RETRIES
      {| clock := call_clock s; rw := outside_world s; events := [] |}) as (r & e & es & -> & Hr & _ & _ & Ht);
      [by intros b [= <-]|done|]. eexists _, _. split_and!; [done..|]. exists es, r. split_and!; try done.
    by eapply threads_completions.
Qed.
Lemma stream_returns `{PL : !ProviderLaws W} req s o shown s' :
  complete_stream_with_retry req s = (o, shown, s') →
  ∃ r es, o = Some r ∧ call_log s' = call_log s ∧ retry_run None 3 None 0 es r ∧ streams req es shown.
Proof.
  unfold complete_stream_with_retry, run_stream.
  destruct (run_with_budget_runs (RL := stream_closure_laws req) None None MAX_STREAM_RETRIES
    {| clock := call_clock s; rw := (outside_world s, []); events := [] |})
    as (r' & e & es & -> & Hr & _ & _ & Ht); [done..|].
  apply threads_streams in Ht as (sh & Hs & E). destruct (rw e) as [w sh']. cbn in E. subst sh'.
  intros [= <- <- <-]. eauto 8.
Qed.

Lemma scoped_call_logs `{PL : !ProviderLaws W} call req :
  logs (scoped_call call req) (fun tr o => ∃ o' shown, o = Some o' ∧ tr = Shown <$> shown ∧
    provider_said call req shown o').
Proof.
  intros s. destruct (scoped_call call req s) as [o s'] eqn:E.
  assert (∃ o' shown, o = Some o' ∧ call_log s' = call_log s ++ (Shown <$> shown) ∧ provider_said call req shown o')
    as (o' & shown & -> & L & Hp).
  2: { exists (Some o'), s', (Shown <$> shown). split_and!; [done..|]. by exists o', shown. }
  destruct call as [budget|cancel]; cbn [scoped_call] in E.
  - unfold St.bind, St.ret in E. destruct (complete_returns req budget s) as (r & s1 & Hr & Hlog & Hp).
    rewrite Hr in E. simplify_eq/=. exists (Response r), []. cbn. by rewrite app_nil_r.
  - destruct (complete_stream_with_retry req s) as [[r0 shown] s1] eqn:Es.
    apply stream_returns in Es as (r & es & -> & Hlog & Hr & Hs).
    destruct cancel as [k|]; cbn in E; simplify_eq/=.
    + exists CallCancelled, (take k shown). split_and!; try done. by exists es, r, shown.
    + exists (outcome_of_stream r), shown. split_and!; [done|by rewrite Hlog|]. exists es, r. split_and!; try done.
      destruct r as [x|[]]; cbn; auto.
Qed.

(** The effective view of a call. *)
Definition effective_view (wr : LlmProviderWrapper) (runtime_view : option HookerRegistryImpl) :=
  match runtime_view with Some _ => runtime_view | None => default_runtime_view wr end.

Lemma pre_phase_logs wr view req :
  logs (if has_enabled_pre_hooks wr view
        then St.bind (run_llm_pre_hook_sequence wr view req) (fun x => let '(r, _) := x in St.ret r)
        else St.ret req)
    (fun tr r => pre_hooks (llm_hookers wr view (lit "pre") LlmPre) req tr r).
Proof.
  destruct (has_enabled_pre_hooks wr view) eqn:Hp.
  2: { apply logs_ret. rewrite no_pre_hooks by done. constructor. }
  unfold run_llm_pre_hook_sequence, llm_hookers.
  destruct llm_stage_hookers as [hs|e].
  - eapply logs_bind with (Q := fun tr x => pre_hooks hs req tr x.1).
    + eapply logs_bind; [apply llm_pre_loop_logs|]. intros tr [r rs] Hr. apply logs_ret.
      by rewrite app_nil_r.
    + intros tr [r rs] Hr. apply logs_ret. by rewrite app_nil_r.
  - eapply logs_bind with (Q := fun tr x => tr = [] ∧ x.1 = req); [by apply logs_ret|].
    intros tr [r rs] [-> Hr]. cbn in Hr. subst r. apply logs_ret. constructor.
Qed.

Lemma post_phase_logs wr view req resp :
  logs (if bool_decide (is_Some view)
        then St.bind (run_llm_post_hook_sequence wr view req resp)
               (fun x => let '(r, _) := x in St.ret r)
        else St.ret resp)
    (fun tr r => post_hooks req (llm_hookers wr view (lit "post") LlmPost) resp tr r).
Proof.
  destruct view as [reg|].
  2: { rewrite bool_decide_false by (intros [? ?]; discriminate). apply logs_ret. constructor. }
  rewrite bool_decide_true by eauto. unfold run_llm_post_hook_sequence, llm_hookers.
  destruct llm_stage_hookers as [hs|e].
  - eapply logs_bind; [apply llm_post_loop_logs|].
    intros tr [r rs] Hr. apply logs_ret. by rewrite app_nil_r.
  - eapply logs_bind with (Q := fun tr x => tr = [] ∧ x.1 = resp); [by apply logs_ret|].
    intros tr [r rs] [-> Hr]. cbn in Hr. subst r. apply logs_ret. constructor.
Qed.

Lemma error_phase_logs wr view req e :
  is_exhausted e = false →
  logs (if bool_decide (is_Some view) && negb (is_exhausted e)
        then St.bind (run_llm_error_hook_sequence wr view req e)
               (fun rs => St.ret (match rs with Ok rs => first_recovery rs | Err _ => None end))
        else St.ret None)
    (fun tr r => ∃ rs, error_hooks req e (llm_hookers wr view (lit "error") LlmError) tr rs ∧
                       r = rs ≫= first_recovery).
Proof.
  intros ->. rewrite andb_true_r. destruct view as [reg|].
  2: { rewrite bool_decide_false by (intros [? ?]; discriminate). apply logs_ret.
       exists (Some []). split; [constructor|done]. }
  rewrite bool_decide_true by eauto. unfold run_llm_error_hook_sequence, llm_hookers.
  destruct llm_stage_hookers as [hs|e0].
  - eapply logs_bind; [apply llm_error_loop_logs|].
    intros tr rs (l & Hl & Hrs). apply logs_ret. exists l. rewrite app_nil_r. split; [done|].
    destruct l as [l|], rs; by simplify_eq/=.
  - eapply logs_bind with (Q := fun tr x => tr = [] ∧ x = Err e0); [by apply logs_ret|].
    intros tr rs [-> ->]. apply logs_ret. exists (Some []). split; [constructor|done].
Qed.

(** The end of the span of a call, and the span around what it did. *)
Definition ended (view : option HookerRegistryImpl) (o : TraceOutcome) : list CallEffect :=
  if view is Some _ then [SpanEnded CallSpan o] else [].
Lemma logs_finish {A} view o (a : A) :
  logs (St.bind (span_note view (SpanEnded CallSpan o)) (fun _ => St.ret a))
    (fun tr x => tr = ended view o ∧ x = a).
Proof.
  eapply logs_bind with (Q := fun tr _ => tr = ended view o); [by apply logs_span|].
  intros tr _ ->. apply logs_ret. by rewrite app_nil_r.
Qed.
Lemma span_around (view : option HookerRegistryImpl) o tr :
  (if view is Some _ then [SpanBegun CallSpan] else []) ++ tr ++ ended view o = in_span view o tr.
Proof. unfold in_span, ended. destruct view; [done|]. by rewrite app_nil_r. Qed.

Lemma span_around2 (view : option HookerRegistryImpl) o pre shown :
  (if view is Some _ then [SpanBegun CallSpan] else []) ++ pre ++ shown ++ ended view o
  = in_span view o (pre ++ shown).
Proof. by rewrite <-span_around, <-(assoc_L (++)). Qed.
Lemma span_around3 (view : option HookerRegistryImpl) o pre shown hooks :
  (if view is Some _ then [SpanBegun CallSpan] else []) ++ pre ++ shown ++ hooks ++ ended view o
  = in_span view o (pre ++ shown ++ hooks).
Proof. by rewrite <-span_around2, <-(assoc_L (++)). Qed.

Lemma recover_logs wr view req e :
  logs (recover_or_fail wr view req e) (fun tr r =>
    (is_exhausted e = true ∧ tr = ended view SpanError ∧ r = Err e) ∨
    (is_exhausted e = false ∧ ∃ hooks rs,
       error_hooks req e (llm_hookers wr view (lit "error") LlmError) hooks rs ∧
       match rs ≫= first_recovery with
       | Some resp => tr = hooks ++ ended view SpanOk ∧ r = Ok resp
       | None => tr = hooks ++ ended view (trace_outcome_for_error e) ∧ r = Err e
       end)).
Proof.
  unfold recover_or_fail. destruct (is_exhausted e) eqn:He.
  - rewrite andb_false_r. eapply logs_bind with (Q := fun tr r => tr = [] ∧ r = None);
      [by apply logs_ret|]. intros tr r [-> ->].
    eapply logs_mono; [apply logs_finish|]. intros tr r [-> ->]. left. split; [done|].
    by destruct e.
  - rewrite <-He. eapply logs_bind; [apply error_phase_logs, He|].
    intros tr r (rs & Hrs & ->). rewrite He.
    destruct (rs ≫= first_recovery) as [resp|] eqn:Hf;
      (eapply logs_mono; [apply logs_finish|]; intros tr' r [-> ->]; right; split; [done|];
       exists tr, rs; rewrite Hf; done).
Qed.

Lemma lifecycle_logs `{PL : !ProviderLaws W} wr runtime_view req call :
  logs (run_scoped_lifecycle wr runtime_view req call)
    (fun tr r => ∃ r', r = Some r' ∧ lifecycle wr (effective_view wr runtime_view) req call tr r').
Proof.
  unfold run_scoped_lifecycle. fold (effective_view wr runtime_view).
  set (view := effective_view wr runtime_view).
  eapply logs_bind with (Q := fun tr _ => tr = if view is Some _ then [SpanBegun CallSpan] else []);
    [by apply logs_span|].
  intros t0 _ ->. eapply logs_bind; [apply pre_phase_logs|]. intros pre req' Hpre.
  eapply logs_bind; [apply scoped_call_logs|]. intros ? ? (o & shown & -> & -> & Hsaid).
  destruct o as [[resp|e]|].
  - eapply logs_bind; [apply post_phase_logs|]. intros post resp' Hpost.
    eapply logs_mono; [apply logs_finish|]. intros tr r [-> ->]. exists (Ok resp'). split; [done|].
    rewrite span_around3. by eapply life_answered.
  - eapply logs_bind; [apply recover_logs|]. intros tr r Hr. apply logs_ret. exists r.
    rewrite app_nil_r. split; [done|]. destruct Hr as [(He & -> & ->)|(He & hooks & rs & Hh & Hr)].
    + rewrite span_around2. by eapply life_exhausted.
    + destruct (rs ≫= first_recovery) as [resp|] eqn:Hf; destruct Hr as [-> ->];
        rewrite span_around3; [by eapply life_recovered|by eapply life_failed].
  - eapply logs_mono; [apply logs_finish|]. intros tr r [-> ->]. exists (Err Cancelled).
    split; [done|]. rewrite span_around2. by eapply life_cancelled.
Qed.

(** C33: A call through the wrapper always returns, and what it does is one
    life of a call: the pre-hookers in order, each seeing what the earlier ones
    made of the request, then the provider with the request they left, under the
    retry policy of the call (the budgets of a foreground or background call, or
    the retries of a stream, whose earlier attempts are reset on the display);
    after an answer the post-hookers, after an error the error hookers, whose
    first recovery is the answer unless one of them fails; no hooks after
    exhausted retries, nor after the cancellation of a stream, by its caller or
    by the provider (a call without a stream cannot be cancelled by its caller).
    A hooker that fails, or a stage that cannot run, never turns an answer into
    an error. *)
Theorem call_follows_lifecycle `{PL : !ProviderLaws W} wr runtime_view req call s :
  ∃ r s' tr, run_scoped_lifecycle wr runtime_view req call s = (Some r, s') ∧
    call_log s' = call_log s ++ tr ∧
    lifecycle wr (effective_view wr runtime_view) req call tr r.
Proof.
  destruct (lifecycle_logs wr runtime_view req call s) as (r & s' & tr & H1 & H2 & r' & -> & H3).
  eauto 6.
Qed.

(** ** Spans *)

(** The open spans, innermost first; [None] when a span is ended that is not
    the innermost. *)
Fixpoint open_spans (st : list SpanName) (tr : list CallEffect) : option (list SpanName) :=
  match tr with
  | [] => Some st
  | SpanBegun n :: tr => open_spans (n :: st) tr
  | SpanEnded n _ :: tr =>
      match st with m :: st => if decide (m = n) then open_spans st tr else None | [] => None end
  | _ :: tr => open_spans st tr
  end.
Definition closed_spans (tr : list CallEffect) : Prop := ∀ st, open_spans st tr = Some st.

Lemma open_spans_app st t1 t2 : open_spans st (t1 ++ t2) = open_spans st t1 ≫= (fun st => open_spans st t2).
Proof.
  revert st. induction t1 as [|e t1 IH]; intros st; [done|]. destruct e; cbn; try apply IH.
  destruct st; [done|]. case_decide; [apply IH|done].
Qed.
Lemma closed_app t1 t2 : closed_spans t1 → closed_spans t2 → closed_spans (t1 ++ t2).
Proof. intros H1 H2 st. rewrite open_spans_app, H1. apply H2. Qed.
Lemma closed_nil : closed_spans [].
Proof. done. Qed.
Lemma closed_hook h i a o : closed_spans (hook_entry h i a o).
Proof. intros st. cbn. by case_decide. Qed.
Lemma closed_shown shown : closed_spans (Shown <$> shown).
Proof. intros st. induction shown; done. Qed.
Lemma closed_in_span view o tr : closed_spans tr → closed_spans (in_span view o tr).
Proof.
  intros Ht. destruct view; [|done]. intros st. cbn. rewrite open_spans_app, Ht. cbn.
  by case_decide.
Qed.
Lemma closed_pre hs r tr r' : pre_hooks hs r tr r' → closed_spans tr.
Proof. induction 1; [apply closed_nil|]. by apply closed_app; [apply closed_hook|]. Qed.
Lemma closed_post req hs r tr r' : post_hooks req hs r tr r' → closed_spans tr.
Proof.
  induction 1; [apply closed_nil|apply closed_hook|]. by apply closed_app; [apply closed_hook|].
Qed.
Lemma closed_error req e hs tr rs : error_hooks req e hs tr rs → closed_spans tr.
Proof.
  induction 1; [apply closed_nil|apply closed_hook|]. by apply closed_app; [apply closed_hook|].
Qed.
#[local] Hint Resolve closed_app closed_shown closed_in_span closed_pre closed_post closed_error : core.

(** However a call ends, cancelled streams included, every trace span it
    began is ended, exactly once and innermost first; and the span of the call
    itself is marked ok exactly when the call returns an answer. *)
Theorem call_closes_spans `{PL : !ProviderLaws W} wr runtime_view req call s :
  ∃ r s' tr, run_scoped_lifecycle wr runtime_view req call s = (Some r, s') ∧
    call_log s' = call_log s ++ tr ∧ closed_spans tr ∧
    (is_Some (effective_view wr runtime_view) →
     ∃ mid o, tr = SpanBegun CallSpan :: mid ++ [SpanEnded CallSpan o] ∧ closed_spans mid ∧
       (o = SpanOk ↔ is_Some (result_list r))).
Proof.
  destruct (lifecycle_logs wr runtime_view req call s) as (r & s' & tr & H1 & H2 & r' & -> & H3).
  exists r', s', tr. split_and!; [done..|inversion H3; eauto 8|].
  intros [reg Hv]. rewrite Hv in H3. inversion H3; subst; cbn [in_span]; eexists _, _;
    (split_and!; [reflexivity|eauto 8|]).
  1,5: by split.
  all: split; intros Ho; try discriminate; try (by destruct Ho).
  by destruct e.
Qed.

(** ** Retried streams *)

(** Where a stream ends that is at its attempt [n]: with the chunks of its last
    attempt, after nothing (only at the first attempt) or after a reset. *)
Definition last_attempt (req : LlmRequest) (n : Z) (shown : list (Z * StreamChunk))
    (r : result LlmResponse Budget.LlmError) (last : list (Z * StreamChunk)) : Prop :=
  ∃ w w' took answer earlier,
    inner_stream req w = ((took, last, answer), w') ∧ shown = earlier ++ last ∧
    ((n = 0 ∧ earlier = []) ∨ ∃ b t, earlier = b ++ [(t, reset_chunk)]) ∧
    (r = answer ∨ ∃ n e, answer = Err e ∧ r = Err (RetryExhausted n (llm_error_str e))).

Lemma streams_attempt req n took l r es shown :
  streams req (Attempted n took l r :: es) shown →
  ∃ w w' chunks t rest, inner_stream req w = ((took, chunks, r), w') ∧ streams req es rest ∧
    shown = (if 0 <? n then [(t, reset_chunk)] else []) ++ chunks ++ rest.
Proof. inversion 1; subst. eauto 10. Qed.
Lemma streams_wait req d l es shown : streams req (Slept d l :: es) shown → streams req es shown.
Proof. by inversion 1. Qed.

Lemma streams_last req mr left n es r shown :
  retry_run None mr left n es r → left = None → 0 ≤ n → streams req es shown →
  ∃ last, last_attempt req n shown r last.
Proof.
  intros Hr. revert shown. induction Hr as [left n took l r _ _ _|left n took l e _ _ _ _|b n _|left n took l e d l' es r _ _ _ _ _ _ _ _ IH];
    intros shown Hleft Hn; [subst left..|discriminate Hleft|subst left].
  1,2: intros (w & w' & chunks & t & rest & Ei & Hs & ->)%streams_attempt; inversion Hs; subst;
       exists chunks, w, w', took; eexists _, _; split_and!; [exact Ei|rewrite app_nil_r; reflexivity| |by eauto];
       destruct (Z.ltb_spec 0 n); [right; by exists [], t|left; split; [lia|done]].
  - intros (w & w' & chunks & t & rest & Ei & Hs%streams_wait & ->)%streams_attempt.
    destruct (IH rest eq_refl ltac:(lia) Hs) as (last & wl & wl' & tl & al & el & H1 & -> & H3 & H4).
    exists last, wl, wl', tl, al, ((if 0 <? n then [(t, reset_chunk)] else []) ++ chunks ++ el).
    split_and!; [done|by rewrite <-!app_assoc| |done].
    destruct H3 as [[? _]|(b & t' & ->)]; [lia|]. right.
    exists ((if 0 <? n then [(t, reset_chunk)] else []) ++ chunks ++ b), t'. by rewrite <-!app_assoc.
Qed.

(** After a reset the display is as at the start of a stream. *)
Lemma stream_chunks_app agent secrets sink st c1 c2 :
  stream_chunks agent secrets sink st (c1 ++ c2) =
  let '(st1, ev1) := stream_chunks agent secrets sink st c1 in
  let '(st2, ev2) := stream_chunks agent secrets sink st1 c2 in (st2, ev1 ++ ev2).
Proof.
  revert st. induction c1 as [|[t c] c1 IH]; intros st; cbn [app stream_chunks].
  - by destruct stream_chunks.
  - destruct stream_assistant_chunk as [st1 ev1]. rewrite IH.
    destruct stream_chunks as [st2 ev2]. destruct (stream_chunks _ _ _ _ c2) as [st3 ev3].
    by rewrite (assoc_L (++)).
Qed.
Lemma stream_chunks_unseen agent secrets st chunks :
  (stream_chunks agent secrets None st chunks).2 = [].
Proof.
  revert st. induction chunks as [|[t c] chunks IH]; intros st; [done|]. cbn [stream_chunks].
  unfold stream_assistant_chunk. destruct (chunk_reset c); cbn.
  - specialize (IH default_stream). by destruct stream_chunks.
  - unfold push_opt, push_delta. repeat case_match; simplify_eq/=;
      match goal with H : stream_chunks _ _ _ ?st _ = _ |- _ =>
        specialize (IH st); rewrite H in IH; exact IH end.
Qed.

(** However often a stream is retried, the state of the display and what
    it shows, answer and reasoning, are those of the last attempt alone, whose
    answer is the result of the call (or, when it is an error with no retry
    left, is reported as [RetryExhausted]). *)
Theorem retried_stream_shows_last_attempt `{PL : !ProviderLaws W} agent secrets sink req s :
  let '(r, shown, _) := complete_stream_with_retry req s in
  ∃ r' w w' took answer last,
    r = Some r' ∧ inner_stream req w = ((took, last, answer), w') ∧
    (r' = answer ∨ ∃ n e, answer = Err e ∧ r' = Err (RetryExhausted n (llm_error_str e))) ∧
    let '(st, ev) := stream_chunks agent secrets sink default_stream shown in
    let '(st1, ev1) := stream_chunks agent secrets sink default_stream last in
    st = st1 ∧ foldl show_text [] ev = foldl show_text [] ev1 ∧
    foldl show_reasoning [] ev = foldl show_reasoning [] ev1.
Proof.
  destruct (complete_stream_with_retry req s) as [[o shown] s'] eqn:Es.
  apply stream_returns in Es as (r & es & -> & _ & Hr & Hs).
  destruct (streams_last req 3 None 0 es r shown Hr eq_refl ltac:(lia) Hs)
    as (last & w & w' & took & answer & earlier & H1 & -> & H3 & H4).
  exists r, w, w', took, answer, last. split_and!; [done..|].
  destruct H3 as [[_ ->]|(b & t & ->)]; [by destruct stream_chunks|].
  rewrite <-(assoc_L (++)), stream_chunks_app.
  destruct (stream_chunks _ _ _ _ b) as [st1 ev1] eqn:E1. cbn [app stream_chunks].
  destruct (stream_chunks _ _ _ default_stream last) as [st2 ev2] eqn:E2.
  cbn. rewrite E2. split; [done|]. rewrite !foldl_app. destruct sink as [sk|]; [done|].
  pose proof (stream_chunks_unseen agent secrets default_stream b) as Hu. rewrite E1 in Hu.
  cbn in Hu. by subst ev1.
Qed.
End Wrapper.

(** ** A provider with a script *)

Module WrapperDemo.
#[local] Existing Instance demo_json.
#[local] Existing Instance ascii_case.
#[local] Instance call_json : JsonParse := {| json_from_str _ := None |}.

Definition say (t : str) : Z * StreamChunk :=
  (0, {| chunk_reset := false; delta_text := Some t; delta_reasoning := None |}).
Definition answer (t : str) : LlmResponse :=
  {| resp_message := {| am_text := Some t; am_reasoning_content := None; tool_calls := [];
                        usage := {| prompt_tokens := 1; completion_tokens := 1;
                                    usage_total_tokens := 2; cached_tokens := 0;
                                    cache_write_tokens := 0 |};
                        stop_reason := EndTurn |};
     kv_cache_chunk_hashes := [] |}.

(** The calls that fail before one succeeds. *)
#[local] Instance call_script : ProviderWorld (list Budget.LlmError) := {|
  inner_complete _ w :=
    match w with e :: w => ((secs 1, Err e), w) | [] => ((secs 1, Ok (answer (lit "hi"))), []) end;
  inner_stream _ w :=
    match w with
    | e :: w => ((secs 1, [say (lit "he")], Err e), w)
    | [] => ((secs 1, [say (lit "h"); say (lit "i")], Ok (answer (lit "hi"))), [])
    end;
  instant _ := 0;
  random_range lo _ w := (lo, w);
  wakes_late w := (1000, w);
  llm_hooker_invoke h input w :=
    (match input with
     | PreInput _ => Err (HookChat (lit "down"))
     | PostInput _ _ => Ok (PostOutput (LlmTransformResponse (answer (hooker_id h))))
     | ErrorInput _ _ => Ok (ErrorOutput (LlmRecover (answer (lit "sorry"))))
     end, w);
  primary_debug _ := [];
  stream_dropped w := w;
|}.
#[local] Instance call_script_laws : ProviderLaws (list Budget.LlmError).
Proof.
  constructor.
  - intros r [|e w]; done.
  - intros r [|e w]; done.
  - done.
  - intros lo hi w H1 _ H3. split_and!; [done|by apply RetryDemo.le_self|done].
Qed.

Definition demo_hooks : HookerRegistryImpl :=
  {| hookers := [{| hooker_id := lit "p"; hooker_point := lit "*.Llm.complete.pre" |};
                 {| hooker_id := lit "q"; hooker_point := lit "main.Llm.*.post" |};
                 {| hooker_id := lit "r"; hooker_point := lit "*.Llm.complete.error" |}];
     enabled_hookers := {[ lit "p"; lit "q"; lit "r" ]}; policies := [] |}.
Definition demo_wrapper : LlmProviderWrapper :=
  {| wrapper_agent_id := Some (lit "main"); default_runtime_view := Some demo_hooks |}.
Definition demo_request : LlmRequest := new_request [user_message (lit "hello")].
Definition call_start (w : list Budget.LlmError) : CallState :=
  {| call_clock := 0; outside_world := w; call_log := [] |}.
Definition result_text (r : option (result LlmResponse Budget.LlmError)) : option str :=
  match r with Some (Ok r) => am_text (resp_message r) | _ => None end.

(** A failing pre-hooker is passed over and the post-hooker rewrites the answer;
    an error is recovered; exhausted retries are not. *)
Example complete_ex :
  result_text (complete demo_wrapper demo_request (call_start [Timeout])).1 = Some (lit "q").
Proof. vm_compute. reflexivity. Qed.
Example recovered_ex :
  result_text (complete demo_wrapper demo_request (call_start [AuthError []])).1 = Some (lit "sorry").
Proof. vm_compute. reflexivity. Qed.
Example exhausted_ex :
  (complete_stream demo_wrapper demo_request (call_start (replicate 4 Timeout))).1
  = Some (Err (RetryExhausted 4 (llm_error_str Timeout))).
Proof. vm_compute. reflexivity. Qed.
(** Agent ids are not escaped in the hook points of a call: with a dot in
    the id no hooker is asked. *)
Example dotted_agent_ex :
  result_text (complete {| wrapper_agent_id := Some (lit "v1.main");
                           default_runtime_view := Some demo_hooks |}
                 demo_request (call_start [])).1 = Some (lit "hi").
Proof. vm_compute. reflexivity. Qed.

Lemma call_follows_lifecycle_witness :
  ∃ r s' tr, complete demo_wrapper demo_request (call_start [Timeout]) = (Some r, s') ∧
    call_log s' = [] ++ tr ∧
    lifecycle demo_wrapper (Some demo_hooks) demo_request (Complete Foreground) tr r.
Proof.
  exact (call_follows_lifecycle demo_wrapper None demo_request (Complete Foreground) (call_start [Timeout])).
Defined.
Lemma call_closes_spans_witness :
  ∃ r s' tr, complete_stream_scoped_with_cancel demo_wrapper None demo_request (Some 1%nat)
               (call_start [Timeout]) = (Some r, s') ∧
    call_log s' = tr ∧ open_spans [] tr = Some [].
Proof.
  destruct (call_closes_spans demo_wrapper None demo_request (StreamWithCancel (Some 1%nat))
    (call_start [Timeout])) as (r & s' & tr & H1 & H2 & H3 & _).
  exists r, s', tr. split; [exact H1|]. split; [exact H2|apply H3].
Defined.
Lemma retried_stream_shows_last_attempt_witness :
  ∃ last, foldl show_text [] (stream_chunks (lit "main") [] (Some {| supports_message_delta := true |})
    default_stream (complete_stream_with_retry demo_request (call_start [Timeout; Timeout])).1.2).2
  = foldl show_text [] (stream_chunks (lit "main") [] (Some {| supports_message_delta := true |})
      default_stream last).2.
Proof.
  pose proof (retried_stream_shows_last_attempt (lit "main") []
    (Some {| supports_message_delta := true |}) demo_request (call_start [Timeout; Timeout])) as H.
  destruct (complete_stream_with_retry _ _) as [[r shown] s'].
  destruct H as (r' & w & w' & took & a & last & _ & _ & _ & H). exists last.
  cbn [fst snd]. destruct (stream_chunks _ _ _ _ shown), (stream_chunks _ _ _ _ last). apply H.
Defined.
End WrapperDemo.
