(* ===== verification/Utf8.v ===== *)
(** * UTF-8 over a stream of byte chunks

    crates/llm-client/src/providers/stream_utf8.rs: decoding text that arrives
    in pieces. Bytes are numbers below 256, texts are lists of code points; the
    standard library's [str::from_utf8] and [String::from_utf8_lossy] are written
    out. *)

From S2P Require Import Prelude RStr.

Abbreviation byte := N (only parsing).
Definition REPLACEMENT : char := 65533%N.

(** ** The standard library *)

(** What stands at the start of some bytes: a code point, bytes that can never
    become one, or a code point that is cut off. *)
Inductive Utf8Step := Decoded (c : char) (len : nat) | Malformed (len : nat) | Truncated.

Definition between (a b x : N) : bool := (a <=? x)%N && (x <=? b)%N.
Definition is_continuation : byte → bool := between 128 191.
(** The second bytes that may follow a first byte. *)
Definition second_ok (b0 b1 : byte) : bool :=
  if (b0 =? 224)%N then between 160 191 b1
  else if (b0 =? 237)%N then between 128 159 b1
  else if (b0 =? 240)%N then between 144 191 b1
  else if (b0 =? 244)%N then between 128 143 b1
  else is_continuation b1.
Definition low6 (b : byte) : N := N.land b 63.

Definition utf8_step (bs : list byte) : Utf8Step :=
  match bs with
  | [] => Truncated
  | b0 :: r =>
      if (b0 <? 128)%N then Decoded b0 1
      else if between 194 223 b0 then
        match r with
        | [] => Truncated
        | b1 :: _ => if is_continuation b1
                     then Decoded (N.land b0 31 * 64 + low6 b1) 2 else Malformed 1
        end
      else if between 224 239 b0 then
        match r with
        | [] => Truncated
        | b1 :: r =>
            if negb (second_ok b0 b1) then Malformed 1
            else match r with
                 | [] => Truncated
                 | b2 :: _ =>
                     if is_continuation b2
                     then Decoded (N.land b0 15 * 4096 + low6 b1 * 64 + low6 b2) 3 else Malformed 2
                 end
        end
      else if between 240 244 b0 then
        match r with
        | [] => Truncated
        | b1 :: r =>
            if negb (second_ok b0 b1) then Malformed 1
            else match r with
                 | [] => Truncated
                 | b2 :: r =>
                     if negb (is_continuation b2) then Malformed 2
                     else match r with
                          | [] => Truncated
                          | b3 :: _ =>
                              if is_continuation b3
                              then Decoded (N.land b0 7 * 262144 + low6 b1 * 4096
                                            + low6 b2 * 64 + low6 b3) 4
                              else Malformed 3
                          end
                 end
        end
      else Malformed 1
  end.

(** [str::from_utf8]: the text, or the text before the error, where it is, and
    [Utf8Error::error_len]. *)
Fixpoint from_utf8_fuel (fuel : nat) (bs : list byte) : result str (str * nat * option nat) :=
  match fuel, bs with
  | _, [] | O, _ => Ok []
  | S fuel, _ =>
      match utf8_step bs with
      | Decoded c n =>
          match from_utf8_fuel fuel (drop n bs) with
          | Ok t => Ok (c :: t)
          | Err (t, at_, len) => Err (c :: t, (n + at_)%nat, len)
          end
      | Malformed n => Err ([], O, Some n)
      | Truncated => Err ([], O, None)
      end
  end.
Definition from_utf8 (bs : list byte) : result str (str * nat * option nat) :=
  from_utf8_fuel (length bs) bs.

(** [String::from_utf8_lossy]. *)
Fixpoint lossy_fuel (fuel : nat) (bs : list byte) : str :=
  match fuel, bs with
  | _, [] | O, _ => []
  | S fuel, _ =>
      match utf8_step bs with
      | Decoded c n => c :: lossy_fuel fuel (drop n bs)
      | Malformed n => REPLACEMENT :: lossy_fuel fuel (drop n bs)
      | Truncated => [REPLACEMENT]
      end
  end.
Definition from_utf8_lossy (bs : list byte) : str := lossy_fuel (length bs) bs.

(** [char::encode_utf8]. *)
Definition encode_char (c : char) : list byte :=
  if (c <? 128)%N then [c]
  else if (c <? 2048)%N then [(192 + c / 64)%N; (128 + c mod 64)%N]
  else if (c <? 65536)%N then
    [(224 + c / 4096)%N; (128 + c / 64 mod 64)%N; (128 + c mod 64)%N]
  else [(240 + c / 262144)%N; (128 + c / 4096 mod 64)%N; (128 + c / 64 mod 64)%N; (128 + c mod 64)%N].
Definition encode (s : str) : list byte := s ≫= encode_char.
(** The code points a [char] can be. *)
Definition is_scalar (c : char) : Prop := (c < 55296 ∨ 57344 ≤ c < 1114112)%N.

(** ** The decoder *)

Record StreamUtf8Decoder := { pending : list byte }.
Definition default_decoder : StreamUtf8Decoder := {| pending := [] |}.

(** The loop of [push], over the bytes not consumed yet. *)
Fixpoint push_loop (fuel : nat) (remaining : list byte) (output : str) : list byte * str :=
  match fuel, remaining with
  | _, [] | O, _ => (remaining, output)
  | S fuel, _ =>
      match from_utf8 remaining with
      | Ok text => ([], output ++ text)
      | Err (text, valid, error_len) =>
          let rest := drop valid remaining in
          match error_len with
          | Some invalid => push_loop fuel (drop invalid rest) (output ++ text ++ [REPLACEMENT])
          | None => (rest, output ++ text)
          end
      end
  end.
Definition push (d : StreamUtf8Decoder) (bytes : list byte) (output : str) :
    StreamUtf8Decoder * str :=
  let all := pending d ++ bytes in
  let '(rest, output) := push_loop (length all) all output in ({| pending := rest |}, output).
Definition finish (d : StreamUtf8Decoder) (output : str) : StreamUtf8Decoder * str :=
  (default_decoder, output ++ from_utf8_lossy (pending d)).

(** The bytes of a stream, pushed piece by piece. *)
Definition push_all (chunks : list (list byte)) : StreamUtf8Decoder * str :=
  foldl (fun '(d, output) bytes => push d bytes output) (default_decoder, []) chunks.

(** ** Decoding as a relation: the text so far and the bytes still pending *)

Inductive decodes : list byte → str → list byte → Prop :=
| dec_done : decodes [] [] []
| dec_truncated bs : bs ≠ [] → utf8_step bs = Truncated → decodes bs [] bs
| dec_char bs c n t p :
    utf8_step bs = Decoded c n → decodes (drop n bs) t p → decodes bs (c :: t) p
| dec_malformed bs n t p :
    utf8_step bs = Malformed n → decodes (drop n bs) t p → decodes bs (REPLACEMENT :: t) p.

Ltac utf8_cases :=
  repeat match goal with
  | |- context [if ?b then _ else _] => destruct b eqn:?; try done
  | |- context [match ?l with [] => _ | _ => _ end] => destruct l; try done
  end.

(** A code point or an error takes at least one of the bytes, and more bytes
    do not change it. *)
Lemma utf8_step_len bs :
  match utf8_step bs with
  | Decoded _ n | Malformed n => (0 < n <= length bs)%nat
  | Truncated => True
  end.
Proof. unfold utf8_step. destruct bs as [|b0 r]; [done|]. utf8_cases; cbn; lia. Qed.
Lemma utf8_step_app bs bs' :
  utf8_step bs ≠ Truncated → utf8_step (bs ++ bs') = utf8_step bs.
Proof.
  destruct bs as [|b0 r]; [done|]. cbn [app utf8_step].
  destruct (_ <? _)%N; [done|].
  destruct (between 194 223 b0); [by destruct r|].
  destruct (between 224 239 b0).
  { destruct r as [|b1 r]; [done|]. cbn [app]. destruct (negb _); [done|]. by destruct r. }
  destruct (between 240 244 b0); [|done].
  destruct r as [|b1 r]; [done|]. cbn [app]. destruct (negb _); [done|].
  destruct r as [|b2 r]; [done|]. cbn [app]. destruct (negb _); [done|]. by destruct r.
Qed.

Lemma decodes_total_len k : ∀ bs, (length bs <= k)%nat → ∃ t p, decodes bs t p.
Proof.
  induction k as [|k IH]; intros bs Hk.
  { destruct bs; [|cbn in Hk; lia]. eexists _, _. constructor. }
  destruct bs as [|b r]; [eexists _, _; constructor|].
  pose proof (utf8_step_len (b :: r)) as Hl.
  destruct (utf8_step (b :: r)) as [c n|n|] eqn:Hs.
  3: { eexists _, _. by apply dec_truncated. }
  all: destruct (IH (drop n (b :: r))) as (t & p & H); [rewrite length_drop; lia|].
  - eexists _, _. by eapply dec_char.
  - eexists _, _. by eapply dec_malformed.
Qed.
Lemma decodes_total bs : ∃ t p, decodes bs t p.
Proof. by apply (decodes_total_len (length bs)). Qed.

Lemma decodes_app bs t p bs' t' p' :
  decodes bs t p → decodes (p ++ bs') t' p' → decodes (bs ++ bs') (t ++ t') p'.
Proof.
  induction 1 as [|bs Hne Hs|bs c n t p Hs Hd IH|bs n t p Hs Hd IH]; intros H'; [done..| |];
    specialize (IH H'); pose proof (utf8_step_len bs) as Hl; rewrite Hs in Hl;
    rewrite <-drop_app_le in IH by lia.
  - eapply dec_char; [rewrite utf8_step_app; [done|by rewrite Hs]|done].
  - eapply dec_malformed; [rewrite utf8_step_app; [done|by rewrite Hs]|done].
Qed.

(** What pending bytes are at the end of a text. *)
Definition leftover (p : list byte) : str := match p with [] => [] | _ => [REPLACEMENT] end.

(** The functions compute the relation. *)
Lemma lossy_fuel_decodes bs t p :
  decodes bs t p → ∀ k, (length bs <= k)%nat →
  lossy_fuel k bs = t ++ leftover p.
Proof.
  induction 1 as [|bs Hne Hs|bs c n t p Hs Hd IH|bs n t p Hs Hd IH]; intros k Hk.
  - by destruct k.
  - destruct bs as [|b r]; [done|]. destruct k; [cbn in Hk; lia|]. cbn [lossy_fuel]. by rewrite Hs.
  - pose proof (utf8_step_len bs) as Hl. rewrite Hs in Hl. destruct bs as [|b r]; [cbn in Hl; lia|].
    destruct k; [cbn in Hk; lia|]. cbn [lossy_fuel]. rewrite Hs, IH; [done|].
    rewrite length_drop. cbn in *. lia.
  - pose proof (utf8_step_len bs) as Hl. rewrite Hs in Hl. destruct bs as [|b r]; [cbn in Hl; lia|].
    destruct k; [cbn in Hk; lia|]. cbn [lossy_fuel]. rewrite Hs, IH; [done|].
    rewrite length_drop. cbn in *. lia.
Qed.
Lemma lossy_decodes bs t p :
  decodes bs t p → from_utf8_lossy bs = t ++ leftover p.
Proof. intros H. by apply (lossy_fuel_decodes bs t p). Qed.

(** [from_utf8] decodes up to its error. *)
Lemma from_utf8_fuel_spec k : ∀ bs, (length bs <= k)%nat →
  match from_utf8_fuel k bs with
  | Ok t => decodes bs t []
  | Err (t, valid, Some n) =>
      (valid < length bs)%nat ∧ (0 < n)%nat ∧
      ∀ t' p, decodes (drop n (drop valid bs)) t' p → decodes bs (t ++ REPLACEMENT :: t') p
  | Err (t, valid, None) => decodes bs t (drop valid bs)
  end.
Proof.
  induction k as [|k IH]; intros bs Hk; (destruct bs as [|b r]; [constructor|]); [cbn in Hk; lia|].
  cbn [from_utf8_fuel]. pose proof (utf8_step_len (b :: r)) as Hl.
  destruct (utf8_step (b :: r)) as [c n|n|] eqn:Hs.
  - specialize (IH (drop n (b :: r))). rewrite length_drop in IH. specialize (IH ltac:(cbn in *; lia)).
    destruct from_utf8_fuel as [t|[[t valid] [len|]]].
    + by eapply dec_char.
    + destruct IH as (H1 & H2 & H3). split_and!; [lia|done|].
      intros t' p H. cbn [app]. eapply dec_char; [done|]. apply H3. by rewrite (drop_drop (b :: r) valid n).
    + eapply dec_char; [done|]. by rewrite <-(drop_drop (b :: r) valid n).
  - split_and!; [cbn; lia|lia|]. intros t' p H. by eapply dec_malformed.
  - by apply dec_truncated.
Qed.

Lemma push_loop_decodes k : ∀ bs out, (length bs <= k)%nat →
  ∃ t p, push_loop k bs out = (p, out ++ t) ∧ decodes bs t p.
Proof.
  induction k as [|k IH]; intros bs out Hk; (destruct bs as [|b r];
    [exists [], []; rewrite app_nil_r; split; [done|constructor]|]); [cbn in Hk; lia|].
  cbn [push_loop]. pose proof (from_utf8_fuel_spec (length (b :: r)) (b :: r) ltac:(done)) as Hf.
  fold (from_utf8 (b :: r)) in Hf. destruct from_utf8 as [t|[[t valid] [n|]]].
  - by exists t, [].
  - destruct Hf as (H1 & H2 & H3).
    destruct (IH (drop n (drop valid (b :: r))) (out ++ t ++ [REPLACEMENT])) as (t' & p & E & Hd).
    { rewrite !length_drop. cbn in *. lia. }
    exists (t ++ REPLACEMENT :: t'), p. rewrite E. split; [|by apply H3].
    by rewrite <-!(assoc_L (++)).
  - by exists t, (drop valid (b :: r)).
Qed.

Lemma push_all_decodes chunks :
  decodes (concat chunks) (push_all chunks).2 (pending (push_all chunks).1).
Proof.
  unfold push_all. induction chunks as [|bytes chunks IH] using rev_ind; [constructor|].
  rewrite foldl_app, concat_app. cbn [foldl concat]. rewrite app_nil_r.
  destruct (foldl _ _ chunks) as [d out]. unfold push. cbn [fst snd] in IH.
  destruct (push_loop_decodes (length (pending d ++ bytes)) (pending d ++ bytes) out)
    as (t & p & E & Hd); [done|]. rewrite E. by eapply decodes_app.
Qed.

(** However a text is cut into chunks on the network, also inside code
    points, the decoder outputs what [String::from_utf8_lossy] makes of all the
    bytes at once, and nothing that is final is held back: what is pending is
    empty or the start of one code point. *)
Theorem decoder_chunking chunks :
  let '(d, output) := push_all chunks in
  (finish d output).2 = from_utf8_lossy (concat chunks) ∧
  (pending d = [] ∨ utf8_step (pending d) = Truncated ∧ (length (pending d) < 4)%nat).
Proof.
  pose proof (push_all_decodes chunks) as Hd. destruct (push_all chunks) as [d output].
  cbn [fst snd finish] in *. split.
  - rewrite (lossy_decodes _ _ _ Hd). f_equal.
    clear -Hd. revert Hd. generalize (pending d) as p. induction 1; try done.
    + destruct bs as [|b r]; [done|]. unfold from_utf8_lossy. cbn [length lossy_fuel].
      cbn [leftover]. by rewrite H0.
  - clear -Hd. induction Hd as [|bs Hne Hs| |]; auto. right. split; [done|].
    revert Hs. unfold utf8_step. destruct bs as [|b0 r]; [done|]. utf8_cases; cbn; lia.
Qed.

(** ** Round trip *)


Lemma land_mod b k : N.land b (N.ones k) = (b mod 2 ^ k)%N.
Proof. apply N.land_ones. Qed.
Lemma land_high k h a : (a < 2 ^ k)%N → (h mod 2 ^ k = 0)%N → N.land (h + a) (N.ones k) = a.
Proof.
  intros Ha Hh. rewrite land_mod, N.Div0.add_mod, Hh, N.add_0_l, N.Div0.mod_mod.
  by apply N.mod_small.
Qed.

Lemma low6_cont x : (x < 64)%N → low6 (128 + x) = x.
Proof. intros. apply (land_high 6); done. Qed.
Lemma between_spec a b x : BoolSpec (a ≤ x ≤ b)%N (¬ (a ≤ x ≤ b))%N (between a b x).
Proof.
  unfold between. destruct (N.leb_spec a x), (N.leb_spec x b); constructor; lia.
Qed.
Lemma cont_cont x : (x < 64)%N → is_continuation (128 + x) = true.
Proof. intros. unfold is_continuation. destruct (between_spec 128 191 (128 + x)); [done|lia]. Qed.
(** The tests on the first two bytes. *)
Ltac byte_test b :=
  match goal with
  | |- context [(?x <? 128)%N] => replace (x <? 128)%N with b by (symmetry; apply N.ltb_ge; lia)
  | |- context [between ?p ?q ?x] =>
      replace (between p q x) with b by (destruct (between_spec p q x); [done || lia|done || lia])
  end.

(** Code points by their six-bit digits. *)
Lemma utf8_step2 a d rest : (2 ≤ a < 32)%N → (d < 64)%N →
  utf8_step ((192 + a)%N :: (128 + d)%N :: rest) = Decoded (a * 64 + d) 2.
Proof.
  intros. cbn [utf8_step]. byte_test false. byte_test true.
  rewrite cont_cont, low6_cont, (land_high 5) by (done || cbn; lia). done.
Qed.
Lemma utf8_step3 a b d rest :
  (a < 16)%N → (b < 64)%N → (d < 64)%N → (a = 0 → 32 ≤ b)%N → (a = 13 → b < 32)%N →
  utf8_step ((224 + a)%N :: (128 + b)%N :: (128 + d)%N :: rest)
  = Decoded (a * 4096 + b * 64 + d) 3.
Proof.
  intros. cbn [utf8_step]. byte_test false. byte_test false. byte_test true.
  replace (second_ok _ _) with true.
  2: { unfold second_ok, is_continuation.
       repeat case_match; rewrite ?N.eqb_eq, ?N.eqb_neq in *;
         match goal with |- true = between ?p ?q ?x =>
           destruct (between_spec p q x); [done|exfalso; lia] end. }
  cbn [negb]. rewrite cont_cont, !low6_cont, (land_high 4) by (done || cbn; lia). done.
Qed.
Lemma utf8_step4 a b b2 d rest :
  (a < 5)%N → (b < 64)%N → (b2 < 64)%N → (d < 64)%N → (a = 0 → 16 ≤ b)%N → (a = 4 → b < 16)%N →
  utf8_step ((240 + a)%N :: (128 + b)%N :: (128 + b2)%N :: (128 + d)%N :: rest)
  = Decoded (a * 262144 + b * 4096 + b2 * 64 + d) 4.
Proof.
  intros. cbn [utf8_step]. do 3 byte_test false. byte_test true.
  replace (second_ok _ _) with true.
  2: { unfold second_ok, is_continuation.
       repeat case_match; rewrite ?N.eqb_eq, ?N.eqb_neq in *;
         match goal with |- true = between ?p ?q ?x =>
           destruct (between_spec p q x); [done|exfalso; lia] end. }
  cbn [negb]. rewrite !cont_cont by done. cbn [negb].
  rewrite !low6_cont, (land_high 3) by (done || cbn; lia). done.
Qed.

Lemma digits c : (c = c / 64 * 64 + c mod 64 ∧ c mod 64 < 64)%N.
Proof. split; [rewrite N.mul_comm; apply N.div_mod'|by apply N.mod_lt]. Qed.

Lemma utf8_step_encode c rest : is_scalar c →
  utf8_step (encode_char c ++ rest) = Decoded c (length (encode_char c)).
Proof.
  intros Hc. unfold is_scalar, encode_char in *.
  destruct (N.ltb_spec c 128); [cbn; by rewrite (proj2 (N.ltb_lt _ _))|].
  destruct (digits c) as [E1 L1], (digits (c / 64)) as [E2 L2], (digits (c / 64 / 64)) as [E3 L3].
  rewrite !N.Div0.div_div in *. change (64 * 64)%N with 4096%N in *.
  change (4096 * 64)%N with 262144%N in *.
  revert E1 L1 E2 L2 E3 L3.
  generalize (c mod 64)%N ((c / 64) mod 64)%N ((c / 4096) mod 64)%N (c / 262144)%N.
  generalize (c / 64)%N (c / 4096)%N. intros q1 q2 m1 m2 m3 q3 E1 L1 E2 L2 E3 L3.
  destruct (N.ltb_spec c 2048); [|destruct (N.ltb_spec c 65536)]; cbn [app length].
  - rewrite utf8_step2 by lia. f_equal. lia.
  - rewrite utf8_step3 by lia. f_equal. lia.
  - rewrite utf8_step4 by lia. f_equal. lia.
Qed.

(** A text sent in UTF-8 arrives unchanged, however its bytes are cut. *)
Theorem text_survives_chunking s chunks :
  Forall is_scalar s → concat chunks = encode s →
  (push_all chunks).2 = s ∧ pending (push_all chunks).1 = [].
Proof.
  intros Hs Hc. pose proof (push_all_decodes chunks) as Hd. rewrite Hc in Hd.
  destruct (push_all chunks) as [d out]. cbn [fst snd] in *. clear Hc. revert out Hd.
  induction Hs as [|c s Hc Hs IH]; intros out Hd.
  - inversion Hd; by simplify_eq/=.
  - unfold encode in *. cbn [mbind list_bind] in Hd.
    pose proof (utf8_step_encode c (encode s) Hc) as Hst. unfold encode in Hst.
    inversion Hd as [|? ? Ht|bs c' n t p Ht Hr|bs n t p Ht Hr]; subst; try congruence.
    + symmetry in H. apply app_nil in H as [H _]. exfalso. revert H. unfold encode_char.
      by repeat case_match.
    + rewrite Hst in Ht. simplify_eq. rewrite drop_app_length in Hr.
      by destruct (IH _ Hr) as [-> ->].
Qed.

Lemma text_survives_chunking_witness :
  (push_all [[226]; [130; 172; 52; 240; 159]; [166; 128]]%N).2 = [8364; 52; 129408]%N.
Proof.
  refine (proj1 (text_survives_chunking [8364; 52; 129408]%N
    [[226]; [130; 172; 52; 240; 159]; [166; 128]]%N _ eq_refl)).
  repeat constructor; unfold is_scalar; lia.
Defined.
