(* ===== verification/Wire.v ===== *)
(** * The wire format of chat completions

    crates/llm-client/src/wire_types and convert.rs: requests and responses of
    an OpenAI-compatible endpoint, the conversions to and from the agent's
    types, and the repair of cut-off tool arguments. *)

From S2P Require Import Prelude RStr F64 Message Budget Stream.

(** ** Types *)

Record WireToolCallFunction := { fn_name : str; fn_arguments : str }.
Record WireToolCall := { tc_id : str; call_type : str; tc_function : WireToolCallFunction }.
Record WireMessage := {
  wm_role : str;
  wm_content : option str;
  wm_reasoning_content : option str;
  wm_tool_calls : option (list WireToolCall);
  tool_call_id : option str;
}.
Record WireToolFunction := {
  wf_name : str;
  wf_description : option str;
  wf_parameters : option Json;
}.
Record WireTool := { tool_type : str; wt_function : WireToolFunction }.
Inductive WireToolChoice := ChoiceString (s : str) | ChoiceFunction (type name : str).
Record JsonSchemaDef := { schema_name : str; strict : option bool; schema : Json }.
Record WireResponseFormat := { format_type : str; json_schema : option JsonSchemaDef }.
Record WireRequest := {
  wr_model : str;
  wr_messages : list WireMessage;
  wr_temperature : option f64;
  wr_max_tokens : option Z;
  wr_stream : option bool;
  wr_tools : option (list WireTool);
  wr_tool_choice : option WireToolChoice;
  wr_response_format : option WireResponseFormat;
}.

Record WirePromptTokensDetails := { details_cached : Z; details_cache_write : Z }.
Record WireUsage := {
  wu_prompt_tokens : Z;
  wu_completion_tokens : Z;
  wu_total_tokens : Z;
  prompt_tokens_details : option WirePromptTokensDetails;
}.
Record KvTransferParams := { chunk_hashes : list str }.
Record WireChoice := {
  wc_message : WireMessage;
  wc_finish_reason : option str;
  wc_tool_calls : option (list WireToolCall);
}.
Record Warning := {
  warning_feature : str;
  warning_provider : str;
  warning_action : str;
  warning_message : option str;
}.
Record WireResponse := {
  wresp_id : str;
  wresp_model : str;
  wresp_choices : list WireChoice;
  wresp_usage : WireUsage;
  warnings : option (list Warning);
  wresp_kv_transfer_params : option KvTransferParams;
}.

(** ** Tool arguments *)

(** The scan of [repair_unclosed_json]: the closers still due, innermost
    first; [None] when a closer does not match. *)
Record Scan := { in_string : bool; escaped : bool; closers : list char }.
Definition scan_char (st : Scan) (ch : char) : option Scan :=
  if in_string st then
    Some (if (ch =? 92)%N && negb (escaped st)
          then {| in_string := true; escaped := true; closers := closers st |}
          else if (ch =? 34)%N && negb (escaped st)
          then {| in_string := false; escaped := escaped st; closers := closers st |}
          else {| in_string := true; escaped := false; closers := closers st |})
  else if (ch =? 34)%N then
    Some {| in_string := true; escaped := escaped st; closers := closers st |}
  else if (ch =? 123)%N then
    Some {| in_string := false; escaped := escaped st; closers := 125%N :: closers st |}
  else if (ch =? 91)%N then
    Some {| in_string := false; escaped := escaped st; closers := 93%N :: closers st |}
  else if (ch =? 125)%N || (ch =? 93)%N then
    match closers st with
    | c :: cs => if (c =? ch)%N
                 then Some {| in_string := false; escaped := escaped st; closers := cs |} else None
    | [] => None
    end
  else Some st.
Fixpoint scan_text (st : Scan) (input : str) : option Scan :=
  match input with
  | [] => Some st
  | ch :: input => match scan_char st ch with Some st => scan_text st input | None => None end
  end.
Definition scan_start : Scan := {| in_string := false; escaped := false; closers := [] |}.
Definition repair_unclosed_json (input : str) : option str :=
  match scan_text scan_start input with
  | None => None
  | Some st =>
      if in_string st || bool_decide (closers st = []) then None else Some (input ++ closers st)
  end.

Section Convert.
Context `{JT : JsonText} `{JP : JsonParse}.

(** [parse_tool_arguments]: an encoded string is parsed again; an argument that
    cannot be read is null. *)
Fixpoint parse_tool_arguments_fuel (fuel : nat) (arguments : str) : Json :=
  match fuel with
  | O => JNull
  | S fuel =>
      let trimmed := trim arguments in
      let normalize v := match v with
                         | JString inner => parse_tool_arguments_fuel fuel inner
                         | other => other
                         end in
      match trimmed with
      | [] => JNull
      | _ =>
          match json_from_str trimmed with
          | Some v => normalize v
          | None =>
              match repair_unclosed_json trimmed with
              | None => JNull
              | Some repaired =>
                  match json_from_str repaired with Some v => normalize v | None => JNull end
              end
          end
      end
  end.
(** A string value is shorter than its text, and a repaired text is not a
    string, so the length is enough. *)
Definition parse_tool_arguments (arguments : str) : Json :=
  parse_tool_arguments_fuel (S (length arguments)) arguments.

(** ** Requests *)

Definition FUNCTION : str := lit "function".
Definition wire_call (call_id tool_name : str) (input : Json) : WireToolCall :=
  {| tc_id := call_id; call_type := FUNCTION;
     tc_function := {| fn_name := tool_name;
                       fn_arguments := match input with JNull => lit "{}" | _ => json_to_string input end |} |}.

(** The loop over the blocks: content, tool calls and the id of a result. *)
Definition wire_block (acc : option str * option (list WireToolCall) * option str) (b : ContentBlock) :
    option str * option (list WireToolCall) * option str :=
  let '(content, calls, result_id) := acc in
  match b with
  | Text text => (Some text, calls, result_id)
  | ToolUse call_id tool_name input =>
      (content, Some (default [] calls ++ [wire_call call_id tool_name input]), result_id)
  | ToolResult call_id _ output _ => (Some output, calls, Some call_id)
  | Image d | Document d => (Some d, calls, result_id)
  end.
Definition is_tool_use (b : ContentBlock) : bool := match b with ToolUse _ _ _ => true | _ => false end.
Definition chat_message_to_wire (m : ChatMessage) : WireMessage :=
  let '(content, calls, result_id) := foldl wire_block (None, None, None) (blocks m) in
  {| wm_role := role_as_str (role m); wm_content := content;
     wm_reasoning_content := if bool_decide (role m = Assistant) && existsb is_tool_use (blocks m)
                             then reasoning_content m else None;
     wm_tool_calls := calls; tool_call_id := result_id |}.
Definition chat_messages_to_wire (ms : list ChatMessage) : list WireMessage := chat_message_to_wire <$> ms.

Definition empty_object_schema : Json :=
  JObject [(lit "properties", JObject []); (lit "type", JString (lit "object"))].
Definition normalize_tool_parameters_schema (schema : Json) : Json :=
  match schema with
  | JObject object =>
      if bool_decide ((field object (lit "type") ≫= as_str) = Some (lit "object")) then schema
      else
        let normalized := field_insert (lit "type") (JString (lit "object")) object in
        match field normalized (lit "properties") with
        | Some _ => JObject normalized
        | None => JObject (field_insert (lit "properties") (JObject []) normalized)
        end
  | _ => empty_object_schema
  end.
Definition tool_to_wire (tool : ToolSpec) : WireTool :=
  {| tool_type := FUNCTION;
     wt_function := {| wf_name := spec_name tool; wf_description := Some (spec_description tool);
                       wf_parameters := Some (normalize_tool_parameters_schema (parameters tool)) |} |}.
Definition tool_choice_to_wire (c : ToolChoice) : WireToolChoice :=
  match c with
  | ChoiceAuto => ChoiceString (lit "auto")
  | ChoiceRequired => ChoiceString (lit "required")
  | ChoiceNone => ChoiceString (lit "none")
  | ChoiceSpecific name => ChoiceFunction FUNCTION name
  end.
Definition response_format_to_wire (f : ResponseFormat) : option WireResponseFormat :=
  match f with
  | FormatText => None
  | FormatJsonObject => Some {| format_type := lit "json_object"; json_schema := None |}
  | FormatJsonSchema name schema =>
      Some {| format_type := lit "json_schema";
              json_schema := Some {| schema_name := match name with [] => lit "response" | _ => name end;
                                     strict := Some true; schema := schema |} |}
  end.
(** [f64 as f32]. *)
Definition to_f32 (x : f64) : f64 :=
  match x with S754_finite s m e => binary_round 24 128 s m e | _ => x end.
Definition llm_request_to_wire (request : LlmRequest) (model : str) : WireRequest :=
  let tools := match req_tools request with [] => None | ts => Some (tool_to_wire <$> ts) end in
  {| wr_model := model; wr_messages := chat_messages_to_wire (req_messages request);
     wr_temperature := to_f32 <$> req_temperature request;
     wr_max_tokens := (fun t => t mod 2 ^ 32) <$> req_max_tokens request;
     wr_stream := None; wr_tools := tools;
     wr_tool_choice := (fun _ => tool_choice_to_wire (tool_choice request)) <$> tools;
     wr_response_format := response_format_to_wire (response_format request) |}.

(** ** Responses *)

Definition zero_wire_usage : Usage :=
  {| prompt_tokens := 0; completion_tokens := 0; usage_total_tokens := 0; cached_tokens := 0;
     cache_write_tokens := 0 |}.
Definition stop_reason_of (finish : option str) : StopReason :=
  match finish with
  | None => EndTurn
  | Some r =>
      if decide (r = lit "stop" ∨ r = lit "end_turn") then EndTurn
      else if decide (r = lit "length" ∨ r = lit "max_tokens") then StopMaxTokens
      else if decide (r = lit "tool_calls" ∨ r = lit "tool_use") then StopToolUse
      else if decide (r = lit "content_filter") then ContentFilter
      else EndTurn
  end.
Definition tool_use_of (tc : WireToolCall) : ToolUseBlock :=
  {| tu_call_id := tc_id tc; tu_tool_name := fn_name (tc_function tc);
     tu_input := parse_tool_arguments (fn_arguments (tc_function tc)) |}.
Definition wire_choice_to_assistant_message (c : WireChoice) : AssistantMessage :=
  let calls := match wc_tool_calls c with Some l => Some l | None => wm_tool_calls (wc_message c) end in
  {| am_text := wm_content (wc_message c);
     am_reasoning_content := wm_reasoning_content (wc_message c);
     tool_calls := tool_use_of <$> default [] calls;
     usage := zero_wire_usage;
     stop_reason := stop_reason_of (wc_finish_reason c) |}.
Definition wire_response_to_llm_response (wire : WireResponse) : LlmResponse :=
  {| resp_message := match wresp_choices wire with
                     | c :: _ => wire_choice_to_assistant_message c
                     | [] => {| am_text := None; am_reasoning_content := None; tool_calls := [];
                                usage := zero_wire_usage; stop_reason := EndTurn |}
                     end;
     kv_cache_chunk_hashes := from_option chunk_hashes [] (wresp_kv_transfer_params wire) |}.
Definition wire_usage_to_usage (w : WireUsage) : Usage :=
  {| prompt_tokens := wu_prompt_tokens w; completion_tokens := wu_completion_tokens w;
     usage_total_tokens := wu_total_tokens w;
     cached_tokens := from_option details_cached 0 (prompt_tokens_details w);
     cache_write_tokens := from_option details_cache_write 0 (prompt_tokens_details w) |}.
End Convert.

(** ** Repair *)

Lemma scan_text_app st s t : scan_text st (s ++ t) = scan_text st s ≫= (fun st => scan_text st t).
Proof.
  revert st. induction s as [|c s IH]; intros st; [done|]. cbn [app scan_text].
  destruct (scan_char st c); [apply IH|done].
Qed.
(** The closers due are braces and brackets, outside a string. *)
Definition is_closer (c : char) : Prop := c = 125%N ∨ c = 93%N.
Lemma scan_char_closers st c st' :
  Forall is_closer (closers st) → scan_char st c = Some st' → Forall is_closer (closers st').
Proof.
  unfold scan_char, is_closer. intros H E. repeat case_match; simplify_eq/=; auto.
  by inversion H.
Qed.
Lemma scan_text_closers s : ∀ st st',
  Forall is_closer (closers st) → scan_text st s = Some st' → Forall is_closer (closers st').
Proof.
  induction s as [|c s IH]; intros st st' H E; cbn [scan_text] in E; [by simplify_eq|].
  destruct (scan_char st c) eqn:Ec; [|done]. eapply IH; [|done]. by eapply scan_char_closers.
Qed.
(** Writing the closers that are due closes everything. *)
Lemma scan_close cs e :
  Forall is_closer cs →
  scan_text {| in_string := false; escaped := e; closers := cs |} cs
  = Some {| in_string := false; escaped := e; closers := [] |}.
Proof.
  induction 1 as [|c cs Hc Hcs IH]; [done|]. cbn [scan_text].
  assert (scan_char {| in_string := false; escaped := e; closers := c :: cs |} c
          = Some {| in_string := false; escaped := e; closers := cs |}) as ->; [|exact IH].
  by destruct Hc as [-> | ->].
Qed.
(** What the scan accepts: every bracket closed, no string open. *)
Definition balanced (s : str) : Prop :=
  ∃ st, scan_text scan_start s = Some st ∧ in_string st = false ∧ closers st = [].

Lemma repair_shape s r : repair_unclosed_json s = Some r →
  ∃ cs c, is_closer c ∧ r = s ++ cs ++ [c].
Proof.
  unfold repair_unclosed_json. destruct (scan_text scan_start s) as [st|] eqn:E; [|done].
  destruct (in_string st); [done|]. cbn [orb]. case_bool_decide as Hc; [done|]. intros [= <-].
  pose proof (scan_text_closers s scan_start _ (Forall_nil_2 _) E) as Hf.
  destruct (closers st) as [|x cs _] using rev_ind; [done|].
  apply Forall_app in Hf as [_ Hx]. rewrite Forall_singleton in Hx. by exists cs, x.
Qed.

(** The repair of cut-off JSON only appends closing brackets, at least
    one, and what it returns is balanced; it refuses a text that is balanced
    already, ends inside a string or has a bracket that does not match. *)
Theorem repair_closes input :
  match repair_unclosed_json input with
  | Some repaired => ∃ cs, cs ≠ [] ∧ Forall is_closer cs ∧ repaired = input ++ cs ∧ balanced repaired
  | None => balanced input ∨ scan_text scan_start input = None ∨
            ∃ st, scan_text scan_start input = Some st ∧ in_string st = true
  end.
Proof.
  unfold repair_unclosed_json. destruct (scan_text scan_start input) as [st|] eqn:E; [|by right; left].
  destruct (in_string st) eqn:Hi; cbn [orb]; [right; right; by exists st|].
  case_bool_decide as Hc; [left; by exists st|].
  exists (closers st). split_and!; [done|eapply scan_text_closers, E; constructor|done|].
  exists {| in_string := false; escaped := escaped st; closers := [] |}. split_and!; [|done..].
  rewrite scan_text_app, E. cbn [mbind option_bind]. destruct st as [i e cs]. cbn in *. subst i.
  apply scan_close. exact (scan_text_closers input scan_start _ (Forall_nil_2 _) E).
Qed.

(** ** Tool calls there and back *)

(** A JSON text that reads as a string is a quoted literal. *)
Class JsonReadLaws `{JP : JsonParse} := {
  string_literal : ∀ s t, json_from_str s = Some (JString t) →
    ∃ w body w', s = w ++ 34%N :: body ++ 34%N :: w' ∧
                 Forall (fun c => is_whitespace c = true) w' ∧ (length t <= length body)%nat;
}.

Section Reading.
Context `{JL : JsonReadLaws}.

Lemma string_shorter s t : json_from_str s = Some (JString t) → (length t < length s)%nat.
Proof.
  intros (w & body & w' & -> & _ & Hl)%string_literal. rewrite length_app. cbn [length].
  rewrite length_app. cbn [length]. lia.
Qed.
(** A repaired text is not a string. *)
Lemma repaired_no_string s r t : repair_unclosed_json s = Some r → json_from_str r ≠ Some (JString t).
Proof.
  intros Hr (w & body & w' & E & Hw & _)%string_literal.
  pose proof (repair_shape s r Hr) as (cs & c & Hc & ->).
  assert (Hlast : last (s ++ cs ++ [c]) = Some c).
  { by rewrite (assoc_L (++)), last_snoc. }
  rewrite E in Hlast. destruct w' as [|x w'] using rev_ind.
  - replace (w ++ 34%N :: body ++ [34%N]) with ((w ++ 34%N :: body) ++ [34%N]) in Hlast
      by (by rewrite <-(assoc_L (++))).
    rewrite last_snoc in Hlast. simplify_eq.
    by destruct Hc as [? | ?].
  - apply Forall_app in Hw as [_ Hx]. rewrite Forall_singleton in Hx.
    replace (w ++ 34%N :: body ++ 34%N :: w' ++ [x]) with ((w ++ 34%N :: body ++ 34%N :: w') ++ [x])
      in Hlast by (by rewrite <-(assoc_L (++)); cbn; rewrite <-(assoc_L (++))).
    rewrite last_snoc in Hlast.
    simplify_eq. by destruct Hc as [-> | ->].
Qed.

(** More fuel than the length changes nothing. *)
Lemma parse_fuel_enough k : ∀ k' a, (length a < k)%nat → (length a < k')%nat →
  parse_tool_arguments_fuel k a = parse_tool_arguments_fuel k' a.
Proof.
  induction k as [|k IH]; intros [|k'] a Hk Hk'; [lia..|]. cbn [parse_tool_arguments_fuel].
  pose proof (trim_length a) as Ht. destruct (trim a) as [|c s]; [done|].
  destruct (json_from_str (c :: s)) as [v|] eqn:E.
  - destruct v; try done. apply string_shorter in E. apply IH; lia.
  - destruct (repair_unclosed_json (c :: s)) as [r|] eqn:Er; [|done].
    destruct (json_from_str r) as [v|] eqn:E'; [|done].
    destruct v; try done. by apply (repaired_no_string _ _ _ Er) in E'.
Qed.

End Reading.

Section RoundTrip.
Context `{JT : JsonText} `{JP : JsonParse}.

(** Arguments are never read as a string: encoded strings are unwrapped. *)
Lemma parse_not_string k : ∀ a t, parse_tool_arguments_fuel k a ≠ JString t.
Proof.
  induction k as [|k IH]; intros a t; [done|]. cbn [parse_tool_arguments_fuel].
  destruct (trim a) as [|c s]; [done|].
  destruct (json_from_str (c :: s)) as [v|]; [by destruct v|].
  destruct (repair_unclosed_json _); [|done]. destruct (json_from_str _) as [v|]; [by destruct v|done].
Qed.

(** An input that prints as an object between braces and reads back. *)
Definition prints_back (v : Json) : Prop :=
  (∃ fs, v = JObject fs) ∧ json_from_str (json_to_string v) = Some v ∧
  ∃ body, json_to_string v = 123%N :: body ++ [125%N].

Lemma parse_printed v : prints_back v → parse_tool_arguments (json_to_string v) = v.
Proof.
  intros ([fs ->] & Hr & body & Hb). unfold parse_tool_arguments. rewrite Hb.
  cbn [parse_tool_arguments_fuel]. rewrite trim_delimited by done. rewrite Hb in Hr. by rewrite Hr.
Qed.

Definition block_tool_use (b : ContentBlock) : option ToolUseBlock :=
  match b with
  | ToolUse id name input => Some {| tu_call_id := id; tu_tool_name := name; tu_input := input |}
  | _ => None
  end.
Definition wire_calls (m : WireMessage) : list WireToolCall := default [] (wm_tool_calls m).

Lemma wire_block_calls bs acc :
  default [] (foldl wire_block acc bs).1.2
  = default [] acc.1.2 ++ omap (fun b => match b with
                                         | ToolUse id name input => Some (wire_call id name input)
                                         | _ => None
                                         end) bs.
Proof.
  revert acc. induction bs as [|b bs IH]; intros [[content calls] rid]; [by rewrite app_nil_r|].
  cbn [foldl]. rewrite IH. destruct b; cbn; [done| |done..]. by rewrite <-(assoc_L (++)).
Qed.

(** The tool calls of an assistant message come back from the wire format
    as they were, ids, names and arguments, in order, when the JSON library
    reads back the objects it prints. *)
Theorem tool_calls_round_trip m :
  (∀ id name input, ToolUse id name input ∈ blocks m → prints_back input) →
  tool_use_of <$> wire_calls (chat_message_to_wire m) = omap block_tool_use (blocks m).
Proof.
  intros Hb. unfold wire_calls, chat_message_to_wire.
  pose proof (wire_block_calls (blocks m) (None, None, None)) as Hc.
  destruct (foldl wire_block _ _) as [[content calls] rid]. cbn in *. rewrite Hc. clear Hc.
  induction (blocks m) as [|b bs IH]; [done|].
  destruct b as [t|id name input|id name out err|d|d]; cbn; try (apply IH; set_solver).
  rewrite IH by set_solver. f_equal.
  pose proof (Hb id name input ltac:(set_solver)) as Hp. unfold tool_use_of, wire_call. cbn.
  f_equal. destruct Hp as [[fs ->] Hp]. apply parse_printed. split; [by exists fs|exact Hp].
Qed.
End RoundTrip.

(** ** A concrete JSON library *)

Module WireDemo.
#[local] Instance tiny_text : JsonText := {| json_to_string _ := lit "{}"; json_to_string_pretty _ := lit "{}" |}.
#[local] Instance tiny_parse : JsonParse :=
  {| json_from_str s := if decide (s = lit "{}") then Some (JObject [])
                        else if decide (s = lit "{[]}") then Some (JArray []) else None |}.

Definition demo_message : ChatMessage :=
  new_message Assistant [Text (lit "let me look"); ToolUse (lit "c1") (lit "bash") (JObject []);
                         ToolUse (lit "c2") (lit "read") (JObject [])] None 0 None.

Example repair_ex : parse_tool_arguments (lit " {[ ") = JArray [].
Proof. vm_compute. reflexivity. Qed.

Lemma tool_calls_round_trip_witness :
  tool_use_of <$> wire_calls (chat_message_to_wire demo_message)
  = [{| tu_call_id := lit "c1"; tu_tool_name := lit "bash"; tu_input := JObject [] |};
     {| tu_call_id := lit "c2"; tu_tool_name := lit "read"; tu_input := JObject [] |}].
Proof.
  apply (tool_calls_round_trip demo_message). intros id name input Hin.
  assert (input = JObject []) as ->.
  { cbn in Hin. repeat (apply elem_of_cons in Hin as [[= -> -> ->]|Hin]; [done|]).
    apply elem_of_cons in Hin as [[=]|Hin]; [..|]; repeat (apply elem_of_cons in Hin as [[= -> -> ->]|Hin]; [done|]).
    by apply elem_of_nil in Hin. }
  split; [by exists []|]. split; [vm_compute; reflexivity|]. by exists [].
Defined.
End WireDemo.
