(* ===== verification/SseStream.v ===== *)
(** * Streamed answers

    The streaming half of crates/llm-client/src/providers/openai_family.rs: the
    body of a response is read chunk by chunk, decoded ([Utf8]), cut into
    lines, each line an event whose deltas are shown and collected into the
    answer. *)

From S2P Require Import Prelude RStr F64 Message Budget Stream UrlFallback RetryPolicy Utf8 Wire.

(** ** Events *)

Record WireToolCallFunctionDelta := { delta_name : option str; delta_arguments : option str }.
Record WireToolCallDelta := {
  delta_index : Z;
  delta_id : option str;
  delta_call_type : option str;
  delta_function : option WireToolCallFunctionDelta;
}.
Record Delta := {
  delta_role : option str;
  delta_content : option str;
  delta_reasoning_text : option str;
  delta_tool_calls : option (list WireToolCallDelta);
}.
Record ChunkChoice := { choice_index : Z; choice_delta : Delta; choice_finish_reason : option str }.
Record ChatCompletionChunk := {
  cc_id : str;
  cc_object : str;
  cc_created : Z;
  cc_model : str;
  cc_choices : list ChunkChoice;
  cc_usage : option WireUsage;
  cc_kv_transfer_params : option KvTransferParams;
}.
Record ParsedChunk := {
  pc_content : option str;
  pc_reasoning : option str;
  pc_finish_reason : option str;
  pc_usage : option WireUsage;
  pc_tool_calls : option (list WireToolCallDelta);
  pc_kv_transfer_params : option KvTransferParams;
}.
Definition default_chunk : ParsedChunk :=
  {| pc_content := None; pc_reasoning := None; pc_finish_reason := None; pc_usage := None;
     pc_tool_calls := None; pc_kv_transfer_params := None |}.

(** What is outside: [serde_json] reading an event, with its error text, and
    the patterns of a context overflow ([regex]). *)
Class EventParse := {
  chunk_from_str : str → result ChatCompletionChunk str;
  overflow_match : str → bool;
}.

Section Events.
Context `{JT : JsonText} `{JP : JsonParse} `{EP : EventParse}.

(** *** Errors inside a stream (crates/llm-client/src/error.rs) *)

Definition parse_json_object (input : str) : option Json :=
  match json_from_str input with Some (JObject f) => Some (JObject f) | _ => None end.
Definition extract_error_message (body : Json) : str :=
  trim (default []
    (match json_get body (lit "message") ≫= as_str with
     | Some m => Some m
     | None =>
         match json_get body (lit "error") ≫= as_str with
         | Some m => Some m
         | None => (json_get body (lit "error") ≫= (fun e => json_get e (lit "message"))) ≫= as_str
         end
     end)).
Definition error_code (body : Json) : option str :=
  (json_get body (lit "error") ≫= (fun e => json_get e (lit "code"))) ≫= as_str.
Definition is_overflow_message (message : str) : bool :=
  negb (bool_decide (trim message = [])) && overflow_match message.
Definition parse_stream_error (data : str) : option LlmError :=
  match parse_json_object data with
  | None => None
  | Some body =>
      if negb (bool_decide ((json_get body (lit "type") ≫= as_str) = Some (lit "error"))) then None
      else
        let response_body := json_to_string body in
        let message := lit "stream error: " ++ response_body in
        if bool_decide (error_code body = Some (lit "context_length_exceeded"))
           || is_overflow_message (extract_error_message body)
        then Some (ContextLengthExceeded message)
        else Some (ApiError message)
  end.

(** *** Lines *)

Definition parsed_of_chunk (chunk : ChatCompletionChunk) : ParsedChunk :=
  match cc_choices chunk with
  | choice :: _ =>
      {| pc_content := delta_content (choice_delta choice);
         pc_reasoning := delta_reasoning_text (choice_delta choice);
         pc_finish_reason := choice_finish_reason choice;
         pc_usage := cc_usage chunk;
         pc_tool_calls := delta_tool_calls (choice_delta choice);
         pc_kv_transfer_params := cc_kv_transfer_params chunk |}
  | [] =>
      {| pc_content := None; pc_reasoning := None; pc_finish_reason := None;
         pc_usage := cc_usage chunk; pc_tool_calls := None;
         pc_kv_transfer_params := cc_kv_transfer_params chunk |}
  end.

(** [Ok None] is the end marker; a line that is no data is an empty chunk. *)
Definition parse_openai_family_stream_line (line : str) : result (option ParsedChunk) LlmError :=
  let line := trim line in
  if bool_decide (line = []) || starts_with (lit ":") line || starts_with (lit "event: ") line
  then Ok (Some default_chunk)
  else if bool_decide (line = lit "[DONE]") then Ok None
  else
    match strip_prefix (lit "data:") line with
    | None => Ok (Some default_chunk)
    | Some data =>
        let data := trim data in
        if bool_decide (data = []) then Ok (Some default_chunk)
        else if bool_decide (data = lit "[DONE]") then Ok None
        else
          match parse_stream_error data with
          | Some error => Err error
          | None =>
              match chunk_from_str data with
              | Err e => Err (ParseError (lit "Failed to parse stream chunk: " ++ e))
              | Ok chunk => Ok (Some (parsed_of_chunk chunk))
              end
          end
    end.

(** ** Tool calls in pieces *)

Definition blank_call : WireToolCall :=
  {| tc_id := []; call_type := FUNCTION; tc_function := {| fn_name := []; fn_arguments := [] |} |}.
(** The loop that grows the vector up to an index. *)
Definition grow (calls : list WireToolCall) (idx : nat) : list WireToolCall :=
  calls ++ replicate (S idx - length calls) blank_call.
Definition nonempty_or (new : option str) (old : str) : str :=
  match new with Some (c :: s) => c :: s | _ => old end.
Definition apply_delta (tc : WireToolCall) (delta : WireToolCallDelta) : WireToolCall :=
  {| tc_id := nonempty_or (delta_id delta) (tc_id tc);
     call_type := call_type tc;
     tc_function :=
       match delta_function delta with
       | None => tc_function tc
       | Some f => {| fn_name := nonempty_or (delta_name f) (fn_name (tc_function tc));
                      fn_arguments := fn_arguments (tc_function tc) ++ default [] (delta_arguments f) |}
       end |}.
Definition accumulate_delta (calls : list WireToolCall) (delta : WireToolCallDelta) : list WireToolCall :=
  let idx := Z.to_nat (delta_index delta) in
  alter (fun tc => apply_delta tc delta) idx (grow calls idx).
Definition accumulate_tool_call_deltas (calls : list WireToolCall) (parsed : ParsedChunk) :
    list WireToolCall :=
  foldl accumulate_delta calls (default [] (pc_tool_calls parsed)).

(** ** Collecting the answer *)

(** A chunk for the display, with the tool call it may name. *)
Definition parsed_chunk_to_stream_chunk (chunk : ParsedChunk) : StreamChunk * option ToolUseBlock :=
  ({| chunk_reset := false; delta_text := pc_content chunk; delta_reasoning := pc_reasoning chunk |},
   first ← head (default [] (pc_tool_calls chunk));
   f ← delta_function first;
   Some {| tu_call_id := default [] (delta_id first); tu_tool_name := default [] (delta_name f);
           tu_input := default JNull (delta_arguments f ≫= json_from_str) |}).

Record Collected := {
  full_text : str;
  full_reasoning : str;
  full_tool_calls : list WireToolCall;
  final_usage : option WireUsage;
  final_finish_reason : option str;
  final_kv_transfer_params : option KvTransferParams;
  shown : list (StreamChunk * option ToolUseBlock);
}.
Definition nothing_yet : Collected :=
  {| full_text := []; full_reasoning := []; full_tool_calls := []; final_usage := None;
     final_finish_reason := None; final_kv_transfer_params := None; shown := [] |}.

Definition or_old {A} (new old : option A) : option A := match new with Some _ => new | None => old end.
Definition collect_chunk (c : Collected) (parsed : ParsedChunk) : Collected :=
  {| full_text := full_text c ++ default [] (pc_content parsed);
     full_reasoning := full_reasoning c ++ default [] (pc_reasoning parsed);
     full_tool_calls := accumulate_tool_call_deltas (full_tool_calls c) parsed;
     final_usage := or_old (pc_usage parsed) (final_usage c);
     final_finish_reason := or_old (pc_finish_reason parsed) (final_finish_reason c);
     final_kv_transfer_params := or_old (pc_kv_transfer_params parsed) (final_kv_transfer_params c);
     shown := shown c ++ [parsed_chunk_to_stream_chunk parsed] |}.

(** One line; what was collected stays when it is an error. *)
Definition process_line (c : Collected) (line : str) : Collected * option LlmError :=
  match line with
  | [] => (c, None)
  | _ =>
      match parse_openai_family_stream_line line with
      | Err e => (c, Some e)
      | Ok None => (c, None)
      | Ok (Some parsed) => (collect_chunk c parsed, None)
      end
  end.

(** [buffer[start..].find('\n')]: the line and what follows it. *)
Fixpoint next_line (buffer : str) : option (str * str) :=
  match buffer with
  | [] => None
  | ch :: rest =>
      if (ch =? 10)%N then Some ([], rest)
      else match next_line rest with Some (l, r) => Some (ch :: l, r) | None => None end
  end.
(** The cursor loop over the complete lines; the rest stays in the buffer. *)
Fixpoint scan_lines (fuel : nat) (buffer : str) (c : Collected) : str * Collected * option LlmError :=
  match fuel with
  | O => (buffer, c, None)
  | S fuel =>
      match next_line buffer with
      | None => (buffer, c, None)
      | Some (line, rest) =>
          match process_line c line with
          | (c, Some e) => (rest, c, Some e)
          | (c, None) => scan_lines fuel rest c
          end
      end
  end.

(** The body: what each read brings and how long it takes; after the last one
    the body ends, after a while. *)
Record Body := { reads : list (Z * result (list byte) LlmError); end_delay : Z }.

(** [next_stream_chunk]: a read under its deadline. *)
Definition in_time (bytes_received delay : Z) : bool := delay <=? stream_deadline bytes_received.

Fixpoint read_loop (items : list (Z * result (list byte) LlmError)) (end_delay : Z)
    (decoder : StreamUtf8Decoder) (buffer : str) (bytes_received : Z) (c : Collected) :
    Collected * option LlmError :=
  match items with
  | [] => (c, if in_time bytes_received end_delay then None else Some Timeout)
  | (delay, read) :: items =>
      if negb (in_time bytes_received delay) then (c, Some Timeout)
      else match read with
           | Err e => (c, Some e)
           | Ok bytes =>
               let '(decoder, buffer) := push decoder bytes buffer in
               match scan_lines (length buffer) buffer c with
               | (_, c, Some e) => (c, Some e)
               | (buffer, c, None) =>
                   read_loop items end_delay decoder buffer
                     (bytes_received + Z.of_nat (length bytes)) c
               end
           end
  end.

Definition response_of (c : Collected) : result LlmResponse LlmError :=
  let blocks := tool_use_of <$> full_tool_calls c in
  if bool_decide (full_text c = []) && bool_decide (full_reasoning c = []) && bool_decide (full_tool_calls c = [])
  then Err (ApiError (lit "empty stream response: stream completed but received no content. The endpoint may not support SSE streaming or returned an unexpected response."))
  else
    let some_text t := match t with [] => None | _ => Some t end in
    Ok {| resp_message := {| am_text := some_text (full_text c);
                             am_reasoning_content := some_text (full_reasoning c);
                             tool_calls := blocks;
                             usage := from_option wire_usage_to_usage zero_wire_usage (final_usage c);
                             stop_reason := stop_reason_of (final_finish_reason c) |};
          kv_cache_chunk_hashes := from_option chunk_hashes [] (final_kv_transfer_params c) |}.

(** [try_stream_endpoint] from the start of the body: the chunks shown and the
    answer. *)
Definition read_stream (b : Body) : list (StreamChunk * option ToolUseBlock) * result LlmResponse LlmError :=
  match read_loop (reads b) (end_delay b) default_decoder [] 0 nothing_yet with
  | (c, Some e) => (shown c, Err e)
  | (c, None) => (shown c, response_of c)
  end.

(** ** The lines of a text *)

(** The complete lines and what follows the last line feed. *)
Fixpoint cut (text : str) : list str * str :=
  match text with
  | [] => ([], [])
  | ch :: rest =>
      let '(ls, u) := cut rest in
      if (ch =? 10)%N then ([] :: ls, u)
      else match ls with [] => ([], ch :: u) | l :: ls => ((ch :: l) :: ls, u) end
  end.
Definition complete_lines (text : str) : list str := (cut text).1.
Definition unfinished (text : str) : str := (cut text).2.

Lemma cut_split text : split_char 10 text = complete_lines text ++ [unfinished text].
Proof.
  unfold complete_lines, unfinished. induction text as [|ch rest IH]; [done|].
  cbn [split_char cut]. destruct (cut rest) as [ls u]. cbn in IH.
  destruct (ch =? 10)%N; [by rewrite IH|]. rewrite IH. by destruct ls.
Qed.
Lemma cut_app a b :
  cut (a ++ b) = (complete_lines a ++ complete_lines (unfinished a ++ b), unfinished (unfinished a ++ b)).
Proof.
  unfold complete_lines, unfinished. induction a as [|ch a IH]; cbn [app cut fst snd]; [by destruct (cut b)|].
  rewrite IH. destruct (cut a) as [ls u]. cbn [fst snd].
  destruct (ch =? 10)%N eqn:Ec; [done|]. destruct ls as [|l ls]; cbn [fst snd app]; [|done].
  cbn [cut]. rewrite Ec. destruct (cut (u ++ b)) as [ls' u']. cbn [fst snd]. by destruct ls'.
Qed.
Lemma unfinished_no_newline text : 10%N ∉ unfinished text.
Proof.
  unfold unfinished. induction text as [|ch rest IH]; [set_solver|]. cbn [cut].
  destruct (cut rest) as [ls u]. cbn in IH. destruct (N.eqb_spec ch 10); [done|].
  destruct ls; set_solver.
Qed.
Lemma cut_no_newline s : 10%N ∉ s → cut s = ([], s).
Proof.
  induction s as [|ch s IH]; [done|]. intros Hn. cbn [cut]. rewrite IH by set_solver.
  destruct (N.eqb_spec ch 10); [set_solver|done].
Qed.
Lemma complete_lines_tail text x : 10%N ∉ x → complete_lines (text ++ x) = complete_lines text.
Proof.
  intros Hx. unfold complete_lines at 1. rewrite cut_app. cbn [fst].
  unfold complete_lines at 2. rewrite cut_no_newline; [by rewrite app_nil_r|].
  pose proof (unfinished_no_newline text). set_solver.
Qed.
Lemma next_line_cut buffer :
  match next_line buffer with
  | None => cut buffer = ([], buffer)
  | Some (l, r) => cut buffer = (l :: complete_lines r, unfinished r) ∧ (length r < length buffer)%nat
  end.
Proof.
  unfold complete_lines, unfinished. induction buffer as [|ch rest IH]; [done|]. cbn [next_line cut].
  destruct (ch =? 10)%N; [split; [by destruct (cut rest)|cbn; lia]|].
  destruct (next_line rest) as [[l r]|].
  - destruct IH as [-> Hl]. split; [done|cbn; lia].
  - by rewrite IH.
Qed.

(** ** Reading in one go *)

Fixpoint run_lines (c : Collected) (ls : list str) : Collected * option LlmError :=
  match ls with
  | [] => (c, None)
  | l :: ls =>
      match process_line c l with
      | (c, Some e) => (c, Some e)
      | (c, None) => run_lines c ls
      end
  end.
Lemma run_lines_app c l1 l2 :
  run_lines c (l1 ++ l2) =
  match run_lines c l1 with (c, Some e) => (c, Some e) | (c, None) => run_lines c l2 end.
Proof.
  revert c. induction l1 as [|l l1 IH]; intros c; [done|]. cbn [app run_lines].
  destruct (process_line c l) as [c' [e|]]; [done|apply IH].
Qed.
Lemma scan_lines_run k : ∀ buffer c, (length buffer <= k)%nat →
  match run_lines c (complete_lines buffer) with
  | (c', Some e) => ∃ rest, scan_lines k buffer c = (rest, c', Some e)
  | (c', None) => scan_lines k buffer c = (unfinished buffer, c', None)
  end.
Proof.
  unfold complete_lines, unfinished. induction k as [|k IH]; intros buffer c Hk.
  { destruct buffer; [done|cbn in Hk; lia]. }
  cbn [scan_lines]. pose proof (next_line_cut buffer) as Hn. destruct (next_line buffer) as [[l r]|].
  - destruct Hn as [-> Hl]. cbn [fst snd run_lines]. destruct (process_line c l) as [c' [e|]]; [eauto|].
    apply IH. lia.
  - by rewrite Hn.
Qed.

(** The chunks that arrive, and the failure that ends the body early. *)
Fixpoint delivered (items : list (Z * result (list byte) LlmError)) (end_delay bytes_received : Z) :
    list (list byte) * option LlmError :=
  match items with
  | [] => ([], if in_time bytes_received end_delay then None else Some Timeout)
  | (delay, read) :: items =>
      if negb (in_time bytes_received delay) then ([], Some Timeout)
      else match read with
           | Err e => ([], Some e)
           | Ok bytes =>
               let '(chunks, stop) :=
                 delivered items end_delay (bytes_received + Z.of_nat (length bytes)) in
               (bytes :: chunks, stop)
           end
  end.
(** The answer to a text that came at once. *)
Definition answer_to (text : str) (stop : option LlmError) : Collected * option LlmError :=
  match run_lines nothing_yet (complete_lines text) with
  | (c, Some e) => (c, Some e)
  | (c, None) => (c, stop)
  end.

Lemma lossy_grows bs t p bs' : decodes bs t p → ∃ more, from_utf8_lossy (bs ++ bs') = t ++ more.
Proof.
  intros H. destruct (decodes_total (p ++ bs')) as (t' & p' & H').
  pose proof (decodes_app _ _ _ _ _ _ H H') as Hd. rewrite (lossy_decodes _ _ _ Hd).
  exists (t' ++ leftover p'). by rewrite (assoc_L (++)).
Qed.
Lemma lossy_lines bs t p : decodes bs t p → complete_lines (from_utf8_lossy bs) = complete_lines t.
Proof.
  intros H. rewrite (lossy_decodes _ _ _ H). apply complete_lines_tail.
  destruct p; cbn; [set_solver|]. unfold REPLACEMENT. set_solver.
Qed.

Lemma read_loop_runs items ed : ∀ before text d buffer received c,
  decodes before text (pending d) → buffer = unfinished text →
  run_lines nothing_yet (complete_lines text) = (c, None) →
  read_loop items ed d buffer received c =
  let '(chunks, stop) := delivered items ed received in
  answer_to (from_utf8_lossy (before ++ concat chunks)) stop.
Proof.
  induction items as [|[delay read] items IH]; intros before text d buffer received c Hd -> Hr;
    cbn [read_loop delivered].
  { unfold answer_to. cbn [concat]. by rewrite app_nil_r, (lossy_lines _ _ _ Hd), Hr. }
  destruct (in_time received delay); cbn [negb].
  2: { unfold answer_to. cbn [concat]. by rewrite app_nil_r, (lossy_lines _ _ _ Hd), Hr. }
  destruct read as [bytes|e].
  2: { unfold answer_to. cbn [concat]. by rewrite app_nil_r, (lossy_lines _ _ _ Hd), Hr. }
  unfold push.
  destruct (push_loop_decodes (length (pending d ++ bytes)) (pending d ++ bytes) (unfinished text))
    as (t & p & -> & Hp); [done|].
  pose proof (decodes_app _ _ _ _ _ _ Hd Hp) as Hd'.
  pose proof (scan_lines_run (length (unfinished text ++ t)) (unfinished text ++ t) c ltac:(done)) as Hs.
  assert (Hcut : run_lines nothing_yet (complete_lines (text ++ t))
                 = run_lines c (complete_lines (unfinished text ++ t))).
  { unfold complete_lines at 1. rewrite cut_app. cbn [fst]. by rewrite run_lines_app, Hr. }
  destruct (run_lines c _) as [c' [e|]] eqn:Hc.
  - destruct Hs as [rest ->]. destruct (delivered items ed _) as [chunks stop].
    unfold answer_to. cbn [concat]. rewrite (assoc_L (++)).
    destruct (lossy_grows _ _ _ (concat chunks) Hd') as [more ->].
    unfold complete_lines at 1. rewrite cut_app. cbn [fst]. by rewrite run_lines_app, Hcut.
  - rewrite Hs. rewrite (IH (before ++ bytes) (text ++ t) {| pending := p |} _ _ c'); [|done| |by rewrite Hcut].
    + destruct (delivered items ed _) as [chunks stop]. cbn [concat]. by rewrite <-(assoc_L (++)).
    + unfold unfinished at 1 3. by rewrite (cut_app text t).
Qed.

(** C35: however the network cuts a streamed answer into chunks, inside lines
    or inside code points, the chunks shown, the answer and the error are those
    of the whole text read at once, line by line; a read that fails or misses
    its deadline, 60 s before the first byte and 30 s after, only ends it. *)
Theorem stream_chunking b :
  read_stream b =
  let '(chunks, stop) := delivered (reads b) (end_delay b) 0 in
  match answer_to (from_utf8_lossy (concat chunks)) stop with
  | (c, Some e) => (shown c, Err e)
  | (c, None) => (shown c, response_of c)
  end.
Proof.
  unfold read_stream. rewrite (read_loop_runs _ _ [] [] default_decoder [] 0 nothing_yet);
    [|constructor|done|done].
  destruct (delivered _ _ _) as [chunks stop]. done.
Qed.

(** ** What is shown is what is answered *)

Definition text_of (c : StreamChunk * option ToolUseBlock) : str := default [] (delta_text c.1).
Definition reasoning_of (c : StreamChunk * option ToolUseBlock) : str := default [] (delta_reasoning c.1).
Definition faithful (c : Collected) : Prop :=
  full_text c = shown c ≫= text_of ∧ full_reasoning c = shown c ≫= reasoning_of ∧
  Forall (fun x => chunk_reset x.1 = false) (shown c).

Lemma collect_chunk_faithful c parsed : faithful c → faithful (collect_chunk c parsed).
Proof.
  intros (H1 & H2 & H3). unfold faithful. cbn [full_text full_reasoning shown collect_chunk].
  rewrite !bind_app, H1, H2. cbn. rewrite !app_nil_r. split_and!; [done..|].
  apply Forall_app. split; [done|]. by repeat constructor.
Qed.
Lemma run_lines_faithful ls : ∀ c, faithful c → faithful (run_lines c ls).1.
Proof.
  induction ls as [|l ls IH]; intros c Hc; [done|]. cbn [run_lines]. unfold process_line.
  destruct l as [|ch l]; [by apply IH|].
  destruct parse_openai_family_stream_line as [[parsed|]|e]; [|by apply IH|done].
  by apply IH, collect_chunk_faithful.
Qed.
(** The buffers of the display after chunks without a reset. *)
Lemma push_opt_buffer secrets sink snapshot delta_event now c d :
  buffer (push_opt secrets sink snapshot delta_event now c d).1 = buffer c ++ default [] d.
Proof.
  unfold push_opt, push_delta. destruct d as [d|]; [|cbn; by rewrite app_nil_r].
  repeat case_match; done.
Qed.
Lemma stream_buffers agent secrets sink chunks : ∀ st timed,
  Forall (fun x => chunk_reset x.1 = false) chunks → timed.*2 = chunks.*1 →
  let st' := (stream_chunks agent secrets sink st timed).1 in
  buffer (text_channel st') = buffer (text_channel st) ++ (chunks ≫= text_of) ∧
  buffer (reasoning_channel st') = buffer (reasoning_channel st) ++ (chunks ≫= reasoning_of).
Proof.
  induction chunks as [|[ch tu] chunks IH]; intros st timed Hf Ht.
  { destruct timed; [|done]. cbn. by rewrite !app_nil_r. }
  destruct timed as [|[now ch'] timed]; [done|]. cbn in Ht. simplify_eq.
  apply Forall_cons in Hf as [Hr Hf]. cbn [fst] in Hr. cbn [stream_chunks].
  unfold stream_assistant_chunk. rewrite Hr.
  pose proof (push_opt_buffer secrets sink (OnAssistantReasoning agent)
    (OnAssistantReasoningDelta agent) now (reasoning_channel st) (delta_reasoning ch)) as Hb1.
  pose proof (push_opt_buffer secrets sink (OnAssistantMessage agent)
    (OnAssistantMessageDelta agent) now (text_channel st) (delta_text ch)) as Hb2.
  destruct (push_opt _ _ _ _ _ (reasoning_channel st) _) as [r ev1].
  destruct (push_opt _ _ _ _ _ (text_channel st) _) as [t ev2]. cbn [fst] in Hb1, Hb2.
  specialize (IH {| text_channel := t; reasoning_channel := r |} timed Hf ltac:(done)).
  destruct (stream_chunks _ _ _ _ timed) as [st' ev']. cbn in IH |- *.
  rewrite Hb1, Hb2 in IH. by rewrite !(assoc_L (++)).
Qed.

(** The text and the reasoning of a streamed answer are what its chunks
    showed, and what the display of the agent loop has collected from them,
    whenever they arrived. *)
Theorem answer_is_what_was_shown b chunks resp :
  read_stream b = (chunks, Ok resp) →
  let text := default [] (am_text (resp_message resp)) in
  let reasoning := default [] (am_reasoning_content (resp_message resp)) in
  text = chunks ≫= text_of ∧ reasoning = chunks ≫= reasoning_of ∧
  ∀ agent secrets sink timed, timed.*2 = chunks.*1 →
    let st := (stream_chunks agent secrets sink default_stream timed).1 in
    buffer (text_channel st) = text ∧ buffer (reasoning_channel st) = reasoning.
Proof.
  unfold read_stream. rewrite (read_loop_runs _ _ [] [] default_decoder [] 0 nothing_yet);
    [|constructor|done|done].
  destruct (delivered _ _ _) as [bs stop]. unfold answer_to.
  pose proof (run_lines_faithful (complete_lines (from_utf8_lossy (concat bs))) nothing_yet) as Hf.
  cbn [app]. destruct (run_lines _ _) as [c [e|]]; [done|]. cbn [fst] in Hf.
  destruct stop; [done|]. intros [= <- Hr]. destruct Hf as (Ht & Hre & Hs).
  { split_and!; [done..|constructor]. }
  assert (default [] (am_text (resp_message resp)) = full_text c ∧
          default [] (am_reasoning_content (resp_message resp)) = full_reasoning c) as [-> ->].
  { unfold response_of in Hr. destruct (_ && _); [done|]. injection Hr as <-. cbn.
    by destruct (full_text c), (full_reasoning c). }
  split_and!; [done..|]. intros agent secrets sink timed Htm.
  rewrite Ht, Hre. exact (stream_buffers agent secrets sink (shown c) default_stream timed Hs Htm).
Qed.

(** ** Tool calls are assembled by index *)

Definition delta_idx (d : WireToolCallDelta) : nat := Z.to_nat (delta_index d).
Definition calls_needed (ds : list WireToolCallDelta) : nat :=
  foldl (fun n d => Nat.max n (S (delta_idx d))) O ds.

Lemma grow_length calls idx : length (grow calls idx) = Nat.max (length calls) (S idx).
Proof. unfold grow. rewrite length_app, length_replicate. lia. Qed.
Lemma grow_lookup calls idx i :
  grow calls idx !! i =
  if decide (i < length calls)%nat then calls !! i
  else if decide (i < S idx)%nat then Some blank_call else None.
Proof.
  unfold grow. destruct (decide (i < length calls)%nat); [by apply lookup_app_l|].
  rewrite lookup_app_r by lia. destruct (decide (i < S idx)%nat).
  - apply lookup_replicate_2. lia.
  - apply lookup_ge_None. rewrite length_replicate. lia.
Qed.

Lemma accumulate_length ds : length (foldl accumulate_delta [] ds) = calls_needed ds.
Proof.
  unfold calls_needed. induction ds as [|d ds IH] using rev_ind; [done|].
  rewrite !foldl_app. cbn [foldl]. unfold accumulate_delta at 1. by rewrite length_alter, grow_length, IH.
Qed.
Lemma delta_bounded ds d : d ∈ ds →
  (delta_idx d < foldl (fun n d => Nat.max n (S (delta_idx d))) O ds)%nat.
Proof.
  induction ds as [|d' ds IH] using rev_ind; [set_solver|]. rewrite foldl_app. cbn [foldl].
  intros [Hin|Hin]%elem_of_app; [specialize (IH Hin); lia|]. apply list_elem_of_singleton in Hin as ->. lia.
Qed.
(** The deltas of one call, in order. *)
Definition deltas_of (i : nat) (ds : list WireToolCallDelta) : list WireToolCallDelta :=
  filter (fun d => delta_idx d = i) ds.

Lemma accumulate_lookup ds i : (i < calls_needed ds)%nat →
  foldl accumulate_delta [] ds !! i = Some (foldl apply_delta blank_call (deltas_of i ds)).
Proof.
  induction ds as [|d ds IH] using rev_ind; [cbn; lia|]. intros Hi.
  pose proof (accumulate_length ds) as Hl. unfold calls_needed in *. rewrite foldl_app in Hi.
  rewrite foldl_app. cbn [foldl] in *. unfold accumulate_delta at 1. unfold deltas_of in *. rewrite filter_app, foldl_app.
  fold (delta_idx d). destruct (decide (delta_idx d = i)) as [<-|Hne].
  - rewrite list_lookup_alter_eq, filter_cons_True by done. cbn [filter list_filter foldl].
    rewrite grow_lookup, Hl. destruct (decide (_ < _)%nat) as [Hlt|Hge]; [by rewrite IH|].
    rewrite decide_True by lia. cbn. f_equal. f_equal.
    assert (filter (fun d' => delta_idx d' = delta_idx d) ds = []) as ->; [|done].
    apply elem_of_nil_inv. intros d' [Hd' Hin]%list_elem_of_filter.
    apply Hge. rewrite <-Hd'. by apply delta_bounded.
  - rewrite list_lookup_alter_ne by done. rewrite filter_cons_False by done. cbn [filter list_filter foldl].
    rewrite grow_lookup, Hl. destruct (decide (_ < _)%nat) as [Hlt|Hge]; [by rewrite IH|].
    rewrite decide_True by lia. f_equal.
    assert (filter (fun d' => delta_idx d' = i) ds = []) as ->; [|done].
    apply elem_of_nil_inv. intros d' [Hd' Hin]%list_elem_of_filter.
    apply Hge. rewrite <-Hd'. by apply delta_bounded.
Qed.

Lemma fold_arguments ds tc :
  fn_arguments (tc_function (foldl apply_delta tc ds))
  = fn_arguments (tc_function tc)
    ++ (ds ≫= (fun d => default [] (delta_function d ≫= delta_arguments))).
Proof.
  revert tc. induction ds as [|d ds IH]; intros tc; [cbn; by rewrite app_nil_r|].
  cbn [foldl]. rewrite IH. cbn. destruct (delta_function d); cbn; [|done].
  by rewrite <-(assoc_L (++)).
Qed.
(** The last of some texts that is not empty. *)
Definition last_nonempty (l : list (option str)) (old : str) : str :=
  foldl (fun acc x => nonempty_or x acc) old l.
Lemma fold_names ds tc :
  tc_id (foldl apply_delta tc ds) = last_nonempty (delta_id <$> ds) (tc_id tc) ∧
  fn_name (tc_function (foldl apply_delta tc ds))
  = last_nonempty ((fun d => delta_function d ≫= delta_name) <$> ds) (fn_name (tc_function tc)).
Proof.
  revert tc. induction ds as [|d ds IH]; intros tc; [done|].
  cbn [foldl]. destruct (IH (apply_delta tc d)) as [-> ->]. cbn.
  by destruct (delta_function d).
Qed.

(** Tool calls that arrive in pieces, interleaved in any way, are put
    together by their index: there is a call for every index up to the largest,
    its arguments are the pieces for that index joined in the order they came,
    its id and name the last ones given that are not empty. *)
Theorem tool_calls_assembled ds :
  let calls := foldl accumulate_delta [] ds in
  length calls = calls_needed ds ∧
  ∀ i, (i < calls_needed ds)%nat → ∃ tc, calls !! i = Some tc ∧
    fn_arguments (tc_function tc)
    = deltas_of i ds ≫= (fun d => default [] (delta_function d ≫= delta_arguments)) ∧
    tc_id tc = last_nonempty (delta_id <$> deltas_of i ds) [] ∧
    fn_name (tc_function tc)
    = last_nonempty ((fun d => delta_function d ≫= delta_name) <$> deltas_of i ds) [].
Proof.
  split; [apply accumulate_length|]. intros i Hi.
  exists (foldl apply_delta blank_call (deltas_of i ds)).
  split; [by apply accumulate_lookup|]. rewrite fold_arguments.
  destruct (fold_names (deltas_of i ds) blank_call) as [-> ->]. done.
Qed.
End Events.

(** ** A concrete stream *)

Module SseDemo.
#[local] Instance sse_text : JsonText := {| json_to_string _ := lit "{}"; json_to_string_pretty _ := lit "{}" |}.
#[local] Instance sse_parse : JsonParse := {| json_from_str _ := None |}.
(** An event is its text. *)
#[local] Instance tiny_events : EventParse := {|
  chunk_from_str s :=
    Ok {| cc_id := []; cc_object := []; cc_created := 0; cc_model := [];
          cc_choices := [{| choice_index := 0;
                            choice_delta := {| delta_role := None; delta_content := Some s;
                                               delta_reasoning_text := None; delta_tool_calls := None |};
                            choice_finish_reason := None |}];
          cc_usage := None; cc_kv_transfer_params := None |};
  overflow_match _ := false
|}.

(** Two events, cut inside the euro sign and inside a line. *)
Definition demo_body : Body :=
  {| reads := [(secs 50, Ok (encode (lit "data:4") ++ [226; 130]%N));
               (secs 1, Ok ([172; 10]%N ++ encode (lit "data: o")));
               (secs 29, Ok (encode (lit "k") ++ [10]%N))];
     end_delay := secs 1 |}.

Lemma answer_is_what_was_shown_witness :
  ∃ chunks resp, read_stream demo_body = (chunks, Ok resp) ∧
    default [] (am_text (resp_message resp)) = chunks ≫= text_of ∧
    chunks ≫= text_of = lit "4" ++ [8364%N] ++ lit "ok".
Proof.
  eexists _, _. split; [vm_compute; reflexivity|]. split; [|vm_compute; reflexivity].
  refine (proj1 (answer_is_what_was_shown demo_body _ _ _)). vm_compute. reflexivity.
Defined.
End SseDemo.
