(* ===== verification/Coordinator.v ===== *)
(** * The coordinator of writers and process creators

    crates/process-coordination/src/lib.rs: writers of executable files and
    creators of processes exclude one another, each group runs concurrently,
    and a waiting request of the other group seals the current batch. This file
    has the state behind the mutex and the operations made while it is held;
    [CoordRun] has the tasks, threads, wakers and the condition variable around
    it. Each operation is one atomic step; [None] is a panic. *)

From S2P Require Import Prelude.

Inductive Group := Write | Spawn.

#[global] Instance Group_eq_dec : EqDecision Group.
Proof. solve_decision. Defined.

Definition opposite (g : Group) : Group :=
  match g with Write => Spawn | Spawn => Write end.

(** A waker wakes the task that polls a request; it is the id of the request. *)
Abbreviation Waker := Z.

Record Entry := { group : Group; admitted : bool; waker : option Waker }.

Record State := {
  next_id : Z;
  active : option Group;
  holders : Z;
  sealed : bool;
  entries : gmap Z Entry;
  queues : list Z * list Z;
}.

Definition default_state : State :=
  {| next_id := 0; active := None; holders := 0; sealed := false; entries := ∅;
     queues := ([], []) |}.

(** [queues[group as usize]]. *)
Definition queue_of (qs : list Z * list Z) (g : Group) : list Z :=
  match g with Write => qs.1 | Spawn => qs.2 end.
Definition queue (st : State) (g : Group) : list Z := queue_of (queues st) g.
Definition with_queue (qs : list Z * list Z) (g : Group) (q : list Z) : list Z * list Z :=
  match g with Write => (q, qs.2) | Spawn => (qs.1, q) end.

(** [admitted] of a new request. *)
Definition admits (st : State) (g : Group) : bool :=
  bool_decide (active st = None) || (bool_decide (active st = Some g) && negb (sealed st)).

Definition request (g : Group) (st : State) : option (Z * State) :=
  let id := next_id st in
  if Word.u64_max <? id + 1 then None
  else
    let adm := admits st g in
    Some (id,
      {| next_id := id + 1;
         active := if adm then Some g else active st;
         holders := if adm then Word.add (holders st) 1 else holders st;
         sealed := if adm then sealed st else true;
         entries := <[id := {| group := g; admitted := adm; waker := None |}]> (entries st);
         queues := if adm then queues st else with_queue (queues st) g (queue st g ++ [id]) |}).

(** The loop of [release] over the batch: the admitted entries and the wakers
    to call. *)
Fixpoint admit_batch (batch : list Z) (es : gmap Z Entry) (wake : list Waker) :
    option (gmap Z Entry * list Waker) :=
  match batch with
  | [] => Some (es, wake)
  | id :: batch =>
      match es !! id with
      | None => None
      | Some e =>
          admit_batch batch (<[id := {| group := group e; admitted := true; waker := None |}]> es)
            (match waker e with Some w => wake ++ [w] | None => wake end)
      end
  end.

(** The group that enters when the last holder has left. *)
Definition next_group (st : State) (previous : Group) : option Group :=
  List.find (fun g => negb (bool_decide (queue st g = []))) [opposite previous; previous].

Definition switch (st : State) (previous : Group) : option (State * list Waker) :=
  match next_group st previous with
  | Some g =>
      let batch := queue st g in
      match admit_batch batch (entries st) [] with
      | None => None
      | Some (es, wake) =>
          Some ({| next_id := next_id st; active := Some g; holders := Z.of_nat (length batch);
                   sealed := true; entries := es; queues := with_queue (queues st) g [] |}, wake)
      end
  | None =>
      Some ({| next_id := next_id st; active := None; holders := holders st; sealed := false;
               entries := entries st; queues := queues st |}, [])
  end.

(** [release] before the test for the last holder. *)
Definition remove_entry (id : Z) (entry : Entry) (st : State) : State :=
  {| next_id := next_id st;
     active := active st;
     holders := if admitted entry then Word.usize_wrap (holders st - 1) else holders st;
     sealed := sealed st;
     entries := delete id (entries st);
     queues := if admitted entry then queues st
               else with_queue (queues st) (group entry)
                      (filter (fun queued => queued ≠ id) (queue st (group entry))) |}.

(** [release] up to [drop(state)]; the wakers are called afterwards. *)
Definition release (id : Z) (st : State) : option (State * list Waker) :=
  match entries st !! id with
  | None => None
  | Some entry =>
      let st := remove_entry id entry st in
      if holders st =? 0 then switch st (default (group entry) (active st)) else Some (st, [])
  end.

(** [Acquire::poll]: true is [Poll::Ready]. *)
Definition poll (id : Z) (w : Waker) (st : State) : option (bool * State) :=
  match entries st !! id with
  | None => None
  | Some entry =>
      if admitted entry then Some (true, st)
      else Some (false,
        {| next_id := next_id st; active := active st; holders := holders st; sealed := sealed st;
           entries := <[id := {| group := group entry; admitted := false; waker := Some w |}]>
                        (entries st);
           queues := queues st |})
  end.

(** ** Deadlines *)

(** [with_deadline]: the deadline a nested scope sees. *)
Definition with_deadline (current : option Z) (deadline : Z) : Z :=
  match current with Some parent => Z.min parent deadline | None => deadline end.

Definition expired (now : Z) (deadline : option Z) : bool :=
  match deadline with Some d => d <=? now | None => false end.

Definition spawn_deadline (deadline current : option Z) : option Z :=
  match deadline, current with
  | Some a, Some b => Some (Z.min a b)
  | Some a, None => Some a
  | None, b => b
  end.

Inductive IoError := TimedOut | SpawnFailed.

(** [spawn_permit] once the wait is over; [elapsed] is what [timeout_at] says
    when there is a deadline. *)
Definition spawn_permit (deadline : option Z) (elapsed : bool) : result unit IoError :=
  match deadline with
  | Some _ => if elapsed then Err TimedOut else Ok tt
  | None => Ok tt
  end.

(** [spawn_tokio_with_deadline]; [now] is the clock after the admission and
    [spawn] the system call. *)
Definition spawn_tokio_with_deadline {C} (now : Z) (spawn : unit → result C IoError)
    (deadline current : option Z) (elapsed : bool) : result C IoError :=
  let deadline := spawn_deadline deadline current in
  let? _ := spawn_permit deadline elapsed in
  if expired now deadline then Err TimedOut else spawn tt.

(** [spawn_std]: the deadline is the one of the scope. *)
Definition spawn_std {C} (now : Z) (spawn : unit → result C IoError)
    (current : option Z) (elapsed : bool) : result C IoError :=
  let? _ := spawn_permit current elapsed in
  if expired now current then Err TimedOut else spawn tt.

(** [spawn_std_blocking]: the wait itself has no deadline. *)
Definition spawn_std_blocking {C} (now : Z) (spawn : unit → result C IoError)
    (current : option Z) : result C IoError :=
  if expired now current then Err TimedOut else spawn tt.

(** ** The invariant *)

Definition is_waiting (st : State) (id : Z) : Prop :=
  ∃ e, entries st !! id = Some e ∧ admitted e = false.

(** The requests that hold a slot. *)
Definition held_of (es : gmap Z Entry) : gset Z :=
  dom (filter (fun p => admitted p.2 = true) es).
Definition held (st : State) : gset Z := held_of (entries st).

Record queued (st : State) : Prop := {
  wf_next : 0 ≤ next_id st ≤ Word.u64_max;
  wf_ids id : is_Some (entries st !! id) → 0 ≤ id < next_id st;
  wf_queue g id :
    id ∈ queue st g ↔ ∃ e, entries st !! id = Some e ∧ group e = g ∧ admitted e = false;
  wf_fifo g : StronglySorted Z.lt (queue st g);
  wf_sealed id : is_waiting st id → sealed st = true;
}.

Record wf (st : State) : Prop := {
  wf_queued :> queued st;
  wf_holders : holders st = Z.of_nat (size (held st));
  wf_active id e : entries st !! id = Some e → admitted e = true → active st = Some (group e);
  wf_idle : holders st = 0 → active st = None;
  wf_busy : active st = None → entries st = ∅ ∧ sealed st = false;
}.

Lemma opposite_ne g g' : g' ≠ g → g' = opposite g.
Proof. by destruct g, g'. Qed.

Lemma queue_of_with qs g g' q :
  queue_of (with_queue qs g q) g' = if bool_decide (g = g') then q else queue_of qs g'.
Proof. by destruct g, g'. Qed.

Lemma elem_of_held es id :
  id ∈ held_of es ↔ ∃ e, es !! id = Some e ∧ admitted e = true.
Proof.
  unfold held_of. rewrite elem_of_dom. split.
  - intros [e He]. apply map_lookup_filter_Some in He. eauto.
  - intros (e & H1 & H2). exists e. by apply map_lookup_filter_Some.
Qed.

Lemma wf_holders_lt st : wf st → 0 ≤ holders st ≤ next_id st.
Proof.
  intros H. rewrite (wf_holders _ H).
  assert (held st ⊆ list_to_set (seqZ 0 (next_id st))) as Hs.
  { intros id (e & He & _)%elem_of_held. apply elem_of_list_to_set, elem_of_seqZ.
    pose proof (wf_ids _ H id). rewrite He in *. specialize (H0 (mk_is_Some _ _ eq_refl)). lia. }
  apply subseteq_size in Hs. rewrite size_list_to_set in Hs by apply NoDup_seqZ.
  rewrite length_seqZ in Hs. pose proof (wf_next _ H). lia.
Qed.

(** A held slot is counted. *)
Lemma held_positive st id e :
  wf st → entries st !! id = Some e → admitted e = true → 0 < holders st.
Proof.
  intros H He Ha. rewrite (wf_holders _ H).
  assert (id ∈ held st) as Hin by (apply elem_of_held; eauto).
  assert (size (held st) ≠ 0%nat); [|lia]. intros Hz%size_empty_inv. set_solver.
Qed.

(** While a request waits, somebody holds a slot. *)
Lemma waiting_busy st id : wf st → is_waiting st id → 0 < holders st.
Proof.
  intros H (e & He & _). pose proof (wf_holders_lt _ H).
  destruct (decide (holders st = 0)) as [Hz|]; [|lia].
  destruct (wf_busy _ H (wf_idle _ H Hz)) as [Hn _]. rewrite Hn, lookup_empty in He. done.
Qed.

(** *** [request] *)

Lemma held_insert es id e :
  es !! id = None →
  held_of (<[id := e]> es) = if admitted e then {[id]} ∪ held_of es else held_of es.
Proof.
  intros Hf. apply set_eq. intros i. destruct (decide (i = id)) as [->|Hne].
  - rewrite elem_of_held, lookup_insert_eq. destruct (admitted e) eqn:Ea.
    + set_solver.
    + rewrite elem_of_held, Hf. split; intros (? & ? & ?); congruence.
  - rewrite elem_of_held, lookup_insert_ne, <- elem_of_held by done.
    destruct (admitted e); set_solver.
Qed.

Lemma held_delete es id : held_of (delete id es) = held_of es ∖ {[id]}.
Proof.
  apply set_eq. intros i. rewrite elem_of_difference, elem_of_singleton, !elem_of_held.
  destruct (decide (i = id)) as [->|Hne].
  - rewrite lookup_delete_eq. split; [intros (? & ? & ?); congruence|intros [_ []]; done].
  - rewrite lookup_delete_ne by done. tauto.
Qed.

(** An id that is not yet given out is in no queue. *)
Lemma wf_fresh st : wf st → entries st !! next_id st = None.
Proof.
  intros H. destruct (entries st !! next_id st) eqn:E; [|done].
  pose proof (wf_ids _ H (next_id st) (mk_is_Some _ _ E)). lia.
Qed.

Lemma queue_below st g id : wf st → id ∈ queue st g → 0 ≤ id < next_id st.
Proof. intros H (e & He & _)%(wf_queue _ H). apply (wf_ids _ H). eauto. Qed.

Lemma sorted_snoc l x : StronglySorted Z.lt l → (∀ y, y ∈ l → y < x) → StronglySorted Z.lt (l ++ [x]).
Proof.
  induction 1 as [|y l Hs IH Hf]; intros Hx; simpl; [repeat constructor|].
  constructor; [apply IH; set_solver|]. apply Forall_app. split; [done|].
  constructor; [apply Hx; set_solver|constructor].
Qed.

(** The state that [request] leaves when it admits, and when it queues. *)
Lemma admit_wf g st :
  wf st → admits st g = true → next_id st + 1 ≤ Word.u64_max →
  wf {| next_id := next_id st + 1; active := Some g; holders := Word.add (holders st) 1;
        sealed := sealed st;
        entries := <[next_id st := {| group := g; admitted := true; waker := None |}]> (entries st);
        queues := queues st |}.
Proof.
  intros H Ha Hov. pose proof (wf_holders_lt _ H) as Hb. pose proof (wf_next _ H) as Hn.
  pose proof (wf_fresh _ H) as Hf.
  assert (Word.add (holders st) 1 = holders st + 1) as Hadd.
  { apply Word.add_id. unfold Word.in_usize, Word.usize_max, Word.u64_max in *. lia. }
  assert (active st = None ∨ active st = Some g) as Hact.
  { apply orb_true_iff in Ha as [?%bool_decide_eq_true|Ha]; [by left|b2p; auto]. }
  constructor; [constructor|..]; unfold is_waiting, held, queue; simpl; rewrite ?Hadd.
  - lia.
  - intros i [e He]. apply lookup_insert_Some in He as [[<- _]|[_ He]]; [lia|].
    pose proof (wf_ids _ H i (mk_is_Some _ _ He)). lia.
  - intros g' i. fold (queue st g'). rewrite (wf_queue _ H). split.
    + intros (e & He & ?). exists e. rewrite lookup_insert_ne by congruence. done.
    + intros (e & He & ? & ?). apply lookup_insert_Some in He as [[_ <-]|[_ He]]; [done|eauto].
  - apply (wf_fifo _ H).
  - intros i (e & He & Hw). apply lookup_insert_Some in He as [[_ <-]|[_ He]]; [done|].
    apply (wf_sealed _ H i). by exists e.
  - rewrite held_insert by done. simpl. rewrite size_union, size_singleton.
    + rewrite (wf_holders _ H). unfold held. lia.
    + apply disjoint_singleton_l. intros (e & He & _)%elem_of_held. congruence.
  - intros i e He Hadm. apply lookup_insert_Some in He as [[_ <-]|[_ He]]; [done|].
    rewrite <- (wf_active _ H i e He Hadm). destruct Hact as [Hx| ->]; [|done].
    apply (wf_busy _ H) in Hx as [Hx _]. rewrite Hx, lookup_empty in He. done.
  - lia.
  - done.
Qed.

Lemma enqueue_wf g st :
  wf st → admits st g = false → next_id st + 1 ≤ Word.u64_max →
  wf {| next_id := next_id st + 1; active := active st; holders := holders st; sealed := true;
        entries := <[next_id st := {| group := g; admitted := false; waker := None |}]> (entries st);
        queues := with_queue (queues st) g (queue st g ++ [next_id st]) |}.
Proof.
  intros H Ha Hov. pose proof (wf_holders_lt _ H) as Hb. pose proof (wf_next _ H) as Hn.
  pose proof (wf_fresh _ H) as Hf. apply orb_false_iff in Ha as [Ha _]. b2p.
  constructor; [constructor|..]; unfold is_waiting, held, queue; simpl.
  - lia.
  - intros i [e He]. apply lookup_insert_Some in He as [[<- _]|[_ He]]; [lia|].
    pose proof (wf_ids _ H i (mk_is_Some _ _ He)). lia.
  - intros g' i. rewrite queue_of_with. fold (queue st g'). fold (queue st g).
    destruct (decide (i = next_id st)) as [->|Hne].
    + rewrite lookup_insert_eq. case_bool_decide as Hg.
      * split; [intros _; eexists; eauto|intros _; set_solver].
      * split; [intros Hq%queue_below; [lia|done]|intros (e & [= <-] & ? & _); done].
    + rewrite lookup_insert_ne, <- (wf_queue _ H) by done. case_bool_decide; [subst; set_solver|done].
  - intros g'. rewrite queue_of_with. case_bool_decide; [|apply (wf_fifo _ H)].
    apply sorted_snoc; [apply (wf_fifo _ H)|]. intros y Hy%queue_below; [lia|done].
  - done.
  - rewrite held_insert by done. apply (wf_holders _ H).
  - intros i e He Hadm. apply lookup_insert_Some in He as [[_ <-]|[_ He]]; [done|].
    apply (wf_active _ H i e He Hadm).
  - apply (wf_idle _ H).
  - done.
Qed.

Lemma request_wf g st id st' : wf st → request g st = Some (id, st') → wf st'.
Proof.
  intros H. unfold request. case_match eqn:Hov; [discriminate|]. apply Z.ltb_ge in Hov.
  intros [= <- <-]. destruct (admits st g) eqn:Ha; [by apply admit_wf|by apply enqueue_wf].
Qed.

(** *** [poll] *)

(** The invariant does not depend on the wakers. *)
Lemma wf_wakers st es :
  (∀ i, (fun e => (group e, admitted e)) <$> es !! i =
        (fun e => (group e, admitted e)) <$> entries st !! i) →
  wf st →
  wf {| next_id := next_id st; active := active st; holders := holders st; sealed := sealed st;
        entries := es; queues := queues st |}.
Proof.
  intros Hes H.
  assert (∀ i e, es !! i = Some e →
            ∃ e', entries st !! i = Some e' ∧ group e' = group e ∧ admitted e' = admitted e) as H1.
  { intros i e He. specialize (Hes i). rewrite He in Hes. symmetry in Hes.
    apply fmap_Some in Hes as (e' & ? & [= ? ?]). eauto. }
  assert (∀ i e, entries st !! i = Some e →
            ∃ e', es !! i = Some e' ∧ group e' = group e ∧ admitted e' = admitted e) as H2.
  { intros i e He. specialize (Hes i). rewrite He in Hes.
    apply fmap_Some in Hes as (e' & ? & [= ? ?]). eauto. }
  constructor; [constructor|..]; unfold is_waiting, held, queue; simpl.
  - apply (wf_next _ H).
  - intros i [e (e' & ? & _)%H1]. apply (wf_ids _ H). eauto.
  - intros g i. rewrite (wf_queue _ H g i). split; intros (e & He & <- & <-);
      [apply H2 in He|apply H1 in He]; destruct He as (e' & ? & ? & ?); eauto.
  - apply (wf_fifo _ H).
  - intros i (e & (e' & ? & _ & <-)%H1 & Hw). apply (wf_sealed _ H i). by exists e'.
  - rewrite (wf_holders _ H). do 2 f_equal. apply set_eq. intros i. unfold held.
    rewrite !elem_of_held. split; intros (e & He & <-);
      [apply H2 in He|apply H1 in He]; destruct He as (e' & ? & _ & ?); eauto.
  - intros i e (e' & He & <- & <-)%H1. apply (wf_active _ H i e' He).
  - apply (wf_idle _ H).
  - intros [Hn ?]%(wf_busy _ H). split; [|done]. apply map_empty. intros i.
    destruct (es !! i) eqn:E; [|done]. apply H1 in E as (e' & He & _).
    rewrite Hn, lookup_empty in He. done.
Qed.

Lemma poll_wf id w st r st' : wf st → poll id w st = Some (r, st') → wf st'.
Proof.
  intros H. unfold poll. destruct (entries st !! id) as [e|] eqn:He; [|discriminate].
  destruct (admitted e) eqn:Ha; intros [= <- <-]; [done|]. apply wf_wakers; [|done].
  intros i. destruct (decide (i = id)) as [->|]; [|by rewrite lookup_insert_ne].
  by rewrite lookup_insert_eq, He; simpl; rewrite Ha.
Qed.

(** *** [release] *)

Lemma sorted_filter (P : Z → Prop) `{∀ x, Decision (P x)} l :
  StronglySorted Z.lt l → StronglySorted Z.lt (filter P l).
Proof.
  induction 1 as [|y l Hs IH Hf]; [constructor|]. rewrite filter_cons. case_decide; [|done].
  constructor; [done|]. apply Forall_forall. intros x [_ Hx]%list_elem_of_filter.
  by eapply Forall_forall in Hf.
Qed.

Lemma remove_queued id e st : queued st → entries st !! id = Some e → queued (remove_entry id e st).
Proof.
  intros H He. unfold remove_entry. constructor; unfold is_waiting, queue; simpl.
  - apply (wf_next _ H).
  - intros i [e' [_ ?]%lookup_delete_Some]. apply (wf_ids _ H). eauto.
  - intros g i. destruct (decide (i = id)) as [->|Hne].
    + rewrite lookup_delete_eq. split; [|intros (? & ? & _); congruence].
      destruct (admitted e) eqn:Ha.
      * intros (e' & He' & _ & Hw)%(wf_queue _ H). congruence.
      * rewrite queue_of_with. case_bool_decide as Hg.
        -- intros [? _]%list_elem_of_filter. congruence.
        -- intros (e' & He' & ? & _)%(wf_queue _ H). congruence.
    + rewrite lookup_delete_ne, <- (wf_queue _ H) by done. destruct (admitted e); [done|].
      rewrite queue_of_with. case_bool_decide; [|done]. subst g. rewrite list_elem_of_filter. tauto.
  - intros g. destruct (admitted e); [apply (wf_fifo _ H)|]. rewrite queue_of_with.
    case_bool_decide; [apply sorted_filter|]; apply (wf_fifo _ H).
  - intros i (e' & [_ ?]%lookup_delete_Some & Hw). apply (wf_sealed _ H i). by exists e'.
Qed.

Lemma remove_holders id e st :
  wf st → entries st !! id = Some e →
  holders (remove_entry id e st) = Z.of_nat (size (held (remove_entry id e st))) ∧
  holders (remove_entry id e st) = if admitted e then holders st - 1 else holders st.
Proof.
  intros H He. pose proof (wf_holders_lt _ H) as Hb. pose proof (wf_next _ H) as Hn.
  unfold held, remove_entry; simpl. rewrite held_delete. destruct (admitted e) eqn:Ha.
  - assert (id ∈ held_of (entries st)) as Hin by (apply elem_of_held; eauto).
    pose proof (held_positive _ _ _ H He Ha). rewrite Word.wrap_id.
    + split; [|done]. rewrite (wf_holders _ H). unfold held. rewrite size_difference by set_solver.
      rewrite size_singleton. pose proof (wf_holders _ H). unfold held in *. lia.
    + unfold Word.in_usize, Word.usize_max, Word.u64_max in *. lia.
  - split; [|done]. rewrite (wf_holders _ H). do 2 f_equal. unfold held.
    assert (id ∉ held_of (entries st)); [|set_solver]. intros (? & ? & ?)%elem_of_held. congruence.
Qed.

(** Not the last holder: the batch goes on. *)
Lemma remove_wf id e st :
  wf st → entries st !! id = Some e → holders (remove_entry id e st) ≠ 0 → wf (remove_entry id e st).
Proof.
  intros H He Hh. destruct (remove_holders _ _ _ H He) as [H1 H2].
  constructor; [apply remove_queued; [apply H|done]|done|..].
  - simpl. intros i e' [_ Hl]%lookup_delete_Some. apply (wf_active _ H i e' Hl).
  - done.
  - simpl. intros [Hn _]%(wf_busy _ H). rewrite Hn, lookup_empty in He. done.
Qed.

Definition enter_batch (e : Entry) : Entry := {| group := group e; admitted := true; waker := None |}.

Lemma admit_batch_spec batch es wake :
  NoDup batch → (∀ id, id ∈ batch → is_Some (es !! id)) →
  ∃ es', admit_batch batch es wake
           = Some (es', wake ++ omap (fun id => es !! id ≫= waker) batch) ∧
         ∀ id, es' !! id = (if bool_decide (id ∈ batch) then enter_batch <$> es !! id else es !! id).
Proof.
  revert es wake. induction batch as [|id batch IH]; intros es wake Hnd Hin; simpl.
  - exists es. by rewrite app_nil_r.
  - apply NoDup_cons in Hnd as [Hni Hnd].
    destruct (Hin id) as [e He]; [set_solver|]. rewrite He.
    destruct (IH (<[id := enter_batch e]> es)
                (match waker e with Some w => wake ++ [w] | None => wake end))
      as (es' & Heq & Hl); [done|..].
    + intros i Hi. rewrite lookup_insert_ne by set_solver. apply Hin. set_solver.
    + exists es'. split.
      * assert (omap (λ i, <[id := enter_batch e]> es !! i ≫= waker) batch
                = omap (λ i, es !! i ≫= waker) batch) as Ho.
        { apply list_omap_ext, Forall2_same_length_lookup. split; [done|].
          intros k x y Hx Hy. simplify_eq. apply list_elem_of_lookup_2 in Hx.
          rewrite lookup_insert_ne by set_solver. done. }
        rewrite Ho in Heq. unfold enter_batch in Heq. rewrite Heq. simpl.
        destruct (waker e); simpl; by rewrite <- ?app_assoc.
      * intros i. rewrite Hl. destruct (decide (i = id)) as [->|Hne].
        -- rewrite (bool_decide_eq_false_2 (id ∈ batch)), bool_decide_eq_true_2 by (done || left).
           by rewrite lookup_insert_eq, He.
        -- rewrite lookup_insert_ne by done.
           rewrite (bool_decide_ext (i ∈ batch) (i ∈ id :: batch)); [done|].
           rewrite elem_of_cons. tauto.
Qed.

(** What the last holder leaves: nobody is admitted. *)
Definition drained (st : State) : Prop :=
  queued st ∧ holders st = 0 ∧ ∀ id e, entries st !! id = Some e → admitted e = false.

Lemma next_group_None st p : drained st → next_group st p = None → entries st = ∅.
Proof.
  intros (H & _ & Hw) Hn. unfold next_group in Hn. simpl in Hn.
  assert (∀ g, queue st g = []) as Hq.
  { intros g. destruct (decide (g = p)) as [->|Hg%opposite_ne]; [|subst g];
      repeat case_bool_decide; simpl in *; congruence. }
  apply map_empty. intros i. destruct (entries st !! i) as [e|] eqn:E; [|done].
  assert (i ∈ queue st (group e)) as Hi by (apply (wf_queue _ H); eauto).
  rewrite Hq in Hi. by apply not_elem_of_nil in Hi.
Qed.

Lemma next_group_Some st p g :
  next_group st p = Some g → queue st g ≠ [] ∧ (g = opposite p ∨ g = p ∧ queue st (opposite p) = []).
Proof.
  unfold next_group. simpl. repeat case_bool_decide; simpl; intros [= <-]; auto.
Qed.

Lemma sorted_NoDup l : StronglySorted Z.lt l → NoDup l.
Proof.
  induction 1 as [|x l Hs IH Hf]; constructor; [|done]. intros Hx.
  eapply Forall_forall in Hf; [|done]. lia.
Qed.

(** What [switch] leaves: the requests of the next group, if there is one, are
    admitted together and their wakers are to be called. *)
Definition switched (st : State) (p : Group) (st' : State) (wake : list Waker) : Prop :=
  next_id st' = next_id st ∧
  match next_group st p with
  | None => entries st = ∅ ∧ entries st' = ∅ ∧ wake = []
  | Some g =>
      active st' = Some g ∧ wake = omap (fun id => entries st !! id ≫= waker) (queue st g) ∧
      ∀ id, entries st' !! id =
        if bool_decide (id ∈ queue st g) then enter_batch <$> entries st !! id else entries st !! id
  end.

Lemma switch_wf st p :
  drained st → ∃ st' wake, switch st p = Some (st', wake) ∧ wf st' ∧ switched st p st' wake.
Proof.
  intros Hd. pose proof Hd as (H & Hz & Hw). unfold switch, switched.
  destruct (next_group st p) as [g|] eqn:Hn.
  - apply next_group_Some in Hn as [Hne _]. set (batch := queue st g) in *.
    assert (NoDup batch) as Hnd by apply sorted_NoDup, (wf_fifo _ H).
    destruct (admit_batch_spec batch (entries st) []) as (es' & -> & Hes); [done|..].
    { intros i (e & He & _)%(wf_queue _ H). eauto. }
    eexists _, _. split; [done|]. split; [|done].
    assert (∀ i e, es' !! i = Some e → ∃ e', entries st !! i = Some e' ∧
       group e = group e' ∧ admitted e = bool_decide (i ∈ batch)) as Hes'.
    { intros i e He. rewrite Hes in He. case_bool_decide.
      - apply fmap_Some in He as (e' & ? & ->). eauto.
      - pose proof (Hw _ _ He). eauto. }
    assert (held_of es' = list_to_set batch) as Hheld.
    { apply set_eq. intros i. rewrite elem_of_held, elem_of_list_to_set. split.
      - intros (e & (e' & _ & _ & Ha)%Hes' & Ha'). rewrite Ha in Ha'. by b2p.
      - intros Hi. rewrite Hes. rewrite bool_decide_eq_true_2 by done.
        apply (wf_queue _ H) in Hi as (e & -> & _). simpl. eexists. split; [done|]. done. }
    constructor; [constructor|..]; unfold is_waiting, queue, held; simpl.
    + apply (wf_next _ H).
    + intros i [e (e' & ? & _)%Hes']. apply (wf_ids _ H). eauto.
    + intros g' i. rewrite queue_of_with. fold (queue st g').
      split.
      * case_bool_decide as Hg; [by intros ?%not_elem_of_nil|].
        intros (e & He & Hge & ?)%(wf_queue _ H). exists e. rewrite Hes, bool_decide_eq_false_2; [done|].
        intros (e' & He' & ? & _)%(wf_queue _ H). congruence.
      * intros (e & (e' & He' & Hg' & Ha)%Hes' & Hg & Haf). rewrite Haf in Ha. symmetry in Ha. b2p.
        assert (i ∈ queue st g') as Hi.
        { apply (wf_queue _ H). exists e'. split; [done|]. split; [congruence|eauto]. }
        case_bool_decide; [exfalso; apply Ha; unfold batch; congruence|done].
    + intros g'. rewrite queue_of_with. case_bool_decide; [constructor|apply (wf_fifo _ H)].
    + done.
    + rewrite Hheld, size_list_to_set by done. done.
    + intros i e (e' & He' & Hg & Ha)%Hes' Hadm. rewrite Hadm in Ha. symmetry in Ha. b2p.
      apply (wf_queue _ H) in Ha as (e2 & ? & ? & _). congruence.
    + intros Hl. destruct batch; [done|simpl in Hl; lia].
    + done.
  - pose proof (next_group_None _ _ Hd Hn) as Hemp. eexists _, _. split; [done|]. split; [|done].
    constructor; [constructor|..]; unfold is_waiting, queue, held; simpl; rewrite ?Hemp; try done.
    + apply (wf_next _ H).
    + intros i [? Hx]. by rewrite lookup_empty in Hx.
    + intros g i. rewrite <- Hemp. apply (wf_queue _ H).
    + apply (wf_fifo _ H).
    + intros i (e & Hx & _). by rewrite lookup_empty in Hx.
Qed.

(** [release] of a live request never panics; it goes on with the batch or, for
    the last holder, switches. *)
Lemma release_cases id e st :
  wf st → entries st !! id = Some e →
  ∃ st' wake, release id st = Some (st', wake) ∧ wf st' ∧
    ((admitted e = true → 1 < holders st) ∧ st' = remove_entry id e st ∧ wake = [] ∨
     admitted e = true ∧ holders st = 1 ∧ switched (remove_entry id e st) (group e) st' wake).
Proof.
  intros H He. unfold release. rewrite He. destruct (remove_holders _ _ _ H He) as [H1 H2].
  destruct (holders (remove_entry id e st) =? 0) eqn:Hz.
  - apply Z.eqb_eq in Hz.
    assert (admitted e = true) as Ha.
    { destruct (admitted e) eqn:Ha; [done|]. exfalso.
      assert (0 < holders st) by (apply (waiting_busy _ id H); by exists e).
      lia. }
    rewrite Ha in H2. simpl. rewrite (wf_active _ H id e He Ha). simpl.
    destruct (switch_wf (remove_entry id e st) (group e)) as (st' & wake & Hs & Hwf & Hsw).
    { split; [apply remove_queued; [apply H|done]|]. split; [done|]. intros i e' Hi.
      destruct (admitted e') eqn:Ha'; [|done]. exfalso.
      assert (i ∈ held (remove_entry id e st)) as Hin by (apply elem_of_held; eauto).
      assert (size (held (remove_entry id e st)) = 0%nat) as Hs%size_empty_inv by lia. set_solver. }
    exists st', wake. rewrite Hs. split; [done|]. split; [done|]. right. split; [done|]. split; [lia|done].
  - apply Z.eqb_neq in Hz. eexists _, _. split; [done|]. split; [by apply remove_wf|]. left.
    split; [|done]. intros Ha. rewrite Ha in H2. pose proof (held_positive _ _ _ H He Ha). lia.
Qed.

(** What [release] does to the entries: [id] goes, the others stay as they are
    or are admitted, and then their waker is among those to be called. *)
Lemma release_entries id e st st' wake :
  wf st → entries st !! id = Some e → release id st = Some (st', wake) →
  entries st' !! id = None ∧
  ∀ i, i ≠ id → entries st' !! i = entries st !! i ∨
    ∃ ei, entries st !! i = Some ei ∧ admitted ei = false ∧ entries st' !! i = Some (enter_batch ei) ∧
          ∀ w, waker ei = Some w → w ∈ wake.
Proof.
  intros H He Hr. destruct (release_cases _ _ _ H He) as (st1 & wake1 & Hr' & _ & Hc).
  rewrite Hr in Hr'. injection Hr' as <- <-.
  destruct Hc as [(_ & -> & ->)|(Ha & _ & _ & Hsw)]; simpl in *.
  - split; [apply lookup_delete_eq|]. intros i Hne. rewrite lookup_delete_ne by done. auto.
  - pose proof (remove_queued _ _ _ (wf_queued _ H) He) as Hq.
    destruct (next_group _ _) as [g|].
    + destruct Hsw as (_ & -> & Hes). split.
      * rewrite Hes, lookup_delete_eq. by case_bool_decide.
      * intros i Hne. rewrite Hes. rewrite lookup_delete_ne by done.
        case_bool_decide as Hi; [|by left]. right.
        pose proof Hi as (ei & Hei & _ & Hw)%(wf_queue _ Hq). simpl in Hei.
        rewrite lookup_delete_ne in Hei by done. rewrite Hei. exists ei. split_and!; [done..|].
        intros w Hwk. apply list_elem_of_omap. exists i. split; [done|].
        rewrite lookup_delete_ne, Hei by done. done.
    + destruct Hsw as (Hemp & -> & _). split; [done|]. intros i Hne. left.
      rewrite <- Hemp, lookup_delete_ne by done. done.
Qed.

(** ** Progress of a waiting request *)

(** How many times the last holder still has to leave before [id] is admitted. *)
Definition rank (st : State) (id : Z) : Z :=
  match entries st !! id with
  | Some e =>
      if admitted e then 0 else if bool_decide (active st = Some (group e)) then 2 else 1
  | None => 0
  end.

Definition potential (st : State) (id : Z) : Z := rank st id * 2 ^ 64 + holders st.

Definition is_admitted (st : State) (id : Z) : Prop :=
  ∃ e, entries st !! id = Some e ∧ admitted e = true.

Lemma potential_nonneg st id : wf st → 0 ≤ potential st id.
Proof.
  intros H. pose proof (wf_holders_lt _ H). unfold potential, rank. repeat case_match; lia.
Qed.

(** While a request waits no new request is admitted, and the potential does
    not change. *)
Lemma request_progress g st i id st' :
  wf st → is_waiting st id → request g st = Some (i, st') →
  is_waiting st' id ∧ potential st' id = potential st id.
Proof.
  intros H Hw Hr. pose proof (waiting_busy _ _ H Hw) as Hb.
  pose proof (wf_sealed _ H _ Hw) as Hs. destruct Hw as (e & He & Ha).
  assert (admits st g = false) as Hadm.
  { unfold admits. rewrite Hs, andb_false_r, orb_false_r. apply bool_decide_eq_false_2.
    intros Hn. apply (wf_busy _ H) in Hn as [Hn _]. rewrite Hn, lookup_empty in He. done. }
  unfold request in Hr. rewrite Hadm in Hr. case_match; [discriminate|]. injection Hr as <- <-.
  assert (next_id st ≠ id) by (pose proof (wf_fresh _ H); congruence).
  unfold is_waiting, potential, rank; simpl. rewrite lookup_insert_ne, He, Ha by done. eauto.
Qed.

Lemma poll_progress j w r st id st' :
  is_waiting st id → poll j w st = Some (r, st') →
  is_waiting st' id ∧ potential st' id = potential st id.
Proof.
  intros (e & He & Ha). unfold poll. destruct (entries st !! j) as [ej|] eqn:Hj; [|discriminate].
  destruct (admitted ej) eqn:Haj; intros [= <- <-]; unfold is_waiting, potential, rank; simpl.
  - rewrite He, Ha. eauto.
  - destruct (decide (j = id)) as [->|Hne].
    + rewrite lookup_insert_eq. assert (ej = e) as -> by congruence. rewrite He, Ha. simpl. eauto.
    + rewrite lookup_insert_ne, He, Ha by done. eauto.
Qed.

(** A release of another request admits [id], or [id] still waits and the
    potential has not grown; it is smaller if a holder left. *)
Lemma release_progress j e st id st' wake :
  wf st → is_waiting st id → j ≠ id → entries st !! j = Some e → release j st = Some (st', wake) →
  is_admitted st' id ∨
  is_waiting st' id ∧ potential st' id ≤ potential st id ∧
  (admitted e = true → potential st' id < potential st id).
Proof.
  intros H (e' & He' & Ha') Hne He Hr.
  destruct (release_cases _ _ _ H He) as (st1 & wake1 & Hr' & Hwf & Hc).
  rewrite Hr in Hr'. injection Hr' as <- <-. pose proof (wf_holders_lt _ H) as Hb.
  assert (entries (remove_entry j e st) !! id = Some e') as Hid.
  { simpl. by rewrite lookup_delete_ne. }
  destruct Hc as [(Hl & -> & ->)|(Ha & Hone & _ & Hsw)].
  - right. destruct (remove_holders _ _ _ H He) as [_ Hh].
    unfold is_waiting, potential, rank. rewrite Hid, He', Ha', Hh. simpl.
    split; [eauto|]. destruct (admitted e); split; intros; (lia || done).
  - pose proof (wf_active _ H j e He Ha) as Hact.
    destruct (next_group _ _) as [g|] eqn:Hng.
    + destruct Hsw as (Hact' & _ & Hes). apply next_group_Some in Hng as [_ Hg].
      destruct (decide (group e' = g)) as [Hgg|Hgg].
      * left. exists (enter_batch e'). split; [|done]. rewrite Hes, Hid.
        rewrite bool_decide_eq_true_2; [done|].
        apply (wf_queue _ (remove_queued _ _ _ (wf_queued _ H) He)). eauto.
      * right. assert (id ∉ queue (remove_entry j e st) g) as Hni.
        { intros (e2 & ? & ? & _)%(wf_queue _ (remove_queued _ _ _ (wf_queued _ H) He)). congruence. }
        assert (id ∈ queue (remove_entry j e st) (group e')) as Hin.
        { apply (wf_queue _ (remove_queued _ _ _ (wf_queued _ H) He)). eauto. }
        assert (g = opposite (group e) ∧ group e' = group e) as [-> Hge].
        { destruct Hg as [->|[-> Hemp]].
          - split; [done|]. destruct (group e), (group e'); done.
          - apply opposite_ne in Hgg. rewrite Hgg, Hemp in Hin. by apply not_elem_of_nil in Hin. }
        pose proof (wf_holders_lt _ Hwf) as Hb'. pose proof (wf_next _ Hwf).
        assert (entries st' !! id = Some e') as Hst'.
        { rewrite Hes, bool_decide_eq_false_2 by done. done. }
        unfold is_waiting, potential, rank. rewrite Hst', He', Ha', Hact, Hact', Hge.
        rewrite (bool_decide_eq_true_2 (Some (group e) = _)) by done.
        rewrite bool_decide_eq_false_2 by (by destruct (group e)).
        split; [eauto|]. unfold Word.u64_max in *. lia.
    + destruct Hsw as (Hemp & _ & _). by rewrite Hemp, lookup_empty in Hid.
Qed.

(** An admitted request stays admitted until it is released. *)
Lemma request_admitted g st i id st' :
  wf st → is_admitted st id → request g st = Some (i, st') → is_admitted st' id.
Proof.
  intros H (e & He & Ha) Hr. unfold request in Hr. case_match; [discriminate|].
  injection Hr as <- <-. exists e. simpl. pose proof (wf_fresh _ H).
  by rewrite lookup_insert_ne by congruence.
Qed.
Lemma poll_admitted j w r st id st' :
  is_admitted st id → poll j w st = Some (r, st') → is_admitted st' id.
Proof.
  intros (e & He & Ha). unfold poll. destruct (entries st !! j) as [ej|] eqn:Hj; [|discriminate].
  destruct (admitted ej) eqn:Haj; intros [= <- <-]; exists e; [done|]. simpl.
  by rewrite lookup_insert_ne by congruence.
Qed.
Lemma release_admitted j e st id st' wake :
  wf st → is_admitted st id → j ≠ id → entries st !! j = Some e → release j st = Some (st', wake) →
  is_admitted st' id.
Proof.
  intros H (ei & He & Ha) Hne Hj Hr.
  destruct (release_entries _ _ _ _ _ H Hj Hr) as [_ Hes].
  destruct (Hes id) as [Heq|(e2 & Heq & ? & _)]; [done|exists ei; by rewrite Heq|congruence].
Qed.
