(* ===== verification/CoordRun.v ===== *)
(** * Tasks and threads around the coordinator

    crates/process-coordination/src/lib.rs: the callers of the [Coordinator].
    A caller waits as a future ([write_permit], [spawn_permit]), in the loop of
    [write_blocking] or in the loop of [acquire_blocking]; each time the mutex is
    taken is one step, the calls of wakers and of [notify_all] after it is
    released are steps of their own, and a step of one caller may come between
    any two steps of another. The theorems: the groups exclude each other, the
    [expect]s and [unwrap]s hold, no wake-up is lost and every request is
    served. *)

From S2P Require Import Prelude Coordinator.

(** The functions that make a request. *)
Inductive EntryPoint := WritePermit | SpawnPermit | WriteBlocking | AcquireBlocking (g : Group).

Definition entry_group (ep : EntryPoint) : Group :=
  match ep with
  | WritePermit | WriteBlocking => Write
  | SpawnPermit => Spawn
  | AcquireBlocking g => g
  end.

(** Whether the caller is a thread that sleeps on the condition variable. *)
Definition blocking (ep : EntryPoint) : bool :=
  match ep with WritePermit | SpawnPermit => false | WriteBlocking | AcquireBlocking _ => true end.

(** [Quitting]: the loop of [write_blocking] has seen the cancellation or the
    deadline and is about to drop its request. *)
Inductive Phase := Runnable | Asleep | Granted | Quitting.

#[global] Instance Phase_eq_dec : EqDecision Phase.
Proof. solve_decision. Defined.

Record Task := { entry_point : EntryPoint; phase : Phase; cancelled : bool }.

Definition set_phase (p : Phase) (t : Task) : Task :=
  {| entry_point := entry_point t; phase := p; cancelled := cancelled t |}.

(** [wakes] and [notifies] are the calls still to be made by those that have
    released the mutex. *)
Record Sys := { coord : State; tasks : gmap Z Task; wakes : list Waker; notifies : nat }.

Definition init : Sys := {| coord := default_state; tasks := ∅; wakes := []; notifies := 0 |}.

Inductive Label :=
| Enter (ep : EntryPoint)
| Poll (id : Z)
| Check (id : Z) (deadline_passed : bool)
| Drop (id : Z)
| CancelWrite (id : Z)
| WakeTask (id : Z)
| NotifyAll
| Spurious (id : Z).

#[global] Instance EntryPoint_eq_dec : EqDecision EntryPoint.
Proof. solve_decision. Defined.
#[global] Instance Label_eq_dec : EqDecision Label.
Proof. solve_decision. Defined.

Inductive Stuck := Disabled | Panic.

Definition set_coord (st : State) (s : Sys) : Sys :=
  {| coord := st; tasks := tasks s; wakes := wakes s; notifies := notifies s |}.
Definition set_task (id : Z) (t : Task) (s : Sys) : Sys :=
  {| coord := coord s; tasks := <[id := t]> (tasks s); wakes := wakes s; notifies := notifies s |}.

(** One round of the waiting loop of [write_blocking] or [acquire_blocking]. *)
Definition check_round (t : Task) (deadline_passed adm : bool) : Phase :=
  match entry_point t with
  | WriteBlocking =>
      if cancelled t || deadline_passed then Quitting else if adm then Granted else Asleep
  | _ => if adm then Granted else Asleep
  end.

(** Whether the owner may drop the request: a future at any time, a thread when
    it has left its loop. *)
Definition may_drop (t : Task) : bool :=
  negb (blocking (entry_point t)) || bool_decide (phase t = Granted) ||
  bool_decide (phase t = Quitting).

Fixpoint remove_one (id : Z) (l : list Z) : list Z :=
  match l with
  | [] => []
  | x :: l => if x =? id then l else x :: remove_one id l
  end.

(** A sleeping task is scheduled again. *)
Definition wake_up (t : Task) : Task :=
  match phase t with Asleep => set_phase Runnable t | _ => t end.

Definition notified (t : Task) : Task := if blocking (entry_point t) then wake_up t else t.
Definition woken (t : Task) : Task := if blocking (entry_point t) then t else wake_up t.

Definition fire (s : Sys) (l : Label) : result Sys Stuck :=
  match l with
  | Enter ep =>
      let? '(id, st) := Result.ok_or (request (entry_group ep) (coord s)) Panic in
      Ok (set_task id {| entry_point := ep; phase := Runnable; cancelled := false |}
            (set_coord st s))
  | Poll id =>
      let? t := Result.ok_or (tasks s !! id) Disabled in
      if negb (blocking (entry_point t)) && bool_decide (phase t = Runnable) then
        let? '(ready, st) := Result.ok_or (poll id id (coord s)) Panic in
        Ok (set_task id (set_phase (if ready : bool then Granted else Asleep) t) (set_coord st s))
      else Err Disabled
  | Check id deadline_passed =>
      let? t := Result.ok_or (tasks s !! id) Disabled in
      if blocking (entry_point t) && bool_decide (phase t = Runnable) then
        let? e := Result.ok_or (entries (coord s) !! id) Panic in
        Ok (set_task id (set_phase (check_round t deadline_passed (admitted e)) t) s)
      else Err Disabled
  | Drop id =>
      let? t := Result.ok_or (tasks s !! id) Disabled in
      if may_drop t then
        let? '(st, wake) := Result.ok_or (release id (coord s)) Panic in
        Ok {| coord := st; tasks := delete id (tasks s); wakes := wakes s ++ wake;
              notifies := S (notifies s) |}
      else Err Disabled
  | CancelWrite id =>
      let? t := Result.ok_or (tasks s !! id) Disabled in
      match entry_point t with
      | WriteBlocking =>
          Ok {| coord := coord s;
                tasks := <[id := {| entry_point := WriteBlocking; phase := phase t;
                                    cancelled := true |}]> (tasks s);
                wakes := wakes s; notifies := S (notifies s) |}
      | _ => Err Disabled
      end
  | WakeTask id =>
      if bool_decide (id ∈ wakes s) then
        Ok {| coord := coord s; tasks := alter woken id (tasks s);
              wakes := remove_one id (wakes s); notifies := notifies s |}
      else Err Disabled
  | NotifyAll =>
      match notifies s with
      | O => Err Disabled
      | S n => Ok {| coord := coord s; tasks := notified <$> tasks s; wakes := wakes s; notifies := n |}
      end
  | Spurious id =>
      let? t := Result.ok_or (tasks s !! id) Disabled in
      Ok (set_task id (wake_up t) s)
  end.

Inductive reachable : Sys → Prop :=
| reach_init : reachable init
| reach_step s l s' : reachable s → fire s l = Ok s' → reachable s'.

(** ** The invariant *)

(** What is known of the caller of request [id] and its entry. *)
Record task_ok (s : Sys) (id : Z) (t : Task) (e : Entry) : Prop := {
  ok_group : group e = entry_group (entry_point t);
  ok_granted : phase t = Granted → admitted e = true;
  ok_waker w : waker e = Some w → w = id;
  ok_async : phase t = Asleep → blocking (entry_point t) = false →
             if admitted e then id ∈ wakes s else waker e = Some id;
  ok_blocking : phase t = Asleep → blocking (entry_point t) = true →
                admitted e = true ∨ entry_point t = WriteBlocking ∧ cancelled t = true →
                notifies s ≠ 0%nat;
}.

Record sys_wf (s : Sys) : Prop := {
  sys_coord : wf (coord s);
  sys_tasks id : match tasks s !! id, entries (coord s) !! id with
                 | Some t, Some e => task_ok s id t e
                 | None, None => True
                 | _, _ => False
                 end;
}.

Lemma task_ok_mono s s' id t e :
  task_ok s id t e → (id ∈ wakes s → id ∈ wakes s') → (notifies s ≠ 0%nat → notifies s' ≠ 0%nat) →
  task_ok s' id t e.
Proof.
  intros [H1 H2 H3 H4 H5] Hw Hn. constructor; [done..| |auto].
  intros Hp Hb. specialize (H4 Hp Hb). destruct (admitted e); auto.
Qed.

(** A caller and its entry come together. *)
Lemma task_entry s id t :
  sys_wf s → tasks s !! id = Some t → ∃ e, entries (coord s) !! id = Some e ∧ task_ok s id t e.
Proof.
  intros H Ht. pose proof (sys_tasks _ H id) as Hid. rewrite Ht in Hid.
  destruct (entries (coord s) !! id); [eauto|done].
Qed.
Lemma entry_task s id e :
  sys_wf s → entries (coord s) !! id = Some e → ∃ t, tasks s !! id = Some t ∧ task_ok s id t e.
Proof.
  intros H Ht. pose proof (sys_tasks _ H id) as Hid. rewrite Ht in Hid.
  destruct (tasks s !! id); [eauto|done].
Qed.

(** Steps that change one caller, its entry and what is still to be called. *)
Lemma sys_wf_update s s' id t e :
  sys_wf s → wf (coord s') →
  tasks s' = <[id := t]> (tasks s) → entries (coord s') = <[id := e]> (entries (coord s)) →
  (∀ i, i ∈ wakes s → i ∈ wakes s') → (notifies s ≠ 0%nat → notifies s' ≠ 0%nat) →
  task_ok s' id t e → sys_wf s'.
Proof.
  intros H Hwf Ht He Hw Hn Hok. constructor; [done|]. intros i. rewrite Ht, He.
  destruct (decide (i = id)) as [->|Hne].
  - by rewrite !lookup_insert_eq.
  - rewrite !lookup_insert_ne by done. pose proof (sys_tasks _ H i) as Hi.
    repeat case_match; try done. eapply task_ok_mono; eauto.
Qed.

(** Steps that change the phases only. *)
Lemma sys_wf_phases s s' (f : Z → Task → Task) :
  sys_wf s → coord s' = coord s →
  (∀ i, tasks s' !! i = f i <$> tasks s !! i) →
  (∀ i t e, tasks s !! i = Some t → task_ok s i t e → task_ok s' i (f i t) e) → sys_wf s'.
Proof.
  intros H Hc Ht Hok. constructor; rewrite Hc; [apply H|]. intros i. rewrite Ht.
  pose proof (sys_tasks _ H i) as Hi. destruct (tasks s !! i) eqn:Ei; simpl; [|done].
  destruct (entries (coord s) !! i) eqn:E; [|done]. by apply Hok.
Qed.

Lemma enter_wf s ep s' : sys_wf s → fire s (Enter ep) = Ok s' → sys_wf s'.
Proof.
  intros H. simpl. destruct (request _ _) as [[id st]|] eqn:Hr; [|discriminate]. simpl.
  intros [= <-]. pose proof (request_wf _ _ _ _ (sys_coord _ H) Hr) as Hwf.
  unfold request in Hr. case_match; [discriminate|]. injection Hr as <- <-.
  eapply sys_wf_update; simpl; [done..|tauto|tauto|]. constructor; done.
Qed.

Lemma poll_step_wf s id s' : sys_wf s → fire s (Poll id) = Ok s' → sys_wf s'.
Proof.
  intros H. simpl. destruct (tasks s !! id) as [t|] eqn:Ht; [|discriminate]. simpl.
  destruct (_ && _) eqn:Hg; [|discriminate]. b2p.
  destruct (poll _ _ _) as [[r st]|] eqn:Hp; [|discriminate]. simpl. intros [= <-].
  pose proof (poll_wf _ _ _ _ _ (sys_coord _ H) Hp) as Hwf.
  destruct (task_entry _ _ _ H Ht) as (e & He & Hok). unfold poll in Hp. rewrite He in Hp.
  destruct (admitted e) eqn:Ha; injection Hp as <- <-.
  - eapply (sys_wf_update _ _ id _ e); simpl; [done..|by rewrite insert_id|tauto|tauto|].
    destruct Hok. constructor; simpl; done.
  - eapply sys_wf_update; simpl; [done..|tauto|tauto|]. destruct Hok. constructor; simpl; try done.
    + by intros w [= ->].
    + congruence.
Qed.

Lemma check_wf s id b s' : sys_wf s → fire s (Check id b) = Ok s' → sys_wf s'.
Proof.
  intros H. simpl. destruct (tasks s !! id) as [t|] eqn:Ht; [|discriminate]. simpl.
  destruct (_ && _) eqn:Hg; [|discriminate]. b2p.
  destruct (task_entry _ _ _ H Ht) as (e & He & Hok). rewrite He. simpl. intros [= <-].
  eapply (sys_wf_update _ _ id _ e); simpl; [done|apply H|done|by rewrite insert_id|tauto|tauto|].
  destruct Hok. unfold check_round. constructor; simpl; try done.
  - destruct (entry_point t), (cancelled t), b, (admitted e); simpl; done.
  - intros _ Hb'. congruence.
  - intros Hp _ Hor. exfalso.
    destruct (entry_point t), (cancelled t), b, (admitted e); simpl in *;
      destruct Hor as [?|[??]]; congruence.
Qed.

Lemma drop_wf s id s' : sys_wf s → fire s (Drop id) = Ok s' → sys_wf s'.
Proof.
  intros H. simpl. destruct (tasks s !! id) as [t|] eqn:Ht; [|discriminate]. simpl.
  destruct (may_drop t); [|discriminate].
  destruct (task_entry _ _ _ H Ht) as (e & He & _).
  destruct (release_cases _ _ _ (sys_coord _ H) He) as (st & wake & Hr & Hwf & _).
  rewrite Hr. simpl. intros [= <-].
  destruct (release_entries _ _ _ _ _ (sys_coord _ H) He Hr) as [Hid Hes].
  constructor; [done|]. intros i. simpl. destruct (decide (i = id)) as [->|Hne].
  - by rewrite lookup_delete_eq, Hid.
  - rewrite lookup_delete_ne by done. pose proof (sys_tasks _ H i) as Hi.
    destruct (Hes i Hne) as [->|(ei & Hei & Ha & -> & Hw)].
    + repeat case_match; try done. eapply task_ok_mono; [done|set_solver|done].
    + rewrite Hei in Hi. destruct (tasks s !! i) as [ti|]; [|done].
      destruct Hi as [Hi1 Hi2 Hi3 Hi4 Hi5]. constructor; simpl; try done.
      intros Hp Hb. specialize (Hi4 Hp Hb). rewrite Ha in Hi4. apply Hw in Hi4. set_solver.
Qed.

Lemma cancel_wf s id s' : sys_wf s → fire s (CancelWrite id) = Ok s' → sys_wf s'.
Proof.
  intros H. simpl. destruct (tasks s !! id) as [t|] eqn:Ht; [|discriminate]. simpl.
  destruct (entry_point t) eqn:Hep; try discriminate. intros [= <-].
  destruct (task_entry _ _ _ H Ht) as (e & He & Hok).
  eapply (sys_wf_update _ _ id _ e); simpl; [done|apply H|done|by rewrite insert_id|tauto|done|].
  destruct Hok. rewrite Hep in *. constructor; simpl; done.
Qed.

Lemma remove_one_ne id i l : i ≠ id → i ∈ l → i ∈ remove_one id l.
Proof.
  intros Hne. induction l as [|x l IH]; simpl; [done|]. rewrite elem_of_cons. intros [->|Hi].
  - rewrite (proj2 (Z.eqb_neq x id)) by done. left.
  - destruct (x =? id); [done|]. right. auto.
Qed.

(** A caller that is woken needs no call any more. *)
Lemma wake_up_ok s s' id t e :
  task_ok s id t e → (phase t ≠ Asleep ∨ task_ok s' id (set_phase Runnable t) e) →
  task_ok s' id (wake_up t) e.
Proof.
  intros [H1 H2 H3 H4 H5] H. unfold wake_up.
  destruct (phase t) eqn:Hp; [| |constructor; by rewrite ?Hp..].
  - constructor; by rewrite ?Hp.
  - by destruct H.
Qed.
Lemma runnable_ok s s' id t e : task_ok s id t e → task_ok s' id (set_phase Runnable t) e.
Proof. intros [H1 H2 H3 H4 H5]. by constructor. Qed.

Lemma wake_wf s id s' : sys_wf s → fire s (WakeTask id) = Ok s' → sys_wf s'.
Proof.
  intros H. simpl. case_bool_decide as Hin; [|discriminate]. intros [= <-].
  eapply (sys_wf_phases _ _ (fun i => if bool_decide (i = id) then woken else fun t => t));
    [done|done|..]; simpl.
  - intros i. case_bool_decide; [subst; by rewrite lookup_alter_eq|].
    rewrite lookup_alter_ne by done. by rewrite option_fmap_id.
  - intros i t e Ht Hok. case_bool_decide as Hi.
    + unfold woken. destruct (blocking (entry_point t)) eqn:Hb.
      * destruct Hok as [H1 H2 H3 H4 H5]. constructor; try done. intros _. congruence.
      * eapply wake_up_ok; [done|]. right. by eapply runnable_ok.
    + eapply task_ok_mono; [done| |done]. simpl. by apply remove_one_ne.
Qed.

Lemma notify_wf s s' : sys_wf s → fire s NotifyAll = Ok s' → sys_wf s'.
Proof.
  intros H. simpl. destruct (notifies s) as [|n] eqn:Hn; [discriminate|]. intros [= <-].
  eapply (sys_wf_phases _ _ (fun _ => notified)); [done|done|..]; simpl.
  - intros i. by rewrite lookup_fmap.
  - intros i t e Ht Hok. unfold notified. destruct (blocking (entry_point t)) eqn:Hb.
    + eapply wake_up_ok; [done|]. right. by eapply runnable_ok.
    + destruct Hok as [H1 H2 H3 H4 H5]. constructor; try done. intros _. congruence.
Qed.

Lemma spurious_wf s id s' : sys_wf s → fire s (Spurious id) = Ok s' → sys_wf s'.
Proof.
  intros H. simpl. destruct (tasks s !! id) as [t|] eqn:Ht; [|discriminate]. intros [= <-].
  destruct (task_entry _ _ _ H Ht) as (e & He & Hok).
  eapply (sys_wf_update _ _ id _ e); simpl; [done|apply H|done|by rewrite insert_id|tauto|done|].
  eapply wake_up_ok; [done|]. right. by eapply runnable_ok.
Qed.

Lemma fire_wf s l s' : sys_wf s → fire s l = Ok s' → sys_wf s'.
Proof.
  destruct l;
    eauto using enter_wf, poll_step_wf, check_wf, drop_wf, cancel_wf, wake_wf, notify_wf, spurious_wf.
Qed.

Lemma reachable_wf s : reachable s → sys_wf s.
Proof.
  induction 1 as [|s l s' _ IH Hf]; [|by eapply fire_wf].
  constructor; [|intros id; simpl; by rewrite !lookup_empty].
  constructor; [constructor|..]; unfold is_waiting; simpl; try done.
  - intros id [? Hx]. by rewrite lookup_empty in Hx.
  - intros g id. split; [destruct g; by intros ?%not_elem_of_nil|].
    intros (? & Hx & _). by rewrite lookup_empty in Hx.
  - intros []; constructor.
  - intros id (? & Hx & _). by rewrite lookup_empty in Hx.
Qed.

(** ** Safety *)

(** The steps of the callers never meet an [expect] or [unwrap] that fails; the
    exception is the id of request number 2^64. *)
Lemma fire_no_panic s l :
  sys_wf s → fire s l = Err Panic → next_id (coord s) = Word.u64_max ∧ ∃ ep, l = Enter ep.
Proof.
  intros H Hf. pose proof (wf_next _ (wf_queued _ (sys_coord _ H))) as Hn. destruct l; simpl in Hf.
  - destruct (request _ _) as [[??]|] eqn:Hr; [discriminate|]. unfold request in Hr.
    case_match eqn:Hov; [|discriminate]. apply Z.ltb_lt in Hov. split; [lia|eauto].
  - destruct (tasks s !! id) as [t|] eqn:Ht; [|discriminate]. simpl in Hf.
    destruct (task_entry _ _ _ H Ht) as (e & He & _). unfold poll in Hf. rewrite He in Hf.
    repeat case_match; discriminate.
  - destruct (tasks s !! id) as [t|] eqn:Ht; [|discriminate]. simpl in Hf.
    destruct (task_entry _ _ _ H Ht) as (e & He & _). rewrite He in Hf. by destruct (_ && _).
  - destruct (tasks s !! id) as [t|] eqn:Ht; [|discriminate]. simpl in Hf.
    destruct (task_entry _ _ _ H Ht) as (e & He & _).
    destruct (release_cases _ _ _ (sys_coord _ H) He) as (st & wake & Hr & _).
    rewrite Hr in Hf. by destruct (may_drop t).
  - destruct (tasks s !! id) as [t|]; [|discriminate]. simpl in Hf. by destruct (entry_point t).
  - by destruct (bool_decide _).
  - by destruct (notifies s).
  - by destruct (tasks s !! id).
Qed.

(** C26: Writers and process creators exclude one another: in every reachable
    state all callers that hold a permit are of one group, the group that is
    active, and each holds one of the counted slots. No [expect] or [unwrap] of
    the coordinator fails, but for the id of request number 2^64. *)
Theorem coordinator_exclusion s :
  reachable s →
  (∀ i j ti tj, tasks s !! i = Some ti → tasks s !! j = Some tj →
     phase ti = Granted → phase tj = Granted →
     entry_group (entry_point ti) = entry_group (entry_point tj)) ∧
  (∀ i t, tasks s !! i = Some t → phase t = Granted →
     i ∈ held (coord s) ∧ active (coord s) = Some (entry_group (entry_point t))) ∧
  holders (coord s) = Z.of_nat (size (held (coord s))) ∧
  (∀ l, fire s l = Err Panic → next_id (coord s) = Word.u64_max ∧ ∃ ep, l = Enter ep).
Proof.
  intros H%reachable_wf.
  assert (∀ i t, tasks s !! i = Some t → phase t = Granted →
    i ∈ held (coord s) ∧ active (coord s) = Some (entry_group (entry_point t))) as Hg.
  { intros i t Ht Hp. destruct (task_entry _ _ _ H Ht) as (e & He & Hok).
    pose proof (ok_granted _ _ _ _ Hok Hp) as Ha. split; [apply elem_of_held; eauto|].
    rewrite <- (ok_group _ _ _ _ Hok). by eapply (wf_active _ (sys_coord _ H)). }
  split_and!; [|done|apply (wf_holders _ (sys_coord _ H))|intros l; by apply fire_no_panic].
  intros i j ti tj Hi Hj Hpi Hpj. destruct (Hg i ti) as [_ H1]; [done..|].
  destruct (Hg j tj) as [_ H2]; [done..|]. congruence.
Qed.

(** ** Liveness *)

(** What a step does to the phase of the caller of [id], when it does not drop
    its request. *)
Definition phase_step (l : Label) (id : Z) (t t' : Task) : Prop :=
  entry_point t' = entry_point t ∧
  (phase t' = phase t ∨ phase t = Asleep ∧ phase t' = Runnable ∨
   phase t = Runnable ∧ (l = Poll id ∨ ∃ b, l = Check id b)).

Lemma phase_step_refl l id t : phase_step l id t t.
Proof. split; auto. Qed.
Lemma wake_up_step l id t : phase_step l id t (wake_up t).
Proof. unfold wake_up, phase_step. destruct (phase t) eqn:E; simpl; auto. Qed.

(** An update of one caller, seen from [id]. *)
Lemma insert_step l id i ti ti' (ts : gmap Z Task) t :
  ts !! i = Some ti → ts !! id = Some t → (i = id → phase_step l id ti ti') →
  ∃ t', <[i := ti']> ts !! id = Some t' ∧ phase_step l id t t'.
Proof.
  intros Hi Hid Hs. destruct (decide (i = id)) as [->|Hne].
  - rewrite lookup_insert_eq. exists ti'. split; [done|].
    assert (ti = t) as <- by congruence. auto.
  - rewrite lookup_insert_ne by done. eauto using phase_step_refl.
Qed.

Lemma task_step s l s' id t :
  sys_wf s → fire s l = Ok s' → tasks s !! id = Some t → l ≠ Drop id →
  ∃ t', tasks s' !! id = Some t' ∧ phase_step l id t t'.
Proof.
  intros H Hf Ht Hl. destruct l as [ep|i|i b|i|i|i| |i]; simpl in Hf.
  - destruct (request _ _) as [[i st]|] eqn:Hr; [|discriminate]. injection Hf as <-. exists t.
    simpl. split; [|apply phase_step_refl]. rewrite lookup_insert_ne; [done|]. intros ->.
    destruct (task_entry _ _ _ H Ht) as (e & He & _). unfold request in Hr.
    case_match; [discriminate|]. injection Hr as <- _.
    pose proof (wf_fresh _ (sys_coord _ H)). congruence.
  - destruct (tasks s !! i) as [ti|] eqn:Hi; [|discriminate]. simpl in Hf.
    destruct (_ && _) eqn:Hg; [|discriminate]. b2p.
    destruct (poll _ _ _) as [[r st]|]; [|discriminate]. injection Hf as <-.
    eapply insert_step; [done..|]. intros ->. split; [done|]. right; right. auto.
  - destruct (tasks s !! i) as [ti|] eqn:Hi; [|discriminate]. simpl in Hf.
    destruct (_ && _) eqn:Hg; [|discriminate]. b2p.
    destruct (entries (coord s) !! i); [|discriminate]. injection Hf as <-.
    eapply insert_step; [done..|]. intros ->. split; [done|]. right; right. eauto.
  - destruct (tasks s !! i) as [ti|] eqn:Hi; [|discriminate]. simpl in Hf.
    destruct (may_drop ti); [|discriminate].
    destruct (release _ _) as [[st wake]|]; [|discriminate]. injection Hf as <-. exists t. simpl.
    rewrite lookup_delete_ne by congruence. eauto using phase_step_refl.
  - destruct (tasks s !! i) as [ti|] eqn:Hi; [|discriminate]. simpl in Hf.
    destruct (entry_point ti) eqn:Hep; try discriminate. injection Hf as <-.
    eapply insert_step; [done..|]. intros ->. split; simpl; auto.
  - destruct (bool_decide _); [|discriminate]. injection Hf as <-. simpl.
    destruct (decide (i = id)) as [->|Hne].
    + rewrite lookup_alter_eq, Ht. eexists. split; [done|]. unfold woken.
      destruct (blocking _); eauto using phase_step_refl, wake_up_step.
    + rewrite lookup_alter_ne by done. eauto using phase_step_refl.
  - destruct (notifies s); [discriminate|]. injection Hf as <-. simpl.
    rewrite lookup_fmap, Ht. eexists. split; [done|]. unfold notified.
    destruct (blocking _); eauto using phase_step_refl, wake_up_step.
  - destruct (tasks s !! i) as [ti|] eqn:Hi; [|discriminate]. injection Hf as <-.
    eapply insert_step; [done..|]. intros _. apply wake_up_step.
Qed.

(** What a step does to the coordinator. *)
Lemma fire_coord s l s' :
  sys_wf s → fire s l = Ok s' →
  match l with
  | Enter ep => ∃ id, request (entry_group ep) (coord s) = Some (id, coord s')
  | Poll i => ∃ r, poll i i (coord s) = Some (r, coord s')
  | Drop i => ∃ e wake, entries (coord s) !! i = Some e ∧ release i (coord s) = Some (coord s', wake)
  | _ => coord s' = coord s
  end.
Proof.
  intros H Hf. destruct l as [ep|i|i b|i|i|i| |i]; simpl in Hf.
  - destruct (request _ _) as [[i st]|] eqn:Hr; [|discriminate]. injection Hf as <-. eauto.
  - destruct (tasks s !! i) as [ti|] eqn:Hi; [|discriminate]. simpl in Hf.
    destruct (_ && _); [|discriminate].
    destruct (poll _ _ _) as [[r st]|] eqn:Hp; [|discriminate]. injection Hf as <-. eauto.
  - destruct (tasks s !! i) as [ti|] eqn:Hi; [|discriminate]. simpl in Hf.
    destruct (_ && _); [|discriminate].
    destruct (entries (coord s) !! i); [|discriminate]. by injection Hf as <-.
  - destruct (tasks s !! i) as [ti|] eqn:Hi; [|discriminate]. simpl in Hf.
    destruct (may_drop ti); [|discriminate].
    destruct (release _ _) as [[st wake]|] eqn:Hr; [|discriminate]. injection Hf as <-.
    destruct (task_entry _ _ _ H Hi) as (e & He & _). eauto.
  - destruct (tasks s !! i) as [ti|]; [|discriminate]. simpl in Hf.
    destruct (entry_point ti); try discriminate. by injection Hf as <-.
  - destruct (bool_decide _); [|discriminate]. by injection Hf as <-.
  - destruct (notifies s); [discriminate|]. by injection Hf as <-.
  - destruct (tasks s !! i); [|discriminate]. by injection Hf as <-.
Qed.

(** The coordinator under a step that does not drop the request of [id]. *)
Lemma admitted_step s l s' id :
  sys_wf s → fire s l = Ok s' → l ≠ Drop id → is_admitted (coord s) id → is_admitted (coord s') id.
Proof.
  intros H Hf Hl Hadm. pose proof (fire_coord _ _ _ H Hf) as Hc.
  destruct l as [ep|i|i b|i|i|i| |i]; try (by rewrite Hc).
  - destruct Hc as [j Hr]. eapply request_admitted; [apply H|done..].
  - destruct Hc as [r Hp]. by eapply poll_admitted.
  - destruct Hc as (e & wake & He & Hr). apply (release_admitted i e (coord s) id (coord s') wake); [apply H|done|congruence|done|done].
Qed.

Lemma waiting_step s l s' id :
  sys_wf s → fire s l = Ok s' → l ≠ Drop id → is_waiting (coord s) id →
  is_admitted (coord s') id ∨
  is_waiting (coord s') id ∧ potential (coord s') id ≤ potential (coord s) id ∧
  (∀ j, l = Drop j → is_admitted (coord s) j → potential (coord s') id < potential (coord s) id).
Proof.
  intros H Hf Hl Hw. pose proof (fire_coord _ _ _ H Hf) as Hc.
  destruct l as [ep|i|i b|i|i|i| |i]; try (rewrite Hc; right; by split_and!).
  - destruct Hc as [j Hr]. right.
    destruct (request_progress _ _ _ _ _ (sys_coord _ H) Hw Hr) as [? Hp]. rewrite Hp.
    split_and!; [done|lia|done].
  - destruct Hc as [r Hp]. right. destruct (poll_progress _ _ _ _ _ _ Hw Hp) as [? Hpo].
    rewrite Hpo. split_and!; [done|lia|done].
  - destruct Hc as (e & wake & He & Hr).
    destruct (release_progress i e (coord s) id (coord s') wake) as [|(? & ? & Hlt)];
      [apply H|done|congruence|done|done|by left|].
    right. split_and!; [done|done|]. intros j [= <-] (e' & He' & Ha). apply Hlt. congruence.
Qed.

(** An infinite run: at each instant somebody makes a step, or nothing happens.
    It is fair: a caller does not keep its permit for ever, a caller that can run
    eventually runs (or gives up), and calls of wakers and of [notify_all] are
    eventually made. *)
Definition takes (id : Z) (l : option Label) : Prop :=
  l = Some (Poll id) ∨ (∃ b, l = Some (Check id b)) ∨ l = Some (Drop id).

Record fair_run (σ : nat → Sys) (ℓ : nat → option Label) : Prop := {
  run_start : reachable (σ 0%nat);
  run_step n : match ℓ n with
               | Some l => fire (σ n) l = Ok (σ (S n))
               | None => σ (S n) = σ n
               end;
  fair_permit n id t :
    tasks (σ n) !! id = Some t → phase t = Granted ∨ phase t = Quitting →
    ∃ m, (n ≤ m)%nat ∧ ℓ m = Some (Drop id);
  fair_task n id t :
    tasks (σ n) !! id = Some t → phase t = Runnable → ∃ m, (n ≤ m)%nat ∧ takes id (ℓ m);
  fair_wake n id : id ∈ wakes (σ n) → ∃ m, (n ≤ m)%nat ∧ ℓ m = Some (WakeTask id);
  fair_notify n : notifies (σ n) ≠ 0%nat → ∃ m, (n ≤ m)%nat ∧ ℓ m = Some NotifyAll;
}.

(** From [n] on, the caller of [id] gets its permit, or withdraws its request. *)
Definition served (σ : nat → Sys) (ℓ : nat → option Label) (n : nat) (id : Z) : Prop :=
  ∃ m t, (n ≤ m)%nat ∧ tasks (σ m) !! id = Some t ∧
         (phase t = Granted ∨ phase t ≠ Granted ∧ may_drop t = true ∧ ℓ m = Some (Drop id)).

Section Run.
Context (σ : nat → Sys) (ℓ : nat → option Label) (Hrun : fair_run σ ℓ).

Lemma run_reachable n : reachable (σ n).
Proof.
  induction n as [|n IH]; [apply Hrun|].
  pose proof (run_step _ _ Hrun n) as Hs. destruct (ℓ n); [by eapply reach_step|by rewrite Hs].
Qed.
Lemma run_wf n : sys_wf (σ n).
Proof. apply reachable_wf, run_reachable. Qed.

Lemma served_later n m id : (n ≤ m)%nat → served σ ℓ m id → served σ ℓ n id.
Proof. intros Hle (k & t & ? & ?). exists k, t. split; [lia|done]. Qed.

(** Waiting for an event at [m]: [Q] holds until then, or [G] happens before. *)
Lemma until (Q G : nat → Prop) n m :
  (n ≤ m)%nat → Q n → (∀ k, (n ≤ k)%nat → Q k → G k ∨ Q (S k)) →
  (∃ k, (n ≤ k < m)%nat ∧ G k) ∨ Q m.
Proof.
  intros Hle Hn Hs. induction Hle as [|m Hle IH]; [by right|].
  destruct IH as [(k & ? & ?)|IH]; [left; exists k; split; [lia|done]|].
  destruct (Hs m Hle IH); [left; exists m; split; [lia|done]|by right].
Qed.

(** A withdrawn request counts as served, unless its caller has the permit. *)
Lemma drop_served k id t : tasks (σ k) !! id = Some t → ℓ k = Some (Drop id) → served σ ℓ k id.
Proof.
  intros Ht Hd. pose proof (run_step _ _ Hrun k) as Hs. rewrite Hd in Hs. simpl in Hs.
  rewrite Ht in Hs. simpl in Hs. destruct (may_drop t) eqn:Hm; [|discriminate].
  exists k, t. split; [lia|]. split; [done|]. destruct (decide (phase t = Granted)); auto.
Qed.

(** Every instant of a caller: it withdraws, or goes on. *)
Lemma run_task k id t :
  tasks (σ k) !! id = Some t →
  served σ ℓ k id ∨
  ℓ k ≠ Some (Drop id) ∧
  ∃ t', tasks (σ (S k)) !! id = Some t' ∧ entry_point t' = entry_point t ∧
    (phase t' = phase t ∨ phase t = Asleep ∧ phase t' = Runnable ∨
     phase t = Runnable ∧ takes id (ℓ k)).
Proof.
  intros Ht. pose proof (run_step _ _ Hrun k) as Hs. destruct (ℓ k) as [l|] eqn:Hl.
  - destruct (decide (Some l = Some (Drop id))) as [Hd|Hd].
    { left. eapply drop_served; [done|congruence]. }
    right. split; [done|].
    destruct (task_step _ _ _ _ _ (run_wf k) Hs Ht) as (t' & Ht' & Hep & Hp); [congruence|].
    exists t'. split_and!; [done|done|]. destruct Hp as [?|[?|[? [->|[b ->]]]]]; auto;
      right; right; (split; [done|]); unfold takes; eauto.
  - right. split; [done|]. rewrite Hs. exists t. auto.
Qed.

Lemma run_admitted k id :
  ℓ k ≠ Some (Drop id) → is_admitted (coord (σ k)) id → is_admitted (coord (σ (S k))) id.
Proof.
  intros Hd Ha. pose proof (run_step _ _ Hrun k) as Hs. destruct (ℓ k) as [l|]; [|by rewrite Hs].
  eapply admitted_step; [apply run_wf|done|congruence|done].
Qed.

(** A caller in phase [p], whose request is admitted. *)
Definition admitted_in (id : Z) (p : Phase) (k : nat) : Prop :=
  is_admitted (coord (σ k)) id ∧ ∃ t, tasks (σ k) !! id = Some t ∧ phase t = p.

Lemma granted_served n id : admitted_in id Granted n → served σ ℓ n id.
Proof. intros (_ & t & ? & ?). exists n, t. auto. Qed.

(** A caller that sleeps or can run stays so until it is taken. *)
Lemma admitted_next k id p :
  admitted_in id p k →
  served σ ℓ k id ∨ admitted_in id p (S k) ∨ p = Asleep ∧ admitted_in id Runnable (S k) ∨
  p = Runnable ∧ takes id (ℓ k).
Proof.
  intros (Ha & t & Ht & Hp). destruct (run_task _ _ _ Ht) as [|(Hd & t' & Ht' & _ & Hph)]; [by left|].
  right. pose proof (run_admitted _ _ Hd Ha) as Ha'. rewrite Hp in Hph.
  destruct Hph as [?|[[??]|[??]]]; [left|right; left|right; right]; unfold admitted_in; eauto 8.
Qed.

Lemma quitting_served n id : admitted_in id Quitting n → served σ ℓ n id.
Proof.
  intros Hq. pose proof Hq as (_ & t & Ht & Hp).
  destruct (fair_permit _ _ Hrun n id t Ht) as (m & Hle & Hm); [auto|].
  destruct (until (admitted_in id Quitting) (fun k => served σ ℓ k id) n m Hle Hq)
    as [(k & ? & Hs)|(_ & t' & Ht' & _)].
  - intros k _ Hk. destruct (admitted_next _ _ _ Hk) as [|[|[[??]|[??]]]]; auto; discriminate.
  - eapply served_later, Hs. lia.
  - eapply served_later, drop_served; done.
Qed.

(** A caller that is admitted and is taken has its permit or quits. *)
Lemma taken_served k id : admitted_in id Runnable k → takes id (ℓ k) → served σ ℓ k id.
Proof.
  intros (Ha & t & Ht & Hp) Htk. destruct (run_task _ _ _ Ht) as [|(Hd & _)]; [done|].
  pose proof (run_admitted _ _ Hd Ha) as Ha'. pose proof Ha as (e & He & Hadm).
  pose proof (run_step _ _ Hrun k) as Hs.
  enough (∃ p, (p = Granted ∨ p = Quitting) ∧ admitted_in id p (S k)) as (p & Hpp & Hin).
  { apply (served_later _ (S k)); [lia|]. destruct Hpp; subst p.
    - by apply granted_served.
    - by apply quitting_served. }
  unfold admitted_in. destruct Htk as [Hl|[[b Hl]|Hl]]; [| |congruence]; rewrite Hl in Hs; simpl in Hs;
    rewrite Ht in Hs; simpl in Hs; (destruct (_ && _); [|discriminate]).
  - unfold poll in Hs. rewrite He, Hadm in Hs. simpl in Hs. injection Hs as Hs.
    exists Granted. split; [auto|]. split; [done|]. rewrite <- Hs. simpl.
    rewrite lookup_insert_eq. eauto.
  - rewrite He in Hs. simpl in Hs. injection Hs as Hs. exists (check_round t b (admitted e)). split.
    + unfold check_round. rewrite Hadm. destruct (entry_point t), (cancelled t), b; simpl; auto.
    + split; [done|]. rewrite <- Hs. simpl. rewrite lookup_insert_eq. eauto.
Qed.

Lemma runnable_served n id : admitted_in id Runnable n → served σ ℓ n id.
Proof.
  intros Hq. pose proof Hq as (_ & t & Ht & Hp).
  destruct (fair_task _ _ Hrun n id t Ht Hp) as (m & Hle & Hm).
  destruct (until (admitted_in id Runnable)
              (fun k => served σ ℓ k id ∨ admitted_in id Runnable k ∧ takes id (ℓ k)) n m Hle Hq)
    as [(k & ? & [Hs|[Hk Ht']])|Hk].
  - intros k _ Hk. destruct (admitted_next _ _ _ Hk) as [|[|[[??]|[??]]]]; auto; discriminate.
  - eapply served_later, Hs. lia.
  - eapply served_later; [|by eapply taken_served]. lia.
  - eapply served_later; [|by eapply taken_served]. lia.
Qed.

Definition asleep_as (id : Z) (b : bool) (k : nat) : Prop :=
  is_admitted (coord (σ k)) id ∧
  ∃ t, tasks (σ k) !! id = Some t ∧ phase t = Asleep ∧ blocking (entry_point t) = b.

Lemma asleep_next k id b :
  asleep_as id b k → served σ ℓ k id ∨ asleep_as id b (S k).
Proof.
  intros (Ha & t & Ht & Hp & Hb).
  destruct (run_task _ _ _ Ht) as [|(Hd & t' & Ht' & Hep & Hph)]; [by left|].
  pose proof (run_admitted _ _ Hd Ha) as Ha'. rewrite Hp in Hph.
  destruct Hph as [?|[[_ ?]|[? _]]]; [right| |discriminate].
  - split; [done|]. exists t'. rewrite Hep. auto.
  - left. apply (served_later _ (S k)); [lia|]. apply runnable_served. split; eauto.
Qed.

(** The call that wakes a caller up makes it run again. *)
Lemma woken_served k id b :
  asleep_as id b k → ℓ k = Some (if b then NotifyAll else WakeTask id) → served σ ℓ k id.
Proof.
  intros (Ha & t & Ht & Hp & Hb) Hl. apply (served_later _ (S k)); [lia|]. apply runnable_served.
  split; [apply run_admitted; [rewrite Hl; by destruct b|done]|].
  pose proof (run_step _ _ Hrun k) as Hs. rewrite Hl in Hs. destruct b; simpl in Hs.
  - destruct (notifies (σ k)); [discriminate|]. injection Hs as Hs. rewrite <- Hs. simpl.
    rewrite lookup_fmap, Ht. simpl. unfold notified, wake_up. rewrite Hb, Hp. eauto.
  - destruct (bool_decide _); [|discriminate]. injection Hs as Hs. rewrite <- Hs. simpl.
    rewrite lookup_alter_eq, Ht. simpl. unfold woken, wake_up. rewrite Hb, Hp. eauto.
Qed.

Lemma asleep_served n id b : asleep_as id b n → served σ ℓ n id.
Proof.
  intros Hq. pose proof Hq as ((e & He & Hadm) & t & Ht & Hp & Hb).
  assert (∃ m, (n ≤ m)%nat ∧ ℓ m = Some (if b then NotifyAll else WakeTask id)) as (m & Hle & Hm).
  { destruct (task_entry _ _ _ (run_wf n) Ht) as (e' & He' & Hok). assert (e' = e) as -> by congruence.
    destruct b.
    - apply (fair_notify _ _ Hrun), (ok_blocking _ _ _ _ Hok Hp Hb). auto.
    - apply (fair_wake _ _ Hrun). pose proof (ok_async _ _ _ _ Hok Hp Hb). by rewrite Hadm in *. }
  destruct (until (asleep_as id b) (fun k => served σ ℓ k id) n m Hle Hq) as [(k & ? & Hs)|Hk].
  - intros k _. apply asleep_next.
  - eapply served_later, Hs. lia.
  - eapply served_later; [done|]. by eapply woken_served.
Qed.

Lemma admitted_served n id : is_admitted (coord (σ n)) id → served σ ℓ n id.
Proof.
  intros Ha. pose proof Ha as (e & He & _).
  destruct (entry_task _ _ _ (run_wf n) He) as (t & Ht & _).
  destruct (phase t) eqn:Hp.
  - apply runnable_served. split; eauto.
  - apply (asleep_served _ _ (blocking (entry_point t))). split; eauto.
  - apply granted_served. split; eauto.
  - apply quitting_served. split; eauto.
Qed.

(** A holder leaves: its request is dropped while it is admitted. *)
Lemma holder_leaves n j :
  is_admitted (coord (σ n)) j →
  ∃ m, (n ≤ m)%nat ∧ ℓ m = Some (Drop j) ∧ is_admitted (coord (σ m)) j.
Proof.
  intros Ha.
  assert (∃ m, (n ≤ m)%nat ∧ ℓ m = Some (Drop j)) as (m & Hle & Hm).
  { destruct (admitted_served _ _ Ha) as (m & t & Hle & Ht & [Hp|(_ & _ & Hd)]); [|eauto].
    destruct (fair_permit _ _ Hrun m j t Ht) as (m' & ? & ?); [auto|]. exists m'. split; [lia|done]. }
  destruct (until (fun k => is_admitted (coord (σ k)) j)
              (fun k => is_admitted (coord (σ k)) j ∧ ℓ k = Some (Drop j)) n m Hle Ha)
    as [(k & ? & ? & ?)|Hk].
  - intros k _ Hk. destruct (decide (ℓ k = Some (Drop j))); [by left|].
    right. by apply run_admitted.
  - exists k. split; [lia|done].
  - eauto.
Qed.

(** Of a waiting request: it is served, or still waits, no further from its turn. *)
Lemma waiting_next k id :
  is_waiting (coord (σ k)) id →
  served σ ℓ k id ∨
  is_waiting (coord (σ (S k))) id ∧ potential (coord (σ (S k))) id ≤ potential (coord (σ k)) id ∧
  (∀ j, ℓ k = Some (Drop j) → is_admitted (coord (σ k)) j →
        potential (coord (σ (S k))) id < potential (coord (σ k)) id).
Proof.
  intros Hw. pose proof Hw as (e & He & _).
  destruct (entry_task _ _ _ (run_wf k) He) as (t & Ht & _).
  pose proof (run_step _ _ Hrun k) as Hs. destruct (ℓ k) as [l|] eqn:Hl.
  - destruct (decide (l = Drop id)) as [->|Hd]; [left; by eapply drop_served|].
    destruct (waiting_step _ _ _ _ (run_wf k) Hs Hd Hw) as [Ha|(? & ? & Hlt)].
    + left. apply (served_later _ (S k)); [lia|]. by apply admitted_served.
    + right. split_and!; [done|done|]. intros j [= ->]. by apply Hlt.
  - right. rewrite Hs. split_and!; [done|lia|done].
Qed.

Lemma someone_holds n id : is_waiting (coord (σ n)) id → ∃ j, is_admitted (coord (σ n)) j.
Proof.
  intros Hw. pose proof (sys_coord _ (run_wf n)) as H. pose proof (waiting_busy _ _ H Hw) as Hb.
  rewrite (wf_holders _ H) in Hb.
  destruct (set_choose_or_empty (held (coord (σ n)))) as [[j Hj]|Hemp].
  - exists j. by apply elem_of_held in Hj.
  - apply size_empty_iff in Hemp. lia.
Qed.

Lemma waiting_served n id : is_waiting (coord (σ n)) id → served σ ℓ n id.
Proof.
  remember (potential (coord (σ n)) id) as p eqn:Hp. revert n Hp.
  induction (Z.lt_wf 0 p) as [p _ IH]. intros n -> Hw.
  destruct (someone_holds _ _ Hw) as [j Hj]. destruct (holder_leaves _ _ Hj) as (m & Hle & Hm & Hjm).
  destruct (until (fun k => is_waiting (coord (σ k)) id ∧
                            potential (coord (σ k)) id ≤ potential (coord (σ n)) id)
              (fun k => served σ ℓ k id) n m Hle) as [(k & ? & Hs)|[Hwm Hpm]].
  - split; [done|lia].
  - intros k _ [Hk Hpk]. destruct (waiting_next _ _ Hk) as [|(? & ? & _)]; [by left|].
    right. split; [done|lia].
  - eapply served_later, Hs. lia.
  - apply (served_later _ m); [done|]. destruct (waiting_next _ _ Hwm) as [|(Hw' & _ & Hlt)]; [done|].
    apply (served_later _ (S m)); [lia|]. eapply IH; [|done|done].
    pose proof (potential_nonneg _ id (sys_coord _ (run_wf (S m)))).
    specialize (Hlt j Hm Hjm). lia.
Qed.
End Run.

(** C2: No caller waits for ever: in every fair run every request that is made
    gets its permit, unless its caller withdraws it. The callers may be futures
    and threads in any mix, arrive in any number and at any time, and steps and
    wake-ups interleave in any way. *)
Theorem every_request_served σ ℓ n id t :
  fair_run σ ℓ → tasks (σ n) !! id = Some t → served σ ℓ n id.
Proof.
  intros Hrun Ht. destruct (task_entry _ _ _ (run_wf _ _ Hrun n) Ht) as (e & He & _).
  destruct (admitted e) eqn:Ha.
  - apply (admitted_served _ _ Hrun). by exists e.
  - apply (waiting_served _ _ Hrun). by exists e.
Qed.

(** A run in which two creators of processes wait for a writer, one as a future
    and one as a thread, and nothing happens afterwards. *)
Module CoordDemo.
Definition labels : list Label :=
  [Enter WritePermit; Poll 0; Enter SpawnPermit; Poll 1; Enter (AcquireBlocking Spawn);
   Check 2 false; Drop 0; WakeTask 1; NotifyAll; Poll 1; Check 2 false; Drop 1; NotifyAll; Drop 2;
   NotifyAll].

Definition advance (s : Sys) (l : Label) : Sys :=
  match fire s l with Ok s' => s' | Err _ => s end.
Definition demo_states (n : nat) : Sys := foldl advance init (take n labels).
Definition demo_labels (n : nat) : option Label := labels !! n.

Definition later (n : nat) (P : Label → bool) : bool :=
  existsb (fun m => match labels !! m with Some l => P l | None => false end) (seq n (15 - n)).

Definition takes_b (id : Z) (l : Label) : bool :=
  match l with Poll i | Check i _ | Drop i => i =? id | _ => false end.

Definition fair_at (n : nat) : bool :=
  let s := demo_states n in
  forallb (fun p => match phase p.2 with
                    | Granted | Quitting => later n (fun l => bool_decide (l = Drop p.1))
                    | Runnable => later n (takes_b p.1)
                    | Asleep => true
                    end) (map_to_list (tasks s)) &&
  forallb (fun id => later n (fun l => bool_decide (l = WakeTask id))) (wakes s) &&
  (bool_decide (notifies s = 0%nat) || later n (fun l => bool_decide (l = NotifyAll))) &&
  match labels !! n with Some l => Result.is_ok (fire s l) | None => true end.

Lemma later_spec n P : later n P = true → ∃ m l, (n ≤ m)%nat ∧ demo_labels m = Some l ∧ P l = true.
Proof.
  unfold later. intros (m & [? _]%in_seq & Hm)%existsb_exists.
  destruct (labels !! m) as [l|] eqn:E; [|discriminate]. exists m, l. auto.
Qed.

Lemma fair_at_all n : fair_at n = true.
Proof.
  assert (∀ k, fair_at (15 + k) = true) as Htail.
  { intros k. assert (demo_states (15 + k) = demo_states 15) as Hs.
    { unfold demo_states. by rewrite !take_ge by (simpl; lia). }
    unfold fair_at. rewrite Hs.
    assert (map_to_list (tasks (demo_states 15)) = []) as -> by (vm_compute; reflexivity).
    assert (wakes (demo_states 15) = []) as -> by (vm_compute; reflexivity).
    assert (notifies (demo_states 15) = 0%nat) as -> by (vm_compute; reflexivity).
    reflexivity. }
  do 15 (destruct n as [|n]; [vm_compute; reflexivity|]). apply Htail.
Qed.

Lemma demo_fair : fair_run demo_states demo_labels.
Proof.
  constructor.
  - constructor.
  - intros n. pose proof (fair_at_all n) as Hn. unfold fair_at in Hn. b2p.
    unfold demo_labels, demo_states in *. destruct (labels !! n) as [l|] eqn:Hl.
    + rewrite (take_S_r _ _ _ Hl), foldl_app. simpl. unfold advance at 2.
      destruct (fire _ l); done.
    + apply lookup_ge_None in Hl. by rewrite !take_ge by lia.
  - intros n id t Ht Hp. pose proof (fair_at_all n) as Hn. unfold fair_at in Hn. b2p.
    rewrite forallb_forall in H. apply elem_of_map_to_list, list_elem_of_In, H in Ht. simpl in Ht.
    destruct Hp as [Hp|Hp]; rewrite Hp in Ht; apply later_spec in Ht as (m & l & ? & ? & ?); b2p;
      exists m; split; (done || congruence).
  - intros n id t Ht Hp. pose proof (fair_at_all n) as Hn. unfold fair_at in Hn. b2p.
    rewrite forallb_forall in H. apply elem_of_map_to_list, list_elem_of_In, H in Ht. simpl in Ht.
    rewrite Hp in Ht. apply later_spec in Ht as (m & l & ? & Hl & Htk). exists m. split; [done|].
    unfold takes. rewrite Hl. destruct l; simpl in Htk; try discriminate; apply Z.eqb_eq in Htk;
      subst; eauto.
  - intros n id Hin. pose proof (fair_at_all n) as Hn. unfold fair_at in Hn. b2p.
    rewrite forallb_forall in H2. apply list_elem_of_In, H2 in Hin.
    apply later_spec in Hin as (m & l & ? & ? & ?). b2p. exists m. split; (done || congruence).
  - intros n Hn0. pose proof (fair_at_all n) as Hn. unfold fair_at in Hn. b2p.
    apply orb_true_iff in H1 as [?|Hl]; [by b2p|].
    apply later_spec in Hl as (m & l & ? & ? & ?). b2p. exists m. split; (done || congruence).
Qed.

Lemma coordinator_exclusion_witness :
  active (coord (demo_states 11)) = Some Spawn ∧ holders (coord (demo_states 11)) = 2.
Proof.
  split; [vm_compute; reflexivity|].
  destruct (coordinator_exclusion (demo_states 11)) as (_ & _ & -> & _);
    [apply (run_reachable _ _ demo_fair)|vm_compute; reflexivity].
Defined.

Lemma every_request_served_witness : served demo_states demo_labels 6 1.
Proof.
  eapply every_request_served; [exact demo_fair|]. vm_compute. reflexivity.
Defined.
End CoordDemo.
