(* ===== verification/SessionLease.v ===== *)
(** * Session leases

    apps/shared/src/gateway/session_lease.rs: which client may drive a session.
    The table is sharded by the hash of the session id; every operation runs
    under the mutex of one shard, so it is one atomic step. The wall clock is an
    argument ([None]: it is before the epoch, [ClockSkew]). Also here: the guards
    of the session service (session_service_impl.rs), of the router
    (httpserver/router.rs) and of the session actor (session_handle.rs) that
    consult the table, and the decision of the orphan reaper. *)

From S2P Require Import Prelude RStr Message.

Definition LEASE_TABLE_SHARD_COUNT : nat := 16.
Definition STALE_LEASE_THRESHOLD_MS : Z := 45000.
Definition ORPHAN_SESSION_THRESHOLD_MS : Z := 7200000.
Definition DAEMON_PRINCIPAL_PREFIX : str := lit "daemon:".

Definition is_daemon_principal (client_id : str) : bool :=
  starts_with DAEMON_PRINCIPAL_PREFIX client_id.
Definition daemon_principal (suffix : str) : str := DAEMON_PRINCIPAL_PREFIX ++ suffix.
Definition daemon_cron_principal : str := daemon_principal (lit "cron").
Definition daemon_hook_principal (hook_id : str) : str := daemon_principal (lit "hook:" ++ hook_id).
Definition daemon_channel_principal (channel_id : str) : str :=
  daemon_principal (lit "channel:" ++ channel_id).

Module Lease.
Record SessionLease := {
  client_id : str;
  client_pid : option Z;
  client_hostname : option str;
  last_heartbeat_ms : Z;
}.
End Lease.
Import Lease.

Definition is_stale (lease : SessionLease) (now threshold_ms : Z) : bool :=
  if last_heartbeat_ms lease =? 0 then true
  else threshold_ms <? Word.saturating_sub now (last_heartbeat_ms lease).

Definition fresh_lease (cid : str) (pid : option Z) (host : option str) (now : Z) : SessionLease :=
  {| client_id := cid; client_pid := pid; client_hostname := host; last_heartbeat_ms := now |}.

Inductive LeaseAcquireOutcome :=
| Acquired
| AcquireBusy (holder_client_id : str) (holder_hostname : option str) (holder_pid : option Z)
    (last_heartbeat : Z) (stale : bool)
| AcquireClockSkew.

Inductive LeaseCheckFailure :=
| CheckBusy (holder_client_id : str) (holder_hostname : option str) (holder_pid : option Z)
    (last_heartbeat : Z) (stale : bool)
| CheckClockSkew.

Definition check_busy (lease : SessionLease) (stale : bool) : LeaseCheckFailure :=
  CheckBusy (client_id lease) (client_hostname lease) (client_pid lease)
    (last_heartbeat_ms lease) stale.

(** ** The sharded table *)

(** [DefaultHasher] on the session id. *)
Class SessionHasher := { finish : str → Z }.

Abbreviation Shard := (gmap str SessionLease).
Abbreviation SessionLeaseTable := (list (gmap str SessionLease)).

Definition new_table : SessionLeaseTable := replicate LEASE_TABLE_SHARD_COUNT ∅.

Definition shard_for `{SessionHasher} (t : SessionLeaseTable) (sid : str) : nat :=
  Z.to_nat (finish sid mod Z.of_nat (length t)).

(** Runs [f] on the shard of [sid], under its mutex. *)
Definition on_shard `{SessionHasher} {A} (sid : str) (f : Shard → A * Shard) (t : SessionLeaseTable) :
    A * SessionLeaseTable :=
  let i := shard_for t sid in
  let '(a, m) := f (default ∅ (t !! i)) in (a, <[i := m]> t).

(** The body of [acquire] once the clock has been read. *)
Definition acquire_in (now : Z) (sid cid : str) (pid : option Z) (host : option str) (m : Shard) :
    LeaseAcquireOutcome * Shard :=
  match m !! sid with
  | Some lease =>
      if bool_decide (client_id lease = cid) then
        (Acquired,
         <[sid := {| client_id := client_id lease;
                     client_pid := match pid with Some _ => pid | None => client_pid lease end;
                     client_hostname :=
                       match host with Some _ => host | None => client_hostname lease end;
                     last_heartbeat_ms := now |}]> m)
      else if is_stale lease now STALE_LEASE_THRESHOLD_MS then
        (Acquired, <[sid := fresh_lease cid pid host now]> m)
      else
        (AcquireBusy (client_id lease) (client_hostname lease) (client_pid lease)
           (last_heartbeat_ms lease) false, m)
  | None => (Acquired, <[sid := fresh_lease cid pid host now]> m)
  end.

Definition heartbeat_in (now : Z) (sid cid : str) (pid : option Z) (host : option str) (m : Shard) :
    result unit LeaseCheckFailure * Shard :=
  match m !! sid with
  | Some lease =>
      if bool_decide (client_id lease = cid) then
        (Ok tt, <[sid := {| client_id := client_id lease; client_pid := client_pid lease;
                            client_hostname := client_hostname lease;
                            last_heartbeat_ms := now |}]> m)
      else (Err (check_busy lease (is_stale lease now STALE_LEASE_THRESHOLD_MS)), m)
  | None => (Ok tt, <[sid := fresh_lease cid pid host now]> m)
  end.

Definition detach_in (sid cid : str) (m : Shard) : unit * Shard :=
  match m !! sid with
  | Some lease => if bool_decide (client_id lease = cid) then (tt, delete sid m) else (tt, m)
  | None => (tt, m)
  end.

Definition is_holder (lease : SessionLease) (cid : option str) : bool :=
  match cid with Some cid => bool_decide (client_id lease = cid) | None => false end.

Definition check_holder_in (now : Z) (sid : str) (cid : option str) (m : Shard) :
    result unit LeaseCheckFailure :=
  match m !! sid with
  | None => Ok tt
  | Some lease =>
      if is_holder lease cid || is_stale lease now STALE_LEASE_THRESHOLD_MS then Ok tt
      else Err (check_busy lease false)
  end.

(** [client_id.filter(|s| !s.is_empty())]. *)
Definition identified (cid : option str) : option str :=
  match cid with Some (_ :: _) => cid | _ => None end.

Definition check_or_takeover_in (now : Z) (sid : str) (cid : option str) (m : Shard) :
    result unit LeaseCheckFailure * Shard :=
  match m !! sid with
  | None => (Ok tt, m)
  | Some lease =>
      if is_holder lease cid then (Ok tt, m)
      else if is_stale lease now STALE_LEASE_THRESHOLD_MS then
        (Ok tt, match identified cid with
                | Some c => <[sid := fresh_lease c None None now]> m
                | None => m
                end)
      else (Err (check_busy lease false), m)
  end.

Section Table.
Context `{SessionHasher}.

Definition acquire (clock : option Z) (sid cid : str) (pid : option Z) (host : option str)
    (t : SessionLeaseTable) : LeaseAcquireOutcome * SessionLeaseTable :=
  match clock with
  | None => (AcquireClockSkew, t)
  | Some now => on_shard sid (acquire_in now sid cid pid host) t
  end.

Definition heartbeat (clock : option Z) (sid cid : str) (pid : option Z) (host : option str)
    (t : SessionLeaseTable) : result unit LeaseCheckFailure * SessionLeaseTable :=
  match clock with
  | None => (Err CheckClockSkew, t)
  | Some now => on_shard sid (heartbeat_in now sid cid pid host) t
  end.

Definition detach (sid cid : str) (t : SessionLeaseTable) : SessionLeaseTable :=
  (on_shard sid (detach_in sid cid) t).2.

Definition has_live_lease (clock : option Z) (sid : str) (stale_threshold_ms : Z)
    (t : SessionLeaseTable) : bool :=
  match clock with
  | None => false
  | Some now =>
      match default ∅ (t !! shard_for t sid) !! sid with
      | Some lease => negb (is_stale lease now stale_threshold_ms)
      | None => false
      end
  end.

Definition check_holder (clock : option Z) (sid : str) (cid : option str) (t : SessionLeaseTable) :
    result unit LeaseCheckFailure :=
  match clock with
  | None => Err CheckClockSkew
  | Some now => check_holder_in now sid cid (default ∅ (t !! shard_for t sid))
  end.

Definition check_or_takeover_holder (clock : option Z) (sid : str) (cid : option str)
    (t : SessionLeaseTable) : result unit LeaseCheckFailure * SessionLeaseTable :=
  match clock with
  | None => (Err CheckClockSkew, t)
  | Some now => on_shard sid (check_or_takeover_in now sid cid) t
  end.

Definition remove (sid : str) (t : SessionLeaseTable) : SessionLeaseTable :=
  (on_shard sid (fun m => (tt, delete sid m)) t).2.

Definition snapshot (t : SessionLeaseTable) : list (str * str * Z) :=
  t ≫= fun m => (fun p => (p.1, client_id p.2, last_heartbeat_ms p.2)) <$> map_to_list m.
End Table.

(** ** The guards of the service, the router and the actor *)

(** session_service.rs; the partial snapshots and output that two of the errors
    carry are left out. *)
Inductive SessionServiceError :=
| InvalidRequest (message : str)
| RuntimeConflict (message : str)
| PayloadTooLarge (message : str)
| SessionStoreFailed (message : str)
| RuntimeResolve (message : str)
| RuntimeBuild (message : str)
| RuntimeShutdown (message : str)
| CoreRun (message : str)
| RuntimeExecInterrupted (message : str)
| CoreRunWithState (message : str)
| MemoryFailed (message : str)
| UnsupportedCapability (capability : str)
| SessionNotFound (session_id : str)
| SessionBusy (session_id message : str)
| SessionClosed (session_id : str)
| SessionAttachedByAnotherClient (session_id holder_client_id holder_hostname : str)
    (holder_pid last_heartbeat : Z) (stale : bool)
| LeaseRequired (session_id : str)
| LeaseClockSkew (session_id : str).

Definition attached_by_another (sid holder : str) (host : option str) (pid : option Z) (hb : Z)
    (stale : bool) : SessionServiceError :=
  SessionAttachedByAnotherClient sid holder (default [] host) (default 0 pid) hb stale.

Definition from_lease_check_failure (sid : str) (failure : LeaseCheckFailure) : SessionServiceError :=
  match failure with
  | CheckBusy holder host pid hb stale => attached_by_another sid holder host pid hb stale
  | CheckClockSkew => LeaseClockSkew sid
  end.

Section Service.
Context `{SessionHasher}.
(** [enforce_anonymous_lease]. *)
Context (enforce : bool).

Definition assert_lease_holder (clock : option Z) (sid : str) (cid : option str)
    (t : SessionLeaseTable) : result unit SessionServiceError * SessionLeaseTable :=
  match identified cid with
  | None => (if enforce then Err (LeaseRequired sid) else Ok tt, t)
  | Some c =>
      if is_daemon_principal c then (Ok tt, t)
      else
        let '(r, t) := check_or_takeover_holder clock sid (Some c) t in
        (Result.map_err (from_lease_check_failure sid) r, t)
  end.

(** crates/protocol/src/wire.rs: where a model is reached. *)
Record LlmRuntimeConfig := {
  llm_profile_id : option str;
  llm_provider : option str;
  llm_model : option str;
  llm_api_base : option str;
  llm_api_key_env : option str;
  llm_api_key : option str;
  llm_reasoning_effort : option ReasoningEffort;
}.

Definition pinned_fields (llm : LlmRuntimeConfig) : list str :=
  omap (fun '(field, value) =>
          match value : option str with
          | Some v => if bool_decide (trim v = []) then None else Some field
          | None => None
          end)
    [(lit "llm.api_base", llm_api_base llm); (lit "llm.api_key_env", llm_api_key_env llm);
     (lit "llm.api_key", llm_api_key llm)].

Definition reject_client_pinned_credentials (llm : LlmRuntimeConfig) : result unit str :=
  match pinned_fields llm with
  | [] => Ok tt
  | pinned =>
      Err (lit "request llm override rejected: " ++ join (lit ", ") pinned ++
           lit " must come from daemon configuration ([llm] / [llm.profiles]); a client may only pin llm.profile_id / llm.provider / llm.model / llm.reasoning_effort")
  end.

Definition reject_wire_pinned_llm_credentials (llm : option LlmRuntimeConfig) :
    result unit SessionServiceError :=
  match llm with
  | Some llm => Result.map_err InvalidRequest (reject_client_pinned_credentials llm)
  | None => Ok tt
  end.

(** [open_session] around [open_session_inner], which runs with the lease held
    and during which other clients may change the table. *)
Definition open_session {R} (inner : SessionLeaseTable → result R SessionServiceError * SessionLeaseTable)
    (llm : option LlmRuntimeConfig) (clock : option Z) (sid : str) (cid : option str) (pid : option Z) (host : option str)
    (t : SessionLeaseTable) : result R SessionServiceError * SessionLeaseTable :=
  match reject_wire_pinned_llm_credentials llm with
  | Err e => (Err e, t)
  | Ok _ =>
  match identified cid with
  | None => if enforce then (Err (LeaseRequired sid), t) else inner t
  | Some c =>
      let '(granted, t) :=
        if is_daemon_principal c then (Ok tt, t)
        else
          let '(outcome, t) := acquire clock sid c pid host t in
          (match outcome with
           | Acquired => Ok tt
           | AcquireClockSkew => Err (LeaseClockSkew sid)
           | AcquireBusy holder host pid hb stale => Err (attached_by_another sid holder host pid hb stale)
           end, t) in
      match granted with
      | Err e => (Err e, t)
      | Ok _ =>
          let '(r, t) := inner t in
          match r with
          | Ok record => (Ok record, t)
          | Err e => (Err e, detach sid c t)
          end
      end
  end end.

Definition heartbeat_session (clock : option Z) (sid : str) (cid : option str) (pid : option Z)
    (host : option str) (t : SessionLeaseTable) : result unit SessionServiceError * SessionLeaseTable :=
  match identified cid with
  | None => (Ok tt, t)
  | Some c =>
      let '(r, t) := heartbeat clock sid c pid host t in
      (Result.map_err (from_lease_check_failure sid) r, t)
  end.

Definition detach_session (sid : str) (cid : option str) (t : SessionLeaseTable) : SessionLeaseTable :=
  match identified cid with Some c => detach sid c t | None => t end.

(** [force_close_session_with_lease]; [close] is [close_and_evict_on_err], which
    removes the lease. *)
Definition force_close_session_with_lease {R}
    (close : SessionLeaseTable → result R SessionServiceError * SessionLeaseTable)
    (clock : option Z) (sid : str) (cid : option str) (t : SessionLeaseTable) :
    result R SessionServiceError * SessionLeaseTable :=
  match identified cid with
  | None => if enforce then (Err (LeaseRequired sid), t) else close t
  | Some c =>
      if is_daemon_principal c then close t
      else match check_holder clock sid (Some c) t with
           | Err failure => (Err (from_lease_check_failure sid failure), t)
           | Ok _ => close t
           end
  end.

(** The router: [BadRequest] is the 400 of [reject_forged_daemon_principal]. *)
Inductive Rejection := BadRequest (client : str) | Mapped (e : SessionServiceError).

Definition reject_forged_daemon_principal (cid : option str) : result unit Rejection :=
  match cid with
  | Some c => if is_daemon_principal c then Err (BadRequest c) else Ok tt
  | None => Ok tt
  end.

Definition require_lease_holder (control_plane : bool) (clock : option Z) (sid : str)
    (cid : option str) (t : SessionLeaseTable) : result unit Rejection * SessionLeaseTable :=
  match reject_forged_daemon_principal cid with
  | Err r => (Err r, t)
  | Ok _ =>
      if control_plane then
        let '(r, t) := assert_lease_holder clock sid cid t in (Result.map_err Mapped r, t)
      else (Ok tt, t)
  end.

(** The actor, when it takes a turn from its queue. *)
Definition should_reject_at_pop_time (clock : option Z) (sid : str) (cid : option str)
    (t : SessionLeaseTable) : option SessionServiceError :=
  match identified cid with
  | None => None
  | Some c =>
      if is_daemon_principal c then None
      else match check_holder clock sid (Some c) t with
           | Err failure => Some (from_lease_check_failure sid failure)
           | Ok _ => None
           end
  end.
End Service.

(** ** Runs *)

Inductive LeaseOp :=
| Acquire (sid cid : str) (pid : option Z) (host : option str)
| Heartbeat (sid cid : str) (pid : option Z) (host : option str)
| Detach (sid cid : str)
| CheckHolder (sid : str) (cid : option str)
| Takeover (sid : str) (cid : option str)
| Remove (sid : str).

Inductive LeaseReply :=
| RAcquire (o : LeaseAcquireOutcome)
| RCheck (r : result unit LeaseCheckFailure)
| RDone.

Definition lease_step `{SessionHasher} (clock : option Z) (op : LeaseOp) (t : SessionLeaseTable) :
    LeaseReply * SessionLeaseTable :=
  match op with
  | Acquire sid cid pid host => let '(o, t) := acquire clock sid cid pid host t in (RAcquire o, t)
  | Heartbeat sid cid pid host => let '(r, t) := heartbeat clock sid cid pid host t in (RCheck r, t)
  | Detach sid cid => (RDone, detach sid cid t)
  | CheckHolder sid cid => (RCheck (check_holder clock sid cid t), t)
  | Takeover sid cid => let '(r, t) := check_or_takeover_holder clock sid cid t in (RCheck r, t)
  | Remove sid => (RDone, remove sid t)
  end.

Fixpoint lease_run `{SessionHasher} (evs : list (option Z * LeaseOp)) (t : SessionLeaseTable) :
    list LeaseReply * SessionLeaseTable :=
  match evs with
  | [] => ([], t)
  | (clock, op) :: evs =>
      let '(r, t) := lease_step clock op t in
      let '(rs, t) := lease_run evs t in (r :: rs, t)
  end.

(** ** The flat view *)

Definition op_session (op : LeaseOp) : str :=
  match op with
  | Acquire sid _ _ _ | Heartbeat sid _ _ _ | Detach sid _ | CheckHolder sid _ | Takeover sid _
  | Remove sid => sid
  end.

(** The lease of one session, without the table: what an operation on the
    session does to it and answers. *)
Definition refreshed (l : SessionLease) (pid : option Z) (host : option str) (now : Z) : SessionLease :=
  {| client_id := client_id l;
     client_pid := match pid with Some _ => pid | None => client_pid l end;
     client_hostname := match host with Some _ => host | None => client_hostname l end;
     last_heartbeat_ms := now |}.

Definition live (l : SessionLease) (now : Z) : bool := negb (is_stale l now STALE_LEASE_THRESHOLD_MS).

Definition acquire_busy (l : SessionLease) : LeaseAcquireOutcome :=
  AcquireBusy (client_id l) (client_hostname l) (client_pid l) (last_heartbeat_ms l) false.

Definition cell_step (clock : option Z) (op : LeaseOp) (cell : option SessionLease) :
    LeaseReply * option SessionLease :=
  match op, clock with
  | Detach _ cid, _ =>
      (RDone, match cell with
              | Some l => if bool_decide (client_id l = cid) then None else cell
              | None => None
              end)
  | Remove _, _ => (RDone, None)
  | Acquire _ _ _ _, None => (RAcquire AcquireClockSkew, cell)
  | _, None => (RCheck (Err CheckClockSkew), cell)
  | Acquire _ cid pid host, Some now =>
      match cell with
      | Some l =>
          if bool_decide (client_id l = cid) then (RAcquire Acquired, Some (refreshed l pid host now))
          else if live l now then (RAcquire (acquire_busy l), cell)
          else (RAcquire Acquired, Some (fresh_lease cid pid host now))
      | None => (RAcquire Acquired, Some (fresh_lease cid pid host now))
      end
  | Heartbeat _ cid pid host, Some now =>
      match cell with
      | Some l =>
          if bool_decide (client_id l = cid) then (RCheck (Ok tt), Some (refreshed l None None now))
          else (RCheck (Err (check_busy l (negb (live l now)))), cell)
      | None => (RCheck (Ok tt), Some (fresh_lease cid pid host now))
      end
  | CheckHolder _ cid, Some now =>
      (RCheck match cell with
              | Some l => if is_holder l cid || negb (live l now) then Ok tt else Err (check_busy l false)
              | None => Ok tt
              end, cell)
  | Takeover _ cid, Some now =>
      match cell with
      | Some l =>
          if is_holder l cid then (RCheck (Ok tt), cell)
          else if live l now then (RCheck (Err (check_busy l false)), cell)
          else (RCheck (Ok tt), match identified cid with
                                | Some c => Some (fresh_lease c None None now)
                                | None => cell
                                end)
      | None => (RCheck (Ok tt), None)
      end
  end.

(** The specification: a map from sessions to leases. *)
Fixpoint cells_run (evs : list (option Z * LeaseOp)) (cells : str → option SessionLease) :
    list LeaseReply * (str → option SessionLease) :=
  match evs with
  | [] => ([], cells)
  | (clock, op) :: evs =>
      let '(r, cell) := cell_step clock op (cells (op_session op)) in
      let '(rs, cells) :=
        cells_run evs (fun s => if bool_decide (s = op_session op) then cell else cells s) in
      (r :: rs, cells)
  end.

Section Refinement.
Context `{SessionHasher}.

Definition lease_of (t : SessionLeaseTable) (sid : str) : option SessionLease :=
  default ∅ (t !! shard_for t sid) !! sid.

Definition table_ok (t : SessionLeaseTable) : Prop := length t = LEASE_TABLE_SHARD_COUNT.

Lemma shard_for_lt t sid : table_ok t → (shard_for t sid < length t)%nat.
Proof.
  intros Ht. unfold shard_for. rewrite Ht. unfold LEASE_TABLE_SHARD_COUNT.
  pose proof (Z.mod_pos_bound (finish sid) (Z.of_nat 16)). lia.
Qed.

(** A shard operation that keeps the leases of other sessions. *)
Definition only_key {A} (sid : str) (f : Shard → A * Shard) : Prop :=
  ∀ m s, s ≠ sid → (f m).2 !! s = m !! s.

Lemma on_shard_spec {A} (sid : str) (f : Shard → A * Shard) t a t' :
  table_ok t → only_key sid f → on_shard sid f t = (a, t') →
  table_ok t' ∧
  (∃ m m', m !! sid = lease_of t sid ∧ f m = (a, m') ∧ lease_of t' sid = m' !! sid) ∧
  ∀ s, s ≠ sid → lease_of t' s = lease_of t s.
Proof.
  intros Ht Hk. unfold on_shard. destruct (f _) as [a0 m'] eqn:Hf. intros [= <- <-].
  pose proof (shard_for_lt t sid Ht) as Hlt.
  assert (∀ s, shard_for (<[shard_for t sid := m']> t) s = shard_for t s) as Hsh.
  { intros s. unfold shard_for at 1. by rewrite length_insert. }
  split; [unfold table_ok; by rewrite length_insert|]. split.
  - eexists _, m'. split; [reflexivity|]. split; [exact Hf|].
    unfold lease_of. by rewrite Hsh, list_lookup_insert_eq by done.
  - intros s Hs. unfold lease_of. rewrite Hsh.
    destruct (decide (shard_for t s = shard_for t sid)) as [Heq|Hne].
    + rewrite Heq, list_lookup_insert_eq by done. simpl.
      pose proof (Hk (default ∅ (t !! shard_for t sid)) s Hs) as Hks. by rewrite Hf in Hks.
    + by rewrite list_lookup_insert_ne by done.
Qed.

Lemma only_key_ops now (sid cid : str) (ocid : option str) pid host :
  only_key sid (acquire_in now sid cid pid host) ∧ only_key sid (heartbeat_in now sid cid pid host) ∧
  only_key sid (detach_in sid cid) ∧ only_key sid (check_or_takeover_in now sid ocid) ∧
  only_key sid (fun m => (tt, delete sid m)).
Proof.
  unfold only_key, acquire_in, heartbeat_in, detach_in, check_or_takeover_in.
  split_and!; intros m s Hs; repeat case_match; simpl;
    by rewrite ?lookup_insert_ne, ?lookup_delete_ne by done.
Qed.

(** Each shard operation does to its key what [cell_step] says. *)
Ltac solve_cell H := simpl; unfold live, refreshed, acquire_busy; repeat (case_hyp H; simplify_eq/=);
  rewrite ?lookup_insert_eq, ?lookup_delete_eq; repeat case_match; simplify_eq/=;
  rewrite ?negb_involutive, ?lookup_insert_eq; congruence.

Lemma acquire_cell now sid cid pid host m o m' :
  acquire_in now sid cid pid host m = (o, m') →
  (RAcquire o, m' !! sid) = cell_step (Some now) (Acquire sid cid pid host) (m !! sid).
Proof. unfold acquire_in. intros Hf. solve_cell Hf. Qed.
Lemma heartbeat_cell now sid cid pid host m r m' :
  heartbeat_in now sid cid pid host m = (r, m') →
  (RCheck r, m' !! sid) = cell_step (Some now) (Heartbeat sid cid pid host) (m !! sid).
Proof. unfold heartbeat_in. intros Hf. solve_cell Hf. Qed.
Lemma takeover_cell now sid cid m r m' :
  check_or_takeover_in now sid cid m = (r, m') →
  (RCheck r, m' !! sid) = cell_step (Some now) (Takeover sid cid) (m !! sid).
Proof. unfold check_or_takeover_in. intros Hf. solve_cell Hf. Qed.
Lemma detach_cell clock sid cid m r m' :
  detach_in sid cid m = (r, m') →
  (RDone, m' !! sid) = cell_step clock (Detach sid cid) (m !! sid).
Proof. unfold detach_in. intros Hf. solve_cell Hf. Qed.

(** One operation does to the lease of its session, and answers, what
    [cell_step] says; the other leases stay. *)
Lemma step_refines clock op t r t' :
  table_ok t → lease_step clock op t = (r, t') →
  table_ok t' ∧ (r, lease_of t' (op_session op)) = cell_step clock op (lease_of t (op_session op)) ∧
  ∀ s, s ≠ op_session op → lease_of t' s = lease_of t s.
Proof.
  intros Ht. destruct op as [sid cid pid host|sid cid pid host|sid cid|sid cid|sid cid|sid]; simpl.
  - destruct clock as [now|]; simpl; [|by intros [= <- <-]].
    destruct (on_shard _ _ t) as [o t1] eqn:E. intros [= <- <-].
    apply on_shard_spec in E as (Hok & (m & m' & Hm & Hf%acquire_cell & ->) & Hs); [by rewrite <- Hm|done|].
    apply (only_key_ops now sid cid None pid host).
  - destruct clock as [now|]; simpl; [|by intros [= <- <-]].
    destruct (on_shard _ _ t) as [o t1] eqn:E. intros [= <- <-].
    apply on_shard_spec in E as (Hok & (m & m' & Hm & Hf%heartbeat_cell & ->) & Hs); [by rewrite <- Hm|done|].
    apply (only_key_ops now sid cid None pid host).
  - unfold detach. destruct (on_shard _ _ t) as [o t1] eqn:E. intros [= <- <-].
    apply on_shard_spec in E as (Hok & (m & m' & Hm & Hf%(detach_cell clock) & ->) & Hs); [by rewrite <- Hm|done|].
    apply (only_key_ops 0 sid cid None None None).
  - intros [= <- <-]. split_and!; [done| |done].
    destruct clock as [now|]; simpl; [|done]. unfold check_holder_in. fold (lease_of t sid).
    unfold live. destruct (lease_of t sid); [|done]. by rewrite negb_involutive.
  - destruct clock as [now|]; simpl; [|by intros [= <- <-]].
    destruct (on_shard _ _ t) as [o t1] eqn:E. intros [= <- <-].
    apply on_shard_spec in E as (Hok & (m & m' & Hm & Hf%takeover_cell & ->) & Hs); [by rewrite <- Hm|done|].
    apply (only_key_ops now sid [] cid None None).
  - unfold remove. destruct (on_shard _ _ t) as [o t1] eqn:E. intros [= <- <-].
    apply on_shard_spec in E as (Hok & (m & m' & Hm & Hf & ->) & Hs); [|done|].
    + simplify_eq/=. split_and!; [done|by rewrite lookup_delete_eq|done].
    + apply (only_key_ops 0 sid [] None None None).
Qed.

(** C15: The sharded table refines independent leases: whatever the hash, a
    sequence of operations by any clients at any times answers, operation by
    operation, and leaves, session by session, what a map from sessions to
    leases that interprets [cell_step] answers and holds. *)
Theorem table_refines_cells evs t rs t' :
  table_ok t → lease_run evs t = (rs, t') →
  table_ok t' ∧ rs = (cells_run evs (lease_of t)).1 ∧
  ∀ s, lease_of t' s = (cells_run evs (lease_of t)).2 s.
Proof.
  intros Ht Hr. enough (∀ c, (∀ s, lease_of t s = c s) →
    table_ok t' ∧ rs = (cells_run evs c).1 ∧ ∀ s, lease_of t' s = (cells_run evs c).2 s) by auto.
  revert t rs t' Ht Hr. induction evs as [|[clock op] evs IH]; simpl; intros t rs t' Ht Hr c Hc.
  { by injection Hr as <- <-. }
  destruct (lease_step clock op t) as [r t1] eqn:Hs. destruct (lease_run evs t1) as [rs1 t2] eqn:Hr1.
  injection Hr as <- <-. destruct (step_refines _ _ _ _ _ Ht Hs) as (Ht1 & Hcell & Hoth).
  rewrite Hc in Hcell. rewrite <- Hcell.
  destruct (IH t1 rs1 t2 Ht1 Hr1 (fun s => if bool_decide (s = op_session op)
              then lease_of t1 (op_session op) else c s)) as (? & -> & ?).
  { intros s. case_bool_decide; [by subst|]. by rewrite Hoth. }
  by destruct (cells_run evs _).
Qed.

(** ** A lease that is kept alive *)

Definition op_client (op : LeaseOp) : option str :=
  match op with
  | Acquire _ c _ _ | Heartbeat _ c _ _ | Detach _ c => Some c
  | CheckHolder _ c | Takeover _ c => c
  | Remove _ => None
  end.
(** The operations that answer whether the client may go on. *)
Definition asks (op : LeaseOp) : bool :=
  match op with Detach _ _ | Remove _ => false | _ => true end.
Definition success (r : LeaseReply) : Prop := r = RAcquire Acquired ∨ r = RCheck (Ok tt).

(** The last heartbeat after the operation. *)
Definition beat (sid c : str) (clock : option Z) (op : LeaseOp) (h : Z) : Z :=
  match op, clock with
  | Acquire s x _ _, Some now | Heartbeat s x _ _, Some now =>
      if bool_decide (s = sid ∧ x = c) then now else h
  | _, _ => h
  end.

(** While the operations [evs] are made, no more than the threshold passes after
    a heartbeat of [c], and neither [c] nor a close gives the lease up. *)
Fixpoint kept (sid c : str) (h : Z) (evs : list (option Z * LeaseOp)) : bool :=
  match evs with
  | [] => true
  | (clock, op) :: evs =>
      match clock with
      | Some now => (0 <? now) && (now <=? h + STALE_LEASE_THRESHOLD_MS)
      | None => true
      end &&
      negb (match op with
            | Remove s => bool_decide (s = sid)
            | Detach s x => bool_decide (s = sid ∧ x = c)
            | _ => false
            end) &&
      kept sid c (beat sid c clock op h) evs
  end.

Lemma live_iff l now :
  0 < last_heartbeat_ms l →
  live l now = true ↔ now ≤ last_heartbeat_ms l + STALE_LEASE_THRESHOLD_MS.
Proof.
  intros Hh. unfold live, is_stale. rewrite (proj2 (Z.eqb_neq _ 0)) by lia.
  rewrite negb_true_iff, Z.ltb_ge. unfold Word.saturating_sub, STALE_LEASE_THRESHOLD_MS. lia.
Qed.

Lemma is_holder_iff l oc : is_holder l oc = true ↔ oc = Some (client_id l).
Proof.
  destruct oc as [x|]; simpl; [|split; discriminate]. rewrite bool_decide_eq_true. naive_solver.
Qed.

(** One operation of anybody, seen from a lease that is kept. *)
Lemma kept_cell clock op l r cell :
  0 < last_heartbeat_ms l → (∀ now, clock = Some now → 0 < now ∧ live l now = true) →
  (∀ s, op ≠ Remove s) → (∀ s, op ≠ Detach s (client_id l)) →
  cell_step clock op (Some l) = (r, cell) →
  (∃ l', cell = Some l' ∧ client_id l' = client_id l ∧
         last_heartbeat_ms l' = beat (op_session op) (client_id l) clock op (last_heartbeat_ms l)) ∧
  (asks op = true → success r ↔ op_client op = Some (client_id l) ∧ is_Some clock).
Proof.
  intros Hh Hlive Hr Hd Hc.
  destruct clock as [now|].
  2:{ destruct op; simpl in *; try (by destruct (Hr sid)); simplify_eq/=.
      1,2,4,5: (split; [by exists l|intros _; split; [intros [?|?]; discriminate|by intros [_ [? ?]]]]).
      rewrite bool_decide_eq_false_2 by (intros <-; by destruct (Hd sid)).
      split; [by exists l|done]. }
  destruct (Hlive now eq_refl) as [Hn Hl]; clear Hlive.
  assert (∀ (sid x : str), bool_decide (sid = sid ∧ x = client_id l) = bool_decide (client_id l = x))
    as Hb by (intros; apply bool_decide_ext; naive_solver).
  destruct op as [sid x pid host|sid x pid host|sid x|sid ox|sid ox|sid]; simpl in *;
    rewrite ?Hl, ?Hb in *; simpl in *.
  - case_bool_decide as Hx; simplify_eq/=; (split; [by eexists|]); intros _; unfold success.
    + split; [eauto|by left].
    + split; [intros [?|?]; discriminate|intros [[= ?] _]; congruence].
  - case_bool_decide as Hx; simplify_eq/=; (split; [by eexists|]); intros _; unfold success.
    + split; [eauto|by right].
    + split; [intros [?|?]; discriminate|intros [[= ?] _]; congruence].
  - rewrite bool_decide_eq_false_2 in Hc by (intros <-; by destruct (Hd sid)).
    simplify_eq/=. split; [by exists l|done].
  - rewrite orb_false_r in Hc. injection Hc as <- <-. split; [by exists l|]. intros _.
    unfold success. rewrite <- is_holder_iff. destruct (is_holder l ox).
    + split; [eauto|by right].
    + split; [intros [?|?]; discriminate|intros [? _]; discriminate].
  - rewrite <- is_holder_iff. destruct (is_holder l ox); simplify_eq/=;
      (split; [by exists l|]); intros _; unfold success.
    + split; [eauto|by right].
    + split; [intros [?|?]; discriminate|intros [? _]; discriminate].
  - by destruct (Hr sid).
Qed.

(** A client that keeps its heartbeats coming keeps its session. Whatever
    the other clients do in between, in any order, on this session or others,
    with the clock working or not: as long as every operation comes at most 45
    seconds after the last heartbeat of the holder, the holder stays the holder,
    its own requests succeed whenever the clock works, and no request of anybody
    else on the session succeeds. *)
Theorem kept_lease sid l evs t rs t' :
  table_ok t → lease_of t sid = Some l → 0 < last_heartbeat_ms l →
  kept sid (client_id l) (last_heartbeat_ms l) evs = true → lease_run evs t = (rs, t') →
  (∃ l', lease_of t' sid = Some l' ∧ client_id l' = client_id l) ∧
  ∀ i clock op r, evs !! i = Some (clock, op) → rs !! i = Some r →
    asks op = true → op_session op = sid →
    success r ↔ op_client op = Some (client_id l) ∧ is_Some clock.
Proof.
  revert l t rs t'. induction evs as [|[clock op] evs IH]; intros l t rs t' Ht Hl Hh Hk Hrun.
  { injection Hrun as <- <-. split; [eauto|]. intros i clock op r Hi. by rewrite lookup_nil in Hi. }
  simpl in Hrun, Hk. destruct (lease_step clock op t) as [r t1] eqn:Hs.
  destruct (lease_run evs t1) as [rs1 t2] eqn:Hrun1. injection Hrun as <- <-. b2p.
  destruct (step_refines _ _ _ _ _ Ht Hs) as (Ht1 & Hcell & Hother).
  assert (∀ now, clock = Some now → 0 < now ∧ live l now = true) as Hlive.
  { intros now ->. b2p. rewrite live_iff by done. lia. }
  assert (∃ l1, lease_of t1 sid = Some l1 ∧ client_id l1 = client_id l ∧
            last_heartbeat_ms l1 = beat sid (client_id l) clock op (last_heartbeat_ms l) ∧
            (asks op = true → op_session op = sid →
             success r ↔ op_client op = Some (client_id l) ∧ is_Some clock))
    as (l1 & Hl1 & Hc1 & Hb1 & Hr1).
  { destruct (decide (op_session op = sid)) as [Hsid|Hsid].
    - subst sid. rewrite Hl in Hcell. symmetry in Hcell.
      destruct (kept_cell clock op l r (lease_of t1 (op_session op))) as [(l1 & ? & ? & ?) ?];
        [done..| | |done|].
      + intros s ->. simpl in *. b2p. done.
      + intros s ->. simpl in *. b2p. tauto.
      + exists l1. auto.
    - exists l. rewrite Hother by congruence. split_and!; [done|done| |done].
      destruct op; simpl in *; try done; destruct clock; try done;
        rewrite bool_decide_eq_false_2 by tauto; done. }
  destruct (IH l1 t1 rs1 t2) as [Hend Hrest]; [done|done| |by rewrite Hc1, Hb1|done|].
  { rewrite Hb1. destruct op, clock as [now|]; simpl; try done; case_bool_decide; try done;
      by apply (Hlive now). }
  rewrite Hc1 in Hend, Hrest. split; [done|].
  intros [|i] clock' op' r' Hi Hri; simpl in *; [by simplify_eq|]. eapply Hrest; eauto.
Qed.
End Refinement.

(** ** The guards *)

Section Guards.
Context `{SessionHasher}.

(** What the guards answer to everybody but the holder [l]. *)
Definition held_by (sid : str) (l : SessionLease) : SessionServiceError :=
  attached_by_another sid (client_id l) (client_hostname l) (client_pid l) (last_heartbeat_ms l) false.

Lemma on_shard_same {A} (sid : str) (f : Shard → A * Shard) t a :
  table_ok t → f (default ∅ (t !! shard_for t sid)) = (a, default ∅ (t !! shard_for t sid)) →
  on_shard sid f t = (a, t).
Proof.
  intros Ht Hf. unfold on_shard. rewrite Hf. f_equal. apply list_insert_id.
  pose proof (shard_for_lt t sid Ht) as Hlt. destruct (lookup_lt_is_Some_2 t (shard_for t sid) Hlt) as [m Hm].
  by rewrite Hm.
Qed.

Section Live.
Context (t : SessionLeaseTable) (sid : str) (l : SessionLease) (now : Z) (x : str).
Context (Ht : table_ok t) (Hl : lease_of t sid = Some l) (Hlive : live l now = true)
  (Hx : x ≠ client_id l).

Lemma live_not_stale : is_stale l now STALE_LEASE_THRESHOLD_MS = false.
Proof. unfold live in Hlive. by apply negb_true_iff in Hlive. Qed.

Lemma live_acquire pid host :
  acquire (Some now) sid x pid host t = (acquire_busy l, t).
Proof.
  apply on_shard_same; [done|]. unfold acquire_in. fold (lease_of t sid). rewrite Hl.
  rewrite bool_decide_eq_false_2 by congruence. by rewrite live_not_stale.
Qed.
Lemma live_heartbeat pid host :
  heartbeat (Some now) sid x pid host t = (Err (check_busy l false), t).
Proof.
  apply on_shard_same; [done|]. unfold heartbeat_in. fold (lease_of t sid). rewrite Hl.
  rewrite bool_decide_eq_false_2 by congruence. by rewrite live_not_stale.
Qed.
Lemma live_takeover :
  check_or_takeover_holder (Some now) sid (Some x) t = (Err (check_busy l false), t).
Proof.
  apply on_shard_same; [done|]. unfold check_or_takeover_in. fold (lease_of t sid). rewrite Hl. simpl.
  rewrite bool_decide_eq_false_2 by congruence. by rewrite live_not_stale.
Qed.
Lemma live_check : check_holder (Some now) sid (Some x) t = Err (check_busy l false).
Proof.
  unfold check_holder, check_holder_in. fold (lease_of t sid). rewrite Hl. simpl.
  rewrite bool_decide_eq_false_2 by congruence. by rewrite live_not_stale.
Qed.
Lemma live_detach : detach sid x t = t.
Proof.
  unfold detach. rewrite (on_shard_same _ _ t tt); [done|done|]. unfold detach_in.
  fold (lease_of t sid). rewrite Hl. by rewrite bool_decide_eq_false_2 by congruence.
Qed.
End Live.

(** C27: While the lease of a session is live, who gets in does not depend on luck.
    A client that says who it is and is neither the holder nor the daemon itself
    gets in through no door: over HTTP it is turned away, opening, closing and
    heartbeats fail with the holder's identity, detaching does nothing, and a turn
    it had queued is rejected when its turn comes. The ids of the daemon's own
    callers, which are let in from inside, cannot be claimed over HTTP. A caller
    without an id is turned away when leases are enforced for such callers; when
    they are not, which is the default, nothing stops it. Nobody changes the table
    by being turned away. *)
Theorem live_lease_excludes {R : Type} (enforce : bool) (t : SessionLeaseTable) (sid : str) (l : SessionLease)
    (now : Z) (cid : option str) (pid : option Z) (host : option str) (llm : option LlmRuntimeConfig)
    (inner close : SessionLeaseTable → result R SessionServiceError * SessionLeaseTable) :
  table_ok t → lease_of t sid = Some l → live l now = true → identified cid ≠ Some (client_id l) →
  let opened := open_session enforce inner llm (Some now) sid cid pid host t in
  let closed := force_close_session_with_lease enforce close (Some now) sid cid t in
  let turn := should_reject_at_pop_time (Some now) sid cid t in
  let over_http := require_lease_holder enforce true (Some now) sid cid t in
  let credentials e := match reject_wire_pinned_llm_credentials llm with Err e' => e' | Ok _ => e end in
  detach_session sid cid t = t ∧
  match identified cid with
  | Some x =>
      if is_daemon_principal x
      then (∀ control_plane, require_lease_holder enforce control_plane (Some now) sid cid t = (Err (BadRequest x), t)) ∧
           closed = close t ∧ turn = None
      else over_http = (Err (Mapped (held_by sid l)), t) ∧ opened = (Err (credentials (held_by sid l)), t) ∧
           closed = (Err (held_by sid l), t) ∧ turn = Some (held_by sid l) ∧
           heartbeat_session (Some now) sid cid pid host t = (Err (held_by sid l), t)
  | None =>
      heartbeat_session (Some now) sid cid pid host t = (Ok tt, t) ∧ turn = None ∧
      if enforce
      then over_http = (Err (Mapped (LeaseRequired sid)), t) ∧
           opened = (Err (credentials (LeaseRequired sid)), t) ∧ closed = (Err (LeaseRequired sid), t)
      else over_http = (Ok tt, t) ∧ closed = close t ∧
           opened = match reject_wire_pinned_llm_credentials llm with Err e => (Err e, t) | Ok _ => inner t end
  end.
Proof.
  intros Ht Hl Hlive Hx.
  unfold require_lease_holder, assert_lease_holder, detach_session, open_session,
    force_close_session_with_lease, heartbeat_session, should_reject_at_pop_time,
    reject_forged_daemon_principal.
  destruct cid as [[|c x]|]; cbn [identified] in *.
  1,3: cbv zeta; split; [done|]; (split; [done|]); (split; [done|]);
       destruct enforce; by destruct (reject_wire_pinned_llm_credentials llm).
  set (y := c :: x) in *. assert (y ≠ client_id l) as Hy by congruence.
  cbv zeta. split; [by apply (live_detach t sid l)|]. destruct (is_daemon_principal y); [done|].
  rewrite (live_acquire t sid l), (live_check t sid l), (live_heartbeat t sid l), (live_takeover t sid l) by done.
  by destruct (reject_wire_pinned_llm_credentials llm).
Qed.

(** The guards fail closed: with the clock before the epoch no identified client
    passes, and the table does not change. *)
Lemma clock_skew_closed {R : Type} (enforce : bool) (t : SessionLeaseTable) (sid x : str) (pid : option Z) (host : option str)
    (inner close : SessionLeaseTable → result R SessionServiceError * SessionLeaseTable) :
  x ≠ [] → is_daemon_principal x = false →
  require_lease_holder enforce true None sid (Some x) t = (Err (Mapped (LeaseClockSkew sid)), t) ∧
  open_session enforce inner None None sid (Some x) pid host t = (Err (LeaseClockSkew sid), t) ∧
  force_close_session_with_lease enforce close None sid (Some x) t = (Err (LeaseClockSkew sid), t) ∧
  heartbeat_session None sid (Some x) pid host t = (Err (LeaseClockSkew sid), t) ∧
  should_reject_at_pop_time None sid (Some x) t = Some (LeaseClockSkew sid).
Proof.
  intros Hne Hd. unfold require_lease_holder, assert_lease_holder, open_session,
    force_close_session_with_lease, heartbeat_session, should_reject_at_pop_time,
    reject_forged_daemon_principal.
  assert (identified (Some x) = Some x) as -> by (by destruct x). by rewrite Hd.
Qed.

(** The roll-back of a failed [open_session] removes the lease also when the
    client already held it before the call. *)
Lemma failed_reopen_drops_lease {R : Type} (enforce : bool) (t : SessionLeaseTable) (sid : str) l (now : Z) e :
  table_ok t → lease_of t sid = Some l → client_id l ≠ [] → is_daemon_principal (client_id l) = false →
  ∃ t', open_session (R := R) enforce (fun t => (Err e, t)) None (Some now) sid (Some (client_id l)) None None t
        = (Err e, t') ∧ lease_of t' sid = None.
Proof.
  intros Ht Hl Hne Hd. unfold open_session.
  assert (identified (Some (client_id l)) = Some (client_id l)) as -> by (by destruct (client_id l)).
  rewrite Hd.
  pose proof (step_refines (Some now) (Acquire sid (client_id l) None None) t) as H1. simpl in H1.
  unfold acquire in *. destruct (on_shard _ _ t) as [o t1]. destruct (H1 _ _ Ht eq_refl) as (Ht1 & Hc & _).
  rewrite Hl, bool_decide_eq_true_2 in Hc by done. injection Hc as -> Hl1. simpl.
  eexists. split; [done|].
  destruct (step_refines None (Detach sid (client_id l)) t1 _ _ Ht1 eq_refl) as (_ & Hc & _).
  simpl in Hc. rewrite Hl1 in Hc. simpl in Hc. rewrite bool_decide_eq_true_2 in Hc by done.
  by injection Hc.
Qed.
End Guards.

Lemma daemon_principals :
  is_daemon_principal daemon_cron_principal = true ∧
  (∀ h, is_daemon_principal (daemon_hook_principal h) = true) ∧
  ∀ c, is_daemon_principal (daemon_channel_principal c) = true.
Proof. split_and!; [reflexivity|intros; apply starts_with_app..]. Qed.

Module LeaseDemo.
#[local] Instance demo_hasher : SessionHasher := {| finish := fun s => Z.of_nat (length s) |}.

Definition s1 : str := lit "s1".
Definition alice : str := lit "alice".
Definition bob : str := lit "bob".
Definition t0 : SessionLeaseTable := (acquire (Some 1000) s1 alice (Some 7) None new_table).2.
Definition demo_lease : SessionLease := fresh_lease alice (Some 7) None 1000.
Definition events : list (option Z * LeaseOp) :=
  [(Some 20000, Acquire s1 bob None None); (Some 40000, Heartbeat s1 alice None None);
   (None, Takeover s1 (Some bob)); (Some 80000, Takeover s1 (Some bob)); (Some 85000, Detach s1 bob);
   (Some 85000, CheckHolder s1 (Some alice)); (Some 85000, Acquire (lit "s2") bob None None)].

Lemma table_refines_cells_witness :
  lease_of (lease_run [(Some 60000, Takeover s1 (Some bob)); (Some 60001, Heartbeat (lit "s2") bob None None)] t0).2 s1
  = Some (fresh_lease bob None None 60000).
Proof.
  destruct (lease_run _ t0) as [rs t'] eqn:E.
  edestruct table_refines_cells as (_ & _ & Hc); [|exact E|]; [reflexivity|].
  simpl. rewrite Hc. vm_compute. reflexivity.
Defined.

Lemma kept_lease_witness :
  ∃ l', lease_of (lease_run events t0).2 s1 = Some l' ∧ client_id l' = alice.
Proof.
  destruct (lease_run events t0) as [rs t'] eqn:E.
  apply (kept_lease s1 demo_lease events t0 rs t');
    [reflexivity|vm_compute; reflexivity|reflexivity|vm_compute; reflexivity|exact E].
Defined.

Lemma live_lease_excludes_witness :
  require_lease_holder false true (Some 20000) s1 (Some bob) t0 = (Err (Mapped (held_by s1 demo_lease)), t0) ∧
  require_lease_holder true true (Some 20000) s1 None t0 = (Err (Mapped (LeaseRequired s1)), t0).
Proof.
  split.
  - apply (live_lease_excludes (R := unit) false t0 s1 demo_lease 20000 (Some bob) None None None
             (fun t => (Ok tt, t)) (fun t => (Ok tt, t)));
      [reflexivity|vm_compute; reflexivity|vm_compute; reflexivity|discriminate].
  - apply (live_lease_excludes (R := unit) true t0 s1 demo_lease 20000 None None None None
             (fun t => (Ok tt, t)) (fun t => (Ok tt, t)));
      [reflexivity|vm_compute; reflexivity|vm_compute; reflexivity|discriminate].
Defined.
End LeaseDemo.
