(* ===== verification/SessionActor.v ===== *)
(** * The session actor

    apps/shared/src/gateway/session_handle.rs: a session handle is shared by the
    requests of many clients and talks over a bounded channel to one actor, which
    runs the turns of the session one at a time. The state has what the two
    share, what the actor keeps and what is on its way; a step is what one of
    them does between two awaits, so steps of requests, of the running turn and
    of the orphan reaper (session_service_impl.rs) come between any two steps of
    the actor, also while a handler of the actor waits for the supervisor. [issued] and [log] are the history: the requests made, and the
    replies and turns in order. *)

From S2P Require Import Prelude RStr SessionLease.

Definition SESSION_COMMAND_QUEUE_CAPACITY : Z := 16.

Inductive SessionPhase := Idle | Running | Paused | Closing | Closed.

#[global] Instance SessionPhase_eq_dec : EqDecision SessionPhase.
Proof. solve_decision. Defined.

(** A turn on its way: the id of its reply channel, the client that submitted
    it and when the service started handling it. *)
Record Turn := { turn_id : Z; turn_client : option str; submitted_at : Z }.

(** The commands, each with the id of its reply channel. *)
Inductive SessionCommand :=
| RunTurn (t : Turn)
| Snapshot (reply : Z)
| CancelActiveTurn (reply : Z)
| ForceClose (reply : Z)
| HibernateIdle (idle_before_ms : Z) (reply : Z)
| Nop.

(** Replies: [TurnResult] is what the turn itself returned; [Dropped] is the reply
    channel of a turn that panicked, which [run_turn] reads as [SessionClosed]. *)
Inductive Reply :=
| TurnResult
| Dropped
| Failed (e : SessionServiceError)
| Done
| ClosedRecord
| Hibernated (paused : bool).

Inductive Event :=
| Enqueued (t : Turn)
| Replied (id : Z) (r : Reply)
| Started (t : Turn) (cancelled_upfront : bool)
| CancelCalled (t : Turn)
| IdleCancel (at_time : Z)
| SupervisorClosed
| SupervisorHibernated.

(** [finished]: the task of the turn has sent its reply and the completion
    signal, or has panicked and dropped both. *)
Record ActiveTurn := { the_turn : Turn; finished : bool }.

(** What the actor does once [publish_status] returns: go on with its loop, spawn
    the task of the turn, go on with closing, or answer the command. *)
Inductive Then := ThenLoop | ThenSpawn | ThenClose (reply : Z) | ThenClosed (reply : Z) | ThenPaused (reply : Z).

(** Where the actor is: about to look for a turn, holding a turn it has popped,
    waiting for an event, or in a handler that awaits the supervisor: in
    [publish_status], for the snapshot of a reply, for the snapshot and the call of
    [hibernate_idle], or in [force_close]. *)
Inductive Pc :=
| AtStart
| Popped (t : Turn)
| AtWait
| Publishing (next : Then)
| TakingSnapshot (reply : Z) (answer : Reply)
| LookingIdle (idle_before_ms reply : Z)
| Hibernating (reply : Z)
| ForceClosing (reply : Z).

Record Actor := {
  rx : list SessionCommand;
  pending_turns : list Turn;
  active_turn : option ActiveTurn;
  phase : SessionPhase;
  idle_cancel_at : option Z;
  close_reply : option Z;
  queue_depth : Z;
  closing : bool;
  published : SessionPhase;
  pc : Pc;
  checked : list Turn;
  sending : list Turn;
  issued : list Z;
  log : list Event;
}.

Definition init : Actor :=
  {| rx := []; pending_turns := []; active_turn := None; phase := Idle; idle_cancel_at := None;
     close_reply := None; queue_depth := 0; closing := false; published := Idle; pc := AtStart;
     checked := []; sending := []; issued := []; log := [] |}.

(** Field updates. *)
Definition set_rx v (s : Actor) : Actor :=
  Build_Actor v (pending_turns s) (active_turn s) (phase s) (idle_cancel_at s) (close_reply s)
    (queue_depth s) (closing s) (published s) (pc s) (checked s) (sending s) (issued s) (log s).
Definition set_pending v (s : Actor) : Actor :=
  Build_Actor (rx s) v (active_turn s) (phase s) (idle_cancel_at s) (close_reply s)
    (queue_depth s) (closing s) (published s) (pc s) (checked s) (sending s) (issued s) (log s).
Definition set_active v (s : Actor) : Actor :=
  Build_Actor (rx s) (pending_turns s) v (phase s) (idle_cancel_at s) (close_reply s)
    (queue_depth s) (closing s) (published s) (pc s) (checked s) (sending s) (issued s) (log s).
Definition set_phase v (s : Actor) : Actor :=
  Build_Actor (rx s) (pending_turns s) (active_turn s) v (idle_cancel_at s) (close_reply s)
    (queue_depth s) (closing s) (published s) (pc s) (checked s) (sending s) (issued s) (log s).
Definition set_idle_cancel v (s : Actor) : Actor :=
  Build_Actor (rx s) (pending_turns s) (active_turn s) (phase s) v (close_reply s)
    (queue_depth s) (closing s) (published s) (pc s) (checked s) (sending s) (issued s) (log s).
Definition set_close_reply v (s : Actor) : Actor :=
  Build_Actor (rx s) (pending_turns s) (active_turn s) (phase s) (idle_cancel_at s) v
    (queue_depth s) (closing s) (published s) (pc s) (checked s) (sending s) (issued s) (log s).
Definition set_depth v (s : Actor) : Actor :=
  Build_Actor (rx s) (pending_turns s) (active_turn s) (phase s) (idle_cancel_at s) (close_reply s)
    v (closing s) (published s) (pc s) (checked s) (sending s) (issued s) (log s).
Definition set_closing v (s : Actor) : Actor :=
  Build_Actor (rx s) (pending_turns s) (active_turn s) (phase s) (idle_cancel_at s) (close_reply s)
    (queue_depth s) v (published s) (pc s) (checked s) (sending s) (issued s) (log s).
Definition set_pc v (s : Actor) : Actor :=
  Build_Actor (rx s) (pending_turns s) (active_turn s) (phase s) (idle_cancel_at s) (close_reply s)
    (queue_depth s) (closing s) (published s) v (checked s) (sending s) (issued s) (log s).
Definition set_checked v (s : Actor) : Actor :=
  Build_Actor (rx s) (pending_turns s) (active_turn s) (phase s) (idle_cancel_at s) (close_reply s)
    (queue_depth s) (closing s) (published s) (pc s) v (sending s) (issued s) (log s).
Definition set_sending v (s : Actor) : Actor :=
  Build_Actor (rx s) (pending_turns s) (active_turn s) (phase s) (idle_cancel_at s) (close_reply s)
    (queue_depth s) (closing s) (published s) (pc s) (checked s) v (issued s) (log s).
Definition issue (id : Z) (s : Actor) : Actor :=
  Build_Actor (rx s) (pending_turns s) (active_turn s) (phase s) (idle_cancel_at s) (close_reply s)
    (queue_depth s) (closing s) (published s) (pc s) (checked s) (sending s) (issued s ++ [id]) (log s).
Definition say (e : Event) (s : Actor) : Actor :=
  Build_Actor (rx s) (pending_turns s) (active_turn s) (phase s) (idle_cancel_at s) (close_reply s)
    (queue_depth s) (closing s) (published s) (pc s) (checked s) (sending s) (issued s) (log s ++ [e]).
(** The end of [publish_status], as far as others read it. *)
Definition publish (s : Actor) : Actor :=
  Build_Actor (rx s) (pending_turns s) (active_turn s) (phase s) (idle_cancel_at s) (close_reply s)
    (queue_depth s) (closing s) (phase s) (pc s) (checked s) (sending s) (issued s) (log s).

Definition reply (id : Z) (r : Reply) (s : Actor) : Actor := say (Replied id r) s.
(** [queue_depth.fetch_sub(1)], which wraps. *)
Definition decrement (s : Actor) : Actor := set_depth (Word.usize_wrap (queue_depth s - 1)) s.

(** ** The handle *)

(** [try_increment_queue_depth] up to the test of [closing]. *)
Definition submit (t : Turn) (sid : str) (s : Actor) : Actor :=
  let s := issue (turn_id t) s in
  if closing s then reply (turn_id t) (Failed (SessionClosed sid)) s
  else set_checked (checked s ++ [t]) s.

(** The compare-and-exchange loop, at the exchange that succeeds, or the load
    that finds the queue full. *)
Definition increment (t : Turn) (sid : str) (s : Actor) : Actor :=
  if SESSION_COMMAND_QUEUE_CAPACITY <=? queue_depth s then
    reply (turn_id t) (Failed (SessionBusy sid (lit "session root turn queue is full"))) s
  else set_sending (sending s ++ [t]) (set_depth (queue_depth s + 1) s).

Definition full (s : Actor) : bool := SESSION_COMMAND_QUEUE_CAPACITY <=? Z.of_nat (length (rx s)).

(** [try_send] of [run_turn]. *)
Definition send_turn (t : Turn) (sid : str) (s : Actor) : Actor :=
  if full s then
    reply (turn_id t) (Failed (SessionBusy sid (lit "session command queue is full"))) (decrement s)
  else say (Enqueued t) (set_rx (rx s ++ [RunTurn t]) s).

Definition mark_closing (s : Actor) : Actor := set_closing true s.
(** [clear_closing]; [try_send] drops the wake-up when the channel is full. *)
Definition clear_closing (s : Actor) : Actor :=
  let s := set_closing false s in if full s then s else set_rx (rx s ++ [Nop]) s.

(** ** The actor *)

(** The phases in which no turn is taken. *)
Definition refuses (p : SessionPhase) : bool :=
  match p with Paused | Closing | Closed => true | Idle | Running => false end.

(** [next_runnable_turn] from the top of its loop to the pop-time check. *)
Definition pop_turn (s : Actor) : Actor :=
  if bool_decide (is_Some (active_turn s)) || refuses (phase s) then set_pc AtWait s
  else match pending_turns s with
       | [] => set_pc AtWait s
       | next :: rest =>
           if closing s then set_pc AtWait s else set_pc (Popped next) (set_pending rest s)
       end.

(** [start_next_turn_if_possible] with the turn found, up to its await: the token
    is cancelled at once when an idle cancel came after the turn was submitted. *)
Definition start_turn (t : Turn) (s : Actor) : Actor :=
  let s := decrement s in
  let cancelled := match idle_cancel_at s with Some at_time => submitted_at t <? at_time | None => false end in
  let s := set_active (Some {| the_turn := t; finished := false |}) s in
  let s := set_phase Running s in
  say (Started t cancelled) (set_pc (Publishing ThenSpawn) s).

(** The rest of the loop: [rejection] is what [should_reject_at_pop_time] says. *)
Definition decide_turn (t : Turn) (rejection : option SessionServiceError) (s : Actor) : Actor :=
  match rejection with
  | Some e => set_pc AtStart (reply (turn_id t) (Failed e) (decrement s))
  | None => start_turn t s
  end.

(** [finish_force_close]: it starts with the await of the supervisor, and goes on
    in [resume]. *)
Definition finish_force_close (r : Z) (s : Actor) : Actor := set_pc (ForceClosing r) s.

(** [fail_pending_turns]. *)
Fixpoint fail_pending_turns (sid : str) (ts : list Turn) (s : Actor) : Actor :=
  match ts with
  | [] => set_pending [] s
  | t :: ts => fail_pending_turns sid ts (reply (turn_id t) (Failed (SessionClosed sid)) (decrement s))
  end.

(** [begin_force_close] up to its first await, and after the status is published. *)
Definition begin_force_close (sid : str) (r : Z) (s : Actor) : Actor :=
  if bool_decide (phase s = Closed) then set_pc (TakingSnapshot r ClosedRecord) s
  else
    let s := set_phase Closing s in
    let s := match active_turn s with Some a => say (CancelCalled (the_turn a)) s | None => s end in
    set_pc (Publishing (ThenClose r)) (fail_pending_turns sid (pending_turns s) s).
Definition close_published (sid : str) (r : Z) (s : Actor) : Actor :=
  match active_turn s with
  | Some _ =>
      set_pc AtStart
        match close_reply s with
        | Some _ => reply r (Failed (SessionBusy sid (lit "session is already closing"))) s
        | None => set_close_reply (Some r) s
        end
  | None => finish_force_close r s
  end.

(** [handle_command] up to its first await; [now] is the clock. *)
Definition handle_command (sid : str) (now : Z) (c : SessionCommand) (s : Actor) : Actor :=
  match c with
  | RunTurn t =>
      set_pc (Publishing ThenLoop)
        (if refuses (phase s) then reply (turn_id t) (Failed (SessionClosed sid)) (decrement s)
         else set_pending (pending_turns s ++ [t]) s)
  | Snapshot r => set_pc (TakingSnapshot r Done) s
  | CancelActiveTurn r =>
      set_pc AtStart
        (reply r Done (match active_turn s with
                       | Some a => say (CancelCalled (the_turn a)) s
                       | None => say (IdleCancel now) (set_idle_cancel (Some now) s)
                       end))
  | ForceClose r => begin_force_close sid r s
  | HibernateIdle idle_before_ms r =>
      if negb (bool_decide (phase s = Idle)) || bool_decide (is_Some (active_turn s)) ||
         negb (bool_decide (pending_turns s = [])) || (0 <? queue_depth s)
      then set_pc AtStart (reply r (Hibernated false) s)
      else set_pc (LookingIdle idle_before_ms r) s
  | Nop => set_pc AtStart s
  end.

(** [handle_event] of [ActorEvent::ActiveDone], up to its first await. *)
Definition active_done (s : Actor) : Actor :=
  let s := set_active None s in
  match close_reply s with
  | Some r => finish_force_close r (set_close_reply None s)
  | None => if bool_decide (phase s = Closed) then set_pc AtStart s
            else set_pc (Publishing ThenLoop) (set_phase Idle s)
  end.

(** What follows [publish_status]. *)
Definition published_then (sid : str) (k : Then) (s : Actor) : Actor :=
  match k with
  | ThenLoop => set_pc AtStart s
  | ThenSpawn => set_pc AtWait s
  | ThenClose r => close_published sid r s
  | ThenClosed r => set_pc AtStart (reply r ClosedRecord s)
  | ThenPaused r => set_pc AtStart (reply r (Hibernated true) s)
  end.

(** The supervisor has answered: from one await of a handler to the next, or to its
    end; [updated_at] is of the supervisor's record, where the handler reads it. *)
Definition resume (sid : str) (updated_at : Z) (s : Actor) : option Actor :=
  match pc s with
  | AtStart | Popped _ | AtWait => None
  | Publishing k => Some (published_then sid k (publish s))
  | TakingSnapshot r answer => Some (set_pc AtStart (reply r answer s))
  | LookingIdle idle_before_ms r =>
      Some (if idle_before_ms <? updated_at then set_pc AtStart (reply r (Hibernated false) s)
            else set_pc (Hibernating r) s)
  | Hibernating r => Some (set_pc (Publishing (ThenPaused r)) (set_phase Paused (say SupervisorHibernated s)))
  | ForceClosing r => Some (set_pc (Publishing (ThenClosed r)) (set_phase Closed (say SupervisorClosed s)))
  end.

(** ** Steps *)

Inductive Label :=
| Submit (t : Turn)
| Increment (i : nat)
| SendTurn (i : nat)
| Command (c : SessionCommand)
| MarkClosing
| ClearClosing
| Pop
| Decide (rejection : option SessionServiceError)
| Receive (now : Z)
| Resume (updated_at : Z)
| TaskDone (panicked : bool)
| Complete.

(** The task of the active turn runs: [start_next_turn_if_possible] spawns it after
    its await. *)
Definition spawned (s : Actor) : bool := match pc s with Publishing ThenSpawn => false | _ => true end.

(** The reply channel of a command that is not a turn. *)
Definition command_reply (c : SessionCommand) : option Z :=
  match c with
  | Snapshot r | CancelActiveTurn r | ForceClose r | HibernateIdle _ r => Some r
  | RunTurn _ | Nop => None
  end.

(** One step; [None] when it is not enabled. The task of a turn ends, with its result
    or with a panic, only after it was spawned. Reply channels are new, and the
    clock of [Instant] does not go back. *)
Definition fire (sid : str) (s : Actor) (l : Label) : option Actor :=
  match l with
  | Submit t => if bool_decide (turn_id t ∈ issued s) then None else Some (submit t sid s)
  | Increment i =>
      match checked s !! i with
      | Some t => Some (increment t sid (set_checked (delete i (checked s)) s))
      | None => None
      end
  | SendTurn i =>
      match sending s !! i with
      | Some t => Some (send_turn t sid (set_sending (delete i (sending s)) s))
      | None => None
      end
  | Command c =>
      match command_reply c with
      | Some r => if bool_decide (r ∈ issued s) || full s then None
                  else Some (set_rx (rx s ++ [c]) (issue r s))
      | None => None
      end
  | MarkClosing => Some (mark_closing s)
  | ClearClosing => Some (clear_closing s)
  | Pop => match pc s with AtStart => Some (pop_turn s) | _ => None end
  | Decide rejection =>
      match pc s with Popped t => Some (decide_turn t rejection s) | _ => None end
  | Receive now =>
      match pc s, rx s with
      | AtWait, c :: rest =>
          if match idle_cancel_at s with Some last => last <=? now | None => true end
          then Some (handle_command sid now c (set_rx rest s))
          else None
      | _, _ => None
      end
  | Resume updated_at => resume sid updated_at s
  | TaskDone panicked =>
      match active_turn s with
      | Some a =>
          if finished a || negb (spawned s) then None
          else Some (reply (turn_id (the_turn a)) (if panicked then Dropped else TurnResult)
                       (set_active (Some {| the_turn := the_turn a; finished := true |}) s))
      | None => None
      end
  | Complete =>
      match pc s, active_turn s with
      | AtWait, Some a => if finished a then Some (active_done s) else None
      | _, _ => None
      end
  end.

Inductive reachable (sid : str) : Actor → Prop :=
| reach_init : reachable sid init
| reach_step s l s' : reachable sid s → fire sid s l = Some s' → reachable sid s'.

(** ** Where a request can be *)

Definition popped (s : Actor) : list Turn := match pc s with Popped t => [t] | _ => [] end.
Definition turns_of (cs : list SessionCommand) : list Turn :=
  omap (fun c => match c with RunTurn t => Some t | _ => None end) cs.
Definition unfinished (s : Actor) : list Turn :=
  match active_turn s with Some a => if finished a then [] else [the_turn a] | None => [] end.

(** The turns that are counted in [queue_depth]. *)
Definition queued (s : Actor) : list Turn :=
  popped s ++ pending_turns s ++ turns_of (rx s) ++ sending s.

Definition replies_of (cs : list SessionCommand) : list Z := omap command_reply cs.

(** The reply channel that a waiting handler holds. *)
Definition held_reply (p : Pc) : list Z :=
  match p with
  | TakingSnapshot r _ | LookingIdle _ r | Hibernating r | ForceClosing r => [r]
  | Publishing (ThenClose r) | Publishing (ThenClosed r) | Publishing (ThenPaused r) => [r]
  | _ => []
  end.

(** The requests that still wait for their reply. *)
Definition owed (s : Actor) : list Z :=
  (turn_id <$> checked s ++ queued s ++ unfinished s) ++ replies_of (rx s) ++
  option_list (close_reply s) ++ held_reply (pc s).

Definition replied_of (es : list Event) : list Z :=
  omap (fun e => match e with Replied id _ => Some id | _ => None end) es.
Definition started_of (es : list Event) : list Turn :=
  omap (fun e => match e with Started t _ => Some t | _ => None end) es.
Definition enqueued_of (es : list Event) : list Turn :=
  omap (fun e => match e with Enqueued t => Some t | _ => None end) es.
(** The turns that have ended, with a result or with a panic. *)
Definition ended_of (es : list Event) : list Z :=
  omap (fun e => match e with Replied id (TurnResult | Dropped) => Some id | _ => None end) es.
Definition idle_cancels_of (es : list Event) : list Z :=
  omap (fun e => match e with IdleCancel a => Some a | _ => None end) es.

Definition occ (x : Z) (l : list Z) : nat := length (filter (fun y => y = x) l).

(** A closing session has a turn that ends and then the close is answered, or the
    actor is on its way to close it. *)
Definition closing_at (p : Pc) (a : option ActiveTurn) (c : option Z) : Prop :=
  match p with
  | Publishing (ThenClose _) => a = None → c = None
  | ForceClosing _ => a = None ∧ c = None
  | _ => is_Some a ∧ is_Some c
  end.
(** What a waiting handler has found. *)
Definition position (p : Pc) (s : Actor) : Prop :=
  match p with
  | AtStart | AtWait | Publishing ThenLoop => True
  | TakingSnapshot _ answer => answer = Done ∨ answer = ClosedRecord
  | Popped _ => phase s = Idle
  | LookingIdle _ _ | Hibernating _ => phase s = Idle ∧ pending_turns s = []
  | Publishing ThenSpawn => phase s = Running
  | Publishing (ThenClose _) | ForceClosing _ => phase s = Closing
  | Publishing (ThenClosed _) => phase s = Closed
  | Publishing (ThenPaused _) => phase s = Paused
  end.

Record ok (s : Actor) : Prop := {
  ok_depth : queue_depth s = Z.of_nat (length (queued s));
  ok_cap : queue_depth s ≤ SESSION_COMMAND_QUEUE_CAPACITY;
  ok_rx : Z.of_nat (length (rx s)) ≤ SESSION_COMMAND_QUEUE_CAPACITY;
  ok_phase : match phase s with
             | Idle => active_turn s = None ∧ close_reply s = None
             | Running => is_Some (active_turn s) ∧ close_reply s = None
             | Paused | Closed => active_turn s = None ∧ close_reply s = None ∧ pending_turns s = []
             | Closing => pending_turns s = [] ∧ closing_at (pc s) (active_turn s) (close_reply s)
             end;
  ok_pc : position (pc s) s;
  ok_published : match pc s with Publishing _ => True | _ => published s = phase s end;
  ok_owed x : occ x (issued s) = (occ x (owed s) + occ x (replied_of (log s)))%nat;
  ok_fresh : NoDup (issued s);
  ok_order : sublist (started_of (log s) ++ popped s ++ pending_turns s ++ turns_of (rx s))
                     (enqueued_of (log s));
  ok_running : turn_id <$> started_of (log s) =
               ended_of (log s) ++ (turn_id <$> unfinished s);
}.

(** ** The invariant holds *)

Lemma occ_app x l k : occ x (l ++ k) = (occ x l + occ x k)%nat.
Proof. unfold occ. by rewrite filter_app, length_app. Qed.
Lemma occ_cons x y l : occ x (y :: l) = ((if bool_decide (y = x) then 1 else 0) + occ x l)%nat.
Proof. unfold occ. rewrite filter_cons. case_bool_decide; case_decide; done. Qed.
Lemma occ_nil x : occ x [] = 0%nat.
Proof. done. Qed.
Lemma occ_delete x l i (t : Turn) :
  l !! i = Some t →
  occ x (turn_id <$> l) = ((if bool_decide (turn_id t = x) then 1 else 0) + occ x (turn_id <$> delete i l))%nat.
Proof.
  intros Hi. rewrite <- occ_cons. unfold occ.
  apply Permutation_length, filter_Permutation, (fmap_Permutation turn_id _ (t :: delete i l)).
  by apply delete_Permutation.
Qed.
Lemma occ_not_in x l : x ∉ l → occ x l = 0%nat.
Proof.
  induction l as [|y l IH]; [done|]. rewrite occ_cons. intros Hx.
  rewrite bool_decide_eq_false_2, IH by set_solver. done.
Qed.

#[local] Arguments fmap : simpl never.
Lemma fmap_none : turn_id <$> [] = [].
Proof. done. Qed.

#[local] Hint Rewrite @fmap_cons fmap_none @fmap_app @omap_app @length_app occ_app occ_cons occ_nil @length_fmap : actor.

(** The lists of a log grow at the end. *)
Lemma replied_snoc es e :
  replied_of (es ++ [e]) = replied_of es ++ match e with Replied id _ => [id] | _ => [] end.
Proof. unfold replied_of. rewrite omap_app. by destruct e. Qed.
Lemma started_snoc es e :
  started_of (es ++ [e]) = started_of es ++ match e with Started t _ => [t] | _ => [] end.
Proof. unfold started_of. rewrite omap_app. by destruct e. Qed.
Lemma enqueued_snoc es e :
  enqueued_of (es ++ [e]) = enqueued_of es ++ match e with Enqueued t => [t] | _ => [] end.
Proof. unfold enqueued_of. rewrite omap_app. by destruct e. Qed.
Lemma ended_snoc es e :
  ended_of (es ++ [e]) = ended_of es ++ match e with Replied id (TurnResult | Dropped) => [id] | _ => [] end.
Proof. unfold ended_of. rewrite omap_app. destruct e as [|id []| | | | |]; done. Qed.
Lemma turns_snoc cs c :
  turns_of (cs ++ [c]) = turns_of cs ++ match c with RunTurn t => [t] | _ => [] end.
Proof. unfold turns_of. rewrite omap_app. by destruct c. Qed.

Lemma turns_cons c cs :
  turns_of (c :: cs) = match c with RunTurn t => [t] | _ => [] end ++ turns_of cs.
Proof. by destruct c. Qed.
Lemma replies_snoc cs c : replies_of (cs ++ [c]) = replies_of cs ++ option_list (command_reply c).
Proof. unfold replies_of. rewrite omap_app. by destruct c. Qed.
Lemma replies_cons c cs : replies_of (c :: cs) = option_list (command_reply c) ++ replies_of cs.
Proof. by destruct c. Qed.

#[local] Hint Rewrite replied_snoc started_snoc enqueued_snoc ended_snoc turns_snoc turns_cons
  replies_snoc replies_cons : actor.
#[local] Arguments turns_of : simpl never.
#[local] Arguments replies_of : simpl never.

Ltac actor :=
  unfold owed, queued, popped, unfinished in *; simpl in *; autorewrite with actor in *; simpl in *;
  rewrite ?app_nil_r in *.

(** The account of one request: [H] is [ok_owed]. *)
Ltac account H := let x := fresh "x" in
  intros x; specialize (H x); autorewrite with actor in *; simpl in *; autorewrite with actor in *;
  lia.

Lemma NoDup_snoc (l : list Z) x : NoDup l → x ∉ l → NoDup (l ++ [x]).
Proof. intros. apply NoDup_app. split_and!; [done|set_solver|apply NoDup_singleton]. Qed.

Lemma submit_ok sid t s s' : ok s → fire sid s (Submit t) = Some s' → ok s'.
Proof.
  intros [H1 H2 H3 H4 H5 H6 H7 H8 H9 H10]. simpl. case_bool_decide as Hf; [discriminate|].
  intros [= <-]. unfold submit.
  destruct (closing (issue _ s)); constructor; actor; try done; (account H7 || by apply NoDup_snoc).
Qed.

Lemma increment_ok sid i s s' : ok s → fire sid s (Increment i) = Some s' → ok s'.
Proof.
  intros [H1 H2 H3 H4 H5 H6 H7 H8 H9 H10]. simpl. destruct (checked s !! i) as [t|] eqn:Hi; [|discriminate].
  assert (∀ x, occ x (turn_id <$> checked s) = _) as Hd by (intros x; exact (occ_delete x _ _ _ Hi)).
  intros [= <-]. unfold increment. destruct (_ <=? _) eqn:Hc; b2p; constructor; actor; try done.
  - intros x. specialize (H7 x). specialize (Hd x). autorewrite with actor in *. lia.
  - lia.
  - lia.
  - intros x. specialize (H7 x). specialize (Hd x). autorewrite with actor in *. lia.
Qed.

Lemma wrap_pred s : ok s → 0 < queue_depth s → Word.usize_wrap (queue_depth s - 1) = queue_depth s - 1.
Proof.
  intros H Hp. pose proof (ok_cap _ H). apply Word.wrap_id. unfold Word.in_usize, Word.usize_max,
    SESSION_COMMAND_QUEUE_CAPACITY in *. lia.
Qed.

Lemma length_delete_lookup (l : list Turn) i t :
  l !! i = Some t → length l = S (length (delete i l)).
Proof. intros Hi. rewrite length_delete; [|eauto]. apply lookup_lt_Some in Hi. lia. Qed.

Lemma send_turn_ok sid i s s' : ok s → fire sid s (SendTurn i) = Some s' → ok s'.
Proof.
  intros Hok. pose proof Hok as [H1 H2 H3 H4 H5 H6 H7 H8 H9 H10]. simpl.
  destruct (sending s !! i) as [t|] eqn:Hi; [|discriminate].
  assert (∀ x, occ x (turn_id <$> sending s) = _) as Hd by (intros x; exact (occ_delete x _ _ _ Hi)).
  pose proof (length_delete_lookup _ _ _ Hi) as Hlen.
  intros [= <-]. unfold send_turn, full, decrement. destruct (_ <=? _) eqn:Hc; b2p.
  - pose proof (wrap_pred s Hok) as Hw. constructor; actor; try done; rewrite ?Hw; try lia.
    intros x. specialize (H7 x). specialize (Hd x). autorewrite with actor in *. lia.
  - constructor; actor; try done; try lia.
    + intros x. specialize (H7 x). specialize (Hd x). autorewrite with actor in *. simpl. lia.
    + rewrite !app_assoc. apply sublist_app; [by rewrite <- !app_assoc|done].
Qed.

Lemma command_ok sid c s s' : ok s → fire sid s (Command c) = Some s' → ok s'.
Proof.
  intros [H1 H2 H3 H4 H5 H6 H7 H8 H9 H10]. simpl. destruct (command_reply c) as [r|] eqn:Hr; [|discriminate].
  destruct (_ || _) eqn:Hg; [discriminate|]. b2p. unfold full in *. b2p. intros [= <-].
  assert (turns_of (rx s ++ [c]) = turns_of (rx s)) as Ht.
  { rewrite turns_snoc. destruct c; by rewrite ?app_nil_r. }
  constructor; unfold owed, queued in *; simpl; rewrite ?Ht; actor; try done.
  - lia.
  - intros x. specialize (H7 x). autorewrite with actor in *. rewrite Hr. simpl. autorewrite with actor. lia.
  - by apply NoDup_snoc.
Qed.

Lemma flag_ok sid l s s' : l = MarkClosing ∨ l = ClearClosing → ok s → fire sid s l = Some s' → ok s'.
Proof.
  intros Hl [H1 H2 H3 H4 H5 H6 H7 H8 H9 H10]. destruct Hl as [-> | ->]; simpl; intros [= <-].
  - by constructor.
  - unfold clear_closing, full. destruct (_ <=? _) eqn:Hc; [by constructor|]. b2p. simpl in *.
    constructor; actor; try done; (lia || account H7).
Qed.

(** A step of the actor that only moves its position. *)
Lemma pop_ok sid s s' : ok s → fire sid s Pop = Some s' → ok s'.
Proof.
  intros [H1 H2 H3 H4 H5 H6 H7 H8 H9 H10]. simpl. destruct (pc s) eqn:Hpc; try discriminate.
  intros [= <-]. unfold pop_turn. destruct (_ || _) eqn:Hg.
  { constructor; actor; rewrite ?Hpc in *; (done || account H7). }
  b2p. destruct (pending_turns s) as [|t ts] eqn:Hp; [constructor; actor; rewrite ?Hpc, ?Hp in *; (done || account H7)|].
  destruct (closing s); constructor; actor; rewrite ?Hpc, ?Hp in *; autorewrite with actor in *; simpl in *;
    try (done || account H7).
  all: destruct (phase s) eqn:Eph; simpl in *; try done; by destruct (H (proj1 H4)).
Qed.

Lemma decide_ok sid r s s' : ok s → fire sid s (Decide r) = Some s' → ok s'.
Proof.
  intros Hok. pose proof Hok as [H1 H2 H3 H4 H5 H6 H7 H8 H9 H10]. simpl.
  destruct (pc s) as [|t| | | | | |] eqn:Hpc; try discriminate. intros [= <-].
  simpl in H5. rename H5 into Hph. rewrite Hph in H4. destruct H4 as [Hact Hcl].
  pose proof (wrap_pred s Hok) as Hw. unfold decide_turn, start_turn, decrement.
  destruct r as [e|]; constructor; actor; rewrite ?Hpc, ?Hact, ?Hcl, ?Hph in *; simpl in *;
    rewrite ?Hw; try done; try lia; try (account H7).
  - etrans; [|exact H9]. apply sublist_app; [done|]. by apply sublist_cons.
  - by rewrite <- app_assoc.
  - rewrite H10. autorewrite with actor. by rewrite app_nil_r.
Qed.

Lemma task_done_ok sid p s s' : ok s → fire sid s (TaskDone p) = Some s' → ok s'.
Proof.
  intros [H1 H2 H3 H4 H5 H6 H7 H8 H9 H10]. simpl. destruct (active_turn s) as [a|] eqn:Ha; [|discriminate].
  destruct (finished a) eqn:Hf; [discriminate|]. destruct (spawned s) eqn:Hs; [|discriminate]. intros [= <-].
  destruct p; constructor; actor; rewrite ?Ha, ?Hf in *; simpl in *; try (done || account H7).
  all: destruct (phase s), (pc s) as [| | |[]| | | |]; naive_solver.
Qed.

Lemma complete_ok sid s s' : ok s → fire sid s Complete = Some s' → ok s'.
Proof.
  intros Hok. pose proof Hok as [H1 H2 H3 H4 H5 H6 H7 H8 H9 H10]. simpl.
  destruct (pc s) eqn:Hpc; try discriminate. destruct (active_turn s) as [a|] eqn:Ha; [|discriminate].
  destruct (finished a) eqn:Hf; [|discriminate]. intros [= <-]. unfold active_done, finish_force_close. simpl.
  destruct (close_reply s) as [r|] eqn:Hc.
  - assert (phase s = Closing) as Hp by (destruct (phase s); naive_solver). rewrite Hp in *.
    constructor; actor; rewrite ?Ha, ?Hf, ?Hc, ?Hpc, ?Hp in *; simpl in *; try (naive_solver || account H7).
    by rewrite H10, fmap_none, app_nil_r.
  - assert (phase s = Running) as Hp by (destruct (phase s); naive_solver).
    rewrite Hp. simpl. constructor; actor; rewrite ?Ha, ?Hf, ?Hc, ?Hpc, ?Hp in *; simpl in *; try (done || account H7).
    by rewrite H10, fmap_none, app_nil_r.
Qed.

(** The supervisor answers. *)
Lemma close_published_ok sid r s : ok s → pc s = Publishing (ThenClose r) → ok (close_published sid r (publish s)).
Proof.
  intros [H1 H2 H3 H4 H5 H6 H7 H8 H9 H10] Hpc. rewrite Hpc in *. simpl in H5. rewrite H5 in *.
  unfold close_published, finish_force_close. simpl.
  destruct (active_turn s) as [a|] eqn:Ha; [destruct (close_reply s) as [c|] eqn:Hc|];
    constructor; actor; rewrite ?Hpc, ?H5, ?Ha, ?Hc in *; simpl in *; try (done || account H7); naive_solver.
Qed.

Lemma actor_resume_ok sid u s s' : ok s → fire sid s (Resume u) = Some s' → ok s'.
Proof.
  intros Hok. pose proof Hok as [H1 H2 H3 H4 H5 H6 H7 H8 H9 H10]. simpl. unfold resume.
  destruct (pc s) as [| | |[]|r answer|i r|r|r] eqn:Hpc; try discriminate; intros [= <-]; simpl in H5.
  3: by apply close_published_ok.
  all: try (destruct (i <? u)); unfold published_then, close_published, finish_force_close.
  all: try (destruct H5 as [-> | ->]).
  all: constructor; actor; rewrite ?Hpc in *; simpl in *; try (done || account H7).
  - destruct H5 as [Hp ?]. rewrite Hp in H4. naive_solver.
  - rewrite H5 in H4. naive_solver.
Qed.

(** [fail_pending_turns] in one go. *)
Definition failures (sid : str) (ts : list Turn) : list Event :=
  (fun t => Replied (turn_id t) (Failed (SessionClosed sid))) <$> ts.

Lemma fail_pending_spec sid ts s :
  Z.of_nat (length ts) ≤ queue_depth s ≤ SESSION_COMMAND_QUEUE_CAPACITY →
  fail_pending_turns sid ts s =
  Build_Actor (rx s) [] (active_turn s) (phase s) (idle_cancel_at s) (close_reply s)
    (queue_depth s - Z.of_nat (length ts)) (closing s) (published s) (pc s) (checked s) (sending s)
    (issued s) (log s ++ failures sid ts).
Proof.
  revert s. induction ts as [|t ts IH]; intros s Hd; simpl.
  - unfold set_pending, failures. by rewrite Z.sub_0_r, fmap_nil, app_nil_r.
  - simpl in Hd. unfold SESSION_COMMAND_QUEUE_CAPACITY in Hd.
    assert (Word.usize_wrap (queue_depth s - 1) = queue_depth s - 1) as Hw.
    { apply Word.wrap_id. unfold Word.in_usize, Word.usize_max. lia. }
    rewrite IH; unfold decrement; simpl; rewrite Hw; [|unfold SESSION_COMMAND_QUEUE_CAPACITY; lia].
    unfold failures. rewrite fmap_cons, <- app_assoc. f_equal. lia.
Qed.

Lemma replied_failures es sid ts :
  replied_of (es ++ failures sid ts) = replied_of es ++ (turn_id <$> ts).
Proof.
  unfold replied_of. rewrite omap_app. f_equal. unfold failures.
  induction ts as [|t ts IH]; [done|]. rewrite !fmap_cons, <- IH. done.
Qed.
Lemma failures_silent {A} (f : Event → option A) es sid ts :
  (∀ id e, f (Replied id (Failed e)) = None) → omap f (es ++ failures sid ts) = omap f es.
Proof.
  intros Hf. rewrite omap_app. assert (omap f (failures sid ts) = []) as ->; [|apply app_nil_r].
  unfold failures. induction ts as [|t ts IH]; [done|]. rewrite fmap_cons. simpl. rewrite Hf. exact IH.
Qed.
Lemma started_failures es sid ts : started_of (es ++ failures sid ts) = started_of es.
Proof. by apply failures_silent. Qed.
Lemma enqueued_failures es sid ts : enqueued_of (es ++ failures sid ts) = enqueued_of es.
Proof. by apply failures_silent. Qed.
Lemma ended_failures es sid ts : ended_of (es ++ failures sid ts) = ended_of es.
Proof. by apply failures_silent. Qed.

#[local] Hint Rewrite replied_failures started_failures enqueued_failures ended_failures : actor.

(** A command is received. *)
Lemma force_close_ok sid r rest s :
  ok s → pc s = AtWait → rx s = ForceClose r :: rest → ok (begin_force_close sid r (set_rx rest s)).
Proof.
  intros Hok Hpc Hrx. pose proof Hok as [H1 H2 H3 H4 H5 H6 H7 H8 H9 H10]. unfold begin_force_close.
  destruct (bool_decide (phase (set_rx rest s) = Closed)) eqn:Hcl; b2p; simpl in Hcl.
  { rewrite Hcl in *. constructor; actor; rewrite ?Hpc, ?Hrx, ?Hcl in *;
      autorewrite with actor in *; simpl in *; auto; try done; (lia || account H7). }
  assert (Z.of_nat (length (pending_turns s)) ≤ queue_depth s) as Hlen.
  { actor. rewrite H1. lia. }
  assert (started_of (log s) ++ turns_of (rx s) `sublist_of` enqueued_of (log s)) as Hsub.
  { etrans; [|exact H9]. unfold popped. rewrite Hpc. apply sublist_app; [done|].
    simpl. by apply sublist_inserts_l. }
  assert (active_turn s = None → close_reply s = None) as Hcr.
  { intros E. rewrite Hpc, E in H4. simpl in H4. destruct (phase s); naive_solver. }
  destruct (active_turn s) as [a|] eqn:Ha; simpl; rewrite Ha; rewrite fail_pending_spec by done; simpl;
    constructor; actor; rewrite ?Hpc, ?Hrx, ?Ha in *; autorewrite with actor in *; simpl in *;
    rewrite ?app_nil_r in *; eauto; try lia; try (account H7); try done.
Qed.

Lemma run_turn_ok sid now t rest s :
  ok s → pc s = AtWait → rx s = RunTurn t :: rest → ok (handle_command sid now (RunTurn t) (set_rx rest s)).
Proof.
  intros Hok Hpc Hrx. pose proof Hok as [H1 H2 H3 H4 H5 H6 H7 H8 H9 H10]. simpl.
  pose proof (wrap_pred s Hok) as Hw. unfold decrement.
  destruct (refuses (phase s)) eqn:Hr; constructor; actor; rewrite ?Hpc, ?Hrx in *;
    autorewrite with actor in *; simpl in *; rewrite ?Hw; eauto; try lia; try (account H7); try done.
  - etrans; [|exact H9]. apply sublist_app; [done|]. apply sublist_app; [done|]. by apply sublist_cons.
  - destruct (phase s); done.
  - by rewrite <- app_assoc.
Qed.

(** The other commands answer at once or await the supervisor. *)
Lemma control_ok sid now c rest s :
  ok s → pc s = AtWait → rx s = c :: rest →
  match c with Snapshot _ | CancelActiveTurn _ | HibernateIdle _ _ | Nop => True | _ => False end →
  ok (handle_command sid now c (set_rx rest s)).
Proof.
  intros Hok Hpc Hrx Hc. pose proof Hok as [H1 H2 H3 H4 H5 H6 H7 H8 H9 H10].
  destruct c as [t|r|r|r|i r|]; try done; simpl;
    [|destruct (active_turn s) as [a|] eqn:Ha|destruct (_ || _) eqn:Hg; [|simpl in Hg; b2p]|]; simpl;
    constructor; actor; rewrite ?Hpc, ?Hrx, ?Ha in *; autorewrite with actor in *; simpl in *;
      rewrite ?app_nil_r in *; eauto; try lia; try (account H7); try done.
Qed.

Lemma fire_ok sid s l s' : ok s → fire sid s l = Some s' → ok s'.
Proof.
  intros H. destruct l as [t|i|i|c| | | |r|now|u|p|]; intros Hf.
  - by eapply submit_ok.
  - by eapply increment_ok.
  - by eapply send_turn_ok.
  - by eapply command_ok.
  - apply (flag_ok sid MarkClosing s); auto.
  - apply (flag_ok sid ClearClosing s); auto.
  - by eapply pop_ok.
  - by eapply decide_ok.
  - simpl in Hf. destruct (pc s) eqn:Hpc; try discriminate. destruct (rx s) as [|c rest] eqn:Hrx; [done|].
    assert (s' = handle_command sid now c (set_rx rest s)) as ->.
    { repeat case_match; congruence. }
    destruct c; [by apply run_turn_ok|by apply control_ok..| |by apply control_ok|by apply control_ok].
    by apply force_close_ok.
  - by eapply actor_resume_ok.
  - by eapply task_done_ok.
  - by eapply complete_ok.
Qed.

Lemma reachable_ok sid s : reachable sid s → ok s.
Proof. induction 1; [|by eapply fire_ok]. constructor; simpl; try done. constructor. Qed.

(** ** What the invariant gives *)

(** C14: Every request gets exactly one reply: in every reachable state each
    request that was made, a turn or a command, either waits in exactly one
    place and has no reply, or has been answered exactly once; nothing else is
    ever answered. The queue depth is the number of turns that wait, never more
    than the capacity and never below zero. *)
Theorem actor_replies_once sid s id :
  reachable sid s →
  (id ∈ issued s → (occ id (owed s) + occ id (replied_of (log s)) = 1)%nat) ∧
  (id ∉ issued s → (occ id (owed s) + occ id (replied_of (log s)) = 0)%nat) ∧
  queue_depth s = Z.of_nat (length (queued s)) ∧ 0 ≤ queue_depth s ≤ SESSION_COMMAND_QUEUE_CAPACITY.
Proof.
  intros H%reachable_ok. split_and!.
  - intros Hin. rewrite <- (ok_owed _ H). apply list_elem_of_split in Hin as (l1 & l2 & Hl).
    pose proof (ok_fresh _ H) as Hnd. rewrite Hl in *. rewrite occ_app, occ_cons.
    apply NoDup_app in Hnd as (_ & Hd & Hnd). apply NoDup_cons in Hnd as [Hn2 _].
    rewrite bool_decide_eq_true_2 by done. rewrite !occ_not_in; [done|done|].
    intros Hx. apply (Hd _ Hx). left.
  - intros Hn. rewrite <- (ok_owed _ H). by apply occ_not_in.
  - apply (ok_depth _ H).
  - rewrite (ok_depth _ H). lia.
  - apply (ok_cap _ H).
Qed.

(** C28: Turns run one at a time and in the order in which they entered the
    queue, in every interleaving with requests, turns that panic and the reaper: the
    turns started are a subsequence of the turns enqueued, and each but the last
    has ended, with its result or with a panic, before the next one starts. While
    the session is running a turn is active, and a turn is active only while it is
    running or closing; a session that is closing without a turn has an actor that
    is in the middle of [begin_force_close] or [finish_force_close]. *)
Theorem turns_serial sid s :
  reachable sid s →
  started_of (log s) `sublist_of` enqueued_of (log s) ∧
  turn_id <$> started_of (log s) = ended_of (log s) ++ (turn_id <$> unfinished s) ∧
  (phase s = Running → is_Some (active_turn s)) ∧
  (is_Some (active_turn s) → phase s = Running ∨ phase s = Closing) ∧
  (phase s = Closing → active_turn s = None →
     ∃ r, pc s = Publishing (ThenClose r) ∨ pc s = ForceClosing r).
Proof.
  intros H%reachable_ok. pose proof (ok_phase _ H) as Hp. split; [|split; [apply (ok_running _ H)|split_and!]].
  - etrans; [|apply (ok_order _ H)]. apply sublist_inserts_r. done.
  - intros E. rewrite E in Hp. apply Hp.
  - intros [a Ha]. destruct (phase s); auto; destruct Hp; congruence.
  - intros E Ha. rewrite E, Ha in Hp. destruct Hp as [_ Hp].
    destruct (pc s) as [| | |[]| | | |]; simpl in Hp; try (destruct Hp as [[? ?] _]; done); eauto.
Qed.

(** Runs. *)
Inductive steps (sid : str) : Actor → Actor → Prop :=
| steps_refl s : steps sid s s
| steps_step s l s1 s2 : fire sid s l = Some s1 → steps sid s1 s2 → steps sid s s2.

Lemma fail_pending_started sid ts s :
  started_of (log (fail_pending_turns sid ts s)) = started_of (log s) ∧
  phase (fail_pending_turns sid ts s) = phase s.
Proof.
  revert s. induction ts as [|t ts IH]; intros s; simpl; [done|].
  destruct (IH (reply (turn_id t) (Failed (SessionClosed sid)) (decrement s))) as [-> ->]. simpl.
  autorewrite with actor. by rewrite app_nil_r.
Qed.

Lemma refuses_command sid now c s :
  refuses (phase s) = true →
  let s' := handle_command sid now c s in
  started_of (log s') = started_of (log s) ∧ refuses (phase s') = true ∧
  (phase s = Closed → phase s' = Closed).
Proof.
  intros Hr. destruct c as [t|r|r|r|i r|]; simpl.
  - rewrite Hr. simpl. autorewrite with actor. rewrite app_nil_r. auto.
  - auto.
  - destruct (active_turn s); simpl; autorewrite with actor; rewrite !app_nil_r; auto.
  - unfold begin_force_close. case_bool_decide as Hc; simpl; [auto|].
    destruct (active_turn s) eqn:Ha; simpl;
      match goal with |- context [fail_pending_turns sid ?ts ?x] =>
        destruct (fail_pending_started sid ts x) as [-> ->] end; simpl;
      autorewrite with actor; rewrite ?app_nil_r; done.
  - destruct (phase s) eqn:E; try done; simpl; rewrite E; autorewrite with actor; rewrite app_nil_r; done.
  - auto.
Qed.

Lemma refuses_resume sid u s s' :
  ok s → refuses (phase s) = true → resume sid u s = Some s' →
  started_of (log s') = started_of (log s) ∧ refuses (phase s') = true ∧
  (phase s = Closed → phase s' = Closed).
Proof.
  intros Hok Hr. pose proof (ok_pc _ Hok) as Hp. unfold resume.
  destruct (pc s) as [| | |[]|r a|i r|r|r] eqn:Hpc; try discriminate; intros [= <-]; simpl in Hp.
  all: unfold published_then, close_published, finish_force_close; simpl.
  all: repeat match goal with |- context [match ?x with _ => _ end] => destruct x eqn:? end; simpl.
  all: autorewrite with actor; rewrite ?app_nil_r; try (split_and!; [done|done|congruence]).
  all: try (destruct Hp as [Hp _]; by rewrite Hp in Hr).
Qed.

Lemma refuses_step sid s l s' :
  ok s → refuses (phase s) = true → fire sid s l = Some s' →
  started_of (log s') = started_of (log s) ∧ refuses (phase s') = true ∧
  (phase s = Closed → phase s' = Closed).
Proof.
  intros Hok Hr Hf. pose proof (ok_depth _ Hok) as Hd. pose proof (ok_cap _ Hok) as Hcap.
  assert (∀ t, pc s ≠ Popped t) as Hpc.
  { intros t Ht. pose proof (ok_pc _ Hok) as Hp. rewrite Ht in Hp. simpl in Hp. by rewrite Hp in Hr. }
  destruct l as [t|i|i|c| | | |r|now|u|p|]; simpl in Hf.
  - case_bool_decide; [discriminate|]. injection Hf as <-. unfold submit.
    destruct (closing _); simpl; autorewrite with actor; rewrite ?app_nil_r; auto.
  - destruct (checked s !! i); [|discriminate]. injection Hf as <-. unfold increment.
    destruct (_ <=? _); simpl; autorewrite with actor; rewrite ?app_nil_r; auto.
  - destruct (sending s !! i); [|discriminate]. injection Hf as <-. unfold send_turn.
    destruct (full _); simpl; autorewrite with actor; rewrite ?app_nil_r; auto.
  - destruct (command_reply c); [|discriminate]. destruct (_ || _); [discriminate|]. by injection Hf as <-.
  - by injection Hf as <-.
  - injection Hf as <-. unfold clear_closing. by destruct (full _).
  - destruct (pc s); try discriminate. injection Hf as <-. unfold pop_turn. rewrite Hr, orb_true_r. done.
  - destruct (pc s) eqn:E; try discriminate. by destruct (Hpc t).
  - destruct (pc s) eqn:E; try discriminate. destruct (rx s) as [|c rest]; [done|].
    assert (s' = handle_command sid now c (set_rx rest s)) as ->.
    { repeat case_match; congruence. }
    by apply (refuses_command sid now c (set_rx rest s)).
  - by eapply refuses_resume.
  - destruct (active_turn s) as [a|]; [|discriminate]. destruct (_ || _); [discriminate|].
    injection Hf as <-. simpl. autorewrite with actor. rewrite app_nil_r. auto.
  - destruct (pc s) eqn:E; try discriminate. destruct (active_turn s) as [a|] eqn:Ha; [|discriminate].
    destruct (finished a); [|discriminate]. injection Hf as <-. unfold active_done, finish_force_close. simpl.
    pose proof (ok_phase _ Hok) as Hp. rewrite E in Hp. simpl in Hp.
    destruct (close_reply s) eqn:Hc; simpl; [auto|].
    destruct (phase s); try done; naive_solver.
Qed.

(** A session that is paused, closing or closed starts no turn any more,
    whatever is done to it, and a closed one stays closed. *)
Theorem closed_session_stays sid s s' :
  reachable sid s → refuses (phase s) = true → steps sid s s' →
  started_of (log s') = started_of (log s) ∧ refuses (phase s') = true ∧
  (phase s = Closed → phase s' = Closed).
Proof.
  intros Hr%reachable_ok Hp Hs. induction Hs as [|s l s1 s2 Hf _ IH]; [done|].
  destruct (refuses_step _ _ _ _ Hr Hp Hf) as (H1 & H2 & H3).
  destruct (IH (fire_ok _ _ _ _ Hr Hf) H2) as (H4 & H5 & H6).
  split_and!; [congruence|done|auto].
Qed.

(** ** Nothing is left waiting *)

(** The steps of the requests under way, the actor and the running turn; the
    others are new requests and the reaper. *)
Definition internal (l : Label) : bool :=
  match l with Submit _ | Command _ | MarkClosing | ClearClosing => false | _ => true end.

(** An actor that waits with turns in its queue will be woken up. *)
Definition awake (s : Actor) : Prop :=
  pc s = AtWait → active_turn s = None → phase s = Idle → pending_turns s ≠ [] →
  closing s = true ∨ rx s ≠ [].

Lemma awake_step sid s l s' : ok s → awake s → fire sid s l = Some s' → awake s'.
Proof.
  unfold awake. intros Hok Ha Hf. destruct l as [t|i|i|c| | | |r|now|u|p|]; simpl in Hf.
  - case_bool_decide; [discriminate|]. injection Hf as <-. unfold submit.
    destruct (closing (issue _ s)); exact Ha.
  - destruct (checked s !! i); [|discriminate]. injection Hf as <-. unfold increment.
    destruct (_ <=? _); exact Ha.
  - destruct (sending s !! i); [|discriminate]. injection Hf as <-. unfold send_turn.
    destruct (full _); [done|]. simpl. intros. right. by destruct (rx s).
  - destruct (command_reply c); [|discriminate]. destruct (_ || _); [discriminate|]. injection Hf as <-.
    simpl. intros. right. by destruct (rx s).
  - injection Hf as <-. simpl. auto.
  - injection Hf as <-. unfold clear_closing, full. simpl. intros. right.
    destruct (_ <=? _) eqn:Hc; simpl; [|by destruct (rx s)]. b2p.
    unfold SESSION_COMMAND_QUEUE_CAPACITY in Hc. simpl in Hc. by destruct (rx s).
  - destruct (pc s); try discriminate. injection Hf as <-. unfold pop_turn.
    destruct (_ || _) eqn:Hg; simpl.
    + intros _ Hact Hp. rewrite Hact, Hp in Hg. done.
    + destruct (pending_turns s) eqn:Hp; [simpl; congruence|].
      destruct (closing s) eqn:Hc; simpl; [rewrite Hc; auto|discriminate].
  - destruct (pc s); try discriminate. injection Hf as <-. by destruct r.
  - destruct (pc s); try discriminate. destruct (rx s) as [|c rest]; [done|]. case_match; [|discriminate].
    injection Hf as <-. destruct c; simpl; try done; [|by destruct (_ || _)].
    unfold begin_force_close. by case_bool_decide.
  - unfold resume in Hf. pose proof (ok_pc _ Hok) as Hp. pose proof (ok_phase _ Hok) as Hph.
    destruct (pc s) as [| | |[]| |? ?| |]; try discriminate; injection Hf as <-; simpl in *; try done.
    + rewrite Hp. done.
    + unfold close_published. by destruct (active_turn (publish s)).
    + by destruct (_ <? _).
  - destruct (active_turn s) as [a|]; [|discriminate]. destruct (_ || _); [discriminate|]. by injection Hf as <-.
  - destruct (pc s); try discriminate. destruct (active_turn s) as [a|]; [|discriminate].
    destruct (finished a); [|discriminate]. injection Hf as <-. unfold active_done. simpl.
    destruct (close_reply s); [done|]. by case_bool_decide.
Qed.

Lemma reachable_awake sid s : reachable sid s → awake s.
Proof. induction 1; [done|]. eapply awake_step; [by eapply reachable_ok|done|done]. Qed.

Lemma lookup_head {A} (l : list A) : l ≠ [] → ∃ x, l !! 0%nat = Some x.
Proof. destruct l; [done|eauto]. Qed.

Lemma actor_progress sid s :
  ok s → awake s → closing s = false → owed s ≠ [] →
  ∃ l s', internal l = true ∧ fire sid s l = Some s'.
Proof.
  intros Hok Haw Hcl Ho. destruct (decide (checked s = [])) as [Hch|(t & Ht)%lookup_head].
  2:{ exists (Increment 0). simpl. rewrite Ht. eauto. }
  destruct (decide (sending s = [])) as [Hse|(t & Ht)%lookup_head].
  2:{ exists (SendTurn 0). simpl. rewrite Ht. eauto. }
  destruct (pc s) as [|t| |k|r x|i r|r|r] eqn:Hpc.
  4-8: exists (Resume 0); simpl; unfold resume; rewrite Hpc; eauto.
  - exists Pop. simpl. rewrite Hpc. eauto.
  - exists (Decide None). simpl. rewrite Hpc. eauto.
  - destruct (active_turn s) as [a|] eqn:Ha.
    { destruct (finished a) eqn:Hf.
      - exists Complete. simpl. rewrite Hpc, Ha, Hf. eauto.
      - exists (TaskDone false). simpl. unfold spawned. rewrite Ha, Hf, Hpc. simpl. eauto. }
    destruct (rx s) as [|c rest] eqn:Hrx.
    2:{ exists (Receive (default 0 (idle_cancel_at s))). simpl. rewrite Hpc, Hrx.
        destruct (idle_cancel_at s); simpl; rewrite ?Z.leb_refl; eauto. }
    exfalso. pose proof (ok_phase _ Hok) as Hp. rewrite Ha, Hpc in Hp. simpl in Hp.
    assert (phase s ≠ Closing ∧ close_reply s = None) as [Hpn Hc].
    { destruct (phase s); try naive_solver. }
    unfold owed, queued, popped, unfinished in Ho. rewrite Hch, Hse, Hpc, Hrx, Ha, Hc in Ho. simpl in Ho.
    rewrite !app_nil_r in Ho.
    assert (pending_turns s ≠ []) as Hne by (intros E; by rewrite E in Ho).
    destruct (Haw Hpc Ha) as [?|?]; [|done|congruence|done].
    destruct (phase s); naive_solver.
Qed.

(** A bound on the internal steps to come. *)
Definition pc_weight (p : Pc) : Z :=
  match p with
  | AtStart => 1
  | Popped _ => 7
  | AtWait => 0
  | Publishing ThenSpawn => 1
  | Publishing ThenLoop | Publishing (ThenClosed _) | Publishing (ThenPaused _) | TakingSnapshot _ _ => 2
  | Hibernating _ | ForceClosing _ => 3
  | LookingIdle _ _ | Publishing (ThenClose _) => 4
  end.
Definition active_weight (a : option ActiveTurn) : Z :=
  match a with Some a => if finished a then 4 else 5 | None => 0 end.
Definition command_weight (c : SessionCommand) : Z := match c with RunTurn _ => 10 | _ => 5 end.
Definition rx_weight (cs : list SessionCommand) : Z := foldr (fun c n => command_weight c + n) 0 cs.
Definition weight (s : Actor) : Z :=
  12 * Z.of_nat (length (checked s)) + 11 * Z.of_nat (length (sending s)) + rx_weight (rx s) +
  7 * Z.of_nat (length (pending_turns s)) + active_weight (active_turn s) + pc_weight (pc s).

Lemma rx_weight_app cs ds : rx_weight (cs ++ ds) = rx_weight cs + rx_weight ds.
Proof. induction cs; simpl; [done|]. lia. Qed.
Lemma rx_weight_nonneg cs : 0 ≤ rx_weight cs.
Proof. induction cs as [|c cs IH]; simpl; [lia|]. destruct c; simpl; lia. Qed.
Lemma weight_nonneg s : 0 ≤ weight s.
Proof.
  unfold weight. pose proof (rx_weight_nonneg (rx s)).
  assert (0 ≤ active_weight (active_turn s)) by (destruct (active_turn s) as [a|]; simpl; [destruct (finished a)|]; lia).
  assert (0 ≤ pc_weight (pc s)) by (destruct (pc s) as [| | |[]| | | |]; simpl; lia). lia.
Qed.

Lemma fail_pending_weight sid ts s :
  let s' := fail_pending_turns sid ts s in
  rx s' = rx s ∧ pending_turns s' = [] ∧ active_turn s' = active_turn s ∧ pc s' = pc s ∧
  checked s' = checked s ∧ sending s' = sending s ∧ close_reply s' = close_reply s ∧ closing s' = closing s.
Proof.
  revert s. induction ts as [|t ts IH]; intros s; simpl; [done|].
  exact (IH (reply (turn_id t) (Failed (SessionClosed sid)) (decrement s))).
Qed.

Lemma handle_command_weight sid now c s :
  pc s = AtWait →
  weight (handle_command sid now c s) < weight s + command_weight c ∧
  closing (handle_command sid now c s) = closing s.
Proof.
  intros Hpc. unfold weight. rewrite Hpc. destruct c as [t|r|r|r|i r|]; simpl.
  - destruct (refuses (phase s)); simpl; rewrite ?length_app; simpl; (split; [lia|done]).
  - split; [lia|done].
  - destruct (active_turn s) as [a|] eqn:Ha; simpl; rewrite Ha; simpl; (split; [lia|done]).
  - unfold begin_force_close. case_bool_decide; simpl; [split; [lia|done]|].
    destruct (active_turn s) as [a|] eqn:Ha; simpl;
      match goal with |- context [fail_pending_turns sid ?ts ?x] =>
        destruct (fail_pending_weight sid ts x) as (E1 & E2 & E3 & E4 & E5 & E6 & E7 & E8) end; simpl in *;
      rewrite E1, E2, E3, E5, E6, E8, ?Ha; simpl; (split; [lia|done]).
  - destruct (_ || _); simpl; (split; [lia|done]).
  - split; [lia|done].
Qed.

Lemma resume_weight sid u s s' : resume sid u s = Some s' → weight s' < weight s ∧ closing s' = closing s.
Proof.
  unfold resume, weight. destruct (pc s) as [| | |[]|r a|i r|r|r] eqn:Hpc; try discriminate; intros [= <-].
  all: unfold published_then, close_published, finish_force_close; simpl.
  all: try (destruct (i <? u)).
  3: destruct (active_turn s) eqn:Ha; [destruct (close_reply s)|].
  all: simpl; rewrite ?Ha; simpl; (split; [lia|done]).
Qed.

Lemma internal_weight sid s l s' :
  ok s → internal l = true → fire sid s l = Some s' → weight s' < weight s ∧ closing s' = closing s.
Proof.
  intros Hok Hi Hf. destruct l as [t|i|i|c| | | |r|now|u|p|]; try discriminate; simpl in Hf.
  - destruct (checked s !! i) as [t|] eqn:Ht; [|discriminate]. injection Hf as <-.
    pose proof (length_delete_lookup _ _ _ Ht) as Hl. unfold increment, weight.
    destruct (_ <=? _); simpl; rewrite ?length_app; simpl; (split; [lia|done]).
  - destruct (sending s !! i) as [t|] eqn:Ht; [|discriminate]. injection Hf as <-.
    pose proof (length_delete_lookup _ _ _ Ht) as Hl. unfold send_turn, weight.
    destruct (full _); simpl; rewrite ?rx_weight_app; simpl; (split; [lia|done]).
  - destruct (pc s) eqn:Hpc; try discriminate. injection Hf as <-. unfold pop_turn, weight. rewrite Hpc.
    destruct (_ || _); simpl; [split; [lia|done]|].
    destruct (pending_turns s) eqn:Hp; simpl; rewrite ?Hp; simpl; [split; [lia|done]|].
    destruct (closing s) eqn:Hc; simpl; rewrite ?Hp; simpl; (split; [lia|done]).
  - destruct (pc s) eqn:Hpc; try discriminate. injection Hf as <-. unfold weight. rewrite Hpc.
    pose proof (ok_phase _ Hok) as Hp. pose proof (ok_pc _ Hok) as Hi'. rewrite Hpc in Hi'. simpl in Hi'.
    rewrite Hi' in Hp. destruct Hp as [Ha _].
    destruct r; simpl; rewrite Ha; simpl; (split; [lia|done]).
  - destruct (pc s) eqn:Hpc; try discriminate. destruct (rx s) as [|c rest] eqn:Hrx; [done|].
    assert (s' = handle_command sid now c (set_rx rest s)) as ->.
    { repeat case_match; congruence. }
    destruct (handle_command_weight sid now c (set_rx rest s) Hpc) as [Hw Hc]. split; [|done].
    unfold weight at 2 in Hw. simpl in Hw. unfold weight at 2. rewrite Hrx. simpl. lia.
  - by eapply resume_weight.
  - destruct (active_turn s) as [a|] eqn:Ha; [|discriminate]. destruct (finished a) eqn:Hfi; [discriminate|].
    destruct (spawned s); [|discriminate]. injection Hf as <-. unfold weight. simpl. rewrite Ha. simpl. rewrite Hfi. split; [lia|done].
  - destruct (pc s) eqn:Hpc; try discriminate. destruct (active_turn s) as [a|] eqn:Ha; [|discriminate].
    destruct (finished a) eqn:Hfi; [|discriminate]. injection Hf as <-.
    unfold weight. rewrite Hpc, Ha. simpl. rewrite Hfi. unfold active_done, finish_force_close. simpl.
    destruct (close_reply s); simpl; [split; [lia|done]|]. case_bool_decide; simpl; (split; [lia|done]).
Qed.

Inductive internal_run (sid : str) : nat → Actor → Actor → Prop :=
| run_nil s : internal_run sid 0 s s
| run_cons n s l s1 s2 :
    internal l = true → fire sid s l = Some s1 → internal_run sid n s1 s2 → internal_run sid (S n) s s2.

(** C29: The session drains: when no new request comes and the reaper is not at
    work, every run of the requests under way, the actor, its turns and the
    answers of the supervisor, in any interleaving, ends after at most [weight] steps, and it cannot stop while
    any request is unanswered; so every request is answered, if its turn
    returns. *)
Theorem actor_drains sid s n s' :
  reachable sid s → closing s = false → internal_run sid n s s' →
  Z.of_nat n + weight s' ≤ weight s ∧
  (owed s' ≠ [] → ∃ l s'', internal l = true ∧ fire sid s' l = Some s'').
Proof.
  intros Hr Hc Hrun.
  assert (ok s ∧ awake s) as [Hok Haw] by (split; [by eapply reachable_ok|by eapply reachable_awake]).
  clear Hr. induction Hrun as [s|n s l s1 s2 Hi Hf _ IH].
  - split; [lia|]. by apply actor_progress.
  - destruct (internal_weight _ _ _ _ Hok Hi Hf) as [Hw Hc1].
    destruct IH as [Hle Hp]; [congruence|by eapply fire_ok|by eapply awake_step|].
    split; [lia|done].
Qed.

(** ** Cancellation *)

(** Every turn in the log was cancelled at its start exactly when a cancel had
    come, while no turn was active, after it was submitted. *)
Definition cancels_right (es : list Event) : Prop :=
  ∀ l1 t c l2, es = l1 ++ Started t c :: l2 →
    (c = true ↔ ∃ a, a ∈ idle_cancels_of l1 ∧ submitted_at t < a).

Record cancel_ok (s : Actor) : Prop := {
  ck_last : idle_cancel_at s = last (idle_cancels_of (log s));
  ck_sorted : StronglySorted Z.le (idle_cancels_of (log s));
  ck_right : cancels_right (log s);
}.

Lemma idle_cancels_snoc es e :
  idle_cancels_of (es ++ [e]) = idle_cancels_of es ++ match e with IdleCancel a => [a] | _ => [] end.
Proof. unfold idle_cancels_of. rewrite omap_app. by destruct e. Qed.

Lemma cancels_right_snoc es e :
  cancels_right es →
  (∀ t c, e = Started t c → (c = true ↔ ∃ a, a ∈ idle_cancels_of es ∧ submitted_at t < a)) →
  cancels_right (es ++ [e]).
Proof.
  intros Hes He l1 t c l2 Heq.
  destruct l2 as [|x l2 _] using rev_ind.
  - apply app_inj_tail in Heq as [<- ->]. by apply He.
  - rewrite app_comm_cons, app_assoc in Heq. apply app_inj_tail in Heq as [-> _]. by eapply Hes.
Qed.

Lemma sorted_last_max l a : StronglySorted Z.le l → last l = Some a → ∀ b, b ∈ l → b ≤ a.
Proof.
  induction 1 as [|x l Hs IH Hf]; [done|]. destruct l as [|y l].
  - intros [= ->] b ->%list_elem_of_singleton. lia.
  - intros Hl b [->|Hb]%elem_of_cons; [|by apply IH].
    eapply Forall_forall in Hf; [exact Hf|]. by apply last_Some_elem_of.
Qed.

Lemma sorted_le_snoc l x :
  StronglySorted Z.le l → (∀ a, last l = Some a → a ≤ x) → StronglySorted Z.le (l ++ [x]).
Proof.
  induction 1 as [|y l Hs IH Hf]; intros Hx; simpl; [repeat constructor|].
  assert (∀ a, last l = Some a → a ≤ x) as Hx'.
  { intros a Ha. apply Hx. by destruct l. }
  constructor; [by apply IH|]. apply Forall_app. split; [done|]. constructor; [|constructor].
  destruct (last l) as [a|] eqn:E.
  - transitivity a; [|by apply Hx']. eapply Forall_forall in Hf; [exact Hf|]. by apply last_Some_elem_of.
  - apply last_None in E as ->. by apply Hx.
Qed.

(** A step that says something else. *)
Lemma cancel_say e s :
  cancel_ok s → (∀ t c, e ≠ Started t c) → (∀ a, e ≠ IdleCancel a) → cancel_ok (say e s).
Proof.
  intros [H1 H2 H3] Hs Hi. assert (idle_cancels_of (log s ++ [e]) = idle_cancels_of (log s)) as He.
  { rewrite idle_cancels_snoc. destruct e; try apply app_nil_r. by destruct (Hi at_time). }
  constructor; simpl; rewrite ?He; [done|done|]. apply cancels_right_snoc; [done|].
  intros t c ->. by destruct (Hs t c).
Qed.

(** [s'] says nothing about starts and idle cancels that [s] has not said. *)
Definition quiet (e : Event) : Prop := (∀ t c, e ≠ Started t c) ∧ (∀ a, e ≠ IdleCancel a).
Definition quietly (s s' : Actor) : Prop :=
  idle_cancel_at s' = idle_cancel_at s ∧ ∃ es, log s' = log s ++ es ∧ Forall quiet es.

#[local] Instance quietly_preorder : PreOrder quietly.
Proof.
  split.
  - intros s. split; [done|]. exists []. by rewrite app_nil_r.
  - intros s1 s2 s3 [E1 (es1 & L1 & Q1)] [E2 (es2 & L2 & Q2)]. split; [congruence|].
    exists (es1 ++ es2). rewrite L2, L1, <- app_assoc. split; [done|by apply Forall_app].
Qed.
Lemma quietly_same s s' : idle_cancel_at s' = idle_cancel_at s → log s' = log s → quietly s s'.
Proof. intros H1 H2. split; [done|]. exists []. by rewrite app_nil_r. Qed.
Lemma quietly_reply id r s s' :
  idle_cancel_at s' = idle_cancel_at s → log s' = log s ++ [Replied id r] → quietly s s'.
Proof.
  intros H1 H2. split; [done|]. exists [Replied id r]. split; [done|].
  apply Forall_singleton. by split.
Qed.
Lemma quietly_said e s s' :
  quiet e → quietly (say e s) s' → quietly s s'.
Proof.
  intros He Hq. transitivity (say e s); [|done]. split; [done|]. exists [e].
  split; [done|by apply Forall_singleton].
Qed.

Lemma quietly_cancel_ok s s' : cancel_ok s → quietly s s' → cancel_ok s'.
Proof.
  intros Hok [Hi (es & Hl & Hq)]. revert s' Hi Hl. induction es as [|e es IH] using rev_ind; intros s' Hi Hl.
  - rewrite app_nil_r in Hl. destruct Hok. by constructor; rewrite ?Hi, ?Hl.
  - apply Forall_app in Hq as [Hq He]. apply Forall_singleton in He as [He1 He2].
    set (s1 := Build_Actor (rx s) (pending_turns s) (active_turn s) (phase s) (idle_cancel_at s)
      (close_reply s) (queue_depth s) (closing s) (published s) (pc s) (checked s) (sending s)
      (issued s) (log s ++ es)).
    assert (cancel_ok (say e s1)) as [H1 H2 H3] by (apply cancel_say; [by apply (IH Hq s1)|done|done]).
    simpl in *. rewrite <- app_assoc in *. constructor; by rewrite ?Hi, ?Hl.
Qed.

Lemma fail_pending_quiet sid ts s : quietly s (fail_pending_turns sid ts s).
Proof.
  revert s. induction ts as [|t ts IH]; intros s; simpl; [by apply quietly_same|].
  etrans; [|apply IH]. by eapply quietly_reply.
Qed.

Lemma begin_force_close_quiet sid r s : quietly s (begin_force_close sid r s).
Proof.
  unfold begin_force_close. case_bool_decide; [by apply quietly_same|].
  set (s1 := match active_turn (set_phase Closing s) with Some a => _ | None => _ end).
  assert (quietly s s1) as H1.
  { unfold s1. simpl. destruct (active_turn s) as [a|]; [|by apply quietly_same].
    by apply (quietly_said (CancelCalled (the_turn a))); [split|apply quietly_same]. }
  set (s2 := fail_pending_turns sid (pending_turns s1) s1).
  assert (quietly s s2) as H2 by (etrans; [exact H1|apply fail_pending_quiet]).
  etrans; [exact H2|]. by apply quietly_same.
Qed.

Lemma resume_quiet sid u s s' : resume sid u s = Some s' → quietly s s'.
Proof.
  unfold resume. destruct (pc s) as [| | |[]|r a|i r|r|r]; try discriminate; intros [= <-].
  all: unfold published_then, close_published, finish_force_close; simpl.
  all: try (by apply quietly_same); try (by eapply quietly_reply).
  - destruct (active_turn s); [destruct (close_reply s)|];
      first [by apply quietly_same|by eapply quietly_reply].
  - destruct (i <? u); [by eapply quietly_reply|by apply quietly_same].
  - by apply (quietly_said SupervisorHibernated); [split|apply quietly_same].
  - by apply (quietly_said SupervisorClosed); [split|apply quietly_same].
Qed.

Lemma start_cancel_ok t s : cancel_ok s → cancel_ok (start_turn t s).
Proof.
  intros [H1 H2 H3]. constructor; simpl.
  - by rewrite idle_cancels_snoc, app_nil_r.
  - by rewrite idle_cancels_snoc, app_nil_r.
  - apply cancels_right_snoc; [done|]. intros t' c [= <- <-]. rewrite H1.
    destruct (last (idle_cancels_of (log s))) as [a|] eqn:Hl.
    + rewrite Z.ltb_lt. split.
      * intros Ha. exists a. split; [by apply last_Some_elem_of|done].
      * intros (b & Hb & Hlt). pose proof (sorted_last_max _ _ H2 Hl b Hb). lia.
    + apply last_None in Hl. rewrite Hl. split; [done|]. by intros (b & ?%not_elem_of_nil & _).
Qed.

Lemma idle_cancel_ok now s :
  cancel_ok s → match idle_cancel_at s with Some last => last <=? now | None => true end = true →
  cancel_ok (say (IdleCancel now) (set_idle_cancel (Some now) s)).
Proof.
  intros [H1 H2 H3] Hn. constructor; simpl.
  - by rewrite idle_cancels_snoc, last_snoc.
  - rewrite idle_cancels_snoc. apply sorted_le_snoc; [done|]. intros a Ha. rewrite H1, Ha in Hn. by b2p.
  - by apply cancels_right_snoc.
Qed.

Lemma fire_cancel_ok sid s l s' : cancel_ok s → fire sid s l = Some s' → cancel_ok s'.
Proof.
  intros Hok Hf. destruct l as [t|i|i|c| | | |r|now|u|p|]; simpl in Hf.
  - case_bool_decide; [discriminate|]. injection Hf as <-. eapply quietly_cancel_ok; [done|]. unfold submit.
    destruct (closing (issue _ s)); [by eapply quietly_reply|by apply quietly_same].
  - destruct (checked s !! i); [|discriminate]. injection Hf as <-. eapply quietly_cancel_ok; [done|].
    unfold increment. destruct (_ <=? _); [by eapply quietly_reply|by apply quietly_same].
  - destruct (sending s !! i) as [t|]; [|discriminate]. injection Hf as <-. eapply quietly_cancel_ok; [done|].
    unfold send_turn. destruct (full _); [by eapply quietly_reply|].
    by apply (quietly_said (Enqueued t)); [split|apply quietly_same].
  - destruct (command_reply c); [|discriminate]. destruct (_ || _); [discriminate|]. injection Hf as <-.
    eapply quietly_cancel_ok; [done|]. by apply quietly_same.
  - injection Hf as <-. eapply quietly_cancel_ok; [done|]. by apply quietly_same.
  - injection Hf as <-. eapply quietly_cancel_ok; [done|]. unfold clear_closing.
    destruct (full _); by apply quietly_same.
  - destruct (pc s); try discriminate. injection Hf as <-. eapply quietly_cancel_ok; [done|]. unfold pop_turn.
    destruct (_ || _); [by apply quietly_same|]. destruct (pending_turns s); [by apply quietly_same|].
    destruct (closing s); by apply quietly_same.
  - destruct (pc s) as [|t| | | | | |]; try discriminate. injection Hf as <-. destruct r as [e|]; simpl.
    + eapply quietly_cancel_ok; [done|]. by eapply quietly_reply.
    + by apply start_cancel_ok.
  - destruct (pc s); try discriminate. destruct (rx s) as [|c rest]; [done|].
    destruct (match idle_cancel_at s with Some _ => _ | None => _ end) eqn:Hn; [|discriminate].
    injection Hf as <-.
    assert (cancel_ok (set_rx rest s)) as Hrx by (eapply quietly_cancel_ok; [done|by apply quietly_same]).
    destruct c as [t|r|r|r|j r|]; simpl.
    + eapply quietly_cancel_ok; [done|]. destruct (refuses (phase s)); [by eapply quietly_reply|by apply quietly_same].
    + eapply quietly_cancel_ok; [done|]. by apply quietly_same.
    + destruct (active_turn s) as [a|].
      * eapply quietly_cancel_ok; [done|].
        by apply (quietly_said (CancelCalled (the_turn a))); [split|eapply quietly_reply].
      * eapply quietly_cancel_ok; [by apply (idle_cancel_ok now)|]. by eapply quietly_reply.
    + eapply quietly_cancel_ok; [done|]. apply begin_force_close_quiet.
    + eapply quietly_cancel_ok; [done|]. destruct (_ || _); [by eapply quietly_reply|by apply quietly_same].
    + eapply quietly_cancel_ok; [done|]. by apply quietly_same.
  - eapply quietly_cancel_ok; [done|]. by eapply resume_quiet.
  - destruct (active_turn s) as [a|]; [|discriminate]. destruct (_ || _); [discriminate|].
    injection Hf as <-. eapply quietly_cancel_ok; [done|]. by eapply quietly_reply.
  - destruct (pc s); try discriminate. destruct (active_turn s) as [a|]; [|discriminate].
    destruct (finished a); [|discriminate]. injection Hf as <-. eapply quietly_cancel_ok; [done|].
    unfold active_done, finish_force_close. simpl. destruct (close_reply s); [by apply quietly_same|].
    case_bool_decide; by apply quietly_same.
Qed.

(** A cancel that comes while no turn runs hits exactly the turns it is
    meant for: a turn is cancelled at its start if and only if such a cancel
    came after the turn was submitted and before it started. A stale cancel
    never swallows a later message, and none is lost. *)
Theorem idle_cancel_attribution sid s l1 t c l2 :
  reachable sid s → log s = l1 ++ Started t c :: l2 →
  (c = true ↔ ∃ a, a ∈ idle_cancels_of l1 ∧ submitted_at t < a).
Proof.
  intros Hr Hl. assert (cancel_ok s) as Hok; [|by eapply (ck_right _ Hok)].
  clear Hl. induction Hr as [|s l s' _ IH Hf]; [|by eapply fire_cancel_ok].
  constructor; [done|constructor|]. intros l1' t' c' l2' Heq. by destruct l1'.
Qed.

(** ** A run *)

Fixpoint run_labels (sid : str) (ls : list Label) (s : Actor) : option Actor :=
  match ls with
  | [] => Some s
  | l :: ls => match fire sid s l with Some s => run_labels sid ls s | None => None end
  end.

Lemma run_labels_reachable sid ls s s' :
  reachable sid s → run_labels sid ls s = Some s' → reachable sid s' ∧ steps sid s s'.
Proof.
  revert s. induction ls as [|l ls IH]; intros s Hr; simpl.
  - intros [= <-]. split; [done|constructor].
  - destruct (fire sid s l) as [s1|] eqn:Hf; [|discriminate]. intros Hrun.
    destruct (IH s1) as [? ?]; [by eapply reach_step|done|]. split; [done|by eapply steps_step].
Qed.

(** Two turns are submitted, a cancel comes in between, both run and the second one
    panics, the session is closed and a third turn is refused. *)
Module ActorDemo.
Definition sid : str := lit "s".
Definition turn (n at_time : Z) : Turn := {| turn_id := n; turn_client := None; submitted_at := at_time |}.
Definition first_labels : list Label :=
  [Submit (turn 1 5); Increment 0; Pop; Command (CancelActiveTurn 10); Receive 7; SendTurn 0;
   Submit (turn 2 9); Increment 0; SendTurn 0; Pop; Receive 9; Resume 0; Pop; Decide None; Resume 0;
   TaskDone false].
Definition more_labels : list Label :=
  [Receive 9; Resume 0; Pop; Complete; Resume 0; Pop; Decide None; Resume 0; TaskDone true;
   Command (ForceClose 11); Receive 12; Resume 0; Pop; Complete; Resume 0; Resume 0;
   Submit (turn 3 20); Increment 0; SendTurn 0; Pop; Receive 21; Resume 0].

Definition after (ls : list Label) : Actor := default init (run_labels sid ls init).
Definition s1 : Actor := after first_labels.
Definition s2 : Actor := after (first_labels ++ more_labels).

Lemma s1_reachable : reachable sid s1.
Proof.
  apply (run_labels_reachable sid first_labels init s1); [constructor|vm_compute; reflexivity].
Qed.
Lemma s2_reachable : reachable sid s2.
Proof.
  apply (run_labels_reachable sid (first_labels ++ more_labels) init s2);
    [constructor|vm_compute; reflexivity].
Qed.

Lemma actor_replies_once_witness : (occ 3 (owed s2) + occ 3 (replied_of (log s2)) = 1)%nat.
Proof.
  apply (actor_replies_once sid s2 3 s2_reachable). vm_compute. repeat constructor.
Defined.

Lemma turns_serial_witness : started_of (log s2) = [turn 1 5; turn 2 9] ∧
  started_of (log s2) `sublist_of` enqueued_of (log s2).
Proof. split; [vm_compute; reflexivity|]. apply (turns_serial sid s2 s2_reachable). Defined.

Lemma idle_cancel_attribution_witness :
  true = true ↔ ∃ a, a ∈ idle_cancels_of (take 4 (log s1)) ∧ submitted_at (turn 1 5) < a.
Proof.
  apply (idle_cancel_attribution sid s1 (take 4 (log s1)) (turn 1 5) true (drop 5 (log s1)));
    [exact s1_reachable|]. vm_compute. reflexivity.
Defined.

Lemma actor_drains_witness :
  ∃ l s', internal l = true ∧ fire sid s1 l = Some s'.
Proof.
  apply (actor_drains sid s1 0 s1); [exact s1_reachable|vm_compute; reflexivity|constructor|].
  vm_compute. discriminate.
Defined.

(** An idle session that is closed is published as closing although no turn is
    active, until the supervisor has closed it. *)
Example closing_without_turn :
  (fun s => (published s, active_turn s, pc s)) <$> run_labels sid [Pop; Command (ForceClose 1); Receive 1; Resume 0] init =
  Some (Closing, None, ForceClosing 1).
Proof. vm_compute. done. Qed.
End ActorDemo.
