(* ===== verification/SessionStore.v ===== *)
(** * Session records and runtime checkpoints

    apps/shared/src/gateway/session_record.rs and session_store.rs: the record of
    a session and the store in memory; apps/shared/src/runtime_checkpoint.rs: the
    checkpoints of runtimes, the newest checkpoint of each (its head) and the one
    a paused runtime is resumed from. Snapshots of conversations, metadata and
    provider options are carried as their serialised text. *)

From S2P Require Import Prelude RStr Message.

Inductive SessionLifecycleStatus := SIdle | SRunning | SPaused | SFailed | SClosed.

#[global] Instance SessionLifecycleStatus_eq_dec : EqDecision SessionLifecycleStatus.
Proof. solve_decision. Defined.

Definition as_tag (s : SessionLifecycleStatus) : str :=
  match s with
  | SIdle => lit "idle" | SRunning => lit "running" | SPaused => lit "paused"
  | SFailed => lit "failed" | SClosed => lit "closed"
  end.

(** apps/shared/src/backend/base.rs: what a backend is restored from. *)
Record BackendCheckpointRef := {
  ref_checkpoint_id : str;
  ref_provider : str;
  source_backend_id : option str;
  provider_snapshot_id : option str;
  provider_snapshot_names : list str;
  ref_workspace_root : str;
  ref_name : option str;
  ref_metadata : Json;
  ref_created_at_ms : Z;
  provider_options : Json;
}.

(** A record; its id is the key it is stored under. [runtime] stands for the
    runtime snapshot, and [backend_instance] for the id of the instance. *)
Record SessionRecord := {
  conversation_id : str;
  sender_id : str;
  status : SessionLifecycleStatus;
  runtime : str;
  backend_instance : option str;
  paused_backend_checkpoint : option BackendCheckpointRef;
  loop_state : option str;
  memory_snapshot : option str;
  agents : gmap str str;
  subagent_state : str;
  last_error : option str;
  parent_runtime_id : option str;
  forked_from_checkpoint_id : option str;
  created_at_ms : Z;
  updated_at_ms : Z;
}.

(** Updates of the mutable fields, the rest of the record unchanged. *)
Definition update (st : SessionLifecycleStatus) (backend : option str)
    (paused : option BackendCheckpointRef) (err : option str) (now : Z) (r : SessionRecord) :
    SessionRecord :=
  {| conversation_id := conversation_id r; sender_id := sender_id r; status := st;
     runtime := runtime r; backend_instance := backend; paused_backend_checkpoint := paused;
     loop_state := loop_state r; memory_snapshot := memory_snapshot r; agents := agents r;
     subagent_state := subagent_state r; last_error := err;
     parent_runtime_id := parent_runtime_id r;
     forked_from_checkpoint_id := forked_from_checkpoint_id r; created_at_ms := created_at_ms r;
     updated_at_ms := now |}.

Definition with_status (st : SessionLifecycleStatus) (now : Z) (r : SessionRecord) : SessionRecord :=
  update st (backend_instance r) (paused_backend_checkpoint r) (last_error r) now r.

(** ** The store of records *)

Abbreviation Store := (gmap str SessionRecord).

Inductive SessionStoreError := NotFound (session_id : str).

Definition transition (sid : str) (st : SessionLifecycleStatus) (err : option str) (now : Z)
    (store : Store) : result SessionRecord SessionStoreError * Store :=
  match store !! sid with
  | None => (Err (NotFound sid), store)
  | Some r =>
      let r := update st (backend_instance r) (paused_backend_checkpoint r) err now r in
      (Ok r, <[sid := r]> store)
  end.

Definition batch_mark_paused_due_to_eviction (ids : list str) (checkpoint : option BackendCheckpointRef)
    (now : Z) (store : Store) : Store :=
  foldl (fun store id => alter (update SPaused None checkpoint None now) id store) store ids.

Definition list_children (parent : str) (store : Store) : list str :=
  (filter (fun p => parent_runtime_id p.2 = Some parent) (map_to_list store)).*1.

(** [list_all]: the most recent first. *)
Definition more_recent (a b : str * SessionRecord) : Prop := updated_at_ms b.2 ≤ updated_at_ms a.2.
#[global] Instance more_recent_dec a b : Decision (more_recent a b).
Proof. unfold more_recent. apply _. Defined.
Definition list_all (store : Store) : list (str * SessionRecord) :=
  merge_sort more_recent (map_to_list store).

(** ** The store of checkpoints *)

Record RuntimeCheckpoint := {
  checkpoint_id : str;
  runtime_id : str;
  parent_checkpoint_id : option str;
  cp_created_at_ms : Z;
  cp_metadata : str;
  cp_name : option str;
  session : SessionRecord;
  backend_checkpoint : option BackendCheckpointRef;
}.

Record CheckpointStore := {
  checkpoints : gmap str RuntimeCheckpoint;
  runtime_heads : gmap str str;
  paused_runtime_heads : gmap str str;
}.

Definition no_checkpoints : CheckpointStore :=
  {| checkpoints := ∅; runtime_heads := ∅; paused_runtime_heads := ∅ |}.

Definition latest_for_runtime (rid : str) (cs : CheckpointStore) : option str :=
  runtime_heads cs !! rid.

Definition save_checkpoint (c : RuntimeCheckpoint) (cs : CheckpointStore) : CheckpointStore :=
  {| checkpoints := <[checkpoint_id c := c]> (checkpoints cs);
     runtime_heads := <[runtime_id c := checkpoint_id c]> (runtime_heads cs);
     paused_runtime_heads := paused_runtime_heads cs |}.

Definition load_checkpoint (cid : str) (cs : CheckpointStore) : option RuntimeCheckpoint :=
  checkpoints cs !! cid.

Definition register_runtime_head (rid cid : str) (cs : CheckpointStore) : CheckpointStore :=
  {| checkpoints := checkpoints cs; runtime_heads := <[rid := cid]> (runtime_heads cs);
     paused_runtime_heads := paused_runtime_heads cs |}.

Definition register_paused_runtime (rid cid : str) (cs : CheckpointStore) : CheckpointStore :=
  {| checkpoints := checkpoints cs; runtime_heads := runtime_heads cs;
     paused_runtime_heads := <[rid := cid]> (paused_runtime_heads cs) |}.

Definition paused_checkpoint_for_runtime (rid : str) (cs : CheckpointStore) : option str :=
  paused_runtime_heads cs !! rid.

Definition clear_paused_runtime (rid : str) (cs : CheckpointStore) : CheckpointStore :=
  {| checkpoints := checkpoints cs; runtime_heads := runtime_heads cs;
     paused_runtime_heads := delete rid (paused_runtime_heads cs) |}.

Definition forget_snapshot (b : BackendCheckpointRef) : BackendCheckpointRef :=
  {| ref_checkpoint_id := ref_checkpoint_id b; ref_provider := ref_provider b;
     source_backend_id := source_backend_id b; provider_snapshot_id := None;
     provider_snapshot_names := []; ref_workspace_root := ref_workspace_root b;
     ref_name := ref_name b; ref_metadata := ref_metadata b;
     ref_created_at_ms := ref_created_at_ms b; provider_options := provider_options b |}.

Definition clear_snapshot (c : RuntimeCheckpoint) : RuntimeCheckpoint :=
  {| checkpoint_id := checkpoint_id c; runtime_id := runtime_id c;
     parent_checkpoint_id := parent_checkpoint_id c; cp_created_at_ms := cp_created_at_ms c;
     cp_metadata := cp_metadata c; cp_name := cp_name c; session := session c;
     backend_checkpoint := forget_snapshot <$> backend_checkpoint c |}.

Definition clear_backend_snapshot (cid : str) (cs : CheckpointStore) : CheckpointStore :=
  {| checkpoints := alter clear_snapshot cid (checkpoints cs); runtime_heads := runtime_heads cs;
     paused_runtime_heads := paused_runtime_heads cs |}.

Definition list_checkpoints_for_runtime (rid : str) (cs : CheckpointStore) : list RuntimeCheckpoint :=
  filter (fun c => runtime_id c = rid) (map_to_list (checkpoints cs)).*2.

Definition has_provider_snapshot (c : RuntimeCheckpoint) : bool :=
  bool_decide (is_Some (backend_checkpoint c ≫= provider_snapshot_id)).

Definition remove_runtime (rid : str) (cs : CheckpointStore) : CheckpointStore :=
  {| checkpoints := filter (fun p => runtime_id p.2 ≠ rid) (checkpoints cs);
     runtime_heads := delete rid (runtime_heads cs);
     paused_runtime_heads := delete rid (paused_runtime_heads cs) |}.

(** The ids of the checkpoints that belong to a runtime. *)
Lemma remove_runtime_lookup rid cs cid :
  checkpoints (remove_runtime rid cs) !! cid =
  match checkpoints cs !! cid with
  | Some c => if bool_decide (runtime_id c = rid) then None else Some c
  | None => None
  end.
Proof.
  simpl. rewrite map_lookup_filter. destruct (checkpoints cs !! cid) as [c|]; simpl; [|done].
  case_bool_decide.
  - rewrite option_guard_False; [done|]. tauto.
  - by rewrite option_guard_True.
Qed.
