(* ===== verification/SessionService.v ===== *)
(** * Closing sessions

    apps/shared/src/gateway/session_service_impl.rs: the close of a session with
    all the sessions that were forked from it, and the orphan reaper. The service
    is a value with the store, the checkpoints, the live handles, the lease table
    and a trace of the calls to the backends and the hooks. The recursion over the children has
    fuel; [force_close_subtree] shows that it does not run out. *)

From S2P Require Import Prelude RStr SessionLease SessionActor SessionStore.
Import Lease.

(** ** The service *)

(** A live handle: the record of its supervisor, the status its actor has
    published, its [closing] flag, and what [snapshot] and [force_close] answer
    when they fail (the actor is gone, or already closing). *)
Record Handle := {
  handle_record : SessionRecord;
  handle_phase : SessionPhase;
  handle_queue_depth : Z;
  handle_closing : bool;
  handle_error : option SessionServiceError;
}.

Definition new_handle (r : SessionRecord) : Handle :=
  {| handle_record := r; handle_phase := Idle; handle_queue_depth := 0;
     handle_closing := false; handle_error := None |}.

Definition set_handle_closing (b : bool) (h : Handle) : Handle :=
  {| handle_record := handle_record h; handle_phase := handle_phase h;
     handle_queue_depth := handle_queue_depth h; handle_closing := b;
     handle_error := handle_error h |}.

Inductive Effect :=
| BackendReleased (sid : str)
| SnapshotDeleted (cid : str)
| CreatedHookFired (sid : str)
| ClosedHookFired (sid : str).

Record Service := {
  session_store : Store;
  runtime_checkpoints : CheckpointStore;
  sessions_handler : gmap str Handle;
  sessions_lease : SessionLeaseTable;
  effects : list Effect;
}.

Definition set_store (v : Store) (s : Service) : Service :=
  {| session_store := v; runtime_checkpoints := runtime_checkpoints s;
     sessions_handler := sessions_handler s; sessions_lease := sessions_lease s;
     effects := effects s |}.
Definition set_handlers (v : gmap str Handle) (s : Service) : Service :=
  {| session_store := session_store s; runtime_checkpoints := runtime_checkpoints s;
     sessions_handler := v; sessions_lease := sessions_lease s; effects := effects s |}.
Definition set_checkpoints (v : CheckpointStore) (s : Service) : Service :=
  {| session_store := session_store s; runtime_checkpoints := v;
     sessions_handler := sessions_handler s; sessions_lease := sessions_lease s;
     effects := effects s |}.
Definition add_effect (e : Effect) (s : Service) : Service :=
  {| session_store := session_store s; runtime_checkpoints := runtime_checkpoints s;
     sessions_handler := sessions_handler s; sessions_lease := sessions_lease s; effects := effects s ++ [e] |}.

Section Service.
Context `{SessionHasher}.

(** [handle_for_session], which makes a handle for a stored session that is not
    paused. *)
Definition handle_for_session (sid : str) (s : Service) : option Handle * Service :=
  match sessions_handler s !! sid with
  | Some h => (Some h, s)
  | None =>
      match session_store s !! sid with
      | None => (None, s)
      | Some r =>
          if bool_decide (status r = SPaused) then (None, s)
          else (Some (new_handle r), set_handlers (<[sid := new_handle r]> (sessions_handler s)) s)
      end
  end.

(** [close_self_record]: the record and whether it was already closed. *)
Definition close_self_record (now : Z) (sid : str) (s : Service) :
    result (SessionRecord * bool) SessionServiceError * Service :=
  let '(oh, s) := handle_for_session sid s in
  match oh with
  | Some h =>
      match handle_error h with
      | Some e => (Err e, s)
      | None =>
          let closed := with_status SClosed now (handle_record h) in
          (Ok (closed, bool_decide (status (handle_record h) = SClosed)),
           set_store (<[sid := closed]> (session_store s)) s)
      end
  | None =>
      match session_store s !! sid with
      | None => (Err (SessionNotFound sid), s)
      | Some r =>
          let closed := with_status SClosed now r in
          (Ok (closed, bool_decide (status r = SClosed)),
           set_store (<[sid := closed]> (session_store s)) s)
      end
  end.

Definition evict_session_artifacts (sid : str) (s : Service) : Service :=
  {| session_store := delete sid (session_store s);
     runtime_checkpoints := runtime_checkpoints s;
     sessions_handler := delete sid (sessions_handler s);
     sessions_lease := remove sid (sessions_lease s);
     effects := effects s |}.

(** [cleanup_runtime_checkpoints]: the provider is asked to delete every snapshot
    of the runtime, and the checkpoints go whatever it answers. *)
Definition cleanup_runtime_checkpoints (sid : str) (s : Service) : Service :=
  let snapshots := filter (fun c => has_provider_snapshot c = true)
                     (list_checkpoints_for_runtime sid (runtime_checkpoints s)) in
  let s := foldl (fun s c => add_effect (SnapshotDeleted (checkpoint_id c)) s) s snapshots in
  set_checkpoints (remove_runtime sid (runtime_checkpoints s)) s.

(** Steps 2 to 6 of [force_close_session_inner]. *)
Definition close_one (now : Z) (sid : str) (s : Service) :
    result SessionRecord SessionServiceError * Service :=
  let '(r, s) := close_self_record now sid s in
  match r with
  | Err e => (Err e, s)
  | Ok (closed, was_already_closed) =>
      let s := cleanup_runtime_checkpoints sid (add_effect (BackendReleased sid) s) in
      let s := if was_already_closed : bool then s else add_effect (ClosedHookFired sid) s in
      (Ok closed, evict_session_artifacts sid s)
  end.

(** The loop of [cascade_close_children]: a failure of a child is only logged. *)
Fixpoint close_all (close : str → Service → option (result SessionRecord SessionServiceError * Service))
    (ids : list str) (s : Service) : option Service :=
  match ids with
  | [] => Some s
  | id :: ids => match close id s with Some (_, s) => close_all close ids s | None => None end
  end.

(** [force_close_session_inner]; [None] when the fuel is used up. *)
Fixpoint force_close_session_inner (fuel : nat) (now : Z) (sid : str) (s : Service) :
    option (result SessionRecord SessionServiceError * Service) :=
  match fuel with
  | O => None
  | S fuel =>
      match close_all (force_close_session_inner fuel now) (list_children sid (session_store s)) s with
      | None => None
      | Some s => Some (close_one now sid s)
      end
  end.

Definition close_and_evict_on_err (fuel : nat) (now : Z) (sid : str) (s : Service) :
    option (result SessionRecord SessionServiceError * Service) :=
  match force_close_session_inner fuel now sid s with
  | None => None
  | Some (Ok r, s) => Some (Ok r, s)
  | Some (Err e, s) => Some (Err e, evict_session_artifacts sid s)
  end.

(** ** The forest of sessions *)

(** A runtime has a longer id than the one it was forked from. *)
Definition tree_ok (st : Store) : Prop :=
  ∀ id r p, st !! id = Some r → parent_runtime_id r = Some p → (length p < length id)%nat.

(** [b] was forked from [a]; [b] descends from [a]. *)
Definition child (st : Store) (a b : str) : Prop :=
  ∃ r, st !! b = Some r ∧ parent_runtime_id r = Some a.
Definition desc (st : Store) : str → str → Prop := rtc (child st).

Lemma elem_of_list_children st a b : b ∈ list_children a st ↔ child st a b.
Proof.
  unfold list_children, child. rewrite list_elem_of_fmap. split.
  - intros ([b' r] & -> & [Hp Hb]%list_elem_of_filter). exists r. split; [|done].
    by apply elem_of_map_to_list.
  - intros (r & Hb & Hp). exists (b, r). split; [done|]. apply list_elem_of_filter. split; [done|].
    by apply elem_of_map_to_list.
Qed.

(** From [f] to [f'] exactly what is in [D] has gone. *)
Definition pruned {A} (D : str → Prop) (f f' : str → option A) : Prop :=
  ∀ id, (D id → f' id = None) ∧ (f' id = f id ∨ f' id = None ∧ D id).

Lemma pruned_mono_child (D : str → Prop) (st st' : Store) (a b : str) :
  pruned D (fun i => st !! i) (fun i => st' !! i) → child st' a b → child st a b.
Proof.
  intros Hp (r & Hb & Hpar). exists r. split; [|done].
  destruct (Hp b) as [_ [Hsame|[Hn _]]]; congruence.
Qed.
Lemma pruned_mono_desc (D : str → Prop) (st st' : Store) (a b : str) :
  pruned D (fun i => st !! i) (fun i => st' !! i) → desc st' a b → desc st a b.
Proof.
  intros Hp. induction 1 as [|x y z Hxy _ IH]; [apply rtc_refl|].
  eapply rtc_l; [|done]. by eapply pruned_mono_child.
Qed.

(** What descends from [b] has gone with [a], or still descends from [b]. *)
Lemma desc_after (st st' : Store) (D : str → Prop) (b x : str) :
  (∀ y z, D y → child st y z → D z) →
  pruned D (fun i => st !! i) (fun i => st' !! i) → desc st b x → D x ∨ desc st' b x.
Proof.
  intros HD Hp. revert x. apply rtc_ind_r; [right; apply rtc_refl|]. intros y z _ Hyz IH.
  destruct IH as [Hy|Hy]; [left; by eapply HD|].
  destruct Hyz as (r & Hz & Hpar). destruct (Hp z) as [_ [Hsame|[_ Hd]]]; [|by left].
  right. eapply rtc_r; [done|]. exists r. split; [congruence|done].
Qed.

Lemma pruned_trans {A} (D1 D2 D : str → Prop) (f f1 f2 : str → option A) :
  pruned D1 f f1 → pruned D2 f1 f2 → (∀ x, D x → D1 x ∨ D2 x) → (∀ x, D1 x → D x) → (∀ x, D2 x → D x) →
  pruned D f f2.
Proof.
  intros H1 H2 Hd Hd1 Hd2 id. destruct (H1 id) as [H1a H1b], (H2 id) as [H2a H2b]. split.
  - intros [Hx|Hx]%Hd; [|auto]. specialize (H1a Hx). destruct H2b as [->|[? _]]; done.
  - destruct H2b as [->|[? ?]]; [|auto]. destruct H1b as [->|[? ?]]; auto.
Qed.

(** No handle refuses to close. *)
Definition handles_ok (s : Service) : Prop :=
  ∀ id h, sessions_handler s !! id = Some h → handle_error h = None.

(** The same, where only what is in [L] has surely gone. *)
Definition pruned_live {A} (L D : str → Prop) (f f' : str → option A) : Prop :=
  ∀ id, (D id → L id → f' id = None) ∧ (f' id = f id ∨ f' id = None ∧ D id).

Definition stored (s : Service) (id : str) : Prop := is_Some (session_store s !! id).
Definition head_of (s : Service) (id : str) : option str := runtime_heads (runtime_checkpoints s) !! id.
Definition paused_head (s : Service) (id : str) : option str :=
  paused_runtime_heads (runtime_checkpoints s) !! id.
Definition checkpoint_at (s : Service) (cid : str) : option RuntimeCheckpoint :=
  checkpoints (runtime_checkpoints s) !! cid.

(** [s'] is [s] without the sessions in [D]. *)
Record closed_to (D : str → Prop) (s s' : Service) : Prop := {
  ct_store : pruned D (fun i => session_store s !! i) (fun i => session_store s' !! i);
  ct_handlers : pruned D (fun i => sessions_handler s !! i) (fun i => sessions_handler s' !! i);
  ct_lease : pruned_live (stored s) D (lease_of (sessions_lease s)) (lease_of (sessions_lease s'));
  ct_heads : pruned_live (stored s) D (head_of s) (head_of s');
  ct_paused : pruned_live (stored s) D (paused_head s) (paused_head s');
  ct_checkpoints cid c : checkpoint_at s cid = Some c →
    (D (runtime_id c) → stored s (runtime_id c) → checkpoint_at s' cid = None) ∧
    (checkpoint_at s' cid = Some c ∨ checkpoint_at s' cid = None ∧ D (runtime_id c));
  ct_no_checkpoint cid : checkpoint_at s cid = None → checkpoint_at s' cid = None;
  ct_table : table_ok (sessions_lease s) → table_ok (sessions_lease s');
}.

Lemma closed_to_handles D s s' : closed_to D s s' → handles_ok s → handles_ok s'.
Proof.
  intros Hc Hh id h Hid. destruct (ct_handlers _ _ _ Hc id) as [_ [Hs|[Hn _]]]; [|congruence].
  apply (Hh id). congruence.
Qed.

Lemma lease_of_remove t (sid id : str) :
  table_ok t →
  lease_of (remove sid t) id = (if bool_decide (id = sid) then None else lease_of t id) ∧
  table_ok (remove sid t).
Proof.
  intros Ht. pose proof (step_refines None (Remove sid) t _ _ Ht eq_refl) as (Hok & Hc & Ho).
  simpl in *. split; [|done]. case_bool_decide as Hid; [|by apply Ho]. subst. by injection Hc.
Qed.

Lemma pruned_delete {A} (m : gmap str A) sid :
  pruned (fun i => i = sid) (fun i => m !! i) (fun i => delete sid m !! i).
Proof.
  intros id. destruct (decide (id = sid)) as [->|Hne].
  - rewrite lookup_delete_eq. auto.
  - rewrite lookup_delete_ne by done. split; [done|auto].
Qed.

Lemma pruned_live_same {A} (L D : str → Prop) (f : str → option A) :
  (∀ id, D id → ¬ L id) → pruned_live L D f f.
Proof. intros HD id. split; [|auto]. intros Hd Hl. by destruct (HD id). Qed.
Lemma pruned_live_delete {A} (L : str → Prop) (m : gmap str A) sid :
  pruned_live L (fun i => i = sid) (fun i => m !! i) (fun i => delete sid m !! i).
Proof. intros id. destruct (pruned_delete m sid id) as [H1 H2]. auto. Qed.

Lemma foldl_effect {A} (g : A → Effect) (l : list A) s :
  ∃ es, foldl (fun s a => add_effect (g a) s) s l
        = {| session_store := session_store s; runtime_checkpoints := runtime_checkpoints s;
             sessions_handler := sessions_handler s; sessions_lease := sessions_lease s;
             effects := es |}.
Proof.
  revert s. induction l as [|a l IH]; intros s; [exists (effects s); by destruct s|].
  simpl. destruct (IH (add_effect (g a) s)) as [es ->]. by exists es.
Qed.

(** The tail of a close: only the session's own entries go. *)
Lemma cleanup_spec (b : bool) sid s s1 :
  table_ok (sessions_lease s) → delete sid (session_store s1) = delete sid (session_store s) →
  delete sid (sessions_handler s1) = delete sid (sessions_handler s) →
  sessions_lease s1 = sessions_lease s → runtime_checkpoints s1 = runtime_checkpoints s →
  let s2 := cleanup_runtime_checkpoints sid (add_effect (BackendReleased sid) s1) in
  closed_to (fun i => i = sid) s
    (evict_session_artifacts sid (if b then s2 else add_effect (ClosedHookFired sid) s2)).
Proof.
  intros Ht Hs Hh Hl Hc s2. subst s2. unfold cleanup_runtime_checkpoints.
  edestruct (foldl_effect (fun c => SnapshotDeleted (checkpoint_id c))) as [es ->].
  assert (∀ T : Service, session_store T = delete sid (session_store s) →
    sessions_handler T = delete sid (sessions_handler s) →
    sessions_lease T = remove sid (sessions_lease s) →
    runtime_checkpoints T = remove_runtime sid (runtime_checkpoints s) →
    closed_to (fun i => i = sid) s T) as Hgen.
  { intros T HTs HTh HTl HTc. constructor.
    - rewrite HTs. apply pruned_delete.
    - rewrite HTh. apply pruned_delete.
    - intros id. rewrite HTl. destruct (lease_of_remove (sessions_lease s) sid id Ht) as [-> _].
      case_bool_decide; (split; [done|auto]).
    - unfold head_of. rewrite HTc. apply pruned_live_delete.
    - unfold paused_head. rewrite HTc. apply pruned_live_delete.
    - unfold checkpoint_at. intros cid c Hcid. rewrite HTc, remove_runtime_lookup, Hcid.
      case_bool_decide; (split; [done|auto]).
    - unfold checkpoint_at. intros cid Hcid. by rewrite HTc, remove_runtime_lookup, Hcid.
    - intros _. rewrite HTl. by apply lease_of_remove. }
  apply Hgen; destruct b; simpl; congruence.
Qed.

(** One session closes. *)
Lemma close_one_spec now sid s :
  handles_ok s → table_ok (sessions_lease s) →
  ∃ r s', close_one now sid s = (r, s') ∧ closed_to (fun i => i = sid) s s' ∧
    (stored s sid → ∃ rec, r = Ok rec ∧ status rec = SClosed).
Proof.
  intros Hh Ht. unfold close_one, close_self_record, handle_for_session, stored.
  destruct (sessions_handler s !! sid) as [h|] eqn:Eh; simpl.
  - rewrite (Hh _ _ Eh). eexists _, _. split; [done|]. split; [|eauto].
    apply cleanup_spec; simpl; rewrite ?delete_insert_eq; done.
  - destruct (session_store s !! sid) as [r|] eqn:Er; simpl.
    + case_bool_decide as Hp; simpl; rewrite ?Er; eexists _, _; (split; [done|]); (split; [|eauto]);
        (apply cleanup_spec; simpl; rewrite ?delete_insert_eq; done).
    + rewrite Er. eexists _, _. split; [done|]. split; [|by intros [? ?]].
      assert (∀ id, id = sid → ¬ stored s id) as Hns by (unfold stored; intros ? ->; rewrite Er; by intros [? ?]).
      constructor; [| |by apply pruned_live_same..| |done|done].
      * intros id. split; [by intros ->|auto].
      * intros id. split; [by intros ->|auto].
      * intros cid c Hc. split; [|auto]. intros Hid Hst. by destruct (Hns _ Hid).
Qed.

Lemma pruned_live_trans {A} (L L1 D1 D2 D : str → Prop) (f f1 f2 : str → option A) :
  pruned_live L D1 f f1 → pruned_live L1 D2 f1 f2 → (∀ x, L x → D1 x ∨ L1 x) →
  (∀ x, D x → D1 x ∨ D2 x) → (∀ x, D1 x → D x) → (∀ x, D2 x → D x) → pruned_live L D f f2.
Proof.
  intros H1 H2 HL Hd Hd1 Hd2 id. destruct (H1 id) as [H1a H1b], (H2 id) as [H2a H2b]. split.
  - intros Hx Hl. assert (D1 id → f2 id = None) as Hone.
    { intros H1x. specialize (H1a H1x Hl). destruct H2b as [->|[? _]]; done. }
    destruct (Hd _ Hx) as [|H2x]; [auto|]. destruct (HL _ Hl); auto.
  - destruct H2b as [->|[? ?]]; [|auto]. destruct H1b as [->|[? ?]]; auto.
Qed.

Lemma stored_after D s s' id : closed_to D s s' → stored s id → D id ∨ stored s' id.
Proof.
  intros Hc Hs. unfold stored in *. destruct (ct_store _ _ _ Hc id) as [_ [->|[_ ?]]]; auto.
Qed.

Lemma closed_to_trans (D1 D2 D : str → Prop) s s1 s2 :
  closed_to D1 s s1 → closed_to D2 s1 s2 → (∀ x, D x → D1 x ∨ D2 x) → (∀ x, D1 x → D x) →
  (∀ x, D2 x → D x) → closed_to D s s2.
Proof.
  intros C1 C2 Hd Hd1 Hd2. pose proof (fun x => stored_after D1 s s1 x C1) as HL.
  constructor.
  - eapply pruned_trans; [apply C1|apply C2|done..].
  - eapply pruned_trans; [apply C1|apply C2|done..].
  - eapply pruned_live_trans; [apply C1|apply C2|done..].
  - eapply pruned_live_trans; [apply C1|apply C2|done..].
  - eapply pruned_live_trans; [apply C1|apply C2|done..].
  - intros cid c Hc. destruct (ct_checkpoints _ _ _ C1 cid c Hc) as [H1a H1b]. split.
    + intros Hx Hl. assert (checkpoint_at s1 cid = None → checkpoint_at s2 cid = None) as Hone
        by apply C2.
      destruct H1b as [H1b|[? _]]; [|auto].
      destruct (ct_checkpoints _ _ _ C2 cid c H1b) as [H2a _].
      destruct (Hd _ Hx), (HL _ Hl); auto.
    + destruct H1b as [H1b|[H1b ?]].
      * destruct (ct_checkpoints _ _ _ C2 cid c H1b) as [_ [?|[? ?]]]; auto.
      * right. split; [by apply C2|auto].
  - intros cid Hc. by apply C2, C1.
  - intros Ht. by apply C2, C1.
Qed.

Lemma closed_to_none D s : (∀ x, ¬ D x) → closed_to D s s.
Proof.
  intros Hd. constructor; [| |apply pruned_live_same; naive_solver..| |done|done].
  - intros id. split; [by intros ?%Hd|auto].
  - intros id. split; [by intros ?%Hd|auto].
  - intros cid c Hc. split; [by intros ?%Hd|auto].
Qed.

(** The sessions in [ids] and all that descend from them. *)
Definition desc_of (st : Store) (ids : list str) (x : str) : Prop := ∃ c, c ∈ ids ∧ desc st c x.

Lemma desc_of_closed st ids y z : desc_of st ids y → child st y z → desc_of st ids z.
Proof. intros (c & Hc & Hd) Hz. exists c. split; [done|]. by eapply rtc_r. Qed.

(** What a close needs: ids grow along the forks and are at most [M] long. *)
Record good (M : nat) (s : Service) : Prop := {
  good_tree : tree_ok (session_store s);
  good_handles : handles_ok s;
  good_table : table_ok (sessions_lease s);
  good_length id : is_Some (session_store s !! id) → (length id ≤ M)%nat;
}.

Lemma closed_to_good M D s s' : closed_to D s s' → good M s → good M s'.
Proof.
  intros Hc [H1 H2 H3 H4].
  assert (∀ id r, session_store s' !! id = Some r → session_store s !! id = Some r) as Hsub.
  { intros id r Hid. destruct (ct_store _ _ _ Hc id) as [_ [Hs|[Hn _]]]; congruence. }
  constructor.
  - intros id r p Hid. apply (H1 id r p). by apply Hsub.
  - by eapply closed_to_handles.
  - by apply (ct_table _ _ _ Hc).
  - intros id [r Hr]. apply H4. exists r. by apply Hsub.
Qed.

Definition closes (M : nat) (close : str → Service → option (result SessionRecord SessionServiceError * Service))
    (id : str) : Prop :=
  ∀ s, good M s → ∃ r s', close id s = Some (r, s') ∧ closed_to (desc (session_store s) id) s s'.

Lemma close_all_spec M close ids s :
  (∀ id, id ∈ ids → closes M close id) → good M s →
  ∃ s', close_all close ids s = Some s' ∧ closed_to (desc_of (session_store s) ids) s s'.
Proof.
  revert s. induction ids as [|c ids IH]; intros s Hclose Hg; simpl.
  { exists s. split; [done|]. apply closed_to_none. by intros x (? & ?%not_elem_of_nil & _). }
  destruct (Hclose c ltac:(left) s Hg) as (r & s1 & -> & Hc1).
  destruct (IH s1) as (s2 & -> & Hc2).
  { intros id Hid. apply Hclose. by right. }
  { by eapply closed_to_good. }
  exists s2. split; [done|]. eapply closed_to_trans; [exact Hc1|exact Hc2|..].
  - intros x (c' & [->|Hc']%elem_of_cons & Hx); [by left|].
    destruct (desc_after (session_store s) (session_store s1) (desc (session_store s) c) c' x) as [|Hx'];
      [intros y z Hy Hz; by eapply rtc_r|apply Hc1|done|by left|].
    right. by exists c'.
  - intros x Hx. exists c. split; [left|done].
  - intros x (c' & Hc' & Hx). exists c'. split; [by right|]. eapply pruned_mono_desc; [apply Hc1|done].
Qed.

Lemma desc_inv st a x : desc st a x → x = a ∨ desc_of st (list_children a st) x.
Proof.
  intros Hd. destruct Hd as [|a b x Hab Hd]; [by left|]. right. exists b. split; [|done].
  by apply elem_of_list_children.
Qed.

Lemma force_close_spec M now fuel sid :
  (M < length sid + fuel)%nat → fuel ≠ 0%nat → closes M (force_close_session_inner fuel now) sid.
Proof.
  revert sid. induction fuel as [|fuel IH]; intros sid Hf Hnz s Hg; [done|]. simpl.
  destruct (close_all_spec M (force_close_session_inner fuel now)
              (list_children sid (session_store s)) s) as (s1 & -> & Hc1); [|done|].
  { intros id (r & Hid & Hpar)%elem_of_list_children.
    pose proof (good_tree _ _ Hg id r sid Hid Hpar) as Hlt.
    pose proof (good_length _ _ Hg id (mk_is_Some _ _ Hid)) as Hle. apply IH; lia. }
  pose proof (closed_to_good _ _ _ _ Hc1 Hg) as Hg1.
  destruct (close_one_spec now sid s1) as (r & s2 & -> & Hc2 & _); [apply Hg1..|].
  exists r, s2. split; [done|]. eapply closed_to_trans; [exact Hc1|exact Hc2|..].
  - intros x [->|Hx]%desc_inv; auto.
  - intros x (c & Hc%elem_of_list_children & Hx). by eapply rtc_l.
  - intros x ->. apply rtc_refl.
Qed.

Lemma desc_longer st a x : tree_ok st → desc st a x → (length a ≤ length x)%nat.
Proof.
  intros Ht. induction 1 as [|a b x (r & Hb & Hp) _ IH]; [done|]. pose proof (Ht _ _ _ Hb Hp). lia.
Qed.

Lemma not_own_child st a : tree_ok st → ¬ desc_of st (list_children a st) a.
Proof.
  intros Ht (c & (r & Hc & Hp)%elem_of_list_children & Hd). apply desc_longer in Hd; [|done].
  pose proof (Ht _ _ _ Hc Hp). lia.
Qed.

Lemma force_close_result M now fuel sid s r s' :
  good M s → stored s sid → (M < length sid + fuel)%nat → fuel ≠ 0%nat →
  force_close_session_inner fuel now sid s = Some (r, s') → ∃ rec, r = Ok rec ∧ status rec = SClosed.
Proof.
  intros Hg Hsid Hf Hnz Hfc. destruct fuel as [|fuel]; [done|]. simpl in Hfc.
    destruct (close_all_spec M (force_close_session_inner fuel now)
                (list_children sid (session_store s)) s) as (s1 & E1 & Hc1); [|done|].
    { intros id (r0 & Hid & Hpar)%elem_of_list_children.
      pose proof (good_tree _ _ Hg id r0 sid Hid Hpar).
      pose proof (good_length _ _ Hg id (mk_is_Some _ _ Hid)). apply force_close_spec; lia. }
    rewrite E1 in Hfc. pose proof (closed_to_good _ _ _ _ Hc1 Hg) as Hg1.
    destruct (close_one_spec now sid s1) as (r1 & s2 & E2 & _ & Hok); [apply Hg1..|].
    rewrite E2 in Hfc. injection Hfc as <- <-. apply Hok.
    unfold stored in *. destruct (ct_store _ _ _ Hc1 sid) as [_ [->|[_ Hd]]]; [done|].
    exfalso. by eapply not_own_child; [apply Hg|].
Qed.

(** C16: Closing a session closes exactly the sessions that were forked from it,
    directly or over any number of forks, and itself: they leave the store, the
    live handles and the lease table, their checkpoints go with them, and every
    other session keeps its record, its handle, its lease and its checkpoints. The recursion ends: ids grow along the forks, so
    fuel for the longest id is enough. *)
Theorem force_close_subtree M now fuel sid s :
  good M s → stored s sid → (M < length sid + fuel)%nat → fuel ≠ 0%nat →
  ∃ rec s', force_close_session_inner fuel now sid s = Some (Ok rec, s') ∧ status rec = SClosed ∧
    good M s' ∧
    ∀ id,
      (desc (session_store s) sid id →
         session_store s' !! id = None ∧ sessions_handler s' !! id = None ∧
         (stored s id → lease_of (sessions_lease s') id = None ∧ head_of s' id = None ∧
            ∀ cid c, checkpoint_at s cid = Some c → runtime_id c = id → checkpoint_at s' cid = None)) ∧
      (¬ desc (session_store s) sid id →
         session_store s' !! id = session_store s !! id ∧
         sessions_handler s' !! id = sessions_handler s !! id ∧
         lease_of (sessions_lease s') id = lease_of (sessions_lease s) id ∧ head_of s' id = head_of s id ∧
         ∀ cid c, checkpoint_at s cid = Some c → runtime_id c = id → checkpoint_at s' cid = Some c).
Proof.
  intros Hg Hsid Hf Hnz. destruct (force_close_spec M now fuel sid Hf Hnz s Hg) as (r & s' & Hfc & Hc).
  assert (∃ rec, r = Ok rec ∧ status rec = SClosed) as (rec & -> & Hrec).
  { by eapply force_close_result. }
  exists rec, s'. split; [done|]. split; [done|]. split; [by eapply closed_to_good|]. intros id.
  destruct (ct_store _ _ _ Hc id) as [Sa Sb], (ct_handlers _ _ _ Hc id) as [Ha Hb],
    (ct_lease _ _ _ Hc id) as [La Lb], (ct_heads _ _ _ Hc id) as [Ea Eb].
  split.
  - intros Hd. split_and!; [auto..|]. intros Hst. split_and!; [auto..|]. intros cid c Hcp <-.
    by apply (ct_checkpoints _ _ _ Hc cid c Hcp).
  - intros Hn. split_and!; [by destruct Sb as [|[_ ?]]|by destruct Hb as [|[_ ?]]
      |by destruct Lb as [|[_ ?]]|by destruct Eb as [|[_ ?]]|].
    intros cid c Hcp <-. by destruct (ct_checkpoints _ _ _ Hc cid c Hcp) as [_ [|[_ ?]]].
Qed.

(** ** The orphan reaper *)

(** Steps 1 to 3 of [should_skip_reap]. *)
Definition skip_by_record (sid : str) (r : SessionRecord) (now : Z) (live_leases : list (str * str * Z))
    (orphan_threshold_ms stale_threshold_ms : Z) : bool :=
  bool_decide (status r = SClosed) ||
  existsb (fun p => bool_decide (p.1.1 = sid) &&
                    (Word.saturating_sub now p.2 <=? stale_threshold_ms)) live_leases ||
  (Word.saturating_sub now (updated_at_ms r) <? orphan_threshold_ms).

(** Step 4: the phase check and [mark_closing], under the lock of the handles. *)
Definition reap_mark (sid : str) (s : Service) : bool * Service :=
  match sessions_handler s !! sid with
  | Some h =>
      if bool_decide (handle_phase h = Running) then (false, s)
      else (true, set_handlers (<[sid := set_handle_closing true h]> (sessions_handler s)) s)
  | None => (true, s)
  end.

(** Step 5: the lease is looked at again; [true] undoes the mark. *)
Definition reap_recheck (clock : option Z) (sid : str) (stale_threshold_ms : Z) (s : Service) :
    bool * Service :=
  if has_live_lease clock sid stale_threshold_ms (sessions_lease s) then
    (true, match sessions_handler s !! sid with
           | Some h => set_handlers (<[sid := set_handle_closing false h]> (sessions_handler s)) s
           | None => s
           end)
  else (false, s).

(** [should_skip_reap]; [between] is what others do between steps 4 and 5. *)
Definition should_skip_reap (clock : option Z) (between : Service → Service) (sid : str)
    (r : SessionRecord) (now : Z) (live_leases : list (str * str * Z))
    (orphan_threshold_ms stale_threshold_ms : Z) (s : Service) : bool * Service :=
  if skip_by_record sid r now live_leases orphan_threshold_ms stale_threshold_ms then (true, s)
  else
    let '(can_close, s) := reap_mark sid s in
    if negb can_close then (true, s) else reap_recheck clock sid stale_threshold_ms (between s).

(** [reap_one_record] and the loop of [run_reaper_sweep]. *)
Definition reap_one_record (fuel : nat) (clock : option Z) (between : Service → Service) (sid : str)
    (r : SessionRecord) (now : Z) (live_leases : list (str * str * Z))
    (orphan_threshold_ms stale_threshold_ms : Z) (s : Service) : option Service :=
  let '(skip, s) :=
    should_skip_reap clock between sid r now live_leases orphan_threshold_ms stale_threshold_ms s in
  if skip then Some s
  else match close_and_evict_on_err fuel now sid s with Some (_, s) => Some s | None => None end.

Fixpoint reap_all (fuel : nat) (clock : option Z) (between : Service → Service)
    (records : list (str * SessionRecord)) (now : Z) (live_leases : list (str * str * Z))
    (orphan_threshold_ms stale_threshold_ms : Z) (s : Service) : option Service :=
  match records with
  | [] => Some s
  | (sid, r) :: records =>
      match reap_one_record fuel clock between sid r now live_leases orphan_threshold_ms
              stale_threshold_ms s with
      | Some s => reap_all fuel clock between records now live_leases orphan_threshold_ms
                    stale_threshold_ms s
      | None => None
      end
  end.

Definition run_reaper_sweep (fuel : nat) (clock clock' : option Z) (between : Service → Service)
    (orphan_threshold_ms stale_threshold_ms : Z) (s : Service) : option Service :=
  match clock with
  | None => Some s
  | Some now =>
      reap_all fuel clock' between (list_all (session_store s)) now (snapshot (sessions_lease s))
        orphan_threshold_ms stale_threshold_ms s
  end.

Lemma elem_of_snapshot t (sid : str) l :
  table_ok t → lease_of t sid = Some l → (sid, client_id l, last_heartbeat_ms l) ∈ snapshot t.
Proof.
  intros Ht Hl. unfold snapshot. apply list_elem_of_bind.
  pose proof (shard_for_lt t sid Ht) as Hlt.
  destruct (lookup_lt_is_Some_2 t (shard_for t sid) Hlt) as [m Hm].
  exists m. split; [|by eapply list_elem_of_lookup_2].
  unfold lease_of in Hl. rewrite Hm in Hl. simpl in Hl.
  apply list_elem_of_fmap. exists (sid, l). split; [done|]. by apply elem_of_map_to_list.
Qed.

(** The reaper closes a session only if its record is not closed, it has been
    inactive for the threshold, its lease was stale when the sweep began and is
    not live now, and no turn was running when it was marked. A session that it
    spares after having marked it is marked no longer. [t0] is the lease table
    when the sweep began, and [between] whatever others do meanwhile. *)
Theorem reaper_spares clock between sid r now t0 orphan stale s skip s' :
  table_ok t0 →
  should_skip_reap clock between sid r now (snapshot t0) orphan stale s = (skip, s') →
  (skip = false →
     status r ≠ SClosed ∧ orphan ≤ Word.saturating_sub now (updated_at_ms r) ∧
     (∀ l, lease_of t0 sid = Some l → stale < Word.saturating_sub now (last_heartbeat_ms l)) ∧
     (∀ h, sessions_handler s !! sid = Some h → handle_phase h ≠ Running) ∧
     (∀ now' l, clock = Some now' → lease_of (sessions_lease s') sid = Some l →
        is_stale l now' stale = true)) ∧
  (skip = true → s' = s ∨ ∀ h, sessions_handler s' !! sid = Some h → handle_closing h = false).
Proof.
  intros Ht. unfold should_skip_reap, skip_by_record.
  destruct (_ || _) eqn:Hr; [intros [= <- <-]; split; [done|by left]|].
  apply orb_false_iff in Hr as [Hr Hact]. apply orb_false_iff in Hr as [Hst Hsnap]. b2p.
  assert (∀ l, lease_of t0 sid = Some l → stale < Word.saturating_sub now (last_heartbeat_ms l)) as Hold.
  { intros l Hl. apply (elem_of_snapshot _ _ _ Ht), list_elem_of_In in Hl.
    apply Z.nle_gt. intros Hle. apply not_true_iff_false in Hsnap. apply Hsnap, existsb_exists.
    eexists. split; [exact Hl|]. simpl. rewrite bool_decide_eq_true_2 by done. by apply Z.leb_le. }
  unfold reap_mark.
  assert (∀ s1, reap_recheck clock sid stale s1 = (skip, s') →
    (skip = false → ∀ now' l, clock = Some now' → lease_of (sessions_lease s') sid = Some l →
        is_stale l now' stale = true) ∧
    (skip = true → ∀ h, sessions_handler s' !! sid = Some h → handle_closing h = false)) as Hre.
  { clear. intros s1. unfold reap_recheck. destruct (has_live_lease _ _ _ _) eqn:Hlive; intros [= <- <-].
    - split; [done|]. intros _ h. destruct (sessions_handler s1 !! sid) eqn:E; [|congruence]. simpl.
      rewrite lookup_insert_eq. by intros [= <-].
    - split; [|done]. intros _ now' l -> Hl. unfold has_live_lease in Hlive.
      unfold lease_of in Hl. rewrite Hl in Hlive. by apply negb_false_iff in Hlive. }
  destruct (sessions_handler s !! sid) as [h|] eqn:Hh.
  - case_bool_decide as Hp; simpl; [intros [= <- <-]; split; [done|by left]|].
    intros Hs. destruct (Hre _ Hs) as [Hf Htr]. split; [|auto]. intros Hsk.
    split_and!; [done|done|done|by intros ? [= <-]|by apply Hf].
  - simpl. intros Hs. destruct (Hre _ Hs) as [Hf Htr]. split; [|auto]. intros Hsk.
    split_and!; [done|done|done|done|by apply Hf].
Qed.

(** With the clock before the epoch at step 5, the check of the lease fails open:
    a session whose client has just sent a heartbeat is closed. *)
Lemma reaper_skew_closes between sid r now t0 orphan stale s :
  skip_by_record sid r now (snapshot t0) orphan stale = false →
  (∀ h, sessions_handler s !! sid = Some h → handle_phase h ≠ Running) →
  (should_skip_reap None between sid r now (snapshot t0) orphan stale s).1 = false.
Proof.
  intros Hsk Hp. unfold should_skip_reap. rewrite Hsk. unfold reap_mark.
  destruct (sessions_handler s !! sid) as [h|] eqn:Hh; [|done].
  rewrite bool_decide_eq_false_2; [done|]. by apply Hp.
Qed.
End Service.

(** ** The race of the reaper with the actor

    The mark comes after the actor has taken a turn from its queue and before it
    starts it: the turn starts although the session is marked, and is cancelled
    by the close. *)
Module ReaperDemo.
Definition sid : str := lit "s".
Definition t1 : Turn := {| turn_id := 1; turn_client := None; submitted_at := 5 |}.
Definition race : list Label :=
  [Submit t1; Increment 0; SendTurn 0; Pop; Receive 10; Resume 0; Pop; MarkClosing; Decide None; Resume 0;
   Command (ForceClose 2); Receive 11].

Lemma reaper_race :
  published <$> run_labels sid (take 7 race) init = Some Idle ∧
  log <$> run_labels sid race init = Some [Enqueued t1; Started t1 false; CancelCalled t1].
Proof. vm_compute. done. Qed.
End ReaperDemo.

(** A session with a fork of a fork, and another one. *)
Module ServiceDemo.
#[local] Instance demo_hasher : SessionHasher := {| finish := fun s => Z.of_nat (length s) |}.

Definition record (st : SessionLifecycleStatus) (parent : option str) : SessionRecord :=
  {| conversation_id := []; sender_id := []; status := st; runtime := []; backend_instance := None;
     paused_backend_checkpoint := None; loop_state := None; memory_snapshot := None; agents := ∅;
     subagent_state := []; last_error := None; parent_runtime_id := parent;
     forked_from_checkpoint_id := None; created_at_ms := 1000; updated_at_ms := 1000 |}.
Definition a : str := lit "a".
Definition a1 : str := lit "a:checkout:1".
Definition a12 : str := lit "a:checkout:1:checkout:2".
Definition b : str := lit "b".
Definition demo_service : Service :=
  {| session_store := {[a := record SIdle None; a1 := record SPaused (Some a);
                        a12 := record SIdle (Some a1); b := record SIdle None]};
     runtime_checkpoints := no_checkpoints;
     sessions_handler := {[a := new_handle (record SIdle None)]};
     sessions_lease := (acquire (Some 1000) a (lit "tui") None None new_table).2;
     effects := [] |}.

Definition good_b (M : nat) (s : Service) : bool :=
  forallb (fun p => match parent_runtime_id p.2 with
                    | Some q => (length q <? length p.1)%nat
                    | None => true
                    end && (length p.1 <=? M)%nat) (map_to_list (session_store s)) &&
  forallb (fun p => match handle_error p.2 with None => true | Some _ => false end)
    (map_to_list (sessions_handler s)) &&
  (length (sessions_lease s) =? LEASE_TABLE_SHARD_COUNT)%nat.

Lemma good_b_good M s : good_b M s = true → good M s.
Proof.
  unfold good_b. intros Hb. b2p. rewrite forallb_forall in H, H1. constructor.
  - intros id r p Hid Hp. apply elem_of_map_to_list, list_elem_of_In, H in Hid. simpl in Hid.
    rewrite Hp in Hid. by b2p.
  - intros id h Hid. apply elem_of_map_to_list, list_elem_of_In, H1 in Hid. simpl in Hid.
    by destruct (handle_error h).
  - done.
  - intros id [r Hid]. apply elem_of_map_to_list, list_elem_of_In, H in Hid. simpl in Hid. by b2p.
Qed.

Lemma force_close_subtree_witness :
  ∃ rec s', force_close_session_inner 30 2000 a demo_service = Some (Ok rec, s') ∧
    session_store s' !! a12 = None ∧ session_store s' !! b = Some (record SIdle None).
Proof.
  destruct (force_close_subtree 23 2000 30 a demo_service) as (rec & s' & Hc & _ & _ & Hid);
    [apply good_b_good; vm_compute; reflexivity|vm_compute; eauto|vm_compute; lia|done|].
  exists rec, s'. split; [exact Hc|].
  assert (child (session_store demo_service) a a1) as H1
    by (exists (record SPaused (Some a)); split; [vm_compute; reflexivity|reflexivity]).
  assert (child (session_store demo_service) a1 a12) as H2
    by (exists (record SIdle (Some a1)); split; [vm_compute; reflexivity|reflexivity]).
  destruct (Hid a12) as [Hgone _]. destruct (Hid b) as [_ Hkept]. split.
  - apply Hgone. eapply rtc_l; [exact H1|]. apply rtc_once. exact H2.
  - destruct Hkept as [-> _]; [|vm_compute; reflexivity].
    intros Hd. apply rtc_inv_r in Hd as [Heq|(y & _ & r & Hr & Hp)]; [discriminate|].
    vm_compute in Hr. injection Hr as <-. discriminate.
Defined.

Lemma reaper_spares_witness :
  (should_skip_reap (Some 8000000) (fun s => s) b (record SIdle None) 8000000
     (snapshot (sessions_lease demo_service)) ORPHAN_SESSION_THRESHOLD_MS STALE_LEASE_THRESHOLD_MS
     demo_service).1 = false ∧ status (record SIdle None) ≠ SClosed.
Proof.
  destruct (should_skip_reap _ _ _ _ _ _ _ _ _) as [skip s'] eqn:E.
  assert (skip = false) as -> by (vm_compute in E; congruence). split; [reflexivity|].
  apply (reaper_spares (Some 8000000) (fun s => s) b (record SIdle None) 8000000
           (sessions_lease demo_service) ORPHAN_SESSION_THRESHOLD_MS STALE_LEASE_THRESHOLD_MS
           demo_service false s'); [reflexivity|exact E|reflexivity].
Defined.
End ServiceDemo.
