(* ===== verification/Runtimes.v ===== *)
(** * Runtimes: open, checkpoint, checkout, pause, resume

    apps/shared/src/gateway/session_service_impl.rs and session_backend.rs: the
    operations on whole runtimes. Each takes what the backend manager and the
    runtime resolver answer as arguments, with the clock and the generated ids,
    and runs as one step; what runs between two awaits of a handler on the same
    runtime is not covered. *)

From S2P Require Import Prelude RStr SessionLease SessionActor SessionStore SessionService.
Import Lease.

(** apps/shared/src/backend/base.rs. *)
Inductive BackendError :=
| BInvalidRequest (message : str)
| BConflict (message : str)
| BNotFound (backend_id : str)
| BUnsupportedBackend (kind : str)
| BResourceLimitExceeded (message : str)
| BNeedsEviction
| BBuildFailed (message : str)
| BOperation (message : str).

Definition backend_error_str (e : BackendError) : str :=
  match e with
  | BInvalidRequest m => lit "invalid managed backend request: " ++ m
  | BConflict m => lit "managed backend conflict: " ++ m
  | BNotFound id => lit "managed backend not found: " ++ id
  | BUnsupportedBackend kind => lit "unsupported backend kind: " ++ kind
  | BResourceLimitExceeded m => lit "managed backend resource limit exceeded: " ++ m
  | BNeedsEviction => lit "managed backend needs eviction before creation"
  | BBuildFailed m => lit "managed backend build failed: " ++ m
  | BOperation m => lit "managed backend operation failed: " ++ m
  end.

Definition map_backend_error (context sid : str) (e : BackendError) : SessionServiceError :=
  match e with
  | BResourceLimitExceeded message => SessionBusy sid message
  | e => RuntimeBuild (context ++ lit ": " ++ backend_error_str e)
  end.

Definition map_runtime_backend_error (rid : str) (e : BackendError) : SessionServiceError :=
  match e with
  | BNotFound _ => SessionNotFound rid
  | BUnsupportedBackend kind => UnsupportedCapability (lit "runtime backend: " ++ kind)
  | e => RuntimeBuild (lit "runtime backend operation failed: " ++ backend_error_str e)
  end.

Section Handlers.
Context `{SessionHasher}.

(** [SessionHandle::snapshot]. *)
Definition handle_snapshot (h : Handle) : result SessionRecord SessionServiceError :=
  match handle_error h with Some e => Err e | None => Ok (handle_record h) end.

Definition get_or_create_session_handle (sid : str) (r : SessionRecord) (s : Service) : Service :=
  match sessions_handler s !! sid with
  | Some _ => s
  | None => set_handlers (<[sid := new_handle r]> (sessions_handler s)) s
  end.

Definition must_be_idle (sid : str) : SessionServiceError :=
  SessionBusy sid (lit "runtime must be idle before checkpoint or checkout").

Definition idle_session_snapshot (sid : str) (s : Service) : result SessionRecord SessionServiceError :=
  match sessions_handler s !! sid with
  | Some h =>
      if negb (bool_decide (handle_phase h = Idle)) || (0 <? handle_queue_depth h)
      then Err (must_be_idle sid)
      else handle_snapshot h
  | None =>
      match session_store s !! sid with
      | None => Err (SessionNotFound sid)
      | Some r => if bool_decide (status r = SRunning) then Err (must_be_idle sid) else Ok r
      end
  end.

(** The backend of an idle runtime, for exec and file access. *)
Definition lease_bound_backend_for_idle_runtime (lease : result str BackendError) (rid : str)
    (s : Service) : result str SessionServiceError :=
  let? session := idle_session_snapshot rid s in
  if bool_decide (status session = SClosed) then Err (SessionClosed rid)
  else Result.map_err (map_runtime_backend_error rid) lease.

(** The checkpoint of the backend, when the session has one. *)
Definition checkpoint_of_backend (context : str) (answer : result BackendCheckpointRef BackendError)
    (r : SessionRecord) : result (option BackendCheckpointRef) SessionServiceError :=
  match backend_instance r with
  | None => Ok None
  | Some _ =>
      match answer with
      | Ok c => Ok (Some c)
      | Err e => Err (RuntimeBuild (context ++ backend_error_str e))
      end
  end.

Definition new_checkpoint_id (uuid : str) : str := lit "rtcp_" ++ uuid.

Definition checkpoint_runtime_internal (answer : result BackendCheckpointRef BackendError)
    (uuid : str) (now : Z) (rid metadata : str) (name : option str) (s : Service) :
    result str SessionServiceError * Service :=
  match idle_session_snapshot rid s with
  | Err e => (Err e, s)
  | Ok r =>
      match checkpoint_of_backend (lit "failed to checkpoint runtime backend: ") answer r with
      | Err e => (Err e, s)
      | Ok b =>
          let cid := new_checkpoint_id uuid in
          (Ok cid, set_checkpoints
             (save_checkpoint
                {| checkpoint_id := cid; runtime_id := rid;
                   parent_checkpoint_id := latest_for_runtime rid (runtime_checkpoints s);
                   cp_created_at_ms := now; cp_metadata := metadata; cp_name := name; session := r;
                   backend_checkpoint := b |} (runtime_checkpoints s)) s)
      end
  end.

(** The id of a checked out runtime. *)
Definition child_runtime_id (parent uuid : str) : str := parent ++ lit ":checkout:" ++ uuid.

(** The record of a checked out runtime. *)
Definition forked_record (c : RuntimeCheckpoint) (conversation sender : option str)
    (backend : option str) (now : Z) : SessionRecord :=
  let r := session c in
  {| conversation_id := default (conversation_id r) conversation;
     sender_id := default (sender_id r) sender; status := SIdle; runtime := runtime r;
     backend_instance := backend; paused_backend_checkpoint := paused_backend_checkpoint r;
     loop_state := loop_state r; memory_snapshot := memory_snapshot r; agents := agents r;
     subagent_state := subagent_state r; last_error := None;
     parent_runtime_id := Some (runtime_id c); forked_from_checkpoint_id := Some (checkpoint_id c);
     created_at_ms := now; updated_at_ms := now |}.

(** [lease] is what [checkout_backend_with_eviction] returns. *)
Definition checkout_runtime_internal (lease : result str SessionServiceError) (uuid : str) (now : Z)
    (cid : str) (conversation sender : option str) (s : Service) :
    result str SessionServiceError * Service :=
  match load_checkpoint cid (runtime_checkpoints s) with
  | None => (Err (SessionNotFound (lit "checkpoint:" ++ cid)), s)
  | Some c =>
      match idle_session_snapshot (runtime_id c) s with
      | Err e => (Err e, s)
      | Ok _ =>
          let id := child_runtime_id (runtime_id c) uuid in
          match session_store s !! id with
          | Some _ => (Err (SessionBusy id (lit "generated runtime already exists")), s)
          | None =>
              match match backend_checkpoint c with
                    | Some _ => let? l := lease in Ok (Some l)
                    | None => Ok None
                    end with
              | Err e => (Err e, s)
              | Ok backend =>
                  let r := forked_record c conversation sender backend now in
                  let s := set_store (<[id := r]> (session_store s)) s in
                  let s := set_checkpoints
                             (register_runtime_head id (checkpoint_id c) (runtime_checkpoints s)) s in
                  (Ok id, get_or_create_session_handle id r (add_effect (CreatedHookFired id) s))
              end
          end
      end
  end.

Definition pause_runtime_internal (answer : result BackendCheckpointRef BackendError)
    (release : result unit BackendError) (uuid : str) (now : Z) (rid metadata : str)
    (name : option str) (s : Service) : result str SessionServiceError * Service :=
  match idle_session_snapshot rid s with
  | Err e => (Err e, s)
  | Ok r =>
      if bool_decide (status r = SClosed) then (Err (SessionClosed rid), s)
      else if bool_decide (status r = SPaused) then
        (Err (SessionBusy rid (lit "runtime is already paused")), s)
      else
        match checkpoint_of_backend (lit "failed to checkpoint runtime backend before pause: ")
                answer r with
        | Err e => (Err e, s)
        | Ok b =>
            match release with
            | Err e => (Err (RuntimeShutdown
                               (lit "failed to release runtime backend during pause: " ++
                                backend_error_str e)), s)
            | Ok _ =>
                let s := add_effect (BackendReleased rid) s in
                let cid := new_checkpoint_id uuid in
                let paused := update SPaused None (paused_backend_checkpoint r) None now r in
                let cs := save_checkpoint
                            {| checkpoint_id := cid; runtime_id := rid;
                               parent_checkpoint_id := latest_for_runtime rid (runtime_checkpoints s);
                               cp_created_at_ms := now; cp_metadata := metadata; cp_name := name;
                               session := paused; backend_checkpoint := b |} (runtime_checkpoints s) in
                let s := set_checkpoints (register_paused_runtime rid cid cs) s in
                let s := set_store (<[rid := paused]> (session_store s)) s in
                (Ok cid, set_handlers (delete rid (sessions_handler s)) s)
            end
        end
  end.

(** [checkout] and [lease] are the answers to [checkout_backend] and
    [lease_bound_session]. *)
Definition resume_backend (checkout : result unit BackendError) (lease : result str BackendError)
    (rid : str) (c : RuntimeCheckpoint) : result (option str) SessionServiceError :=
  match backend_checkpoint c with
  | None => Ok None
  | Some _ =>
      let? _ := Result.map_err (map_backend_error (lit "failed to resume runtime backend") rid) checkout in
      let? l := Result.map_err (fun e => RuntimeBuild (lit "failed to lease resumed backend: " ++
                                                     backend_error_str e)) lease in
      Ok (Some l)
  end.

Definition resume_runtime_internal (checkout : result unit BackendError)
    (lease : result str BackendError) (now : Z) (rid : str) (s : Service) :
    result SessionRecord SessionServiceError * Service :=
  match session_store s !! rid with
  | None => (Err (SessionNotFound rid), s)
  | Some r =>
      if bool_decide (status r = SClosed) then (Err (SessionClosed rid), s)
      else if negb (bool_decide (status r = SPaused)) then
        (Err (SessionBusy rid (lit "runtime is not paused")), s)
      else
        match paused_checkpoint_for_runtime rid (runtime_checkpoints s) with
        | None => (Err (RuntimeBuild (lit "paused runtime " ++ rid ++ lit " has no checkpoint")), s)
        | Some cid =>
            match load_checkpoint cid (runtime_checkpoints s) with
            | None => (Err (RuntimeBuild (lit "paused runtime checkpoint not found: " ++ cid)), s)
            | Some c =>
                match resume_backend checkout lease rid c with
                | Err e => (Err e, s)
                | Ok backend =>
                    let r := update SIdle backend (paused_backend_checkpoint r) None now r in
                    let s := set_store (<[rid := r]> (session_store s)) s in
                    let cs := clear_paused_runtime rid (runtime_checkpoints s) in
                    let s := set_checkpoints (register_runtime_head rid cid cs) s in
                    (Ok r, get_or_create_session_handle rid r s)
                end
            end
        end
  end.

(** The answer says whether the provider's snapshot was deleted. *)
Definition delete_checkpoint_snapshot_internal (answer : result bool BackendError) (cid : str)
    (s : Service) : result bool SessionServiceError * Service :=
  match load_checkpoint cid (runtime_checkpoints s) with
  | None => (Err (SessionNotFound (lit "checkpoint:" ++ cid)), s)
  | Some c =>
      match backend_checkpoint c with
      | None => (Ok false, s)
      | Some _ =>
          match answer with
          | Err (BUnsupportedBackend kind) =>
              (Err (UnsupportedCapability (lit "delete_checkpoint_snapshot:" ++ kind)), s)
          | Err e => (Err (RuntimeBuild (lit "failed to delete checkpoint backend snapshot: " ++
                                         backend_error_str e)), s)
          | Ok deleted =>
              (Ok deleted, set_checkpoints (clear_backend_snapshot cid (runtime_checkpoints s)) s)
          end
      end
  end.

(** ** Opening a session and preparing a turn *)

(** [lease_session_backend]: [checkout] answers for the eviction checkpoint and
    [ensure] is [ensure_session_backend] with its errors mapped. [local_mcp]:
    the session came in over MCP and its backend is the local one. *)
Definition lease_session_backend (checkout : BackendCheckpointRef → result str SessionServiceError)
    (ensure : result str SessionServiceError) (local_mcp : bool) (sid : str) (r : SessionRecord) :
    result str SessionServiceError :=
  if bool_decide (status r = SPaused) then
    match paused_backend_checkpoint r with
    | Some c => checkout c
    | None =>
        if local_mcp then ensure
        else Err (SessionBusy sid
                    (lit "session is paused and has no eviction checkpoint to resume from"))
    end
  else ensure.

Definition sync_session_backend_instance (r : SessionRecord) (lease : str) : SessionRecord * bool :=
  if bool_decide (backend_instance r = Some lease) then (r, false)
  else (update (status r) (Some lease) (paused_backend_checkpoint r) (last_error r)
          (updated_at_ms r) r, true).

(** [build_session_for_open] and [build_session_for_turn]. *)
Definition build_session (conversation sender resolved : str) (now : Z) : SessionRecord :=
  {| conversation_id := conversation; sender_id := sender; status := SIdle; runtime := resolved;
     backend_instance := None; paused_backend_checkpoint := None; loop_state := None;
     memory_snapshot := None; agents := ∅; subagent_state := []; last_error := None;
     parent_runtime_id := None; forked_from_checkpoint_id := None; created_at_ms := now;
     updated_at_ms := now |}.

(** What an open keeps of a stored record. *)
Definition preserve_state (existing : option SessionRecord) (r : SessionRecord) : SessionRecord :=
  match existing with
  | None => r
  | Some e =>
      {| conversation_id := conversation_id r; sender_id := sender_id r; status := status r;
         runtime := runtime r; backend_instance := backend_instance r;
         paused_backend_checkpoint := paused_backend_checkpoint r; loop_state := loop_state e;
         memory_snapshot := memory_snapshot e; agents := agents e; subagent_state := subagent_state e;
         last_error := last_error r; parent_runtime_id := parent_runtime_id e;
         forked_from_checkpoint_id := forked_from_checkpoint_id e; created_at_ms := created_at_ms e;
         updated_at_ms := updated_at_ms r |}
  end.

Definition set_runtime (v : str) (r : SessionRecord) : SessionRecord :=
  {| conversation_id := conversation_id r; sender_id := sender_id r; status := status r;
     runtime := v; backend_instance := backend_instance r;
     paused_backend_checkpoint := paused_backend_checkpoint r; loop_state := loop_state r;
     memory_snapshot := memory_snapshot r; agents := agents r; subagent_state := subagent_state r;
     last_error := last_error r; parent_runtime_id := parent_runtime_id r;
     forked_from_checkpoint_id := forked_from_checkpoint_id r; created_at_ms := created_at_ms r;
     updated_at_ms := updated_at_ms r |}.

Definition stamp (changed : bool) (now : Z) (r : SessionRecord) : SessionRecord :=
  if changed then with_status (status r) now r else r.

(** A failed [finalize_e2b_runtime] gives back the backend of a new session. *)
Definition give_back (is_new : bool) (sid : str) (s : Service) : Service :=
  if is_new then add_effect (BackendReleased sid) s else s.

(** The answers an open or a turn depends on: the resolved runtime, the backend
    and the finished runtime. *)
Record Env := {
  env_resolve : result str SessionServiceError;
  env_checkout : BackendCheckpointRef → result str SessionServiceError;
  env_ensure : result str SessionServiceError;
  env_local_mcp : bool;
  env_finalize : result str SessionServiceError;
}.

Definition is_none {A} (o : option A) : bool := match o with None => true | Some _ => false end.

(** The path of [open_session_inner] that builds and saves the record. *)
Definition open_build (env : Env) (now : Z) (sid conversation sender resolved : str) (s : Service) :
    result SessionRecord SessionServiceError * Service :=
  let existing := session_store s !! sid in
  let r := preserve_state existing (build_session conversation sender resolved now) in
  match lease_session_backend (env_checkout env) (env_ensure env) (env_local_mcp env) sid r with
  | Err e => (Err e, s)
  | Ok lease =>
      match env_finalize env with
      | Err e => (Err e, give_back (is_none existing) sid s)
      | Ok final =>
          let '(r, changed) := sync_session_backend_instance (set_runtime final r) lease in
          let r := stamp changed now r in
          let s := add_effect (CreatedHookFired sid) (set_store (<[sid := r]> (session_store s)) s) in
          (Ok r, get_or_create_session_handle sid r s)
      end
  end.

Definition open_session_inner (env : Env) (now : Z) (sid conversation sender : str) (s : Service) :
    result SessionRecord SessionServiceError * Service :=
  match env_resolve env with
  | Err e => (Err e, s)
  | Ok resolved =>
      match session_store s !! sid ≫= (fun r => if bool_decide (status r = SPaused) then Some r else None) with
      | Some paused => (Ok paused, s)
      | None =>
          match sessions_handler s !! sid with
          | Some h => (handle_snapshot h, s)
          | None => open_build env now sid conversation sender resolved s
          end
      end
  end.

(** [run_turn_inner] up to the hand-over to the actor: the record is made or
    woken, the backend leased. [hooks] is off for the chat bot over MCP, and
    [bound] says that the resolver gave a bootstrap binding. *)
Definition prepare_turn (env : Env) (hooks bound : bool) (now : Z) (sid conversation sender : str)
    (s : Service) : result SessionRecord SessionServiceError * Service :=
  let existing := session_store s !! sid in
  match env_resolve env with
  | Err e => (Err e, s)
  | Ok resolved =>
      let seed := default (build_session conversation sender resolved now) existing in
      let was_paused := bool_decide (status seed = SPaused) in
      match lease_session_backend (env_checkout env) (env_ensure env) (env_local_mcp env) sid seed with
      | Err e => (Err e, s)
      | Ok lease =>
          match env_finalize env with
          | Err e => (Err e, give_back (is_none existing) sid s)
          | Ok final =>
              let '(r, changed) := sync_session_backend_instance (set_runtime final seed) lease in
              let r := if was_paused then update SIdle (backend_instance r) None None (updated_at_ms r) r
                       else r in
              let r := stamp (changed || was_paused) now r in
              let s := if is_none existing || changed || was_paused || bound
                       then set_store (<[sid := r]> (session_store s)) s else s in
              let s := if is_none existing && hooks then add_effect (CreatedHookFired sid) s else s in
              (Ok r, get_or_create_session_handle sid r s)
          end
      end
  end.

(** [hibernate_idle_session]; [accepts] is the actor's decision, [release] the
    answer of the backend manager. *)
Definition hibernate_idle_session (accepts : bool) (release : result unit BackendError) (now : Z)
    (sid : str) (s : Service) : result (option SessionRecord) SessionServiceError * Service :=
  match sessions_handler s !! sid with
  | None => (Ok None, s)
  | Some h =>
      match handle_snapshot h with
      | Err e => (Err e, s)
      | Ok r =>
          if accepts then
            let paused := update SPaused None None None now r in
            let s := set_store (<[sid := paused]> (session_store s)) s in
            let s := set_handlers (delete sid (sessions_handler s)) s in
            match release with
            | Err e => (Err (RuntimeShutdown (lit "failed to release hibernated local backend: " ++
                                              backend_error_str e)), s)
            | Ok _ => (Ok (Some paused), add_effect (BackendReleased sid) s)
            end
          else (Ok None, s)
      end
  end.

(** A turn runs: the supervisor saves what the turn has made of the record. *)
Definition turn_saved (sid : str) (f : SessionRecord → SessionRecord) (s : Service) : Service :=
  match sessions_handler s !! sid with
  | None => s
  | Some h =>
      let r := f (handle_record h) in
      set_handlers (<[sid := {| handle_record := r; handle_phase := handle_phase h;
                                handle_queue_depth := handle_queue_depth h;
                                handle_closing := handle_closing h; handle_error := handle_error h |}]>
                      (sessions_handler s))
        (set_store (<[sid := r]> (session_store s)) s)
  end.

(** An eviction of sandboxes pauses their sessions. *)
Definition evicted (ids : list str) (c : option BackendCheckpointRef) (now : Z) (s : Service) : Service :=
  set_store (batch_mark_paused_due_to_eviction ids c now (session_store s)) s.
End Handlers.
