(* ===== verification/RuntimeRuns.v ===== *)
(** * Runs of the runtime operations

    Any sequence of opens, turns, checkpoints, checkouts, pauses, resumes,
    evictions, hibernations and closes of any runtimes. The ids of checkpoints
    are generated (UUIDs), so a step that makes one assumes that it is new; a
    turn keeps the parent of its record, which only a checkout sets. *)

From S2P Require Import Prelude RStr Message SessionLease SessionActor SessionStore SessionService.
From S2P Require Import Runtimes.
Import Lease.

Inductive RtOp :=
| OpOpen (env : Env) (now : Z) (sid conversation sender : str)
| OpPrepareTurn (env : Env) (hooks bound : bool) (now : Z) (sid conversation sender : str)
| OpTurnSaved (sid : str) (f : SessionRecord → SessionRecord)
| OpCheckpoint (answer : result BackendCheckpointRef BackendError) (uuid : str) (now : Z)
    (rid metadata : str) (name : option str)
| OpCheckout (lease : result str SessionServiceError) (uuid : str) (now : Z) (cid : str)
    (conversation sender : option str)
| OpPause (answer : result BackendCheckpointRef BackendError) (release : result unit BackendError)
    (uuid : str) (now : Z) (rid metadata : str) (name : option str)
| OpResume (checkout : result unit BackendError) (lease : result str BackendError) (now : Z) (rid : str)
| OpDeleteSnapshot (answer : result bool BackendError) (cid : str)
| OpHibernate (accepts : bool) (release : result unit BackendError) (now : Z) (sid : str)
| OpEvicted (ids : list str) (c : option BackendCheckpointRef) (now : Z)
| OpClose (now : Z) (sid : str).

Section Runs.
Context `{SessionHasher}.

(** Fuel for a close: the longest id. *)
Definition close_fuel (s : Service) : nat :=
  S (foldr (fun p n => Nat.max (length p.1) n) 0%nat (map_to_list (session_store s))).

Definition rt_step (op : RtOp) (s : Service) : Service :=
  match op with
  | OpOpen env now sid conv sender => (open_session_inner env now sid conv sender s).2
  | OpPrepareTurn env hooks bound now sid conv sender =>
      (prepare_turn env hooks bound now sid conv sender s).2
  | OpTurnSaved sid f => turn_saved sid f s
  | OpCheckpoint answer uuid now rid metadata name =>
      (checkpoint_runtime_internal answer uuid now rid metadata name s).2
  | OpCheckout lease uuid now cid conv sender =>
      (checkout_runtime_internal lease uuid now cid conv sender s).2
  | OpPause answer release uuid now rid metadata name =>
      (pause_runtime_internal answer release uuid now rid metadata name s).2
  | OpResume checkout lease now rid => (resume_runtime_internal checkout lease now rid s).2
  | OpDeleteSnapshot answer cid => (delete_checkpoint_snapshot_internal answer cid s).2
  | OpHibernate accepts release now sid => (hibernate_idle_session accepts release now sid s).2
  | OpEvicted ids c now => evicted ids c now s
  | OpClose now sid =>
      match close_and_evict_on_err (close_fuel s) now sid s with Some (_, s') => s' | None => s end
  end.

Definition rt_allowed (op : RtOp) (s : Service) : Prop :=
  match op with
  | OpCheckpoint _ uuid _ _ _ _ | OpPause _ _ uuid _ _ _ _ => checkpoint_at s (new_checkpoint_id uuid) = None
  | OpTurnSaved _ f => ∀ r, parent_runtime_id (f r) = parent_runtime_id r
  | _ => True
  end.

Definition no_sessions : Service :=
  {| session_store := ∅; runtime_checkpoints := no_checkpoints; sessions_handler := ∅;
     sessions_lease := new_table; effects := [] |}.

Inductive rt_reachable : Service → Prop :=
| rt_start : rt_reachable no_sessions
| rt_next s op : rt_reachable s → rt_allowed op s → rt_reachable (rt_step op s).

(** ** The invariant *)

Record rt_ok (s : Service) : Prop := {
  ro_tree : tree_ok (session_store s);
  ro_alive : handles_ok s;
  ro_table : table_ok (sessions_lease s);
  (** A live handle has a stored record with the same parent. *)
  ro_handle id h : sessions_handler s !! id = Some h →
    ∃ r, session_store s !! id = Some r ∧ parent_runtime_id (handle_record h) = parent_runtime_id r;
  (** A checkpoint belongs to a stored runtime. *)
  ro_checkpoint cid c : checkpoint_at s cid = Some c → checkpoint_id c = cid ∧ stored s (runtime_id c);
  (** A paused runtime is resumed from a checkpoint of its own. *)
  ro_paused rid cid : paused_head s rid = Some cid →
    ∃ c, checkpoint_at s cid = Some c ∧ runtime_id c = rid;
  (** The head of a runtime is a checkpoint of its own or of its parent. *)
  ro_head rid cid : head_of s rid = Some cid →
    ∃ r c, session_store s !! rid = Some r ∧ checkpoint_at s cid = Some c ∧
      (runtime_id c = rid ∨ parent_runtime_id r = Some (runtime_id c));
}.

Lemma no_sessions_ok : rt_ok no_sessions.
Proof. constructor; [done..| | |]; by intros. Qed.

Lemma add_effect_ok e s : rt_ok s → rt_ok (add_effect e s).
Proof. intros []. by constructor. Qed.

(** A record is saved with the parent it had. *)
Lemma set_record_ok sid r s :
  rt_ok s → parent_runtime_id r = session_store s !! sid ≫= parent_runtime_id →
  rt_ok (set_store (<[sid := r]> (session_store s)) s).
Proof.
  intros [T A B Hh C P D] Hp.
  assert (∀ id r0, session_store s !! id = Some r0 →
    ∃ r', <[sid := r]> (session_store s) !! id = Some r' ∧ parent_runtime_id r' = parent_runtime_id r0) as Hkeep.
  { intros id r0 Hid. destruct (decide (id = sid)) as [->|Hne].
    - exists r. rewrite lookup_insert_eq, Hp, Hid. done.
    - exists r0. by rewrite lookup_insert_ne. }
  constructor; simpl; [|done|done| | |done|].
  - intros id r0 p Hid Hpar. apply lookup_insert_Some in Hid as [[<- <-]|[_ Hid]]; [|by eapply T].
    rewrite Hp in Hpar. destruct (session_store s !! sid) eqn:E; [|done]. by eapply T.
  - intros id h Hid. destruct (Hh id h Hid) as (r0 & Hr0 & ->).
    destruct (Hkeep id r0 Hr0) as (r' & ? & ?). eauto.
  - intros cid c Hc. destruct (C cid c Hc) as [? [r0 Hr0]]. split; [done|].
    destruct (Hkeep _ r0 Hr0) as (r' & ? & _). eexists. done.
  - intros rid cid Hc. destruct (D rid cid Hc) as (r0 & c & Hr0 & Hcp & Hor).
    destruct (Hkeep _ r0 Hr0) as (r' & ? & Hp'). exists r', c. rewrite Hp'. done.
Qed.

Lemma set_handle_ok sid h s r :
  rt_ok s → session_store s !! sid = Some r → handle_error h = None →
  parent_runtime_id (handle_record h) = parent_runtime_id r →
  rt_ok (set_handlers (<[sid := h]> (sessions_handler s)) s).
Proof.
  intros [T A B Hh C P D] Hr He Hp. constructor; simpl; [done| |done| |done..].
  - intros id h0 Hid. simpl in Hid. apply lookup_insert_Some in Hid as [[<- <-]|[_ Hid]]; [done|by eapply A].
  - intros id h0 Hid. simpl in Hid. apply lookup_insert_Some in Hid as [[<- <-]|[_ Hid]]; [eauto|by eapply Hh].
Qed.

Lemma drop_handle_ok sid s : rt_ok s → rt_ok (set_handlers (delete sid (sessions_handler s)) s).
Proof.
  intros [T A B Hh C P D]. constructor; simpl; [done| |done| |done..].
  - intros id h Hid. simpl in Hid. apply lookup_delete_Some in Hid as [_ Hid]. by eapply A.
  - intros id h Hid. simpl in Hid. apply lookup_delete_Some in Hid as [_ Hid]. by eapply Hh.
Qed.

Lemma create_handle_ok sid r s :
  rt_ok s → session_store s !! sid = Some r → rt_ok (get_or_create_session_handle sid r s).
Proof.
  intros Hs Hr. unfold get_or_create_session_handle. destruct (sessions_handler s !! sid); [done|].
  by eapply set_handle_ok.
Qed.

Lemma save_checkpoint_ok c s :
  rt_ok s → checkpoint_at s (checkpoint_id c) = None → stored s (runtime_id c) →
  rt_ok (set_checkpoints (save_checkpoint c (runtime_checkpoints s)) s).
Proof.
  intros [T A B Hh C P D] Hnew Hst.
  assert (∀ cid c0, checkpoint_at s cid = Some c0 →
    <[checkpoint_id c := c]> (checkpoints (runtime_checkpoints s)) !! cid = Some c0) as Hkeep.
  { intros cid c0 Hc. rewrite lookup_insert_ne; [done|]. intros <-. unfold checkpoint_at in *. congruence. }
  constructor; unfold checkpoint_at, paused_head, head_of; simpl; [done..| | |].
  - intros cid c0 Hc. apply lookup_insert_Some in Hc as [[<- <-]|[_ Hc]]; [done|by apply C].
  - intros rid cid Hc. destruct (P rid cid Hc) as (c0 & ? & ?). eauto.
  - intros rid cid Hc. apply lookup_insert_Some in Hc as [[<- <-]|[_ Hc]].
    + destruct Hst as [r Hr]. exists r, c. rewrite lookup_insert_eq. eauto.
    + destruct (D rid cid Hc) as (r & c0 & ? & ? & ?). exists r, c0. eauto.
Qed.

Lemma register_paused_ok rid cid c s :
  rt_ok s → checkpoint_at s cid = Some c → runtime_id c = rid →
  rt_ok (set_checkpoints (register_paused_runtime rid cid (runtime_checkpoints s)) s).
Proof.
  intros [T A B Hh C P D] Hc Hr. constructor; [done..| |done].
  intros rid0 cid0 H0. unfold paused_head, head_of in H0. simpl in H0. apply lookup_insert_Some in H0 as [[<- <-]|[_ H0]]; [eauto|by apply P].
Qed.

Lemma register_head_ok rid cid c r s :
  rt_ok s → checkpoint_at s cid = Some c → session_store s !! rid = Some r →
  runtime_id c = rid ∨ parent_runtime_id r = Some (runtime_id c) →
  rt_ok (set_checkpoints (register_runtime_head rid cid (runtime_checkpoints s)) s).
Proof.
  intros [T A B Hh C P D] Hc Hr Hor. constructor; [done..|].
  intros rid0 cid0 H0. unfold paused_head, head_of in H0. simpl in H0. apply lookup_insert_Some in H0 as [[<- <-]|[_ H0]]; [eauto 6|by apply D].
Qed.

Lemma clear_paused_ok rid s :
  rt_ok s → rt_ok (set_checkpoints (clear_paused_runtime rid (runtime_checkpoints s)) s).
Proof.
  intros [T A B Hh C P D]. constructor; [done..| |done].
  intros rid0 cid0 H0. unfold paused_head in H0. simpl in H0. apply lookup_delete_Some in H0 as [_ H0]. by apply P.
Qed.

Lemma clear_snapshot_ok cid s :
  rt_ok s → rt_ok (set_checkpoints (clear_backend_snapshot cid (runtime_checkpoints s)) s).
Proof.
  intros [T A B Hh C P D].
  assert (∀ id c, checkpoint_at s id = Some c → ∃ c', alter clear_snapshot cid
    (checkpoints (runtime_checkpoints s)) !! id = Some c' ∧ runtime_id c' = runtime_id c) as Hkeep.
  { intros id c Hc. destruct (decide (id = cid)) as [->|Hne].
    - exists (clear_snapshot c). unfold checkpoint_at in Hc. by rewrite lookup_alter_eq, Hc.
    - exists c. by rewrite lookup_alter_ne. }
  constructor; unfold checkpoint_at, paused_head, head_of; simpl; [done..| | |].
  - intros id c Hc. apply lookup_alter_Some in Hc as [(<- & c0 & Hc & ->)|[_ Hc]]; exact (C _ _ Hc).
  - intros rid id Hid. destruct (P rid id Hid) as (c & (c' & ? & Heq)%Hkeep & <-). eauto.
  - intros rid id Hid. destruct (D rid id Hid) as (r & c & Hr & (c' & ? & Heq)%Hkeep & Hor).
    exists r, c'. rewrite Heq. done.
Qed.

(** ** Every operation keeps it *)

Lemma idle_snapshot_parent sid s r :
  rt_ok s → idle_session_snapshot sid s = Ok r →
  ∃ r0, session_store s !! sid = Some r0 ∧ parent_runtime_id r = parent_runtime_id r0.
Proof.
  intros Hs. unfold idle_session_snapshot. destruct (sessions_handler s !! sid) as [h|] eqn:Eh.
  - destruct (_ || _); [done|]. unfold handle_snapshot. rewrite (ro_alive _ Hs _ _ Eh). intros [= <-].
    by apply (ro_handle _ Hs).
  - destruct (session_store s !! sid) as [r0|] eqn:Er; [|done]. case_bool_decide; [done|].
    intros [= <-]. eauto.
Qed.

(** The record an operation saves has the parent of the stored one. *)
Lemma preserve_parent e r : parent_runtime_id r = None →
  parent_runtime_id (preserve_state e r) = e ≫= parent_runtime_id.
Proof. by destruct e. Qed.
Lemma sync_parent r lease : parent_runtime_id (sync_session_backend_instance r lease).1 = parent_runtime_id r.
Proof. unfold sync_session_backend_instance. by case_bool_decide. Qed.
Lemma stamp_parent b now r : parent_runtime_id (stamp b now r) = parent_runtime_id r.
Proof. by destruct b. Qed.

Lemma open_ok env now sid conv sender s : rt_ok s → rt_ok (open_session_inner env now sid conv sender s).2.
Proof.
  intros Hs. unfold open_session_inner. destruct (env_resolve env) as [resolved|]; [|done].
  destruct (session_store s !! sid ≫= _); [done|]. destruct (sessions_handler s !! sid); [done|].
  unfold open_build. destruct (lease_session_backend _ _ _ _ _) as [lease|]; [|done].
  destruct (env_finalize env) as [final|].
  - destruct (sync_session_backend_instance _ _) as [r changed] eqn:Esync. simpl.
    apply create_handle_ok; [|apply lookup_insert_eq]. apply add_effect_ok, set_record_ok; [done|].
    rewrite stamp_parent. change r with (r, changed).1. rewrite <- Esync, sync_parent.
    by apply preserve_parent.
  - simpl. unfold give_back. destruct (is_none _); [by apply add_effect_ok|done].
Qed.

Lemma prepare_turn_ok env hooks bound now sid conv sender s :
  rt_ok s → rt_ok (prepare_turn env hooks bound now sid conv sender s).2.
Proof.
  intros Hs. unfold prepare_turn. destruct (env_resolve env) as [resolved|]; [|done].
  destruct (lease_session_backend _ _ _ _ _) as [lease|]; [|done].
  destruct (env_finalize env) as [final|];
    [|simpl; unfold give_back; destruct (is_none _); [by apply add_effect_ok|done]].
  destruct (sync_session_backend_instance _ _) as [r changed] eqn:Esync.
  set (r1 := if bool_decide _ then _ else r). set (r2 := stamp _ now r1).
  assert (parent_runtime_id r2 = session_store s !! sid ≫= parent_runtime_id) as Hp.
  { unfold r2. rewrite stamp_parent. transitivity (parent_runtime_id r); [unfold r1; by case_bool_decide|].
    change r with (r, changed).1. rewrite <- Esync, sync_parent. by destruct (session_store s !! sid). }
  simpl. clearbody r2. clear r1 Esync.
  assert (∀ s1, rt_ok s1 → (∃ r0, session_store s1 !! sid = Some r0 ∧ parent_runtime_id r2 = parent_runtime_id r0) →
    rt_ok (get_or_create_session_handle sid r2 s1)) as Hcreate.
  { intros s1 Hs1 (r0 & Hr0 & Hp0). unfold get_or_create_session_handle.
    destruct (sessions_handler s1 !! sid); [done|]. by eapply set_handle_ok. }
  destruct (session_store s !! sid) as [r0|] eqn:Er; simpl in *.
  - destruct (_ || bound); simpl; apply Hcreate; [|eexists; simpl; by rewrite lookup_insert_eq|done|eauto].
    apply set_record_ok; [done|]. by rewrite Er.
  - destruct hooks; simpl; apply Hcreate; simpl; try (eexists; by rewrite lookup_insert_eq);
      [apply add_effect_ok|]; (apply set_record_ok; [done|]; by rewrite Er).
Qed.

Lemma turn_saved_ok sid f s :
  rt_ok s → (∀ r, parent_runtime_id (f r) = parent_runtime_id r) → rt_ok (turn_saved sid f s).
Proof.
  intros Hs Hf. unfold turn_saved. destruct (sessions_handler s !! sid) as [h|] eqn:Eh; [|done].
  destruct (ro_handle _ Hs sid h Eh) as (r0 & Hr0 & Hp).
  eapply (set_handle_ok _ _ (set_store (<[sid := f (handle_record h)]> (session_store s)) s));
    [|apply lookup_insert_eq|exact (ro_alive _ Hs sid h Eh)|done].
  apply set_record_ok; [done|]. by rewrite Hf, Hr0.
Qed.

Lemma checkpoint_ok answer uuid now rid metadata name s :
  rt_ok s → checkpoint_at s (new_checkpoint_id uuid) = None →
  rt_ok (checkpoint_runtime_internal answer uuid now rid metadata name s).2.
Proof.
  intros Hs Hnew. unfold checkpoint_runtime_internal.
  destruct (idle_session_snapshot rid s) as [r|] eqn:Er; [|done].
  destruct (checkpoint_of_backend _ _ _); [|done]. apply save_checkpoint_ok; [done..|].
  destruct (idle_snapshot_parent _ _ _ Hs Er) as (r0 & ? & _). by eexists.
Qed.

Lemma checkout_ok lease uuid now cid conv sender s :
  rt_ok s → rt_ok (checkout_runtime_internal lease uuid now cid conv sender s).2.
Proof.
  intros Hs. unfold checkout_runtime_internal, load_checkpoint.
  destruct (checkpoints _ !! cid) as [c|] eqn:Ec; [|done].
  destruct (idle_session_snapshot _ s) as [r|] eqn:Er; [|done].
  set (id := child_runtime_id (runtime_id c) uuid).
  destruct (session_store s !! id) eqn:Eid; [done|].
  destruct (match backend_checkpoint c with Some _ => _ | None => _ end) as [backend|]; [|done]. simpl.
  set (r' := forked_record c conv sender backend now).
  destruct (ro_checkpoint _ Hs cid c Ec) as [Hid Hst].
  assert (id ≠ runtime_id c) as Hne.
  { intros Heq. destruct Hst as [r0 Hr0]. rewrite <- Heq in Hr0. congruence. }
  apply create_handle_ok; [|apply lookup_insert_eq]. apply add_effect_ok.
  eapply (register_head_ok _ _ c r' (set_store (<[id := r']> (session_store s)) s)); [|by rewrite Hid|apply lookup_insert_eq|by right].
  (* the new record *)
  destruct Hs as [T A B Hh C P D].
  assert (∀ i r0, session_store s !! i = Some r0 → <[id := r']> (session_store s) !! i = Some r0) as Hkeep.
  { intros i r0 Hi. rewrite lookup_insert_ne; congruence. }
  constructor; simpl; [|done|done| | |done|].
  - intros i r0 p Hi Hp. apply lookup_insert_Some in Hi as [[<- <-]|[_ Hi]]; [|by eapply T].
    injection Hp as <-. unfold id, child_runtime_id. rewrite !length_app. vm_compute (length (lit _)). lia.
  - intros i h Hi. destruct (Hh i h Hi) as (r0 & ? & ?). eauto.
  - intros i c0 Hi. destruct (C i c0 Hi) as [? [r0 ?]]. split; [done|]. eexists. by apply Hkeep.
  - intros i j Hi. destruct (D i j Hi) as (r0 & c0 & ? & ? & ?). eauto 7.
Qed.

Lemma pause_ok answer release uuid now rid metadata name s :
  rt_ok s → checkpoint_at s (new_checkpoint_id uuid) = None →
  rt_ok (pause_runtime_internal answer release uuid now rid metadata name s).2.
Proof.
  intros Hs Hnew. unfold pause_runtime_internal.
  destruct (idle_session_snapshot rid s) as [r|] eqn:Er; [|done].
  destruct (idle_snapshot_parent _ _ _ Hs Er) as (r0 & Hr0 & Hp).
  case_bool_decide; [done|]. case_bool_decide; [done|].
  destruct (checkpoint_of_backend _ _ _) as [b|]; [|done]. destruct release as [_|]; [|done]. cbn [snd].
  set (paused := update _ _ _ _ _ _). set (s1 := add_effect _ s).
  set (c := {| checkpoint_id := new_checkpoint_id uuid; runtime_id := rid |}).
  assert (rt_ok (set_checkpoints (save_checkpoint c (runtime_checkpoints s1)) s1)) as H2.
  { apply save_checkpoint_ok; [by apply add_effect_ok|done|by eexists]. }
  set (s2 := set_checkpoints _ s1) in *.
  assert (rt_ok (set_checkpoints (register_paused_runtime rid (new_checkpoint_id uuid) (runtime_checkpoints s2)) s2)) as H3.
  { eapply (register_paused_ok _ _ c); [done| |done]. apply lookup_insert_eq. }
  set (s3 := set_checkpoints _ s2) in *.
  apply (drop_handle_ok rid (set_store (<[rid := paused]> (session_store s3)) s3)).
  apply set_record_ok; [done|]. simpl. by rewrite Hr0.
Qed.

Lemma resume_ok checkout lease now rid s :
  rt_ok s → rt_ok (resume_runtime_internal checkout lease now rid s).2.
Proof.
  intros Hs. unfold resume_runtime_internal, paused_checkpoint_for_runtime, load_checkpoint.
  destruct (session_store s !! rid) as [r|] eqn:Er; [|done].
  case_bool_decide; [done|]. destruct (negb _); [done|].
  destruct (paused_runtime_heads _ !! rid) as [cid|] eqn:Ep; [|done].
  destruct (checkpoints _ !! cid) as [c|] eqn:Ec; [|done].
  destruct (resume_backend _ _ _ _) as [backend|]; [|done]. cbn [snd].
  set (r' := update _ _ _ _ _ _). set (s1 := set_store (<[rid := r']> (session_store s)) s).
  assert (rt_ok s1) as H1 by (apply set_record_ok; [done|]; by rewrite Er).
  apply create_handle_ok; [|apply lookup_insert_eq].
  eapply (register_head_ok _ _ c r' (set_checkpoints (clear_paused_runtime rid (runtime_checkpoints s1)) s1));
    [by apply clear_paused_ok|done|apply lookup_insert_eq|left].
  destruct (ro_paused _ Hs rid cid Ep) as (c' & Hc' & <-). unfold checkpoint_at in Hc'. congruence.
Qed.

Lemma delete_snapshot_ok answer cid s : rt_ok s → rt_ok (delete_checkpoint_snapshot_internal answer cid s).2.
Proof.
  intros Hs. unfold delete_checkpoint_snapshot_internal. destruct (load_checkpoint _ _) as [c|]; [|done].
  destruct (backend_checkpoint c); [|done].
  destruct answer as [deleted|e]; [by apply clear_snapshot_ok|by destruct e].
Qed.

Lemma hibernate_ok accepts release now sid s : rt_ok s → rt_ok (hibernate_idle_session accepts release now sid s).2.
Proof.
  intros Hs. unfold hibernate_idle_session. destruct (sessions_handler s !! sid) as [h|] eqn:Eh; [|done].
  unfold handle_snapshot. rewrite (ro_alive _ Hs _ _ Eh). destruct accepts; [|done].
  set (paused := update _ _ _ _ _ _).
  assert (rt_ok (set_handlers (delete sid (sessions_handler s)) (set_store (<[sid := paused]> (session_store s)) s))) as H1.
  { apply (drop_handle_ok sid (set_store _ s)), set_record_ok; [done|].
    destruct (ro_handle _ Hs sid h Eh) as (r0 & -> & Hp). done. }
  destruct release; [by apply add_effect_ok|done].
Qed.

Lemma alter_as_insert {A} (f : A → A) (m : gmap str A) i x :
  m !! i = Some x → alter f i m = <[i := f x]> m.
Proof.
  intros Hi. apply map_eq. intros j. destruct (decide (j = i)) as [->|Hne].
  - by rewrite lookup_alter_eq, lookup_insert_eq, Hi.
  - by rewrite lookup_alter_ne, lookup_insert_ne.
Qed.

Lemma evicted_ok ids c now s : rt_ok s → rt_ok (evicted ids c now s).
Proof.
  unfold evicted, batch_mark_paused_due_to_eviction. revert s. induction ids as [|id ids IH]; intros s Hs; simpl.
  { by destruct s. }
  refine (IH (set_store (alter (update SPaused None c None now) id (session_store s)) s) _).
  destruct (session_store s !! id) as [r|] eqn:Er.
  - rewrite (alter_as_insert _ _ _ _ Er). apply set_record_ok; [done|]. by rewrite Er.
  - rewrite alter_id; [by destruct s|]. intros r Hr. congruence.
Qed.

Lemma close_fuel_bound s id : stored s id → (length id < close_fuel s)%nat.
Proof.
  intros [r Hr]. unfold close_fuel. apply elem_of_map_to_list in Hr. apply Nat.lt_succ_r.
  induction (map_to_list (session_store s)) as [|p l IH]; [by apply not_elem_of_nil in Hr|].
  simpl. apply elem_of_cons in Hr as [<-|Hr]; simpl; [lia|]. specialize (IH Hr). lia.
Qed.

Lemma ok_good s : rt_ok s → good (pred (close_fuel s)) s.
Proof.
  intros [T A B _ _ _ _]. constructor; [done..|]. intros id Hid.
  pose proof (close_fuel_bound s id Hid). lia.
Qed.

(** What is left after sessions went with all that was forked from them. *)
Lemma closed_ok (D : str → Prop) s s' :
  (∀ x y, D x → child (session_store s) x y → D y) → closed_to D s s' → rt_ok s → rt_ok s'.
Proof.
  intros HD Hc [T A B Hh C P E].
  assert (∀ id r, session_store s' !! id = Some r → session_store s !! id = Some r) as Hsub.
  { intros id r Hid. destruct (ct_store _ _ _ Hc id) as [_ [Hs|[Hn _]]]; congruence. }
  assert (∀ id r, session_store s !! id = Some r → D id ∨ session_store s' !! id = Some r) as Hstay.
  { intros id r Hid. destruct (ct_store _ _ _ Hc id) as [_ [Hs|[_ ?]]]; [right; congruence|auto]. }
  assert (∀ cid c, checkpoint_at s' cid = Some c → checkpoint_at s cid = Some c) as Hcp.
  { intros cid c Hcid. destruct (checkpoint_at s cid) as [c0|] eqn:E0.
    - destruct (ct_checkpoints _ _ _ Hc cid c0 E0) as [_ [?|[? _]]]; congruence.
    - rewrite (ct_no_checkpoint _ _ _ Hc cid E0) in Hcid. done. }
  constructor.
  - intros id r p Hid. apply (T id r p). auto.
  - by eapply closed_to_handles.
  - by apply (ct_table _ _ _ Hc).
  - intros id h Hid. destruct (ct_handlers _ _ _ Hc id) as [Hgone [Hs|[Hn _]]]; [|congruence].
    destruct (Hh id h) as (r & Hr & Hp); [congruence|].
    destruct (Hstay id r Hr) as [Hd|?]; [|eauto]. rewrite (Hgone Hd) in Hid. done.
  - intros cid c Hcid. destruct (C cid c (Hcp _ _ Hcid)) as [? Hst]. split; [done|].
    destruct (stored_after _ _ _ _ Hc Hst) as [Hd|?]; [|done].
    destruct (ct_checkpoints _ _ _ Hc cid c (Hcp _ _ Hcid)) as [Hgone _].
    rewrite Hgone in Hcid; done.
  - intros rid cid Hp. destruct (ct_paused _ _ _ Hc rid) as [Hgone [Hs|[Hn _]]]; [|congruence].
    destruct (P rid cid) as (c & Hcid & <-); [congruence|]. exists c. split; [|done].
    destruct (ct_checkpoints _ _ _ Hc cid c Hcid) as [_ [?|[_ Hd]]]; [done|].
    rewrite Hgone in Hp; [done..|]. by apply (C cid).
  - intros rid cid Hp. destruct (ct_heads _ _ _ Hc rid) as [Hgone [Hs|[Hn _]]]; [|congruence].
    destruct (E rid cid) as (r & c & Hr & Hcid & Hor); [congruence|].
    assert (¬ D rid) as Hnd. { intros Hd. rewrite Hgone in Hp; [done..|]. by eexists. }
    destruct (Hstay rid r Hr) as [?|Hr']; [done|]. exists r, c. split; [done|]. split; [|done].
    destruct (ct_checkpoints _ _ _ Hc cid c Hcid) as [_ [?|[_ Hd]]]; [done|]. destruct Hnd.
    destruct Hor as [<-|Hpar]; [done|]. apply (HD (runtime_id c)); [done|]. by exists r.
Qed.

Lemma close_spec now sid s :
  rt_ok s → ∃ r s', close_and_evict_on_err (close_fuel s) now sid s = Some (r, s') ∧
    closed_to (desc (session_store s) sid) s s' ∧ (stored s sid → ∃ rec, r = Ok rec).
Proof.
  intros Hs. pose proof (ok_good s Hs) as Hg. unfold close_and_evict_on_err.
  destruct (force_close_spec (pred (close_fuel s)) now (close_fuel s) sid) with (s := s)
    as (r & s1 & Hf & Hc); [unfold close_fuel; simpl; lia|done|done|].
  rewrite Hf. destruct r as [rec|e]; [by eauto 6|].
  destruct (decide (stored s sid)) as [Hst|Hn].
  - destruct (force_close_result (pred (close_fuel s)) now (close_fuel s) sid s (Err e) s1)
      as (rec & [=] & _); [done|done|unfold close_fuel; simpl; lia|done|done].
  - eexists _, _. split; [done|]. split; [|done].
    destruct Hc as [S Hh L X Y Z W V]. 
    assert (session_store s1 !! sid = None) as Es1 by apply S, rtc_refl.
    assert (sessions_handler s1 !! sid = None) as Eh1 by apply Hh, rtc_refl.
    unfold evict_session_artifacts. rewrite (delete_id _ _ Es1), (delete_id _ _ Eh1).
    assert (table_ok (sessions_lease s1)) as Ht1 by apply V, Hs.
    constructor; try done; simpl.
    + intros id. destruct (lease_of_remove (sessions_lease s1) sid id Ht1) as [-> _].
      case_bool_decide as Hid; [|apply L]. subst. split; [done|]. right. split; [done|apply rtc_refl].
    + intros _. by apply lease_of_remove.
Qed.

Lemma close_ok now sid s : rt_ok s → rt_ok (rt_step (OpClose now sid) s).
Proof.
  intros Hs. simpl. destruct (close_spec now sid s Hs) as (r & s' & -> & Hc & _).
  eapply closed_ok; [|done|done]. intros x y Hx Hy. by eapply rtc_r.
Qed.

Lemma rt_step_ok op s : rt_ok s → rt_allowed op s → rt_ok (rt_step op s).
Proof.
  intros Hs Ha. destruct op; simpl in Ha; eauto using open_ok, prepare_turn_ok, turn_saved_ok,
    checkpoint_ok, checkout_ok, pause_ok, resume_ok, delete_snapshot_ok, hibernate_ok, evicted_ok, close_ok.
Qed.

Lemma rt_reachable_ok s : rt_reachable s → rt_ok s.
Proof. induction 1 as [|s op _ IH Ha]; [apply no_sessions_ok|by apply rt_step_ok]. Qed.

(** C17: In every run of opens, turns, checkpoints, checkouts, pauses, resumes,
    evictions, hibernations and closes: a live handle and a checkpoint belong to
    a stored runtime, the head of a runtime is an existing checkpoint of its own
    or of its parent, a paused runtime's checkpoint exists and is its own, and
    ids grow along the forks. So when the last session is closed no handle, no
    checkpoint and no head is left behind. *)
Theorem runtimes_consistent s :
  rt_reachable s →
  rt_ok s ∧
  (session_store s = ∅ →
   sessions_handler s = ∅ ∧ runtime_checkpoints s = no_checkpoints).
Proof.
  intros Hs%rt_reachable_ok. split; [done|]. destruct Hs as [_ _ _ Hh C P D]. intros Hempty.
  assert (∀ (A : Type) (m : gmap str A), (∀ i x, m !! i = Some x → False) → m = ∅) as Hnone.
  { intros A m Hm. apply map_empty. intros i. destruct (m !! i) eqn:E; [by destruct (Hm i a)|done]. }
  assert (checkpoints (runtime_checkpoints s) = ∅) as Hc.
  { apply Hnone. intros i c Hi. destruct (C i c Hi) as [_ [r Hr]]. rewrite Hempty in Hr. done. }
  split.
  - apply Hnone. intros i h Hi. destruct (Hh i h Hi) as (r & Hr & _). rewrite Hempty in Hr. done.
  - assert (runtime_heads (runtime_checkpoints s) = ∅) as Hr.
    { apply Hnone. intros i x Hi. destruct (D i x Hi) as (r & c & Hr & _). rewrite Hempty in Hr. done. }
    assert (paused_runtime_heads (runtime_checkpoints s) = ∅) as Hp.
    { apply Hnone. intros i x Hi. destruct (P i x Hi) as (c & Hx & _). unfold checkpoint_at in Hx.
      rewrite Hc in Hx. done. }
    destruct (runtime_checkpoints s) as [cps heads paused]. simpl in *. by subst cps heads paused.
Qed.

(** ** A paused runtime stays resumable *)

(** [rid] is paused with record [r], to be resumed from [cid]; [b]: it had a
    backend. *)
Record parked (rid : str) (r : SessionRecord) (cid : str) (b : bool) (s : Service) : Prop := {
  pk_record : session_store s !! rid = Some r;
  pk_status : status r = SPaused;
  pk_handle : sessions_handler s !! rid = None;
  pk_head : paused_head s rid = Some cid;
  pk_checkpoint : ∃ c, checkpoint_at s cid = Some c ∧ runtime_id c = rid ∧
                       bool_decide (is_Some (backend_checkpoint c)) = b;
}.

(** The operations that wake, close or replace a paused runtime. *)
Definition disturbs (rid : str) (op : RtOp) (s : Service) : Prop :=
  match op with
  | OpPrepareTurn _ _ _ _ sid _ _ => sid = rid
  | OpResume _ _ _ sid => sid = rid
  | OpEvicted ids _ _ => rid ∈ ids
  | OpClose _ sid => desc (session_store s) sid rid
  | _ => False
  end.

Section Parked.
Context (rid : str) (r : SessionRecord) (cid : str) (b : bool).

Lemma parked_effect e s : parked rid r cid b s → parked rid r cid b (add_effect e s).
Proof. intros []. by constructor. Qed.
Lemma parked_record sid x s :
  sid ≠ rid → parked rid r cid b s → parked rid r cid b (set_store (<[sid := x]> (session_store s)) s).
Proof. intros Hne []. constructor; [|done..]. simpl. by rewrite lookup_insert_ne. Qed.
Lemma parked_handle sid h s :
  sid ≠ rid → parked rid r cid b s → parked rid r cid b (set_handlers (<[sid := h]> (sessions_handler s)) s).
Proof. intros Hne []. constructor; [done|done| |done..]. simpl. by rewrite lookup_insert_ne. Qed.
Lemma parked_drop sid s :
  parked rid r cid b s → parked rid r cid b (set_handlers (delete sid (sessions_handler s)) s).
Proof.
  intros []. constructor; [done|done| |done..]. simpl. by apply lookup_delete_None; right.
Qed.
Lemma parked_create sid x s :
  sid ≠ rid → parked rid r cid b s → parked rid r cid b (get_or_create_session_handle sid x s).
Proof.
  intros Hne Hp. unfold get_or_create_session_handle. destruct (sessions_handler s !! sid); [done|].
  by apply parked_handle.
Qed.
Lemma parked_save c s :
  checkpoint_at s (checkpoint_id c) = None → parked rid r cid b s →
  parked rid r cid b (set_checkpoints (save_checkpoint c (runtime_checkpoints s)) s).
Proof.
  intros Hnew [? ? ? ? (c0 & Hc & ? & ?)]. constructor; [done..|]. exists c0. split; [|done].
  unfold checkpoint_at in *. simpl. rewrite lookup_insert_ne; [done|]. congruence.
Qed.
Lemma parked_register_head id c s :
  parked rid r cid b s →
  parked rid r cid b (set_checkpoints (register_runtime_head id c (runtime_checkpoints s)) s).
Proof. intros []. by constructor. Qed.
Lemma parked_register_paused id c s :
  id ≠ rid → parked rid r cid b s →
  parked rid r cid b (set_checkpoints (register_paused_runtime id c (runtime_checkpoints s)) s).
Proof. intros Hne []. constructor; [done..| |done]. unfold paused_head in *. simpl. by rewrite lookup_insert_ne. Qed.
Lemma parked_clear_paused id s :
  id ≠ rid → parked rid r cid b s →
  parked rid r cid b (set_checkpoints (clear_paused_runtime id (runtime_checkpoints s)) s).
Proof. intros Hne []. constructor; [done..| |done]. unfold paused_head in *. simpl. by rewrite lookup_delete_ne. Qed.
Lemma parked_clear_snapshot id s :
  parked rid r cid b s →
  parked rid r cid b (set_checkpoints (clear_backend_snapshot id (runtime_checkpoints s)) s).
Proof.
  intros [? ? ? ? (c0 & Hc & ? & ?)]. constructor; [done..|]. unfold checkpoint_at in *. simpl.
  destruct (decide (cid = id)) as [->|Hne].
  - exists (clear_snapshot c0). rewrite lookup_alter_eq, Hc. split_and!; [done|done|].
    simpl. by destruct (backend_checkpoint c0).
  - exists c0. by rewrite lookup_alter_ne.
Qed.

Lemma parked_idle s : parked rid r cid b s → idle_session_snapshot rid s = Ok r.
Proof.
  intros []. unfold idle_session_snapshot. rewrite pk_handle0, pk_record0.
  by rewrite bool_decide_eq_false_2 by congruence.
Qed.

Lemma parked_open env now sid conv sender s :
  parked rid r cid b s → parked rid r cid b (open_session_inner env now sid conv sender s).2.
Proof.
  intros Hp. unfold open_session_inner. destruct (env_resolve env); [|done].
  destruct (decide (sid = rid)) as [->|Hne].
  - rewrite (pk_record _ _ _ _ _ Hp). simpl. rewrite bool_decide_eq_true_2; [done|apply Hp].
  - destruct (_ ≫= _); [done|]. destruct (sessions_handler s !! sid); [done|]. unfold open_build.
    destruct (lease_session_backend _ _ _ _ _); [|done]. destruct (env_finalize env).
    + destruct (sync_session_backend_instance _ _). simpl.
      by apply parked_create, parked_effect, parked_record.
    + simpl. unfold give_back. destruct (is_none _); [by apply parked_effect|done].
Qed.

Lemma parked_turn env hooks bound now sid conv sender s :
  sid ≠ rid → parked rid r cid b s →
  parked rid r cid b (prepare_turn env hooks bound now sid conv sender s).2.
Proof.
  intros Hne Hp. unfold prepare_turn. destruct (env_resolve env); [|done].
  destruct (lease_session_backend _ _ _ _ _); [|done]. destruct (env_finalize env).
  - destruct (sync_session_backend_instance _ _). simpl. apply parked_create; [done|].
    destruct (_ && _), (_ || bound); repeat apply parked_effect; try apply parked_record; done.
  - simpl. unfold give_back. destruct (is_none _); [by apply parked_effect|done].
Qed.

Lemma parked_turn_saved sid f s : parked rid r cid b s → parked rid r cid b (turn_saved sid f s).
Proof.
  intros Hp. unfold turn_saved. destruct (sessions_handler s !! sid) as [h|] eqn:E; [|done].
  assert (sid ≠ rid) as Hne. { intros ->. rewrite (pk_handle _ _ _ _ _ Hp) in E. done. }
  apply (parked_handle _ _ (set_store (<[sid := f (handle_record h)]> (session_store s)) s)); [done|].
  by apply parked_record.
Qed.

Lemma parked_pause answer release uuid now id metadata name s :
  checkpoint_at s (new_checkpoint_id uuid) = None → parked rid r cid b s →
  parked rid r cid b (pause_runtime_internal answer release uuid now id metadata name s).2.
Proof.
  intros Hnew Hp. unfold pause_runtime_internal. destruct (idle_session_snapshot id s) as [r0|] eqn:Er; [|done].
  case_bool_decide; [done|]. case_bool_decide as Hps; [done|].
  assert (id ≠ rid) as Hne.
  { intros ->. rewrite (parked_idle s Hp) in Er. injection Er as <-. destruct Hps. apply Hp. }
  destruct (checkpoint_of_backend _ _ _); [|done]. destruct release; [|done]. cbn [snd].
  set (s1 := add_effect _ s). set (c := {| checkpoint_id := new_checkpoint_id uuid |}).
  apply (parked_drop id (set_store _ (set_checkpoints (register_paused_runtime id (new_checkpoint_id uuid)
    (runtime_checkpoints (set_checkpoints (save_checkpoint c (runtime_checkpoints s1)) s1)))
    (set_checkpoints (save_checkpoint c (runtime_checkpoints s1)) s1)))).
  apply parked_record, parked_register_paused, parked_save, parked_effect; done.
Qed.

Lemma parked_checkout lease uuid now id conv sender s :
  parked rid r cid b s → parked rid r cid b (checkout_runtime_internal lease uuid now id conv sender s).2.
Proof.
  intros Hp. unfold checkout_runtime_internal. destruct (load_checkpoint _ _) as [c|]; [|done].
  destruct (idle_session_snapshot _ s); [|done]. destruct (session_store s !! _) eqn:E; [done|].
  destruct (match backend_checkpoint c with Some _ => _ | None => _ end); [|done]. cbn [snd].
  assert (child_runtime_id (runtime_id c) uuid ≠ rid) as Hne.
  { intros Heq. rewrite Heq, (pk_record _ _ _ _ _ Hp) in E. done. }
  by apply parked_create, parked_effect, parked_register_head, parked_record.
Qed.

Lemma parked_resume checkout lease now id s :
  id ≠ rid → parked rid r cid b s →
  parked rid r cid b (resume_runtime_internal checkout lease now id s).2.
Proof.
  intros Hne Hp. unfold resume_runtime_internal. destruct (session_store s !! id); [|done].
  case_bool_decide; [done|]. destruct (negb _); [done|].
  destruct (paused_checkpoint_for_runtime _ _); [|done]. destruct (load_checkpoint _ _); [|done].
  destruct (resume_backend _ _ _ _); [|done]. cbn [snd].
  apply parked_create; [done|]. set (s1 := set_store _ s).
  apply (parked_register_head _ _ (set_checkpoints (clear_paused_runtime id (runtime_checkpoints s1)) s1)).
  apply parked_clear_paused; [done|]. by apply parked_record.
Qed.

Lemma parked_hibernate accepts release now sid s :
  parked rid r cid b s → parked rid r cid b (hibernate_idle_session accepts release now sid s).2.
Proof.
  intros Hp. unfold hibernate_idle_session. destruct (sessions_handler s !! sid) eqn:E; [|done].
  assert (sid ≠ rid) as Hne. { intros ->. rewrite (pk_handle _ _ _ _ _ Hp) in E. done. }
  destruct (handle_snapshot _); [|done]. destruct accepts; [|done].
  set (x := update _ _ _ _ _ _).
  assert (parked rid r cid b (set_handlers (delete sid (sessions_handler s))
    (set_store (<[sid := x]> (session_store s)) s))) as H1.
  { apply (parked_drop sid (set_store (<[sid := x]> (session_store s)) s)). by apply parked_record. }
  destruct release; [by apply parked_effect|done].
Qed.

Lemma parked_evicted ids c now s :
  rid ∉ ids → parked rid r cid b s → parked rid r cid b (evicted ids c now s).
Proof.
  intros Hn []. constructor; [|done..]. simpl. revert pk_record0.
  generalize (session_store s). unfold batch_mark_paused_due_to_eviction.
  induction ids as [|id ids IH]; intros st Hst; [done|]. simpl.
  apply not_elem_of_cons in Hn as [Hne Hn]. apply IH; [done|]. by rewrite lookup_alter_ne.
Qed.

Lemma parked_closed (D : str → Prop) s s' :
  ¬ D rid → closed_to D s s' → parked rid r cid b s → parked rid r cid b s'.
Proof.
  intros Hn Hc [? ? ? ? (c & Hcp & Hr & ?)]. constructor; [|done| | |].
  - destruct (ct_store _ _ _ Hc rid) as [_ [->|[_ ?]]]; done.
  - destruct (ct_handlers _ _ _ Hc rid) as [_ [->|[_ ?]]]; done.
  - destruct (ct_paused _ _ _ Hc rid) as [_ [->|[_ ?]]]; done.
  - exists c. split; [|done]. destruct (ct_checkpoints _ _ _ Hc cid c Hcp) as [_ [?|[_ Hd]]]; [done|].
    by rewrite Hr in Hd.
Qed.

Lemma parked_step op s :
  rt_ok s → rt_allowed op s → ¬ disturbs rid op s → parked rid r cid b s →
  parked rid r cid b (rt_step op s).
Proof.
  intros Hs Ha Hd Hp. destruct op; simpl in *; auto using parked_open, parked_turn, parked_turn_saved,
    parked_pause, parked_checkout, parked_resume, parked_hibernate, parked_evicted.
  - unfold checkpoint_runtime_internal. destruct (idle_session_snapshot _ s); [|done].
    destruct (checkpoint_of_backend _ _ _); [|done]. by apply parked_save.
  - unfold delete_checkpoint_snapshot_internal. destruct (load_checkpoint _ _) as [c|]; [|done].
    destruct (backend_checkpoint c); [|done].
    destruct answer as [?|[]]; try done. by apply parked_clear_snapshot.
  - destruct (close_spec now sid s Hs) as (x & s' & -> & Hc & _). by eapply parked_closed.
Qed.
End Parked.

(** Others at work while [rid] is paused. *)
Inductive meanwhile (rid : str) : Service → Service → Prop :=
| mw_refl s : meanwhile rid s s
| mw_step s op s' : rt_allowed op s → ¬ disturbs rid op s → meanwhile rid (rt_step op s) s' →
    meanwhile rid s s'.

Lemma pause_parks answer release uuid now rid metadata name s cid s1 r :
  idle_session_snapshot rid s = Ok r →
  pause_runtime_internal answer release uuid now rid metadata name s = (Ok cid, s1) →
  parked rid (update SPaused None (paused_backend_checkpoint r) None now r) cid
    (bool_decide (is_Some (backend_instance r))) s1.
Proof.
  intros Hr. unfold pause_runtime_internal. rewrite Hr. case_bool_decide; [done|]. case_bool_decide; [done|].
  destruct (checkpoint_of_backend _ _ _) as [bc|] eqn:Eb; [|done]. destruct release; [|done].
  intros [= <- <-]. constructor; simpl.
  - apply lookup_insert_eq.
  - done.
  - apply lookup_delete_eq.
  - unfold paused_head. simpl. apply lookup_insert_eq.
  - eexists. unfold checkpoint_at. simpl. rewrite lookup_insert_eq. split_and!; [done|done|]. simpl.
    unfold checkpoint_of_backend in Eb. destruct (backend_instance r); [|by injection Eb as <-].
    destruct answer; [|done]. by injection Eb as <-.
Qed.

Lemma parked_meanwhile rid r cid b s s' :
  rt_ok s → meanwhile rid s s' → parked rid r cid b s → parked rid r cid b s'.
Proof.
  intros Hs Hm. revert Hs. induction Hm as [|s op s' Ha Hd _ IH]; intros Hs Hp; [done|].
  apply IH; [by apply rt_step_ok|by apply parked_step].
Qed.

(** C18: Pausing and resuming a runtime is a round trip: whatever else happens in
    between (other runtimes open, run, are paused or closed, checkpoints of this
    one are taken or checked out, it is opened again), unless the runtime itself
    is woken, evicted or closed, a resume whose backend comes back succeeds and
    gives the record from before the pause, idle again: the conversation, the
    memory and the agents are the same. Its head is the checkpoint of the pause,
    and it has a handle again. *)
Theorem pause_resume_round_trip s r rid answer release uuid now metadata name cid s1 s2 now' lease :
  rt_reachable s → checkpoint_at s (new_checkpoint_id uuid) = None →
  idle_session_snapshot rid s = Ok r →
  pause_runtime_internal answer release uuid now rid metadata name s = (Ok cid, s1) →
  meanwhile rid s1 s2 →
  let rec := update SIdle (if bool_decide (is_Some (backend_instance r)) then Some lease else None)
               (paused_backend_checkpoint r) None now' r in
  ∃ s3, resume_runtime_internal (Ok tt) (Ok lease) now' rid s2 = (Ok rec, s3) ∧
    session_store s3 !! rid = Some rec ∧ sessions_handler s3 !! rid = Some (new_handle rec) ∧
    head_of s3 rid = Some cid ∧ paused_head s3 rid = None.
Proof.
  intros Hreach Hnew Hr Hp Hm rec.
  pose proof (rt_reachable_ok s Hreach) as Hs.
  assert (rt_ok s1) as Hs1.
  { pose proof (pause_ok answer release uuid now rid metadata name s Hs Hnew) as Hok. by rewrite Hp in Hok. }
  destruct (parked_meanwhile _ _ _ _ _ _ Hs1 Hm (pause_parks _ _ _ _ _ _ _ _ _ _ _ Hr Hp))
    as [Hst Hps Hh Hhead (c & Hc & _ & Hb)].
  unfold resume_runtime_internal, paused_checkpoint_for_runtime, load_checkpoint.
  unfold paused_head in Hhead. unfold checkpoint_at in Hc. rewrite Hst, Hhead, Hc. simpl.
  assert (resume_backend (Ok tt) (Ok lease) rid c =
    Ok (if bool_decide (is_Some (backend_instance r)) then Some lease else None)) as ->.
  { rewrite <- Hb. unfold resume_backend. by destruct (backend_checkpoint c). }
  unfold get_or_create_session_handle. simpl. rewrite Hh.
  eexists. split; [done|]. unfold head_of, paused_head. simpl.
  by rewrite !lookup_insert_eq, lookup_delete_eq.
Qed.
End Runs.

(** A session is opened, paused, looked at, and resumed. *)
Module RuntimesDemo.
#[local] Instance demo_hasher : SessionHasher := {| finish := fun s => Z.of_nat (length s) |}.

Definition demo_env : Env :=
  {| env_resolve := Ok (lit "runtime"); env_checkout := fun _ => Ok (lit "b2"); env_ensure := Ok (lit "b1");
     env_local_mcp := false; env_finalize := Ok (lit "runtime") |}.
Definition demo_ref : BackendCheckpointRef :=
  {| ref_checkpoint_id := lit "c"; ref_provider := lit "e2b"; source_backend_id := None;
     provider_snapshot_id := Some (lit "snap"); provider_snapshot_names := [];
     ref_workspace_root := []; ref_name := None; ref_metadata := JNull; ref_created_at_ms := 5;
     provider_options := JObject [] |}.
Definition rid : str := lit "a".
Definition demo_open : RtOp := OpOpen demo_env 10 rid (lit "conv") (lit "me").
Definition s0 : Service := rt_step demo_open no_sessions.
Definition p0 := pause_runtime_internal (Ok demo_ref) (Ok tt) (lit "1") 20 rid [] None s0.
Definition s1 : Service := p0.2.
Definition others : list RtOp :=
  [OpOpen demo_env 30 (lit "b") (lit "conv2") (lit "me"); demo_open;
   OpCheckout (Ok (lit "b3")) (lit "2") 40 (lit "rtcp_1") None None; OpClose 50 (lit "b")].
Definition s2 : Service := foldl (fun s op => rt_step op s) s1 others.
Definition r0 : SessionRecord :=
  default (build_session [] [] [] 0) (session_store s0 !! rid).

Lemma s0_reachable : rt_reachable s0.
Proof. apply rt_next; [apply rt_start|exact I]. Qed.

Lemma runtimes_consistent_witness :
  rt_ok (rt_step (OpClose 60 rid) s0) ∧ runtime_checkpoints (rt_step (OpClose 60 rid) s0) = no_checkpoints.
Proof.
  destruct (runtimes_consistent (rt_step (OpClose 60 rid) s0)) as [Hok He].
  - apply rt_next; [exact s0_reachable|exact I].
  - split; [exact Hok|]. apply He. vm_compute. reflexivity.
Defined.

Lemma pause_resume_round_trip_witness :
  ∃ s3, (resume_runtime_internal (Ok tt) (Ok (lit "b9")) 70 rid s2).2 = s3 ∧
        head_of s3 rid = Some (lit "rtcp_1").
Proof.
  destruct (pause_resume_round_trip s0 r0 rid (Ok demo_ref) (Ok tt) (lit "1") 20 [] None (lit "rtcp_1")
              s1 s2 70 (lit "b9")) as (s3 & Hres & _ & _ & Hhead & _).
  - exact s0_reachable.
  - vm_compute. reflexivity.
  - vm_compute. reflexivity.
  - vm_compute. reflexivity.
  - unfold s2, others. cbn [foldl].
    apply (mw_step rid s1 (OpOpen demo_env 30 (lit "b") (lit "conv2") (lit "me"))); [exact I|intros []|].
    apply (mw_step rid _ demo_open); [exact I|intros []|].
    apply (mw_step rid _ (OpCheckout (Ok (lit "b3")) (lit "2") 40 (lit "rtcp_1") None None));
      [exact I|intros []|].
    apply (mw_step rid _ (OpClose 50 (lit "b"))); [exact I| |apply mw_refl].
    intros Hd. apply rtc_inv_r in Hd as [Heq|(y & _ & x & Hx & Hp)]; [discriminate|].
    vm_compute in Hx. injection Hx as <-. discriminate.
  - exists s3. rewrite Hres. split; [reflexivity|exact Hhead].
Defined.
End RuntimesDemo.
