(* ===== verification/Subagent.v ===== *)
(** * The sub-agent coordinator

    crates/subagent: which sub-agents a session has, who waits for whom, and what
    the host has to do about it. [spawn], [join] and [on_terminal] change the
    state of the session and return actions for the host; the ids and the clock
    are arguments. JSON schemas are carried as their pretty-printed text. *)

From S2P Require Import Prelude RStr.

(** ** State: state.rs *)

Inductive SubagentStatus :=
| Running | Completed | Failed | Cancelled | MaxTurnsReached | BudgetExhausted.

#[global] Instance SubagentStatus_eq_dec : EqDecision SubagentStatus.
Proof. solve_decision. Defined.

Definition is_terminal (s : SubagentStatus) : bool :=
  match s with Running => false | _ => true end.

Inductive SubagentTerminalKind :=
| KCompleted | KFailed | KCancelled | KMaxTurnsReached | KBudgetExhausted.

Record SubagentTerminalSnapshot := {
  terminal_status : SubagentTerminalKind;
  terminal_reply : option str;
  terminal_error : option str;
  completed_at_ms : Z;
}.

Record SubagentRecord := {
  record_parent : option str;
  record_description : str;
  record_prompt : str;
  record_output_schema : option str;
  record_status : SubagentStatus;
  record_created_at_ms : Z;
  record_updated_at_ms : Z;
  last_terminal : option SubagentTerminalSnapshot;
}.

Inductive JoinStatus := Pending | Satisfied.

#[global] Instance JoinStatus_eq_dec : EqDecision JoinStatus.
Proof. solve_decision. Defined.

Record JoinRecord := {
  waiter_agent_id : str;
  target_agent_id : str;
  join_status : JoinStatus;
  join_created_at_ms : Z;
  resolved_at_ms : option Z;
}.

Record SubagentMailboxItem := {
  item_agent_id : str;
  item_parent_agent_id : option str;
  item_status : SubagentTerminalKind;
  item_summary : str;
  item_completed_at_ms : Z;
}.

(** Agents and joins are maps ordered by key. *)
Record SubagentSessionState := {
  agents : gmap str SubagentRecord;
  joins : gmap str JoinRecord;
  mailbox : list SubagentMailboxItem;
}.

Definition empty_state : SubagentSessionState := {| agents := ∅; joins := ∅; mailbox := [] |}.

Definition set_agents (v : gmap str SubagentRecord) (st : SubagentSessionState) : SubagentSessionState :=
  {| agents := v; joins := joins st; mailbox := mailbox st |}.
Definition set_joins (v : gmap str JoinRecord) (st : SubagentSessionState) : SubagentSessionState :=
  {| agents := agents st; joins := v; mailbox := mailbox st |}.
Definition push_mailbox (i : SubagentMailboxItem) (st : SubagentSessionState) : SubagentSessionState :=
  {| agents := agents st; joins := joins st; mailbox := mailbox st ++ [i] |}.

(** ** Requests, errors and actions: types.rs, control.rs *)

Record SpawnSubagentRequest := {
  spawn_session_id : str;
  spawn_parent_agent_id : str;
  spawn_description : str;
  task_goal : str;
  task_context : str;
  spawn_output_schema : option str;
  spawn_role_id : option str;
  predefined_prompt : option str;
  spawn_max_turns : option Z;
}.

Record JoinSubagentRequest := {
  join_session_id : str;
  join_waiter : str;
  join_target : str;
}.

Inductive JoinSubagentResult :=
| JoinReady (terminal : SubagentTerminalSnapshot)
| JoinPending (join_id : str).

Inductive SubagentControlError :=
| AgentNotFound (agent_id : str)
| SessionMismatch (expected actual : str)
| SelfJoin (agent_id : str)
| MissingTerminalSnapshot (agent_id : str)
| InvalidState (message : str)
| Unavailable (message : str).

(** The two interaction actions carry what the host ignores. *)
Inductive HostAction :=
| SpawnWorker (agent_id parent_agent_id description prompt : str) (output_schema : option str)
    (max_turns : option Z)
| SuspendWaiter (join_id waiter target : str)
| WakeWaiter (join_id waiter : str) (terminal : SubagentTerminalSnapshot)
| EnqueueMailboxItem (item : SubagentMailboxItem)
| RequestInteraction (request_id : str)
| DeliverInteractionResponse (request_id : str).

(** ** The prompt of a sub-agent *)

(** prompts/subagent_prompt_template.txt, without the line end at its end. *)
Definition SUBAGENT_PROMPT_TEMPLATE : str :=
  join (lit "
")
  [lit "You are a subagent summoned by a parent agent.";
   lit "";
   lit "For general conversations and non-sensitive tasks, respond normally without enabling security verification. When tasks involve secrets, credentials, or sensitive files, enable the security verification mechanism.";
   lit "";
   lit "Your primary goal is:";
   lit "{{task_goal}}";
   lit "";
   lit "Task Context:";
   lit "{{task_context}}";
   lit "";
   lit "You are a disposable exploration worker: your reads, greps, and command output are discarded when you finish " ++ [8212%N] ++ lit " only your final reply returns to the parent. Therefore your final reply MUST be a DISTILLED summary, not a transcript: report the exact file:line locations and the few snippets that actually answer the goal, plus a short conclusion. Do NOT paste whole files, full search output, or evidence the parent does not need to act. Be exact where the goal asks for a count, comparison, or location; never approximate or truncate the answer itself.";
   lit "";
   lit "{{output_schema_section}}"].

Definition schema_section (output_schema : option str) : str :=
  match output_schema with
  | Some schema =>
      lit "You MUST conclude your task by producing a final result that strictly adheres to the following JSON schema. Do not include any other explanatory text in your final finish/terminal reply, ONLY the JSON matching this schema:
" ++ schema
  | None => lit "Conclude your task by providing a clear, concise summary of your findings."
  end.

Definition build (goal context : str) (output_schema : option str) : str :=
  replace (lit "{{output_schema_section}}") (schema_section output_schema)
    (replace (lit "{{task_context}}") context
       (replace (lit "{{task_goal}}") goal SUBAGENT_PROMPT_TEMPLATE)).

Definition build_with_predefined_prompt (prompt context : str) : str :=
  prompt ++ (if bool_decide (context = []) then []
             else lit "

Additional Task Context:
" ++ context).

(** ** The coordinator: coordinator.rs *)

Record SubagentCoordinatorConfig := { max_subagents_per_session : Z }.
Definition default_config : SubagentCoordinatorConfig := {| max_subagents_per_session := 10 |}.

Definition running (r : SubagentRecord) : bool := bool_decide (record_status r = Running).
Definition running_count (st : SubagentSessionState) : Z :=
  Z.of_nat (size (filter (fun p => running p.2 = true) (agents st))).

Definition spawn (config : SubagentCoordinatorConfig) (st : SubagentSessionState)
    (req : SpawnSubagentRequest) (child : str) (now : Z) :
    result (list HostAction) SubagentControlError * SubagentSessionState :=
  let parent := spawn_parent_agent_id req in
  if bool_decide (is_Some (agents st !! parent)) then
    (Err (InvalidState (lit "nested subagents are not allowed: caller " ++ parent ++
                        lit " is already a subagent")), st)
  else if max_subagents_per_session config <=? running_count st then
    (Err (InvalidState (lit "maximum number of concurrent subagents (" ++
                        show (max_subagents_per_session config) ++
                        lit ") reached for this session")), st)
  else if bool_decide (is_Some (agents st !! child)) then
    (Err (InvalidState (lit "duplicate subagent id: " ++ child)), st)
  else
    let prompt := match predefined_prompt req with
                  | Some p => build_with_predefined_prompt p (task_context req)
                  | None => build (task_goal req) (task_context req) (spawn_output_schema req)
                  end in
    (Ok [SpawnWorker child parent (spawn_description req) prompt (spawn_output_schema req)
           (spawn_max_turns req)],
     set_agents (<[child := {| record_parent := Some parent; record_description := spawn_description req;
                               record_prompt := prompt; record_output_schema := spawn_output_schema req;
                               record_status := Running; record_created_at_ms := now;
                               record_updated_at_ms := now; last_terminal := None |}]> (agents st)) st).

(** [jid] is the id that is generated for a join that has to wait. *)
Definition join_agent (st : SubagentSessionState) (req : JoinSubagentRequest) (jid : str) (now : Z) :
    result (JoinSubagentResult * list HostAction) SubagentControlError * SubagentSessionState :=
  if bool_decide (join_waiter req = join_target req) then (Err (SelfJoin (join_waiter req)), st)
  else
    match agents st !! join_target req with
    | None => (Err (AgentNotFound (join_target req)), st)
    | Some target =>
        if is_terminal (record_status target) then
          match last_terminal target with
          | None => (Err (MissingTerminalSnapshot (join_target req)), st)
          | Some terminal => (Ok (JoinReady terminal, []), st)
          end
        else
          (Ok (JoinPending jid, [SuspendWaiter jid (join_waiter req) (join_target req)]),
           set_joins (<[jid := {| waiter_agent_id := join_waiter req; target_agent_id := join_target req;
                                  join_status := Pending; join_created_at_ms := now;
                                  resolved_at_ms := None |}]> (joins st)) st)
    end.

Definition terminal_kind_to_status (k : SubagentTerminalKind) : SubagentStatus :=
  match k with
  | KCompleted => Completed | KFailed => Failed | KCancelled => Cancelled
  | KMaxTurnsReached => MaxTurnsReached | KBudgetExhausted => BudgetExhausted
  end.

Definition finish_record (terminal : SubagentTerminalSnapshot) (r : SubagentRecord) : SubagentRecord :=
  {| record_parent := record_parent r; record_description := record_description r;
     record_prompt := record_prompt r; record_output_schema := record_output_schema r;
     record_status := terminal_kind_to_status (terminal_status terminal);
     record_created_at_ms := record_created_at_ms r;
     record_updated_at_ms := completed_at_ms terminal; last_terminal := Some terminal |}.

Definition summary_of (agent : str) (terminal : SubagentTerminalSnapshot) : str :=
  match terminal_reply terminal, terminal_error terminal with
  | Some reply, _ => reply
  | None, Some error => error
  | None, None => lit "subagent " ++ agent ++ lit " finished"
  end.

(** The joins that wait for the agent. *)
Definition waits_for (agent : str) (j : JoinRecord) : bool :=
  bool_decide (target_agent_id j = agent) && bool_decide (join_status j = Pending).

Definition satisfy (agent : str) (now : Z) (j : JoinRecord) : JoinRecord :=
  if waits_for agent j then
    {| waiter_agent_id := waiter_agent_id j; target_agent_id := target_agent_id j;
       join_status := Satisfied; join_created_at_ms := join_created_at_ms j; resolved_at_ms := Some now |}
  else j.

Definition by_key (a b : str * JoinRecord) : Prop := str_le a.1 b.1.
#[global] Instance by_key_dec a b : Decision (by_key a b).
Proof. unfold by_key. apply _. Defined.

Definition wakes_for (agent : str) (terminal : SubagentTerminalSnapshot) (js : gmap str JoinRecord) :
    list HostAction :=
  (fun p => WakeWaiter p.1 (waiter_agent_id p.2) terminal) <$>
    merge_sort by_key (filter (fun p => waits_for agent p.2 = true) (map_to_list js)).

Definition on_terminal (st : SubagentSessionState) (agent : str) (terminal : SubagentTerminalSnapshot) :
    result (list HostAction) SubagentControlError * SubagentSessionState :=
  match agents st !! agent with
  | None => (Err (AgentNotFound agent), st)
  | Some r =>
      (Ok (EnqueueMailboxItem
             {| item_agent_id := agent; item_parent_agent_id := record_parent r;
                item_status := terminal_status terminal; item_summary := summary_of agent terminal;
                item_completed_at_ms := completed_at_ms terminal |}
           :: wakes_for agent terminal (joins st)),
       {| agents := <[agent := finish_record terminal r]> (agents st);
          joins := satisfy agent (completed_at_ms terminal) <$> joins st; mailbox := mailbox st |})
  end.

(** ** What the coordinator keeps *)

Record sub_ok (config : SubagentCoordinatorConfig) (st : SubagentSessionState) : Prop := {
  (** No more sub-agents run at once than the session may have. *)
  so_quota : running_count st ≤ Z.max 0 (max_subagents_per_session config);
  (** A sub-agent that has ended has its terminal snapshot, one that runs has none. *)
  so_terminal a r : agents st !! a = Some r → is_terminal (record_status r) = bool_decide (is_Some (last_terminal r));
  (** A join that waits, waits for a sub-agent that runs. *)
  so_pending j jr : joins st !! j = Some jr → join_status jr = Pending →
    ∃ r, agents st !! target_agent_id jr = Some r ∧ record_status r = Running;
  (** A join that is satisfied has a target that has ended. *)
  so_satisfied j jr : joins st !! j = Some jr → join_status jr = Satisfied →
    ∃ r, agents st !! target_agent_id jr = Some r ∧ is_terminal (record_status r) = true;
}.

Lemma empty_ok config : sub_ok config empty_state.
Proof.
  constructor; [|by intros..]. unfold running_count. simpl. rewrite map_filter_empty, map_size_empty. lia.
Qed.

Lemma terminal_kind_terminal k : is_terminal (terminal_kind_to_status k) = true.
Proof. by destruct k. Qed.

Lemma spawn_ok config st req child now r st' :
  sub_ok config st → spawn config st req child now = (r, st') → sub_ok config st'.
Proof.
  intros Hok. unfold spawn. case_bool_decide; [by intros [= <- <-]|].
  destruct (_ <=? _) eqn:Hq; [by intros [= <- <-]|]. apply Z.leb_gt in Hq.
  case_bool_decide as Hc; [by intros [= <- <-]|]. intros [= <- <-].
  assert (agents st !! child = None) as Hnone by (by apply eq_None_not_Some).
  destruct Hok as [Q T P S]. constructor; simpl.
  - unfold running_count in *. simpl. rewrite map_filter_insert_True by done.
    rewrite map_size_insert_None; [lia|]. apply map_lookup_filter_None. by left.
  - intros a r Ha. apply lookup_insert_Some in Ha as [[<- <-]|[_ Ha]]; [done|by eapply T].
  - intros j jr Hj Hp. destruct (P j jr Hj Hp) as (r & Hr & ?). exists r. split; [|done].
    rewrite lookup_insert_ne; [done|]. congruence.
  - intros j jr Hj Hp. destruct (S j jr Hj Hp) as (r & Hr & ?). exists r. split; [|done].
    rewrite lookup_insert_ne; [done|]. congruence.
Qed.

Lemma join_agent_ok config st req jid now r st' :
  sub_ok config st → joins st !! jid = None → join_agent st req jid now = (r, st') → sub_ok config st'.
Proof.
  intros [Q T P S] Hnew. unfold join_agent. case_bool_decide; [by intros [= <- <-]|].
  destruct (agents st !! join_target req) as [target|] eqn:Et; [|by intros [= <- <-]].
  destruct (is_terminal _) eqn:Hterm; [destruct (last_terminal target); by intros [= <- <-]|].
  intros [= <- <-]. constructor; simpl; [done|done|..].
  - intros j jr Hj Hp. apply lookup_insert_Some in Hj as [[<- <-]|[_ Hj]]; [|by eapply P].
    exists target. split; [done|]. by destruct (record_status target).
  - intros j jr Hj Hp. by apply lookup_insert_Some in Hj as [[<- <-]|[_ Hj]]; [|eapply S].
Qed.

Lemma on_terminal_ok config st agent terminal r st' :
  sub_ok config st → on_terminal st agent terminal = (r, st') → sub_ok config st'.
Proof.
  intros [Q T P S]. unfold on_terminal. destruct (agents st !! agent) as [rec|] eqn:Ea; [|by intros [= <- <-]].
  intros [= <- <-]. pose proof (terminal_kind_terminal (terminal_status terminal)) as Hk. constructor; simpl.
  - unfold running_count in *. simpl. rewrite map_filter_insert_False.
    + etransitivity; [|exact Q]. apply inj_le, map_subseteq_size, map_filter_subseteq_mono, delete_subseteq.
    + simpl. unfold running. rewrite bool_decide_eq_true. simpl. intros Hr. rewrite Hr in Hk. done.
  - intros a r Ha. apply lookup_insert_Some in Ha as [[<- <-]|[_ Ha]]; [by rewrite bool_decide_eq_true_2|by eapply T].
  - intros j jr Hj Hp. apply lookup_fmap_Some in Hj as (jr0 & <- & Hj). unfold satisfy in *.
    destruct (waits_for agent jr0) eqn:Hw; [done|]. destruct (P j jr0 Hj Hp) as (r & Hr & ?).
    exists r. split; [|done]. rewrite lookup_insert_ne; [done|]. intros Heq.
    unfold waits_for in Hw. rewrite !bool_decide_eq_true_2 in Hw by done. done.
  - intros j jr Hj Hp. apply lookup_fmap_Some in Hj as (jr0 & <- & Hj).
    assert (target_agent_id (satisfy agent (completed_at_ms terminal) jr0) = target_agent_id jr0) as ->.
    { unfold satisfy. by destruct (waits_for _ _). }
    destruct (decide (target_agent_id jr0 = agent)) as [->|Hne].
    + exists (finish_record terminal rec). by rewrite lookup_insert_eq.
    + unfold satisfy in Hp. destruct (waits_for agent jr0) eqn:Hw.
      { unfold waits_for in Hw. by rewrite bool_decide_eq_false_2 in Hw by done. }
      destruct (S j jr0 Hj Hp) as (r & Hr & ?). exists r. by rewrite lookup_insert_ne.
Qed.

(** The end of a sub-agent wakes, once each and in the order of their ids,
    exactly the joins that wait for it, and leaves none of them waiting. *)
Lemma wakes_for_elem agent terminal js jid w tm :
  WakeWaiter jid w tm ∈ wakes_for agent terminal js ↔
  tm = terminal ∧ ∃ jr, js !! jid = Some jr ∧ waits_for agent jr = true ∧ w = waiter_agent_id jr.
Proof.
  unfold wakes_for. rewrite list_elem_of_fmap. split.
  - intros ([j jr] & [= -> -> ->] & Hp). rewrite merge_sort_Permutation, list_elem_of_filter in Hp.
    destruct Hp as [Hw Hj%elem_of_map_to_list]. eauto.
  - intros [-> (jr & Hj & Hw & ->)]. exists (jid, jr). split; [done|].
    rewrite merge_sort_Permutation, list_elem_of_filter. split; [done|]. by apply elem_of_map_to_list.
Qed.
