(* ===== verification/SubagentRun.v ===== *)
(** * Sub-agents of a running session

    apps/shared/src/gateway/session_supervisor.rs: the host of the coordinator.
    [spawn_subagent], [join_subagent] and [mark_subagent_terminal] change the
    session under its lock and then apply the coordinator's actions one by one,
    without the lock, so that other handlers run in between: a handler is the
    list of the actions it still has to apply. A lane that waits for a join
    takes the receiver of a one-shot channel, and gets the value, or drops the
    receiver when its turn is cancelled. The closing of a session, which ends
    all lanes, is not covered here. *)

From S2P Require Import Prelude RStr Message Subagent.

(** session_record.rs, [SessionAgentRecord], without the snapshots. *)
Record LaneRecord := {
  lane_parent_agent_id : option str;
  lane_role_id : option str;
  lane_effort : option ReasoningEffort;
  lane_last_error : option str;
  lane_created_at_ms : Z;
  lane_updated_at_ms : Z;
}.

(** [SubagentRoleRecord]. *)
Record Role := { role_prompt : option str; role_max_turns : option Z; role_description : str }.

(** [PendingJoinWaiter]: whether the two ends are still there. *)
Record PendingJoin := { sender : bool; receiver : bool }.

(** A one-shot channel: what was sent and not received, and whether the receiver
    has not been dropped. *)
Record Chan := { value : option SubagentTerminalSnapshot; rx_open : bool }.

(** The last four fields record the history: the joins that were registered, what
    was sent to them, the wakes that found nobody, and what was received. *)
Record Sup := {
  sub : SubagentSessionState;
  lane_records : gmap str LaneRecord;
  pending_joins : gmap str PendingJoin;
  chans : gmap str Chan;
  lanes : gset str;
  handlers : list (list HostAction);
  failures : list SubagentControlError;
  registered : gset str;
  sent : gmap str SubagentTerminalSnapshot;
  dropped : gset str;
  received : gmap str SubagentTerminalSnapshot;
}.

Definition set_sub v (s : Sup) : Sup :=
  Build_Sup v (lane_records s) (pending_joins s) (chans s) (lanes s) (handlers s) (failures s)
    (registered s) (sent s) (dropped s) (received s).
Definition set_lane_records v (s : Sup) : Sup :=
  Build_Sup (sub s) v (pending_joins s) (chans s) (lanes s) (handlers s) (failures s)
    (registered s) (sent s) (dropped s) (received s).
Definition set_pending_joins v (s : Sup) : Sup :=
  Build_Sup (sub s) (lane_records s) v (chans s) (lanes s) (handlers s) (failures s)
    (registered s) (sent s) (dropped s) (received s).
Definition set_chans v (s : Sup) : Sup :=
  Build_Sup (sub s) (lane_records s) (pending_joins s) v (lanes s) (handlers s) (failures s)
    (registered s) (sent s) (dropped s) (received s).
Definition set_lanes v (s : Sup) : Sup :=
  Build_Sup (sub s) (lane_records s) (pending_joins s) (chans s) v (handlers s) (failures s)
    (registered s) (sent s) (dropped s) (received s).
Definition set_running_handlers v (s : Sup) : Sup :=
  Build_Sup (sub s) (lane_records s) (pending_joins s) (chans s) (lanes s) v (failures s)
    (registered s) (sent s) (dropped s) (received s).
Definition add_failure e (s : Sup) : Sup :=
  Build_Sup (sub s) (lane_records s) (pending_joins s) (chans s) (lanes s) (handlers s)
    (failures s ++ [e]) (registered s) (sent s) (dropped s) (received s).
Definition note_registered j (s : Sup) : Sup :=
  Build_Sup (sub s) (lane_records s) (pending_joins s) (chans s) (lanes s) (handlers s) (failures s)
    ({[j]} ∪ registered s) (sent s) (dropped s) (received s).
Definition note_sent j t (s : Sup) : Sup :=
  Build_Sup (sub s) (lane_records s) (pending_joins s) (chans s) (lanes s) (handlers s) (failures s)
    (registered s) (<[j := t]> (sent s)) (dropped s) (received s).
Definition note_dropped j (s : Sup) : Sup :=
  Build_Sup (sub s) (lane_records s) (pending_joins s) (chans s) (lanes s) (handlers s) (failures s)
    (registered s) (sent s) ({[j]} ∪ dropped s) (received s).
Definition note_received j t (s : Sup) : Sup :=
  Build_Sup (sub s) (lane_records s) (pending_joins s) (chans s) (lanes s) (handlers s) (failures s)
    (registered s) (sent s) (dropped s) (<[j := t]> (received s)).

(** A new session. The supervisor of a stored session starts with the sub-agents of
    its record instead, which is not covered. *)
Definition new_session : Sup := Build_Sup empty_state ∅ ∅ ∅ ∅ [] [] ∅ ∅ ∅ ∅.

Definition effective_reasoning_effort (requested runtime_llm : option ReasoningEffort) : ReasoningEffort :=
  match requested, runtime_llm with
  | Some e, _ => e
  | None, Some e => e
  | None, None => EffortDefault
  end.

Section Supervisor.
Context (config : SubagentCoordinatorConfig).
(** The session: its id, the agent of its root lane, its roles and the effort of
    its model profile. *)
Context (session_id root_agent : str) (roles : gmap str Role) (llm_effort : option ReasoningEffort).

(** [root_turn] is the effort of the root turn that is running. *)
Definition lane_reasoning_effort (s : Sup) (parent : str) (root_turn : option ReasoningEffort) :
    ReasoningEffort :=
  let inherited :=
    if bool_decide (parent = root_agent) then root_turn
    else lane_records s !! parent ≫= lane_effort in
  default (effective_reasoning_effort None llm_effort) inherited.

Definition with_role (req : SpawnSubagentRequest) : SpawnSubagentRequest :=
  match spawn_role_id req ≫= (fun id => roles !! id) with
  | None => req
  | Some role =>
      {| spawn_session_id := spawn_session_id req; spawn_parent_agent_id := spawn_parent_agent_id req;
         spawn_description := if bool_decide (spawn_description req = []) then role_description role
                              else spawn_description req;
         task_goal := task_goal req; task_context := task_context req;
         spawn_output_schema := spawn_output_schema req; spawn_role_id := spawn_role_id req;
         predefined_prompt := role_prompt role; spawn_max_turns := role_max_turns role |}
  end.

Definition ensure_session_match (actual : str) : result unit SubagentControlError :=
  if bool_decide (session_id = actual) then Ok tt else Err (SessionMismatch session_id actual).

Definition spawn_subagent (req : SpawnSubagentRequest) (child : str) (now : Z)
    (root_turn : option ReasoningEffort) (s : Sup) : result str SubagentControlError * Sup :=
  match ensure_session_match (spawn_session_id req) with
  | Err e => (Err e, s)
  | Ok _ =>
      let req := with_role req in
      let '(r, st) := spawn config (sub s) req child now in
      match r with
      | Err e => (Err e, s)
      | Ok actions =>
          let record :=
            {| lane_parent_agent_id := Some (spawn_parent_agent_id req);
               lane_role_id := spawn_role_id req;
               lane_effort := Some (lane_reasoning_effort s (spawn_parent_agent_id req) root_turn);
               lane_last_error := None; lane_created_at_ms := now; lane_updated_at_ms := now |} in
          let s := set_lane_records (<[child := record]> (lane_records s)) (set_sub st s) in
          (Ok child, set_running_handlers (handlers s ++ [actions]) s)
      end
  end.

Definition join_subagent (req : JoinSubagentRequest) (jid : str) (now : Z) (s : Sup) :
    result JoinSubagentResult SubagentControlError * Sup :=
  match ensure_session_match (join_session_id req) with
  | Err e => (Err e, s)
  | Ok _ =>
      let '(r, st) := join_agent (sub s) req jid now in
      match r with
      | Err e => (Err e, s)
      | Ok (res, actions) => (Ok res, set_running_handlers (handlers s ++ [actions]) (set_sub st s))
      end
  end.

Definition mark_subagent_terminal (agent : str) (terminal : SubagentTerminalSnapshot)
    (last_error : option str) (s : Sup) : result unit SubagentControlError * Sup :=
  match lane_records s !! agent with
  | None => (Err (AgentNotFound agent), s)
  | Some r =>
      let r := {| lane_parent_agent_id := lane_parent_agent_id r; lane_role_id := lane_role_id r;
                  lane_effort := lane_effort r; lane_last_error := last_error;
                  lane_created_at_ms := lane_created_at_ms r;
                  lane_updated_at_ms := completed_at_ms terminal |} in
      let s := set_lane_records (<[agent := r]> (lane_records s)) s in
      let '(r, st) := on_terminal (sub s) agent terminal in
      match r with
      | Err e => (Err e, s)
      | Ok actions => (Ok tt, set_running_handlers (handlers s ++ [actions]) (set_sub st s))
      end
  end.

Definition register_pending_join (jid : str) (s : Sup) : result Sup SubagentControlError :=
  match pending_joins s !! jid with
  | Some _ => Err (InvalidState (lit "duplicate pending join registration: " ++ jid))
  | None =>
      Ok (note_registered jid
            (set_chans (<[jid := {| value := None; rx_open := true |}]> (chans s))
               (set_pending_joins (<[jid := {| sender := true; receiver := true |}]> (pending_joins s)) s)))
  end.

(** A send to a receiver that was dropped is only logged. *)
Definition send_value (t : SubagentTerminalSnapshot) (c : Chan) : Chan :=
  if rx_open c then {| value := Some t; rx_open := true |} else c.

Definition wake_waiter (jid : str) (terminal : SubagentTerminalSnapshot) (s : Sup) :
    result Sup SubagentControlError :=
  match pending_joins s !! jid with
  | None => Ok (note_dropped jid s)
  | Some w =>
      if sender w then
        Ok (note_sent jid terminal
              (set_chans (alter (send_value terminal) jid (chans s))
                 (set_pending_joins
                    (<[jid := {| sender := false; receiver := receiver w |}]> (pending_joins s)) s)))
      else Err (InvalidState (lit "pending join sender already consumed: " ++ jid))
  end.

(** One action of [apply_host_actions_internal]. *)
Definition apply_action (a : HostAction) (s : Sup) : result Sup SubagentControlError :=
  match a with
  | SpawnWorker agent _ _ _ _ _ => Ok (set_lanes ({[agent]} ∪ lanes s) s)
  | SuspendWaiter jid _ _ => register_pending_join jid s
  | WakeWaiter jid _ terminal => wake_waiter jid terminal s
  | EnqueueMailboxItem item => Ok (set_sub (push_mailbox item (sub s)) s)
  | RequestInteraction _ | DeliverInteractionResponse _ => Ok s
  end.

Inductive Label :=
| Spawn (req : SpawnSubagentRequest) (child : str) (now : Z) (root_turn : option ReasoningEffort)
| Join (req : JoinSubagentRequest) (jid : str) (now : Z)
| LaneEnds (agent : str) (terminal : SubagentTerminalSnapshot) (last_error : option str)
| Act (i : nat)
| TakeReceiver (jid : str)
| Receive (jid : str)
| DropReceiver (jid : str)
| RemoveJoin (jid : str).

(** One step. The ids of sub-agents and joins are generated, so they are new. An
    error ends the handler that meets it. *)
Definition fire (s : Sup) (l : Label) : option Sup :=
  match l with
  | Spawn req child now root_turn =>
      if bool_decide (is_Some (lane_records s !! child)) then None
      else Some (spawn_subagent req child now root_turn s).2
  | Join req jid now =>
      if bool_decide (is_Some (joins (sub s) !! jid)) then None else Some (join_subagent req jid now s).2
  | LaneEnds agent terminal last_error =>
      if bool_decide (agent ∈ lanes s) then
        Some (mark_subagent_terminal agent terminal last_error (set_lanes (lanes s ∖ {[agent]}) s)).2
      else None
  | Act i =>
      match handlers s !! i with
      | Some (a :: rest) =>
          Some match apply_action a s with
               | Ok s => set_running_handlers (<[i := rest]> (handlers s)) s
               | Err e => add_failure e (set_running_handlers (<[i := []]> (handlers s)) s)
               end
      | _ => None
      end
  | TakeReceiver jid =>
      match pending_joins s !! jid with
      | Some w =>
          if receiver w then
            Some (set_pending_joins (<[jid := {| sender := sender w; receiver := false |}]> (pending_joins s)) s)
          else None
      | None => None
      end
  | Receive jid =>
      match pending_joins s !! jid, chans s !! jid with
      | Some {| receiver := false |}, Some {| value := Some t; rx_open := true |} =>
          Some (note_received jid t (set_chans (<[jid := {| value := None; rx_open := false |}]> (chans s)) s))
      | _, _ => None
      end
  | DropReceiver jid =>
      match pending_joins s !! jid, chans s !! jid with
      | Some {| receiver := false |}, Some {| rx_open := true |} =>
          Some (set_chans (<[jid := {| value := None; rx_open := false |}]> (chans s)) s)
      | _, _ => None
      end
  | RemoveJoin jid =>
      match chans s !! jid with
      | Some {| rx_open := false |} => Some (set_pending_joins (delete jid (pending_joins s)) s)
      | _ => None
      end
  end.

Inductive reachable : Sup → Prop :=
| reach_new : reachable new_session
| reach_fire s l s' : reachable s → fire s l = Some s' → reachable s'.

(** ** Actions in flight *)

Definition acts (s : Sup) : list HostAction := concat (handlers s).

(** The terminals that wakes for [j] carry, the registrations of [j], and the
    starts of the lane of [a]. *)
Definition wake_terms (j : str) (l : list HostAction) : list SubagentTerminalSnapshot :=
  omap (fun a => match a with WakeWaiter j' _ t => if bool_decide (j' = j) then Some t else None | _ => None end) l.
Definition suspends (j : str) (l : list HostAction) : list unit :=
  omap (fun a => match a with SuspendWaiter j' _ _ => if bool_decide (j' = j) then Some tt else None | _ => None end) l.
Definition starts (x : str) (l : list HostAction) : list unit :=
  omap (fun a => match a with SpawnWorker x' _ _ _ _ _ => if bool_decide (x' = x) then Some tt else None | _ => None end) l.

Lemma concat_insert {A} (ls : list (list A)) i a rest :
  ls !! i = Some (a :: rest) → concat ls ≡ₚ a :: concat (<[i := rest]> ls).
Proof.
  revert i. induction ls as [|l ls IH]; intros [|i] Hi; simpl in *; [done|done| |].
  - by injection Hi as ->.
  - rewrite (IH i Hi). by rewrite Permutation_middle.
Qed.

(** An action leaves its handler. *)
Lemma act_taken {A} (f : HostAction → option A) (hs : list (list HostAction)) i a rest :
  hs !! i = Some (a :: rest) → omap f (concat hs) ≡ₚ omap f [a] ++ omap f (concat (<[i := rest]> hs)).
Proof. intros Hi. by rewrite <- omap_app, (concat_insert _ _ _ _ Hi). Qed.

Lemma act_new {A} (f : HostAction → option A) (hs : list (list HostAction)) l :
  omap f (concat (hs ++ [l])) = omap f (concat hs) ++ omap f l.
Proof. by rewrite concat_app, omap_app, concat_cons, concat_nil, app_nil_r. Qed.

(** In a list with distinct keys a key is found once. *)
Lemma omap_key {A B} (g : A → option B) (j : str) (l : list (str * A)) :
  NoDup l.*1 →
  omap (fun p => if bool_decide (p.1 = j) then g p.2 else None) l
  = option_list (list_to_map (M := gmap str A) l !! j ≫= g).
Proof.
  induction l as [|[k x] l IH]; [done|]. intros [Hk Hl]%NoDup_cons. csimpl. specialize (IH Hl).
  case_bool_decide as Hkj; csimpl.
  - subst. rewrite lookup_insert_eq, IH.
    assert (list_to_map (M := gmap str A) l !! j = None) as -> by by apply not_elem_of_list_to_map.
    simpl. by destruct (g x).
  - by rewrite lookup_insert_ne.
Qed.

Lemma omap_fmap_list {A B C} (f : B → option C) (g : A → B) (l : list A) :
  omap f (g <$> l) = omap (fun x => f (g x)) l.
Proof. induction l as [|x l IH]; [done|]. csimpl. by rewrite IH. Qed.

Lemma wake_terms_wakes j agent terminal js :
  wake_terms j (wakes_for agent terminal js) =
  match js !! j with Some jr => if waits_for agent jr then [terminal] else [] | None => [] end.
Proof.
  unfold wake_terms, wakes_for. rewrite omap_fmap_list.
  assert (∀ l1 l2 : list (str * JoinRecord), l1 ≡ₚ l2 → ∀ x, omap (fun p : str * JoinRecord => if bool_decide (p.1 = j) then Some terminal else None) l2 = option_list x →
    omap (fun p : str * JoinRecord => if bool_decide (p.1 = j) then Some terminal else None) l1 = option_list x) as Hperm.
  { intros l1 l2 Hp x Hx. assert (omap (fun p : str * JoinRecord => if bool_decide (p.1 = j) then Some terminal else None) l1 ≡ₚ option_list x) as H1.
    { by rewrite Hp, Hx. }
    destruct x; simpl in *; [by apply Permutation_singleton_r in H1|by apply Permutation_nil_r in H1]. }
  transitivity (option_list (js !! j ≫= (fun jr => if waits_for agent jr then Some terminal else None))).
  2:{ destruct (js !! j) as [jr|]; simpl; [|done]. by destruct (waits_for agent jr). }
  eapply Hperm; [apply merge_sort_Permutation|].
  rewrite <- (list_to_map_to_list js) at 2. rewrite <- omap_key by apply NoDup_fst_map_to_list.
  induction (map_to_list js) as [|[k jr] l IH]; [done|]. rewrite filter_cons.
  case_decide as Hw; simpl in Hw; csimpl; rewrite IH; [by rewrite Hw|].
  apply not_true_is_false in Hw. rewrite Hw. by destruct (bool_decide _).
Qed.

Lemma wakes_no_suspend j agent terminal js : suspends j (wakes_for agent terminal js) = [].
Proof. unfold suspends, wakes_for. rewrite omap_fmap_list. by induction (merge_sort _ _). Qed.
Lemma wakes_no_start x agent terminal js : starts x (wakes_for agent terminal js) = [].
Proof. unfold starts, wakes_for. rewrite omap_fmap_list. by induction (merge_sort _ _). Qed.

(** ** The invariant *)

(** Where the wake of a satisfied join is: in flight, sent, or come too early or
    too late. *)
Inductive wake_at (s : Sup) (j : str) (t : SubagentTerminalSnapshot) : Prop :=
| wake_in_flight : wake_terms j (acts s) = [t] → sent s !! j = None → j ∉ dropped s → wake_at s j t
| wake_sent : wake_terms j (acts s) = [] → sent s !! j = Some t → j ∉ dropped s → wake_at s j t
| wake_dropped : wake_terms j (acts s) = [] → sent s !! j = None → j ∈ dropped s → wake_at s j t.

Record join_ok (s : Sup) (j : str) (jr : JoinRecord) : Prop := {
  jo_pending : join_status jr = Pending →
    wake_terms j (acts s) = [] ∧ sent s !! j = None ∧ j ∉ dropped s;
  jo_satisfied : join_status jr = Satisfied →
    ∃ r t, agents (sub s) !! target_agent_id jr = Some r ∧ last_terminal r = Some t ∧ wake_at s j t;
  jo_suspend : suspends j (acts s) = [tt] ∧ j ∉ registered s ∧ pending_joins s !! j = None ∨
               suspends j (acts s) = [] ∧ j ∈ registered s;
}.

Record no_join (s : Sup) (j : str) : Prop := {
  nj_wake : wake_terms j (acts s) = [];
  nj_sent : sent s !! j = None;
  nj_dropped : j ∉ dropped s;
  nj_suspend : suspends j (acts s) = [];
  nj_registered : j ∉ registered s;
}.

Record sup_ok (s : Sup) : Prop := {
  su_sub : sub_ok config (sub s);
  su_failures : failures s = [];
  su_lane a : a ∈ lanes s → ∃ r, agents (sub s) !! a = Some r ∧ record_status r = Running;
  su_start a : starts a (acts s) = [] ∨
    starts a (acts s) = [tt] ∧ a ∉ lanes s ∧ ∃ r, agents (sub s) !! a = Some r ∧ record_status r = Running;
  su_records a : is_Some (agents (sub s) !! a) → is_Some (lane_records s !! a);
  su_join j jr : joins (sub s) !! j = Some jr → join_ok s j jr;
  su_no_join j : joins (sub s) !! j = None → no_join s j;
  su_table j w : pending_joins s !! j = Some w →
    j ∈ registered s ∧ (sender w = true ↔ sent s !! j = None) ∧
    ∃ c, chans s !! j = Some c ∧ (rx_open c = true → value c = sent s !! j);
  su_received j t : received s !! j = Some t → sent s !! j = Some t;
  su_sent j t : sent s !! j = Some t → j ∈ registered s;
}.

Lemma new_session_ok : sup_ok new_session.
Proof.
  constructor; [apply empty_ok|done|by intros ? ?%not_elem_of_empty|by left|by intros ? [? ?]
    |by intros| |by intros..]. intros j _. by constructor.
Qed.

(** ** Every step keeps it *)

Record same_join (s s' : Sup) (j : str) : Prop := {
  sj_wake : wake_terms j (acts s') = wake_terms j (acts s);
  sj_suspend : suspends j (acts s') = suspends j (acts s);
  sj_sent : sent s' !! j = sent s !! j;
  sj_dropped : j ∈ dropped s' ↔ j ∈ dropped s;
  sj_registered : j ∈ registered s' ↔ j ∈ registered s;
  sj_table : pending_joins s !! j = None → pending_joins s' !! j = None;
}.

Definition keeps_terminals (s s' : Sup) (a : str) : Prop :=
  ∀ r t, agents (sub s) !! a = Some r → last_terminal r = Some t →
    ∃ r', agents (sub s') !! a = Some r' ∧ last_terminal r' = Some t.

Lemma wake_at_same s s' j t : same_join s s' j → wake_at s j t → wake_at s' j t.
Proof.
  intros [W _ S D _ _] [Hw Hs Hd|Hw Hs Hd|Hw Hs Hd]; rewrite <- W in Hw; rewrite <- S in Hs; rewrite <- D in Hd.
  - by apply wake_in_flight.
  - by apply wake_sent.
  - by apply wake_dropped.
Qed.

Lemma join_ok_same s s' j jr :
  same_join s s' j → keeps_terminals s s' (target_agent_id jr) → join_ok s j jr → join_ok s' j jr.
Proof.
  intros Hsame Hk [P S U]. pose proof Hsame as [W Su Se D R T]. constructor.
  - rewrite W, Se, D. auto.
  - intros Hs. destruct (S Hs) as (r & t & Hr & Ht & Hw). destruct (Hk r t Hr Ht) as (r' & ? & ?).
    exists r', t. split_and!; [done..|]. by eapply wake_at_same.
  - rewrite Su, R. destruct U as [(? & ? & ?)|?]; [left; auto|by right].
Qed.

Lemma no_join_same s s' j : same_join s s' j → no_join s j → no_join s' j.
Proof. intros [W Su Se D R T] []. constructor; rewrite ?W, ?Su, ?Se, ?D, ?R; done. Qed.

Lemma same_join_refl s j : same_join s s j.
Proof. by constructor. Qed.

Lemma acts_running hs s : acts (set_running_handlers hs s) = concat hs.
Proof. done. Qed.

Lemma spawn_step_ok req child now turn s :
  sup_ok s → lane_records s !! child = None → sup_ok (spawn_subagent req child now turn s).2.
Proof.
  intros Hs Hnew. unfold spawn_subagent. destruct (ensure_session_match _); [|done].
  set (req' := with_role req). destruct (spawn config (sub s) req' child now) as [r st] eqn:E.
  destruct r as [actions|e]; [|done]. cbn [snd].
  pose proof (spawn_ok _ _ _ _ _ _ _ (su_sub _ Hs) E) as Hok.
  assert (agents (sub s) !! child = None) as Hnone.
  { apply eq_None_not_Some. intros Hc. apply (su_records _ Hs) in Hc. rewrite Hnew in Hc. by destruct Hc. }
  assert (∃ p d pr o m rec, actions = [SpawnWorker child p d pr o m] ∧ record_status rec = Running ∧
    st = set_agents (<[child := rec]> (agents (sub s))) (sub s)) as (p & d & pr & o & m & rec & -> & Hrun & ->).
  { unfold spawn in E. case_bool_decide; [done|]. destruct (_ <=? _); [done|]. case_bool_decide; [done|].
    injection E as <- <-. eexists _, _, _, _, _, _. split; [done|]. split; [|done]. done. }
  destruct Hs as [Hsub F L St Rc Jo Nj Ta Re Se].
  assert (∀ a r, agents (sub s) !! a = Some r → <[child := rec]> (agents (sub s)) !! a = Some r) as Hkeep.
  { intros a r Ha. rewrite lookup_insert_ne; [done|]. congruence. }
  set (s' := set_running_handlers _ _).
  assert (∀ j, same_join s s' j) as Hsame.
  { intros j. constructor; try done; unfold acts, wake_terms, suspends; simpl; rewrite act_new; apply app_nil_r. }
  constructor; [done|done| | | | | |done..].
  - intros a Ha. destruct (L a Ha) as (r & Hr & ?). exists r. split; [|done]. by apply Hkeep.
  - intros a. unfold starts, acts. simpl. rewrite act_new. simpl.
    destruct (St a) as [He|(He & Hl & r & Hr & Hrr)]; unfold starts, acts in He; rewrite He.
    + case_bool_decide as Hca; [|by left]. subst a. right. split; [done|]. split.
      * intros Hl. destruct (L _ Hl) as (r & Hr & _). congruence.
      * exists rec. simpl. by rewrite lookup_insert_eq.
    + rewrite bool_decide_eq_false_2 by congruence. right. split; [done|]. split; [done|].
      exists r. split; [|done]. by apply Hkeep.
  - intros a [r Ha]. simpl in *. apply lookup_insert_Some in Ha as [[<- _]|[Hne Ha]].
    + by rewrite lookup_insert_eq.
    + rewrite lookup_insert_ne by done. apply Rc. by eexists.
  - intros j jr Hj. eapply join_ok_same; [apply Hsame| |by apply Jo].
    intros r t Hr Ht. exists r. split; [|done]. by apply Hkeep.
  - intros j Hj. eapply no_join_same; [apply Hsame|by apply Nj].
Qed.

Lemma join_step_ok req jid now s :
  sup_ok s → joins (sub s) !! jid = None → sup_ok (join_subagent req jid now s).2.
Proof.
  intros Hs Hnew. unfold join_subagent. destruct (ensure_session_match _); [|done].
  destruct (join_agent (sub s) req jid now) as [r st] eqn:E. destruct r as [[res actions]|e]; [|done]. cbn [snd].
  pose proof (join_agent_ok config _ _ _ _ _ _ (su_sub _ Hs) Hnew E) as Hok.
  destruct Hs as [Hsub F L St Rc Jo Nj Ta Re Se].
  assert (st = sub s ∧ actions = [] ∨ ∃ jr, join_status jr = Pending ∧ st = set_joins (<[jid := jr]> (joins (sub s))) (sub s) ∧
    ∃ w t, actions = [SuspendWaiter jid w t]) as Hcase.
  { unfold join_agent in E. case_bool_decide; [done|]. destruct (agents (sub s) !! _); [|done].
    destruct (is_terminal _); [destruct (last_terminal _); [|done]; injection E as <- <- <-; by left|].
    injection E as <- <- <-. right. eexists. split; [|split; [done|eauto]]. done. }
  set (s' := set_running_handlers _ _).
  assert (∀ j, j ≠ jid → same_join s s' j) as Hsame.
  { intros j Hne. constructor; try done; unfold acts, wake_terms, suspends; simpl; rewrite act_new;
      destruct Hcase as [[_ ->]|(? & _ & _ & ? & ? & ->)]; simpl; rewrite ?bool_decide_eq_false_2 by done; apply app_nil_r. }
  assert (agents st = agents (sub s)) as Hag by (destruct Hcase as [[-> _]|(? & _ & -> & _)]; done).
  assert (∀ a, starts a (acts s') = starts a (acts s)) as Hst.
  { intros a. unfold acts, starts. simpl. rewrite act_new.
    destruct Hcase as [[_ ->]|(? & _ & _ & ? & ? & ->)]; apply app_nil_r. }
  constructor; [done|done| | | | | |done..].
  - intros a Ha. simpl. rewrite Hag. by apply L.
  - intros a. rewrite Hst. simpl. rewrite Hag. apply St.
  - intros a. simpl. rewrite Hag. apply Rc.
  - intros j jr Hj. destruct (decide (j = jid)) as [->|Hne].
    + destruct Hcase as [[-> _]|(jr0 & Hp & -> & w & t & ->)]; [simpl in Hj; congruence|].
      simpl in Hj. rewrite lookup_insert_eq in Hj. injection Hj as <-. destruct (Nj jid Hnew) as [W S D U R].
      constructor.
      * intros _. split_and!; [|done|done]. unfold wake_terms, acts. simpl. rewrite act_new. simpl.
        unfold wake_terms, acts in W. by rewrite W.
      * congruence.
      * left. split_and!; [|done|].
        -- unfold suspends, acts. simpl. rewrite act_new. simpl. rewrite bool_decide_eq_true_2 by done.
           unfold suspends, acts in U. by rewrite U.
        -- simpl. destruct (pending_joins s !! jid) as [w0|] eqn:Ew; [|done]. by apply Ta in Ew as [? _].
    + eapply join_ok_same; [by apply Hsame| |].
      * intros r t Hr Ht. exists r. split; [|done]. simpl. by rewrite Hag.
      * apply Jo. destruct Hcase as [[-> _]|(jr0 & _ & -> & _)]; [done|]. simpl in Hj.
        by rewrite lookup_insert_ne in Hj.
  - intros j Hj. assert (j ≠ jid ∨ st = sub s ∧ actions = []) as Hne.
    { destruct Hcase as [?|(jr0 & _ & -> & _)]; [by right|]. left. intros ->. simpl in Hj.
      by rewrite lookup_insert_eq in Hj. }
    assert (joins (sub s) !! j = None) as Hj0.
    { destruct Hcase as [[-> _]|(jr0 & _ & -> & _)]; [done|]. simpl in Hj.
      by apply lookup_insert_None in Hj as [? _]. }
    eapply no_join_same; [|by apply Nj]. destruct Hne as [?|[_ ->]]; [by apply Hsame|].
    constructor; try done; unfold acts, wake_terms, suspends; simpl; rewrite act_new; apply app_nil_r.
Qed.

Lemma lane_ends_ok agent terminal last_error s :
  sup_ok s → agent ∈ lanes s →
  sup_ok (mark_subagent_terminal agent terminal last_error (set_lanes (lanes s ∖ {[agent]}) s)).2.
Proof.
  intros [Hsub F L St Rc Jo Nj Ta Re Se] Hin. destruct (L agent Hin) as (rec & Hrec & Hrun).
  destruct (Rc agent) as [lr Hlr]; [by eexists|].
  unfold mark_subagent_terminal. simpl. rewrite Hlr.
  destruct (on_terminal (sub s) agent terminal) as [r st] eqn:E.
  pose proof (on_terminal_ok config _ _ _ _ _ Hsub E) as Hok.
  unfold on_terminal in E. rewrite Hrec in E. injection E as <- <-. cbn [snd].
  set (item := {| item_agent_id := agent |}). set (s' := set_running_handlers _ _).
  assert (∀ j, wake_terms j (acts s') = wake_terms j (acts s) ++ wake_terms j (wakes_for agent terminal (joins (sub s)))) as Hw.
  { intros j. exact (act_new _ _ _). }
  assert (∀ j, suspends j (acts s') = suspends j (acts s)) as Hsu.
  { intros j. transitivity (suspends j (acts s) ++ suspends j (wakes_for agent terminal (joins (sub s))));
      [exact (act_new _ _ _)|]. rewrite wakes_no_suspend. apply app_nil_r. }
  assert (∀ a, starts a (acts s') = starts a (acts s)) as Hst.
  { intros a. transitivity (starts a (acts s) ++ starts a (wakes_for agent terminal (joins (sub s))));
      [exact (act_new _ _ _)|]. rewrite wakes_no_start. apply app_nil_r. }
  assert (∀ a r, a ≠ agent → agents (sub s) !! a = Some r →
    <[agent := finish_record terminal rec]> (agents (sub s)) !! a = Some r) as Hkeep.
  { intros a r Hne Ha. by rewrite lookup_insert_ne. }
  constructor; [done|done| | | | | |done..].
  - intros a Ha. simpl in Ha. apply elem_of_difference in Ha as [Ha Hna%not_elem_of_singleton].
    destruct (L a Ha) as (r & Hr & ?). exists r. split; [|done]. by apply Hkeep.
  - intros a. rewrite Hst. destruct (St a) as [?|(? & Hl & r & Hr & ?)]; [by left|]. right.
    split; [done|]. split; [simpl; set_solver|]. exists r. split; [|done]. apply Hkeep; [|done]. congruence.
  - intros a [r Ha]. simpl in *. apply lookup_insert_Some in Ha as [[<- _]|[Hne Ha]].
    + by rewrite lookup_insert_eq.
    + rewrite lookup_insert_ne by done. apply Rc. by eexists.
  - intros j jr Hj. simpl in Hj. apply lookup_fmap_Some in Hj as (jr0 & <- & Hj).
    pose proof (Jo j jr0 Hj) as Hj0. unfold satisfy. destruct (waits_for agent jr0) eqn:Hwf.
    + pose proof Hwf as Hwf'. unfold waits_for in Hwf'. apply andb_true_iff in Hwf' as [Ht Hp].
      apply bool_decide_eq_true in Ht, Hp. destruct Hj0 as [P _ U]. destruct (P Hp) as (W & Sn & Dn).
      constructor; simpl; [done| |].
      * intros _. rewrite Ht. exists (finish_record terminal rec), terminal. rewrite lookup_insert_eq.
        split_and!; [done|done|]. apply wake_in_flight; [|done|done].
        rewrite Hw, W, wake_terms_wakes, Hj, Hwf. done.
      * rewrite Hsu. exact U.
    + eapply join_ok_same; [|  |exact Hj0].
      * constructor; try done. rewrite Hw, wake_terms_wakes, Hj, Hwf. apply app_nil_r.
      * intros r t Hr Ht. destruct (decide (target_agent_id jr0 = agent)) as [Heq|Hne].
        -- rewrite Heq, Hrec in Hr. injection Hr as <-.
           pose proof (so_terminal _ _ Hsub _ _ Hrec) as Hb. rewrite Hrun, Ht in Hb. done.
        -- exists r. split; [|done]. simpl. by apply Hkeep.
  - intros j Hj. simpl in Hj. rewrite lookup_fmap, fmap_None in Hj. eapply no_join_same; [|by apply Nj].
    constructor; try done. rewrite Hw, wake_terms_wakes, Hj. apply app_nil_r.
Qed.

Lemma perm_one {A} (x : A) l l' : [x] ≡ₚ l ++ l' → l = [x] ∧ l' = [] ∨ l = [] ∧ l' = [x].
Proof.
  intros H%symmetry%Permutation_singleton_r. destruct l as [|y [|]]; simpl in *; [by right| |done].
  injection H as -> ->. by left.
Qed.

(** The tokens of other joins and lanes do not move with an action. *)
Lemma token_same {A} (f : HostAction → option A) (hs : list (list HostAction)) i a rest :
  hs !! i = Some (a :: rest) → omap f [a] = [] →
  (omap f (concat hs) = [] ∨ ∃ x, omap f (concat hs) = [x]) →
  omap f (concat (<[i := rest]> hs)) = omap f (concat hs).
Proof.
  intros Hi Hf Hone. pose proof (act_taken f _ _ _ _ Hi) as Hp. rewrite Hf in Hp. simpl in Hp.
  destruct Hone as [He|[x He]]; rewrite He in Hp |- *.
  - by apply symmetry, Permutation_nil_r in Hp.
  - by apply symmetry, Permutation_singleton_r in Hp.
Qed.
(** An action is the only token of its kind. *)
Lemma token_used {A} (f : HostAction → option A) (hs : list (list HostAction)) i a rest x :
  hs !! i = Some (a :: rest) → omap f [a] = [x] → (∀ y, omap f (concat hs) = [y] → y = x ∧ omap f (concat (<[i := rest]> hs)) = [])
  ∧ omap f (concat hs) ≠ [].
Proof.
  intros Hi Hf. pose proof (act_taken f _ _ _ _ Hi) as Hp. rewrite Hf in Hp. split.
  - intros y Hy. rewrite Hy in Hp. apply perm_one in Hp as [[[= ->] ->]|[? _]]; done.
  - intros He. rewrite He in Hp. by apply Permutation_nil_l in Hp.
Qed.

Lemma join_tokens s j jr : join_ok s j jr →
  (wake_terms j (acts s) = [] ∨ ∃ t, wake_terms j (acts s) = [t]) ∧
  (suspends j (acts s) = [] ∨ ∃ t, suspends j (acts s) = [t]).
Proof.
  intros [P S U]. split.
  - destruct (join_status jr); [left; by apply P|]. destruct S as (r & t & _ & _ & []); eauto.
  - destruct U as [[? _]|[? _]]; eauto.
Qed.

Lemma all_tokens s j : sup_ok s →
  (wake_terms j (acts s) = [] ∨ ∃ t, wake_terms j (acts s) = [t]) ∧
  (suspends j (acts s) = [] ∨ ∃ t, suspends j (acts s) = [t]).
Proof.
  intros Hs. destruct (joins (sub s) !! j) as [jr|] eqn:E.
  - eapply join_tokens. by apply Hs.
  - destruct (su_no_join _ Hs j E). auto.
Qed.

Lemma start_tokens s a : sup_ok s → starts a (acts s) = [] ∨ ∃ t, starts a (acts s) = [t].
Proof. intros Hs. destruct (su_start _ Hs a) as [?|[? _]]; eauto. Qed.

(** The action is done and its handler goes on. *)
Definition went_on (i : nat) (rest : list HostAction) (s : Sup) : Sup :=
  set_running_handlers (<[i := rest]> (handlers s)) s.

Lemma spawn_worker_ok s i agent p d pr o m rest :
  sup_ok s → handlers s !! i = Some (SpawnWorker agent p d pr o m :: rest) →
  sup_ok (went_on i rest (set_lanes ({[agent]} ∪ lanes s) s)).
Proof.
  intros Hs Hi. set (s' := went_on _ _ _).
  assert (∀ j, same_join s s' j) as Hsame.
  { intros j. destruct (all_tokens s j Hs). constructor; try done; by eapply token_same. }
  destruct (token_used (fun a => match a with SpawnWorker x' _ _ _ _ _ => if bool_decide (x' = agent) then Some tt else None | _ => None end) _ _ _ _ tt Hi) as [Hone Hnz];
    [simpl; by rewrite bool_decide_eq_true_2|].
  destruct (su_start _ Hs agent) as [He|(He & Hl & r & Hr & Hrun)]; [done|].
  destruct (Hone tt He) as [_ Hnone].
  pose proof (fun a => start_tokens s a Hs) as Hst.
  destruct Hs as [Hsub F L St Rc Jo Nj Ta Re Se]. constructor; [done|done| |  |done| | |done..].
  - intros a Ha. simpl in Ha. apply elem_of_union in Ha as [->%elem_of_singleton|Ha]; [by exists r|by apply L].
  - intros a. destruct (decide (a = agent)) as [->|Hne]; [by left|].
    assert (starts a (acts s') = starts a (acts s)) as ->.
    { eapply token_same; [exact Hi| |apply Hst]. simpl. by rewrite bool_decide_eq_false_2. }
    destruct (St a) as [?|(? & Hla & ?)]; [by left|]. right. split; [done|]. split; [|done]. simpl.
    rewrite elem_of_union, elem_of_singleton. tauto.
  - intros j jr Hj. eapply join_ok_same; [apply Hsame| |by apply Jo]. intros r0 t ? ?. eauto.
  - intros j Hj. eapply no_join_same; [apply Hsame|by apply Nj].
Qed.

(** The parts of the invariant that an action on one join does not touch. *)
Lemma rest_ok s s' j :
  sup_ok s → (∀ k, k ≠ j → same_join s s' k) → agents (sub s') = agents (sub s) → joins (sub s') = joins (sub s) →
  (∀ k jr, k ≠ j → joins (sub s') !! k = Some jr → join_ok s' k jr) ∧
  (∀ k, k ≠ j → joins (sub s') !! k = None → no_join s' k).
Proof.
  intros Hs Hsame Ha Hj. rewrite Hj. split; intros k.
  - intros jr Hne Hk. eapply join_ok_same; [by apply Hsame| |by apply Hs].
    intros r t Hr Ht. exists r. by rewrite Ha.
  - intros Hne Hk. eapply no_join_same; [by apply Hsame|by apply Hs].
Qed.

Lemma starts_same s i a rest x :
  sup_ok s → handlers s !! i = Some (a :: rest) → starts x [a] = [] →
  starts x (concat (<[i := rest]> (handlers s))) = starts x (acts s).
Proof. intros Hs Hi Ha. eapply token_same; [done|done|by apply start_tokens]. Qed.

Lemma register_ok s i j w t rest :
  sup_ok s → handlers s !! i = Some (SuspendWaiter j w t :: rest) →
  ∃ s1, register_pending_join j s = Ok s1 ∧ sup_ok (went_on i rest s1).
Proof.
  intros Hs Hi.
  destruct (token_used (fun a => match a with SuspendWaiter j' _ _ => if bool_decide (j' = j) then Some tt else None | _ => None end) _ _ _ _ tt Hi) as [Hone Hnz];
    [simpl; by rewrite bool_decide_eq_true_2|].
  destruct (joins (sub s) !! j) as [jr|] eqn:Ej; [|by destruct (su_no_join _ Hs j Ej)].
  pose proof (su_join _ Hs j jr Ej) as [P S U].
  destruct U as [(Hsu & Hnr & Hnp)|[Hsu _]]; [|done]. destruct (Hone tt Hsu) as [_ Hnone].
  unfold register_pending_join. rewrite Hnp. eexists. split; [done|]. set (s' := went_on _ _ _).
  assert (∀ k, k ≠ j → same_join s s' k) as Hsame.
  { intros k Hne. destruct (all_tokens s k Hs). constructor; try done.
    - by eapply token_same.
    - eapply token_same; [done| |done]. simpl. by rewrite bool_decide_eq_false_2.
    - simpl. rewrite elem_of_union, elem_of_singleton. tauto.
    - simpl. by rewrite lookup_insert_ne. }
  destruct (rest_ok s s' j Hs Hsame eq_refl eq_refl) as [Hjo Hnj].
  assert (sent s !! j = None) as Hns.
  { destruct (sent s !! j) eqn:E; [|done]. by apply (su_sent _ Hs) in E. }
  assert (wake_terms j (acts s') = wake_terms j (acts s)) as Hw.
  { destruct (all_tokens s j Hs). by eapply token_same. }
  pose proof (fun x => starts_same s i _ rest x Hs Hi eq_refl) as Hst.
  destruct Hs as [Hsub F L St Rc Jo Nj Ta Re Se]. constructor; [done|done|done| |done| | | |done|].
  - intros x. unfold acts at 1 2, s'. simpl. rewrite Hst. apply St.
  - intros k jr0 Hk. destruct (decide (k = j)) as [->|Hne]; [|by apply Hjo].
    simpl in Hk. rewrite Ej in Hk. injection Hk as <-. constructor.
    + rewrite Hw. apply P.
    + intros Hsat. destruct (S Hsat) as (r & t0 & ? & ? & Hat). exists r, t0. split_and!; [done|done|].
      destruct Hat as [W0 S0 D0|W0 S0 D0|W0 S0 D0]; rewrite <- Hw in W0;
        [by apply wake_in_flight|by apply wake_sent|by apply wake_dropped].
    + right. split; [done|]. simpl. rewrite elem_of_union, elem_of_singleton. by left.
  - intros k Hk. destruct (decide (k = j)) as [->|Hne]; [simpl in Hk; congruence|by apply Hnj].
  - intros k w0 Hk. simpl in *. apply lookup_insert_Some in Hk as [[<- <-]|[Hne Hk]].
    + split; [set_solver|]. split; [done|]. rewrite lookup_insert_eq. eexists. split; [done|]. done.
    + destruct (Ta k w0 Hk) as (? & ? & c & ? & ?). split; [set_solver|]. split; [done|].
      rewrite lookup_insert_ne by done. eauto.
  - intros k t0 Hk. simpl in *. apply Se in Hk. set_solver.
Qed.

Lemma wake_ok s i j w t rest :
  sup_ok s → handlers s !! i = Some (WakeWaiter j w t :: rest) →
  ∃ s1, wake_waiter j t s = Ok s1 ∧ sup_ok (went_on i rest s1).
Proof.
  intros Hs Hi.
  destruct (token_used (fun a => match a with WakeWaiter j' _ t => if bool_decide (j' = j) then Some t else None | _ => None end) _ _ _ _ t Hi) as [Hone Hnz];
    [simpl; by rewrite bool_decide_eq_true_2|].
  destruct (joins (sub s) !! j) as [jr|] eqn:Ej; [|by destruct (su_no_join _ Hs j Ej)].
  pose proof (su_join _ Hs j jr Ej) as [P S U].
  destruct (join_status jr) eqn:Estatus; [by destruct P|].
  destruct (S eq_refl) as (r & t0 & Hr & Ht & Hat). destruct Hat as [W0 S0 D0|W0 S0 D0|W0 S0 D0]; [|done..].
  destruct (Hone t0 W0) as [-> Hnone].
  assert (suspends j (concat (<[i := rest]> (handlers s))) = suspends j (acts s)) as Hsu.
  { destruct (all_tokens s j Hs). by eapply token_same. }
  pose proof (fun x => starts_same s i _ rest x Hs Hi eq_refl) as Hst.
  assert (∀ k s', k ≠ j → acts s' = concat (<[i := rest]> (handlers s)) →
    sent s' !! k = sent s !! k → (k ∈ dropped s' ↔ k ∈ dropped s) → registered s' = registered s →
    (pending_joins s !! k = None → pending_joins s' !! k = None) → same_join s s' k) as Hsame.
  { intros k s' Hne Ha ? ? Hr' ?. destruct (all_tokens s k Hs). constructor; try done; try (by rewrite Hr');
      rewrite Ha; (eapply token_same; [done| |done]); simpl; by rewrite ?bool_decide_eq_false_2. }
  unfold wake_waiter. destruct (pending_joins s !! j) as [w0|] eqn:Ep.
  - destruct (su_table _ Hs j w0 Ep) as (Hreg & [_ Hsend] & c & Hc & Hval). rewrite (Hsend S0).
    eexists. split; [done|]. set (s' := went_on _ _ _).
    destruct (rest_ok s s' j Hs) as [Hjo Hnj]; [|done|done|].
    { intros k Hne. apply Hsame; try done; simpl; by rewrite lookup_insert_ne. }
    destruct Hs as [Hsub F L St Rc Jo Nj Ta Re Se]. constructor; [done|done|done| |done| | | | |].
    + intros x. unfold acts at 1 2, s'. simpl. rewrite Hst. apply St.
    + intros k jr0 Hk. destruct (decide (k = j)) as [->|Hne]; [|by apply Hjo].
      simpl in Hk. rewrite Ej in Hk. injection Hk as <-. constructor; [congruence| |].
      * intros _. exists r, t. split_and!; [done|done|]. apply wake_sent; [done| |done]. simpl. by rewrite lookup_insert_eq.
      * unfold acts, s'. simpl. rewrite Hsu. right. by destruct U as [(? & ? & ?)|?]; [congruence|].
    + intros k Hk. destruct (decide (k = j)) as [->|Hne]; [simpl in Hk; congruence|by apply Hnj].
    + intros k w1 Hk. simpl in *. apply lookup_insert_Some in Hk as [[<- <-]|[Hne Hk]].
      * split; [done|]. split; [rewrite lookup_insert_eq; simpl; split; done|].
        rewrite lookup_alter_eq, Hc, lookup_insert_eq. eexists. split; [done|]. unfold send_value.
        destruct (rx_open c) eqn:Eo; simpl; congruence.
      * destruct (Ta k w1 Hk) as (? & ? & c1 & ? & ?). split; [done|].
        rewrite lookup_insert_ne, lookup_alter_ne by done. eauto.
    + intros k t1 Hk. simpl in *. destruct (decide (k = j)) as [->|Hne]; [|rewrite lookup_insert_ne by done; auto].
      apply Re in Hk. congruence.
    + intros k t1 Hk. simpl in *. apply lookup_insert_Some in Hk as [[<- <-]|[Hne Hk]]; [done|by eapply Se].
  - eexists. split; [done|]. set (s' := went_on _ _ _).
    destruct (rest_ok s s' j Hs) as [Hjo Hnj]; [|done|done|].
    { intros k Hne. apply Hsame; try done. simpl. rewrite elem_of_union, elem_of_singleton. tauto. }
    destruct Hs as [Hsub F L St Rc Jo Nj Ta Re Se]. constructor; [done|done|done| |done| | |done..].
    + intros x. unfold acts at 1 2, s'. simpl. rewrite Hst. apply St.
    + intros k jr0 Hk. destruct (decide (k = j)) as [->|Hne]; [|by apply Hjo].
      simpl in Hk. rewrite Ej in Hk. injection Hk as <-. constructor; [congruence| |].
      * intros _. exists r, t. split_and!; [done|done|]. apply wake_dropped; [done|done|]. simpl. set_solver.
      * unfold acts, s'. simpl. rewrite Hsu, Ep. exact U.
    + intros k Hk. destruct (decide (k = j)) as [->|Hne]; [simpl in Hk; congruence|by apply Hnj].
Qed.

(** An action that touches neither joins nor lanes. *)
Lemma quiet_act_ok s s1 i a rest :
  sup_ok s → handlers s !! i = Some (a :: rest) →
  (∀ x, wake_terms x [a] = [] ∧ suspends x [a] = [] ∧ starts x [a] = []) →
  s1 = s ∨ (∃ item, s1 = set_sub (push_mailbox item (sub s)) s) → sup_ok (went_on i rest s1).
Proof.
  intros Hs Hi Ha Hcase.
  assert (∀ j, same_join s (went_on i rest s) j) as Hsame.
  { intros j. destruct (all_tokens s j Hs), (Ha j) as (? & ? & ?). constructor; try done; by eapply token_same. }
  assert (sup_ok (went_on i rest s)) as H1.
  { pose proof (fun x => starts_same s i _ rest x Hs Hi (proj2 (proj2 (Ha x)))) as Hst.
    destruct Hs as [Hsub F L St Rc Jo Nj Ta Re Se]. constructor; [done|done|done| |done| | |done..].
    - intros x. unfold acts at 1 2, went_on. simpl. rewrite Hst. apply St.
    - intros j jr Hj. eapply join_ok_same; [apply Hsame| |by apply Jo]. intros r t ? ?. eauto.
    - intros j Hj. eapply no_join_same; [apply Hsame|by apply Nj]. }
  destruct Hcase as [->|[item ->]]; [done|]. destruct H1 as [[Q T Pe Sa] F L St Rc Jo Nj Ta Re Se].
  constructor; [by constructor|done|done|done|done| | |done..].
  - intros j jr Hj. eapply (join_ok_same (went_on i rest s)); [by constructor| |by apply Jo]. intros r t ? ?. eauto.
  - intros j Hj. eapply (no_join_same (went_on i rest s)); [by constructor|by apply Nj].
Qed.

(** ** The waiter's side *)

(** A step that only touches one entry of the table and its channel. *)
Lemma table_step_ok s s' j :
  sup_ok s → sub s' = sub s → lane_records s' = lane_records s → lanes s' = lanes s →
  handlers s' = handlers s → failures s' = failures s → registered s' = registered s →
  sent s' = sent s → dropped s' = dropped s →
  (∀ k, pending_joins s !! k = None → pending_joins s' !! k = None) →
  (∀ k, k ≠ j → pending_joins s' !! k = pending_joins s !! k ∧ chans s' !! k = chans s !! k) →
  (∀ w, pending_joins s' !! j = Some w →
     (∃ w0, pending_joins s !! j = Some w0 ∧ sender w0 = sender w) ∧
     ∃ c, chans s' !! j = Some c ∧ (rx_open c = true → value c = sent s !! j)) →
  (∀ k t, received s' !! k = Some t → sent s !! k = Some t) →
  sup_ok s'.
Proof.
  intros [Hsub F L St Rc Jo Nj Ta Re Se] E1 E2 E3 E4 E5 E6 E7 E8 Hnone Hother Hj Hrec.
  assert (acts s' = acts s) as Ea by (unfold acts; by rewrite E4).
  assert (∀ k, same_join s s' k) as Hsame.
  { intros k. constructor; rewrite ?Ea, ?E6, ?E7, ?E8; try done. apply Hnone. }
  constructor; rewrite ?E1, ?E2, ?E3, ?E5, ?E6, ?E7, ?Ea; try done.
  - intros k jr Hk. eapply join_ok_same; [apply Hsame| |by apply Jo]. intros r t ? ?. rewrite E1. eauto.
  - intros k Hk. eapply no_join_same; [apply Hsame|by apply Nj].
  - intros k w Hw. destruct (decide (k = j)) as [->|Hne].
    + destruct (Hj w Hw) as [(w0 & Hw0 & <-) Hc]. destruct (Ta j w0 Hw0) as (? & ? & _). auto.
    + destruct (Hother k Hne) as [Hp Hc]. rewrite Hp in Hw. rewrite Hc. by apply Ta.
Qed.

Lemma take_ok s j w :
  sup_ok s → pending_joins s !! j = Some w →
  sup_ok (set_pending_joins (<[j := {| sender := sender w; receiver := false |}]> (pending_joins s)) s).
Proof.
  intros Hs Hw. eapply (table_step_ok s _ j); try done; simpl.
  - intros k Hk. rewrite lookup_insert_ne; congruence.
  - intros k Hne. by rewrite lookup_insert_ne.
  - intros w0. rewrite lookup_insert_eq. intros [= <-]. split; [by exists w|]. by destruct (su_table _ Hs j w Hw) as (_ & _ & ?).
  - apply Hs.
Qed.

Lemma close_rx_ok s j v :
  sup_ok s → sup_ok (set_chans (<[j := {| value := v; rx_open := false |}]> (chans s)) s).
Proof.
  intros Hs. eapply (table_step_ok s _ j); try done; simpl.
  - intros k Hne. by rewrite lookup_insert_ne.
  - intros w Hw. split; [eauto|]. rewrite lookup_insert_eq. eexists. split; [done|]. done.
  - apply Hs.
Qed.

Lemma receive_ok s j t :
  sup_ok s → sent s !! j = Some t → sup_ok (note_received j t s).
Proof.
  intros Hs Hsent. eapply (table_step_ok s _ j); try done; simpl.
  - intros w Hw. split; [eauto|]. by destruct (su_table _ Hs j w Hw) as (_ & _ & ?).
  - intros k t0 Hk. apply lookup_insert_Some in Hk as [[<- <-]|[_ Hk]]; [done|by apply Hs].
Qed.

Lemma remove_ok s j : sup_ok s → sup_ok (set_pending_joins (delete j (pending_joins s)) s).
Proof.
  intros Hs. eapply (table_step_ok s _ j); try done; simpl.
  - intros k Hk. apply lookup_delete_None. by right.
  - intros k Hne. by rewrite lookup_delete_ne.
  - intros w. by rewrite lookup_delete_eq.
  - apply Hs.
Qed.

(** ** Every reachable state *)

Lemma act_ok s i a rest :
  sup_ok s → handlers s !! i = Some (a :: rest) →
  ∃ s1, apply_action a s = Ok s1 ∧ sup_ok (went_on i rest s1).
Proof.
  intros Hs Hi. destruct a; simpl.
  - eexists. split; [done|]. by eapply spawn_worker_ok.
  - by eapply register_ok.
  - by eapply wake_ok.
  - eexists. split; [done|]. eapply quiet_act_ok; [done|done|done|]. right. eauto.
  - eexists. split; [done|]. eapply quiet_act_ok; [done|done|done|]. by left.
  - eexists. split; [done|]. eapply quiet_act_ok; [done|done|done|]. by left.
Qed.

Lemma sup_fire_ok s l s' : sup_ok s → fire s l = Some s' → sup_ok s'.
Proof.
  intros Hs. destruct l as [req child now turn|req jid now|agent terminal err|i|j|j|j|j]; simpl.
  - case_bool_decide as Hc; [done|]. intros [= <-]. apply spawn_step_ok; [done|]. by apply eq_None_not_Some.
  - case_bool_decide as Hc; [done|]. intros [= <-]. apply join_step_ok; [done|]. by apply eq_None_not_Some.
  - case_bool_decide; [|done]. intros [= <-]. by apply lane_ends_ok.
  - destruct (handlers s !! i) as [[|a rest]|] eqn:Hi; [done| |done].
    destruct (act_ok s i a rest Hs Hi) as (s1 & -> & Hok). by intros [= <-].
  - destruct (pending_joins s !! j) as [w|] eqn:Hw; [|done]. destruct (receiver w); [|done].
    intros [= <-]. by apply take_ok.
  - destruct (pending_joins s !! j) as [[sd [|]]|] eqn:Hw; [done| |done].
    destruct (chans s !! j) as [[[t|] [|]]|] eqn:Hc; try done. intros [= <-].
    apply receive_ok; [by apply close_rx_ok|]. simpl.
    destruct (su_table _ Hs j _ Hw) as (_ & _ & c & Hc' & Hv). rewrite Hc in Hc'. injection Hc' as <-.
    symmetry. by apply Hv.
  - destruct (pending_joins s !! j) as [[sd [|]]|] eqn:Hw; [done| |done].
    destruct (chans s !! j) as [[v [|]]|] eqn:Hc; try done. intros [= <-]. by apply close_rx_ok.
  - destruct (chans s !! j) as [[v [|]]|] eqn:Hc; try done. intros [= <-]. by apply remove_ok.
Qed.

Lemma sup_reachable_ok s : reachable s → sup_ok s.
Proof. induction 1; [apply new_session_ok|by eapply sup_fire_ok]. Qed.
End Supervisor.
