(* ===== verification/SubagentJoins.v ===== *)
(** * Delivery of joins

    What a lane that waits for a sub-agent gets: the delivery of every wake that
    finds its waiter registered, and the wakes that find nobody. *)

From S2P Require Import Prelude RStr Message Subagent SubagentRun.

Section Delivery.
Context (config : SubagentCoordinatorConfig).
Context (session_id root_agent : str) (roles : gmap str Role) (llm_effort : option ReasoningEffort).

Abbreviation fire := (SubagentRun.fire config session_id root_agent roles llm_effort).
Abbreviation reachable := (SubagentRun.reachable config session_id root_agent roles llm_effort).
Abbreviation sup_ok := (SubagentRun.sup_ok config).

Fixpoint fires (s : Sup) (ls : list Label) : option Sup :=
  match ls with
  | [] => Some s
  | l :: ls => match fire s l with Some s => fires s ls | None => None end
  end.

Lemma fires_app s ls ls' : fires s (ls ++ ls') = fires s ls ≫= (fun s1 => fires s1 ls').
Proof. revert s. induction ls as [|l ls IH]; intros s; simpl; [done|]. by destruct (fire s l). Qed.

Lemma fires_reachable s ls s' : reachable s → fires s ls = Some s' → reachable s'.
Proof.
  revert s. induction ls as [|l ls IH]; intros s Hs; simpl; [by intros [= <-]|].
  destruct (fire s l) eqn:E; [|done]. apply IH. by econstructor.
Qed.

Lemma fires_ok s ls s' : sup_ok s → fires s ls = Some s' → sup_ok s'.
Proof.
  revert s. induction ls as [|l ls IH]; intros s Hs; simpl; [by intros [= <-]|].
  destruct (fire s l) eqn:E; [|done]. apply IH. by eapply sup_fire_ok.
Qed.

(** The waiter of [j] is registered and its receiver is there. *)
Definition listening (s : Sup) (j : str) : Prop :=
  ∃ w c, pending_joins s !! j = Some w ∧ chans s !! j = Some c ∧ rx_open c = true.

(** ** What a step keeps *)

Lemma apply_frame s a s1 j :
  apply_action a s = Ok s1 → listening s j →
  listening s1 j ∧ (j ∈ dropped s1 → j ∈ dropped s) ∧ received s1 = received s.
Proof.
  intros Ha (w & c & Hw & Hc & Ho).
  destruct a as [| k | k ? t | | |]; simpl in Ha; try (injection Ha as <-; split_and!; [by exists w, c|done|done]).
  - unfold register_pending_join in Ha. destruct (pending_joins s !! k) eqn:Ek; [done|]. injection Ha as <-.
    split_and!; [|done|done]. exists w, c. simpl. rewrite !lookup_insert_ne by congruence. done.
  - unfold wake_waiter in Ha. destruct (pending_joins s !! k) as [w0|] eqn:Ek.
    + destruct (sender w0); [|done]. injection Ha as <-. split_and!; [|done|done]. unfold listening. simpl.
      destruct (decide (k = j)) as [->|Hne].
      * rewrite lookup_insert_eq, lookup_alter_eq, Hc. eexists _, _. split_and!; [done|done|].
        unfold send_value. by rewrite Ho.
      * rewrite lookup_insert_ne, lookup_alter_ne by done. eauto.
    + injection Ha as <-. split_and!; [by exists w, c| |done]. simpl.
      rewrite elem_of_union, elem_of_singleton. intros [->|?]; [congruence|done].
Qed.

Lemma spawn_frame req child now turn s :
  let s' := (spawn_subagent config session_id root_agent roles llm_effort req child now turn s).2 in
  pending_joins s' = pending_joins s ∧ chans s' = chans s ∧ dropped s' = dropped s ∧ received s' = received s ∧
  joins (sub s') = joins (sub s).
Proof.
  unfold spawn_subagent. destruct (ensure_session_match _ _); [|done].
  unfold spawn. case_bool_decide; [done|]. destruct (_ <=? _); [done|]. by case_bool_decide.
Qed.

Lemma join_frame req jid now s :
  let s' := (join_subagent session_id req jid now s).2 in
  pending_joins s' = pending_joins s ∧ chans s' = chans s ∧ dropped s' = dropped s ∧ received s' = received s ∧
  (joins (sub s) !! jid = None → joins (sub s) ⊆ joins (sub s')).
Proof.
  unfold join_subagent. destruct (ensure_session_match _ _); [|done].
  unfold join_agent. case_bool_decide; [done|]. destruct (agents (sub s) !! _); [|done].
  destruct (is_terminal _); [by destruct (last_terminal _)|]. split_and!; [done..|]. simpl. intros ?.
  by apply insert_subseteq.
Qed.

Lemma ends_frame agent terminal err s :
  let s' := (mark_subagent_terminal agent terminal err s).2 in
  pending_joins s' = pending_joins s ∧ chans s' = chans s ∧ dropped s' = dropped s ∧ received s' = received s ∧
  (joins (sub s') = joins (sub s) ∨ joins (sub s') = satisfy agent (completed_at_ms terminal) <$> joins (sub s)).
Proof.
  unfold mark_subagent_terminal. destruct (lane_records s !! agent); [|naive_solver].
  unfold on_terminal. simpl. destruct (agents (sub s) !! agent); naive_solver.
Qed.

Lemma satisfy_target agent now jr : target_agent_id (satisfy agent now jr) = target_agent_id jr.
Proof. unfold satisfy. by destruct (waits_for agent jr). Qed.

(** A join stays, with its target. *)
Lemma join_stays s l s' j jr :
  sup_ok s → fire s l = Some s' → joins (sub s) !! j = Some jr →
  ∃ jr', joins (sub s') !! j = Some jr' ∧ target_agent_id jr' = target_agent_id jr.
Proof.
  intros Hs Hf Hj. destruct l as [req child now turn|req jid now|agent terminal err|i|k|k|k|k]; simpl in Hf.
  - case_bool_decide; [done|]. injection Hf as <-. destruct (spawn_frame req child now turn s) as (_ & _ & _ & _ & ->). eauto.
  - case_bool_decide as Hn; [done|]. injection Hf as <-. apply eq_None_not_Some in Hn.
    destruct (join_frame req jid now s) as (_ & _ & _ & _ & Hsub). exists jr. split; [|done].
    by eapply lookup_weaken; [|apply Hsub].
  - case_bool_decide; [|done]. injection Hf as <-.
    destruct (ends_frame agent terminal err (set_lanes (lanes s ∖ {[agent]}) s)) as (_ & _ & _ & _ & [-> | ->]); [eauto|].
    simpl. rewrite lookup_fmap, Hj. simpl. eexists. split; [done|]. apply satisfy_target.
  - destruct (handlers s !! i) as [[|a rest]|] eqn:Hi; [done| |done].
    destruct (act_ok config s i a rest Hs Hi) as (s1 & Ha & _). rewrite Ha in Hf. injection Hf as <-. exists jr.
    split; [|done]. destruct a as [| k | k ? t | | |]; simpl in Ha; try (by injection Ha as <-).
    + unfold register_pending_join in Ha. destruct (pending_joins s !! k); [done|]. by injection Ha as <-.
    + unfold wake_waiter in Ha. destruct (pending_joins s !! k) as [w0|]; [destruct (sender w0); [|done]|]; by injection Ha as <-.
  - repeat case_match; naive_solver.
  - repeat case_match; naive_solver.
  - repeat case_match; naive_solver.
  - repeat case_match; naive_solver.
Qed.

Lemma joins_stay s ls s' j jr :
  sup_ok s → fires s ls = Some s' → joins (sub s) !! j = Some jr →
  ∃ jr', joins (sub s') !! j = Some jr' ∧ target_agent_id jr' = target_agent_id jr.
Proof.
  revert s jr. induction ls as [|l ls IH]; intros s jr Hs; simpl; [intros [= <-]; eauto|].
  destruct (fire s l) as [s1|] eqn:E; [|done]. intros Hf Hj.
  destruct (join_stays _ _ _ _ _ Hs E Hj) as (jr1 & Hj1 & <-). eapply IH; [by eapply sup_fire_ok|done|done].
Qed.

(** What has been received was sent, so it was not lost. *)
Lemma received_not_dropped s j : sup_ok s → is_Some (received s !! j) → j ∉ dropped s.
Proof.
  intros Hs [t Hr]. apply (su_received _ _ Hs) in Hr. intros Hd.
  destruct (joins (sub s) !! j) as [jr|] eqn:Ej.
  - destruct (su_join _ _ Hs j jr Ej) as [P S _]. destruct (join_status jr); [destruct P as (? & ? & ?); done|].
    destruct (S eq_refl) as (? & ? & _ & _ & [? ? ?|? ? ?|? ? ?]); congruence.
  - by destruct (su_no_join _ _ Hs j Ej).
Qed.

(** The history is never unwritten. *)
Lemma history_grows s l s' : sup_ok s → fire s l = Some s' →
  dropped s ⊆ dropped s' ∧ ∀ j, is_Some (received s !! j) → is_Some (received s' !! j).
Proof.
  intros Hs Hf. destruct l as [req child now turn|req jid now|agent terminal err|i|k|k|k|k]; simpl in Hf.
  - case_bool_decide; [done|]. injection Hf as <-. by destruct (spawn_frame req child now turn s) as (_ & _ & -> & -> & _).
  - case_bool_decide as Hn; [done|]. injection Hf as <-. by destruct (join_frame req jid now s) as (_ & _ & -> & -> & _).
  - case_bool_decide; [|done]. injection Hf as <-.
    by destruct (ends_frame agent terminal err (set_lanes (lanes s ∖ {[agent]}) s)) as (_ & _ & -> & -> & _).
  - destruct (handlers s !! i) as [[|a rest]|] eqn:Hi; [done| |done].
    destruct (act_ok config s i a rest Hs Hi) as (s1 & Ha & _). rewrite Ha in Hf. injection Hf as <-.
    destruct a as [| k | k ? t | | |]; simpl in Ha; try (by injection Ha as <-).
    + unfold register_pending_join in Ha. destruct (pending_joins s !! k); [done|]. by injection Ha as <-.
    + unfold wake_waiter in Ha. destruct (pending_joins s !! k) as [w0|]; [destruct (sender w0); [|done]|];
        injection Ha as <-; [done|]. split; [simpl; set_solver|done].
  - repeat case_match; naive_solver.
  - repeat case_match; simplify_eq; simpl. split; [done|]. intros j Hr.
    destruct (decide (k = j)) as [->|]; [by rewrite lookup_insert_eq|]. by rewrite lookup_insert_ne.
  - repeat case_match; naive_solver.
  - repeat case_match; naive_solver.
Qed.

(** A waiter that listens goes on listening until it receives, unless it drops
    its receiver, and no wake of it is lost meanwhile. *)
Lemma listening_stays s l s' j :
  sup_ok s → fire s l = Some s' → l ≠ DropReceiver j → listening s j → j ∉ dropped s →
  (listening s' j ∨ is_Some (received s' !! j)) ∧ j ∉ dropped s'.
Proof.
  intros Hs Hf Hnd Hl Hd.
  assert (pending_joins s' = pending_joins s → chans s' = chans s → dropped s' = dropped s →
    (listening s' j ∨ is_Some (received s' !! j)) ∧ j ∉ dropped s') as Hsame.
  { intros E1 E2 E3. unfold listening. rewrite E1, E2, E3. auto. }
  destruct l as [req child now turn|req jid now|agent terminal err|i|k|k|k|k]; simpl in Hf.
  - case_bool_decide; [done|]. injection Hf as <-. destruct (spawn_frame req child now turn s) as (? & ? & ? & ? & _). auto.
  - case_bool_decide as Hn; [done|]. injection Hf as <-. destruct (join_frame req jid now s) as (? & ? & ? & ? & _). auto.
  - case_bool_decide; [|done]. injection Hf as <-.
    destruct (ends_frame agent terminal err (set_lanes (lanes s ∖ {[agent]}) s)) as (? & ? & ? & ? & _). auto.
  - destruct (handlers s !! i) as [[|a rest]|] eqn:Hi; [done| |done].
    destruct (act_ok config s i a rest Hs Hi) as (s1 & Ha & Hs1). rewrite Ha in Hf. injection Hf as <-.
    destruct (apply_frame s a s1 j Ha Hl) as (? & ? & _). split; [by left|]. simpl. auto.
  - destruct (pending_joins s !! k) as [w|] eqn:Ek; [|done]. destruct (receiver w); [|done]. injection Hf as <-.
    destruct Hl as (w0 & c & Hw & Hc & Ho). split; [|done]. left. unfold listening. simpl.
    destruct (decide (k = j)) as [->|Hne]; [rewrite lookup_insert_eq|rewrite lookup_insert_ne by done]; eauto.
  - destruct (pending_joins s !! k) as [[? [|]]|] eqn:Ek; [done| |done].
    destruct (chans s !! k) as [[[t|] [|]]|] eqn:Ec; try done. injection Hf as <-. split; [|done].
    destruct (decide (k = j)) as [->|Hne]; [right; simpl; by rewrite lookup_insert_eq|].
    left. destruct Hl as (w0 & c & ? & ? & ?). exists w0, c. simpl. by rewrite lookup_insert_ne.
  - destruct (pending_joins s !! k) as [[? [|]]|] eqn:Ek; [done| |done].
    destruct (chans s !! k) as [[v [|]]|] eqn:Ec; try done. injection Hf as <-. split; [|done].
    left. destruct Hl as (w0 & c & ? & ? & ?). exists w0, c. simpl. rewrite lookup_insert_ne by congruence. done.
  - destruct (chans s !! k) as [[v [|]]|] eqn:Ec; try done. injection Hf as <-. split; [|done].
    left. destruct Hl as (w0 & c & ? & Hc & Ho). exists w0, c. simpl. rewrite lookup_delete_ne; [done|].
    intros ->. rewrite Ec in Hc. by injection Hc as <-.
Qed.

Lemma attended_stays s ls s' j :
  sup_ok s → fires s ls = Some s' → DropReceiver j ∉ ls → listening s j ∨ is_Some (received s !! j) →
  j ∉ dropped s → (listening s' j ∨ is_Some (received s' !! j)) ∧ j ∉ dropped s'.
Proof.
  revert s. induction ls as [|l ls IH]; intros s Hs; simpl; [by intros [= <-]|].
  destruct (fire s l) as [s1|] eqn:E; [|done]. intros Hf [Hnd Hnds]%not_elem_of_cons Hat Hd.
  pose proof (sup_fire_ok _ _ _ _ _ _ _ _ Hs E) as Hs1.
  assert ((listening s1 j ∨ is_Some (received s1 !! j)) ∧ j ∉ dropped s1) as [? ?].
  { destruct Hat as [Hl|Hr]; [eapply listening_stays; [exact Hs|exact E|congruence|done|done]|].
    pose proof (proj2 (history_grows _ _ _ Hs E) j Hr). split; [by right|by apply received_not_dropped]. }
  by eapply IH.
Qed.

(** ** Progress *)

(** The steps of the handlers and of the waiter. *)
Definition serves (j : str) (l : Label) : Prop :=
  match l with Act _ => True | TakeReceiver k | Receive k => k = j | _ => False end.

Lemma apply_handlers s a s1 : apply_action a s = Ok s1 → handlers s1 = handlers s.
Proof.
  destruct a as [| k | k ? t | | |]; simpl; try (by intros [= <-]).
  - unfold register_pending_join. destruct (pending_joins s !! k); [done|]. by intros [= <-].
  - unfold wake_waiter. destruct (pending_joins s !! k) as [w0|]; [destruct (sender w0); [|done]|]; by intros [= <-].
Qed.

(** A handler runs through: no action of it fails. *)
Lemma handler_runs s i pre rest :
  sup_ok s → handlers s !! i = Some (pre ++ rest) →
  ∃ s', fires s (replicate (length pre) (Act i)) = Some s' ∧ handlers s' !! i = Some rest ∧
    ∀ j, listening s j → listening s' j.
Proof.
  revert s. induction pre as [|a pre IH]; intros s Hs Hi; simpl; [eauto|].
  simpl in Hi. rewrite Hi. destruct (act_ok config s i a _ Hs Hi) as (s1 & Ha & Hs1). rewrite Ha.
  destruct (IH (went_on i (pre ++ rest) s1) Hs1) as (s' & Hf & Hi' & Hl).
  - simpl. rewrite (apply_handlers _ _ _ Ha), list_lookup_insert_eq; [done|]. by eapply lookup_lt_Some.
  - exists s'. split_and!; [done|done|]. intros j Hj. apply Hl. by destruct (apply_frame _ _ _ _ Ha Hj) as [? _].
Qed.

Lemma wake_handler s j t : wake_terms j (acts s) = [t] →
  ∃ i pre w rest, handlers s !! i = Some (pre ++ WakeWaiter j w t :: rest).
Proof.
  intros Hw. assert (t ∈ wake_terms j (acts s)) as Ht by (rewrite Hw; set_solver).
  unfold wake_terms, acts in Ht. apply list_elem_of_omap in Ht as (a & Ha & Hf).
  destruct a as [| | k w t0 | | |]; try done. case_bool_decide; [|done]. injection Hf as ->. subst k.
  apply list_elem_of_In, in_concat in Ha as (h & Hh & Ha). apply list_elem_of_In in Ha.
  apply list_elem_of_In, list_elem_of_lookup in Hh as [i Hi].
  apply list_elem_of_split in Ha as (pre & rest & ->). eauto.
Qed.

(** A value that was sent to a waiter that listens can be received. *)
Lemma receive_now s j t : sup_ok s → listening s j → sent s !! j = Some t →
  ∃ ls s', Forall (serves j) ls ∧ fires s ls = Some s' ∧ received s' !! j = Some t.
Proof.
  intros Hs (w & c & Hw & Hc & Ho) Hsent. destruct (su_table _ _ Hs j w Hw) as (_ & _ & c' & Hc' & Hv).
  assert (c' = c) as -> by congruence. rewrite Hsent in Hv. specialize (Hv Ho). destruct c as [v o]. simpl in *. subst.
  destruct w as [sd [|]].
  - exists [TakeReceiver j; Receive j]. simpl. rewrite Hw. simpl. rewrite lookup_insert_eq, Hc. eexists.
    split; [by repeat constructor|]. split; [done|]. simpl. apply lookup_insert_eq.
  - exists [Receive j]. simpl. rewrite Hw, Hc. eexists. split; [by repeat constructor|]. split; [done|]. simpl. apply lookup_insert_eq.
Qed.

(** A wake in flight reaches a waiter that listens. *)
Lemma wake_arrives s j t : sup_ok s → listening s j → wake_terms j (acts s) = [t] →
  ∃ ls s', Forall (serves j) ls ∧ fires s ls = Some s' ∧ received s' !! j = Some t.
Proof.
  intros Hs Hl Hw. destruct (wake_handler _ _ _ Hw) as (i & pre & w & rest & Hi).
  destruct (handler_runs _ _ _ _ Hs Hi) as (s1 & Hf1 & Hi1 & Hl1). specialize (Hl1 j Hl).
  pose proof (fires_ok _ _ _ Hs Hf1) as Hs1.
  destruct (act_ok config _ _ _ _ Hs1 Hi1) as (s2 & Ha & Hs2). destruct (apply_frame _ _ _ _ Ha Hl1) as [Hl2 _].
  assert (sent s2 !! j = Some t) as Hsent.
  { destruct Hl1 as (w1 & _ & Hw1 & _). simpl in Ha. unfold wake_waiter in Ha. rewrite Hw1 in Ha.
    destruct (sender w1); [|done]. injection Ha as <-. simpl. apply lookup_insert_eq. }
  destruct (receive_now _ j t Hs2 Hl2 Hsent) as (ls & s3 & Hls & Hf3 & Hr).
  exists (replicate (length pre) (Act i) ++ Act i :: ls), s3. split_and!; [|  |done].
  - apply Forall_app. split; [by apply Forall_replicate|by constructor].
  - rewrite fires_app, Hf1. simpl. by rewrite Hi1, Ha.
Qed.

Lemma dropped_stays s ls s' j : sup_ok s → fires s ls = Some s' → j ∈ dropped s → j ∈ dropped s'.
Proof.
  revert s. induction ls as [|l ls IH]; intros s Hs; simpl; [by intros [= <-]|].
  destruct (fire s l) as [s1|] eqn:E; [|done]. intros Hf Hd. eapply IH; [by eapply sup_fire_ok|done|].
  by apply (history_grows _ _ _ Hs E).
Qed.

Lemma never_received s j : sup_ok s → j ∈ dropped s → received s !! j = None.
Proof. intros Hs Hd. apply eq_None_not_Some. intros Hr. by eapply received_not_dropped. Qed.

(** ** The theorems *)

(** C3: a join that is registered before its target ends is delivered. From a
    reachable session in which the join waits and its lane listens, after any
    steps in which the lane does not drop its receiver, no handler has failed,
    the wake was not lost, and: the target still runs and the lane listens; or
    the target has ended and the lane has received its terminal snapshot; or it
    has ended, and the handlers and the lane alone can take the session to
    where the lane has received it. *)
Theorem join_delivered s j jr ls s' :
  reachable s → joins (sub s) !! j = Some jr → join_status jr = Pending → listening s j →
  fires s ls = Some s' → DropReceiver j ∉ ls →
  failures s' = [] ∧ j ∉ dropped s' ∧
  ∃ r, agents (sub s') !! target_agent_id jr = Some r ∧
    (record_status r = Running ∧ listening s' j ∨
     ∃ t, last_terminal r = Some t ∧
       (received s' !! j = Some t ∨
        received s' !! j = None ∧ listening s' j ∧
        ∃ ls' s2, Forall (serves j) ls' ∧ fires s' ls' = Some s2 ∧ received s2 !! j = Some t)).
Proof.
  intros Hr Hj Hp Hl Hf Hnd. pose proof (sup_reachable_ok _ _ _ _ _ _ Hr) as Hs.
  destruct (su_join _ _ Hs j jr Hj) as [P _ _]. destruct (P Hp) as (_ & _ & Hd).
  destruct (attended_stays _ _ _ _ Hs Hf Hnd (or_introl Hl) Hd) as [Hat Hd'].
  pose proof (fires_ok _ _ _ Hs Hf) as Hs'. split; [apply Hs'|]. split; [done|].
  destruct (joins_stay _ _ _ _ _ Hs Hf Hj) as (jr' & Hj' & <-). destruct (su_join _ _ Hs' j jr' Hj') as [P' S' _].
  destruct (join_status jr') eqn:Est.
  - destruct (so_pending _ _ (su_sub _ _ Hs') j jr' Hj' Est) as (r & Hr' & Hrun). exists r. split; [done|]. left.
    split; [done|]. destruct Hat as [?|[t Ht]]; [done|]. apply (su_received _ _ Hs') in Ht.
    destruct (P' eq_refl) as (_ & ? & _). congruence.
  - destruct (S' eq_refl) as (r & t & Hr' & Ht & Hw). exists r. split; [done|]. right. exists t. split; [done|].
    destruct (received s' !! j) as [t'|] eqn:Er.
    + left. apply (su_received _ _ Hs') in Er. destruct Hw; congruence.
    + right. destruct Hat as [Hl'|[? ?]]; [|done]. split_and!; [done|done|].
      destruct Hw as [Hw|_ Hsent|]; [by apply wake_arrives|by apply receive_now|done].
Qed.

(** A join waits for a sub-agent that runs, and nothing is sent for it; or its
    sub-agent has ended, and the wake with its terminal snapshot is in one place. *)
Definition join_accounted (s : Sup) (j : str) (jr : JoinRecord) : Prop :=
  ∃ r, agents (sub s) !! target_agent_id jr = Some r ∧
    (join_status jr = Pending ∧ record_status r = Running ∧
       wake_terms j (acts s) = [] ∧ sent s !! j = None ∧ j ∉ dropped s ∨
     join_status jr = Satisfied ∧ ∃ t, last_terminal r = Some t ∧ wake_at s j t).

(** C4: in every reachable session no more sub-agents run at once than allowed, no
    handler has failed, a lane runs only for a sub-agent that has not ended, a
    join that waits has a target that runs and no wake, and a join whose target
    has ended has exactly one wake, with the terminal snapshot of the target: it
    is in flight, or was sent, or found nobody. *)
Theorem session_consistent s :
  reachable s →
  running_count (sub s) ≤ Z.max 0 (max_subagents_per_session config) ∧
  failures s = [] ∧
  (∀ a, a ∈ lanes s → ∃ r, agents (sub s) !! a = Some r ∧ record_status r = Running) ∧
  ∀ j jr, joins (sub s) !! j = Some jr → join_accounted s j jr.
Proof.
  intros Hr. pose proof (sup_reachable_ok _ _ _ _ _ _ Hr) as Hs. split_and!; [apply Hs..|].
  intros j jr Hj. destruct (su_join _ _ Hs j jr Hj) as [P S _]. destruct (join_status jr) eqn:E.
  - destruct (so_pending _ _ (su_sub _ _ Hs) j jr Hj E) as (r & ? & ?). exists r. split; [done|]. left.
    destruct (P eq_refl) as (? & ? & ?). done.
  - destruct (S eq_refl) as (r & t & ? & ? & ?). exists r. split; [done|]. right. eauto.
Qed.

(** A wake that found nobody is never made good: the lane whose wake was
    dropped receives nothing afterwards, whatever happens. *)
Lemma dropped_wake_lost s j ls s' :
  reachable s → j ∈ dropped s → fires s ls = Some s' → received s' !! j = None.
Proof.
  intros Hr Hd Hf. pose proof (sup_reachable_ok _ _ _ _ _ _ Hr) as Hs. eapply never_received; [by eapply fires_ok|].
  by eapply dropped_stays.
Qed.
End Delivery.

(** ** A concrete session *)

Module SubagentDemo.

Definition root : str := lit "root".
Definition child_id : str := lit "child".
Definition jid : str := lit "join".
Definition spawn_request : SpawnSubagentRequest :=
  {| spawn_session_id := lit "s"; spawn_parent_agent_id := root; spawn_description := lit "look";
     task_goal := lit "goal"; task_context := []; spawn_output_schema := None; spawn_role_id := None;
     predefined_prompt := Some (lit "explore"); spawn_max_turns := None |}.
Definition wait : JoinSubagentRequest :=
  {| join_session_id := lit "s"; join_waiter := root; join_target := child_id |}.
Definition done_ : SubagentTerminalSnapshot :=
  {| terminal_status := KCompleted; terminal_reply := Some (lit "found"); terminal_error := None;
     completed_at_ms := 9 |}.

Definition demo_run := fires default_config (lit "s") root ∅ None.
Definition started : list Label := [Spawn spawn_request child_id 1 None; Act 0; Join wait jid 2].
Definition session_after (ls : list Label) : Sup := default new_session (demo_run new_session ls).

Lemma demo_reachable ls s : demo_run new_session ls = Some s → reachable default_config (lit "s") root ∅ None s.
Proof. apply fires_reachable. constructor. Qed.

Lemma join_delivered_witness :
  let s := session_after (started ++ [Act 1]) in
  let s' := session_after (started ++ [Act 1; LaneEnds child_id done_ None; Act 2]) in
  failures s' = [] ∧ jid ∉ dropped s' ∧
  ∃ r, agents (sub s') !! child_id = Some r ∧
    (record_status r = Running ∧ listening s' jid ∨
     ∃ t, last_terminal r = Some t ∧
       (received s' !! jid = Some t ∨
        received s' !! jid = None ∧ listening s' jid ∧
        ∃ ls' s2, Forall (serves jid) ls' ∧ demo_run s' ls' = Some s2 ∧ received s2 !! jid = Some t)).
Proof.
  intros s s'.
  apply (join_delivered default_config (lit "s") root ∅ None s jid
    {| waiter_agent_id := root; target_agent_id := child_id; join_status := Pending; join_created_at_ms := 2;
       resolved_at_ms := None |} [LaneEnds child_id done_ None; Act 2]).
  - apply (demo_reachable (started ++ [Act 1])). vm_compute. reflexivity.
  - vm_compute. reflexivity.
  - reflexivity.
  - exists {| sender := true; receiver := true |}, {| value := None; rx_open := true |}.
    split; [vm_compute; reflexivity|]. split; [vm_compute; reflexivity|reflexivity].
  - vm_compute. reflexivity.
  - intros [?|[?|?%elem_of_nil]%elem_of_cons]%elem_of_cons; done.
Defined.

Lemma session_consistent_witness :
  running_count (sub (session_after started)) ≤ 10 ∧ failures (session_after started) = [].
Proof.
  destruct (session_consistent default_config (lit "s") root ∅ None (session_after started)) as (H1 & H2 & _).
  - apply (demo_reachable started). vm_compute. reflexivity.
  - split; [exact H1|exact H2].
Defined.

(** The sub-agent ends between the moment the join is saved in the session and
    the registration of its waiter: the wake finds nobody, the waiter is then
    registered and listens, and nothing ever reaches it. *)
Theorem early_end_hangs_waiter :
  ∃ s, demo_run new_session (started ++ [LaneEnds child_id done_ None; Act 2; Act 2; Act 1; TakeReceiver jid]) = Some s ∧
    listening s jid ∧ concat (handlers s) = [] ∧ lanes s = ∅ ∧
    ∀ ls s', demo_run s ls = Some s' → received s' !! jid = None.
Proof.
  set (ls0 := started ++ _). destruct (demo_run new_session ls0) as [s|] eqn:E; [|vm_compute in E; done].
  exists s. split; [done|]. assert (s = session_after ls0) as Hs by (unfold session_after; by rewrite E). split_and!.
  - exists {| sender := true; receiver := false |}, {| value := None; rx_open := true |}. subst s.
    split_and!; vm_compute; reflexivity.
  - subst s. vm_compute. reflexivity.
  - subst s. vm_compute. reflexivity.
  - intros ls s'. apply dropped_wake_lost; [by eapply demo_reachable|]. subst s.
    apply (bool_decide_unpack _). vm_compute. exact I.
Qed.

End SubagentDemo.
