(* ===== verification/DenialText.v ===== *)
(** * Denials read from the output of a command

    The text functions of apps/shared/src/gateway/permission_backend.rs: which
    paths a command that ran in a sandbox says it could not reach. *)

From S2P Require Import Prelude RStr HostPath UrlFallback.

(** ** String methods *)

(** [s.find(c)] for a character, as the text before it and the text after it. *)
Fixpoint cut_char (c : char) (s : str) : option (str * str) :=
  match s with
  | [] => None
  | x :: s =>
      if (x =? c)%N then Some ([], s)
      else match cut_char c s with Some (a, b) => Some (x :: a, b) | None => None end
  end.

(** [s.trim_matches(c)]. *)
Definition trim_char (c : char) (s : str) : str := trim_end_char c (trim_start_char c s).

(** [s.split(sep)] for a string; [s.rsplit(sep)] is its reverse, as the separators
    the source uses do not overlap themselves. *)
Fixpoint split_fuel (n : nat) (sep s : str) : list str :=
  match n with
  | O => [s]
  | S n => match find sep s with
           | Some (before, rest) => before :: split_fuel n sep (drop (length sep) rest)
           | None => [s]
           end
  end.
Definition split (sep s : str) : list str := split_fuel (length s) sep s.
Definition rsplit (sep s : str) : list str := reverse (split sep s).

Definition double_quote : char := 34.
Definition single_quote : char := 39.
Definition backtick : char := 96.
Definition left_single : char := 8216.
Definition right_single : char := 8217.
Definition left_double : char := 8220.
Definition right_double : char := 8221.

(** ** Paths in a line *)

Definition clean_denied_path_candidate (value : str) : option str :=
  let candidate :=
    trim (trim_end_char 59 (trim_end_char 44 (trim_end_char 58
      (trim_char right_double (trim_char left_double (trim_char right_single (trim_char left_single
        (trim_char backtick (trim_char single_quote (trim_char double_quote (trim value))))))))))) in
  if starts_with [slash] candidate && negb (bool_decide (candidate = [slash])) then Some candidate else None.

Definition push_unique_path_string (paths : list str) (path : str) : list str :=
  if existsb (fun p => bool_decide (p = path)) paths then paths else paths ++ [path].

Definition push_candidate (paths : list str) (value : str) : list str :=
  match clean_denied_path_candidate value with
  | Some path => push_unique_path_string paths path
  | None => paths
  end.

Definition quote_pairs : list (char * char) :=
  [(double_quote, double_quote); (single_quote, single_quote); (backtick, backtick);
   (left_single, right_single); (left_double, right_double)].

(** The texts between an opening and a closing quote, from left to right. *)
Fixpoint quoted_fuel (n : nat) (o c : char) (rest : str) : list str :=
  match n with
  | O => []
  | S n =>
      match cut_char o rest with
      | None => []
      | Some (_, after_open) =>
          match cut_char c after_open with
          | None => []
          | Some (quoted, rest) => quoted :: quoted_fuel n o c rest
          end
      end
  end.
Definition quoted_texts (q : char * char) (text : str) : list str := quoted_fuel (length text) q.1 q.2 text.

Definition quoted_absolute_paths (text : str) : list str :=
  foldl push_candidate [] (quote_pairs ≫= fun q => quoted_texts q text).

Definition is_unquoted_path_delimiter (ch : char) : bool :=
  is_whitespace ch ||
  bool_decide (ch ∈ [58%N; double_quote; single_quote; backtick; left_single; right_single; left_double;
                     right_double; 60%N; 62%N; 124%N]).

(** The texts from a slash to the next delimiter or the end; [start] is the text
    since the slash. *)
Fixpoint unquoted (start : option str) (text : str) : list str :=
  match text, start with
  | [], None => []
  | [], Some s => [s]
  | ch :: text, None => if (ch =? slash)%N then unquoted (Some [ch]) text else unquoted None text
  | ch :: text, Some s =>
      if is_unquoted_path_delimiter ch then s :: unquoted None text else unquoted (Some (s ++ [ch])) text
  end.

Definition absolute_paths_from_text (text : str) : list str :=
  match foldl push_unique_path_string [] (quoted_absolute_paths text) with
  | [] => foldl push_candidate [] (unquoted None text)
  | paths => paths
  end.

(** ** The capability *)

Definition command_redirects_to_path (command path : str) : bool :=
  match find path command with
  | None => false
  | Some (before, _) => ends_with (lit ">") (trim_end before)
  end.

Definition write_programs : list str :=
  lit <$> ["chmod"; "chown"; "ln"; "mkdir"; "rm"; "rmdir"; "tee"; "touch"; "truncate"]%string.

Definition stderr_write_program_targets_path (line path : str) : bool :=
  if negb (contains path line) then false
  else
    let command_name := List.last (split_char slash (trim (List.hd [] (split_char 58 line)))) [] in
    bool_decide (command_name ∈ write_programs).

Definition infer_bubblewrap_path_capability (line command path : str) : SandboxPermissionCapability :=
  let lower := to_ascii_lowercase line in
  if contains (lit "read-only file system") lower || contains (lit "cannot create") lower
     || contains (lit "cannot touch") lower || contains (lit "cannot remove") lower
     || contains (lit "cannot move") lower || command_redirects_to_path command path
     || stderr_write_program_targets_path line path
  then Write else Read.

Definition is_bubblewrap_path_boundary_line (line : str) : bool :=
  contains (lit "No such file or directory") line || contains (lit "Read-only file system") line.

Record RuntimePathCandidate := { candidate_path : str; candidate_capability : SandboxPermissionCapability }.

Definition push_path_candidate (cs : list RuntimePathCandidate) (c : RuntimePathCandidate) :
    list RuntimePathCandidate :=
  if existsb (fun c' => bool_decide (candidate_path c' = candidate_path c) &&
                        bool_decide (candidate_capability c' = candidate_capability c)) cs
  then cs else cs ++ [c].

Definition line_candidates (command line : str) : list RuntimePathCandidate :=
  if is_bubblewrap_path_boundary_line line then
    (fun path => {| candidate_path := path;
                    candidate_capability := infer_bubblewrap_path_capability line command path |})
      <$> absolute_paths_from_text line
  else [].

Definition bubblewrap_path_candidates_from_stderr (stderr command : str) : list RuntimePathCandidate :=
  foldl push_path_candidate [] (lines stderr ≫= line_candidates command).

(** ** Seatbelt *)

Definition denied_path_from_stderr_line (line : str) : option str :=
  let marker :=
    if contains (lit "Operation not permitted") line then Some (lit "Operation not permitted")
    else if contains (lit "operation not permitted") line then Some (lit "operation not permitted")
    else None in
  marker ≫= fun marker =>
    let before_marker := trim (List.hd [] (split marker line)) in
    let before_marker := trim (trim_end_char 58 before_marker) in
    head (omap clean_denied_path_candidate (rsplit (lit ": ") before_marker)) ≫= fun candidate =>
      if starts_with [slash] candidate then Some candidate else None.

Definition denied_path_from_stderr (stderr : str) : option str :=
  head (omap denied_path_from_stderr_line (lines stderr)).

(** ** What is found *)

Lemma cut_char_app c a b : c ∉ a → cut_char c (a ++ c :: b) = Some (a, b).
Proof.
  induction a as [|x a IH]; simpl; intros Hc; [by rewrite N.eqb_refl|].
  apply not_elem_of_cons in Hc as [Hx Hc]. rewrite (proj2 (N.eqb_neq x c)) by congruence. by rewrite IH.
Qed.

Lemma cut_char_Some c s a b : cut_char c s = Some (a, b) → s = a ++ c :: b.
Proof.
  revert a. induction s as [|x s IH]; intros a; simpl; [done|]. destruct (N.eqb_spec x c) as [->|].
  - by intros [= <- <-].
  - destruct (cut_char c s) as [[a' b']|] eqn:E; [|done]. intros [= <- <-]. by rewrite (IH a' eq_refl).
Qed.

(** Texts that occur in a text. *)
Lemma occurs_trans a b c : occurs a b → occurs b c → occurs a c.
Proof. intros (x & y & ->) (u & v & ->). exists (u ++ x), (y ++ v). by rewrite <- !app_assoc. Qed.
Lemma occurs_refl a : occurs a a.
Proof. exists [], []. by rewrite app_nil_r. Qed.
Lemma occurs_app_l a b c : occurs a b → occurs a (b ++ c).
Proof. intros (x & y & ->). exists x, (y ++ c). by rewrite <- !app_assoc. Qed.
Lemma occurs_app_r a b c : occurs a c → occurs a (b ++ c).
Proof. intros (x & y & ->). exists (b ++ x), y. by rewrite <- !app_assoc. Qed.
Lemma occurs_reverse a b : occurs a b → occurs (reverse a) (reverse b).
Proof. intros (x & y & ->). rewrite !reverse_app. exists (reverse y), (reverse x). by rewrite <- app_assoc. Qed.

Lemma trim_start_char_suffix c s : occurs (trim_start_char c s) s.
Proof.
  induction s as [|x s IH]; simpl; [apply occurs_refl|]. destruct (x =? c)%N; [|apply occurs_refl].
  by apply (occurs_app_r _ [x]).
Qed.
Lemma trim_end_char_prefix c s : occurs (trim_end_char c s) s.
Proof. unfold trim_end_char. rewrite <- (reverse_involutive s) at 2. apply occurs_reverse, trim_start_char_suffix. Qed.
Lemma trim_start_suffix s : occurs (trim_start s) s.
Proof.
  induction s as [|x s IH]; simpl; [apply occurs_refl|]. destruct (is_whitespace x); [|apply occurs_refl].
  by apply (occurs_app_r _ [x]).
Qed.
Lemma trim_part s : occurs (trim s) s.
Proof.
  eapply occurs_trans; [|apply trim_start_suffix]. unfold trim, trim_end.
  rewrite <- (reverse_involutive (trim_start s)) at 2. apply occurs_reverse, trim_start_suffix.
Qed.
Lemma trim_char_part c s : occurs (trim_char c s) s.
Proof. eapply occurs_trans; [apply trim_end_char_prefix|apply trim_start_char_suffix]. Qed.

(** A clean candidate is an absolute path other than the root, found in the text. *)
Definition names_path (p : str) : Prop := starts_with [slash] p = true ∧ p ≠ [slash].

Lemma clean_candidate v p : clean_denied_path_candidate v = Some p → names_path p ∧ occurs p v.
Proof.
  unfold clean_denied_path_candidate. destruct (_ && _) eqn:E; [|done]. intros [= <-].
  apply andb_prop in E as [H1 H2]. split.
  - split; [exact H1|]. intros Heq. by rewrite bool_decide_true in H2.
  - eapply occurs_trans; [apply trim_part|]. do 3 (eapply occurs_trans; [apply trim_end_char_prefix|]).
    do 7 (eapply occurs_trans; [apply trim_char_part|]). apply trim_part.
Qed.

Lemma push_unique_string paths p q : q ∈ push_unique_path_string paths p ↔ q ∈ paths ∨ q = p.
Proof.
  unfold push_unique_path_string. destruct (existsb _ _) eqn:E.
  - apply existsb_exists in E as (x & Hx & ->%bool_decide_eq_true). apply list_elem_of_In in Hx. naive_solver.
  - set_solver.
Qed.
Lemma push_unique_nodup paths p : NoDup paths → NoDup (push_unique_path_string paths p).
Proof.
  unfold push_unique_path_string. destruct (existsb _ _) eqn:E; [done|]. intros Hn. apply NoDup_app. split_and!; [done| |].
  - intros x Hx ->%list_elem_of_singleton.
    assert (existsb (fun q => bool_decide (q = p)) paths = true) as Ht; [|congruence].
    apply existsb_exists. exists p. split; [by apply list_elem_of_In|by apply bool_decide_eq_true].
  - apply NoDup_singleton.
Qed.

Lemma push_candidates vs : ∀ acc p,
  p ∈ foldl push_candidate acc vs ↔ p ∈ acc ∨ ∃ v, v ∈ vs ∧ clean_denied_path_candidate v = Some p.
Proof.
  induction vs as [|v vs IH]; intros acc p; simpl; [set_solver|]. rewrite IH. unfold push_candidate.
  destruct (clean_denied_path_candidate v) as [q|] eqn:E; rewrite ?push_unique_string; set_solver.
Qed.
Lemma push_candidates_nodup vs : ∀ acc, NoDup acc → NoDup (foldl push_candidate acc vs).
Proof.
  induction vs as [|v vs IH]; intros acc Hn; simpl; [done|]. apply IH. unfold push_candidate.
  destruct (clean_denied_path_candidate v); [by apply push_unique_nodup|done].
Qed.
Lemma push_uniques ps : ∀ acc p, p ∈ foldl push_unique_path_string acc ps ↔ p ∈ acc ∨ p ∈ ps.
Proof. induction ps as [|q ps IH]; intros acc p; simpl; [set_solver|]. rewrite IH, push_unique_string. set_solver. Qed.
Lemma push_uniques_nodup ps : ∀ acc, NoDup acc → NoDup (foldl push_unique_path_string acc ps).
Proof. induction ps as [|q ps IH]; intros acc Hn; simpl; [done|]. by apply IH, push_unique_nodup. Qed.

Lemma quoted_part n : ∀ o c rest v, v ∈ quoted_fuel n o c rest → occurs v rest.
Proof.
  induction n as [|n IH]; intros o c rest v; simpl; [set_solver|].
  destruct (cut_char o rest) as [[a after]|] eqn:E1; [|set_solver].
  destruct (cut_char c after) as [[q rest']|] eqn:E2; [|set_solver].
  apply cut_char_Some in E1 as ->. apply cut_char_Some in E2 as ->.
  intros [->|Hv]%elem_of_cons.
  - exists (a ++ [o]), (c :: rest'). by rewrite <- !app_assoc.
  - apply IH in Hv. by apply occurs_app_r, (occurs_app_r _ [o]), occurs_app_r, (occurs_app_r _ [c]).
Qed.

Lemma unquoted_part text : ∀ start v, v ∈ unquoted start text → occurs v (default [] start ++ text).
Proof.
  induction text as [|ch text IH]; intros [s|] v; simpl; [|set_solver| |].
  - rewrite app_nil_r. intros ->%list_elem_of_singleton. apply occurs_refl.
  - destruct (is_unquoted_path_delimiter ch).
    + intros [->|Hv]%elem_of_cons; [apply occurs_app_l, occurs_refl|].
      by apply occurs_app_r, (occurs_app_r _ [ch]), (IH None).
    + intros Hv%IH. simpl in Hv. by rewrite <- app_assoc in Hv.
  - destruct (N.eqb_spec ch slash) as [->|].
    + intros Hv%IH. exact Hv.
    + intros Hv%IH. by apply (occurs_app_r _ [ch]).
Qed.

(** Every path that is found is absolute, is not the root, is written in the text,
    and is found once. *)
Lemma absolute_paths_sound text :
  NoDup (absolute_paths_from_text text) ∧
  ∀ p, p ∈ absolute_paths_from_text text → names_path p ∧ occurs p text.
Proof.
  unfold absolute_paths_from_text.
  pose proof (push_uniques_nodup (quoted_absolute_paths text) [] (NoDup_nil_2)) as Hn.
  pose proof (push_uniques (quoted_absolute_paths text) []) as Hq.
  destruct (foldl _ _ _) as [|p0 ps] eqn:E.
  - split; [apply push_candidates_nodup, NoDup_nil_2|]. intros p [?|(v & Hv & Hc)]%push_candidates; [set_solver|].
    destruct (clean_candidate v p Hc) as [? Ho]. split; [done|]. eapply occurs_trans; [exact Ho|].
    apply (unquoted_part text None v Hv).
  - split; [exact Hn|]. intros p Hp. apply Hq in Hp as [?|Hp]; [set_solver|].
    apply push_candidates in Hp as [?|(v & Hv & Hc)]; [set_solver|]. destruct (clean_candidate v p Hc) as [? Ho].
    split; [done|]. eapply occurs_trans; [exact Ho|]. apply list_elem_of_bind in Hv as (q & Hv & _).
    by eapply quoted_part.
Qed.

(** A path between quotes is found, whatever follows it. *)
Lemma quoted_path_found o c pre path p post :
  (o, c) ∈ quote_pairs → o ∉ pre → c ∉ path → clean_denied_path_candidate path = Some p →
  p ∈ absolute_paths_from_text (pre ++ o :: path ++ c :: post).
Proof.
  intros Hq Ho Hc Hp. set (text := pre ++ _).
  assert (p ∈ quoted_absolute_paths text) as Hin.
  { apply push_candidates. right. exists path. split; [|done]. apply list_elem_of_bind. exists (o, c).
    split; [|done]. unfold quoted_texts, text. rewrite length_app. cbn [length]. rewrite Nat.add_succ_r. cbn [quoted_fuel fst snd].
    rewrite cut_char_app by done. rewrite cut_char_app by done. set_solver. }
  unfold absolute_paths_from_text. pose proof (push_uniques (quoted_absolute_paths text) [] p) as Hu.
  destruct (foldl _ _ _); [|apply Hu; by right]. destruct Hu as [_ Hu]. destruct (not_elem_of_nil p). apply Hu. by right.
Qed.
