(* ===== verification/Free.v ===== *)
(** * Programs over effects

    A program is a value, or an effect with what is done with its answer. The
    operations whose tasks interleave are written in this form: an effect is one
    step that nothing can interrupt, and [let&] is the await of the source. *)

From S2P Require Import Prelude.

Inductive Free {E : Type} (R : E → Type) (T : Type) : Type :=
| Ret (t : T)
| Next (c : E) (k : R c → Free R T).
Arguments Ret {E R T} t.
Arguments Next {E R T} c k.

Fixpoint bind {E} {R : E → Type} {A B} (p : Free R A) (f : A → Free R B) : Free R B :=
  match p with
  | Ret a => f a
  | Next c k => Next c (fun x => bind (k x) f)
  end.
Definition call {E} {R : E → Type} (c : E) : Free R (R c) := Next c Ret.

(** The question mark. *)
Definition bind_ok {E} {R : E → Type} {A B Err0} (p : Free R (result A Err0))
    (f : A → Free R (result B Err0)) : Free R (result B Err0) :=
  bind p (fun r => match r with Ok a => f a | Err e => Ret (Err e) end).

Notation "'let&' x ':=' m 'in' k" := (bind m (fun x => k))
  (at level 10, x name, m at level 200, k at level 200) : xo_scope.
Notation "'let&?' x ':=' m 'in' k" := (bind_ok m (fun x => k))
  (at level 10, x name, m at level 200, k at level 200) : xo_scope.
Notation "'do&' c ';' k" := (Next c (fun _ => k)) (at level 10, c at level 9, k at level 200) : xo_scope.

Definition map_error {E} {R : E → Type} {A F G} (g : F → G) (p : Free R (result A F)) :
    Free R (result A G) :=
  let& r := p in Ret (Result.map_err g r).
