(* ===== verification/PermissionBackend.v ===== *)
(** * Asking the user for what the sandbox refuses

    apps/shared/src/gateway/permission_backend.rs and
    crates/tool/src/invocation_context.rs: the layer over the local backend that,
    when an operation is refused by the isolation policy, asks the user, grants
    what was refused and tries again. An operation is a program over the calls of
    the inner backend, the questions to the user, and the accesses to the grants,
    the rules and the context of the tool call; between two of them other tasks of
    the session may run. *)

From S2P Require Import Prelude RStr HostPath LocalPolicy Launcher UrlFallback Utf8.
From S2P Require Import DenialText Free.

(** ** Data *)

Definition ALLOW_ONCE : str := lit "Allow once".
Definition ALLOW_SESSION : str := lit "Allow for this session".
Definition ALLOW_SIMILAR_BASH_SESSION : str := lit "Allow similar bash commands for this path".
Definition DENY : str := lit "Deny".
Definition MAX_SANDBOX_PERMISSION_RETRIES : nat := 6.

Record ExecResult := {
  stdout : list byte;
  stderr : list byte;
  exit_code : option Z;
  timed_out : bool;
}.

Inductive InteractionResponse :=
| Confirmed (allowed : bool)
| Unanswered
| TextAnswer (value display_value : option str)
| ChoiceAnswer (value : option str).

(** [InteractionRequest::Choice]; custom input is not allowed. *)
Record ChoiceRequest := { question_prompt : str; question_options : list str }.

Record BashSandboxApprovalRule := { command_prefix : str; granted_root : Path }.
#[global] Instance Rule_eq_dec : EqDecision BashSandboxApprovalRule.
Proof. solve_decision. Defined.

Inductive PermissionDecision := GrantScope (scope : SandboxPermissionScope) | AllowSimilarBashForSession.

Record ToolInvocationContext := {
  context_tool_name : str;
  sandbox_permission_scope : option SandboxPermissionScope;
  once_grants : list Z;
}.
Definition new_context (name : str) : ToolInvocationContext :=
  {| context_tool_name := name; sandbox_permission_scope := None; once_grants := [] |}.

(** ** Rules for similar commands *)

Definition is_runtime (d : SandboxPolicyDenial) : bool := bool_decide (denial_capability d = ExecRuntime).

Fixpoint first_word (s : str) : str :=
  match s with
  | [] => []
  | c :: s => if is_whitespace c then [] else c :: first_word s
  end.

Definition bash_command_prefix_for_denial (command denied_path : str) : option str :=
  let by_word :=
    let trimmed := trim_start command in
    match first_word trimmed with
    | [] => None
    | word => Some (take (length command - length trimmed) command ++ word ++ lit " ")
    end in
  match find denied_path command with
  | Some (prefix, _) => if negb (bool_decide (trim prefix = [])) then Some prefix else by_word
  | None => by_word
  end.

Definition from_denial (command : str) (d : SandboxPolicyDenial) : option BashSandboxApprovalRule :=
  let path := Path.new (denial_path d) in
  if is_runtime d || negb (Path.is_absolute path) then None
  else
    bash_command_prefix_for_denial command (denial_path d) ≫= fun prefix =>
    Path.parent path ≫= fun root => Some {| command_prefix := prefix; granted_root := root |}.

Definition add_rule (command : str) (d : SandboxPolicyDenial) (rules : list BashSandboxApprovalRule) :
    list BashSandboxApprovalRule :=
  match from_denial command d with
  | None => rules
  | Some rule => if existsb (fun r => bool_decide (r = rule)) rules then rules else rules ++ [rule]
  end.

Definition rule_matches (command : str) (d : SandboxPolicyDenial) (rule : BashSandboxApprovalRule) : bool :=
  starts_with (command_prefix rule) command && path_is_within (Path.new (denial_path d)) (granted_root rule).

Definition rules_match (command : str) (d : SandboxPolicyDenial) (rules : list BashSandboxApprovalRule) : bool :=
  if is_runtime d || negb (Path.is_absolute (Path.new (denial_path d))) then false
  else existsb (rule_matches command d) rules.

(** ** The question *)

(** The context of a question is the command, for bash. *)
Definition can_offer_similar_bash_approval (d : SandboxPolicyDenial) (ctx : option str) : bool :=
  match ctx with
  | Some command => bool_decide (is_Some (from_denial command d))
  | None => false
  end.

Definition permission_options (d : SandboxPolicyDenial) (ctx : option str) : list str :=
  if is_runtime d then [ALLOW_ONCE; DENY]
  else [ALLOW_ONCE; ALLOW_SESSION] ++
       (if can_offer_similar_bash_approval d ctx then [ALLOW_SIMILAR_BASH_SESSION] else []) ++ [DENY].

Definition isolation_display_name (isolation : str) : str :=
  if bool_decide (isolation = lit "macos_seatbelt") then lit "macOS Seatbelt"
  else if bool_decide (isolation = lit "linux_bubblewrap") then lit "Linux Bubblewrap"
  else if bool_decide (isolation = lit "linux_dynsandbox") then lit "Dynamic Sandbox"
  else lit "Local sandbox".

Definition newline : str := [10%N].
Definition permission_prompt (tool : option str) (d : SandboxPolicyDenial) (ctx : option str) : str :=
  let tool_name := default (denial_operation d) tool in
  let head := isolation_display_name (denial_isolation d) ++ lit " blocked " ++ tool_name ++ newline ++ newline in
  let blocked := lit "Blocked operation: " ++ capability_str (denial_capability d) ++ lit " " ++
                 denial_operation d ++ newline ++ denial_path d in
  match ctx with
  | Some command => head ++ lit "Command:" ++ newline ++ command ++ newline ++ newline ++ blocked
  | None =>
      head ++ lit "Allow this tool call to continue with additional sandbox permissions?" ++ newline ++ blocked
  end.

(** What an answer means; an answer that was not offered is a refusal. *)
Definition decision_of (d : SandboxPolicyDenial) (ctx : option str) (r : InteractionResponse) :
    option PermissionDecision :=
  match r with
  | ChoiceAnswer (Some value) =>
      if bool_decide (value = ALLOW_ONCE) then Some (GrantScope Once)
      else if bool_decide (value = ALLOW_SESSION) && negb (is_runtime d) then Some (GrantScope Session)
      else if bool_decide (value = ALLOW_SIMILAR_BASH_SESSION) && can_offer_similar_bash_approval d ctx
      then Some AllowSimilarBashForSession
      else None
  | _ => None
  end.

(** ** Effects *)

Inductive InnerOp :=
| Stat | ReadBytes | WriteBytes | CreateDirAll | CreateDirAllWithExtra | TempPath
| Glob | Grep | ExportFile | OpenRead.

(** [Ask] names the denial and the command the question is about, for the history.
    [Leave] ends the context of a tool call and takes the grants it holds. *)
Inductive Eff :=
| Attempt (op : InnerOp)
| AttemptExec (streaming : bool)
| Ask (d : SandboxPolicyDenial) (ctx : option str) (q : ChoiceRequest)
| ToolName
| CurrentScope
| ApproveCurrent (scope : SandboxPermissionScope)
| RegisterOnce (id : Z)
| Grant (req : SandboxPermissionGrantRequest)
| Revoke (id : Z)
| DenialFor (path : str) (capability : SandboxPermissionCapability)
| MatchRules (command : str) (d : SandboxPolicyDenial)
| AddRule (command : str) (d : SandboxPolicyDenial)
| Enter (tool : str)
| Leave.

(** The control of permissions is optional: [None] when the backend has none. *)
Definition eff_ret (Value : Type) (c : Eff) : Type :=
  match c with
  | Attempt _ => result Value OperationError
  | AttemptExec _ => result ExecResult OperationError
  | Ask _ _ _ => InteractionResponse
  | ToolName => option str
  | CurrentScope => option SandboxPermissionScope
  | ApproveCurrent _ | RegisterOnce _ | MatchRules _ _ => bool
  | Grant _ => option (result Z OperationError)
  | DenialFor _ _ => option (result (option SandboxPolicyDenial) OperationError)
  | Leave => list Z
  | Revoke _ | AddRule _ _ | Enter _ => ()
  end.

(** ** Operations *)

Section Operations.
Context {Value : Type}.
Abbreviation Prog := (Free (eff_ret Value)).
Abbreviation call c := (Free.call (R := eff_ret Value) c).

Definition context_matches_auto_approval (ctx : option str) (d : SandboxPolicyDenial) : Prog bool :=
  match ctx with
  | Some command => call (MatchRules command d)
  | None => Ret false
  end.

Definition request_permission (d : SandboxPolicyDenial) (ctx : option str) :
    Prog (result PermissionDecision OperationError) :=
  let& tool := call ToolName in
  let& response := call (Ask d ctx {| question_prompt := permission_prompt tool d ctx;
                                      question_options := permission_options d ctx |}) in
  Ret match decision_of d ctx response with
      | Some decision => Ok decision
      | None => Err (SandboxPolicyDenied d)
      end.

Definition scope_for (d : SandboxPolicyDenial) (ctx : option str) :
    Prog (result SandboxPermissionScope OperationError) :=
  let& auto := context_matches_auto_approval ctx d in
  if auto then Ret (Ok Once)
  else
    let& current := call CurrentScope in
    match current with
    | Some scope => Ret (Ok scope)
    | None =>
        let&? decision := request_permission d ctx in
        match decision, ctx with
        | GrantScope scope, _ => do& (ApproveCurrent scope); Ret (Ok scope)
        | AllowSimilarBashForSession, Some command => do& (AddRule command d); Ret (Ok Once)
        | AllowSimilarBashForSession, None => Ret (Ok Once)
        end
    end.

(** The ids that are added to the clean-up of the caller. *)
Definition grant_after_permission (d : SandboxPolicyDenial) (ctx : option str) :
    Prog (result (list Z) OperationError) :=
  let&? scope := scope_for d ctx in
  let grant_scope := if is_runtime d then Once else scope in
  let& granted := call (Grant {| request_denial := d; request_scope := grant_scope |}) in
  match granted with
  | None => Ret (Err (SandboxPolicyDenied d))
  | Some (Err e) => Ret (Err e)
  | Some (Ok id) =>
      match grant_scope with
      | Once => let& registered := call (RegisterOnce id) in Ret (Ok (if registered then [] else [id]))
      | Session => Ret (Ok [])
      end
  end.

Fixpoint revoke_all (ids : list Z) : Prog () :=
  match ids with
  | [] => Ret ()
  | id :: ids => do& (Revoke id); revoke_all ids
  end.

Definition finish_with {T} (cleanup : list Z) (r : result T OperationError) : Prog (result T OperationError) :=
  let& _ := revoke_all cleanup in Ret r.

(** The loop of [run_with_permission] with [n] retries left. *)
Fixpoint permission_loop {T} (n : nat) (cleanup : list Z) (operation : Prog (result T OperationError)) :
    Prog (result T OperationError) :=
  let& r := operation in
  match r with
  | Err (SandboxPolicyDenied d) =>
      match n with
      | O => finish_with cleanup (Err (SandboxPolicyDenied d))
      | S n =>
          let& granted := grant_after_permission d None in
          match granted with
          | Err e => finish_with cleanup (Err e)
          | Ok ids => permission_loop n (cleanup ++ ids) operation
          end
      end
  | r => finish_with cleanup r
  end.

Definition run_with_permission {T} (operation : Prog (result T OperationError)) :
    Prog (result T OperationError) :=
  permission_loop MAX_SANDBOX_PERMISSION_RETRIES [] operation.

(** The loop of [retry_after_permission]. *)
Fixpoint retry_loop {T} (n : nat) (cleanup : list Z) (d : SandboxPolicyDenial) (ctx : option str)
    (operation : Prog (result T OperationError)) : Prog (result T OperationError) :=
  let& granted := grant_after_permission d ctx in
  match granted with
  | Err e => finish_with cleanup (Err e)
  | Ok ids =>
      let cleanup := cleanup ++ ids in
      let& r := operation in
      match r with
      | Err (SandboxPolicyDenied d) =>
          match n with
          | O => finish_with cleanup (Err (SandboxPolicyDenied d))
          | S n => retry_loop n cleanup d ctx operation
          end
      | r => finish_with cleanup r
      end
  end.

Definition retry_after_permission {T} (d : SandboxPolicyDenial) (ctx : option str)
    (operation : Prog (result T OperationError)) : Prog (result T OperationError) :=
  retry_loop MAX_SANDBOX_PERMISSION_RETRIES [] d ctx operation.

(** ** Denials at run time *)

Definition runtime_seatbelt_denial (r : ExecResult) : option SandboxPolicyDenial :=
  denied_path_from_stderr (from_utf8_lossy (stderr r)) ≫= fun path =>
    Some {| denial_backend_id := lit "local"; denial_isolation := lit "macos_seatbelt";
            denial_operation := lit "bash"; denial_capability := Write; denial_path := path |}.

Definition silent_runtime_denial (backend : str) : SandboxPolicyDenial :=
  {| denial_backend_id := backend; denial_isolation := lit "macos_seatbelt"; denial_operation := lit "bash";
     denial_capability := ExecRuntime;
     denial_path := lit "<runtime path not reported by macOS Seatbelt>" |}.

Definition is_silent_seatbelt_exec_denial (r : ExecResult) : bool :=
  bool_decide (exit_code r = None) && negb (timed_out r) && bool_decide (stdout r = []) &&
  bool_decide (stderr r = []).

(** The first candidate that the policy refuses. *)
Fixpoint first_denial (cs : list RuntimePathCandidate) : Prog (option SandboxPolicyDenial) :=
  match cs with
  | [] => Ret None
  | c :: cs =>
      let& r := call (DenialFor (candidate_path c) (candidate_capability c)) in
      match r with
      | Some (Ok (Some d)) => Ret (Some d)
      | _ => first_denial cs
      end
  end.

Definition runtime_bubblewrap_denial (command : str) (r : ExecResult) : Prog (option SandboxPolicyDenial) :=
  if bool_decide (exit_code r = Some 0) || timed_out r then Ret None
  else first_denial (bubblewrap_path_candidates_from_stderr (from_utf8_lossy (stderr r)) command).

Definition runtime_linux_dynsandbox_denial : str → ExecResult → Prog (option SandboxPolicyDenial) :=
  runtime_bubblewrap_denial.

Definition runtime_exec_denial (backend : str) (exec_isolation : option str) (command : str) (r : ExecResult) :
    Prog (option SandboxPolicyDenial) :=
  if bool_decide (exec_isolation = Some (lit "macos_seatbelt")) then
    Ret match runtime_seatbelt_denial r with
        | Some d => Some d
        | None => if is_silent_seatbelt_exec_denial r then Some (silent_runtime_denial backend) else None
        end
  else if bool_decide (exec_isolation = Some (lit "linux_bubblewrap")) then runtime_bubblewrap_denial command r
  else if bool_decide (exec_isolation = Some (lit "linux_dynsandbox")) then
    runtime_linux_dynsandbox_denial command r
  else Ret None.

Definition annotation : list byte :=
  lit "Command failed because the local sandbox blocked an operation." ++ newline.
Definition annotate_seatbelt_stderr (r : ExecResult) : ExecResult :=
  let text := from_utf8_lossy (stderr r) in
  if negb (contains (lit "Operation not permitted") text) && negb (contains (lit "operation not permitted") text)
  then r
  else if starts_with annotation (stderr r) then r
  else {| stdout := stdout r; stderr := annotation ++ stderr r; exit_code := exit_code r;
          timed_out := timed_out r |}.

(** ** The backend *)

Context (backend : str) (exec_isolation : option str).

(** The loop of [exec] with [n] retries left. *)
Fixpoint exec_loop (n : nat) (command : str) (r : ExecResult) : Prog (result ExecResult OperationError) :=
  let& denial := runtime_exec_denial backend exec_isolation command r in
  match denial with
  | None => Ret (Ok (annotate_seatbelt_stderr r))
  | Some d =>
      match n with
      | O => Ret (Err (SandboxPolicyDenied d))
      | S n =>
          let&? r := retry_after_permission d (Some command) (call (AttemptExec false)) in
          exec_loop n command r
      end
  end.

Definition exec (request : ExecRequest) : Prog (result ExecResult OperationError) :=
  let&? r := run_with_permission (call (AttemptExec false)) in
  exec_loop MAX_SANDBOX_PERMISSION_RETRIES (command request) r.

Definition exec_streaming : Prog (result ExecResult OperationError) :=
  let&? r := call (AttemptExec true) in Ret (Ok (annotate_seatbelt_stderr r)).

(** The operations on files, searches and exports. *)
Definition inner_operation (op : InnerOp) : Prog (result Value OperationError) :=
  run_with_permission (call (Attempt op)).

Definition scope_tool_invocation {T} (tool : str) (future : Prog T) : Prog T :=
  do& (Enter tool);
  let& output := future in
  let& grants := call Leave in
  let& _ := revoke_all grants in
  Ret output.

(** What a tool does with its backend. *)
Inductive Use := UseInner (op : InnerOp) | UseExec (request : ExecRequest) | UseStreaming.

Definition use (u : Use) : Prog () :=
  match u with
  | UseInner op => let& _ := inner_operation op in Ret ()
  | UseExec request => let& _ := exec request in Ret ()
  | UseStreaming => let& _ := exec_streaming in Ret ()
  end.

Fixpoint uses (us : list Use) : Prog () :=
  match us with
  | [] => Ret ()
  | u :: us => let& _ := use u in uses us
  end.

End Operations.
