(* ===== verification/PermissionRuns.v ===== *)
(** * Tool calls that ask for permissions

    The tasks of a session that share a policy, its grants and the rules for
    similar commands, interleaved at every effect of [PermissionBackend], with the
    history of what was asked and granted; and what holds in every run: nothing is
    granted without consent, and what was granted once ends with its call. *)

From S2P Require Import Prelude RStr HostPath LocalPolicy Launcher UrlFallback Utf8.
From S2P Require Import DenialText Free PermissionBackend.

(** ** The world *)

Inductive Event :=
| Entered (t : nat) (tool : str)
| Asked (t : nat) (d : SandboxPolicyDenial) (ctx : option str) (q : ChoiceRequest) (r : InteractionResponse)
| Granted (t : nat) (id : Z) (req : SandboxPermissionGrantRequest).

Record World := {
  policy : option LocalBackendPolicy;
  rules : list BashSandboxApprovalRule;
  history : list Event;
}.
Definition set_policy v (w : World) : World := {| policy := v; rules := rules w; history := history w |}.
Definition set_rules v (w : World) : World := {| policy := policy w; rules := v; history := history w |}.
Definition record (e : Event) (w : World) : World :=
  {| policy := policy w; rules := rules w; history := history w ++ [e] |}.

(** What the inner backend and the user answer to one effect. *)
Record Env (Value : Type) := {
  env_value : result Value OperationError;
  env_exec : result ExecResult OperationError;
  env_answer : InteractionResponse;
}.
Arguments env_value {Value} e.
Arguments env_exec {Value} e.
Arguments env_answer {Value} e.

Definition from_raw (path : str) : BackendPath :=
  {| backend_id := []; namespace := Uncategorized; relative_path := []; native_path := path |}.

Definition approve (scope : SandboxPermissionScope) (c : ToolInvocationContext) : ToolInvocationContext :=
  {| context_tool_name := context_tool_name c; sandbox_permission_scope := Some scope;
     once_grants := once_grants c |}.
Definition add_once (id : Z) (c : ToolInvocationContext) : ToolInvocationContext :=
  {| context_tool_name := context_tool_name c; sandbox_permission_scope := sandbox_permission_scope c;
     once_grants := once_grants c ++ [id] |}.

(** [CURRENT_TOOL_INVOCATION.try_with]: the innermost context, if there is one. *)
Definition on_current (f : ToolInvocationContext → ToolInvocationContext) (ctxs : list ToolInvocationContext) :
    bool * list ToolInvocationContext :=
  match ctxs with
  | [] => (false, [])
  | c :: ctxs => (true, f c :: ctxs)
  end.

Section System.
Context `{FS : FileSystem} {Value : Type} (state : LocalBackendState) (backend : str) (exec_isolation : option str).
Abbreviation Prog := (Free (eff_ret Value)).

(** The grant of the backend, with its event. *)
Definition do_grant (t : nat) (req : SandboxPermissionGrantRequest) (w : World) :
    option (result Z OperationError) * World :=
  match policy w with
  | None => (None, w)
  | Some pol =>
      match grant pol req with
      | (Ok id, pol') => (Some (Ok id), record (Granted t id req) (set_policy (Some pol') w))
      | (Err e, pol') => (Some (Err e), set_policy (Some pol') w)
      end
  end.

Definition do_revoke (id : Z) (w : World) : World :=
  match policy w with
  | None => w
  | Some pol => set_policy (Some (revoke pol id).2) w
  end.

Definition denial_for (w : World) (path : str) (capability : SandboxPermissionCapability) :
    option (result (option SandboxPolicyDenial) OperationError) :=
  match policy w with
  | None => None
  | Some pol =>
      Some (let? host := backend_path_to_host state (from_raw path) in
            sandbox_denial_for_path pol host capability (lit "bash"))
  end.

(** An effect of task [t], whose contexts are [ctxs]. *)
Definition perform (t : nat) (e : Env Value) (c : Eff) (ctxs : list ToolInvocationContext) (w : World) :
    eff_ret Value c * (list ToolInvocationContext * World) :=
  match c return eff_ret Value c * (list ToolInvocationContext * World) with
  | Attempt _ => (env_value e, (ctxs, w))
  | AttemptExec _ => (env_exec e, (ctxs, w))
  | Ask d ctx q => (env_answer e, (ctxs, record (Asked t d ctx q (env_answer e)) w))
  | ToolName => (context_tool_name <$> head ctxs, (ctxs, w))
  | CurrentScope => (head ctxs ≫= sandbox_permission_scope, (ctxs, w))
  | ApproveCurrent scope => let r := on_current (approve scope) ctxs in (r.1, (r.2, w))
  | RegisterOnce id => let r := on_current (add_once id) ctxs in (r.1, (r.2, w))
  | Grant req => let r := do_grant t req w in (r.1, (ctxs, r.2))
  | Revoke id => ((), (ctxs, do_revoke id w))
  | DenialFor path cap => (denial_for w path cap, (ctxs, w))
  | MatchRules command d => (rules_match command d (rules w), (ctxs, w))
  | AddRule command d => ((), (ctxs, set_rules (add_rule command d (rules w)) w))
  | Enter tool => ((), (new_context tool :: ctxs, record (Entered t tool) w))
  | Leave => (match ctxs with [] => [] | c :: _ => once_grants c end, (tail ctxs, w))
  end.

(** ** Tasks *)

(** A tool call, or one use of the backend outside of any. *)
Inductive Call := ToolCall (tool : str) (us : list Use) | Bare (u : Use).
Definition program (c : Call) : Prog () :=
  match c with
  | ToolCall tool us => scope_tool_invocation tool (uses backend exec_isolation us)
  | Bare u => use backend exec_isolation u
  end.

Record Task := { contexts : list ToolInvocationContext; code : Prog () }.
Record Sys := { world : World; tasks : list Task }.

Inductive Label := Start (c : Call) | Step (t : nat) (e : Env Value).

Definition fire (s : Sys) (l : Label) : option Sys :=
  match l with
  | Start c => Some {| world := world s; tasks := tasks s ++ [{| contexts := []; code := program c |}] |}
  | Step t e =>
      match tasks s !! t with
      | Some {| contexts := ctxs; code := Next c k |} =>
          let r := perform t e c ctxs (world s) in
          Some {| world := r.2.2; tasks := <[t := {| contexts := r.2.1; code := k r.1 |}]> (tasks s) |}
      | _ => None
      end
  end.

Fixpoint fires (s : Sys) (ls : list Label) : option Sys :=
  match ls with
  | [] => Some s
  | l :: ls => match fire s l with Some s => fires s ls | None => None end
  end.

Definition boot (pol : option LocalBackendPolicy) : Sys :=
  {| world := {| policy := pol; rules := []; history := [] |}; tasks := [] |}.

(** One task with the session to itself; what the outside answers may depend on
    the world it is asked in. *)
Fixpoint run_alone {T} (t : nat) (answer : World → Env Value) (p : Prog T) (ctxs : list ToolInvocationContext)
    (w : World) : T * (list ToolInvocationContext * World) :=
  match p with
  | Ret x => (x, (ctxs, w))
  | Next c k => let r := perform t (answer w) c ctxs w in run_alone t answer (k r.1) r.2.1 r.2.2
  end.
End System.
