(* ===== verification/PermissionSafety.v ===== *)
(** * What holds of permissions

    A logic for the programs of [PermissionBackend]: a program knows events of the
    history, which only grows, owes the revocation of the grants it holds, and is
    inside a number of contexts. *)

From S2P Require Import Prelude RStr HostPath LocalPolicy Launcher UrlFallback Utf8.
From S2P Require Import DenialText Free PermissionBackend PermissionRuns.

(** ** Consent *)

Definition allow (s : SandboxPermissionScope) : str := match s with Once => ALLOW_ONCE | Session => ALLOW_SESSION end.

(** Task [t] asked about [d], offered to allow it once or for the session, and the
    user chose so. *)
Definition consented (t : nat) (K : list Event) (d : SandboxPolicyDenial) (s : SandboxPermissionScope) : Prop :=
  ∃ ctx q, Asked t d ctx q (ChoiceAnswer (Some (allow s))) ∈ K ∧ allow s ∈ question_options q.

(** The user was offered to allow commands like [command], which met [d], and chose
    so. *)
Definition similar (t : nat) (K : list Event) (command : str) (d : SandboxPolicyDenial) : Prop :=
  ∃ q, Asked t d (Some command) q (ChoiceAnswer (Some ALLOW_SIMILAR_BASH_SESSION)) ∈ K ∧
    ALLOW_SIMILAR_BASH_SESSION ∈ question_options q.

(** Why task [t] may make a grant: the user allowed this very denial; or allowed
    another one of the same tool call, whose scope then holds for the call; or
    allowed similar commands, here or by a rule that fits the command. *)
Inductive justified (t : nat) (K : list Event) (req : SandboxPermissionGrantRequest) : Prop :=
| by_answer s :
    consented t K (request_denial req) s → (request_scope req = Session → s = Session) → justified t K req
| by_call tool d s :
    Entered t tool ∈ K → consented t K d s → (request_scope req = Session → s = Session) → justified t K req
| by_similar command :
    similar t K command (request_denial req) → request_scope req = Once → justified t K req
| by_rule t' command' d' rule command :
    similar t' K command' d' → from_denial command' d' = Some rule →
    rule_matches command (request_denial req) rule = true → request_scope req = Once → justified t K req.

Lemma consented_mono t K K' d s : K ⊆ K' → consented t K d s → consented t K' d s.
Proof. intros Hs (ctx & q & ? & ?). exists ctx, q. auto. Qed.
Lemma similar_mono t K K' c d : K ⊆ K' → similar t K c d → similar t K' c d.
Proof. intros Hs (q & ? & ?). exists q. auto. Qed.
Lemma justified_mono t K K' req : K ⊆ K' → justified t K req → justified t K' req.
Proof.
  intros Hs [s H1 H2|tool d s H1 H2 H3|c H1 H2|t' c' d' rule c H1 H2 H3 H4].
  - eapply by_answer; eauto using consented_mono.
  - eapply by_call; eauto using consented_mono.
  - eapply by_similar; eauto using similar_mono.
  - eapply by_rule; eauto using similar_mono.
Qed.

(** An answer that counts was given, and was offered. *)
Lemma decision_allowed d ctx r s : decision_of d ctx r = Some (GrantScope s) →
  r = ChoiceAnswer (Some (allow s)) ∧ allow s ∈ permission_options d ctx.
Proof.
  unfold permission_options. destruct r as [| | |[v|]]; simpl; try done. case_bool_decide as Ho.
  - intros [= <-]. subst v. split; [done|]. apply list_elem_of_In. destruct (is_runtime d); simpl; auto.
  - destruct (bool_decide (v = ALLOW_SESSION) && negb (is_runtime d)) eqn:E.
    + apply andb_prop in E as [E1 E2]. apply bool_decide_eq_true in E1 as ->. intros [= <-]. split; [done|].
      apply list_elem_of_In. destruct (is_runtime d); [done|]. simpl. auto.
    + by destruct (bool_decide (v = ALLOW_SIMILAR_BASH_SESSION) && _).
Qed.

Lemma decision_similar d ctx r : decision_of d ctx r = Some AllowSimilarBashForSession →
  r = ChoiceAnswer (Some ALLOW_SIMILAR_BASH_SESSION) ∧ ALLOW_SIMILAR_BASH_SESSION ∈ permission_options d ctx ∧
  ctx ≠ None.
Proof.
  unfold permission_options. destruct r as [| | |[v|]]; simpl; try done. case_bool_decide; [done|].
  destruct (_ && negb _); [done|]. destruct (bool_decide (v = _) && _) eqn:E; [|done].
  apply andb_prop in E as [Ev E]. apply bool_decide_eq_true in Ev as ->. intros _. split; [done|]. rewrite E. split.
  - destruct (is_runtime d) eqn:Er; [|apply list_elem_of_In; simpl; auto]. destruct ctx as [c|]; [|done]. simpl in E. unfold from_denial in E.
    by rewrite Er in E.
  - by destruct ctx.
Qed.

(** ** The logic *)

Section Logic.
Context {Value : Type}.
Abbreviation Prog := (Free (eff_ret Value)).
Abbreviation call c := (Free.call (R := eff_ret Value) c).

Definition pre (t : nat) (c : Eff) (K : list Event) (D : nat) : Prop :=
  match c with
  | Grant req => justified t K req
  | ApproveCurrent s => ∃ d, consented t K d s
  | AddRule command d => similar t K command d
  | Leave => D ≠ 0%nat
  | _ => True
  end.

Definition learned (t : nat) (c : Eff) : eff_ret Value c → list Event → Prop :=
  match c return eff_ret Value c → list Event → Prop with
  | Ask d ctx q => fun r K => Asked t d ctx q r ∈ K
  | CurrentScope => fun x K => ∀ s, x = Some s → ∃ tool d, Entered t tool ∈ K ∧ consented t K d s
  | MatchRules command d => fun x K =>
      x = true → ∃ t' command' d' rule, similar t' K command' d' ∧ from_denial command' d' = Some rule ∧
        rule_matches command d rule = true
  | Enter tool => fun _ K => Entered t tool ∈ K
  | _ => fun _ _ => True
  end.

Definition owed (c : Eff) (O : list Z) : eff_ret Value c → list Z :=
  match c return eff_ret Value c → list Z with
  | Grant req => fun x =>
      match x with
      | Some (Ok id) => if bool_decide (request_scope req = Once) then id :: O else O
      | _ => O
      end
  | RegisterOnce id => fun x => if x : bool then filter (fun i => i ≠ id) O else O
  | Revoke id => fun _ => filter (fun i => i ≠ id) O
  | Leave => fun ids => O ++ ids
  | _ => fun _ => O
  end.

Definition depth (c : Eff) (D : nat) : nat :=
  match c with Enter _ => S D | Leave => Nat.pred D | _ => D end.

Fixpoint ok {T} (t : nat) (p : Prog T) (K : list Event) (O : list Z) (D : nat)
    (Q : T → list Event → list Z → nat → Prop) : Prop :=
  match p with
  | Ret x => Q x K O D
  | Next c k =>
      pre t c K D ∧ ∀ x K', K ⊆ K' → learned t c x K' → ok t (k x) K' (owed c O x) (depth c D) Q
  end.

Lemma ok_bind {A B} t (p : Prog A) (f : A → Prog B) Q : ∀ K O D,
  ok t p K O D (fun x K O D => ok t (f x) K O D Q) → ok t (bind p f) K O D Q.
Proof.
  induction p as [x|c k IH]; intros K O D; simpl; [done|]. intros [Hp Hk]. split; [done|].
  intros x K' HK Hl. by apply IH, Hk.
Qed.

Lemma ok_post {T} t (p : Prog T) Q Q' : ∀ K O D,
  (∀ x K O D, Q x K O D → Q' x K O D) → ok t p K O D Q → ok t p K O D Q'.
Proof.
  induction p as [x|c k IH]; intros K O D HQ; simpl; [apply HQ|]. intros [Hp Hk]. split; [done|].
  intros x K' HK Hl. by apply IH, Hk.
Qed.

(** A program that owes no more at its end than at its start, at the same depth. *)
Definition clean {T} (t : nat) (p : Prog T) : Prop :=
  ∀ K O D, ok t p K O D (fun _ _ O' D' => O' ⊆ O ∧ D' = D).

Lemma clean_ret {T} t (x : T) : clean t (Ret x).
Proof. by intros K O D. Qed.

Lemma clean_bind {A B} t (p : Prog A) (f : A → Prog B) :
  clean t p → (∀ x, clean t (f x)) → clean t (bind p f).
Proof.
  intros Hp Hf K O D. apply ok_bind. eapply ok_post; [|apply Hp]. intros x K1 O1 D1 [HO ->].
  eapply ok_post; [|apply Hf]. intros y K2 O2 D2 [HO2 ->]. split; [set_solver|done].
Qed.

Lemma clean_bind_ok {A B} t (p : Prog (result A OperationError)) (f : A → Prog (result B OperationError)) :
  clean t p → (∀ x, clean t (f x)) → clean t (bind_ok p f).
Proof. intros Hp Hf. apply clean_bind; [done|]. intros [x|e]; [apply Hf|apply clean_ret]. Qed.

(** An effect that changes nothing here. *)
Definition plain (c : Eff) : Prop :=
  match c with
  | Attempt _ | AttemptExec _ | ToolName | CurrentScope | DenialFor _ _ | MatchRules _ _ | Ask _ _ _ => True
  | _ => False
  end.
Lemma clean_call t c : plain c → clean t (call c).
Proof. intros Hc K O D. destruct c; try done; simpl; (split; [done|]); intros; (split; [set_solver|done]). Qed.

(** ** Grants *)

Lemma revoke_all_ok t ids : ∀ K O O0 D,
  O ⊆ ids ++ O0 → ok t (revoke_all ids) K O D (fun _ _ O' D' => O' ⊆ O0 ∧ D' = D).
Proof.
  induction ids as [|id ids IH]; intros K O O0 D HO; simpl; [done|]. split; [done|].
  intros _ K' _ _. apply IH. intros i [Hne Hin]%list_elem_of_filter. pose proof (HO i Hin). set_solver.
Qed.

Lemma finish_owes {T} t cleanup (r : result T OperationError) K O O0 D :
  O ⊆ cleanup ++ O0 → ok t (finish_with cleanup r) K O D (fun _ _ O' D' => O' ⊆ O0 ∧ D' = D).
Proof. intros HO. apply ok_bind. eapply ok_post; [|by apply revoke_all_ok]. done. Qed.

Definition final_scope (d : SandboxPolicyDenial) (s : SandboxPermissionScope) : SandboxPermissionScope :=
  if is_runtime d then Once else s.

Lemma scope_for_ok t d ctx K O D :
  ok t (scope_for d ctx) K O D (fun r K' O' D' =>
    O' = O ∧ D' = D ∧
    ∀ s, r = Ok s → justified t K' {| request_denial := d; request_scope := final_scope d s |}).
Proof.
  assert (final_scope d Once = Once) as Honce by (unfold final_scope; by destruct (is_runtime d)).
  assert (∀ s, final_scope d s = Session → s = Session) as Hses
    by (intros s; unfold final_scope; by destruct (is_runtime d)).
  apply ok_bind. unfold context_matches_auto_approval.
  assert (∀ K, ok t (let& current := call CurrentScope in
       match current with
       | Some scope => Ret (Ok scope)
       | None =>
           let&? decision := request_permission d ctx in
           match decision, ctx with
           | GrantScope scope, _ => do& (ApproveCurrent scope); Ret (Ok scope)
           | AllowSimilarBashForSession, Some command => do& (AddRule command d); Ret (Ok Once)
           | AllowSimilarBashForSession, None => Ret (Ok Once)
           end
       end) K O D (fun r K' O' D' => O' = O ∧ D' = D ∧
    ∀ s, r = Ok s → justified t K' {| request_denial := d; request_scope := final_scope d s |})) as Hask.
  { clear K. intros K. split; [done|]. intros [s|] K1 HK1 Hl; simpl.
    - split_and!; [done|done|]. intros ? [= <-]. destruct (Hl s eq_refl) as (tool & d' & ? & ?).
      eapply by_call; [done|done|]. apply Hses.
    - split; [done|]. intros tool K2 HK2 _. split; [done|]. intros r K3 HK3 Hq. simpl in Hq.
      destruct (decision_of d ctx r) as [[s|]|] eqn:Ed; simpl.
      + destruct (decision_allowed _ _ _ _ Ed) as [-> Hin]. split; [exists d, ctx; by eexists|]. intros _ K4 HK4 _. split_and!; [done|done|]. intros ? [= <-].
        eapply by_answer; [|apply Hses]. eapply consented_mono; [exact HK4|]. exists ctx. by eexists.
      + destruct (decision_similar _ _ _ Ed) as (-> & Hin & Hctx). destruct ctx as [command|]; [|done].
        split; [by eexists|]. intros [] K4 HK4 _. split_and!; [done|done|]. intros ? [= <-].
        eapply by_similar; [|exact Honce]. eapply similar_mono; [exact HK4|]. by eexists.
      + done. }
  destruct ctx as [command|]; [|apply Hask]. split; [done|]. intros b K1 HK1 Hl. simpl. destruct b; [|apply Hask].
  split_and!; [done|done|]. intros ? [= <-]. destruct (Hl eq_refl) as (t' & c' & d' & rule & ? & ? & ?).
  by eapply by_rule.
Qed.

Lemma grant_after_permission_ok t d ctx K O D :
  ok t (grant_after_permission d ctx) K O D (fun r _ O' D' =>
    O' ⊆ match r with Ok ids => ids ++ O | Err _ => O end ∧ D' = D).
Proof.
  apply ok_bind. eapply ok_post; [|apply scope_for_ok]. intros [s|e] K1 O1 D1 (-> & -> & Hj); simpl; [|done].
  split; [by apply Hj|]. intros [[id|e]|] K2 HK2 _; simpl; [|done|done].
  fold (final_scope d s). destruct (final_scope d s); simpl; [|done].
  split; [done|]. intros [] K3 HK3 _; simpl; [|done]. split; [|done].
  intros i [Hne Hin]%list_elem_of_filter. set_solver.
Qed.

Lemma permission_loop_ok {T} t n (op : Prog (result T OperationError)) : clean t op →
  ∀ cleanup K O O0 D, O ⊆ cleanup ++ O0 →
  ok t (permission_loop n cleanup op) K O D (fun _ _ O' D' => O' ⊆ O0 ∧ D' = D).
Proof.
  intros Hop. induction n as [|n IH]; intros cleanup K O O0 D HO; cbn [permission_loop]; apply ok_bind;
    (eapply ok_post; [|apply Hop]); intros r K1 O1 D1 [H1 ->];
    (assert (O1 ⊆ cleanup ++ O0) as HO1 by set_solver);
    destruct r as [v|[]]; try by apply finish_owes.
  apply ok_bind. eapply ok_post; [|apply grant_after_permission_ok]. intros [ids|e] K2 O2 D2 [H2 ->].
  - apply IH. set_solver.
  - apply finish_owes. set_solver.
Qed.

Lemma run_with_permission_clean {T} t (op : Prog (result T OperationError)) :
  clean t op → clean t (run_with_permission op).
Proof. intros Hop K O D. by apply permission_loop_ok. Qed.

Lemma retry_loop_ok {T} t n (op : Prog (result T OperationError)) ctx : clean t op →
  ∀ cleanup d K O O0 D, O ⊆ cleanup ++ O0 →
  ok t (retry_loop n cleanup d ctx op) K O D (fun _ _ O' D' => O' ⊆ O0 ∧ D' = D).
Proof.
  intros Hop. induction n as [|n IH]; intros cleanup d K O O0 D HO; cbn [retry_loop]; apply ok_bind;
    (eapply ok_post; [|apply grant_after_permission_ok]); intros [ids|e] K1 O1 D1 [H1 ->];
    try (apply finish_owes; set_solver); apply ok_bind; (eapply ok_post; [|apply Hop]);
    intros r K2 O2 D2 [H2 ->]; (assert (O2 ⊆ (cleanup ++ ids) ++ O0) as HO2 by set_solver);
    destruct r as [v|[]]; try by apply finish_owes.
  by apply IH.
Qed.

Lemma first_denial_clean t cs : clean t (first_denial cs).
Proof.
  induction cs as [|c cs IH]; cbn [first_denial]; [apply clean_ret|]. apply clean_bind; [by apply clean_call|].
  intros [[[d|]|e]|]; auto using clean_ret.
Qed.

Lemma runtime_exec_denial_clean t b iso command r : clean t (runtime_exec_denial b iso command r).
Proof.
  unfold runtime_exec_denial, runtime_linux_dynsandbox_denial, runtime_bubblewrap_denial.
  repeat case_match; auto using clean_ret, first_denial_clean.
Qed.

Lemma exec_loop_clean t b iso n command : ∀ r, clean t (exec_loop b iso n command r).
Proof.
  induction n as [|n IH]; intros r; cbn [exec_loop]; (apply clean_bind; [apply runtime_exec_denial_clean|]);
    intros [d|]; auto using clean_ret.
  apply clean_bind_ok; [|apply IH]. intros K O D. apply retry_loop_ok; [by apply clean_call|set_solver].
Qed.

Lemma use_clean t b iso u : clean t (use b iso u).
Proof.
  destruct u as [op|req|]; cbn [use]; (apply clean_bind; [|intros; apply clean_ret]).
  - apply run_with_permission_clean. by apply clean_call.
  - apply clean_bind_ok; [apply run_with_permission_clean; by apply clean_call|]. intros r. apply exec_loop_clean.
  - apply clean_bind_ok; [by apply clean_call|]. intros r. apply clean_ret.
Qed.

Lemma uses_clean t b iso us : clean t (uses b iso us).
Proof. induction us as [|u us IH]; cbn [uses]; [apply clean_ret|]. apply clean_bind; [apply use_clean|done]. Qed.

Lemma scope_tool_invocation_clean {T} t tool (p : Prog T) : clean t p → clean t (scope_tool_invocation tool p).
Proof.
  intros Hp K O D. split; [done|]. intros [] K1 HK1 _. simpl. apply ok_bind. eapply ok_post; [|apply Hp].
  intros x K2 O2 D2 [HO ->]. simpl. split; [done|]. intros ids K3 HK3 _. simpl. apply ok_bind.
  eapply ok_post; [|apply (revoke_all_ok _ ids _ _ O2)]; [|set_solver]. intros _ K4 O4 D4 [HO4 ->]. simpl.
  split; [set_solver|done].
Qed.
End Logic.

(** ** Runs *)

Lemma grant_store `{FS : FileSystem} pol req r pol' : grant pol req = (r, pol') →
  match r with
  | Ok id => ∃ path, store_grants (grants pol') = store_grants (grants pol) ++
      [{| grant_id := id; grant_capability := denial_capability (request_denial req); grant_path := path |}]
  | Err _ => pol' = pol
  end.
Proof.
  unfold grant. destruct (_ && _); [by intros [= <- <-]|].
  destruct (match denial_capability _ with Read | ExecCwd => _ | Write => _ | ExecRuntime => _ end) as [path|e];
    [|by intros [= <- <-]].
  unfold lock_grants. destruct (poisoned pol); [by intros [= <- <-]|]. intros [= <- <-]. by exists path.
Qed.

Section Runs.
Context `{FS : FileSystem} {Laws : FileSystemLaws FS} {Value : Type}.
Context (state : LocalBackendState) (backend : str) (exec_isolation : option str).

(** [owners t] are the grants that task [t] still has to revoke. *)
Record world_ok (n : nat) (w : World) (owners : nat → list Z) : Prop := {
  wk_policy pol : policy w = Some pol → policy_inv n pol;
  wk_rules rule : rule ∈ rules w → ∃ t c d, similar t (history w) c d ∧ from_denial c d = Some rule;
  wk_grants pol g : policy w = Some pol → g ∈ store_grants (grants pol) →
    ∃ t req, Granted t (grant_id g) req ∈ history w ∧
      grant_capability g = denial_capability (request_denial req) ∧
      (request_scope req = Session ∨ grant_id g ∈ owners t);
  wk_history h1 t id req h2 : history w = h1 ++ Granted t id req :: h2 → justified t h1 req;
}.

Record contexts_ok (t : nat) (h : list Event) (ctxs : list ToolInvocationContext) : Prop := {
  co_entered : ctxs ≠ [] → ∃ tool, Entered t tool ∈ h;
  co_scope c s : c ∈ ctxs → sandbox_permission_scope c = Some s → ∃ d, consented t h d s;
}.

Definition held (ctxs : list ToolInvocationContext) : list Z := ctxs ≫= once_grants.

Lemma policy_inv_S n pol : policy_inv n pol → policy_inv (S n) pol.
Proof. intros (? & ? & ? & ? & ?). split_and!; [done|done|done|done|lia]. Qed.

(** Steps that leave the policy and the rules as they are. *)
Lemma world_ok_more n w owners owners' es :
  world_ok n w owners → (∀ t, owners t ⊆ owners' t) → Forall (fun e => ∀ t id req, e ≠ Granted t id req) es →
  world_ok (S n) {| policy := policy w; rules := rules w; history := history w ++ es |} owners'.
Proof.
  intros [Hp Hr Hg Hh] Ho Hes. constructor; simpl.
  - intros pol E. by apply policy_inv_S, Hp.
  - intros rule (t & c & d & Hs & ?)%Hr. exists t, c, d. split; [|done]. eapply similar_mono; [|exact Hs]. set_solver.
  - intros pol g Ep (t & req & ? & ? & Hin)%(Hg pol); [|done]. exists t, req. split; [set_solver|]. split; [done|].
    destruct Hin; [by left|right; by apply Ho].
  - induction es as [|e es IH] using rev_ind; intros h1 t id req h2 E; [rewrite app_nil_r in E; by eapply Hh|].
    apply Forall_app in Hes as [Hes He]. apply Forall_cons in He as [He _].
    destruct h2 as [|e2 h2 _] using rev_ind.
    + rewrite (app_assoc (history w)) in E. apply app_inj_tail in E as [_ E]. by destruct (He t id req).
    + rewrite (app_assoc (history w)), app_comm_cons, app_assoc in E. apply app_inj_tail in E as [E _].
      by eapply IH.
Qed.

Lemma world_ok_same n w owners owners' :
  world_ok n w owners → (∀ t, owners t ⊆ owners' t) → world_ok (S n) w owners'.
Proof.
  intros Hw Ho. pose proof (world_ok_more n w owners owners' [] Hw Ho (Forall_nil_2 _)) as H. rewrite app_nil_r in H.
  by destruct w.
Qed.

Lemma do_grant_ok n t req w owners owners' :
  world_ok n w owners → Z.of_nat (S n) ≤ Word.usize_max → justified t (history w) req →
  (∀ t, owners t ⊆ owners' t) →
  (∀ id, (do_grant t req w).1 = Some (Ok id) → request_scope req = Session ∨ id ∈ owners' t) →
  world_ok (S n) (do_grant t req w).2 owners'.
Proof.
  intros Hw Hn Hj Ho Hid. pose proof Hw as [Hp Hr Hg Hh]. unfold do_grant in *.
  destruct (policy w) as [pol|] eqn:Ep; [|by eapply world_ok_same].
  destruct (grant pol req) as [r pol'] eqn:Eg. pose proof (grant_store _ _ _ _ Eg) as Hst.
  pose proof (grant_inv _ _ _ _ _ Hn (Hp pol eq_refl) Eg) as Hpi. destruct r as [id|e]; simpl in *.
  - destruct Hst as [path Hst]. constructor; simpl.
    + by intros ? [= <-].
    + intros rule (t' & c & d & Hs & ?)%Hr. exists t', c, d. split; [|done]. eapply similar_mono; [|exact Hs]. set_solver.
    + intros ? g [= <-]. rewrite Hst. intros [Hin| ->%list_elem_of_singleton]%elem_of_app.
      * destruct (Hg pol g eq_refl Hin) as (t' & req' & ? & ? & Hin'). exists t', req'. split; [set_solver|].
        split; [done|]. destruct Hin'; [by left|right; by apply Ho].
      * exists t, req. simpl. split; [set_solver|]. split; [done|]. by apply Hid.
    + intros h1 t' id' req' h2 E. destruct h2 as [|e2 h2 _] using rev_ind.
      * apply app_inj_tail in E as [<- [= -> -> ->]]. done.
      * rewrite app_comm_cons, app_assoc in E. apply app_inj_tail in E as [E _]. by eapply Hh.
  - subst pol'. constructor; simpl; [|done| |done].
    + by intros ? [= <-].
    + intros ? g [= <-] Hin. destruct (Hg pol g eq_refl Hin) as (t' & req' & ? & ? & Hin'). exists t', req'.
      split; [done|]. split; [done|]. destruct Hin'; [by left|right; by apply Ho].
Qed.

Lemma do_revoke_ok n id w owners owners' :
  world_ok n w owners → (∀ t i, i ∈ owners t → i ≠ id → i ∈ owners' t) → world_ok (S n) (do_revoke id w) owners'.
Proof.
  intros [Hp Hr Hg Hh] Ho. unfold do_revoke. destruct (policy w) as [pol|] eqn:Ep.
  - pose proof (Hp pol eq_refl) as Hpi. destruct (revoke pol id) as [r pol'] eqn:Er.
    pose proof (revoke_inv _ _ _ _ _ Hpi Er) as Hpi'. unfold revoke, lock_grants in Er.
    destruct Hpi as (_ & _ & Hpo & _). rewrite Hpo in Er. injection Er as <- <-.
    constructor; simpl; [by intros ? [= <-]|done| |done].
    intros ? g [= <-] [Hne Hin]%list_elem_of_filter. destruct (Hg pol g eq_refl Hin) as (t' & req' & ? & ? & Hin').
    exists t', req'. split; [done|]. split; [done|]. destruct Hin'; [by left|right; by apply Ho].
  - constructor; [|done| |done]; rewrite Ep; done.
Qed.
Definition with_owner (owners : nat → list Z) (t : nat) (ids : list Z) : nat → list Z :=
  fun t' => if decide (t' = t) then ids else owners t'.

Lemma with_owner_sub owners t ids : owners t ⊆ ids → ∀ t', owners t' ⊆ with_owner owners t ids t'.
Proof. intros Hs t'. unfold with_owner. case_decide; [by subst|done]. Qed.

Lemma contexts_ok_mono t h h' ctxs : h ⊆ h' → contexts_ok t h ctxs → contexts_ok t h' ctxs.
Proof.
  intros Hh [He Hs]. constructor.
  - intros Hne. destruct (He Hne) as [tool ?]. exists tool. auto.
  - intros c s Hc Es. destruct (Hs c s Hc Es) as [d ?]. exists d. by eapply consented_mono.
Qed.

Lemma rules_match_In command d rs : rules_match command d rs = true → ∃ rule, rule ∈ rs ∧ rule_matches command d rule = true.
Proof.
  unfold rules_match. destruct (_ || _); [done|]. intros (rule & Hr & ?)%existsb_exists. exists rule.
  split; [by apply list_elem_of_In|done].
Qed.

Lemma add_rule_In command d rs rule :
  rule ∈ add_rule command d rs → rule ∈ rs ∨ from_denial command d = Some rule.
Proof.
  unfold add_rule. destruct (from_denial command d) as [r|] eqn:E; [|by left]. destruct (existsb _ _); [by left|].
  intros [?| ->%list_elem_of_singleton]%elem_of_app; [by left|by right].
Qed.

Lemma contexts_ok_current t h f ctxs :
  contexts_ok t h ctxs →
  (∀ c s, sandbox_permission_scope (f c) = Some s → sandbox_permission_scope c = Some s ∨ ∃ d, consented t h d s) →
  contexts_ok t h (on_current f ctxs).2.
Proof.
  intros [He Hs] Hf. destruct ctxs as [|c0 ctxs]; simpl; [by constructor|]. constructor.
  - intros _. by apply He.
  - intros c s [->|Hc]%elem_of_cons; [|by apply Hs; set_solver]. intros [E|?]%Hf; [|done].
    apply (Hs c0 s); [set_solver|done].
Qed.

Lemma perform_ok n t e c ctxs w K O owners :
  world_ok n w owners → Z.of_nat (S n) ≤ Word.usize_max → owners t ⊆ O ++ held ctxs →
  contexts_ok t (history w) ctxs → K ⊆ history w → pre t c K (length ctxs) →
  let r := perform (Value := Value) state t e c ctxs w in
  world_ok (S n) r.2.2 (with_owner owners t (owed c O r.1 ++ held r.2.1)) ∧
  contexts_ok t (history r.2.2) r.2.1 ∧ history w ⊆ history r.2.2 ∧ learned t c r.1 (history r.2.2) ∧
  length r.2.1 = depth c (length ctxs).
Proof.
  intros Hw Hn Ho Hc HK Hpre r. subst r. pose proof (with_owner_sub owners t _ Ho) as Hsub.
  assert (∀ ids, owners t ⊆ ids → world_ok (S n) w (with_owner owners t ids)) as Hsame.
  { intros ids Hi. eapply world_ok_same; [done|]. by apply with_owner_sub. }
  destruct c; cbn [perform owed depth learned fst snd];
    try (split_and!; [by apply Hsame|done|done|done|done]).
  - (* Ask *) split_and!; [| |set_solver|set_solver|done].
    + eapply (world_ok_more n w owners _ [_]); [done|done|]. by repeat constructor.
    + eapply contexts_ok_mono; [|exact Hc]. set_solver.
  - (* CurrentScope *) split_and!; [by apply Hsame|done|done| |done]. intros s Es.
    destruct ctxs as [|c0 ctxs]; [done|]. simpl in Es. destruct Hc as [He Hs].
    destruct (He ltac:(done)) as [tool ?]. destruct (Hs c0 s) as [d ?]; [set_solver|done|]. by exists tool, d.
  - (* ApproveCurrent *) split_and!; [| |done|done|by destruct ctxs].
    + apply Hsame. by destruct ctxs.
    + apply contexts_ok_current; [done|]. intros c s [= <-]. right. destruct Hpre as [d ?]. exists d. by eapply consented_mono.
  - (* RegisterOnce *) split_and!; [| |done|done|by destruct ctxs].
    + apply Hsame. destruct ctxs as [|c0 ctxs]; simpl; [done|]. intros i Hi. apply Ho in Hi.
      destruct (decide (i = id)) as [->|Hne]; [set_solver|].
      apply elem_of_app in Hi as [Hi|Hi]; [|set_solver]. apply elem_of_app. left. by apply list_elem_of_filter.
    + apply contexts_ok_current; [done|]. intros c s E. by left.
  - (* Grant *) assert (history w ⊆ history (do_grant t req w).2) as Hh.
    { unfold do_grant. destruct (policy w); [|done]. destruct (grant _ _) as [[]]; simpl; set_solver. }
    split_and!; [|by eapply contexts_ok_mono|done|done|done].
    apply (do_grant_ok n t req w owners); [done|done|by eapply justified_mono|apply with_owner_sub|].
    + destruct ((do_grant t req w).1) as [[id|]|]; [|done|done]. case_bool_decide; [|done]. set_solver.
    + intros id ->. destruct (request_scope req) eqn:Er; [right|by left]. unfold with_owner. rewrite decide_True by done.
      rewrite bool_decide_true by done. set_solver.
  - (* Revoke *) assert (history (do_revoke id w) = history w) as Hh by (unfold do_revoke; by destruct (policy w)).
    rewrite Hh. split_and!; [|done|done|done|done]. eapply do_revoke_ok; [done|]. intros t' i Hi Hne.
    unfold with_owner. case_decide; [subst|done]. apply Ho in Hi. apply elem_of_app in Hi as [Hi|Hi]; [|set_solver].
    apply elem_of_app. left. by apply list_elem_of_filter.
  - (* MatchRules *) split_and!; [by apply Hsame|done|done| |done]. intros (rule & Hr & Hm)%rules_match_In.
    destruct Hw as [_ Hrules _ _]. destruct (Hrules rule Hr) as (t' & c' & d' & ? & ?). by exists t', c', d', rule.
  - (* AddRule *) split_and!; [|done|done|done|done]. destruct (Hsame _ Ho) as [Hp Hr Hg Hh]. constructor; simpl; [done| |done|done].
    intros rule [?|?]%add_rule_In; [by apply Hr|]. exists t, command, d. split; [|done]. by eapply similar_mono.
  - (* Enter *) split_and!; [| |set_solver|set_solver|done].
    + eapply (world_ok_more n w owners _ [_]); [done|apply with_owner_sub; by simpl|]. by repeat constructor.
    + assert (contexts_ok t (history w ++ [Entered t tool]) ctxs) as [He Hs] by (eapply contexts_ok_mono; [|exact Hc]; set_solver). constructor.
      * intros _. exists tool. set_solver.
      * intros c s [->|Hin]%elem_of_cons; [done|]. by apply Hs.
  - (* Leave *) split_and!; [| |done|done|by destruct ctxs].
    + apply Hsame. destruct ctxs as [|c0 ctxs]; simpl; [by rewrite app_nil_r|]. by rewrite <- app_assoc.
    + destruct Hc as [He Hs]. destruct ctxs as [|c0 ctxs]; simpl; [by constructor|]. constructor.
      * intros _. by apply He.
      * intros c s Hin. apply Hs. set_solver.
Qed.
(** ** Every run *)

Abbreviation fires := (PermissionRuns.fires (Value := Value) state backend exec_isolation).

Definition owners (Os : nat → list Z) (ts : list (Task (Value := Value))) (t : nat) : list Z :=
  match ts !! t with Some task => Os t ++ held (contexts task) | None => [] end.

Definition task_ok (t : nat) (h : list Event) (task : Task (Value := Value)) (O : list Z) : Prop :=
  contexts_ok t h (contexts task) ∧
  ∃ K, K ⊆ h ∧ ok t (code task) K O (length (contexts task)) (fun _ _ O' D' => O' ⊆ [] ∧ D' = 0%nat).

Definition sys_ok (n : nat) (s : Sys (Value := Value)) : Prop :=
  ∃ Os, world_ok n (world s) (owners Os (tasks s)) ∧
    ∀ t task, tasks s !! t = Some task → task_ok t (history (world s)) task (Os t).

Lemma task_ok_later t h h' task O : h ⊆ h' → task_ok t h task O → task_ok t h' task O.
Proof.
  intros Hh [Hc (K & HK & Hok)]. split; [by eapply contexts_ok_mono|]. exists K. split; [set_solver|done].
Qed.

Lemma program_clean t c : clean t (program (Value := Value) backend exec_isolation c).
Proof. destruct c; [apply scope_tool_invocation_clean, uses_clean|apply use_clean]. Qed.

Lemma start_ok n s c : sys_ok n s →
  sys_ok (S n) {| world := world s;
                  tasks := tasks s ++ [{| contexts := []; code := program backend exec_isolation c |}] |}.
Proof.
  intros (Os & Hw & Ht). exists (fun t => if decide (t = length (tasks s)) then [] else Os t). simpl. split.
  - eapply world_ok_same; [exact Hw|]. intros t i. unfold owners. destruct (tasks s !! t) as [task|] eqn:E; [|set_solver].
    rewrite (lookup_app_l_Some _ _ _ _ E). rewrite decide_False; [done|]. apply lookup_lt_Some in E. lia.
  - intros t task [E|[Hge E]]%lookup_app_Some.
    + rewrite decide_False by (apply lookup_lt_Some in E; lia). by apply Ht.
    + apply list_lookup_singleton_Some in E as [E0 <-]. rewrite decide_True by lia.
      split; [constructor; [done|set_solver]|]. exists []. split; [set_solver|]. eapply ok_post; [|apply program_clean]. done.
Qed.

Lemma step_ok n s t e ctxs c k : sys_ok n s → Z.of_nat (S n) ≤ Word.usize_max →
  tasks s !! t = Some {| contexts := ctxs; code := Next c k |} →
  let r := perform state t e c ctxs (world s) in
  sys_ok (S n) {| world := r.2.2; tasks := <[t := {| contexts := r.2.1; code := k r.1 |}]> (tasks s) |}.
Proof.
  intros (Os & Hw & Ht) Hn Et r. destruct (Ht t _ Et) as [Hc (K & HK & Hpre & Hk)]. simpl in Hc, Hpre, Hk.
  assert (owners Os (tasks s) t ⊆ Os t ++ held ctxs) as Ho by (unfold owners; by rewrite Et).
  destruct (perform_ok n t e c ctxs (world s) K (Os t) _ Hw Hn Ho Hc HK Hpre) as (Hw' & Hc' & Hh & Hl & HD).
  fold r in Hw', Hc', Hh, Hl, HD. exists (fun t' => if decide (t' = t) then owed c (Os t) r.1 else Os t'). simpl. split.
  - destruct Hw' as [Hp Hr Hg Hj]. constructor; [done|done| |done]. intros pol g Ep Hin.
    destruct (Hg pol g Ep Hin) as (t' & req & ? & ? & Hin'). exists t', req. split; [done|]. split; [done|].
    destruct Hin' as [?|Hin']; [by left|right]. unfold with_owner in Hin'. unfold owners. case_decide as Htt.
    + subst t'. rewrite list_lookup_insert_eq by (by eapply lookup_lt_Some). done.
    + rewrite list_lookup_insert_ne by done. exact Hin'.
  - intros t' task' E'. destruct (decide (t' = t)) as [->|Hne].
    + rewrite list_lookup_insert_eq in E' by (by eapply lookup_lt_Some). injection E' as <-. split; [exact Hc'|].
      exists (history r.2.2). split; [done|]. simpl. rewrite HD. apply Hk; [set_solver|exact Hl].
    + rewrite list_lookup_insert_ne in E' by done. eapply task_ok_later; [exact Hh|]. by apply Ht.
Qed.

Lemma session_fires_ok ls : ∀ n s s', sys_ok n s → Z.of_nat (n + length ls) ≤ Word.usize_max →
  fires s ls = Some s' → sys_ok (n + length ls) s'.
Proof.
  induction ls as [|l ls IH]; intros n s s' Hs Hn; simpl; [intros [= <-]; by rewrite Nat.add_0_r|].
  cbn [length] in Hn. rewrite Nat.add_succ_r in Hn |- *.
  destruct (fire state backend exec_isolation s l) as [s1|] eqn:E; [|done]. intros Hf.
  apply (IH (S n) s1 s'); [|lia|done]. destruct l as [c|t e]; simpl in E.
  - injection E as <-. by apply start_ok.
  - destruct (tasks s !! t) as [[ctxs [x|c k]]|] eqn:Et; [done| |done]. injection E as <-.
    apply step_ok; [done|lia|done].
Qed.

Lemma session_boot_ok pol : (∀ p, pol = Some p → policy_inv 0 p ∧ store_grants (grants p) = []) → sys_ok 0 (boot pol).
Proof.
  intros Hp. exists (fun _ => []). split; [|done]. constructor; simpl.
  - intros p E. by apply Hp.
  - set_solver.
  - intros p g E Hg. destruct (Hp p E) as [_ Hs]. rewrite Hs in Hg. set_solver.
  - intros h1 t id req h2 E. by destruct h1.
Qed.

Definition finished (task : Task (Value := Value)) : bool := match code task with Ret _ => true | Next _ _ => false end.

Lemma finished_owns_nothing t h task O : task_ok t h task O → finished task = true → O ⊆ [] ∧ contexts task = [].
Proof.
  destruct task as [ctxs [x|]]; [|done]. intros [_ (K & _ & HO & HD)] _. split; [done|].
  by apply nil_length_inv.
Qed.
End Runs.

(** ** Properties *)

(** C7: nothing is ever granted without consent: in every run of any number of tool
    calls over one policy, in any interleaving and whatever the backend and the
    user answer, each grant was made after the user allowed that very denial, or
    another denial of the same tool call, or commands similar to a command that
    met a denial, by a rule that fits; and a grant for the session only after the
    answer for the session. *)
Theorem grants_have_consent `{FS : FileSystem} {Laws : FileSystemLaws FS} {Value} state backend iso pol ls
    (s : Sys (Value := Value)) h1 t id req h2 :
  (∀ p, pol = Some p → policy_inv 0 p ∧ store_grants (grants p) = []) → Z.of_nat (length ls) ≤ Word.usize_max →
  fires state backend iso (boot pol) ls = Some s → history (world s) = h1 ++ Granted t id req :: h2 →
  justified t h1 req.
Proof.
  intros Hp Hn Hf Hh. destruct (session_fires_ok state backend iso ls 0 _ s (session_boot_ok pol Hp) Hn Hf) as (Os & Hw & _).
  by eapply (wk_history _ _ _ Hw).
Qed.

(** The user allowed for the session what [req] asks for: that very denial, or
    another one of the same tool call, whose scope holds for the call. *)
Definition allowed_for_session (t : nat) (K : list Event) (req : SandboxPermissionGrantRequest) : Prop :=
  consented t K (request_denial req) Session ∨ ∃ tool d, Entered t tool ∈ K ∧ consented t K d Session.

Lemma session_justified t K req : request_scope req = Session → justified t K req → allowed_for_session t K req.
Proof.
  intros Hs [s Hc Hss|tool d s He Hc Hss|? _ Ho|? ? ? ? ? _ _ _ Ho]; try congruence; rewrite (Hss Hs) in Hc.
  - by left.
  - right. eauto.
Qed.

(** C8: what is granted once ends with its call: in every such run a grant that is
    alive was made by some call, for the capability that was refused. If it was
    made once, that call still runs; if it was made for the session, the user had
    before allowed for the session, in a question of that very call, what the grant
    is for, or another refusal of the same tool call. *)
Theorem once_grants_end `{FS : FileSystem} {Laws : FileSystemLaws FS} {Value} state backend iso pol ls
    (s : Sys (Value := Value)) p g :
  (∀ p, pol = Some p → policy_inv 0 p ∧ store_grants (grants p) = []) → Z.of_nat (length ls) ≤ Word.usize_max →
  fires state backend iso (boot pol) ls = Some s → policy (world s) = Some p → g ∈ store_grants (grants p) →
  ∃ h1 t req h2, history (world s) = h1 ++ Granted t (grant_id g) req :: h2 ∧
    grant_capability g = denial_capability (request_denial req) ∧
    match request_scope req with
    | Once => ∃ task, tasks s !! t = Some task ∧ finished task = false
    | Session => allowed_for_session t h1 req
    end.
Proof.
  intros Hp Hn Hf Ep Hg. destruct (session_fires_ok state backend iso ls 0 _ s (session_boot_ok pol Hp) Hn Hf) as (Os & Hw & Ht).
  destruct (wk_grants _ _ _ Hw p g Ep Hg) as (t & req & Hin & Hcap & Hs).
  apply list_elem_of_split in Hin as (h1 & h2 & Hh). exists h1, t, req, h2. split; [done|]. split; [done|].
  destruct (request_scope req) eqn:Er; [|by eapply session_justified, (wk_history _ _ _ Hw)].
  destruct Hs as [?|Ho]; [done|]. unfold owners in Ho. destruct (tasks s !! t) as [task|] eqn:Et; [|set_solver].
  exists task. split; [done|]. destruct (finished task) eqn:Efin; [|done].
  destruct (finished_owns_nothing _ _ _ _ (Ht t task Et) Efin) as [HO Hctx]. rewrite Hctx in Ho. simpl in Ho.
  rewrite app_nil_r in Ho. set_solver.
Qed.

(** ** One operation from refusal to result *)

Section Alone.
Context `{FS : FileSystem} {Laws : FileSystemLaws FS} {Value : Type} (state : LocalBackendState).
Abbreviation Prog := (Free (eff_ret Value)).
Abbreviation run := (run_alone (Value := Value) state).

Lemma run_bind {A B} t answer (p : Prog A) (f : A → Prog B) : ∀ ctxs w,
  run t answer (bind p f) ctxs w =
  let r := run t answer p ctxs w in run t answer (f r.1) r.2.1 r.2.2.
Proof. induction p as [x|c k IH]; intros ctxs w; simpl; [done|]. apply IH. Qed.

(** The inner operation answers by the policy it finds; the user answers [r]. *)
Definition guarded (inner : option LocalBackendPolicy → result Value OperationError) (r : InteractionResponse)
    (w : World) : Env Value :=
  {| env_value := inner (policy w); env_exec := Err (Unsupported []); env_answer := r |}.

Definition question (tool : option str) (d : SandboxPolicyDenial) : ChoiceRequest :=
  {| question_prompt := permission_prompt tool d None; question_options := permission_options d None |}.

(** No answer was given yet in the innermost tool call. *)
Definition unanswered (ctxs : list ToolInvocationContext) : Prop := head ctxs ≫= sandbox_permission_scope = None.

(** Who holds a grant after it is made: the tool call, or the operation. *)
Definition after_grant (s : SandboxPermissionScope) (id : Z) (ctxs : list ToolInvocationContext) :
    list Z * list ToolInvocationContext :=
  match ctxs, s with
  | [], Once => ([id], [])
  | [], Session => ([], [])
  | c :: ctxs, Once => ([], add_once id (approve s c) :: ctxs)
  | c :: ctxs, Session => ([], approve s c :: ctxs)
  end.

Lemma grant_run t answer d r s ctxs w pol id pol' :
  is_runtime d = false → (∀ w, env_answer (answer w) = r) → decision_of d None r = Some (GrantScope s) →
  unanswered ctxs → policy w = Some pol → grant pol {| request_denial := d; request_scope := s |} = (Ok id, pol') →
  run t answer (grant_after_permission d None) ctxs w =
    (Ok (after_grant s id ctxs).1,
     ((after_grant s id ctxs).2,
      record (Granted t id {| request_denial := d; request_scope := s |})
            (set_policy (Some pol') (record (Asked t d None (question (context_tool_name <$> head ctxs) d) r) w)))).
Proof.
  intros Hr Ha Hd Hu Hp Hg. unfold grant_after_permission, scope_for, request_permission. simpl.
  unfold unanswered in Hu. rewrite Hu. simpl. rewrite Ha, Hd. simpl. rewrite Hr. unfold do_grant. simpl. rewrite Hp, Hg.
  destruct ctxs; by destruct s.
Qed.

Lemma refusal_run t answer d r ctxs w :
  (∀ w, env_answer (answer w) = r) → decision_of d None r = None → unanswered ctxs →
  run t answer (grant_after_permission d None) ctxs w =
    (Err (SandboxPolicyDenied d),
     (ctxs, record (Asked t d None (question (context_tool_name <$> head ctxs) d) r) w)).
Proof.
  intros Ha Hd Hu. unfold grant_after_permission, scope_for, request_permission. simpl.
  unfold unanswered in Hu. rewrite Hu. simpl. by rewrite Ha, Hd.
Qed.

(** A tool call ends with the revocation of what its context holds. *)
Lemma scope_run {T} t answer tool (p : Prog T) ctxs w :
  run t answer (scope_tool_invocation tool p) ctxs w =
  let r := run t answer p (new_context tool :: ctxs) (record (Entered t tool) w) in
  let ids := match r.2.1 with [] => [] | c :: _ => once_grants c end in
  let r' := run t answer (revoke_all ids) (tail r.2.1) r.2.2 in (r.1, r'.2).
Proof.
  unfold scope_tool_invocation. cbn [bind run_alone perform fst snd].
  change (run t answer (bind p (fun output => bind (Free.call Leave) (fun ids => bind (revoke_all ids) (fun _ => Ret output))))
    (new_context tool :: ctxs) (record (Entered t tool) w) = let r := run t answer p (new_context tool :: ctxs) (record (Entered t tool) w) in
  let ids := match r.2.1 with [] => [] | c :: _ => once_grants c end in
  let r' := run t answer (revoke_all ids) (tail r.2.1) r.2.2 in (r.1, r'.2)).
  rewrite run_bind. cbv zeta. cbn [bind Free.call run_alone perform fst snd]. rewrite run_bind. cbn [run_alone].
  by destruct (run t answer (revoke_all _) _ _) as [x [c w']].
Qed.

Lemma attempt_run t answer n cleanup op w ctxs :
  run t answer (permission_loop n cleanup (Free.call (R := eff_ret Value) (Attempt op))) ctxs w =
  match env_value (answer w) with
  | Err (SandboxPolicyDenied d) =>
      match n with
      | O => run t answer (finish_with cleanup (Err (SandboxPolicyDenied d))) ctxs w
      | S n => run t answer (let& granted := grant_after_permission d None in
                 match granted with
                 | Err e => finish_with cleanup (Err e)
                 | Ok ids => permission_loop n (cleanup ++ ids) (Free.call (Attempt op))
                 end) ctxs w
      end
  | r => run t answer (finish_with cleanup r) ctxs w
  end.
Proof. destruct n; cbn [permission_loop]; rewrite run_bind; simpl; by destruct (env_value (answer w)) as [|[]]. Qed.
End Alone.

(** The rest of an operation whose first attempt is refused: allowed, and refused. *)
Section Refused.
Context `{FS : FileSystem} {Laws : FileSystemLaws FS} {Value : Type} (state : LocalBackendState).
Context (inner : option LocalBackendPolicy → result Value OperationError) (out : result Value OperationError).
Context (pol : LocalBackendPolicy) (d : SandboxPolicyDenial) (o : InnerOp).
Context (Hno : inner (Some pol) = Err (SandboxPolicyDenied d)) (Hrt : is_runtime d = false).
Context (Hout : ∀ d', out ≠ Err (SandboxPolicyDenied d')).

Lemma allowed_run r s id pol' ctxs w :
  decision_of d None r = Some (GrantScope s) → unanswered ctxs → policy w = Some pol →
  grant pol {| request_denial := d; request_scope := s |} = (Ok id, pol') → inner (Some pol') = out →
  ∃ h, run_alone state 0 (guarded inner r) (inner_operation o) ctxs w =
       run_alone state 0 (guarded inner r) (finish_with (after_grant s id ctxs).1 out) (after_grant s id ctxs).2
         {| policy := Some pol'; rules := rules w; history := h |}.
Proof using Hno Hrt Hout.
  intros Hd Hu Hp Hg Hok. unfold inner_operation, run_with_permission, MAX_SANDBOX_PERMISSION_RETRIES.
  rewrite attempt_run. cbn [env_value guarded]. rewrite Hp, Hno, run_bind.
  rewrite (grant_run _ _ _ _ r s _ _ pol id pol') by done. cbv zeta. cbn [fst snd app].
  rewrite attempt_run. cbn [env_value guarded policy record set_policy]. rewrite Hok. eexists.
  destruct out as [v|[]]; try reflexivity. by destruct (Hout denial).
Qed.

Lemma refused_run r ctxs w :
  decision_of d None r = None → unanswered ctxs → policy w = Some pol →
  ∃ h, run_alone state 0 (guarded inner r) (inner_operation o) ctxs w =
       (Err (SandboxPolicyDenied d), (ctxs, {| policy := Some pol; rules := rules w; history := h |})).
Proof using Hno.
  intros Hd Hu Hp. unfold inner_operation, run_with_permission, MAX_SANDBOX_PERMISSION_RETRIES.
  rewrite attempt_run. cbn [env_value guarded]. rewrite Hp, Hno, run_bind, (refusal_run _ _ _ _ r) by done.
  simpl. eexists. unfold record. by rewrite Hp.
Qed.
End Refused.

(** An operation by itself, or as all that a tool call does. *)
Definition within_call {Value} (call : option str) (p : Free (eff_ret Value) (result Value OperationError)) :
    Free (eff_ret Value) (result Value OperationError) :=
  match call with Some tool => scope_tool_invocation tool p | None => p end.

(** C38: an operation the policy refuses, from the refusal to the result, by itself
    or as a tool call, with no other task in between. The operation is any that is
    refused because of one check, and that is not refused once this check passes;
    what it then returns, a value or another error, is [out]. If the user allows
    it once, it is tried again, returns [out], and when it is over, with its tool
    call if it is in one, the grants are what they were; if the user allows it for
    the session, it returns [out] and the same check passes from then on; with
    every other answer it fails with the refusal, and the policy is what it was. *)
Theorem refused_operation `{FS : FileSystem} {Laws : FileSystemLaws FS} {Value} state pol cap p op d
    (inner : option LocalBackendPolicy → result Value OperationError) out o call rs h :
  poisoned pol = false → store_inv (grants pol) → next_id (grants pol) < Word.usize_max →
  wf_path p → check pol cap p op = Err (SandboxPolicyDenied d) → inner (Some pol) = Err (SandboxPolicyDenied d) →
  (∀ pol', check pol' cap p op = Ok () → inner (Some pol') = out) → (∀ d', out ≠ Err (SandboxPolicyDenied d')) →
  let start := {| policy := Some pol; rules := rs; history := h |} in
  let result r := run_alone state 0 (guarded inner r) (within_call call (inner_operation o)) [] start in
  (∃ w' pol', result (ChoiceAnswer (Some ALLOW_ONCE)) = (out, ([], w')) ∧ policy w' = Some pol' ∧
     store_grants (grants pol') = store_grants (grants pol)) ∧
  (∃ w' pol', result (ChoiceAnswer (Some ALLOW_SESSION)) = (out, ([], w')) ∧ policy w' = Some pol' ∧
     check pol' cap p op = Ok ()) ∧
  ∀ r, decision_of d None r = None →
    ∃ w', result r = (Err (SandboxPolicyDenied d), ([], w')) ∧ policy w' = Some pol.
Proof.
  intros Hpo Hst Hlt Hp Hc Hno Hyes Hout start result.
  assert (is_runtime d = false) as Hrt.
  { destruct (check_denied pol cap p op d Hp Hpo Hc) as (name & config & q & Hcap & _ & _ & [= ->]).
    by apply bool_decide_eq_false. }
  split_and!.
  - destruct (grant_revoke_round_trip pol cap p op d Once Hpo Hst Hlt Hp Hc)
      as (id & pol' & Hg & _ & _ & Hok & pol'' & Hrev & Hsame & _).
    assert (∀ ctxs w, unanswered ctxs → policy w = Some pol → _) as Hgo
      by (intros ctxs w Hu Hw; exact (allowed_run state inner out pol d o Hno Hrt Hout (ChoiceAnswer (Some ALLOW_ONCE))
            Once id pol' ctxs w eq_refl Hu Hw Hg (Hyes pol' Hok))).
    unfold result. destruct call as [tool|]; cbn [within_call]; [rewrite scope_run|].
    + destruct (Hgo [new_context tool] (record (Entered 0 tool) start) eq_refl eq_refl) as [h' ->].
      simpl. unfold do_revoke. simpl. rewrite Hrev. eexists _, pol''. split; [done|]. split; [done|exact Hsame].
    + destruct (Hgo [] start eq_refl eq_refl) as [h' ->].
      simpl. unfold do_revoke. simpl. rewrite Hrev. eexists _, pol''. split; [done|]. split; [done|exact Hsame].
  - destruct (grant_revoke_round_trip pol cap p op d Session Hpo Hst Hlt Hp Hc) as (id & pol' & Hg & _ & _ & Hok & _).
    assert (decision_of d None (ChoiceAnswer (Some ALLOW_SESSION)) = Some (GrantScope Session)) as Hd
      by (simpl; by rewrite Hrt).
    assert (∀ ctxs w, unanswered ctxs → policy w = Some pol → _) as Hgo
      by (intros ctxs w Hu Hw; exact (allowed_run state inner out pol d o Hno Hrt Hout _
            Session id pol' ctxs w Hd Hu Hw Hg (Hyes pol' Hok))).
    unfold result. destruct call as [tool|]; cbn [within_call]; [rewrite scope_run|].
    + destruct (Hgo [new_context tool] (record (Entered 0 tool) start) eq_refl eq_refl) as [h' ->].
      simpl. eexists _, pol'. by split_and!.
    + destruct (Hgo [] start eq_refl eq_refl) as [h' ->]. simpl. eexists _, pol'. by split_and!.
  - intros r Hd. unfold result. destruct call as [tool|]; cbn [within_call]; [rewrite scope_run|].
    + destruct (refused_run state inner pol d o Hno r [new_context tool] (record (Entered 0 tool) start) Hd eq_refl eq_refl)
        as [h' ->]. simpl. eexists. by split.
    + destruct (refused_run state inner pol d o Hno r [] start Hd eq_refl eq_refl) as [h' ->]. eexists. by split.
Qed.

(** ** How often *)

Section Bounds.
Context {Value : Type} (weight : Eff → nat).
Abbreviation Prog := (Free (eff_ret Value)).

(** No path through the program has effects of more than weight [n]. *)
Fixpoint within {T} (p : Prog T) (n : nat) : Prop :=
  match p with
  | Ret _ => True
  | Next c k => (weight c ≤ n)%nat ∧ ∀ x, within (k x) (n - weight c)
  end.

Lemma bounded_mono {T} (p : Prog T) : ∀ n m, (n ≤ m)%nat → within p n → within p m.
Proof.
  induction p as [x|c k IH]; intros n m Hnm; simpl; [done|]. intros [Hc Hk]. split; [lia|].
  intros x. eapply IH; [|apply Hk]. lia.
Qed.

Lemma bounded_bind {A B} (p : Prog A) (f : A → Prog B) m : ∀ n,
  within p n → (∀ x, within (f x) m) → within (bind p f) (n + m).
Proof.
  induction p as [x|c k IH]; intros n; simpl.
  - intros _ Hf. eapply bounded_mono; [|apply Hf]. lia.
  - intros [Hc Hk] Hf. split; [lia|]. intros x. replace (n + m - weight c)%nat with ((n - weight c) + m)%nat by lia.
    by apply IH.
Qed.

Lemma bounded_bind_ok {A B} (p : Prog (result A OperationError)) (f : A → Prog (result B OperationError)) n m :
  within p n → (∀ x, within (f x) m) → within (bind_ok p f) (n + m).
Proof. intros Hp Hf. apply bounded_bind; [done|]. intros []; simpl; [apply Hf|done]. Qed.

Context (once : nat) (rest : ∀ c, match c with
  | Attempt _ | AttemptExec _ => True
  | Ask _ _ _ => (weight c ≤ once)%nat
  | _ => weight c = 0%nat
  end).

Lemma revoke_all_within ids : within (revoke_all ids) 0.
Proof. induction ids as [|id ids IH]; simpl; [done|]. rewrite (rest (Revoke id)). by split. Qed.
Lemma finish_within {T} ids (r : result T OperationError) : within (finish_with ids r) 0.
Proof. apply (bounded_bind _ _ 0 0); [apply revoke_all_within|done]. Qed.

Lemma grant_after_permission_within d ctx : within (grant_after_permission d ctx) once.
Proof.
  pose proof (rest ToolName) as W1. pose proof (rest CurrentScope) as W2.
  pose proof (fun s => rest (ApproveCurrent s)) as W3. pose proof (fun i => rest (RegisterOnce i)) as W4.
  pose proof (fun r => rest (Grant r)) as W5. pose proof (fun c => rest (MatchRules c d)) as W6.
  pose proof (fun c => rest (AddRule c d)) as W7. pose proof (fun q => rest (Ask d ctx q)) as W8. simpl in *.
  rewrite <- (Nat.add_0_r once). apply bounded_bind_ok.
  - apply (bounded_bind _ _ once 0).
    { destruct ctx as [c|]; simpl; [|done]. rewrite W6. by split. }
    intros []; simpl; [done|]. rewrite W2. split; [lia|]. rewrite Nat.sub_0_r. intros [s|]; simpl; [done|].
    rewrite W1. split; [lia|]. intros tool. rewrite Nat.sub_0_r. split; [apply W8|]. intros r.
    destruct (decision_of d ctx r) as [[s|]|]; simpl; [|destruct ctx; simpl; [|done]|done];
      (split; [rewrite ?W3, ?W7; lia|done]).
  - intros s. simpl. rewrite W5. split; [done|]. rewrite Nat.sub_0_r. intros [[id|e]|]; simpl; [|done|done].
    destruct (if is_runtime d then Once else s); simpl; [|done]. rewrite W4. by split.
Qed.

Lemma permission_loop_within {T} (op : Prog (result T OperationError)) each : within op each →
  ∀ n ids, within (permission_loop n ids op) (each + n * (once + each)).
Proof.
  intros Hop. induction n as [|n IH]; intros ids; cbn [permission_loop]; (apply bounded_bind; [done|]);
    intros [v|[]]; try (eapply bounded_mono; [|apply finish_within]; lia).
  replace (S n * (once + each))%nat with (once + (each + n * (once + each)))%nat by lia.
  apply bounded_bind; [apply grant_after_permission_within|]. intros [ids'|e]; [apply IH|].
  eapply bounded_mono; [|apply finish_within]. lia.
Qed.

Lemma retry_loop_within {T} (op : Prog (result T OperationError)) each ctx : within op each →
  ∀ n ids d, within (retry_loop n ids d ctx op) (S n * (once + each)).
Proof.
  intros Hop. induction n as [|n IH]; intros ids d; cbn [retry_loop].
  - replace (1 * (once + each))%nat with (once + (each + 0))%nat by lia.
    apply bounded_bind; [apply grant_after_permission_within|].
    intros [ids'|e]; [|eapply bounded_mono; [|apply finish_within]; lia].
    apply bounded_bind; [done|]. intros [v|[]]; apply finish_within.
  - replace (S (S n) * (once + each))%nat with (once + (each + S n * (once + each)))%nat by lia.
    apply bounded_bind; [apply grant_after_permission_within|].
    intros [ids'|e]; [|eapply bounded_mono; [|apply finish_within]; lia].
    apply bounded_bind; [done|]. intros [v|[]]; try (eapply bounded_mono; [|apply finish_within]; lia). apply IH.
Qed.

Lemma exec_loop_within b iso command each : within (Free.call (AttemptExec false)) each →
  ∀ n r, within (exec_loop b iso n command r) (n * (7 * (once + each))).
Proof.
  intros Hop. assert (∀ r, within (runtime_exec_denial b iso command r) 0) as Hd.
  { intros r. unfold runtime_exec_denial, runtime_linux_dynsandbox_denial, runtime_bubblewrap_denial.
    repeat case_match; try done. all: clear -rest; induction (bubblewrap_path_candidates_from_stderr _ _) as [|c cs IH];
      simpl; [done|]; rewrite (rest (DenialFor _ _)); (split; [done|]); intros [[[d|]|e]|]; simpl; done. }
  induction n as [|n IH]; intros r; cbn [exec_loop]; apply (bounded_bind _ _ _ 0); try apply Hd; intros [d|]; try done.
  replace (S n * (7 * (once + each)))%nat with (7 * (once + each) + n * (7 * (once + each)))%nat by lia.
  apply bounded_bind_ok; [|intros r'; apply IH]. by apply (retry_loop_within _ each _ Hop 6).
Qed.
End Bounds.

Definition asks (c : Eff) : nat := match c with Ask _ _ _ => 1 | _ => 0 end.
Definition tries (c : Eff) : nat := match c with Attempt _ | AttemptExec _ => 1 | _ => 0 end.

(** C39: an operation is tried at most seven times and the user is asked at most six
    times for it, a command is run at most forty-nine times with at most forty-eight
    questions, whatever the backend, the policy and the user answer: no loop of the
    layer runs on. *)
Theorem questions_bounded {Value} backend iso :
  (∀ op, within (Value := Value) asks (inner_operation op) 6 ∧ within (Value := Value) tries (inner_operation op) 7) ∧
  (∀ request, within (Value := Value) asks (exec backend iso request) 48 ∧
              within (Value := Value) tries (exec backend iso request) 49).
Proof.
  assert (∀ c, match c with Attempt _ | AttemptExec _ => True | Ask _ _ _ => (asks c ≤ 1)%nat | _ => asks c = 0%nat end)
    as Ha by (by intros []; simpl).
  assert (∀ c, match c with Attempt _ | AttemptExec _ => True | Ask _ _ _ => (tries c ≤ 0)%nat | _ => tries c = 0%nat end)
    as Ht by (by intros []; simpl).
  split.
  - intros op. split; [apply (permission_loop_within asks 1 Ha _ 0)|apply (permission_loop_within tries 0 Ht _ 1)];
      simpl; (split; [lia|done]).
  - intros request. split.
    + apply (bounded_bind_ok asks _ _ 6 42); [apply (permission_loop_within asks 1 Ha _ 0); simpl; split; [lia|done]|].
      intros r. apply (exec_loop_within asks 1 Ha backend iso _ 0); simpl; split; [lia|done].
    + apply (bounded_bind_ok tries _ _ 7 42); [apply (permission_loop_within tries 0 Ht _ 1); simpl; split; [lia|done]|].
      intros r. apply (exec_loop_within tries 0 Ht backend iso _ 1); simpl; split; [lia|done].
Qed.

(** ** A concrete session *)

Module PermissionDemo.
Import LocalPolicy.DemoFs.

Definition local : LocalBackendState :=
  {| state_backend_id := lit "local"; workspace_root_host := Path.new (lit "/ws");
     home_dir_host := None; temp_root_host := Path.new (lit "/tmp") |}.
Definition seatbelt : LocalBackendPolicy := fresh_policy (MacosSeatbelt demo_config).
Definition go (pol : LocalBackendPolicy) (iso : string) (ls : list (Label (Value := ()))) : option (Sys (Value := ())) :=
  fires local (lit "local") (Some (lit iso)) (boot (Some pol)) ls.

(** The backend answers with a command's result or a refusal, the user with [a]. *)
Definition answers (v : result () OperationError) (r : ExecResult) (a : str) : Env () :=
  {| env_value := v; env_exec := Ok r; env_answer := ChoiceAnswer (Some a) |}.
Definition silent : ExecResult := {| stdout := []; stderr := []; exit_code := None; timed_out := false |}.
Definition says (text : string) : ExecResult :=
  {| stdout := []; stderr := lit text; exit_code := Some 1; timed_out := false |}.

(** A write is refused, the user allows it for the session, it is tried again. *)
Definition refused : Env () := answers (Err (SandboxPolicyDenied demo_denial)) silent ALLOW_SESSION.
Definition accepted : Env () := answers (Ok ()) silent ALLOW_SESSION.
Definition write_once : list (Label (Value := ())) :=
  Start (ToolCall (lit "file_write") [UseInner WriteBytes]) :: replicate 7 (Step 0 refused) ++ [Step 0 accepted].
Definition after_write : Sys (Value := ()) := default (boot None) (go demo_policy "linux_bubblewrap" write_once).

Lemma demo_fresh i :
  isolation i = LinuxBubblewrap demo_config → grants i = default_store → poisoned i = false →
  ∀ p, Some i = Some p → policy_inv 0 p ∧ store_grants (grants p) = [].
Proof.
  intros Hi Hg Hp p [= <-]. rewrite Hg. split; [|done].
  assert (∀ name c, active_path_isolation i = Some (name, c) → c = demo_config) as Hc.
  { intros name c. unfold active_path_isolation. rewrite Hi. by intros [= _ <-]. }
  split_and!; [split| |done| |by rewrite Hg].
  - intros name c ->%Hc. split; repeat constructor; by apply is_normalized_spec.
  - rewrite Hg. constructor.
  - intros name c ->%Hc. unfold demo_config. simpl. set_solver.
  - rewrite Hg. split; [done|]. split; constructor.
Qed.

Lemma grants_have_consent_witness :
  go demo_policy "linux_bubblewrap" write_once = Some after_write ∧
  ∃ h1 req, history (world after_write) = h1 ++ [Granted 0 1 req] ∧ justified 0 h1 req.
Proof.
  split; [by vm_compute|]. exists (take 2 (history (world after_write))), {| request_denial := demo_denial; request_scope := Session |}.
  split; [by vm_compute|].
  apply (grants_have_consent local (lit "local") (Some (lit "linux_bubblewrap")) (Some demo_policy) write_once after_write
           _ 0 1 _ []).
  - by apply demo_fresh.
  - by vm_compute.
  - by vm_compute.
  - by vm_compute.
Defined.

(** Allowed once: the grant is there while the call runs. *)
Definition refused_once : Env () := answers (Err (SandboxPolicyDenied demo_denial)) silent ALLOW_ONCE.
Definition granted_once : list (Label (Value := ())) :=
  Start (ToolCall (lit "file_write") [UseInner WriteBytes]) :: replicate 8 (Step 0 refused_once).
Definition while_granted : Sys (Value := ()) := default (boot None) (go demo_policy "linux_bubblewrap" granted_once).

Lemma once_grants_end_witness :
  ∃ p g, policy (world while_granted) = Some p ∧ store_grants (grants p) = [g] ∧
  ∃ h1 t req h2, history (world while_granted) = h1 ++ Granted t (grant_id g) req :: h2 ∧
    grant_capability g = denial_capability (request_denial req) ∧
    match request_scope req with
    | Once => ∃ task, tasks while_granted !! t = Some task ∧ finished task = false
    | Session => allowed_for_session t h1 req
    end.
Proof.
  set (p := default demo_policy (policy (world while_granted))).
  exists p, (default (Build_SandboxPermissionGrant 0 Read []) (head (store_grants (grants p)))).
  assert (policy (world while_granted) = Some p) as Hp by (by vm_compute).
  split; [exact Hp|]. split; [by vm_compute|].
  apply (once_grants_end local (lit "local") (Some (lit "linux_bubblewrap")) (Some demo_policy) granted_once while_granted p).
  - by apply demo_fresh.
  - by vm_compute.
  - by vm_compute.
  - exact Hp.
  - vm_compute. by left.
Defined.

(** The write of a file that the policy checks, inside a tool call. *)
Definition checked_write (pol : option LocalBackendPolicy) : result () OperationError :=
  match pol with
  | Some pol => check pol Write (Path.new (lit "/link/src/new")) (lit "file_write")
  | None => Ok ()
  end.

Lemma refused_operation_witness :
  check demo_policy Write (Path.new (lit "/link/src/new")) (lit "file_write") = Err (SandboxPolicyDenied demo_denial) ∧
  ∃ w' pol', run_alone local 0 (guarded checked_write (ChoiceAnswer (Some ALLOW_ONCE)))
      (within_call (Some (lit "file_write")) (inner_operation WriteBytes)) []
      {| policy := Some demo_policy; rules := []; history := [] |} = (Ok (), ([], w')) ∧
    policy w' = Some pol' ∧ store_grants (grants pol') = store_grants (grants demo_policy).
Proof.
  assert (check demo_policy Write (Path.new (lit "/link/src/new")) (lit "file_write") =
          Err (SandboxPolicyDenied demo_denial)) as Hc by (vm_compute; reflexivity).
  split; [exact Hc|].
  apply (refused_operation local demo_policy Write (Path.new (lit "/link/src/new")) (lit "file_write") demo_denial
           checked_write (Ok ()) WriteBytes (Some (lit "file_write")) [] []).
  - reflexivity.
  - split; [done|]. split; constructor.
  - reflexivity.
  - apply new_wf.
  - exact Hc.
  - exact Hc.
  - intros pol' H. exact H.
  - discriminate.
Defined.

(** *** A bypass nobody was asked about *)

(** A command is blocked at one path, which the user allows once; it then fails
    without output, which stands for an unknown block: the sandbox is lifted for
    the command, and the user was asked about the one path only. *)
Definition install : ExecRequest :=
  {| command := lit "make install"; command_args := []; shell := Some (lit "bash"); cwd := None; extra := None |}.
Definition blocked_then_silent : list (Label (Value := ())) :=
  Start (ToolCall (lit "bash") [UseExec install]) ::
  replicate 2 (Step 0 (answers (Ok ()) (says "cp: /opt/app: Operation not permitted") ALLOW_ONCE)) ++
  replicate 11 (Step 0 (answers (Ok ()) silent ALLOW_ONCE)).

Theorem bypass_without_question :
  (fun s => omap (fun e => match e with
                           | Asked _ d _ _ _ => Some (true, denial_capability d)
                           | Granted _ _ req => Some (false, denial_capability (request_denial req))
                           | Entered _ _ => None
                           end) (history (world s))) <$> go seatbelt "macos_seatbelt" blocked_then_silent =
  Some [(true, Write); (false, Write); (false, ExecRuntime)].
Proof. by vm_compute. Qed.

(** *** A rule for reading that allows writing *)

Definition read_hosts : SandboxPolicyDenial :=
  {| denial_backend_id := lit "local"; denial_isolation := lit "linux_bubblewrap"; denial_operation := lit "bash";
     denial_capability := Read; denial_path := lit "/etc/hosts" |}.
Definition write_passwd : SandboxPolicyDenial :=
  {| denial_backend_id := lit "local"; denial_isolation := lit "linux_bubblewrap"; denial_operation := lit "bash";
     denial_capability := Write; denial_path := lit "/etc/passwd" |}.

Theorem read_rule_allows_write :
  rules_match (lit "cat key > /etc/passwd") write_passwd (add_rule (lit "cat /etc/hosts") read_hosts []) = true.
Proof. by vm_compute. Qed.
End PermissionDemo.
