(* ===== verification/BackendRegistry.v ===== *)
(** * The registry of backends

    apps/shared/src/backend/backend_registry.rs: which process owns which
    sandbox, in a file shared by all processes. Like the counter, the file is
    [option BackendRegistryData], and an operation, which holds the in-process
    lock and the file lock throughout, is one step that takes the outcome of its
    system calls as an [REnv]. *)

From S2P Require Import Prelude RStr SandboxCounter.

#[global] Instance SandboxCounterKey_eq_dec : EqDecision SandboxCounterKey.
Proof. solve_decision. Defined.

Record SessionStatusSnapshot := {
  snap_status : str;
  snap_queue_depth : Z;
  snap_updated_at_ms : Z;
}.
Definition default_snapshot : SessionStatusSnapshot :=
  {| snap_status := lit "idle"; snap_queue_depth := 0; snap_updated_at_ms := 0 |}.

Record BackendRegistryEntry := {
  entry_backend_id : str;
  sandbox_key : SandboxCounterKey;
  entry_session_ids : list str;
  owner_process_id : str;
  session_statuses : gmap str SessionStatusSnapshot;
  entry_created_at_ms : Z;
  last_activity_ms : Z;
  pending_eviction : bool;
  instance_id : str;
  owner_heartbeat_ms : Z;
  owner_pid : Z;
}.

(** Updates of single fields. *)
Definition set_statuses v last (e : BackendRegistryEntry) : BackendRegistryEntry :=
  Build_BackendRegistryEntry (entry_backend_id e) (sandbox_key e) (entry_session_ids e)
    (owner_process_id e) v (entry_created_at_ms e) last (pending_eviction e) (instance_id e)
    (owner_heartbeat_ms e) (owner_pid e).
Definition set_last_activity v (e : BackendRegistryEntry) : BackendRegistryEntry :=
  set_statuses (session_statuses e) v e.
Definition set_pending_flag v (e : BackendRegistryEntry) : BackendRegistryEntry :=
  Build_BackendRegistryEntry (entry_backend_id e) (sandbox_key e) (entry_session_ids e)
    (owner_process_id e) (session_statuses e) (entry_created_at_ms e) (last_activity_ms e) v
    (instance_id e) (owner_heartbeat_ms e) (owner_pid e).
Definition set_heartbeat v (e : BackendRegistryEntry) : BackendRegistryEntry :=
  Build_BackendRegistryEntry (entry_backend_id e) (sandbox_key e) (entry_session_ids e)
    (owner_process_id e) (session_statuses e) (entry_created_at_ms e) (last_activity_ms e)
    (pending_eviction e) (instance_id e) v (owner_pid e).

Definition initial_snapshot (now : Z) (initial : option (str * Z)) : SessionStatusSnapshot :=
  match initial with
  | Some (status, depth) =>
      {| snap_status := status; snap_queue_depth := depth; snap_updated_at_ms := now |}
  | None => default_snapshot
  end.

(** [BackendRegistryEntry::new]; [os_pid] is the id of the process. *)
Definition new_registry_entry (now os_pid : Z) (bid : str) (key : SandboxCounterKey) (sids : list str)
    (owner instance : str) (initial : option (str * Z)) : BackendRegistryEntry :=
  {| entry_backend_id := bid; sandbox_key := key; entry_session_ids := sids; owner_process_id := owner;
     session_statuses := list_to_map ((fun id => (id, initial_snapshot now initial)) <$> sids);
     entry_created_at_ms := now; last_activity_ms := now; pending_eviction := false;
     instance_id := instance; owner_heartbeat_ms := now; owner_pid := os_pid |}.

Definition is_idle (s : SessionStatusSnapshot) : bool :=
  bool_decide (snap_status s = lit "idle") && (snap_queue_depth s =? 0).

Definition is_all_sessions_idle (e : BackendRegistryEntry) : bool :=
  forallb (fun p => is_idle p.2) (map_to_list (session_statuses e)).

Definition is_owner_stale (now threshold : Z) (e : BackendRegistryEntry) : bool :=
  if owner_heartbeat_ms e =? 0 then true
  else threshold <? Word.saturating_sub now (owner_heartbeat_ms e).

Definition is_eviction_safe (now threshold : Z) (e : BackendRegistryEntry) : bool :=
  is_all_sessions_idle e || is_owner_stale now threshold e.

Definition is_evictable (now threshold : Z) (e : BackendRegistryEntry) : bool :=
  negb (pending_eviction e) && is_eviction_safe now threshold e.

(** apps/shared/src/backend/base.rs. *)
Definition STALE_OWNER_THRESHOLD_MS : Z := 30000.

Definition BackendRegistryData : Type := gmap str BackendRegistryEntry.

Inductive BackendRegistryError :=
| RegistryFile (message : str)
| RegistryLock (message : str)
| RegistryParse (message : str).

Definition registry_error_str (e : BackendRegistryError) : str :=
  match e with
  | RegistryFile m => lit "file error: " ++ m
  | RegistryLock m => lit "lock error: " ++ m
  | RegistryParse m => lit "parse error: " ++ m
  end.

(** The clock, and the failures of the lock, the load and the save. *)
Record REnv := {
  reg_now : Z;
  reg_lock_error : option str;
  reg_load_error : option BackendRegistryError;
  reg_save_error : option BackendRegistryError;
}.
Definition ok_renv (now : Z) : REnv :=
  {| reg_now := now; reg_lock_error := None; reg_load_error := None; reg_save_error := None |}.

Definition registry_disk : Type := option BackendRegistryData.

(** Lock and load, then [body]; a [None] in what it returns is not saved. *)
Definition with_registry {T : Type} (e : REnv) (f : registry_disk)
    (body : BackendRegistryData → T * option BackendRegistryData) :
    result T BackendRegistryError * registry_disk :=
  match reg_lock_error e with
  | Some m => (Err (RegistryLock m), f)
  | None =>
      match f, reg_load_error e with
      | Some _, Some err => (Err err, f)
      | _, _ =>
          match body (default ∅ f) with
          | (x, None) => (Ok x, f)
          | (x, Some data) =>
              match reg_save_error e with
              | Some err => (Err err, f)
              | None => (Ok x, Some data)
              end
          end
      end
  end.

Definition register (e : REnv) (f : registry_disk) (entry : BackendRegistryEntry) :=
  with_registry e f (fun data => (tt, Some (<[entry_backend_id entry := entry]> data))).

Definition unregister (e : REnv) (f : registry_disk) (bid : str) :=
  with_registry e f (fun data => (tt, Some (delete bid data))).

Definition get_entries_by_key (e : REnv) (f : registry_disk) (key : SandboxCounterKey) :=
  with_registry e f (fun data =>
    (filter (fun entry => sandbox_key entry = key) (map_to_list data).*2, None)).

Definition get_all_entries (e : REnv) (f : registry_disk) :=
  with_registry e f (fun data => ((map_to_list data).*2, None)).

Definition get_entries_for_process (e : REnv) (f : registry_disk) (process : str) :=
  with_registry e f (fun data =>
    (filter (fun entry => owner_process_id entry = process) (map_to_list data).*2, None)).

(** An update of one entry; nothing is saved when it is not there. *)
Definition update_entry (e : REnv) (f : registry_disk) (bid : str)
    (g : BackendRegistryEntry → BackendRegistryEntry) :=
  with_registry e f (fun data =>
    (tt, match data !! bid with Some entry => Some (<[bid := g entry]> data) | None => None end)).

Definition set_pending_eviction (e : REnv) (f : registry_disk) (bid : str) (pending : bool) :=
  update_entry e f bid (set_pending_flag pending).

Definition update_activity (e : REnv) (f : registry_disk) (bid : str) :=
  update_entry e f bid (set_last_activity (reg_now e)).

Definition update_session_status (e : REnv) (f : registry_disk) (bid sid status : str) (depth : Z) :=
  update_entry e f bid (fun entry =>
    set_statuses
      (<[sid := {| snap_status := status; snap_queue_depth := depth; snap_updated_at_ms := reg_now e |}]>
         (session_statuses entry)) (reg_now e) entry).

Definition owned_by (process : str) (entry : BackendRegistryEntry) : bool :=
  bool_decide (owner_process_id entry = process).

Definition refresh_heartbeats_for_process (e : REnv) (f : registry_disk) (process : str) :=
  with_registry e f (fun data =>
    (tt, if existsb (fun p => owned_by process p.2) (map_to_list data)
         then Some ((fun entry => if owned_by process entry then set_heartbeat (reg_now e) entry else entry)
                      <$> data)
         else None)).
