(* ===== verification/BackendData.v ===== *)
(** * Data of the backend manager

    apps/shared/src/backend (mod.rs, base.rs, dirty_write.rs, the option parsing of
    e2b/provider.rs and the pure functions of backend_manager.rs): configurations
    and their keys, the table of backends of one process, its lineage, and the
    tracker of unsaved changes. *)

From S2P Require Import LocalPolicy.
From S2P Require Import Prelude RStr Message SandboxCounter BackendRegistry SessionStore Runtimes.

(** ** JSON objects *)

Fixpoint insert_field (k : str) (v : Json) (fields : list (str * Json)) : list (str * Json) :=
  match fields with
  | [] => [(k, v)]
  | (k', v') :: rest =>
      if decide (k = k') then (k, v) :: rest
      else if str_leb k k' then (k, v) :: (k', v') :: rest
      else (k', v') :: insert_field k v rest
  end.

Definition insert_fields (new fields : list (str * Json)) : list (str * Json) :=
  foldl (fun fs p => insert_field p.1 p.2 fs) fields new.

Definition as_object (v : Json) : option (list (str * Json)) :=
  match v with JObject fields => Some fields | _ => None end.

(** ** Configurations *)

Record GatewayBackendConfig := { kind : str; options : Json }.

Record BackendManagerLimits := {
  checkpoint_before_eviction : bool;
  max_eviction_attempts : nat;
  max_active_sandboxes_per_key : option Z;
}.
Definition default_limits : BackendManagerLimits :=
  {| checkpoint_before_eviction := true; max_eviction_attempts := 5; max_active_sandboxes_per_key := None |}.

(** The environment variables, the compact printer of JSON and the hasher. *)
Class Machine := {
  env_var : str → option str;
  json_to_string : Json → str;
  hash_strings : str → str → Z;
  home_dir : option str;
  temp_dir : str;
}.

Section Config.
Context `{Machine, KeyHash}.

Fixpoint normalize (v : Json) : Json :=
  match v with
  | JObject fields =>
      JObject (insert_fields
                 ((fix go fields := match fields with
                                    | [] => []
                                    | (k, v) :: rest => (k, normalize v) :: go rest
                                    end) fields) [])
  | JArray vs => JArray ((fix go vs := match vs with [] => [] | v :: vs => normalize v :: go vs end) vs)
  | v => v
  end.
Definition canonical_json (v : Json) : str := json_to_string (normalize v).
Definition hash_config (c : GatewayBackendConfig) : Z := hash_strings (kind c) (canonical_json (options c)).

Definition default_local_provider_options : Json :=
  JObject (insert_field (lit "temp_root") (JString temp_dir)
             (match home_dir with Some d => [(lit "home_dir", JString d)] | None => [] end)).

Definition resolve_session_backend_config (c : option GatewayBackendConfig) :
    result GatewayBackendConfig Build.OperationBackendBuildError :=
  match c with
  | Some c =>
      if bool_decide (kind c = lit "local") || bool_decide (kind c = lit "e2b") then Ok c
      else Err (Build.UnsupportedBackend (kind c))
  | None => Ok {| kind := lit "local"; options := default_local_provider_options |}
  end.

(** e2b/provider.rs: the options of an e2b backend, by field with the names it may
    have and the type it must have. *)
Inductive FieldType := TString | TU64 | TU16 | TBool | TStringMap | TAny.

Definition e2b_fields : list (list str * FieldType) :=
  [([lit "api_key"], TString); ([lit "api_key_env"], TString);
   ([lit "api_base"; lit "apiBase"; lit "api_url"; lit "apiUrl"], TString);
   ([lit "domain"; lit "sandbox_domain"; lit "sandboxDomain"], TString);
   ([lit "template_id"; lit "templateID"; lit "template"], TString);
   ([lit "timeout_secs"; lit "timeout"], TU64); ([lit "secure"], TBool);
   ([lit "allow_internet_access"; lit "allowInternetAccess"], TBool);
   ([lit "auto_pause"; lit "autoPause"], TBool); ([lit "auto_resume"; lit "autoResume"], TBool);
   ([lit "envd_port"; lit "envdPort"], TU16); ([lit "envd_scheme"; lit "envdScheme"], TString);
   ([lit "workspace_root"; lit "workspaceRoot"; lit "remoteWorkspaceRoot"], TString);
   ([lit "home_dir"; lit "homeDir"], TString); ([lit "temp_root"; lit "tempRoot"], TString);
   ([lit "default_shell"; lit "defaultShell"], TString);
   ([lit "envd_file_upload"; lit "envdFileUpload"], TString); ([lit "username"], TString);
   ([lit "metadata"], TStringMap); ([lit "env_vars"; lit "envVars"], TStringMap);
   ([lit "network"], TAny); ([lit "mcp"], TAny); ([lit "volume_mounts"; lit "volumeMounts"], TAny)].

Definition digit_value (n : Z) (c : N) : Z := 10 * n + (Z.of_N c - 48).
Definition parse_unsigned (max : Z) (s : str) : option Z :=
  if bool_decide (s = []) || negb (forallb (fun c => (48 <=? c)%N && (c <=? 57)%N) s) then None
  else let n := foldl digit_value 0 s in if n <=? max then Some n else None.

(** An absent value is also written null. *)
Definition has_type (t : FieldType) (v : Json) : bool :=
  match v, t with
  | JNull, _ | _, TAny | JString _, TString | JBool _, TBool => true
  | JNumber s, TU64 => bool_decide (is_Some (parse_unsigned Word.u64_max s))
  | JNumber s, TU16 => bool_decide (is_Some (parse_unsigned 65535 s))
  | JObject fields, TStringMap => forallb (fun p => match p.2 with JString _ => true | _ => false end) fields
  | _, _ => false
  end.

(** The position of the field a name stands for. *)
Fixpoint field_index (name : str) (fields : list (list str * FieldType)) : option (nat * FieldType) :=
  match fields with
  | [] => None
  | (names, t) :: rest =>
      if bool_decide (name ∈ names) then Some (0%nat, t)
      else match field_index name rest with Some (i, t) => Some (S i, t) | None => None end
  end.

Record E2bKeyOptions := { api_key : option str; api_key_env : option str }.

(** The derived deserializer with [deny_unknown_fields]: unknown names, wrong types
    and a field that is given twice are errors. Of the result only the key is kept. *)
Definition parse_options (value : Json) : option E2bKeyOptions :=
  match value with
  | JNull => Some {| api_key := None; api_key_env := None |}
  | JObject fields =>
      let found := (fun p => field_index p.1 e2b_fields) <$> fields in
      if forallb (fun p => match field_index p.1 e2b_fields with
                           | Some (_, t) => has_type t p.2
                           | None => false
                           end) fields
         && bool_decide (NoDup (omap (fmap fst) found))
      then Some {| api_key := field fields (lit "api_key") ≫= as_str;
                   api_key_env := field fields (lit "api_key_env") ≫= as_str |}
      else None
  | _ => None
  end.

Definition non_blank (s : str) : bool := negb (bool_decide (trim s = [])).
Definition keep_if {A} (p : A → bool) (o : option A) : option A :=
  match o with Some a => if p a then Some a else None | None => None end.

Definition resolve_api_key (o : E2bKeyOptions) : option str :=
  match keep_if non_blank (api_key o) with
  | Some key => Some key
  | None => keep_if non_blank (env_var (default (lit "E2B_API_KEY") (keep_if non_blank (api_key_env o))))
  end.
Definition resolve_api_key_from_options (v : Json) : option str := parse_options v ≫= resolve_api_key.

Definition is_counted_kind (k : str) : bool := bool_decide (k = lit "e2b").

Definition sandbox_key_from_config (c : GatewayBackendConfig) : SandboxCounterKey :=
  if is_counted_kind (kind c)
  then new_key (lit "e2b") (default (lit "e2b_default") (resolve_api_key_from_options (options c)))
  else new_key (lit "local") (lit "local_default").

End Config.

Definition forked_provider_options (parent : Json) (overrides : option Json) (snapshot_id : str) : Json :=
  let base := default [] (as_object parent) in
  let base := match overrides ≫= as_object with Some fs => insert_fields fs base | None => base end in
  JObject (insert_field (lit "template_id") (JString snapshot_id) base).

Definition checkout_metadata (metadata : Json) (c : BackendCheckpointRef) (child : str) : Json :=
  let base := match metadata with
              | JObject fields => fields
              | JNull => []
              | other => [(lit "user_metadata", other)]
              end in
  let optional k (o : option str) fs := match o with Some v => insert_field k (JString v) fs | None => fs end in
  JObject
    (insert_field (lit "xiaoo_checkout_child_backend_id") (JString child)
       (optional (lit "xiaoo_checkpoint_source_backend_id") (source_backend_id c)
          (optional (lit "xiaoo_provider_snapshot_id") (provider_snapshot_id c)
             (insert_field (lit "xiaoo_checkpoint_id") (JString (ref_checkpoint_id c)) base)))).

Definition metadata_matches_filter (metadata : Json) (wanted : list (str * str)) : bool :=
  match wanted with
  | [] => true
  | _ =>
      match as_object metadata with
      | None => false
      | Some fields =>
          forallb (fun p => bool_decide (field fields p.1 ≫= as_str = Some p.2)) wanted
      end
  end.

(** ** The table of backends *)

(** [BackendInstance], without the parts that only the provider uses. *)
Record BackendInstance := {
  inst_backend_id : str;
  inst_provider : str;
  inst_instance_id : str;
  inst_metadata : Json;
}.

Record BackendLineageEntry := {
  parent_backend_id : option str;
  children_backend_ids : gset str;
  forked_from_snapshot_id : option str;
  forked_snapshot_names : list str;
  forked_at_ms : option Z;
}.
Definition default_lineage : BackendLineageEntry :=
  {| parent_backend_id := None; children_backend_ids := ∅; forked_from_snapshot_id := None;
     forked_snapshot_names := []; forked_at_ms := None |}.

Definition set_children v (l : BackendLineageEntry) : BackendLineageEntry :=
  {| parent_backend_id := parent_backend_id l; children_backend_ids := v;
     forked_from_snapshot_id := forked_from_snapshot_id l;
     forked_snapshot_names := forked_snapshot_names l; forked_at_ms := forked_at_ms l |}.

(** The tracker of an entry is shared with its users; it is in the world. *)
Record BackendInstanceEntry := {
  instance : BackendInstance;
  config : GatewayBackendConfig;
  workspace_root : str;
  config_hash : Z;
  session_ids : gset str;
  expires_at_ms : option Z;
  lineage : BackendLineageEntry;
}.
Definition set_lineage v (e : BackendInstanceEntry) : BackendInstanceEntry :=
  {| instance := instance e; config := config e; workspace_root := workspace_root e;
     config_hash := config_hash e; session_ids := session_ids e; expires_at_ms := expires_at_ms e;
     lineage := v |}.
Definition set_session_ids v (e : BackendInstanceEntry) : BackendInstanceEntry :=
  {| instance := instance e; config := config e; workspace_root := workspace_root e;
     config_hash := config_hash e; session_ids := v; expires_at_ms := expires_at_ms e;
     lineage := lineage e |}.
Definition set_config c h (e : BackendInstanceEntry) : BackendInstanceEntry :=
  {| instance := instance e; config := c; workspace_root := workspace_root e; config_hash := h;
     session_ids := session_ids e; expires_at_ms := expires_at_ms e; lineage := lineage e |}.

Record BackendManagerState := {
  backends : gmap str BackendInstanceEntry;
  session_index : gmap str str;
}.

Definition with_child (child : str) (e : BackendInstanceEntry) : BackendInstanceEntry :=
  set_lineage (set_children ({[child]} ∪ children_backend_ids (lineage e)) (lineage e)) e.
Definition without_child (child : str) (e : BackendInstanceEntry) : BackendInstanceEntry :=
  set_lineage (set_children (children_backend_ids (lineage e) ∖ {[child]}) (lineage e)) e.

Definition insert_checkout_child (st : BackendManagerState) (source : option str) (child : str)
    (sid : option str) (e : BackendInstanceEntry) : BackendManagerState :=
  let bs := match source with Some p => alter (with_child child) p (backends st) | None => backends st end in
  {| backends := <[child := e]> bs;
     session_index := match sid with Some s => <[s := child]> (session_index st) | None => session_index st end |}.

Definition detach_from_parent (bid : str) (e : BackendInstanceEntry) (st : BackendManagerState) :
    BackendManagerState :=
  match parent_backend_id (lineage e) with
  | None => st
  | Some p => {| backends := alter (without_child bid) p (backends st); session_index := session_index st |}
  end.

(** The part of [evict_backend_by_id] under the lock. *)
Definition remove_backend (bid : str) (st : BackendManagerState) :
    option (BackendInstanceEntry * BackendManagerState) :=
  match backends st !! bid with
  | None => None
  | Some e =>
      Some (e, detach_from_parent bid e
                 {| backends := delete bid (backends st);
                    session_index := foldl (fun ix s => delete s ix) (session_index st)
                                       (elements (session_ids e)) |})
  end.

(** The part of [release_session] under the lock. *)
Definition unbind_session (sid : str) (st : BackendManagerState) :
    option BackendInstanceEntry * BackendManagerState :=
  match session_index st !! sid with
  | None => (None, st)
  | Some bid =>
      let ix := delete sid (session_index st) in
      match backends st !! bid with
      | None => (None, {| backends := backends st; session_index := ix |})
      | Some e =>
          let e := set_session_ids (session_ids e ∖ {[sid]}) e in
          if bool_decide (session_ids e = ∅)
          then (Some e, detach_from_parent bid e {| backends := delete bid (backends st); session_index := ix |})
          else (None, {| backends := <[bid := e]> (backends st); session_index := ix |})
      end
  end.

Definition given (o : option str) : option str := keep_if non_blank o.

Definition resolve_checkpoint_backend_id (st : BackendManagerState) (bid sid : option str) :
    result str BackendError :=
  let? by_session := match given sid with
                     | None => Ok None
                     | Some s => match session_index st !! s with
                                 | Some b => Ok (Some b)
                                 | None => Err (BNotFound (lit "session:" ++ s))
                                 end
                     end in
  match given bid, by_session with
  | Some b, Some b' =>
      if bool_decide (b = b') then Ok b
      else Err (BConflict (lit "backend_id " ++ b ++ lit " does not match session_id backend " ++ b'))
  | Some b, None | None, Some b => Ok b
  | None, None => Err (BInvalidRequest (lit "checkpoint requires backend_id or session_id"))
  end.

Record BackendInfo := {
  info_backend_id : str;
  info_provider : str;
  info_instance_id : str;
  info_metadata : Json;
  info_session_id : option str;
  info_session_ids : list str;
  info_expires_at_ms : option Z;
  info_lineage : BackendLineageEntry;
}.
Definition info (e : BackendInstanceEntry) : BackendInfo :=
  let ids := merge_sort str_le (elements (session_ids e)) in
  {| info_backend_id := inst_backend_id (instance e); info_provider := inst_provider (instance e);
     info_instance_id := inst_instance_id (instance e); info_metadata := inst_metadata (instance e);
     info_session_id := match ids with [s] => Some s | _ => None end; info_session_ids := ids;
     info_expires_at_ms := expires_at_ms e; info_lineage := lineage e |}.

(** ** Errors *)

Definition counter_error_str (e : SandboxCounterError) : str :=
  match e with
  | LimitExceeded current max key =>
      lit "limit exceeded for " ++ sandbox_type key ++ lit " " ++ key_identifier key ++
      lit ": current=" ++ show current ++ lit ", max=" ++ show max
  | FileError m => lit "file error: " ++ m
  | LockError m => lit "lock error: " ++ m
  | ParseError m => lit "parse error: " ++ m
  end.
Definition from_counter_error (e : SandboxCounterError) : BackendError :=
  BResourceLimitExceeded (counter_error_str e).
Definition from_registry_error (e : BackendRegistryError) : BackendError :=
  BOperation (registry_error_str e).

Definition into_build_error (e : BackendError) : Build.OperationBackendBuildError :=
  match e with
  | BInvalidRequest m | BConflict m => Build.InvalidConfig m
  | BUnsupportedBackend k => Build.UnsupportedBackend k
  | BResourceLimitExceeded m => Build.ResourceLimitExceeded m
  | BNeedsEviction => Build.ResourceLimitExceeded (lit "needs eviction before creation")
  | BNotFound id => Build.BuildFailed (lit "managed backend not found: " ++ id)
  | BBuildFailed m | BOperation m => Build.BuildFailed m
  end.

(** ** Unsaved changes: dirty_write.rs *)

Record BackendDirtyState := { dirty : bool; tracked_checkpoint : option BackendCheckpointRef }.
Definition default_tracker : BackendDirtyState := {| dirty := false; tracked_checkpoint := None |}.

Definition mark_dirty (t : BackendDirtyState) : BackendDirtyState :=
  {| dirty := true; tracked_checkpoint := tracked_checkpoint t |}.
Definition set_checkpoint (c : BackendCheckpointRef) (t : BackendDirtyState) : BackendDirtyState :=
  {| dirty := false; tracked_checkpoint := Some c |}.
Definition clear_checkpoint_if_matches (cid : str) (t : BackendDirtyState) : BackendDirtyState :=
  match tracked_checkpoint t with
  | Some c => if bool_decide (ref_checkpoint_id c = cid) then {| dirty := true; tracked_checkpoint := None |} else t
  | None => t
  end.

(** What the users of a backend do with it through [DirtyTrackedOperationBackend],
    and whether the tracker hears of it. *)
Inductive BackendUse :=
| UStat | UReadBytes | UWriteBytes | UCreateDirAll | UCreateDirAllWithExtra | UTempPath | UExec | UExecStreaming.
Definition marks_dirty (u : BackendUse) (succeeded : bool) : bool :=
  match u with
  | UWriteBytes | UCreateDirAll | UCreateDirAllWithExtra | UTempPath | UExec => succeeded
  | UStat | UReadBytes | UExecStreaming => false
  end.
