(* ===== verification/BackendManager.v ===== *)
(** * The backend manager

    apps/shared/src/backend/backend_manager.rs and [checkout_backend_with_eviction]
    of gateway/session_backend.rs. An operation is a program over the effects it
    awaits: the lock of the process's table, one access to the shared counter or to
    the shared registry, a call of the provider, the clock. Between two effects any
    other task of any process may run. Taking the lock takes the table out of the
    world and releasing it puts the table back, as a guard does. *)

From S2P Require Import LocalPolicy.
From S2P Require Import Prelude RStr Message SandboxCounter BackendRegistry SessionLease SessionStore.
From S2P Require Import Runtimes Free BackendData.

(** ** Programs *)

(** What the history notes of the places where counter and sandboxes part: an
    orphan was reclaimed, a confirmation failed, a sandbox is stored under another
    key than it is counted under, the counts were overwritten. *)
Inductive Note :=
| Reclaimed (key : SandboxCounterKey)
| ConfirmLost (key : SandboxCounterKey)
| Rekeyed (key : SandboxCounterKey)
| Recounted (before after : disk).

(** The input of a creation: id, kind, options, workspace root and metadata. *)
Record CreateInput := {
  in_backend_id : str;
  in_config : GatewayBackendConfig;
  in_workspace_root : str;
  in_metadata : Json;
}.

(** The effects. [Write] is a note of the history, not an effect of the code. *)
Inductive Eff :=
| Lock
| Unlock (st : BackendManagerState)
| Count (o : op)
| CountTotal (key : SandboxCounterKey)
| Register (e : BackendRegistryEntry)
| Unregister (bid : str)
| EntriesByKey (key : SandboxCounterKey)
| AllEntries
| EntriesForProcess
| SetPending (bid : str) (pending : bool)
| Activity (bid : str)
| Heartbeats
| SessionStatus (bid sid status : str) (depth : Z)
| NewTracker (bid : str) (c : option BackendCheckpointRef)
| ReadTracker (bid : str)
| SetTracker (bid : str) (c : BackendCheckpointRef)
| ClearTracker (bid cid : str)
| Create (i : CreateInput)
| Delete (e : BackendInstanceEntry)
| Snapshot (options : Json) (sandbox : str) (name : option str)
| DeleteSnapshot (options : Json) (snapshot : str)
| DeleteSandbox (options : Json) (sandbox : str)
| Clock
| FreshId
| NewBackendId (avoid : gset str)
| MarkPaused (ids : list str) (c : option BackendCheckpointRef)
| Signal (pid : Z)
| Sleep (ms : Z)
| Write (n : Note).

Definition eff_ret (c : Eff) : Type :=
  match c with
  | Lock => BackendManagerState
  | Count _ => result () SandboxCounterError
  | CountTotal _ => result Z SandboxCounterError
  | Register _ | Unregister _ | SetPending _ _ | Activity _ | Heartbeats | SessionStatus _ _ _ _ =>
      result () BackendRegistryError
  | EntriesByKey _ | AllEntries | EntriesForProcess => result (list BackendRegistryEntry) BackendRegistryError
  | ReadTracker _ => BackendDirtyState
  | Create _ => result BackendInstance BackendError
  | Delete _ => result () str
  | Snapshot _ _ _ => result (str * list str) BackendError
  | DeleteSnapshot _ _ => result bool BackendError
  | DeleteSandbox _ _ => result () BackendError
  | Clock => Z
  | FreshId | NewBackendId _ => str
  | Unlock _ | NewTracker _ _ | SetTracker _ _ | ClearTracker _ _ | MarkPaused _ _ | Signal _ | Sleep _ | Write _ => ()
  end.

Abbreviation Prog := (Free eff_ret).

(** ** Requests *)

(** A path is any string of the system; one that is not UTF-8 is shown with
    replacement characters. *)
Inductive OsPath := Utf8Path (s : str) | OtherPath (display : str).
Definition workspace_root_string (path : OsPath) : result str Build.OperationBackendBuildError :=
  match path with
  | Utf8Path s => Ok s
  | OtherPath shown => Err (Build.InvalidConfig (lit "workspace_root is not valid utf-8: " ++ shown))
  end.

Record BackendEnsureSessionRequest := {
  ensure_config : option GatewayBackendConfig;
  ensure_workspace_root : OsPath;
  ensure_session_id : str;
  ensure_status : option (str * Z);
}.

Record BackendCheckoutRequest := {
  co_checkpoint : BackendCheckpointRef;
  co_backend_id : option str;
  co_session_id : option str;
  co_timeout : option Z;
  co_metadata : Json;
  co_options : option Json;
  co_status : option (str * Z);
}.

Record BackendCheckpointRequest := {
  cp_backend_id : option str;
  cp_session_id : option str;
  cp_request_name : option str;
  cp_request_metadata : Json;
}.

Definition create_config_of (r : BackendCheckoutRequest) (snapshot : str) : GatewayBackendConfig :=
  {| kind := lit "e2b";
     options := forked_provider_options (provider_options (co_checkpoint r)) (co_options r) snapshot |}.
Definition stored_config_of (r : BackendCheckoutRequest) : GatewayBackendConfig :=
  {| kind := lit "e2b"; options := provider_options (co_checkpoint r) |}.

Definition checkout_unsupported (r : BackendCheckoutRequest) : BackendError :=
  BUnsupportedBackend (ref_provider (co_checkpoint r) ++ lit ":checkout").
Definition already_exists (bid : str) : BackendError :=
  BConflict (lit "backend_id " ++ bid ++ lit " already exists").
Definition already_bound (sid bid : str) : BackendError :=
  BConflict (lit "session_id " ++ sid ++ lit " is already bound to backend_id " ++ bid).
Definition is_bound (st : BackendManagerState) (sid : option str) : option (str * str) :=
  match sid with
  | Some s => match session_index st !! s with Some b => Some (s, b) | None => None end
  | None => None
  end.

Definition expires_at_ms_from_timeout (now secs : Z) : Z :=
  Word.saturating_add now (Z.min Word.u64_max (secs * 1000)).

Definition as_list {A} (o : option A) : list A := match o with Some a => [a] | None => [] end.

(** ** One process *)

Section Manager.
Context `{Machine, KeyHash}.
(** The id of the process, its operating-system id and its limits. *)
Context (process_id : str) (os_pid : Z) (limits : BackendManagerLimits).

(** [build_backend]: the provider creates the sandbox, a tracker is made. *)
Definition build_backend (i : CreateInput) (hash : Z) (sid : option str) (expires : option Z)
    (lin : BackendLineageEntry) (c : option BackendCheckpointRef) :
    Prog (result BackendInstanceEntry BackendError) :=
  let&? inst := call (Create i) in
  do& (NewTracker (in_backend_id i) c);
  Ret (Ok {| instance := inst; config := in_config i; workspace_root := in_workspace_root i;
             config_hash := hash; session_ids := list_to_set (as_list sid);
             expires_at_ms := expires; lineage := lin |}).

Definition finalize_removal (e : BackendInstanceEntry) : Prog (result () str) :=
  if is_counted_kind (kind (config e)) then
    do& (Count (ORelease (sandbox_key_from_config (config e))));
    do& (Unregister (inst_backend_id (instance e)));
    call (Delete e)
  else call (Delete e).

(** What [checkpoint_backend] reads under the lock: a checkpoint that is still
    good, or the entry to take one of. *)
Definition checkpoint_source (r : BackendCheckpointRequest) :
    Prog (result (str * BackendInstanceEntry * option BackendCheckpointRef) BackendError) :=
  let& st := call Lock in
  match resolve_checkpoint_backend_id st (cp_backend_id r) (cp_session_id r) with
  | Err e => do& (Unlock st); Ret (Err e)
  | Ok bid =>
      match backends st !! bid with
      | None => do& (Unlock st); Ret (Err (BNotFound bid))
      | Some e =>
          let& t := call (ReadTracker bid) in
          do& (Unlock st);
          Ret (Ok (bid, e, if dirty t then None else tracked_checkpoint t))
      end
  end.

Definition checkpoint_backend (r : BackendCheckpointRequest) :
    Prog (result (BackendCheckpointRef * bool) BackendError) :=
  let&? src := checkpoint_source r in
  let '(bid, e, good) := src in
  match good with
  | Some c => Ret (Ok (c, true))
  | None =>
      let& now := call Clock in
      let&? snapshot :=
        if is_counted_kind (kind (config e)) then
          let&? s := call (Snapshot (options (config e)) (inst_instance_id (instance e)) (cp_request_name r)) in
          Ret (Ok (Some s.1, s.2))
        else Ret (Ok (None, [])) in
      let& uuid := call FreshId in
      let c := {| ref_checkpoint_id := lit "bcp_" ++ uuid; ref_provider := kind (config e);
                  source_backend_id := Some bid; provider_snapshot_id := snapshot.1;
                  provider_snapshot_names := snapshot.2; ref_workspace_root := workspace_root e;
                  ref_name := cp_request_name r; ref_metadata := cp_request_metadata r;
                  ref_created_at_ms := now; provider_options := options (config e) |} in
      let& st := call Lock in
      match backends st !! bid with
      | None => do& (Unlock st); Ret (Err (BNotFound bid))
      | Some _ => do& (SetTracker bid c); do& (Unlock st); Ret (Ok (c, false))
      end
  end.

Definition delete_checkpoint_snapshot (c : BackendCheckpointRef) : Prog (result bool BackendError) :=
  match provider_snapshot_id c with
  | None => Ret (Ok false)
  | Some snapshot =>
      if negb (is_counted_kind (ref_provider c)) then
        Ret (Err (BUnsupportedBackend (ref_provider c ++ lit ":delete_snapshot")))
      else
        let&? deleted := call (DeleteSnapshot (provider_options c) snapshot) in
        match source_backend_id c with
        | None => Ret (Ok deleted)
        | Some bid =>
            let& st := call Lock in
            match backends st !! bid with
            | Some _ => do& (ClearTracker bid (ref_checkpoint_id c)); do& (Unlock st); Ret (Ok deleted)
            | None => do& (Unlock st); Ret (Ok deleted)
            end
        end
  end.

Definition confirm (key : SandboxCounterKey) : Prog () :=
  let& r := call (Count (OConfirm key)) in
  match r with
  | Ok _ => Ret ()
  | Err _ => do& (Write (ConfirmLost key)); Ret ()
  end.

(** A note of the history: the sandbox counted under [key] is stored under [stored]. *)
Definition note_rekeyed (key stored : SandboxCounterKey) : Prog () :=
  if decide (key = stored) then Ret () else do& (Write (Rekeyed stored)); Ret ().

Definition requested_backend_id (bid : option str) : Prog (result str BackendError) :=
  match bid with
  | Some b => if non_blank b then Ret (Ok b)
              else Ret (Err (BInvalidRequest (lit "backend_id cannot be empty")))
  | None => let& bid := call (NewBackendId ∅) in Ret (Ok bid)
  end.

(** The checks and the reservation of [checkout_backend], under the lock. *)
Definition reserve_for_checkout (child : str) (sid : option str) (key : SandboxCounterKey) :
    Prog (result () BackendError) :=
  let& st := call Lock in
  if bool_decide (is_Some (backends st !! child)) then do& (Unlock st); Ret (Err (already_exists child))
  else
    match is_bound st sid with
    | Some (s, b) => do& (Unlock st); Ret (Err (already_bound s b))
    | None =>
        let& r := call (Count (OReserve key)) in
        do& (Unlock st);
        Ret match r with
            | Ok _ => Ok ()
            | Err (LimitExceeded _ _ _) => Err BNeedsEviction
            | Err e => Err (from_counter_error e)
            end
    end.

(** The insertion of the child, under the lock again. *)
Definition insert_child (r : BackendCheckoutRequest) (child : str) (e : BackendInstanceEntry) :
    Prog (result () BackendError) :=
  let& st := call Lock in
  if bool_decide (is_Some (backends st !! child)) then do& (Unlock st); Ret (Err (already_exists child))
  else
    match is_bound st (co_session_id r) with
    | Some (s, b) => do& (Unlock st); Ret (Err (already_bound s b))
    | None =>
        do& (Unlock (insert_checkout_child st (source_backend_id (co_checkpoint r)) child
                       (co_session_id r) e));
        Ret (Ok ())
    end.

Definition checkout_backend (r : BackendCheckoutRequest) : Prog (result BackendInfo BackendError) :=
  let c := co_checkpoint r in
  match provider_snapshot_id c with
  | None => Ret (Err (checkout_unsupported r))
  | Some snapshot =>
      if negb (is_counted_kind (ref_provider c)) then Ret (Err (checkout_unsupported r))
      else
        let&? child := requested_backend_id (co_backend_id r) in
        let& now := call Clock in
        let create := create_config_of r snapshot in
        let stored := stored_config_of r in
        let key := sandbox_key_from_config create in
        let&? _ := reserve_for_checkout child (co_session_id r) key in
        let& forked_at := call Clock in
        let lin := {| parent_backend_id := source_backend_id c; children_backend_ids := ∅;
                      forked_from_snapshot_id := Some snapshot;
                      forked_snapshot_names := provider_snapshot_names c;
                      forked_at_ms := Some forked_at |} in
        let& built := build_backend
                        {| in_backend_id := child; in_config := create;
                           in_workspace_root := ref_workspace_root c;
                           in_metadata := checkout_metadata (co_metadata r) c child |}
                        (hash_config create) (co_session_id r)
                        (expires_at_ms_from_timeout now <$> co_timeout r) lin (Some c) in
        match built with
        | Err e => do& (Count (OCancel key)); Ret (Err e)
        | Ok e =>
            let e := set_config stored (hash_config stored) e in
            let& inserted := insert_child r child e in
            match inserted with
            | Err error =>
                let& cleanup := call (Delete e) in
                do& (Count (OCancel key));
                Ret (Err match cleanup with Err m => BOperation m | Ok _ => error end)
            | Ok _ =>
                let& _ := confirm key in
                let& _ := note_rekeyed key (sandbox_key_from_config stored) in
                let& now := call Clock in
                do& (Register (new_registry_entry now os_pid child key (as_list (co_session_id r)) process_id
                                 (inst_instance_id (instance e)) (co_status r)));
                Ret (Ok (info e))
            end
        end
  end.

(** A lease is the instance of the entry. *)
Definition lease_bound_session (sid : str) : Prog (result BackendInstance BackendError) :=
  let& st := call Lock in
  do& (Unlock st);
  Ret match session_index st !! sid with
      | None => Err (BNotFound (lit "session:" ++ sid))
      | Some bid => match backends st !! bid with
                    | None => Err (BNotFound bid)
                    | Some e => Ok (instance e)
                    end
      end.

Definition release_session (sid : str) : Prog (result () str) :=
  let& st := call Lock in
  let '(removed, st') := unbind_session sid st in
  do& (Unlock st');
  match removed with
  | Some e => finalize_removal e
  | None => Ret (Ok ())
  end.

Fixpoint finalize_all (es : list BackendInstanceEntry) : Prog (result () str) :=
  match es with
  | [] => Ret (Ok ())
  | e :: es => let&? _ := finalize_removal e in finalize_all es
  end.

Definition shutdown_all : Prog (result () str) :=
  let& st := call Lock in
  do& (Unlock {| backends := ∅; session_index := ∅ |});
  finalize_all (map_to_list (backends st)).*2.

(** ** Eviction *)

Definition evict_backend_by_id (bid : str) : Prog (result () BackendError) :=
  let& st := call Lock in
  match remove_backend bid st with
  | None => do& (Unlock st); Ret (Err (BNotFound bid))
  | Some (e, st') => do& (Unlock st'); map_error BOperation (finalize_removal e)
  end.

Definition create_checkpoint_for_eviction (bid : str) : Prog (option BackendCheckpointRef) :=
  if checkpoint_before_eviction limits then
    let& r := checkpoint_backend
                {| cp_backend_id := Some bid; cp_session_id := None;
                   cp_request_name := Some (lit "eviction-" ++ bid);
                   cp_request_metadata := JObject [(lit "reason", JString (lit "eviction"))] |} in
    Ret match r with Ok (c, _) => Some c | Err _ => None end
  else Ret None.

Definition reclaim_orphaned_backend (e : BackendRegistryEntry) (opts : Json) : Prog () :=
  do& (Write (Reclaimed (sandbox_key e)));
  do& (Count (ORelease (sandbox_key e)));
  do& (Unregister (entry_backend_id e));
  if bool_decide (sandbox_type (sandbox_key e) = lit "e2b") && negb (bool_decide (instance_id e = []))
  then do& (DeleteSandbox opts (instance_id e)); Ret ()
  else Ret ().

Definition clear_pending_eviction (bid : str) : Prog () := do& (SetPending bid false); Ret ().

(** The entries of [try_evict_if_needed], the oldest first. *)
Fixpoint evict_first (opts : Json) (es : list BackendRegistryEntry) : Prog (result (option str) BackendError) :=
  match es with
  | [] => Ret (Err BNeedsEviction)
  | e :: es =>
      let& now := call Clock in
      if negb (is_evictable now STALE_OWNER_THRESHOLD_MS e) then evict_first opts es
      else if bool_decide (owner_process_id e = process_id) then
        let& c := create_checkpoint_for_eviction (entry_backend_id e) in
        let& r := evict_backend_by_id (entry_backend_id e) in
        match r with
        | Ok _ => do& (MarkPaused (entry_session_ids e) c); Ret (Ok None)
        | Err (BNotFound _) => evict_first opts es
        | Err error => Ret (Err error)
        end
      else
        let& now := call Clock in
        if is_owner_stale now STALE_OWNER_THRESHOLD_MS e then
          let& _ := reclaim_orphaned_backend e opts in Ret (Ok None)
        else
          do& (SetPending (entry_backend_id e) true);
          if negb (owner_pid e =? 0) && negb (owner_pid e =? os_pid)
          then do& (Signal (owner_pid e)); Ret (Ok (Some (entry_backend_id e)))
          else Ret (Ok (Some (entry_backend_id e)))
  end.

Definition older (a b : BackendRegistryEntry) : Prop := entry_created_at_ms a ≤ entry_created_at_ms b.
#[local] Instance older_dec a b : Decision (older a b).
Proof. unfold older. apply _. Defined.

(** [max_per_key] is the limit of the counter. *)
Definition max_per_key (configured : option Z) : Z :=
  match max_active_sandboxes_per_key limits with
  | Some n => n
  | None => default MAX_ACTIVE_SANDBOXES_PER_KEY configured
  end.

Context (max : Z).

Definition try_evict_if_needed (key : SandboxCounterKey) (opts : Json) : Prog (result (option str) BackendError) :=
  let&? total := map_error from_counter_error (call (CountTotal key)) in
  if total <? max then Ret (Ok None)
  else
    let&? entries := map_error from_registry_error (call (EntriesByKey key)) in
    let entries := merge_sort older entries in
    if existsb pending_eviction entries then Ret (Err BNeedsEviction)
    else evict_first opts entries.

Definition clear_mark (mark : option str) : Prog () :=
  match mark with Some bid => clear_pending_eviction bid | None => Ret () end.

(** The rounds of [reserve_with_eviction]; [mark] is the backend this call has
    marked. *)
Fixpoint reserve_rounds (n : nat) (key : SandboxCounterKey) (opts : Json) (mark : option str) :
    Prog (result () BackendError) :=
  match n with
  | O =>
      let& _ := clear_mark mark in
      let& r := call (Count (OReserve key)) in
      Ret match r with
          | Ok _ => Ok ()
          | Err (LimitExceeded _ _ _) =>
              Err (BResourceLimitExceeded (lit "sandbox limit reached; no idle sandbox available to evict"))
          | Err e => Err (from_counter_error e)
          end
  | S n =>
      let& r := call (Count (OReserve key)) in
      match r with
      | Ok _ => Ret (Ok ())
      | Err (LimitExceeded _ _ _) =>
          let& ev := try_evict_if_needed key opts in
          match ev with
          | Ok None => let& _ := clear_mark mark in reserve_rounds n key opts None
          | Ok (Some bid) => do& (Sleep 500); reserve_rounds n key opts (Some bid)
          | Err BNeedsEviction => do& (Sleep 500); reserve_rounds n key opts mark
          | Err e => Ret (Err e)
          end
      | Err e => Ret (Err (from_counter_error e))
      end
  end.

Definition attempts : nat := Nat.max (max_eviction_attempts limits) 1.

Definition reserve_with_eviction (key : SandboxCounterKey) (opts : Json) : Prog (result () BackendError) :=
  reserve_rounds attempts key opts None.

(** ** A backend for a session *)

Definition assert_status (counting : bool) (bid sid : str) (status : option (str * Z)) : Prog () :=
  do& (Activity bid);
  match status with
  | Some (st, depth) => if counting then do& (SessionStatus bid sid st depth); Ret () else Ret ()
  | None => Ret ()
  end.

(** The backend the session has, if its workspace and configuration are the same. *)
Definition existing_backend (r : BackendEnsureSessionRequest) (root : str) (hash : Z) (counting : bool) :
    Prog (option BackendInstance) :=
  let& st := call Lock in
  let found := match session_index st !! ensure_session_id r with
               | Some bid => match backends st !! bid with
                             | Some e => if bool_decide (workspace_root e = root) &&
                                            (config_hash e =? hash)
                                         then Some (bid, e) else None
                             | None => None
                             end
               | None => None
               end in
  match found with
  | Some (bid, e) =>
      let& _ := assert_status counting bid (ensure_session_id r) (ensure_status r) in
      do& (Unlock st); Ret (Some (instance e))
  | None => do& (Unlock st); Ret None
  end.

Definition cancel_if (counting : bool) (key : SandboxCounterKey) : Prog () :=
  if counting then do& (Count (OCancel key)); Ret () else Ret ().

(** The creation of [ensure_session_backend], with the lock held. *)
Definition create_for_session (r : BackendEnsureSessionRequest) (root : str) (c : GatewayBackendConfig)
    (st : BackendManagerState) : Prog (result BackendInstance Build.OperationBackendBuildError) :=
  let counting := is_counted_kind (kind c) in
  let key := sandbox_key_from_config c in
  let& bid := call (NewBackendId (dom (backends st))) in
  let& built := build_backend
                  {| in_backend_id := bid; in_config := c; in_workspace_root := root;
                     in_metadata := JNull |}
                  (hash_config c) (Some (ensure_session_id r)) None default_lineage None in
  match built with
  | Err e => let& _ := cancel_if counting key in do& (Unlock st); Ret (Err (into_build_error e))
  | Ok e =>
      let st' := {| backends := <[bid := e]> (backends st);
                    session_index := <[ensure_session_id r := bid]> (session_index st) |} in
      if counting then
        let& _ := confirm key in
        let& now := call Clock in
        do& (Register (new_registry_entry now os_pid bid key [ensure_session_id r] process_id
                         (inst_instance_id (instance e)) (ensure_status r)));
        do& (Unlock st'); Ret (Ok (instance e))
      else do& (Unlock st'); Ret (Ok (instance e))
  end.

Definition ensure_session_backend (r : BackendEnsureSessionRequest) :
    Prog (result BackendInstance Build.OperationBackendBuildError) :=
  match resolve_session_backend_config (ensure_config r), workspace_root_string (ensure_workspace_root r) with
  | Err e, _ | Ok _, Err e => Ret (Err e)
  | Ok c, Ok root =>
      let hash := hash_config c in
      let key := sandbox_key_from_config c in
      let counting := is_counted_kind (kind c) in
      let& fast := existing_backend r root hash counting in
      match fast with
      | Some inst => Ret (Ok inst)
      | None =>
          let&? _ := if counting then map_error into_build_error (reserve_with_eviction key (options c))
                     else Ret (Ok ()) in
          let& st := call Lock in
          match session_index st !! ensure_session_id r with
          | None => create_for_session r root c st
          | Some bid =>
              match backends st !! bid with
              | None =>
                  do& (Unlock st);
                  let& _ := cancel_if counting key in
                  Ret (Err (Build.BuildFailed
                              (lit "session " ++ ensure_session_id r ++ lit " is bound to missing backend " ++ bid)))
              | Some e =>
                  let& _ := cancel_if counting key in
                  if negb (bool_decide (workspace_root e = root)) ||
                     negb (config_hash e =? hash)
                  then
                    do& (Unlock st);
                    Ret (Err (Build.BuildFailed
                                (lit "session " ++ ensure_session_id r ++ lit " is already bound to backend " ++
                                 bid ++ lit " with different workspace or config")))
                  else
                    let& _ := assert_status counting bid (ensure_session_id r) (ensure_status r) in
                    do& (Unlock st); Ret (Ok (instance e))
              end
          end
      end
  end.

(** ** The background task of a process *)

Fixpoint evict_marked (es : list BackendRegistryEntry) : Prog (result () BackendError) :=
  match es with
  | [] => Ret (Ok ())
  | e :: es =>
      if negb (pending_eviction e) then evict_marked es
      else
        let& now := call Clock in
        if negb (is_eviction_safe now STALE_OWNER_THRESHOLD_MS e) then
          do& (SetPending (entry_backend_id e) false); evict_marked es
        else
          let& c := create_checkpoint_for_eviction (entry_backend_id e) in
          let&? _ := evict_backend_by_id (entry_backend_id e) in
          do& (MarkPaused (entry_session_ids e) c);
          evict_marked es
  end.

Definition check_and_evict_marked_backends : Prog (result () BackendError) :=
  let&? _ := map_error from_registry_error (call Heartbeats) in
  let&? es := map_error from_registry_error (call EntriesForProcess) in
  evict_marked es.

(** The number of entries of each key. *)
Definition live_counts (es : list BackendRegistryEntry) : gmap str Z :=
  foldl (fun m e => let k := to_string_key (sandbox_key e) in <[k := default 0 (m !! k) + 1]> m) ∅ es.

Definition reconcile_counts_with_registry : Prog (result () BackendError) :=
  let&? es := map_error from_registry_error (call AllEntries) in
  map_error from_counter_error (call (Count (OReconcile (live_counts es)))).

(** The task of [start_signal_handler], for the wake-ups that come: a tick of the
    heartbeat, or a signal (or the poll that replaces it). *)
Inductive WakeUp := HeartbeatTick | EvictionSignal.

Fixpoint handle_wake_ups (ws : list WakeUp) : Prog () :=
  match ws with
  | [] => Ret ()
  | HeartbeatTick :: ws => do& Heartbeats; handle_wake_ups ws
  | EvictionSignal :: ws => let& _ := check_and_evict_marked_backends in handle_wake_ups ws
  end.

Definition start_signal_handler (ws : list WakeUp) : Prog () :=
  let& _ := reconcile_counts_with_registry in handle_wake_ups ws.

(** ** Checkout for a session: session_backend.rs *)

Record CheckoutEvictionContext := { ctx_checkout : str; ctx_eviction : str; ctx_lease : str; ctx_exhausted : str }.
Definition resume_context : CheckoutEvictionContext :=
  {| ctx_checkout := lit "resume checkout"; ctx_eviction := lit "resume checkout eviction";
     ctx_lease := lit "failed to lease resumed backend";
     ctx_exhausted := lit "resume failed: sandbox limit reached and no idle sandbox to evict" |}.
Definition runtime_checkout_context : CheckoutEvictionContext :=
  {| ctx_checkout := lit "checkout runtime backend"; ctx_eviction := lit "checkout runtime backend eviction";
     ctx_lease := lit "failed to lease checked out backend";
     ctx_exhausted := lit "checkout runtime backend failed: sandbox limit reached and no idle sandbox to evict" |}.

Fixpoint checkout_rounds (n : nat) (ctx : CheckoutEvictionContext) (sid : str)
    (r : BackendCheckoutRequest) (mark : option str) : Prog (result BackendInstance SessionServiceError) :=
  let c := co_checkpoint r in
  let key := sandbox_key_from_config {| kind := ref_provider c; options := provider_options c |} in
  match n with
  | O => let& _ := clear_mark mark in Ret (Err (SessionBusy sid (ctx_exhausted ctx)))
  | S n =>
      let& co := checkout_backend r in
      match co with
      | Ok _ =>
          map_error (fun e => RuntimeBuild (ctx_lease ctx ++ lit ": " ++ backend_error_str e))
            (lease_bound_session sid)
      | Err BNeedsEviction =>
          let& ev := try_evict_if_needed key (provider_options c) in
          match ev with
          | Ok None => let& _ := clear_mark mark in checkout_rounds n ctx sid r None
          | Ok (Some bid) => do& (Sleep 500); checkout_rounds n ctx sid r (Some bid)
          | Err BNeedsEviction => do& (Sleep 500); checkout_rounds n ctx sid r mark
          | Err e => Ret (Err (map_backend_error (ctx_eviction ctx) sid e))
          end
      | Err e => Ret (Err (map_backend_error (ctx_checkout ctx) sid e))
      end
  end.

Definition checkout_backend_with_eviction (ctx : CheckoutEvictionContext) (sid : str) (c : BackendCheckpointRef)
    (metadata : Json) (opts : option Json) (status : option (str * Z)) :
    Prog (result BackendInstance SessionServiceError) :=
  checkout_rounds attempts ctx sid
    {| co_checkpoint := c; co_backend_id := None; co_session_id := Some sid; co_timeout := None;
       co_metadata := metadata; co_options := opts; co_status := status |} None.

(** session_supervisor.rs: a status is reported to the registry. *)
Definition reported_as (st : SessionLifecycleStatus) : str * Z :=
  match st with
  | SIdle => (lit "idle", 0)
  | SRunning => (lit "running", 1)
  | SPaused | SFailed | SClosed => (lit "idle", 0)
  end.
Definition report_session_status (sid : str) (st : SessionLifecycleStatus) : Prog () :=
  let& r := lease_bound_session sid in
  match r with
  | Err _ => Ret ()
  | Ok inst =>
      do& (SessionStatus (inst_backend_id inst) sid (reported_as st).1 (reported_as st).2); Ret ()
  end.

Definition list_backends (wanted : list (str * str)) : Prog (list BackendInfo) :=
  let& st := call Lock in
  do& (Unlock st);
  Ret (info <$> filter (fun e => metadata_matches_filter (inst_metadata (instance e)) wanted = true)
                  (map_to_list (backends st)).*2).

End Manager.
