(* ===== verification/BackendRuns.v ===== *)
(** * Processes that share sandboxes

    Any number of processes, each with any number of tasks that run operations of
    the backend manager, interleaved at every effect: the shared counter and
    registry, the tables of the processes, and what becomes of them. A process
    that has died is one whose tasks take no more steps. *)

From S2P Require Import LocalPolicy.
From S2P Require Import Prelude RStr Message SandboxCounter BackendRegistry SessionLease SessionStore.
From S2P Require Import Runtimes Free BackendData BackendManager.

(** ** The world *)

Record World := {
  counter : disk;
  registry : registry_disk;
  managers : gmap str BackendManagerState;
  stores : gmap str Store;
  trackers : gmap (str * str) BackendDirtyState;
  notes : list Note;
}.

Definition set_counter v (w : World) : World :=
  Build_World v (registry w) (managers w) (stores w) (trackers w) (notes w).
Definition set_registry v (w : World) : World :=
  Build_World (counter w) v (managers w) (stores w) (trackers w) (notes w).
Definition set_managers v (w : World) : World :=
  Build_World (counter w) (registry w) v (stores w) (trackers w) (notes w).
Definition set_stores v (w : World) : World :=
  Build_World (counter w) (registry w) (managers w) v (trackers w) (notes w).
Definition set_trackers v (w : World) : World :=
  Build_World (counter w) (registry w) (managers w) (stores w) v (notes w).
Definition add_note n (w : World) : World :=
  Build_World (counter w) (registry w) (managers w) (stores w) (trackers w) (notes w ++ [n]).

(** What the outside answers to one effect. *)
Record SysEnv := {
  sys_counter : SandboxCounter.Env;
  sys_registry : REnv;
  sys_now : Z;
  sys_uuid : str;
  sys_created : result str BackendError;
  sys_deleted : result () str;
  sys_snapshot : result (str * list str) BackendError;
  sys_snapshot_deleted : result bool BackendError;
  sys_sandbox_deleted : result () BackendError;
}.

Definition on_counter {T : Type} (r : T * disk) (w : World) : option (T * World) := Some (r.1, set_counter r.2 w).
Definition on_registry {T : Type} (r : T * registry_disk) (w : World) : option (T * World) :=
  Some (r.1, set_registry r.2 w).
Definition on_tracker (pid bid : str) (f : BackendDirtyState → BackendDirtyState) (w : World) : World :=
  set_trackers (<[(pid, bid) := f (default default_tracker (trackers w !! (pid, bid)))]> (trackers w)) w.

(** An effect of a task of process [pid]; [None] when it has to wait. *)
Definition perform (max : Z) (pid : str) (e : SysEnv) (c : Eff) (w : World) : option (eff_ret c * World) :=
  match c return option (eff_ret c * World) with
  | Lock =>
      match managers w !! pid with
      | Some st => Some (st, set_managers (delete pid (managers w)) w)
      | None => None
      end
  | Unlock st => Some ((), set_managers (<[pid := st]> (managers w)) w)
  | Count o =>
      let '(r, f) := exec max (sys_counter e) (counter w) o in
      Some (r, (match o with OReconcile _ => add_note (Recounted (counter w) f) | _ => id end) (set_counter f w))
  | CountTotal key => on_counter (get_total_count (sys_counter e) (counter w) key) w
  | Register entry => on_registry (register (sys_registry e) (registry w) entry) w
  | Unregister bid => on_registry (unregister (sys_registry e) (registry w) bid) w
  | EntriesByKey key => on_registry (get_entries_by_key (sys_registry e) (registry w) key) w
  | AllEntries => on_registry (get_all_entries (sys_registry e) (registry w)) w
  | EntriesForProcess => on_registry (get_entries_for_process (sys_registry e) (registry w) pid) w
  | SetPending bid b => on_registry (set_pending_eviction (sys_registry e) (registry w) bid b) w
  | Activity bid => on_registry (update_activity (sys_registry e) (registry w) bid) w
  | Heartbeats => on_registry (refresh_heartbeats_for_process (sys_registry e) (registry w) pid) w
  | SessionStatus bid sid st d =>
      on_registry (update_session_status (sys_registry e) (registry w) bid sid st d) w
  | NewTracker bid c =>
      Some ((), on_tracker pid bid
                  (fun _ => match c with Some c => set_checkpoint c default_tracker | None => default_tracker end) w)
  | ReadTracker bid => Some (default default_tracker (trackers w !! (pid, bid)), w)
  | SetTracker bid c => Some ((), on_tracker pid bid (set_checkpoint c) w)
  | ClearTracker bid cid => Some ((), on_tracker pid bid (clear_checkpoint_if_matches cid) w)
  | Create i =>
      Some (match sys_created e with
            | Ok id => Ok {| inst_backend_id := in_backend_id i; inst_provider := kind (in_config i);
                             inst_instance_id := id; inst_metadata := in_metadata i |}
            | Err err => Err err
            end, w)
  | Delete _ => Some (sys_deleted e, w)
  | Snapshot _ _ _ => Some (sys_snapshot e, w)
  | DeleteSnapshot _ _ => Some (sys_snapshot_deleted e, w)
  | DeleteSandbox _ _ => Some (sys_sandbox_deleted e, w)
  | Clock => Some (sys_now e, w)
  | FreshId => Some (sys_uuid e, w)
  | NewBackendId avoid =>
      let bid := lit "bkd_" ++ sys_uuid e in if decide (bid ∈ avoid) then None else Some (bid, w)
  | MarkPaused ids c =>
      Some ((), set_stores (<[pid := batch_mark_paused_due_to_eviction ids c (sys_now e)
                                       (default ∅ (stores w !! pid))]> (stores w)) w)
  | Signal _ | Sleep _ => Some ((), w)
  | Write n => Some ((), add_note n w)
  end.

(** ** Tasks *)

(** [CWakeUps] is the signal handler after its reconciliation. *)
Inductive Call :=
| CEnsure (r : BackendEnsureSessionRequest)
| CCheckout (r : BackendCheckoutRequest)
| CCheckoutSession (ctx : CheckoutEvictionContext) (sid : str) (c : BackendCheckpointRef) (metadata : Json)
    (opts : option Json) (status : option (str * Z))
| CCheckpoint (r : BackendCheckpointRequest)
| CDeleteSnapshot (c : BackendCheckpointRef)
| CLease (sid : str)
| CRelease (sid : str)
| CReport (sid : str) (st : SessionLifecycleStatus)
| CList (wanted : list (str * str))
| CSignalHandler (ws : list WakeUp)
| CWakeUps (ws : list WakeUp)
| CShutdown.

Section System.
Context `{Machine, KeyHash} (os_pid : str → Z) (limits : BackendManagerLimits) (max : Z).

Definition forget {T} (p : Prog T) : Prog () := let& _ := p in Ret ().

Definition program (pid : str) (c : Call) : Prog () :=
  match c with
  | CEnsure r => forget (ensure_session_backend pid (os_pid pid) limits max r)
  | CCheckout r => forget (checkout_backend pid (os_pid pid) r)
  | CCheckoutSession ctx sid c md opts status =>
      forget (checkout_backend_with_eviction pid (os_pid pid) limits max ctx sid c md opts status)
  | CCheckpoint r => forget (checkpoint_backend r)
  | CDeleteSnapshot c => forget (delete_checkpoint_snapshot c)
  | CLease sid => forget (lease_bound_session sid)
  | CRelease sid => forget (release_session sid)
  | CReport sid st => forget (report_session_status sid st)
  | CList wanted => forget (list_backends wanted)
  | CSignalHandler ws => start_signal_handler limits ws
  | CWakeUps ws => handle_wake_ups limits ws
  | CShutdown => forget shutdown_all
  end.

Record Sys := { world : World; tasks : list (str * Prog ()) }.

Inductive Label :=
| Start (pid : str) (c : Call)
| Step (i : nat) (e : SysEnv)
| Used (pid bid : str) (u : BackendUse) (succeeded : bool).

(** [Used]: a user of a backend has done something with it. *)
Definition fire (s : Sys) (l : Label) : option Sys :=
  match l with
  | Start pid c => Some {| world := world s; tasks := tasks s ++ [(pid, program pid c)] |}
  | Step i e =>
      match tasks s !! i with
      | Some (pid, Next c k) =>
          match perform max pid e c (world s) with
          | Some (x, w) => Some {| world := w; tasks := <[i := (pid, k x)]> (tasks s) |}
          | None => None
          end
      | _ => None
      end
  | Used pid bid u succeeded =>
      Some {| world := if marks_dirty u succeeded then on_tracker pid bid mark_dirty (world s) else world s;
              tasks := tasks s |}
  end.

Fixpoint fires (s : Sys) (ls : list Label) : option Sys :=
  match ls with
  | [] => Some s
  | l :: ls => match fire s l with Some s => fires s ls | None => None end
  end.

(** The processes start with empty tables and there are no shared files. *)
Definition boot (pids : list str) : Sys :=
  {| world := {| counter := None; registry := None;
                 managers := list_to_map ((fun p => (p, {| backends := ∅; session_index := ∅ |})) <$> pids);
                 stores := ∅; trackers := ∅; notes := [] |};
     tasks := [] |}.

End System.
