(* ===== verification/BackendFacts.v ===== *)
(** * Reasoning about the backend manager

    The invariant of a table of backends, what every operation on it keeps, and a
    small logic for programs: a program starts with a credit of sandboxes per key
    and returns with another. The credit of a task says how many sandboxes it has
    taken out of the tables and not yet released, less those it has put in and not
    yet confirmed. *)

From S2P Require Import LocalPolicy.
From S2P Require Import Prelude RStr Message SandboxCounter BackendRegistry SessionLease SessionStore.
From S2P Require Import Runtimes Free BackendData BackendManager BackendRuns.

(** ** Tables *)

Record mgr_ok (st : BackendManagerState) : Prop := {
  mo_index s b : session_index st !! s = Some b → ∃ e, backends st !! b = Some e ∧ s ∈ session_ids e;
  mo_sessions b e s : backends st !! b = Some e → s ∈ session_ids e → session_index st !! s = Some b;
  mo_children p e c : backends st !! p = Some e → c ∈ children_backend_ids (lineage e) →
    ∃ ec, backends st !! c = Some ec ∧ parent_backend_id (lineage ec) = Some p;
  mo_ids b e : backends st !! b = Some e → inst_backend_id (instance e) = b;
}.

Lemma empty_mgr_ok : mgr_ok {| backends := ∅; session_index := ∅ |}.
Proof. by constructor. Qed.

Lemma delete_all_lookup (l : list str) (ix : gmap str str) s :
  foldl (fun ix s => delete s ix) ix l !! s = if bool_decide (s ∈ l) then None else ix !! s.
Proof.
  revert ix. induction l as [|x l IH]; intros ix; simpl; [done|]. rewrite IH.
  destruct (decide (s = x)) as [->|Hne].
  - rewrite lookup_delete_eq. rewrite (bool_decide_eq_true_2 (x ∈ x :: l)) by set_solver. by destruct (bool_decide _).
  - rewrite lookup_delete_ne by done. rewrite (bool_decide_ext (s ∈ x :: l) (s ∈ l)) by set_solver. done.
Qed.

Lemma detach_index bid e st : session_index (detach_from_parent bid e st) = session_index st.
Proof. unfold detach_from_parent. by destruct (parent_backend_id (lineage e)). Qed.

Lemma detach_lookup bid e st (b : str) :
  backends (detach_from_parent bid e st) !! b =
  (if bool_decide (parent_backend_id (lineage e) = Some b) then without_child bid else id) <$> backends st !! b.
Proof.
  unfold detach_from_parent. destruct (parent_backend_id (lineage e)) as [p|]; simpl.
  - destruct (decide (p = b)) as [->|Hne].
    + rewrite lookup_alter_eq, bool_decide_eq_true_2; done.
    + rewrite lookup_alter_ne, bool_decide_eq_false_2 by congruence. by rewrite option_fmap_id.
  - by rewrite option_fmap_id.
Qed.

(** A change of the children leaves the rest of an entry. *)
Lemma pick_fields (c : bool) f e0 :
  (∃ bid, f = with_child bid ∨ f = without_child bid) →
  session_ids ((if c then f else id) e0) = session_ids e0 ∧ instance ((if c then f else id) e0) = instance e0 ∧
  config ((if c then f else id) e0) = config e0 ∧
  parent_backend_id (lineage ((if c then f else id) e0)) = parent_backend_id (lineage e0).
Proof. intros (bid & [-> | ->]); by destruct c. Qed.
Ltac pick_fields :=
  repeat match goal with
  | |- context [(if ?c then ?f else id) ?e] => 
      first [ rewrite (proj1 (pick_fields c f e ltac:(eauto)))
            | rewrite (proj1 (proj2 (pick_fields c f e ltac:(eauto))))
            | rewrite (proj2 (proj2 (proj2 (pick_fields c f e ltac:(eauto))))) ]
  | H : context [(if ?c then ?f else id) ?e] |- _ => 
      first [ rewrite (proj1 (pick_fields c f e ltac:(eauto))) in H
            | rewrite (proj1 (proj2 (pick_fields c f e ltac:(eauto)))) in H
            | rewrite (proj2 (proj2 (proj2 (pick_fields c f e ltac:(eauto))))) in H ]
  end.

(** The entry of [bid] goes, and with it its sessions. *)
Lemma detach_ok bid e st ix :
  mgr_ok st → backends st !! bid = Some e →
  (∀ s, ix !! s = if bool_decide (s ∈ session_ids e) then None else session_index st !! s) →
  mgr_ok (detach_from_parent bid e {| backends := delete bid (backends st); session_index := ix |}).
Proof.
  intros [I S C D] He Hix.
  assert (∀ b e1, backends (detach_from_parent bid e {| backends := delete bid (backends st); session_index := ix |}) !! b = Some e1 →
    b ≠ bid ∧ ∃ e0, backends st !! b = Some e0 ∧
    e1 = (if bool_decide (parent_backend_id (lineage e) = Some b) then without_child bid else id) e0) as Hlook.
  { intros b e1. rewrite detach_lookup, fmap_Some. intros (e0 & Hb & ->). simpl in Hb.
    apply lookup_delete_Some in Hb as [? ?]. eauto. }
  assert (∀ b e0, b ≠ bid → backends st !! b = Some e0 →
    backends (detach_from_parent bid e {| backends := delete bid (backends st); session_index := ix |}) !! b =
    Some ((if bool_decide (parent_backend_id (lineage e) = Some b) then without_child bid else id) e0)) as Hlook2.
  { intros b e0 Hne Hb. rewrite detach_lookup. simpl. by rewrite lookup_delete_ne, Hb. }
  constructor; rewrite ?detach_index; simpl.
  - intros s b. rewrite Hix. case_bool_decide as Hs; [done|]. intros Hsb. destruct (I s b Hsb) as (e0 & He0 & Hin).
    assert (b ≠ bid) as Hne by (intros ->; congruence). rewrite (Hlook2 _ _ Hne He0). eexists. split; [done|].
    by pick_fields.
  - intros b e1 s (Hne & e0 & He0 & ->)%Hlook Hs. rewrite Hix.
    pick_fields. rename Hs into Hs0.
    rewrite bool_decide_eq_false_2; [by eapply S|]. intros Hse. pose proof (S _ _ _ He Hse). pose proof (S _ _ _ He0 Hs0). congruence.
  - intros p e1 c (Hne & e0 & He0 & ->)%Hlook Hc.
    assert (c ∈ children_backend_ids (lineage e0) ∧ c ≠ bid) as [Hc0 Hcb].
    { destruct (bool_decide (parent_backend_id (lineage e) = Some p)) eqn:Hp; simpl in Hc; [set_solver|].
      apply bool_decide_eq_false in Hp. split; [done|]. intros ->.
      destruct (C _ _ _ He0 Hc) as (ec & Hec & Hpar). congruence. }
    destruct (C _ _ _ He0 Hc0) as (ec & Hec & Hpar). rewrite (Hlook2 _ _ Hcb Hec). eexists. split; [done|].
    by pick_fields.
  - intros b e1 (Hne & e0 & He0 & ->)%Hlook. pick_fields. by apply D.
Qed.

Lemma remove_backend_ok bid st e st' :
  mgr_ok st → remove_backend bid st = Some (e, st') → mgr_ok st'.
Proof.
  intros Hok. unfold remove_backend. destruct (backends st !! bid) as [e0|] eqn:He; [|done].
  intros [= <- <-]. apply detach_ok; [done|done|]. intros s. rewrite delete_all_lookup.
  by rewrite (bool_decide_ext (s ∈ elements (session_ids e0)) (s ∈ session_ids e0)) by apply elem_of_elements.
Qed.

Lemma unbind_session_ok sid st : mgr_ok st → mgr_ok (unbind_session sid st).2.
Proof.
  intros Hok. pose proof Hok as [I S C D]. unfold unbind_session.
  destruct (session_index st !! sid) as [bid|] eqn:Hs; [|done].
  destruct (I _ _ Hs) as (e & He & Hin). rewrite He. set (e' := set_session_ids _ e).
  assert (mgr_ok {| backends := <[bid := e']> (backends st); session_index := delete sid (session_index st) |}) as H1.
  { constructor; simpl.
    - intros s b. rewrite lookup_delete_Some. intros [Hne Hb]. destruct (I _ _ Hb) as (e0 & He0 & Hin0).
      destruct (decide (b = bid)) as [->|Hnb].
      + rewrite lookup_insert_eq. eexists. split; [done|]. simpl. assert (e0 = e) as -> by congruence. set_solver.
      + rewrite lookup_insert_ne by done. eauto.
    - intros b e0 s Hb Hin0. rewrite lookup_delete_Some. apply lookup_insert_Some in Hb as [[<- <-]|[Hne Hb]].
      + simpl in Hin0. split; [set_solver|]. eapply S; [done|]. set_solver.
      + pose proof (S _ _ _ Hb Hin0). split; [congruence|done].
    - intros p e0 c Hb Hc. assert (∃ e1, backends st !! p = Some e1 ∧ children_backend_ids (lineage e1) = children_backend_ids (lineage e0))
        as (e1 & He1 & Hch).
      { apply lookup_insert_Some in Hb as [[<- <-]|[Hne Hb]]; [by exists e|by exists e0]. }
      rewrite <- Hch in Hc. destruct (C _ _ _ He1 Hc) as (ec & Hec & Hpar).
      destruct (decide (c = bid)) as [->|Hne]; [rewrite lookup_insert_eq; eexists; split; [done|]; by assert (ec = e) as <- by congruence|].
      rewrite lookup_insert_ne by done. eauto.
    - intros b e0 Hb. apply lookup_insert_Some in Hb as [[<- <-]|[Hne Hb]]; [by apply (D _ e)|by apply D]. }
  case_bool_decide as Hempty; [|done]. simpl.
  rewrite <- (delete_insert_eq (backends st) bid e').
  pose proof (detach_ok bid e' _ (delete sid (session_index st)) H1 (lookup_insert_eq _ _ _)) as H2.
  cbn [backends session_index] in H2.
  apply H2. intros s. rewrite bool_decide_eq_false_2; [done|]. fold e' in Hempty. rewrite Hempty. set_solver.
Qed.

Lemma insert_checkout_child_ok st source child sid e :
  mgr_ok st → backends st !! child = None → is_bound st sid = None →
  session_ids e = list_to_set (as_list sid) → inst_backend_id (instance e) = child →
  parent_backend_id (lineage e) = source → children_backend_ids (lineage e) = ∅ →
  mgr_ok (insert_checkout_child st source child sid e).
Proof.
  intros [I S C D] Hnew Hb Hsid Hid Hpar Hch. unfold insert_checkout_child.
  set (bs := match source with Some p => alter (with_child child) p (backends st) | None => backends st end).
  assert (∀ b, bs !! b = (if bool_decide (source = Some b) then with_child child else id) <$> backends st !! b) as Hbs.
  { intros b. unfold bs. destruct source as [p|]; simpl.
    - destruct (decide (p = b)) as [->|Hne].
      + rewrite lookup_alter_eq, bool_decide_eq_true_2; done.
      + rewrite lookup_alter_ne, bool_decide_eq_false_2 by congruence. by rewrite option_fmap_id.
    - by rewrite option_fmap_id. }
  assert (∀ b e0, backends st !! b = Some e0 → <[child := e]> bs !! b =
    Some ((if bool_decide (source = Some b) then with_child child else id) e0)) as H2.
  { intros b e0 He0. rewrite lookup_insert_ne by congruence. by rewrite Hbs, He0. }
  assert (∀ b e1, <[child := e]> bs !! b = Some e1 → b = child ∧ e1 = e ∨ b ≠ child ∧ ∃ e0, backends st !! b = Some e0 ∧
    e1 = (if bool_decide (source = Some b) then with_child child else id) e0) as H1.
  { intros b e1 [[<- <-]|[Hne Hl]]%lookup_insert_Some; [by left|]. right. split; [done|].
    rewrite Hbs in Hl. apply fmap_Some in Hl as (e0 & ? & ->). eauto. }
  assert (∀ s b, (match sid with Some s => <[s := child]> (session_index st) | None => session_index st end) !! s = Some b →
    b = child ∧ s ∈ session_ids e ∨ session_index st !! s = Some b) as Hix.
  { intros s b. rewrite Hsid. destruct sid as [s0|]; simpl; [|by right].
    rewrite lookup_insert_Some. intros [[<- <-]|[Hne Hl]]; [left; set_solver|by right]. }
  constructor; simpl.
  - intros s b [[-> Hs]|Hs]%Hix; [exists e; by rewrite lookup_insert_eq|].
    destruct (I _ _ Hs) as (e0 & He0 & Hin). rewrite (H2 _ _ He0). eexists. split; [done|]. by pick_fields.
  - intros b e1 s [[-> ->]|(Hne & e0 & He0 & ->)]%H1 Hin.
    + rewrite Hsid in Hin. destruct sid as [s0|]; simpl in Hin; [|set_solver].
      assert (s = s0) as -> by set_solver. by rewrite lookup_insert_eq.
    + assert (session_index st !! s = Some b) as Hsb by (pick_fields; by eapply S).
      destruct sid as [s0|]; [|done]. simpl in Hb. rewrite lookup_insert_ne; [done|]. intros ->. by rewrite Hsb in Hb.
  - intros p e1 c [[-> ->]|(Hne & e0 & He0 & ->)]%H1 Hc; [rewrite Hch in Hc; set_solver|].
    assert (c = child ∧ source = Some p ∨ c ∈ children_backend_ids (lineage e0)) as [[-> Hsrc]|Hc0].
    { destruct (bool_decide (source = Some p)) eqn:Hp; simpl in Hc; [apply bool_decide_eq_true in Hp|by right]. apply elem_of_union in Hc as [->%elem_of_singleton|?]; [by left|by right]. }
    + exists e. rewrite lookup_insert_eq. by rewrite Hpar.
    + destruct (C _ _ _ He0 Hc0) as (ec & Hec & Hp). rewrite (H2 _ _ Hec). eexists. split; [done|]. by pick_fields.
  - intros b e1 [[-> ->]|(Hne & e0 & He0 & ->)]%H1; [done|].
    pick_fields. by apply D.
Qed.

(** A new backend with one session. *)
Lemma insert_session_ok st bid sid e :
  mgr_ok st → backends st !! bid = None → session_index st !! sid = None → session_ids e = {[sid]} →
  inst_backend_id (instance e) = bid → lineage e = default_lineage →
  mgr_ok {| backends := <[bid := e]> (backends st); session_index := <[sid := bid]> (session_index st) |}.
Proof.
  intros Hok Hnew Hs Hsid Hid Hlin. apply (insert_checkout_child_ok st None bid (Some sid) e);
    [done|done|simpl; by rewrite Hs|simpl; set_solver|done|by rewrite Hlin|by rewrite Hlin].
Qed.

(** ** Counting *)

Section Counting.
Context `{Machine, KeyHash}.

Definition counted_as (k : str) (e : BackendInstanceEntry) : bool :=
  is_counted_kind (kind (config e)) && bool_decide (to_string_key (sandbox_key_from_config (config e)) = k).
Definition cost (e : BackendInstanceEntry) (k : str) : Z := if counted_as k e then 1 else 0.

(** The sandboxes of a key in a table. *)
Definition held (bs : gmap str BackendInstanceEntry) (k : str) : Z :=
  Z.of_nat (size (filter (fun p => counted_as k p.2 = true) bs)).

Lemma held_nonneg bs k : 0 ≤ held bs k.
Proof. unfold held. lia. Qed.
Lemma cost_range e k : 0 ≤ cost e k ≤ 1.
Proof. unfold cost. destruct (counted_as k e); lia. Qed.
Lemma held_none k : held ∅ k = 0.
Proof. unfold held. by rewrite map_filter_empty, map_size_empty. Qed.

Lemma held_insert_new bs (b : str) e k : bs !! b = None → held (<[b := e]> bs) k = held bs k + cost e k.
Proof.
  intros Hb. unfold held, cost. destruct (counted_as k e) eqn:E.
  - rewrite map_filter_insert_True by done. rewrite map_size_insert_None; [lia|].
    apply map_lookup_filter_None. by left.
  - rewrite map_filter_insert_False by (simpl; congruence). by rewrite delete_id by done; lia.
Qed.

Lemma held_removed bs (b : str) e k : bs !! b = Some e → held (delete b bs) k = held bs k - cost e k.
Proof.
  intros Hb. rewrite <- (insert_delete_id bs b e Hb) at 2.
  rewrite held_insert_new by apply lookup_delete_eq. lia.
Qed.

Lemma held_replace bs (b : str) e e' k :
  bs !! b = Some e → config e' = config e → held (<[b := e']> bs) k = held bs k.
Proof.
  intros Hb Hc. rewrite <- insert_delete_eq, held_insert_new by apply lookup_delete_eq.
  rewrite (held_removed bs b e) by done. unfold cost, counted_as. rewrite Hc. lia.
Qed.

Lemma held_alter f p bs k : (∀ e, config (f e) = config e) → held (alter f p bs) k = held bs k.
Proof.
  intros Hf. destruct (bs !! p) as [e|] eqn:He.
  - assert (alter f p bs = <[p := f e]> bs) as ->; [|by eapply held_replace].
    apply map_eq. intros i. destruct (decide (i = p)) as [->|Hne].
    + by rewrite lookup_alter_eq, lookup_insert_eq, He.
    + by rewrite lookup_alter_ne, lookup_insert_ne.
  - by rewrite alter_id by (intros x Hx; congruence).
Qed.

Lemma held_detach bid e st k : held (backends (detach_from_parent bid e st)) k = held (backends st) k.
Proof. unfold detach_from_parent. destruct (parent_backend_id (lineage e)); [by apply held_alter|done]. Qed.

Lemma held_remove bid st e st' k :
  remove_backend bid st = Some (e, st') → held (backends st') k = held (backends st) k - cost e k.
Proof.
  unfold remove_backend. destruct (backends st !! bid) as [e0|] eqn:He; [|done]. intros [= <- <-].
  rewrite held_detach. by apply held_removed.
Qed.

Lemma held_unbind sid st k :
  let '(removed, st') := unbind_session sid st in
  held (backends st') k = held (backends st) k - match removed with Some e => cost e k | None => 0 end.
Proof.
  unfold unbind_session. destruct (session_index st !! sid) as [bid|]; [|lia].
  destruct (backends st !! bid) as [e|] eqn:He; [|simpl; lia]. case_bool_decide.
  - rewrite held_detach. cbn [backends]. by rewrite (held_removed _ _ e).
  - cbn [backends]. rewrite (held_replace _ _ e); [lia|done|done].
Qed.

Lemma held_checkout_child st source child sid e k :
  backends st !! child = None →
  held (backends (insert_checkout_child st source child sid e)) k = held (backends st) k + cost e k.
Proof.
  intros Hn. unfold insert_checkout_child. cbn [backends]. destruct source as [p|].
  - rewrite held_insert_new; [by rewrite held_alter|]. rewrite lookup_alter_None. done.
  - by rewrite held_insert_new.
Qed.

Lemma held_list bs k : held bs k = foldr (fun e n => cost e k + n) 0 (map_to_list bs).*2.
Proof.
  induction bs as [|b e bs Hb IH] using map_ind; [by rewrite map_to_list_empty, held_none|].
  rewrite held_insert_new, IH by done.
  assert (∀ l1 l2 : list BackendInstanceEntry, l1 ≡ₚ l2 →
    foldr (fun e n => cost e k + n) 0 l1 = foldr (fun e n => cost e k + n) 0 l2) as Hp.
  { induction 1; simpl; lia. }
  rewrite (Hp ((map_to_list (<[b:=e]> bs)).*2) (e :: (map_to_list bs).*2)); [simpl; lia|].
  by rewrite map_to_list_insert.
Qed.

(** ** A logic of credits *)

Abbreviation credit := (str → Z).

Definition of_key (key : SandboxCounterKey) (k : str) : Z := if decide (k = to_string_key key) then 1 else 0.
(** By how much a note lets the sandboxes of a key be more than the counter has live. *)
Definition slip (n : Note) (k : str) : Z :=
  match n with
  | Reclaimed key | ConfirmLost key | Rekeyed key => of_key key k
  | Recounted before after =>
      Z.max 0 (SandboxCounter.live (abs_disk before k) - SandboxCounter.live (abs_disk after k))
  end.

(** How many entries the registry has at most. *)
Class RegistryBound := registry_bound : Z.
Context `{RegistryBound}.

(** By how much an effect moves the credit of its task. *)
Definition gain (c : Eff) : eff_ret c → credit :=
  match c return eff_ret c → credit with
  | Lock => fun st => held (backends st)
  | Unlock st => fun _ k => - held (backends st) k
  | Count (OConfirm key) => fun r k => match r with Ok _ => of_key key k | Err _ => 0 end
  | Count (ORelease key) => fun _ k => - of_key key k
  | Write n => fun _ => slip n
  | _ => fun _ _ => 0
  end.

(** What it needs and what it gives. *)
Definition pre (c : Eff) : Prop :=
  match c with
  | Unlock st => mgr_ok st
  | Count (OReconcile lc) => map_Forall (fun _ n => 0 ≤ n ≤ registry_bound) lc
  | _ => True
  end.
Definition post (c : Eff) : eff_ret c → Prop :=
  match c return eff_ret c → Prop with
  | Lock => mgr_ok
  | Create i => fun r => match r with Ok inst => inst_backend_id inst = in_backend_id i | Err _ => True end
  | NewBackendId avoid => fun bid => bid ∉ avoid
  | AllEntries => fun r => match r with Ok es => Z.of_nat (length es) ≤ registry_bound | Err _ => True end
  | _ => fun _ => True
  end.

Fixpoint safe {T} (p : Prog T) (b : credit) (Q : T → credit → Prop) : Prop :=
  (∀ k, -1 ≤ b k) ∧
  match p with
  | Ret t => Q t b
  | Next c f => pre c ∧ ∀ x, post c x → safe (f x) (fun k => b k + gain c x k) Q
  end.

Lemma safe_mono {T} (p : Prog T) b b' (Q Q' : T → credit → Prop) :
  (∀ k, b k ≤ b' k) → (∀ t c c', (∀ k, c k ≤ c' k) → Q t c → Q' t c') → safe p b Q → safe p b' Q'.
Proof.
  revert b b'. induction p as [t|c f IH]; intros b b' Hb HQ [Hge Hs]; (split; [intros k; specialize (Hge k); specialize (Hb k); lia|]).
  - by eapply HQ.
  - destruct Hs as [Hpre Hs]. split; [done|]. intros x Hx. eapply (IH x); [|exact HQ|by apply Hs].
    intros k. simpl. specialize (Hb k). lia.
Qed.

Lemma safe_bind {A B} (p : Prog A) (f : A → Prog B) b Q :
  safe p b (fun a b' => safe (f a) b' Q) → safe (bind p f) b Q.
Proof.
  revert b. induction p as [t|c g IH]; intros b [Hge Hs]; [done|]. split; [done|].
  destruct Hs as [Hpre Hs]. split; [done|]. intros x Hx. apply IH. by apply Hs.
Qed.

(** The program runs from the credit [cin] to the credit [cout], on top of
    anything else the task has. *)
Definition spec {T} (p : Prog T) (cin : credit) (cout : T → credit) (P : T → Prop) : Prop :=
  ∀ b : credit, (∀ k, 0 ≤ b k) →
    safe p (fun k => b k + cin k) (fun t b' => P t ∧ ∀ k, b k + cout t k ≤ b' k).

Definition zero : credit := fun _ => 0.
Definition neutral {T} (p : Prog T) : Prop := spec p zero (fun _ => zero) (fun _ => True).

Lemma spec_ret {T} (t : T) cin cout (P : T → Prop) :
  (∀ k, -1 ≤ cin k) → (∀ k, cout t k ≤ cin k) → P t → spec (Ret t) cin cout P.
Proof.
  intros Hm Hc HP b Hb. split; [intros k; specialize (Hb k); specialize (Hm k); lia|].
  split; [done|]. intros k. specialize (Hc k). lia.
Qed.

Lemma spec_bind {A B} (p : Prog A) (f : A → Prog B) cin cmid cout (P : A → Prop) (R : B → Prop) :
  spec p cin cmid P → (∀ a, P a → spec (f a) (cmid a) cout R) → spec (bind p f) cin cout R.
Proof.
  intros Hp Hf b Hb. apply safe_bind. eapply safe_mono; [|  |by apply Hp]; [done|].
  intros a c c' Hc [HP Hle]. 
  assert (∀ k, 0 ≤ c' k - cmid a k) as Hfr by (intros k; specialize (Hc k); specialize (Hle k); specialize (Hb k); lia).
  eapply safe_mono; [| |by apply (Hf a HP (fun k => c' k - cmid a k))].
  - intros k. simpl. lia.
  - intros t d d' Hd [HR Hd2]. split; [done|]. intros k. specialize (Hd k). specialize (Hd2 k).
    specialize (Hc k). specialize (Hle k). lia.
Qed.

Lemma spec_next {T} c (f : eff_ret c → Prog T) cin cout (R : T → Prop) :
  pre c → (∀ k, -1 ≤ cin k) → (∀ x, post c x → spec (f x) (fun k => cin k + gain c x k) cout R) →
  spec (Next c f) cin cout R.
Proof.
  intros Hpre Hm Hf b Hb. split; [intros k; specialize (Hb k); specialize (Hm k); lia|]. split; [done|].
  intros x Hx. eapply safe_mono; [| |by apply (Hf x Hx b Hb)].
  - intros k. simpl. lia.
  - intros t d d' Hd [HR Hd2]. split; [done|]. intros k. specialize (Hd k). specialize (Hd2 k). lia.
Qed.

Lemma spec_weaken {T} (p : Prog T) cin cin' cout cout' (P P' : T → Prop) :
  (∀ k, cin k ≤ cin' k) → (∀ t, P t → P' t ∧ ∀ k, cout' t k ≤ cout t k) → spec p cin cout P → spec p cin' cout' P'.
Proof.
  intros Hi Ho Hp b Hb. eapply safe_mono; [| |by apply Hp].
  - intros k. specialize (Hi k). simpl. lia.
  - intros t d d' Hd [HR Hd2]. destruct (Ho t HR) as [? Hc]. split; [done|]. intros k.
    specialize (Hd k). specialize (Hd2 k). specialize (Hc k). lia.
Qed.

(** Credit that a program does not touch. *)
Lemma spec_frame {T} (p : Prog T) cin cout (P : T → Prop) (c : credit) :
  (∀ k, 0 ≤ c k) → spec p cin cout P → spec p (fun k => cin k + c k) (fun t k => cout t k + c k) P.
Proof.
  intros Hc Hp b Hb. assert (∀ k, 0 ≤ b k + c k) as Hbc by (intros k; specialize (Hb k); specialize (Hc k); lia).
  eapply safe_mono; [| |by apply (Hp (fun k => b k + c k))].
  - intros k. simpl. lia.
  - intros t d d' Hd [HR Hd2]. split; [done|]. intros k. specialize (Hd k). specialize (Hd2 k). lia.
Qed.

Lemma neutral_ret {T} (t : T) : neutral (Ret t).
Proof. apply spec_ret; [intros k; unfold zero; lia|done|done]. Qed.
Lemma neutral_bind {A B} (p : Prog A) (f : A → Prog B) : neutral p → (∀ a, neutral (f a)) → neutral (bind p f).
Proof. intros Hp Hf. eapply spec_bind; [exact Hp|]. intros a _. apply Hf. Qed.
(** An effect that moves no credit. *)
Definition idle (c : Eff) : Prop := pre c ∧ ∀ x k, gain c x k = 0.
Lemma spec_idle {T} c (f : eff_ret c → Prog T) cin cout (R : T → Prop) :
  idle c → (∀ k, -1 ≤ cin k) → (∀ x, post c x → spec (f x) cin cout R) → spec (Next c f) cin cout R.
Proof.
  intros [Hpre Hg] Hm Hf. apply spec_next; [done|done|]. intros x Hx.
  eapply spec_weaken; [|  |by apply (Hf x Hx)]; [intros k; by rewrite Hg, Z.add_0_r|done].
Qed.
Lemma neutral_next {T} c (f : eff_ret c → Prog T) : idle c → (∀ x, neutral (f x)) → neutral (Next c f).
Proof. intros Hc Hf. apply spec_idle; [done|intros k; unfold zero; lia|]. intros x _. apply Hf. Qed.

(** A section under the lock. *)
Lemma neutral_lock {T} (f : BackendManagerState → Prog T) :
  (∀ st, mgr_ok st → spec (f st) (held (backends st)) (fun _ => zero) (fun _ => True)) → neutral (Next Lock f).
Proof.
  intros Hf. apply spec_next; [done|intros k; unfold zero; lia|]. intros st Hst.
  eapply spec_weaken; [|  |by apply (Hf st Hst)]; [intros k; unfold zero; simpl; lia|done].
Qed.
Lemma spec_unlock_same {T} st cout (R : T → Prop) (p : Prog T) :
  mgr_ok st → spec p zero cout R → spec (Next (Unlock st) (fun _ => p)) (held (backends st)) cout R.
Proof.
  intros Hst Hp. apply spec_next; [done|intros k; pose proof (held_nonneg (backends st) k); lia|]. intros [] _.
  eapply spec_weaken; [|  |exact Hp]; [intros k; unfold zero; simpl; lia|done].
Qed.
End Counting.
