(* ===== verification/BackendSpecs.v ===== *)
(** * Every operation of the backend manager keeps the books

    Each operation keeps the tables of its process consistent, and returns with
    at least the credit it started with: every sandbox it takes out of a table it
    releases or notes, every sandbox it puts in it confirms or notes. *)

From S2P Require Import LocalPolicy.
From S2P Require Import Prelude RStr Message SandboxCounter BackendRegistry SessionLease SessionStore.
From S2P Require Import Runtimes Free BackendData BackendManager BackendRuns BackendFacts.

Section Specs.
Context `{Machine, KeyHash, RegistryBound} (pid : str) (os_pid : Z) (limits : BackendManagerLimits) (max : Z).

Lemma neutral_call {T} c (f : eff_ret c → Prog T) : idle c → (∀ x, neutral (f x)) → neutral (bind (call c) f).
Proof. apply neutral_next. Qed.
Lemma neutral_bind_ok {A B E} (p : Prog (result A E)) (f : A → Prog (result B E)) :
  neutral p → (∀ a, neutral (f a)) → neutral (bind_ok p f).
Proof. intros Hp Hf. apply neutral_bind; [done|]. intros [a|e]; [apply Hf|apply neutral_ret]. Qed.
Lemma neutral_map_error {A E F} (g : E → F) (p : Prog (result A E)) : neutral p → neutral (map_error g p).
Proof. intros Hp. apply neutral_bind; [done|]. intros a. apply neutral_ret. Qed.
(** More credit does no harm. *)
Lemma richer {T} (p : Prog T) cin : (∀ k, 0 ≤ cin k) → neutral p → spec p cin (fun _ => zero) (fun _ => True).
Proof. intros Hc Hp. by eapply spec_weaken; [exact Hc| |exact Hp]. Qed.
(** A program run with a credit it does not need. *)
Lemma framed {T} (p : Prog T) c cm (P : T → Prop) :
  (∀ k, 0 ≤ c k) → spec p zero (fun _ => cm) P → spec p c (fun _ k => cm k + c k) P.
Proof.
  intros Hc Hp. eapply spec_weaken; [| |apply (spec_frame _ _ _ _ c Hc Hp)]; [intros k; unfold zero; lia|].
  intros t Ht. split; [exact Ht|]. intros k. lia.
Qed.
Lemma neutral_eff c : idle c → neutral (call c).
Proof. intros Hc. apply neutral_next; [done|]. intros x. apply neutral_ret. Qed.

Ltac idle_eff := split; [exact I|intros; reflexivity].
Ltac neutral_step :=
  match goal with
          | |- neutral (Ret _) => apply neutral_ret
          | |- neutral (bind_ok _ _) => apply neutral_bind_ok; [|intros ?]
          | |- neutral (bind (call Lock) _) => apply neutral_lock; intros ? ?
          | |- neutral (bind (call ?c) _) => apply neutral_call; [idle_eff|intros ?]
          | |- neutral (bind _ _) => apply neutral_bind; [|intros ?]
          | |- neutral (map_error _ _) => apply neutral_map_error
          | |- neutral (call _) => apply neutral_eff; idle_eff
          | |- neutral (Next ?c _) => apply neutral_next; [idle_eff|intros ?]
          | |- neutral (match ?x with _ => _ end) => destruct x
          | |- spec (Next (Unlock ?st) _) (held (backends ?st)) _ _ => apply spec_unlock_same; [assumption|]
          | |- spec (match ?x with _ => _ end) _ _ _ => destruct x eqn:?
          | |- spec ?p zero (fun _ => zero) (fun _ => True) => change (neutral p)
  end.
Ltac neutral := repeat neutral_step.

(** An effect under the lock. *)
Lemma held_idle {T} c (f : eff_ret c → Prog T) st cout (R : T → Prop) :
  idle c → (∀ x, post c x → spec (f x) (held (backends st)) cout R) → spec (Next c f) (held (backends st)) cout R.
Proof. intros Hc Hf. apply spec_idle; [done| |done]. intros k. pose proof (held_nonneg (backends st) k). lia. Qed.
(** A neutral program under the lock. *)
Lemma held_neutral {A T} (p : Prog A) (f : A → Prog T) st cout (R : T → Prop) :
  neutral p → (∀ a, spec (f a) (held (backends st)) cout R) → spec (bind p f) (held (backends st)) cout R.
Proof.
  intros Hp Hf. apply (spec_bind _ _ _ (fun _ => held (backends st)) _ (fun _ => True)).
  - eapply spec_weaken; [| |apply (spec_frame _ _ _ _ (held (backends st)) (held_nonneg _) Hp)].
    + intros k. unfold zero. lia.
    + intros a _. split; [exact I|]. intros k. unfold zero. lia.
  - intros a _. apply Hf.
Qed.

Lemma checkpoint_source_neutral r : neutral (checkpoint_source r).
Proof.
  unfold checkpoint_source. neutral. apply held_idle; [idle_eff|]. intros x _. neutral.
Qed.

Lemma checkpoint_backend_neutral r : neutral (checkpoint_backend r).
Proof.
  unfold checkpoint_backend. apply neutral_bind_ok; [apply checkpoint_source_neutral|]. intros [[bid e] good]. neutral.
  apply held_idle; [idle_eff|]. intros ? _. neutral.
Qed.

Lemma delete_snapshot_neutral c : neutral (delete_checkpoint_snapshot c).
Proof.
  unfold delete_checkpoint_snapshot. neutral. apply held_idle; [idle_eff|]. intros ? _. neutral.
Qed.

Lemma requested_backend_id_neutral bid : neutral (requested_backend_id bid).
Proof. unfold requested_backend_id. neutral. Qed.

Lemma reserve_for_checkout_neutral child sid key : neutral (reserve_for_checkout child sid key).
Proof.
  unfold reserve_for_checkout. neutral. apply held_idle; [idle_eff|]. intros ? _. neutral.
Qed.

Lemma lease_bound_session_neutral sid : neutral (lease_bound_session sid).
Proof. unfold lease_bound_session. neutral. Qed.

Lemma list_backends_neutral wanted : neutral (list_backends wanted).
Proof. unfold list_backends. neutral. Qed.

Lemma report_neutral sid st : neutral (report_session_status sid st).
Proof. unfold report_session_status. apply neutral_bind; [apply lease_bound_session_neutral|]. intros []; neutral. Qed.

Lemma create_checkpoint_neutral bid : neutral (create_checkpoint_for_eviction limits bid).
Proof.
  unfold create_checkpoint_for_eviction. destruct (checkpoint_before_eviction limits); [|neutral].
  apply neutral_bind; [apply checkpoint_backend_neutral|]. intros []; neutral.
Qed.

Lemma clear_mark_neutral mark : neutral (clear_mark mark).
Proof. unfold clear_mark, clear_pending_eviction. neutral. Qed.

Lemma cancel_if_neutral c key : neutral (cancel_if c key).
Proof. unfold cancel_if. neutral. Qed.

Lemma assert_status_neutral c bid sid st : neutral (assert_status c bid sid st).
Proof. unfold assert_status. neutral. Qed.

(** ** Sandboxes that go *)

Lemma of_key_range key k : 0 ≤ of_key key k ≤ 1.
Proof. unfold of_key. case_decide; lia. Qed.

Lemma cost_of_key e k :
  is_counted_kind (kind (config e)) = true → cost e k = of_key (sandbox_key_from_config (config e)) k.
Proof.
  intros Hk. unfold cost, counted_as, of_key. rewrite Hk. simpl. case_bool_decide; case_decide; congruence.
Qed.

Lemma finalize_spec e : spec (finalize_removal e) (cost e) (fun _ => zero) (fun _ => True).
Proof.
  unfold finalize_removal. pose proof (cost_range e) as Hc. destruct (is_counted_kind _) eqn:Hk.
  - apply spec_next; [exact I|intros k; specialize (Hc k); lia|]. intros x _.
    apply richer; [|neutral]. intros k. rewrite cost_of_key by done. simpl. lia.
  - apply richer; [intros k; by apply Hc|neutral].
Qed.

(** The table without an entry is put back, and the entry is finished. *)
Lemma unlock_removed {T} st st' e (p : Prog T) :
  mgr_ok st' → (∀ k, held (backends st') k = held (backends st) k - cost e k) →
  spec p (cost e) (fun _ => zero) (fun _ => True) →
  spec (Next (Unlock st') (fun _ => p)) (held (backends st)) (fun _ => zero) (fun _ => True).
Proof.
  intros Hok Hh Hp. apply spec_next; [done|intros k; pose proof (held_nonneg (backends st) k); lia|]. intros [] _.
  eapply spec_weaken; [| |exact Hp]; [intros k; simpl; rewrite Hh; lia|done].
Qed.

Lemma evict_neutral bid : neutral (evict_backend_by_id bid).
Proof.
  unfold evict_backend_by_id. apply neutral_lock. intros st Hst. simpl. destruct (remove_backend bid st) as [[e st']|] eqn:E.
  - apply (unlock_removed st st' e); [by eapply remove_backend_ok|intros k; by eapply held_remove|].
    eapply spec_bind; [apply finalize_spec|]. intros r _. apply neutral_ret.
  - neutral.
Qed.

Lemma release_session_neutral sid : neutral (release_session sid).
Proof.
  unfold release_session. apply neutral_lock. intros st Hst. simpl.
  pose proof (unbind_session_ok sid st Hst) as Hok. pose proof (held_unbind sid st) as Hh.
  destruct (unbind_session sid st) as [[e|] st']; simpl in Hok.
  - apply (unlock_removed st st' e); [done|exact Hh|apply finalize_spec].
  - apply spec_next; [done|intros k; pose proof (held_nonneg (backends st) k); lia|]. intros [] _.
    apply richer; [intros k; simpl; rewrite Hh; lia|neutral].
Qed.

Lemma finalize_all_spec es :
  spec (finalize_all es) (fun k => foldr (fun e n => cost e k + n) 0 es) (fun _ => zero) (fun _ => True).
Proof.
  assert (∀ es k, 0 ≤ foldr (fun e n => cost e k + n) 0 es) as Hge.
  { intros es0 k. induction es0 as [|e es0 IH]; simpl; [lia|]. pose proof (cost_range e k). lia. }
  induction es as [|e es IH]; simpl; [apply neutral_ret|].
  eapply (spec_bind _ _ _ (fun _ k => foldr (fun e n => cost e k + n) 0 es) _ (fun _ => True)).
  - eapply spec_weaken; [| |apply (spec_frame _ _ _ _ (fun k => foldr (fun e n => cost e k + n) 0 es) (Hge es) (finalize_spec e))];
      [intros k; simpl; lia|]. intros r _. split; [done|]. intros k. unfold zero. lia.
  - intros [[]|err] _; [exact IH|]. apply spec_ret; [|intros k; unfold zero; apply Hge|done].
    intros k. pose proof (Hge es k). lia.
Qed.

Lemma shutdown_neutral : neutral shutdown_all.
Proof.
  unfold shutdown_all. apply neutral_lock. intros st Hst. simpl.
  apply spec_next; [apply empty_mgr_ok|intros k; pose proof (held_nonneg (backends st) k); lia|]. intros [] _.
  eapply spec_weaken; [| |apply (finalize_all_spec (map_to_list (backends st)).*2)]; [|done].
  intros k. simpl. rewrite held_none, held_list. lia.
Qed.

Lemma reclaim_neutral e opts : neutral (reclaim_orphaned_backend e opts).
Proof.
  unfold neutral, reclaim_orphaned_backend. apply spec_next; [exact I|intros k; unfold zero; lia|]. intros [] _.
  apply spec_next; [exact I|intros k; pose proof (of_key_range (sandbox_key e) k); unfold zero; simpl; lia|]. intros x _.
  apply richer; [intros k; unfold zero; simpl; lia|neutral].
Qed.

(** ** Sandboxes that come *)

Lemma confirm_spec key : spec (confirm key) (fun k => - of_key key k) (fun _ => zero) (fun _ => True).
Proof.
  pose proof (of_key_range key) as Hr. apply spec_next; [exact I|intros k; specialize (Hr k); lia|]. intros [[]|err] _; simpl.
  - apply spec_ret; [intros k; lia|intros k; unfold zero; lia|done].
  - apply spec_next; [exact I|intros k; specialize (Hr k); lia|]. intros [] _.
    apply spec_ret; [intros k; simpl; lia|intros k; unfold zero; simpl; lia|done].
Qed.

(** A confirmation that comes before the insertion. *)
Lemma confirm_ahead key : spec (confirm key) zero (fun _ => of_key key) (fun _ => True).
Proof.
  pose proof (of_key_range key) as Hr.
  eapply spec_weaken; [| |apply (spec_frame _ _ _ _ (of_key key) (fun k => proj1 (Hr k)) (confirm_spec key))].
  - intros k. simpl. unfold zero. lia.
  - intros t _. split; [done|]. intros k. unfold zero. lia.
Qed.

(** A confirmation under one key of a sandbox stored under another. *)
Lemma confirm_other key c : (∀ k, -1 ≤ c k) → spec (confirm key) c (fun _ => c) (fun _ => True).
Proof.
  intros Hc. pose proof (of_key_range key) as Hr. apply spec_next; [exact I|done|]. intros [[]|err] _; simpl.
  - apply spec_ret; [|  |done]; intros k; specialize (Hc k); specialize (Hr k); lia.
  - apply spec_next; [exact I|intros k; specialize (Hc k); lia|]. intros [] _.
    apply spec_ret; [|  |done]; intros k; simpl; specialize (Hc k); specialize (Hr k); lia.
Qed.
Lemma confirm_stored {T} key stored (p : () → Prog T) :
  (neutral (p ())) →
  spec (let& _ := confirm key in let& _ := note_rekeyed key stored in p ())
    (fun k => - of_key stored k) (fun _ => zero) (fun _ => True).
Proof.
  intros Hp. pose proof (of_key_range stored) as Hr. unfold note_rekeyed. destruct (decide (key = stored)) as [->|Hne].
  - eapply spec_bind; [apply confirm_spec|]. intros [] _. exact Hp.
  - eapply spec_bind; [apply confirm_other; intros k; specialize (Hr k); lia|]. intros [] _.
    apply spec_next; [exact I|intros k; specialize (Hr k); lia|]. intros [] _.
    eapply spec_weaken; [| |exact Hp]; [intros k; unfold zero; simpl; lia|done].
Qed.

(** What [build_backend] builds. *)
Definition built_as (i : CreateInput) (sid : option str) (lin : BackendLineageEntry) (e : BackendInstanceEntry) : Prop :=
  inst_backend_id (instance e) = in_backend_id i ∧ config e = in_config i ∧
  session_ids e = list_to_set (as_list sid) ∧ lineage e = lin.

Lemma build_spec i hash sid exp lin c :
  spec (build_backend i hash sid exp lin c) zero (fun _ => zero)
    (fun r => match r with Ok e => built_as i sid lin e | Err _ => True end).
Proof.
  apply spec_idle; [idle_eff|intros k; unfold zero; lia|]. intros [inst|err] Hx; simpl in *.
  - apply spec_idle; [idle_eff|intros k; unfold zero; lia|]. intros [] _.
    apply spec_ret; [intros k; unfold zero; lia|done|]. done.
  - apply spec_ret; [intros k; unfold zero; lia|done|done].
Qed.

Lemma insert_child_spec r child e :
  inst_backend_id (instance e) = child → config e = stored_config_of r →
  session_ids e = list_to_set (as_list (co_session_id r)) →
  parent_backend_id (lineage e) = source_backend_id (co_checkpoint r) → children_backend_ids (lineage e) = ∅ →
  spec (insert_child r child e) zero
    (fun res k => match res with Ok _ => - of_key (sandbox_key_from_config (stored_config_of r)) k | Err _ => 0 end)
    (fun _ => True).
Proof.
  intros Hid Hcfg Hsid Hpar Hch. apply spec_next; [exact I|intros k; unfold zero; lia|]. intros st Hst. simpl in Hst.
  match goal with |- spec _ _ ?o _ => apply (spec_weaken _ (held (backends st)) _ o _ (fun _ => True)) end;
    [intros k; unfold zero; simpl; lia|done|].
  case_bool_decide as Hex.
  { apply spec_unlock_same; [done|]. apply spec_ret; [intros k; unfold zero; lia|done|done]. }
  destruct (is_bound st (co_session_id r)) as [[s b]|] eqn:Eb.
  { apply spec_unlock_same; [done|]. apply spec_ret; [intros k; unfold zero; lia|done|done]. }
  apply eq_None_not_Some in Hex.
  apply spec_next; [|intros k; pose proof (held_nonneg (backends st) k); lia|].
  - simpl. by apply insert_checkout_child_ok.
  - intros [] _. apply spec_ret; [|  |done]; intros k; cbn [gain]; rewrite held_checkout_child by done;
      rewrite cost_of_key by (by rewrite Hcfg); rewrite Hcfg;
      pose proof (of_key_range (sandbox_key_from_config (stored_config_of r)) k); lia.
Qed.

Lemma checkout_neutral r : neutral (checkout_backend pid os_pid r).
Proof.
  unfold checkout_backend. destruct (provider_snapshot_id (co_checkpoint r)) as [snapshot|] eqn:Es; [|neutral].
  destruct (negb _); [neutral|]. apply neutral_bind_ok; [apply requested_backend_id_neutral|]. intros child.
  apply neutral_call; [idle_eff|]. intros now. cbv zeta.
  apply neutral_bind_ok; [apply reserve_for_checkout_neutral|]. intros _.
  apply neutral_call; [idle_eff|]. intros forked_at.
  unfold neutral. eapply spec_bind; [apply build_spec|]. intros [e|err] He; [|neutral].
  destruct He as (Hid & Hcfg & Hsid & Hlin). simpl in Hid.
  set (e' := set_config _ _ e).
  eapply spec_bind; [apply (insert_child_spec r child e'); simpl; rewrite ?Hlin; done|].
  intros [[]|err] _; [|apply richer; [done|neutral]].
  apply (confirm_stored _ _ (fun _ => _)). neutral.
Qed.

(** ** Eviction and creation *)

Lemma evict_first_neutral opts es : neutral (evict_first pid os_pid limits opts es).
Proof.
  induction es as [|e es IH]; [apply neutral_ret|]. cbn [evict_first]. apply neutral_call; [idle_eff|]. intros now.
  destruct (negb _); [exact IH|]. case_bool_decide.
  - apply neutral_bind; [apply create_checkpoint_neutral|]. intros c.
    apply neutral_bind; [apply evict_neutral|]. intros [[]|[]]; try (exact IH); neutral.
  - apply neutral_call; [idle_eff|]. intros now'. destruct (is_owner_stale _ _ _).
    + apply neutral_bind; [apply reclaim_neutral|]. intros []. neutral.
    + neutral.
Qed.

Lemma try_evict_neutral key opts : neutral (try_evict_if_needed pid os_pid limits max key opts).
Proof.
  unfold try_evict_if_needed. apply neutral_bind_ok; [neutral|]. intros total. destruct (_ <? _); [neutral|].
  apply neutral_bind_ok; [neutral|]. intros entries. cbv zeta. destruct (existsb _ _); [neutral|apply evict_first_neutral].
Qed.

Lemma reserve_rounds_neutral n key opts mark : neutral (reserve_rounds pid os_pid limits max n key opts mark).
Proof.
  revert mark. induction n as [|n IH]; intros mark; cbn [reserve_rounds].
  - apply neutral_bind; [apply clear_mark_neutral|]. intros []. neutral.
  - apply neutral_call; [idle_eff|]. intros [[]|[]]; try (neutral; fail).
    apply neutral_bind; [apply try_evict_neutral|]. intros [[bid|]|[]]; try (neutral; fail).
    + apply neutral_next; [idle_eff|]. intros _. apply IH.
    + apply neutral_bind; [apply clear_mark_neutral|]. intros []. apply IH.
    + apply neutral_next; [idle_eff|]. intros _. apply IH.
Qed.

Lemma existing_backend_neutral r root hash c : neutral (existing_backend r root hash c).
Proof.
  unfold existing_backend. apply neutral_lock. intros st Hst. cbn [bind call]. cbv zeta.
  match goal with |- spec (match ?x with _ => _ end) _ _ _ => destruct x as [[bid e]|] end.
  - apply held_neutral; [apply assert_status_neutral|]. intros []. neutral.
  - neutral.
Qed.

Lemma create_for_session_spec r root c st :
  mgr_ok st → session_index st !! ensure_session_id r = None →
  spec (create_for_session pid os_pid r root c st) (held (backends st)) (fun _ => zero) (fun _ => True).
Proof.
  intros Hst Hs. unfold create_for_session. cbv zeta. apply held_idle; [idle_eff|]. intros bid Hbid. simpl in Hbid.
  eapply spec_bind; [apply (framed _ (held (backends st))); [apply held_nonneg|apply build_spec]|].
  intros r0 He. apply (spec_weaken _ (held (backends st)) _ (fun _ => zero) _ (fun _ => True)); [intros k; unfold zero; lia|done|].
  destruct r0 as [e|err]; [|apply held_neutral; [apply cancel_if_neutral|]; intros []; neutral].
  destruct He as (Hid & Hcfg & Hsid & Hlin). simpl in Hid, Hcfg, Hsid.
  set (st' := {| backends := _ |}).
  assert (backends st !! bid = None) as Hnew by (by apply not_elem_of_dom).
  assert (mgr_ok st') as Hst'.
  { apply insert_session_ok; try done. rewrite Hsid. set_solver. }
  assert (∀ k, held (backends st') k = held (backends st) k + cost e k) as Hh.
  { intros k. by apply held_insert_new. }
  destruct (is_counted_kind (kind c)) eqn:Ek.
  - eapply spec_bind; [apply (framed _ (held (backends st))); [apply held_nonneg|apply confirm_ahead]|]. intros [] _.
    apply (spec_weaken _ (held (backends st')) _ (fun _ => zero) _ (fun _ => True));
      [intros k; rewrite Hh, cost_of_key by (by rewrite Hcfg); rewrite Hcfg; lia|done|].
    apply held_idle; [idle_eff|]. intros now _. apply held_idle; [idle_eff|]. intros x _. neutral.
  - apply (spec_weaken _ (held (backends st')) _ (fun _ => zero) _ (fun _ => True)); [|done|by apply spec_unlock_same; [|apply neutral_ret]].
    intros k. rewrite Hh. unfold cost, counted_as. rewrite Hcfg, Ek. simpl. lia.
Qed.

Lemma ensure_neutral r : neutral (ensure_session_backend pid os_pid limits max r).
Proof.
  unfold ensure_session_backend. destruct (resolve_session_backend_config (ensure_config r)) as [c|e],
    (workspace_root_string (ensure_workspace_root r)) as [root|e']; try (neutral; fail).
  cbv zeta. apply neutral_bind; [apply existing_backend_neutral|]. intros [inst|]; [neutral|].
  apply neutral_bind_ok.
  { destruct (is_counted_kind _); [|neutral]. apply neutral_map_error, reserve_rounds_neutral. }
  intros _. apply neutral_lock. intros st Hst. cbn [bind call].
  destruct (session_index st !! ensure_session_id r) as [bid|] eqn:Es; [|by apply create_for_session_spec].
  destruct (backends st !! bid) as [e|] eqn:Eb.
  - apply held_neutral; [apply cancel_if_neutral|]. intros []. destruct (_ || _); [neutral|].
    apply held_neutral; [apply assert_status_neutral|]. intros []. neutral.
  - apply spec_unlock_same; [done|]. apply neutral_bind; [apply cancel_if_neutral|]. intros []. neutral.
Qed.

Lemma evict_marked_neutral es : neutral (evict_marked limits es).
Proof.
  induction es as [|e es IH]; [apply neutral_ret|]. cbn [evict_marked]. destruct (negb _); [exact IH|].
  apply neutral_call; [idle_eff|]. intros now. destruct (negb _).
  - apply neutral_next; [idle_eff|]. intros _. exact IH.
  - apply neutral_bind; [apply create_checkpoint_neutral|]. intros c.
    apply neutral_bind_ok; [apply evict_neutral|]. intros []. apply neutral_next; [idle_eff|]. intros _. exact IH.
Qed.

Lemma check_and_evict_neutral : neutral (check_and_evict_marked_backends limits).
Proof.
  unfold check_and_evict_marked_backends. apply neutral_bind_ok; [neutral|]. intros []. apply neutral_bind_ok; [neutral|].
  intros es. apply evict_marked_neutral.
Qed.

Lemma wake_ups_neutral ws : neutral (handle_wake_ups limits ws).
Proof.
  induction ws as [|[] ws IH]; cbn [handle_wake_ups]; [apply neutral_ret| |].
  - neutral; exact IH.
  - apply neutral_bind; [apply check_and_evict_neutral|]. intros _. exact IH.
Qed.

(** ** Reconciliation *)

Lemma live_counts_range es : map_Forall (fun _ n => 0 ≤ n ≤ Z.of_nat (length es)) (live_counts es).
Proof.
  unfold live_counts. induction es as [|e es IH] using rev_ind; [apply map_Forall_empty|].
  rewrite foldl_app, length_app. cbn [foldl length]. apply map_Forall_insert_2.
  - destruct (_ !! _) as [n|] eqn:E; simpl; [apply IH in E; simpl in E|]; lia.
  - eapply map_Forall_impl; [exact IH|]. simpl. lia.
Qed.

Lemma reconcile_neutral : neutral reconcile_counts_with_registry.
Proof.
  unfold reconcile_counts_with_registry, map_error, bind_ok, call. cbn [bind].
  apply spec_idle; [idle_eff|intros k; unfold zero; lia|]. intros [es|err] Hx; cbn [bind Result.map_err]; [|apply neutral_ret].
  apply spec_next; [|intros k; unfold zero; lia|].
  - eapply map_Forall_impl; [apply live_counts_range|]. simpl in *. intros _ n. lia.
  - intros r _. apply spec_ret; [| |done]; intros k; unfold zero; simpl; lia.
Qed.

Lemma signal_handler_neutral ws : neutral (start_signal_handler limits ws).
Proof. apply neutral_bind; [apply reconcile_neutral|]. intros _. apply wake_ups_neutral. Qed.

Lemma checkout_rounds_neutral n ctx sid r mark :
  neutral (checkout_rounds pid os_pid limits max n ctx sid r mark).
Proof.
  revert mark. induction n as [|n IH]; intros mark; cbn [checkout_rounds]; cbv zeta.
  - apply neutral_bind; [apply clear_mark_neutral|]. intros []. neutral.
  - apply neutral_bind; [apply checkout_neutral|]. intros [i|[]]; try (neutral; fail).
    + apply neutral_map_error, lease_bound_session_neutral.
    + apply neutral_bind; [apply try_evict_neutral|]. intros [[bid|]|[]]; try (neutral; fail).
      * apply neutral_next; [idle_eff|]. intros _. apply IH.
      * apply neutral_bind; [apply clear_mark_neutral|]. intros []. apply IH.
      * apply neutral_next; [idle_eff|]. intros _. apply IH.
Qed.
End Specs.
