(* ===== verification/BackendSafety.v ===== *)
(** * What holds of processes that share sandboxes

    Every run keeps the tables consistent and the counter ahead of the sandboxes;
    and concrete runs in which the books or the sandboxes go wrong. *)

From S2P Require Import LocalPolicy.
From S2P Require Import Prelude RStr Message SandboxCounter BackendRegistry SessionLease SessionStore.
From S2P Require Import Runtimes Free BackendData BackendManager BackendRuns BackendFacts BackendSpecs.

Section Safety.
Context `{Machine, KeyHash} (os_pid : str → Z) (limits : BackendManagerLimits) (max : Z).
Abbreviation fire := (BackendRuns.fire os_pid limits max).
Abbreviation fires := (BackendRuns.fires os_pid limits max).

(** ** The books *)

(** The sandboxes in the tables, the live sandboxes the counter knows, and the
    slips of the history: confirmations that failed, orphans that were reclaimed,
    sandboxes stored under another key than they were counted under, and what
    reconciliations have taken off the counts. *)
Definition total (w : World) (k : str) : Z := map_fold (fun _ st n => held (backends st) k + n) 0 (managers w).
Definition live_of (w : World) (k : str) : Z := SandboxCounter.live (abs_disk (counter w) k).
Definition slips (w : World) (k : str) : Z := foldr (fun n m => slip n k + m) 0 (notes w).
Definition surplus (w : World) (k : str) : Z := live_of w k + slips w k - total w k.

Lemma total_insert w pid st k :
  map_fold (fun _ st n => held (backends st) k + n) 0 (<[pid := st]> (managers w)) =
  held (backends st) k + map_fold (fun _ st n => held (backends st) k + n) 0 (delete pid (managers w)).
Proof.
  rewrite <- insert_delete_eq. apply (map_fold_insert_L (fun _ st n => held (backends st) k + n));
    [intros; lia|apply lookup_delete_eq].
Qed.

Lemma total_delete w pid st k : managers w !! pid = Some st →
  total w k = held (backends st) k + map_fold (fun _ st n => held (backends st) k + n) 0 (delete pid (managers w)).
Proof. intros Hst. unfold total. rewrite <- (insert_id _ _ _ Hst) at 1. apply total_insert. Qed.

Lemma total_delete_le w pid k :
  map_fold (fun _ st n => held (backends st) k + n) 0 (delete pid (managers w)) ≤ total w k.
Proof.
  destruct (managers w !! pid) as [st|] eqn:E.
  - rewrite (total_delete _ _ _ _ E). pose proof (held_nonneg (backends st) k). lia.
  - by rewrite delete_id.
Qed.

(** A bound on the registry, and so on what a reconciliation writes. *)
Section Bounded.
Context (B : Z) (HB : 0 ≤ B).
#[local] Instance bounded : RegistryBound := B.

Definition entries (f : registry_disk) : Z := Z.of_nat (size (default ∅ f)).

Record world_ok (n : Z) (w : World) : Prop := {
  wo_disk : disk_inv max (counter w);
  wo_within : within B n (counter w);
  wo_registry : entries (registry w) ≤ n;
  wo_tables p st : managers w !! p = Some st → mgr_ok st;
}.

Lemma within_mono n f : within B n f → within B (n + 1) f.
Proof. intros Hw k. destruct (Hw k). lia. Qed.

Lemma slips_note n w k : slips (add_note n w) k = slips w k + slip n k.
Proof.
  unfold slips. simpl. rewrite foldr_app. simpl.
  induction (notes w) as [|m l IH]; simpl; [lia|]. rewrite IH. lia.
Qed.

(** *** The registry *)

Lemma insert_size (d : gmap str BackendRegistryEntry) b x : (size (<[b := x]> d) ≤ size d + 1)%nat.
Proof. rewrite map_size_insert. destruct (d !! b); simpl; lia. Qed.
Lemma delete_size (d : gmap str BackendRegistryEntry) b : (size (delete b d) ≤ size d + 1)%nat.
Proof. rewrite map_size_delete. destruct (d !! b); simpl; lia. Qed.
Lemma fmap_size (d : gmap str BackendRegistryEntry) (g : BackendRegistryEntry → BackendRegistryEntry) :
  (size (g <$> d) ≤ size d + 1)%nat.
Proof. rewrite map_size_fmap. lia. Qed.

Lemma with_registry_size {T : Type} e f (body : BackendRegistryData → T * option BackendRegistryData) :
  (∀ d, match (body d).2 with Some d' => (size d' ≤ size d + 1)%nat | None => True end) →
  entries (with_registry e f body).2 ≤ entries f + 1.
Proof.
  intros Hb. unfold with_registry, entries. specialize (Hb (default ∅ f)).
  destruct (reg_lock_error e); [simpl; lia|]. destruct (body (default ∅ f)) as [x [d|]]; simpl in Hb.
  all: destruct f as [d0|], (reg_load_error e); try destruct (reg_save_error e); simpl in *; lia.
Qed.
Lemma update_entry_size e f bid g : entries (update_entry e f bid g).2 ≤ entries f + 1.
Proof.
  apply with_registry_size. intros d. simpl. destruct (d !! bid) as [x|]; [|done]. apply insert_size.
Qed.

Lemma all_entries_length e f es : (get_all_entries e f).1 = Ok es → Z.of_nat (length es) = entries f.
Proof.
  unfold get_all_entries, with_registry, entries. set (d := default ∅ f).
  assert (Z.of_nat (length (map_to_list d).*2) = Z.of_nat (size d)) as <- by (rewrite length_fmap; exact (f_equal Z.of_nat (length_map_to_list d))).
  generalize (map_to_list d).*2. intros l.
  destruct (reg_lock_error e); [done|]. destruct f, (reg_load_error e); simpl; by intros [= <-].
Qed.

Lemma registry_ok n w r :
  world_ok n w → entries r ≤ entries (registry w) + 1 → world_ok (n + 1) (set_registry r w).
Proof. intros [] Hr. constructor; simpl; [done|by apply within_mono|lia|done]. Qed.

(** *** The counter *)

Lemma exec_live n e f o :
  disk_inv max f → within B n f → 0 ≤ n → B + 2 * n < Word.usize_max → (∀ lc, o ≠ OReconcile lc) →
  ∀ k, SandboxCounter.live (abs_disk (exec max e f o).2 k) =
       if Result.is_ok (exec max e f o).1 then SandboxCounter.live (pool_op max (now_ms e) o k (expire (now_ms e) (abs_disk f k)))
       else SandboxCounter.live (abs_disk f k).
Proof using HB.
  intros Hi Hw Hn Hlt Ho k.
  assert (roomy f) as Hr by (intros k0; destruct (Hw k0); unfold outstanding; lia).
  assert (op_ok o) as Hok by (destruct o; try done; by edestruct Ho).
  destruct (exec_effect max e f o Hi Hr Hok) as (_ & Hyes & Hno).
  destruct (Result.is_ok (exec max e f o).1).
  - destruct (Hyes eq_refl) as [_ Hk]. specialize (Hk k). by apply (f_equal SandboxCounter.live) in Hk.
  - specialize (Hno eq_refl k). by apply (f_equal SandboxCounter.live) in Hno.
Qed.

(** An effect of the counter. *)
Lemma count_gain n pid e w o r w' :
  world_ok n w → 0 ≤ n → B + 2 * n < Word.usize_max → pre (Count o) →
  perform max pid e (Count o) w = Some (r, w') →
  world_ok (n + 1) w' ∧ ∀ k, surplus w k + gain (Count o) r k ≤ surplus w' k.
Proof using HB.
  intros [Hd Hw Hg Ht] Hn Hlt Hpre. unfold perform.
  destruct (exec_step max B n (sys_counter e) (counter w) o Hd Hw) as [Hd' Hw']; [lia|lia|lia|by destruct o|].
  destruct o as [key|key|key|key|lc].
  5:{ destruct (exec _ _ _ _) as [r0 f']. intros [= <- <-]. split; [by constructor; simpl in *; [| |lia|]|].
      intros k. unfold surplus. rewrite slips_note. unfold live_of, total. simpl. unfold slips. simpl. lia. }
  all: match goal with |- context [exec _ _ _ ?o] =>
         pose proof (exec_live n (sys_counter e) (counter w) o Hd Hw Hn Hlt ltac:(done)) as Hl end.
  all: rewrite (surjective_pairing (exec _ _ _ _)); intros [= <- <-];
       (split; [by constructor; simpl in *; [| |lia|]|]); intros k; specialize (Hl k);
       unfold surplus, live_of, slips, total; cbn [counter notes managers set_counter id]; unfold exec in *;
       rewrite Hl; clear Hl;
       match goal with |- context [gain _ ?r _] => generalize r end; simpl; intros r0;
       unfold of_key; destruct r0; simpl; repeat case_decide; simpl; try lia; destruct (admits _ _); simpl; lia.
Qed.

Lemma total_count_gain n e w key r w' :
  world_ok n w → on_counter (get_total_count e (counter w) key) w = Some (r, w') →
  world_ok (n + 1) w' ∧ ∀ k, surplus w k ≤ surplus w' k.
Proof.
  intros [Hd Hw Hg Ht] [= <- <-].
  assert (∃ f', (get_total_count e (counter w) key).2 = f' ∧ disk_inv max f' ∧ within B n f' ∧
    ∀ k, SandboxCounter.live (abs_disk f' k) = SandboxCounter.live (abs_disk (counter w) k)) as (f' & -> & Hd' & Hw' & Hl).
  { unfold get_total_count, with_data. destruct (acquire_lock e); [|by eauto].
    destruct (load_data e (counter w)) as [[d|err] f1] eqn:E; cbn [snd].
    - exists f1. destruct (load_data_inv max _ _ _ _ E Hd) as [_ Hi1]. split; [done|]. split; [done|]. split.
      + intros k. destruct (loaded_abs _ _ _ _ k E) as (_ & -> & Hle). destruct (Hw k). lia.
      + intros k. by destruct (loaded_abs _ _ _ _ k E) as (_ & -> & _).
    - exists f1. unfold load_data in E. destruct (counter w) as [d0|]; [|done].
      destruct (load_error e); [by injection E as <- <-|]. by destruct (gc_stale_pending _ _). }
  split; [constructor; simpl; [done|by apply within_mono|lia|done]|].
  intros k. unfold surplus, live_of, slips, total. cbn [counter notes managers set_counter]. rewrite Hl. lia.
Qed.

(** Effects on the registry move nothing else. *)
Lemma registry_gain {T : Type} n w (res : T * registry_disk) x w' :
  world_ok n w → entries res.2 ≤ entries (registry w) + 1 → on_registry res w = Some (x, w') →
  world_ok (n + 1) w' ∧ ∀ k, surplus w k + 0 ≤ surplus w' k.
Proof. intros Hw He [= <- <-]. split; [by apply registry_ok|]. intros k. unfold surplus, live_of, slips, total. simpl. lia. Qed.

Lemma perform_gain n pid e c w x w' :
  world_ok n w → 0 ≤ n ≤ B → B + 2 * n < Word.usize_max → pre c → perform max pid e c w = Some (x, w') →
  world_ok (n + 1) w' ∧ post c x ∧ ∀ k, surplus w k + gain c x k ≤ surplus w' k.
Proof using HB.
  intros Hok Hn Hlt Hpre. pose proof Hok as [Hd Hw Hg Ht].
  assert (∀ w1, counter w1 = counter w → managers w1 = managers w → notes w1 = notes w → registry w1 = registry w →
    world_ok (n + 1) w1 ∧ ∀ k, surplus w k + 0 ≤ surplus w1 k) as Hsame.
  { intros w1 E1 E2 E3 E4. split.
    - constructor; rewrite ?E1, ?E2, ?E4; [done|by apply within_mono|lia|done].
    - intros k. unfold surplus, live_of, slips, total. rewrite E1, E2, E3. lia. }
  assert (∀ (T : Type) (res : T * registry_disk) y w1, entries res.2 ≤ entries (registry w) + 1 →
    on_registry res w = Some (y, w1) → world_ok (n + 1) w1 ∧ ∀ k, surplus w k + 0 ≤ surplus w1 k) as Hreg
    by (intros T res y w1 He; by apply registry_gain).
  destruct c; simpl;
    try (intros [= <- <-];
         match goal with |- world_ok _ ?w1 ∧ _ => destruct (Hsame w1 eq_refl eq_refl eq_refl eq_refl) end; by split_and!);
    try (intros E; apply Hreg in E as [? ?]; [by split_and!|]; first
      [ apply update_entry_size
      | apply with_registry_size; intros d; simpl; repeat case_match; simplify_eq; try done;
        first [apply insert_size|apply delete_size|apply fmap_size] ]).
  - destruct (managers w !! pid) as [st|] eqn:Est; [|done]. intros [= <- <-]. split_and!.
    + constructor; simpl; [done|by apply within_mono|lia|]. intros p st' [_ Hp]%lookup_delete_Some. by eapply Ht.
    + by eapply Ht.
    + intros k. unfold surplus. rewrite (total_delete _ _ _ _ Est). unfold live_of, slips, total. simpl. lia.
  - intros [= <- <-]. split_and!; [|done|].
    + constructor; simpl; [done|by apply within_mono|lia|].
      intros p st' [[<- <-]|[_ Hp]]%lookup_insert_Some; [done|by eapply Ht].
    + intros k. unfold surplus, live_of, slips. unfold total at 2. simpl. rewrite total_insert.
      pose proof (total_delete_le w pid k). lia.
  - intros Hp. destruct (count_gain n pid e w o x w' Hok ltac:(lia) Hlt Hpre Hp) as [? Hc]. by split_and!.
  - intros Hp. destruct (total_count_gain n _ w key x w' Hok Hp) as [? Hc]. split_and!; [done|done|].
    intros k. rewrite Z.add_0_r. apply Hc.
  - intros Hp. pose proof Hp as [= <- _]. apply Hreg in Hp as [? ?]; [split_and!; [done| |done]|by apply with_registry_size].
    destruct (get_all_entries _ _).1 as [es|] eqn:E; [|done]. apply all_entries_length in E. unfold registry_bound, bounded. lia.
  - intros [= <- <-]. destruct (Hsame w eq_refl eq_refl eq_refl eq_refl) as [? ?]. split_and!; [done| |done].
    by destruct (sys_created e).
  - cbv zeta. case_decide; [done|]. intros [= <- <-]. destruct (Hsame w eq_refl eq_refl eq_refl eq_refl) as [? ?].
    by split_and!.
  - intros [= <- <-]. split_and!; [|done|].
    + constructor; [done|by apply within_mono|simpl; lia|done].
    + intros k. unfold surplus. rewrite slips_note. unfold live_of, total. simpl. lia.
Qed.

(** ** Tasks *)

Definition credits (bs : list (str → Z)) (k : str) : Z := foldr (fun b m => b k + m) 0 bs.

Record sys_ok (n : Z) (s : Sys) (bs : list (str → Z)) : Prop := {
  so_world : world_ok n (world s);
  so_tasks : Forall2 (fun t b => safe t.2 b (fun _ b' => ∀ k, 0 ≤ b' k)) (tasks s) bs;
  so_credit k : credits bs k ≤ surplus (world s) k;
}.

Lemma program_neutral pid c : neutral (program os_pid limits max pid c).
Proof.
  destruct c; [.. | apply signal_handler_neutral | apply wake_ups_neutral |];
    (apply neutral_bind; [|intros ?; apply neutral_ret]).
  - apply ensure_neutral.
  - apply checkout_neutral.
  - apply checkout_rounds_neutral.
  - apply checkpoint_backend_neutral.
  - apply delete_snapshot_neutral.
  - apply lease_bound_session_neutral.
  - apply release_session_neutral.
  - apply report_neutral.
  - apply list_backends_neutral.
  - apply shutdown_neutral.
Qed.

Lemma credits_insert bs i b b' k : bs !! i = Some b → credits (<[i := b']> bs) k = credits bs k - b k + b' k.
Proof.
  revert i. induction bs as [|x bs IH]; intros [|i] Hi; simpl in *; [done|done| |].
  - injection Hi as ->. lia.
  - change (x k + credits (<[i := b']> bs) k = x k + credits bs k - b k + b' k). rewrite (IH i Hi). lia.
Qed.

Lemma credits_snoc bs b k : credits (bs ++ [b]) k = credits bs k + b k.
Proof. induction bs as [|x bs IH]; [simpl; lia|].
  change (x k + credits (bs ++ [b]) k = x k + credits bs k + b k). rewrite IH. lia. Qed.

Lemma sys_fire_ok n s l s' bs :
  sys_ok n s bs → 0 ≤ n ≤ B → B + 2 * n < Word.usize_max → fire s l = Some s' → ∃ bs', sys_ok (n + 1) s' bs'.
Proof using HB.
  intros [Hw Ht Hc] Hn Hlt. destruct l as [pid c|i e|pid bid u ok]; simpl.
  - intros [= <-]. exists (bs ++ [zero]). constructor; simpl.
    + destruct Hw. constructor; [done|by apply within_mono|lia|done].
    + apply Forall2_app; [done|]. constructor; [|constructor]. simpl.
      eapply safe_mono; [| |apply (program_neutral pid c zero); unfold zero; lia]; [intros k; unfold zero; lia|].
      intros t b b' Hb [_ Hz] k. specialize (Hb k). specialize (Hz k). unfold zero in Hz. lia.
    + intros k. rewrite credits_snoc. unfold zero. specialize (Hc k). lia.
  - destruct (tasks s !! i) as [[pid [t|c f]]|] eqn:Ei; [done| |done].
    destruct (perform max pid e c (world s)) as [[x w]|] eqn:Ep; [|done]. intros [= <-].
    destruct (Forall2_lookup_l _ _ _ _ _ Ht Ei) as (b & Hb & Hsafe). simpl in Hsafe. destruct Hsafe as (_ & Hpre & Hs).
    destruct (perform_gain n pid e c (world s) x w Hw Hn Hlt Hpre Ep) as (Hw' & Hpost & Hg).
    exists (<[i := fun k => b k + gain c x k]> bs). constructor; simpl; [done| |].
    + apply Forall2_insert; [done|]. simpl. by apply Hs.
    + intros k. rewrite (credits_insert _ _ _ _ _ Hb). specialize (Hc k). specialize (Hg k). lia.
  - destruct (marks_dirty u ok); intros [= <-]; exists bs;
      (constructor; [|done|done]); destruct Hw; (constructor; [done|by apply within_mono|simpl; lia|done]).
Qed.

Lemma sys_fires_ok ls : ∀ n s s' bs,
  sys_ok n s bs → 0 ≤ n → n + Z.of_nat (length ls) ≤ B → B + 2 * (n + Z.of_nat (length ls)) < Word.usize_max →
  fires s ls = Some s' →
  ∃ bs', sys_ok (n + Z.of_nat (length ls)) s' bs'.
Proof using HB.
  induction ls as [|l ls IH]; intros n s s' bs Hs Hn Hle Hlt; simpl.
  - intros [= <-]. exists bs. by rewrite Z.add_0_r.
  - destruct (fire s l) as [s1|] eqn:E; [|done]. intros Hf. cbn [length] in Hlt, Hle.
    destruct (sys_fire_ok n s l s1 bs Hs ltac:(lia) ltac:(lia) E) as (bs1 & Hs1).
    destruct (IH (n + 1) s1 s' bs1 Hs1) as (bs' & ?); [lia|lia|lia|done|]. exists bs'.
    by replace (n + Z.of_nat (S (length ls))) with (n + 1 + Z.of_nat (length ls)) by lia.
Qed.

Lemma no_tables (l : list str) k :
  map_fold (fun _ st n => held (backends st) k + n) 0
    (list_to_map ((fun p => (p, {| backends := ∅; session_index := ∅ |})) <$> l) : gmap str BackendManagerState) = 0.
Proof.
  set (m := list_to_map _).
  assert (∀ p st, m !! p = Some st → backends st = ∅) as Hm.
  { intros p st Hp. apply elem_of_list_to_map_2, list_elem_of_fmap in Hp as (? & [= _ ->] & _). done. }
  clearbody m. clear l. induction m as [|p st m Hp IH] using map_ind; [apply map_fold_empty|].
  rewrite (map_fold_insert_L (fun _ st n => held (backends st) k + n)) by (done || intros; lia).
  rewrite (Hm p st), held_none by apply lookup_insert_eq. apply IH. intros p' st' Hp'.
  apply (Hm p'). rewrite lookup_insert_ne; [done|]. congruence.
Qed.

Lemma boot_ok pids : sys_ok 0 (boot pids) [].
Proof.
  constructor; simpl; [constructor; simpl| |].
  - intros k. unfold key_inv, count_of, ghosts_of. simpl. rewrite !lookup_empty. simpl. lia.
  - intros k. unfold abs_disk, abs, count_of, ghosts_of, pending_of. simpl. rewrite !lookup_empty. simpl. lia.
  - by vm_compute.
  - intros p st Hp. apply elem_of_list_to_map_2, list_elem_of_fmap in Hp as (? & [= _ ->] & _). apply empty_mgr_ok.
  - constructor.
  - intros k. unfold credits, surplus, live_of, slips, total. simpl.
    rewrite no_tables. unfold abs_disk, abs, count_of, ghosts_of. simpl. rewrite !lookup_empty. simpl. lia.
Qed.

(** The tasks that have not returned. *)
Definition running_task (t : str * Prog ()) : bool := match t.2 with Ret _ => false | Next _ _ => true end.
Definition unfinished (s : Sys) : list (str * Prog ()) := filter (fun t => running_task t = true) (tasks s).


End Bounded.

(** ** The theorems *)

(** What holds at the end of a run; a registry never has more entries than there
    were steps. *)
Lemma backend_run_ok pids ls s :
  fires (boot pids) ls = Some s → 3 * Z.of_nat (length ls) < Word.usize_max →
  ∃ bs, sys_ok (Z.of_nat (length ls)) (Z.of_nat (length ls)) s bs.
Proof.
  intros Hf Hlt. set (n := Z.of_nat (length ls)) in *.
  refine (sys_fires_ok n _ ls 0 (boot pids) s [] (boot_ok n _ pids) _ _ _ Hf); lia.
Qed.

(** C6: in every run of any number of processes and tasks of every kind, the
    reconciliation at the start of a process among them, in any interleaving and
    with any failures of files and of the provider, every table that no task has
    locked is consistent: a session is in the index exactly with the backend that
    lists it, so no session is bound to a backend that is gone, the children a
    backend lists exist and were forked from it, and an entry is stored under the
    id it is registered with. The run has fewer than a third of [usize::MAX] steps,
    so that no count wraps. *)
Theorem tables_consistent pids ls s p st :
  fires (boot pids) ls = Some s → 3 * Z.of_nat (length ls) < Word.usize_max →
  managers (world s) !! p = Some st →
  (∀ sid b, session_index st !! sid = Some b ↔ ∃ e, backends st !! b = Some e ∧ sid ∈ session_ids e) ∧
  (∀ b e c, backends st !! b = Some e → c ∈ children_backend_ids (lineage e) →
     ∃ ec, backends st !! c = Some ec ∧ parent_backend_id (lineage ec) = Some b) ∧
  (∀ b e, backends st !! b = Some e → inst_backend_id (instance e) = b).
Proof.
  intros Hf Hlt Hst. destruct (backend_run_ok pids ls s Hf Hlt) as (bs & [Hw _ _]).
  destruct (wo_tables _ _ _ Hw p st Hst) as [I S C D]. split; [|split; [exact C|exact D]].
  intros sid b. split; [apply I|]. intros (e & He & Hin). by eapply S.
Qed.

End Safety.

(** ** Concrete processes *)

Module BackendDemo.

#[local] Instance machine : Machine :=
  {| env_var := fun _ => None; json_to_string := fun _ => []; hash_strings := fun a _ => Z.of_nat (length a);
     home_dir := None; temp_dir := lit "/tmp" |}.
#[local] Instance keys : KeyHash := {| hash_key_identifier := fun s => s |}.

Definition e2b (key : string) : GatewayBackendConfig :=
  {| kind := lit "e2b"; options := JObject [(lit "api_key", JString (lit key))] |}.
Definition want_as (status sid : string) : Call :=
  CEnsure {| ensure_config := Some (e2b "k"); ensure_workspace_root := Utf8Path (lit "/w"); ensure_session_id := lit sid;
             ensure_status := Some (lit status, 0) |}.
Definition want : string → Call := want_as "running".
(** Everything succeeds at time [now], and the next uuid is [u]. *)
Definition at_ (now : Z) (u : string) : SysEnv :=
  {| sys_counter := ok_env now; sys_registry := ok_renv now; sys_now := now; sys_uuid := lit u;
     sys_created := Ok (lit u); sys_deleted := Ok (); sys_snapshot := Ok (lit u, []);
     sys_snapshot_deleted := Ok true; sys_sandbox_deleted := Ok () |}.
Definition steps (i n : nat) (now : Z) (u : string) : list Label := replicate n (Step i (at_ now u)).
Definition no_checkpoints : BackendManagerLimits :=
  {| checkpoint_before_eviction := false; max_eviction_attempts := 5; max_active_sandboxes_per_key := None |}.
Definition pid_of (p : str) : Z := match p with [c] => Z.of_N c | _ => 0 end.
Definition go (pids : list string) (max : Z) (ls : list Label) : option Sys :=
  fires pid_of no_checkpoints max (boot (lit <$> pids)) ls.
(** The backend of a session in a process, the live sandboxes the counter knows, the
    backends the registry lists, and whether every task is done. *)
Definition bound (s : Sys) (p sid : string) : option str :=
  managers (world s) !! lit p ≫= fun st => session_index st !! lit sid.
Definition counted (s : Sys) (k : string) : Z := live_of (world s) (lit "e2b:" ++ lit k).
Definition listed (s : Sys) (b : string) : bool :=
  match registry (world s) with Some d => bool_decide (is_Some (d !! lit b)) | None => false end.
Definition all_done (s : Sys) : bool := bool_decide (unfinished s = []).

Lemma some_default {A} (d : A) (o : option A) : bool_decide (is_Some o) = true → o = Some (default d o).
Proof. by destruct o. Qed.
(** A run is evaluated for what is asked of its end, not to print its end. *)
Ltac by_run :=
  lazymatch goal with
  | |- go _ _ _ = _ => refine (some_default _ _ _); by vm_compute
  | |- fires _ _ _ _ _ = _ => refine (some_default _ _ _); by vm_compute
  | |- _ => by vm_compute
  end.

(** Process [a] gets a sandbox for session [s1]; a session of [b] has to wait. *)
Definition one : list Label := Start (lit "a") (want_as "idle" "s1") :: steps 0 11 1 "1".
Definition two : list Label := one ++ Start (lit "b") (want "s2") :: steps 1 5 2 "2".
Definition two_end : Sys := default (boot []) (go ["a"; "b"] 1 two).

Lemma tables_consistent_witness :
  go ["a"; "b"] 1 two = Some two_end ∧ bound two_end "a" "s1" = Some (lit "bkd_1") ∧
  ∃ st, managers (world two_end) !! lit "a" = Some st ∧
    (∀ b e c, backends st !! b = Some e → c ∈ children_backend_ids (lineage e) →
       ∃ ec, backends st !! c = Some ec ∧ parent_backend_id (lineage ec) = Some b).
Proof.
  split; [by_run|]. split; [by_run|].
  exists (default {| backends := ∅; session_index := ∅ |} (managers (world two_end) !! lit "a")).
  split; [by_run|].
  apply (tables_consistent pid_of no_checkpoints 1 (lit <$> ["a"; "b"]) two two_end (lit "a"));
    [by_run|by_run|by_run].
Defined.


(** *** Orphans reclaimed twice *)

(** The owner [a] is dead; [b] and [c] both read that it is, then both reclaim its
    sandbox. The second release takes the count of the sandbox [b] has made
    meanwhile, so with a limit of one both get a sandbox. *)
Definition late : Z := STALE_OWNER_THRESHOLD_MS + 10.
Definition reclaim_race : list Label :=
  one ++ [Start (lit "b") (want "s2"); Start (lit "c") (want "s3")] ++
  steps 1 5 late "2" ++ steps 2 5 late "3" ++ steps 1 15 late "2" ++ steps 2 15 late "3".

Theorem orphan_reclaimed_twice :
  ∃ s, go ["a"; "b"; "c"] 1 reclaim_race = Some s ∧ all_done s = true ∧ counted s "k" = 1 ∧
    bound s "b" "s2" = Some (lit "bkd_2") ∧ bound s "c" "s3" = Some (lit "bkd_3") ∧
    listed s "bkd_2" = true ∧ listed s "bkd_3" = true.
Proof. exists (default (boot []) (go ["a"; "b"; "c"] 1 reclaim_race)); split_and!; by_run. Qed.

(** *** A reconciliation that forgets a sandbox *)

(** [b] starts: it reads the registry, [a] makes a sandbox, [b] overwrites the
    counts with what it has read. *)
Definition reconcile_race : list Label :=
  [Start (lit "b") (CSignalHandler []); Start (lit "a") (want "s1")] ++ steps 0 1 1 "1" ++ steps 1 11 1 "1" ++
  steps 0 1 1 "1" ++ Start (lit "a") (want "s2") :: steps 2 11 2 "2".

Theorem reconcile_forgets_sandbox :
  ∃ s, go ["a"; "b"] 1 reconcile_race = Some s ∧ all_done s = true ∧ counted s "k" = 1 ∧
    bound s "a" "s1" = Some (lit "bkd_1") ∧ bound s "a" "s2" = Some (lit "bkd_2").
Proof. exists (default (boot []) (go ["a"; "b"] 1 reconcile_race)); split_and!; by_run. Qed.

(** *** An eviction of a running session *)

(** [a] needs a sandbox for [s2], reads that [s1] is idle; [s1] starts to run and
    says so; its sandbox is evicted all the same. *)
Definition running_evicted : list Label :=
  one ++ [Start (lit "a") (want "s2"); Start (lit "a") (CReport (lit "s1") SRunning)] ++
  steps 1 5 2 "2" ++ steps 2 3 3 "3".
Definition reported (s : Sys) (b sid : string) : option str :=
  registry (world s) ≫= fun d => d !! lit b ≫= fun e => snap_status <$> session_statuses e !! lit sid.

Theorem running_session_evicted :
  ∃ s s', go ["a"] 1 running_evicted = Some s ∧ reported s "bkd_1" "s1" = Some (lit "running") ∧
    go ["a"] 1 (running_evicted ++ steps 1 16 4 "2") = Some s' ∧ all_done s' = true ∧
    bound s' "a" "s1" = None ∧ bound s' "a" "s2" = Some (lit "bkd_2").
Proof.
  exists (default (boot []) (go ["a"] 1 running_evicted)),
    (default (boot []) (go ["a"] 1 (running_evicted ++ steps 1 16 4 "2"))).
  split_and!; by_run.
Qed.

(** *** A change that no checkpoint has *)

(** The sandbox is changed after its snapshot is taken and before the checkpoint is
    stored: the tracker is clean, and the next checkpoint is the old one. *)
Definition save : Call :=
  CCheckpoint {| cp_backend_id := None; cp_session_id := Some (lit "s1"); cp_request_name := None;
                 cp_request_metadata := JNull |}.
Definition change_lost : list Label :=
  one ++ Start (lit "a") save :: steps 1 6 2 "2" ++ Used (lit "a") (lit "bkd_1") UWriteBytes true :: steps 1 3 2 "2".
Definition tracker_of (s : Sys) (p b : string) : option BackendDirtyState := trackers (world s) !! (lit p, lit b).

Theorem change_not_checkpointed :
  ∃ s, go ["a"] 1 change_lost = Some s ∧ all_done s = true ∧
    dirty <$> tracker_of s "a" "bkd_1" = Some false ∧
    (tracker_of s "a" "bkd_1" ≫= tracked_checkpoint) ≫= provider_snapshot_id = Some (lit "2").
Proof. exists (default (boot []) (go ["a"] 1 change_lost)); split_and!; by_run. Qed.

(** A command that has run and whose answer was lost is not heard of: the tracker
    keeps the checkpoint from before it. *)
Definition lost_answer : list Label :=
  one ++ Start (lit "a") save :: steps 1 9 2 "2" ++ [Used (lit "a") (lit "bkd_1") UExec false].

Theorem failed_command_not_marked :
  ∃ s, go ["a"] 1 lost_answer = Some s ∧ all_done s = true ∧
    dirty <$> tracker_of s "a" "bkd_1" = Some false ∧
    (tracker_of s "a" "bkd_1" ≫= tracked_checkpoint) ≫= provider_snapshot_id = Some (lit "2").
Proof. exists (default (boot []) (go ["a"] 1 lost_answer)); split_and!; by_run. Qed.

(** *** A checkout with another key *)

(** The checkout of a checkpoint with an overriding key is reserved and confirmed
    under the new key, and released under the old one. *)
Definition saved : BackendCheckpointRef :=
  {| ref_checkpoint_id := lit "bcp_0"; ref_provider := lit "e2b"; source_backend_id := None;
     provider_snapshot_id := Some (lit "snap"); provider_snapshot_names := [];
     ref_workspace_root := lit "/w"; ref_name := None; ref_metadata := JNull; ref_created_at_ms := 0;
     provider_options := options (e2b "k") |}.
Definition fork (opts : option Json) : Call :=
  CCheckoutSession runtime_checkout_context (lit "s1") saved JNull opts None.
Definition other_key : list Label :=
  Start (lit "a") (fork (Some (options (e2b "k2")))) :: steps 0 16 1 "1" ++
  Start (lit "a") (CRelease (lit "s1")) :: steps 1 5 2 "2".

Theorem overridden_key_leaks :
  ∃ s, go ["a"] 1 other_key = Some s ∧ all_done s = true ∧ bound s "a" "s1" = None ∧
    listed s "bkd_1" = false ∧ total (world s) (lit "e2b:k2") = 0 ∧ counted s "k2" = 1.
Proof. exists (default (boot []) (go ["a"] 1 other_key)); split_and!; by_run. Qed.

(** *** A checkout of a template by another name *)

(** A configuration may name its template [template]; a checkout adds [template_id]
    to the options, which the parser then refuses, whatever the snapshot. *)
Definition with_template : Json :=
  JObject [(lit "api_key", JString (lit "k")); (lit "template", JString (lit "base"))].

Theorem template_alias_not_forkable snapshot :
  resolve_api_key_from_options with_template = Some (lit "k") ∧
  parse_options (forked_provider_options with_template None snapshot) = None.
Proof. split; by vm_compute. Qed.

(** *** A shutdown that stops half way *)

Definition failing : SysEnv :=
  {| sys_counter := {| now_ms := 3; lock_error := Some (lit "busy"); load_error := None; gc_save_error := None;
                       save_error := None |};
     sys_registry := ok_renv 3; sys_now := 3; sys_uuid := []; sys_created := Ok []; sys_deleted := Err (lit "timeout");
     sys_snapshot := Ok ([], []); sys_snapshot_deleted := Ok true; sys_sandbox_deleted := Ok () |}.
(** One sandbox cannot be deleted: the table is empty, and the other sandbox is
    neither deleted nor given back. *)
Definition half_shutdown : list Label :=
  one ++ Start (lit "a") (want "s2") :: steps 1 11 1 "2" ++ Start (lit "a") CShutdown :: steps 2 4 3 "3" ++
  [Step 2 failing].

Theorem shutdown_stops_early :
  ∃ s, go ["a"] 2 half_shutdown = Some s ∧ all_done s = true ∧ bound s "a" "s1" = None ∧
    bound s "a" "s2" = None ∧ total (world s) (lit "e2b:k") = 0 ∧ counted s "k" = 1 ∧ listed s "bkd_1" = true.
Proof. exists (default (boot []) (go ["a"] 2 half_shutdown)); split_and!; by_run. Qed.

(** *** A mark that stays *)

(** [b] marks the sandbox of [a], and gives up when the counter cannot be locked:
    the mark is still there, and keeps everyone else from marking. *)
Definition mark_stays : list Label :=
  one ++ Start (lit "b") (want "s2") :: steps 1 10 2 "2" ++ [Step 1 failing].
Definition marked (s : Sys) (b : string) : option bool :=
  registry (world s) ≫= fun d => pending_eviction <$> d !! lit b.

Theorem error_leaves_mark :
  ∃ s, go ["a"; "b"] 1 mark_stays = Some s ∧ all_done s = true ∧ marked s "bkd_1" = Some true.
Proof. exists (default (boot []) (go ["a"; "b"] 1 mark_stays)); split_and!; by_run. Qed.
End BackendDemo.
