(* ===== verification/RateGate.v ===== *)
(** * Admission gate of the LLM client

    [crates/llm-client/src/rate_limit.rs]: before a request leaves for an
    endpoint it needs a permit of the endpoint's semaphore, and then a token of
    the endpoint's bucket, which refills continuously. The endpoints are told
    apart by address and key and shared by every provider of the process.

    The bucket is kept in [f64] and is computed with here as in the source, in
    binary64; times are nanoseconds of the monotonic clock. The tasks that await
    the gate interleave freely: [fire] is one step of one of them, of the
    configuration or of the clock. *)

From S2P Require Import Prelude RStr F64 F64Round DurationF64.

(** ** Settings *)

Definition DEFAULT_MAX_CONCURRENT : Z := 8.
Definition DEFAULT_REQUESTS_PER_MINUTE : Z := 40.

Record RateLimitSettings := mkSettings { max_concurrent : Z; requests_per_minute : Z }.
#[global] Instance settings_eq_dec : EqDecision RateLimitSettings.
Proof. solve_decision. Defined.

Definition default_settings : RateLimitSettings :=
  mkSettings DEFAULT_MAX_CONCURRENT DEFAULT_REQUESTS_PER_MINUTE.

Definition settings_enabled (s : RateLimitSettings) : bool :=
  (0 <? max_concurrent s) && (0 <? requests_per_minute s).

(** The section [llm.rate_limit] of a configuration file, where each of the
    fields may be missing. *)
Record RateLimitSection := mkSection {
  section_max_concurrent : option Z;
  section_requests_per_minute : option Z
}.
Definition settings_of_section (c : RateLimitSection) : RateLimitSettings :=
  mkSettings (default (max_concurrent default_settings) (section_max_concurrent c))
    (default (requests_per_minute default_settings) (section_requests_per_minute c)).

Record GlobalState := mkGlobal { settings : RateLimitSettings; explicit : bool }.
Definition initial_global : GlobalState := mkGlobal default_settings false.
Definition apply_global_settings (s : RateLimitSettings) (_ : GlobalState) : GlobalState :=
  mkGlobal s true.
Definition global_settings (g : GlobalState) : RateLimitSettings := settings g.

(** ** The bucket *)

Record TokenBucket := mkBucket {
  tokens : f64;
  capacity : f64;
  refill_per_sec : f64;
  last_refill : Z
}.

Definition bucket_new (capacity : Z) (refill_per_sec : f64) (now : Z) : TokenBucket :=
  mkBucket (F64.of_usize capacity) (F64.of_usize capacity) refill_per_sec now.

(** What [try_acquire] returns: a token, how long to wait, or the panic of
    [Duration::from_secs_f64]. *)
Inductive attempt := Taken | Wait (d : Z) | Panics.

(** [now.duration_since(earlier)] saturates at zero. *)
Definition duration_since (now earlier : Z) : Z := Z.max 0 (now - earlier).

Definition refill (b : TokenBucket) (now : Z) : TokenBucket :=
  let elapsed := Duration.as_secs_f64 (duration_since now (last_refill b)) in
  if F64.lt F64.zero elapsed then
    mkBucket (F64.min (F64.add (tokens b) (F64.mul elapsed (refill_per_sec b))) (capacity b))
      (capacity b) (refill_per_sec b) now
  else b.

Definition try_acquire (b0 : TokenBucket) (now : Z) : TokenBucket * attempt :=
  let b := refill b0 now in
  if F64.le F64.one (tokens b) then
    (mkBucket (F64.sub (tokens b) F64.one) (capacity b) (refill_per_sec b) (last_refill b), Taken)
  else
    let deficit := F64.sub F64.one (tokens b) in
    (b, match Duration.from_secs_f64 (F64.div deficit (refill_per_sec b)) with
        | Some d => Wait d
        | None => Panics
        end).

(** ** The limiter of one endpoint and the registry *)

Record EndpointLimiter := mkLimiter {
  semaphore : Z;  (* the permits that are free *)
  bucket : TokenBucket;
  endpoint_label : str
}.

Definition limiter_new (s : RateLimitSettings) (label : str) (now : Z) : EndpointLimiter :=
  mkLimiter (max_concurrent s)
    (bucket_new (max_concurrent s)
       (F64.div (F64.of_usize (requests_per_minute s)) (F64.of_usize 60)) now)
    label.

Abbreviation EndpointKey := (str * option str)%type.

Inductive Provider := Raw | Gated (k : EndpointKey).

(** An empty key is no key. *)
Definition endpoint_key (api_base : str) (api_key : option str) : EndpointKey :=
  (api_base, k ← api_key; let k := trim k in if decide (k = []) then None else Some k).

Definition gate_provider (g : GlobalState) (registry : gmap EndpointKey EndpointLimiter)
    (api_base : str) (api_key : option str) (local_endpoint : bool) (now : Z) :
    gmap EndpointKey EndpointLimiter * Provider :=
  if negb (settings_enabled (settings g)) || (local_endpoint && negb (explicit g)) then (registry, Raw)
  else
    let key := endpoint_key api_base api_key in
    (match registry !! key with
     | Some _ => registry
     | None => <[key := limiter_new (settings g) api_base now]> registry
     end, Gated key).

(** ** Calls *)

(** Where a call of [complete] or [complete_stream] is: it awaits its permit, it
    holds a permit and tries for a token at a time, or the request is out. *)
Inductive CallPhase := Queued | Trying (until : Z) | InFlight.

Record Call := mkCall { call_key : EndpointKey; phase : CallPhase }.

Record World := mkWorld {
  clock : Z;
  global : GlobalState;
  registry : gmap EndpointKey EndpointLimiter;
  providers : list Provider;
  calls : gmap nat Call;
  sent : list (EndpointKey * Z)  (* the requests that went through the gate, newest first *)
}.

Definition boot : World := mkWorld 0 initial_global ∅ [] ∅ [].

(** The last nanosecond of an [Instant]. *)
Definition last_instant : Z := 2 ^ 63 * Duration.nanos_per_sec - 1.

Inductive Event :=
| Configure (s : RateLimitSettings)
| Build (api_base : str) (api_key : option str) (local_endpoint : bool)
| Begin (id : nat) (provider : nat)
| Permit (id : nat)
| Attempt (id : nat)
| Finish (id : nat)
| Cancel (id : nat)
| Advance (d : Z).

Definition set_semaphore (f : Z → Z) (l : EndpointLimiter) : EndpointLimiter :=
  mkLimiter (f (semaphore l)) (bucket l) (endpoint_label l).
Definition set_bucket (b : TokenBucket) (l : EndpointLimiter) : EndpointLimiter :=
  mkLimiter (semaphore l) b (endpoint_label l).

Definition with_limiter (w : World) (k : EndpointKey) (l : EndpointLimiter) : World :=
  mkWorld (clock w) (global w) (<[k := l]> (registry w)) (providers w) (calls w) (sent w).
Definition with_calls (w : World) (c : gmap nat Call) : World :=
  mkWorld (clock w) (global w) (registry w) (providers w) c (sent w).
Definition with_sent (w : World) (s : list (EndpointKey * Z)) : World :=
  mkWorld (clock w) (global w) (registry w) (providers w) (calls w) s.

Definition holds_permit (p : CallPhase) : bool :=
  match p with Queued => false | _ => true end.

(** The future of a call is dropped, with the permit it holds. *)
Definition drop_call (w : World) (id : nat) (c : Call) : option World :=
  let w' := with_calls w (delete id (calls w)) in
  if holds_permit (phase c) then
    l ← registry w !! call_key c;
    Some (with_limiter w' (call_key c) (set_semaphore Z.succ l))
  else Some w'.

(** One round of the loop of [acquire]. When it takes a token the request is
    sent: nothing is awaited in between. *)
Definition attempt_call (w : World) (id : nat) (c : Call) : option World :=
  l ← registry w !! call_key c;
  let '(b, r) := try_acquire (bucket l) (clock w) in
  let w' := with_limiter w (call_key c) (set_bucket b l) in
  match r with
  | Taken =>
      Some (with_sent (with_calls w' (<[id := mkCall (call_key c) InFlight]> (calls w)))
              ((call_key c, clock w) :: sent w))
  | Wait d => Some (with_calls w' (<[id := mkCall (call_key c) (Trying (clock w + d))]> (calls w)))
  | Panics => None
  end.

Definition fire (w : World) (ev : Event) : option World :=
  match ev with
  | Configure s =>
      Some (mkWorld (clock w) (apply_global_settings s (global w)) (registry w) (providers w)
              (calls w) (sent w))
  | Build base key local =>
      let '(r, p) := gate_provider (global w) (registry w) base key local (clock w) in
      Some (mkWorld (clock w) (global w) r (providers w ++ [p]) (calls w) (sent w))
  | Begin id n =>
      match calls w !! id, providers w !! n with
      | None, Some (Gated k) => Some (with_calls w (<[id := mkCall k Queued]> (calls w)))
      | None, Some Raw => Some w
      | _, _ => None
      end
  | Permit id =>
      c ← calls w !! id;
      l ← registry w !! call_key c;
      match phase c with
      | Queued =>
          if 0 <? semaphore l then
            Some (with_calls (with_limiter w (call_key c) (set_semaphore Z.pred l))
                    (<[id := mkCall (call_key c) (Trying (clock w))]> (calls w)))
          else None
      | _ => None
      end
  | Attempt id =>
      c ← calls w !! id;
      match phase c with
      | Trying until => if until <=? clock w then attempt_call w id c else None
      | _ => None
      end
  | Finish id =>
      c ← calls w !! id;
      match phase c with InFlight => drop_call w id c | _ => None end
  | Cancel id => c ← calls w !! id; drop_call w id c
  | Advance d =>
      if (0 <=? d) && (clock w + d <=? last_instant) then
        Some (mkWorld (clock w + d) (global w) (registry w) (providers w) (calls w) (sent w))
      else None
  end.

Fixpoint fires (w : World) (evs : list Event) : option World :=
  match evs with
  | [] => Some w
  | ev :: evs' => w' ← fire w ev; fires w' evs'
  end.

(** The settings that were in force in a run. *)
Definition in_force (evs : list Event) : list RateLimitSettings :=
  default_settings :: omap (fun ev => match ev with Configure s => Some s | _ => None end) evs.

(** The requests of an endpoint sent in a minute that begins at [t]. *)
Definition minute : Z := 60 * Duration.nanos_per_sec.
Definition in_window (k : EndpointKey) (t : Z) (e : EndpointKey * Z) : bool :=
  bool_decide (e.1 = k) && (t <=? e.2) && (e.2 <=? t + minute).
Definition sent_within (k : EndpointKey) (t : Z) (log : list (EndpointKey * Z)) : Z :=
  Z.of_nat (length (filter (fun e => in_window k t e = true) log)).

(** The calls of an endpoint in the phases that satisfy [P]. *)
Definition calls_in (P : CallPhase → bool) (k : EndpointKey) (m : gmap nat Call) : Z :=
  Z.of_nat (size (filter (fun e : nat * Call =>
    bool_decide (call_key e.2 = k) && P (phase e.2) = true) m)).
Definition in_flight (p : CallPhase) : bool := match p with InFlight => true | _ => false end.
