(* ===== verification/RateBucket.v ===== *)
(** * The token bucket in binary64

    How far the rounding errors of [f64] can carry the bucket of [RateGate]: a
    refill adds at most the exact gain and a bounded error for every nanosecond,
    a token costs one up to an error, a refusal names a wait of at most a minute,
    and one nanosecond after that wait there is a token. *)

From Stdlib Require Import QArith Qfield Lqa.
From S2P Require Import Prelude RStr F64 F64Round DurationF64 RateGate.
Import Round.

Local Open Scope Q_scope.

(** The largest number below one. *)
Lemma below_one t : regular t → val t < 1 → val t <= 1 - u.
Proof.
  intros Ht H1. destruct t as [| | |sg m e]; try done.
  destruct (regular_finite _ _ _ Ht) as (-> & R & C).
  pose proof (val_log2 m e) as [L U]. assert (He : (Z.log2 (Z.pos m) + e < 0)%Z).
  { apply pw_lt_inv. change (pw 0) with 1. lra. }
  destruct (Z.eq_dec (Z.log2 (Z.pos m) + 1 + e) 0) as [E|NE].
  - assert (e = -53)%Z as -> by lia. cbn [val F64.signed] in *.
    assert (Hm : (Z.pos m ≤ 9007199254740991)%Z).
    { assert (Z.pos m < 2 ^ 53)%Z; [|lia]. apply Z.log2_lt_pow2; lia. }
    apply inject_le in Hm. change (inject_Z 9007199254740991) with (9007199254740991#1) in Hm.
    rewrite <-u_pw. unfold u. lra.
  - pose proof (pw_le (Z.log2 (Z.pos m) + 1 + e) (-1) ltac:(lia)) as W.
    change (pw (-1)) with (1#2) in W. unfold u. lra.
Qed.

(** ** The rate *)

Definition modest (s : RateLimitSettings) : Prop :=
  (0 ≤ max_concurrent s ≤ 65536)%Z ∧ (0 ≤ requests_per_minute s < 2 ^ 32)%Z.

Definition rate (s : RateLimitSettings) : f64 :=
  F64.div (F64.of_usize (requests_per_minute s)) (F64.of_usize 60).
Definition per_sec (s : RateLimitSettings) : Q := inject_Z (requests_per_minute s) * (1 # 60).

Section Bucket.
Context (s : RateLimitSettings) (Hmod : modest s) (Hen : settings_enabled s = true).

Lemma settings_range :
  (1 ≤ max_concurrent s ≤ 65536)%Z ∧ (1 ≤ requests_per_minute s < 2 ^ 32)%Z.
Proof using All. unfold modest, settings_enabled in *. b2p. lia. Qed.

Lemma per_sec_range : (1 # 60) <= per_sec s /\ per_sec s <= 71582789 # 1.
Proof using All.
  destruct settings_range as [_ [L%inject_le H]]. assert (H' : (requests_per_minute s <= 4294967296)%Z) by lia.
  apply inject_le in H'. unfold per_sec. change (inject_Z 1) with 1 in L.
  change (inject_Z 4294967296) with (4294967296#1) in H'. split; lra.
Qed.

Lemma rate_rel : regular (rate s) ∧ rel 2 (val (rate s)) (per_sec s).
Proof using All.
  destruct settings_range as [_ Hr]. pose proof per_sec_range as P. pose proof tiny as T.
  destruct (of_usize_near (requests_per_minute s)) as (RN & _ & VN); [lia|]. specialize (VN ltac:(lia)).
  destruct (of_usize_near 60) as (RB & _ & VB); [lia|]. specialize (VB ltac:(lia)).
  change (inject_Z 60) with (60#1) in VB.
  assert (E : val (F64.of_usize (requests_per_minute s)) / val (F64.of_usize 60) == per_sec s).
  { rewrite VN, VB. unfold per_sec. field. }
  destruct (div_near (F64.of_usize (requests_per_minute s)) (F64.of_usize 60)) as [? HN]; try done.
  - rewrite E. apply huge. apply Qle_trans with (71582789 # 1); [lra|done].
  - right. rewrite E. unfold u in T. lra.
  - split; [done|]. apply near_rel; [unfold u in T; lra|]. by rewrite E in HN.
Qed.

Lemma exact_gain_range d :
  (0 < d ≤ last_instant)%Z →
  (1 # 60000000000) <= in_secs d * per_sec s
  /\ in_secs d * per_sec s <= (9223372036854775808#1) * (71582789#1).
Proof using All.
  intros Hd. pose proof per_sec_range as P. pose proof (secs_pos d ltac:(lia)) as HD.
  assert (D' : (d <= 9223372036854775808000000000)%Z)
    by (unfold last_instant, Duration.nanos_per_sec in Hd; lia).
  apply inject_le in D'.
  change (inject_Z 9223372036854775808000000000) with (9223372036854775808000000000#1) in D'.
  assert (HD' : in_secs d <= 9223372036854775808#1) by (unfold in_secs; lra).
  split; [|apply Qmult_le_compat_nonneg; lra].
  apply Qle_trans with ((1 # 1000000000) * (1#60)); [done|]. apply Qmult_le_compat_nonneg; lra.
Qed.

(** The tokens gained in [d] nanoseconds. *)
Lemma gain_rel d :
  (0 < d ≤ last_instant)%Z →
  let y := F64.mul (Duration.as_secs_f64 d) (rate s) in
  regular y ∧ rel 10 (val y) (in_secs d * per_sec s).
Proof using All.
  intros Hd. destruct (as_secs_rel d Hd) as [RE LE]. destruct rate_rel as [RR LR].
  pose proof per_sec_range as P. pose proof (secs_pos d ltac:(lia)) as HD. pose proof tiny as T.
  assert (LX := rel_mul _ (in_secs d) _ (per_sec s) ltac:(lra) ltac:(lra) LE LR).
  destruct (exact_gain_range d Hd) as [XL XU].
  unfold rel, u in LX, T. change (inject_Z 7) with 7 in LX.
  destruct (mul_near (Duration.as_secs_f64 d) (rate s)) as [RM NM]; try done.
  { apply huge. apply Qle_trans with ((9223372036854775808#1) * (71582790#1)); [lra|done]. }
  split; [done|]. assert (NM' : rel 2 (val (F64.mul (Duration.as_secs_f64 d) (rate s)))
    (val (Duration.as_secs_f64 d) * val (rate s))) by (apply near_rel; [lra|done]).
  unfold rel, u in *. change (inject_Z 10) with 10. change (inject_Z 2) with 2 in *. lra.
Qed.

(** ** Refilling *)

Definition cap : Q := inject_Z (max_concurrent s).

Definition sound (b : TokenBucket) : Prop :=
  capacity b = F64.of_usize (max_concurrent s) ∧ refill_per_sec b = rate s
  ∧ regular (tokens b) ∧ val (tokens b) <= cap.

(** What a nanosecond adds at most: the exact gain, the error of computing it,
    and the error of adding it. *)
Definition per_nano : Q := in_secs 1 * per_sec s * (1 + 10 * u) + (2 * cap + 1) * u.

Lemma cap_range : 1 <= cap /\ cap <= 65536 # 1.
Proof using All.
  destruct settings_range as [[L%inject_le U%inject_le] _]. unfold cap.
  change (inject_Z 1) with 1 in L. change (inject_Z 65536) with (65536#1) in U. split; lra.
Qed.

Lemma capacity_val : regular (F64.of_usize (max_concurrent s)) ∧ val (F64.of_usize (max_concurrent s)) == cap.
Proof using All.
  destruct settings_range as [? _]. destruct (of_usize_near (max_concurrent s)) as (? & _ & E); [lia|].
  split; [done|]. apply E. lia.
Qed.

Lemma secs_scale d x : in_secs d * x == inject_Z d * (in_secs 1 * x).
Proof. unfold in_secs. change (inject_Z 1) with 1. ring. Qed.

(** The new content of the bucket, before it is capped. *)
Lemma topped_up t d :
  regular t → val t <= cap → (0 < d ≤ last_instant)%Z →
  let y := F64.add t (F64.mul (Duration.as_secs_f64 d) (rate s)) in
  let x := val t + in_secs d * per_sec s in
  regular y
  ∧ (val y <= cap → val y <= val t + inject_Z d * per_nano)
  ∧ (cap <= val y → cap <= val t + inject_Z d * per_nano)
  ∧ x * (1 - 12 * u) <= val y.
Proof using All.
  intros Ht HC Hd. cbv zeta. destruct (gain_rel d Hd) as [RG LG]. cbv zeta in RG, LG.
  pose proof (regular_nonneg _ Ht) as T0. pose proof cap_range as PC. pose proof per_sec_range as P.
  pose proof (secs_pos d ltac:(lia)) as HD. pose proof tiny as TT. pose proof eta_small as TE.
  assert (HD1 : 1 <= inject_Z d) by (apply (inject_le 1); lia).
  destruct (exact_gain_range d Hd) as [XL XU].
  assert (HE : (2 * cap + 1) * u <= inject_Z d * ((2 * cap + 1) * u)).
  { setoid_rewrite <-(Qmult_1_l ((2 * cap + 1) * u)) at 1. apply scale_le; [unfold u; lra|done]. }
  assert (HP : inject_Z d * per_nano
    == in_secs d * per_sec s * (1 + 10 * u) + inject_Z d * ((2 * cap + 1) * u)).
  { unfold per_nano. rewrite (secs_scale d (per_sec s)). ring. }
  unfold rel, u in LG, TT, TE. change (inject_Z 10) with 10 in LG.
  destruct (add_near t (F64.mul (Duration.as_secs_f64 d) (rate s))) as [RA NA]; try done.
  { apply huge. apply Qle_trans with ((9223372036854775808#1) * (71582790#1)); [lra|done]. }
  rewrite HP. clear HP. split; [done|]. unfold near, u in *.
  set (DR := in_secs d * per_sec s) in *. set (G := val (F64.mul _ _)) in *.
  set (Y := val (F64.add _ _)) in *. set (E := inject_Z d * _) in *. clearbody DR G Y E.
  split; [intros; lra|]. split; [|lra].
  intros. destruct (Qlt_le_dec (val t + G) cap); lra.
Qed.

Lemma refill_idle b : refill b (last_refill b) = b.
Proof. unfold refill, duration_since. by rewrite Z.sub_diag. Qed.

Lemma refill_spec b now :
  sound b → (last_refill b ≤ now ≤ last_instant)%Z → (0 ≤ last_refill b)%Z →
  let b' := refill b now in
  sound b' ∧ last_refill b' = now
  ∧ val (tokens b') <= val (tokens b) + inject_Z (now - last_refill b) * per_nano
  ∧ ((last_refill b < now)%Z →
     cap <= val (tokens b')
     ∨ (val (tokens b) + in_secs (now - last_refill b) * per_sec s) * (1 - 12 * u) <= val (tokens b')).
Proof using All.
  intros (Hc & Hr & Ht & HC) Hn H0 b'.
  destruct (Z.eq_dec (last_refill b) now) as [E|Hlt].
  { unfold b'. rewrite <-E, refill_idle. split; [done|]. split; [done|]. split; [|lia].
    rewrite Z.sub_diag. change (inject_Z 0) with 0. lra. }
  set (d := (now - last_refill b)%Z). assert (Hd : (0 < d ≤ last_instant)%Z) by lia.
  destruct (as_secs_rel d Hd) as [RE LE].
  destruct (topped_up (tokens b) d Ht HC Hd) as (RY & U1 & U2 & L). destruct capacity_val as [RC VC].
  assert (Eb : b' = mkBucket (F64.min (F64.add (tokens b) (F64.mul (Duration.as_secs_f64 d) (rate s)))
    (F64.of_usize (max_concurrent s))) (capacity b) (refill_per_sec b) now).
  { unfold b', refill, duration_since. fold d. rewrite Z.max_r by lia.
    assert (F64.lt F64.zero (Duration.as_secs_f64 d) = true) as ->.
    { apply lt_val; [done..|]. change (val F64.zero) with 0.
      pose proof (secs_pos d ltac:(lia)). unfold rel, u in LE. change (inject_Z 4) with 4 in LE. lra. }
    by rewrite Hr, Hc. }
  rewrite Eb. cbn [tokens capacity refill_per_sec last_refill].
  destruct (min_val _ _ RY RC) as (RM & M1 & M2 & M3). rewrite VC in M2, M3.
  split; [by repeat split|]. split; [done|]. split; [|intros _; destruct M3; [right|left]; lra].
  destruct M3 as [M3|M3]; [rewrite M3; apply U1|rewrite M3; apply U2]; lra.
Qed.

(** ** Taking a token *)

(** What a token costs at least. *)
Definition token_cost : Q := 1 - (cap + 1) * u.

Lemma one_val : regular F64.one ∧ val F64.one == 1.
Proof. split; [done|]. reflexivity. Qed.

Lemma take_spec t :
  regular t → 1 <= val t → val t <= cap →
  regular (F64.sub t F64.one) ∧ val (F64.sub t F64.one) + token_cost <= val t.
Proof using All.
  intros Ht H1 HC. destruct one_val as [RO VO]. pose proof cap_range as PC.
  pose proof tiny. pose proof eta_small.
  destruct (sub_near t F64.one Ht RO) as [RS NS]; [rewrite VO; lra| |].
  { apply huge. apply Qle_trans with (65536#1); [lra|done]. }
  split; [done|]. rewrite VO in NS. unfold near, token_cost, u in *. lra.
Qed.

(** The wait covers what is missing, up to half a nanosecond. *)
Lemma wait_spec t :
  regular t → val t < 1 →
  ∃ d, Duration.from_secs_f64 (F64.div (F64.sub F64.one t) (rate s)) = Some d
    ∧ (0 ≤ d ≤ minute)%Z
    ∧ (1 - val t) * (1 - 16 * u) <= (in_secs d + (1#2000000000)) * per_sec s.
Proof using All.
  intros Ht H1. destruct one_val as [RO VO]. pose proof (below_one t Ht H1) as HB.
  pose proof (regular_nonneg t Ht) as T0. pose proof tiny as TT. pose proof eta_small as TE.
  pose proof per_sec_range as P. destruct rate_rel as [RR LR].
  destruct (sub_near F64.one t RO Ht) as [RS NS]; [rewrite VO; lra|by apply huge|].
  rewrite VO in NS. apply near_rel in NS; [|unfold u in *; lra].
  set (D := F64.sub F64.one t) in *. unfold rel, u in LR, NS, TT. change (inject_Z 2) with 2 in *.
  unfold u in HB. assert (PR : 0 < val (rate s)) by lra.
  set (q := val D / val (rate s)). assert (Eq : q * val (rate s) == val D) by (by apply div_mul).
  assert (Q0 : 0 <= q) by (apply Qle_shift_div_l; [done|lra]).
  assert (QU : q <= (60#1) * (1 + 8 * (1 # 9007199254740992)))
    by (apply Qle_shift_div_r; [done|lra]).
  assert (QL : pw (-900) <= q) by (apply Qle_shift_div_l; [done|]; nra).
  destruct (div_near D (rate s)) as [RW NW]; try done.
  { apply huge. fold q. apply Qle_trans with (61#1); [lra|done]. }
  { by right. }
  fold q in NW. apply near_rel in NW; [|done]. unfold rel, u in NW. change (inject_Z 2) with 2 in NW.
  set (W := val (F64.div D (rate s))) in *.
  destruct (from_secs_spec _ RW) as (d & Ed & Hd & LD); [fold W; lra|]. fold W in LD.
  exists d. split; [done|]. split.
  - split; [done|]. assert (d < 60000000001)%Z; [|unfold minute, Duration.nanos_per_sec; lia].
    rewrite Zlt_Qlt. change (inject_Z 60000000001) with (60000000001#1). unfold in_secs in LD. lra.
  - assert (HW : W * per_sec s <= (in_secs d + (1#2000000000)) * per_sec s) by (apply scale_le; lra).
    assert (HQ : q * (val (rate s) * (1 - 3 * u)) <= q * per_sec s).
    { rewrite !(Qmult_comm q). apply scale_le; [done|]. unfold u. lra. }
    assert (HW' : q * (1 - 2 * u) * per_sec s <= W * per_sec s) by (apply scale_le; unfold u; lra).
    unfold u in *. nra.
Qed.

(** ** The whole attempt *)

Definition spent (r : attempt) : Q := match r with Taken => token_cost | _ => 0 end.

Lemma try_acquire_spec b now :
  sound b → (last_refill b ≤ now ≤ last_instant)%Z → (0 ≤ last_refill b)%Z →
  let '(b', r) := try_acquire b now in
  sound b' ∧ last_refill b' = now
  ∧ val (tokens b') + spent r <= val (tokens b) + inject_Z (now - last_refill b) * per_nano
  ∧ val (tokens b') + spent r <= cap
  ∧ match r with
    | Taken => True
    | Wait d => (0 ≤ d ≤ minute)%Z ∧ ∀ later, (now + d < later ≤ last_instant)%Z →
        (try_acquire b' later).2 = Taken
    | Panics => False
    end.
Proof using All.
  intros Hb Hn H0. destruct (refill_spec b now Hb Hn H0) as (Hs & El & Hu & _). cbv zeta in *.
  unfold try_acquire. set (b1 := refill b now) in *.
  destruct Hs as (Hc & Hr & Ht & HC). destruct one_val as [RO VO].
  pose proof (le_val _ _ RO Ht) as HLE. rewrite VO in HLE. pose proof cap_range as PC.
  destruct (F64.le F64.one (tokens b1)).
  - destruct (take_spec (tokens b1)) as [RS LS]; [done|by apply HLE|done|].
    cbn [tokens capacity refill_per_sec last_refill spent].
    split; [|split; [done|split; [lra|split; [lra|done]]]]. repeat split; try done.
    unfold token_cost, u in LS. cbn [tokens]. lra.
  - assert (H1 : val (tokens b1) < 1) by (apply Qnot_le_lt; intros ?%HLE; done).
    destruct (wait_spec (tokens b1) Ht H1) as (d & Ed & Hd & HW). rewrite Hr, Ed.
    cbn [spent]. split; [done|]. split; [done|]. split; [lra|]. split; [lra|].
    split; [done|]. intros later Hl.
    destruct (refill_spec b1 later) as (Hs' & _ & _ & HG); [done|lia|lia|]. cbv zeta in *.
    assert (HT : 1 <= val (tokens (refill b1 later))).
    { destruct HG as [HG|HG]; [lia|lra|]. rewrite El in HG.
      assert (HD : (d + 1 ≤ later - now)%Z) by lia. apply inject_le in HD.
      rewrite inject_Z_plus in HD. change (inject_Z 1) with 1 in HD.
      pose proof per_sec_range as P.
      assert (HS : (in_secs d + (1#1000000000)) * per_sec s <= in_secs (later - now) * per_sec s)
        by (apply scale_le; unfold in_secs; lra).
      pose proof (regular_nonneg _ Ht). unfold u in *. nra. }
    assert (F64.le F64.one (tokens (refill b1 later)) = true) as ->; [|done].
    apply le_val; [done|apply Hs'|]. by rewrite VO.
Qed.

(** ** A minute *)

(** The errors of a minute of refills, one a nanosecond, and of all the tokens
    add up to less than one token. *)
Lemma minute_bound n m :
  (m ≤ minute)%Z → inject_Z n * token_cost <= cap + inject_Z m * per_nano →
  (n ≤ max_concurrent s + requests_per_minute s)%Z.
Proof using All.
  intros Hm Hn. apply Z.nlt_ge. intros Hlt. pose proof cap_range as PC. pose proof per_sec_range as P.
  set (r := inject_Z (requests_per_minute s)).
  assert (Hr : per_sec s == r * (1#60)) by reflexivity.
  assert (HN : cap + r + 1 <= inject_Z n).
  { unfold cap, r. change 1 with (inject_Z 1). rewrite <-!inject_Z_plus. apply inject_le. lia. }
  assert (HP : in_secs 1 * per_sec s == r * (1#60000000000)).
  { rewrite Hr. unfold in_secs. change (inject_Z 1) with 1. field. }
  assert (PN : 0 <= per_nano) by (unfold per_nano, u in *; lra).
  apply inject_le, (scale_le _ _ per_nano) in Hm; [|done].
  change (inject_Z minute) with (60000000000#1) in Hm.
  assert (TC : 0 <= token_cost) by (unfold token_cost, u; lra).
  apply (scale_le _ _ token_cost) in HN; [|done].
  assert (HK : (cap + r + 1) * ((cap + 1) * u) <= (4295032897#1) * ((65537#1) * u)).
  { apply Qmult_le_compat_nonneg; unfold u; lra. }
  unfold token_cost, per_nano in *. rewrite HP in Hm. unfold u in *. nra.
Qed.
End Bucket.
