(* ===== verification/RateSafety.v ===== *)
(** * What the admission gate promises

    Over any interleaving of calls, cancellations and configurations, and in
    binary64: an endpoint has at most [max_concurrent] requests in flight, and at
    most [requests_per_minute + max_concurrent] are sent to it in any minute. *)

From Stdlib Require Import QArith Lqa.
From S2P Require Import Prelude RStr F64 F64Round DurationF64 RateGate RateBucket.
Import Round.

Local Open Scope Z_scope.

(** ** Counting *)

Definition call_weight (P : CallPhase → bool) (k : EndpointKey) (c : Call) : Z :=
  if bool_decide (call_key c = k) && P (phase c) then 1 else 0.

Lemma calls_in_new P k m id c :
  m !! id = None → calls_in P k (<[id := c]> m) = calls_in P k m + call_weight P k c.
Proof.
  intros Hm. unfold calls_in, call_weight. rewrite map_filter_insert.
  destruct (decide _) as [E|E]; cbn [snd] in E.
  - rewrite E, map_size_insert_None; [lia|]. by apply map_lookup_filter_None; left.
  - apply not_true_is_false in E. rewrite E, delete_id by done. lia.
Qed.

Lemma calls_in_delete P k m id c :
  m !! id = Some c → calls_in P k (delete id m) = calls_in P k m - call_weight P k c.
Proof.
  intros Hm. rewrite <-(insert_id m id c) at 2 by done.
  rewrite <-insert_delete_eq, calls_in_new by apply lookup_delete_eq. lia.
Qed.

Lemma calls_in_insert P k m id c c' :
  m !! id = Some c → calls_in P k (<[id := c']> m) = calls_in P k m - call_weight P k c + call_weight P k c'.
Proof.
  intros Hm. rewrite <-insert_delete_eq, calls_in_new by apply lookup_delete_eq.
  by rewrite (calls_in_delete P k m id c).
Qed.

Lemma calls_in_none P k m :
  (∀ id c, m !! id = Some c → call_key c ≠ k) → calls_in P k m = 0.
Proof.
  intros H. unfold calls_in. rewrite map_empty_filter_2; [done|].
  intros id c Hc E. cbn [snd] in E. b2p. by apply (H id c).
Qed.

Lemma in_flight_held k m : calls_in in_flight k m ≤ calls_in holds_permit k m.
Proof.
  unfold calls_in. apply inj_le, map_subseteq_size. apply map_filter_subseteq_ext.
  intros id c _ E. cbn [snd] in *. b2p. destruct (phase c); by rewrite bool_decide_true.
Qed.

(** The requests sent to [k] from [t] on. *)
Definition sent_since (k : EndpointKey) (t : Z) (log : list (EndpointKey * Z)) : Z :=
  Z.of_nat (length (filter (fun e => bool_decide (e.1 = k) && (t <=? e.2) = true) log)).

Definition tick (b : bool) : Z := if b then 1 else 0.

Lemma count_cons {A} (f : A → bool) x l :
  Z.of_nat (length (filter (fun e => f e = true) (x :: l)))
  = tick (f x) + Z.of_nat (length (filter (fun e => f e = true) l)).
Proof. rewrite filter_cons. unfold tick. destruct (f x); cbn [decide]; case_decide; cbn; lia || done. Qed.

Lemma within_cons k t e log : sent_within k t (e :: log) = tick (in_window k t e) + sent_within k t log.
Proof. apply (count_cons (in_window k t)). Qed.
Lemma since_cons k t e log :
  sent_since k t (e :: log) = tick (bool_decide (e.1 = k) && (t <=? e.2)) + sent_since k t log.
Proof. apply (count_cons (fun e => bool_decide (e.1 = k) && (t <=? e.2))). Qed.

Lemma within_since k t log : sent_within k t log ≤ sent_since k t log.
Proof.
  induction log as [|e log IH]; [done|]. rewrite within_cons, since_cons. unfold in_window, tick.
  destruct (bool_decide _), (t <=? e.2), (e.2 <=? t + minute); cbn [andb]; lia.
Qed.

Lemma since_none k t log : (∀ t', (k, t') ∈ log → t' < t) → sent_since k t log = 0.
Proof.
  induction log as [|[k' t'] log IH]; intros H; [done|]. rewrite since_cons, IH by (intros; apply H; set_solver).
  cbn [fst snd]. case_bool_decide as E; [subst|done].
  pose proof (H t' ltac:(set_solver)). rewrite (proj2 (Z.leb_gt t t')) by done. done.
Qed.

(** ** The invariant *)

Record limiter_ok (s : RateLimitSettings) (k : EndpointKey) (l : EndpointLimiter) (now : Z)
    (cs : gmap nat Call) (log : list (EndpointKey * Z)) : Prop := {
  ok_bucket : sound s (bucket l);
  ok_time : 0 ≤ last_refill (bucket l) ≤ now;
  ok_log : ∀ t, (k, t) ∈ log → t ≤ last_refill (bucket l);
  ok_balance : ∀ t, t ≤ last_refill (bucket l) →
    (inject_Z (sent_since k t log) * token_cost s + val (tokens (bucket l))
     <= cap s + inject_Z (last_refill (bucket l) - t) * per_nano s)%Q;
  ok_window : ∀ t, sent_within k t log ≤ max_concurrent s + requests_per_minute s;
  ok_permits : 0 ≤ semaphore l ∧ semaphore l + calls_in holds_permit k cs = max_concurrent s
}.

Section Limiter.
Context (s : RateLimitSettings) (Hmod : modest s) (Hen : settings_enabled s = true).

Lemma limiter_new_ok k label now cs log :
  0 ≤ now → (∀ t, (k, t) ∉ log) → (∀ id c, cs !! id = Some c → call_key c ≠ k) →
  limiter_ok s k (limiter_new s label now) now cs log.
Proof using All.
  intros Hn Hlog Hcs. destruct (capacity_val s Hmod Hen) as [RC VC].
  pose proof (settings_range s Hmod Hen) as R. pose proof (cap_range s Hmod Hen) as PC.
  assert (E0 : ∀ t, sent_since k t log = 0) by (intros; apply since_none; intros ? []%Hlog).
  constructor; cbn [limiter_new bucket_new bucket semaphore tokens last_refill].
  - repeat split; [done|]. cbn [tokens]. rewrite VC. lra.
  - lia.
  - intros t []%Hlog.
  - intros t Ht. rewrite E0, VC. change (inject_Z 0) with 0%Q.
    assert (0 <= inject_Z (now - t))%Q by (apply (inject_le 0); lia).
    assert (0 <= per_nano s)%Q.
    { unfold per_nano. pose proof (per_sec_range s Hmod Hen). pose proof (secs_pos 1 ltac:(lia)). unfold u. nra. }
    nra.
  - intros t. pose proof (within_since k t log). rewrite E0 in H. lia.
  - rewrite calls_in_none by done. lia.
Qed.

Lemma limiter_frame k l now now' cs cs' log :
  limiter_ok s k l now cs log → now ≤ now' →
  calls_in holds_permit k cs' = calls_in holds_permit k cs →
  limiter_ok s k l now' cs' log.
Proof using All. intros [] Hn E. constructor; try done; [lia|by rewrite E]. Qed.

Lemma limiter_other k l now cs log k' t :
  k' ≠ k → limiter_ok s k l now cs log → limiter_ok s k l now cs ((k', t) :: log).
Proof using All.
  intros Hk []. constructor; try done.
  - intros t' [?|?]%elem_of_cons; [congruence|auto].
  - intros t' Ht. rewrite since_cons. cbn [fst]. rewrite bool_decide_false by done. by apply ok_balance0.
  - intros t'. rewrite within_cons. unfold in_window. cbn [fst].
    rewrite bool_decide_false by done. by apply ok_window0.
Qed.

(** The permits of the semaphore and those of the calls. *)
Lemma limiter_permits k l now cs cs' log f :
  limiter_ok s k l now cs log → 0 ≤ f (semaphore l) →
  f (semaphore l) + calls_in holds_permit k cs' = semaphore l + calls_in holds_permit k cs →
  limiter_ok s k (set_semaphore f l) now cs' log.
Proof using All. intros [] H0 E. constructor; try done. cbn [semaphore set_semaphore]. lia. Qed.

Definition logged (k : EndpointKey) (now : Z) (r : attempt) (log : list (EndpointKey * Z)) :=
  match r with Taken => (k, now) :: log | _ => log end.

Lemma per_nano_nonneg : (0 <= per_nano s)%Q.
Proof using All.
  pose proof (per_sec_range s Hmod Hen). pose proof (secs_pos 1 ltac:(lia)).
  pose proof (cap_range s Hmod Hen). unfold per_nano, u. nra.
Qed.

Lemma limiter_attempt k l now cs log :
  limiter_ok s k l now cs log → now ≤ last_instant →
  let '(b, r) := try_acquire (bucket l) now in
  r ≠ Panics ∧ limiter_ok s k (set_bucket b l) now cs (logged k now r log).
Proof using All.
  intros [Hb Ht Hlog Hbal Hwin Hperm] Hn.
  pose proof (try_acquire_spec s Hmod Hen (bucket l) now Hb ltac:(lia) ltac:(lia)) as HS.
  destruct (try_acquire (bucket l) now) as [b r]. destruct HS as (Sb & El & U1 & U2 & HR).
  pose proof per_nano_nonneg as PN. pose proof (regular_nonneg _ (proj1 (proj2 (proj2 Sb)))) as T0.
  set (n := tick (match r with Taken => true | _ => false end)).
  assert (ES : ∀ t, t ≤ now → sent_since k t (logged k now r log) = n + sent_since k t log).
  { intros t Hle. unfold n, logged. destruct r; [|done..]. rewrite since_cons. cbn [fst snd].
    rewrite bool_decide_true, (proj2 (Z.leb_le t now)) by done. done. }
  assert (EC : (spent s r == inject_Z n * token_cost s)%Q).
  { unfold n. destruct r; cbn [spent tick]; change (inject_Z 1) with 1%Q; change (inject_Z 0) with 0%Q; ring. }
  assert (HB : ∀ t, t ≤ now → (inject_Z (sent_since k t (logged k now r log)) * token_cost s
    + val (tokens b) <= cap s + inject_Z (now - t) * per_nano s)%Q).
  { intros t Hle. rewrite ES, inject_Z_plus by done. rewrite EC in U1, U2.
    destruct (Z.le_gt_cases t (last_refill (bucket l))) as [Hl|Hl].
    - specialize (Hbal t Hl). replace (now - t) with ((now - last_refill (bucket l)) + (last_refill (bucket l) - t)) by lia.
      rewrite (inject_Z_plus (now - _)). lra.
    - rewrite (since_none k t log) by (intros ? ?%Hlog; lia). change (inject_Z 0) with 0%Q.
      assert (0 <= inject_Z (now - t))%Q by (apply (inject_le 0); lia).
      assert (0 <= inject_Z (now - t) * per_nano s)%Q by (by apply Qmult_le_0_compat). lra. }
  split; [by destruct r|]. constructor; cbn [set_bucket bucket semaphore]; rewrite ?El; try done.
  - lia.
  - intros t. unfold logged. destruct r; [intros [?|?%Hlog]%elem_of_cons; [|lia]; simplify_eq; lia|..];
      intros ?%Hlog; lia.
  - intros t. destruct (in_window k t (k, now)) eqn:E.
    + unfold in_window in E. cbn [fst snd] in E. b2p.
      etrans; [apply within_since|]. apply (minute_bound s Hmod Hen _ (now - t)); [lia|].
      specialize (HB t ltac:(lia)). lra.
    + unfold logged. destruct r; [|apply Hwin..]. rewrite within_cons, E. by apply Hwin.
Qed.
End Limiter.

(** ** The settings of a limiter *)

(** Read off the events alone: the settings last configured and whether any were,
    what a provider built then is limited by, and the settings of the first
    provider of [k] that is limited. Those are the settings of [k] from then on. *)
Definition effective_after (g : RateLimitSettings * bool) (ev : Event) : RateLimitSettings * bool :=
  match ev with Configure s => (s, true) | _ => g end.

Definition limits (g : RateLimitSettings * bool) (k : EndpointKey) (ev : Event) : option RateLimitSettings :=
  match ev with
  | Build base key local =>
      if bool_decide (endpoint_key base key = k) && (0 <? max_concurrent g.1) &&
         (0 <? requests_per_minute g.1) && (negb local || g.2)
      then Some g.1 else None
  | _ => None
  end.

Fixpoint limits_from (g : RateLimitSettings * bool) (k : EndpointKey) (evs : list Event) :
    option RateLimitSettings :=
  match evs with
  | [] => None
  | ev :: evs' =>
      match limits g k ev with Some s => Some s | None => limits_from (effective_after g ev) k evs' end
  end.

Definition made_with (k : EndpointKey) (evs : list Event) : option RateLimitSettings :=
  limits_from (default_settings, false) k evs.

(** What is still to come decides the settings of the endpoints not yet limited. *)
Definition foretold (M : EndpointKey → option RateLimitSettings) (w : World) (evs : list Event) : Prop :=
  ∀ k, registry w !! k = None → M k = limits_from (settings (global w), explicit (global w)) k evs.

(** ** Every step keeps it *)

Record gate_ok (S : list RateLimitSettings) (M : EndpointKey → option RateLimitSettings) (w : World) : Prop := {
  ok_settings : settings (global w) ∈ S;
  ok_clock : 0 ≤ clock w ≤ last_instant;
  ok_limiters : ∀ k l, registry w !! k = Some l →
    ∃ s, (M k = Some s ∧ s ∈ S) ∧ settings_enabled s = true ∧ limiter_ok s k l (clock w) (calls w) (sent w);
  ok_sent : ∀ k t, (k, t) ∈ sent w → is_Some (registry w !! k);
  ok_calls : ∀ id c, calls w !! id = Some c → is_Some (registry w !! call_key c);
  ok_providers : ∀ k, Gated k ∈ providers w → is_Some (registry w !! k)
}.

Definition configures (S : list RateLimitSettings) (ev : Event) : Prop :=
  match ev with Configure s => s ∈ S | _ => True end.

Section Steps.
Context (S : list RateLimitSettings) (HS : Forall modest S) (M : EndpointKey → option RateLimitSettings).

Lemma modest_in s : s ∈ S → modest s.
Proof using HS. intros. by eapply (proj1 (Forall_forall modest S)). Qed.

(** A step of one call changes its endpoint's limiter, its own entry among the
    calls and possibly the log. *)
Lemma gate_update w k l l' cs' log' :
  gate_ok S M w → registry w !! k = Some l →
  (∀ s, s ∈ S → settings_enabled s = true → limiter_ok s k l (clock w) (calls w) (sent w) →
     limiter_ok s k l' (clock w) cs' log') →
  (∀ k', k' ≠ k → calls_in holds_permit k' cs' = calls_in holds_permit k' (calls w)) →
  (∀ id c, cs' !! id = Some c → call_key c = k ∨ calls w !! id = Some c) →
  (log' = sent w ∨ ∃ t, log' = (k, t) :: sent w) →
  gate_ok S M (mkWorld (clock w) (global w) (<[k := l']> (registry w)) (providers w) cs' log').
Proof using HS.
  intros [Hset Hclk Hlim Hsent Hcalls Hprov] Hk Hl' Hoth Hcs Hlog.
  assert (Hreg : ∀ k', is_Some (registry w !! k') → is_Some (<[k := l']> (registry w) !! k')).
  { intros k' Hk'. rewrite lookup_insert_is_Some'. by right. }
  constructor; cbn [settings global clock registry calls sent providers]; try done.
  - intros k' l2 [[<- <-]|[Hne Hk']]%lookup_insert_Some.
    + destruct (Hlim k l Hk) as (s & [? ?] & ? & ?). exists s. auto.
    + destruct (Hlim k' l2 Hk') as (s & [Hm Hs] & He & Hok). exists s. split; [done|]. split; [done|].
      pose proof (modest_in s Hs) as Hmod.
      apply (limiter_frame s Hmod He _ _ _ (clock w) _ cs') in Hok; [|lia|by apply Hoth].
      destruct Hlog as [->|[t ->]]; [done|]. by apply limiter_other.
  - intros k' t Hin. apply Hreg. destruct Hlog as [->|[t' ->]]; [by eapply Hsent|].
    apply elem_of_cons in Hin as [?|?]; [simplify_eq; eauto|by eapply Hsent].
  - intros id c Hc. apply Hreg. destruct (Hcs id c Hc) as [->|?]; eauto.
  - intros k' ?. apply Hreg. eauto.
Qed.

(** Steps that leave the limiters alone. *)
Lemma gate_same w w' :
  gate_ok S M w → registry w' = registry w → sent w' = sent w →
  settings (global w') ∈ S → clock w ≤ clock w' ≤ last_instant →
  (∀ k, calls_in holds_permit k (calls w') = calls_in holds_permit k (calls w)) →
  (∀ id c, calls w' !! id = Some c → is_Some (registry w !! call_key c)) →
  (∀ k, Gated k ∈ providers w' → is_Some (registry w !! k)) →
  gate_ok S M w'.
Proof using HS.
  intros [Hset Hclk Hlim Hsent Hcalls Hprov] Er Es ? ? Hcs ? ?.
  constructor; rewrite ?Er, ?Es; try done; [lia|].
  intros k l Hk. destruct (Hlim k l Hk) as (s & [Hm Hs] & He & Hok). exists s. split; [done|]. split; [done|].
  apply (limiter_frame s (modest_in s Hs) He _ _ (clock w) _ (calls w)); [done|lia|done].
Qed.

Lemma weight_other P k c k' : call_key c = k → k' ≠ k → call_weight P k' c = 0.
Proof. intros <- Hne. unfold call_weight. by rewrite bool_decide_false by congruence. Qed.
Lemma call_weight_own P k p : call_weight P k (mkCall k p) = tick (P p).
Proof. unfold call_weight, tick. cbn [call_key phase]. by rewrite bool_decide_true by done. Qed.

Lemma drop_ok w id c w' :
  gate_ok S M w → calls w !! id = Some c → drop_call w id c = Some w' → gate_ok S M w'.
Proof using HS.
  intros Hw Hc. unfold drop_call. destruct (holds_permit (phase c)) eqn:Eh.
  - destruct (registry w !! call_key c) as [l|] eqn:Er; [|done]. cbn [mbind option_bind]. intros [= <-].
    unfold with_limiter, with_calls. cbn [clock global registry providers calls sent].
    apply (gate_update w (call_key c) l); [done..| | | |by left].
    + intros s Hs He Hok. pose proof (modest_in s Hs) as Hm.
      apply (limiter_permits s Hm He _ _ _ (calls w)); [done|destruct Hok; lia|].
      rewrite (calls_in_delete _ _ _ _ c) by done. unfold call_weight. rewrite Eh, bool_decide_true by done. cbn. lia.
    + intros k' Hk'. rewrite (calls_in_delete _ _ _ _ c), (weight_other _ (call_key c)) by done. lia.
    + intros id' c' [_ ?]%lookup_delete_Some. by right.
  - intros [= <-]. unfold with_calls. pose proof Hw as []. apply (gate_same w); cbn [clock global registry providers calls sent]; try done.
    + lia.
    + intros k. rewrite (calls_in_delete _ _ _ _ c) by done.
      unfold call_weight. rewrite Eh, andb_false_r. lia.
    + intros id' c' [_ ?]%lookup_delete_Some. eauto.
Qed.

Lemma attempt_ok w id c until w' :
  gate_ok S M w → calls w !! id = Some c → phase c = Trying until →
  attempt_call w id c = Some w' → gate_ok S M w'.
Proof using HS.
  intros Hw Hc Hp. unfold attempt_call. destruct (registry w !! call_key c) as [l|] eqn:Er; [|done].
  cbn [mbind option_bind]. pose proof (limiter_attempt) as LA.
  destruct (try_acquire (bucket l) (clock w)) as [b r] eqn:Et.
  assert (HA : ∀ p, holds_permit p = true →
    gate_ok S M (mkWorld (clock w) (global w) (<[call_key c := set_bucket b l]> (registry w)) (providers w)
      (<[id := mkCall (call_key c) p]> (calls w)) (logged (call_key c) (clock w) r (sent w)))).
  { intros p Hhp. apply (gate_update w (call_key c) l); [done..| | | |].
    - intros s Hs He Hok. pose proof (modest_in s Hs) as Hm.
      specialize (LA s Hm He _ _ _ _ _ Hok). rewrite Et in LA. destruct LA as [_ LA]; [destruct Hw; lia|].
      apply (limiter_frame s Hm He _ _ (clock w) _ (calls w)); [done|lia|].
      rewrite (calls_in_insert _ _ _ _ c) by done. rewrite call_weight_own, Hhp.
      unfold call_weight. rewrite bool_decide_true, Hp by done. cbn. lia.
    - intros k' Hk'. rewrite (calls_in_insert _ _ _ _ c), !(weight_other _ (call_key c)) by done. lia.
    - intros id' c' [[<- <-]|[_ ?]]%lookup_insert_Some; [by left|by right].
    - unfold logged. destruct r; [right; eauto|by left|by left]. }
  destruct r as [|d|]; intros [= <-]; by apply HA.
Qed.

(** A provider that is limited gets the settings of the moment. *)
Lemma limited_now w base key local :
  negb (settings_enabled (settings (global w))) || (local && negb (explicit (global w))) = false →
  limits (settings (global w), explicit (global w)) (endpoint_key base key) (Build base key local)
  = Some (settings (global w)).
Proof.
  unfold settings_enabled. cbn [limits fst snd]. rewrite bool_decide_true by done.
  by destruct (0 <? max_concurrent _), (0 <? requests_per_minute _), local, (explicit _).
Qed.

Lemma build_ok w base key local w' evs :
  gate_ok S M w → foretold M w (Build base key local :: evs) →
  fire w (Build base key local) = Some w' → gate_ok S M w'.
Proof using HS.
  intros Hw Hfore. cbn [fire]. unfold gate_provider. pose proof Hw as [Hset Hclk Hlim Hsent Hcalls Hprov].
  destruct (negb _ || _) eqn:Eg.
  { intros [= <-]. apply (gate_same w); cbn [clock global registry providers calls sent]; try done; [lia|].
    intros k [?|?%list_elem_of_singleton]%elem_of_app; [auto|done]. }
  set (k := endpoint_key base key). destruct (registry w !! k) as [l|] eqn:Er; intros [= <-].
  { apply (gate_same w); cbn [clock global registry providers calls sent]; try done; [lia|].
    intros k' [?|?%list_elem_of_singleton]%elem_of_app; [auto|]. simplify_eq. eauto. }
  assert (He : settings_enabled (settings (global w)) = true).
  { destruct (settings_enabled _); [done|]. cbn in Eg. done. }
  assert (Hreg : ∀ k' l', registry w !! k' = Some l' → k' ≠ k) by (intros ? ? ? ->; congruence).
  constructor; cbn [settings global clock registry calls sent providers]; try done.
  - intros k' l' [[<- <-]|[Hne Hk']]%lookup_insert_Some; [|by apply Hlim].
    exists (settings (global w)).
    split; [split; [|done]; rewrite Hfore by done; cbn [limits_from]; subst k; by rewrite (limited_now w base key local Eg)|]. split; [done|].
    apply limiter_new_ok; [by apply modest_in|done|lia| |].
    + intros t [l' Hl']%Hsent. by apply Hreg in Hl'.
    + intros id c [l' Hl']%Hcalls. by apply Hreg in Hl'.
  - intros k' t Hin. apply lookup_insert_is_Some'. right. eauto.
  - intros id c Hin. apply lookup_insert_is_Some'. right. eauto.
  - intros k' [?|?%list_elem_of_singleton]%elem_of_app; apply lookup_insert_is_Some'; [right; auto|].
    simplify_eq. by left.
Qed.

Lemma permit_ok w id w' : gate_ok S M w → fire w (Permit id) = Some w' → gate_ok S M w'.
Proof using HS.
  intros Hw. cbn [fire]. destruct (calls w !! id) as [c|] eqn:Ec; [|done]. cbn [mbind option_bind].
  destruct (registry w !! call_key c) as [l|] eqn:Er; [|done]. cbn [mbind option_bind].
  destruct (phase c) eqn:Ep; try done. destruct (0 <? semaphore l) eqn:E0; [|done]. intros [= <-]. b2p.
  unfold with_limiter, with_calls. cbn [clock global registry providers calls sent].
  apply (gate_update w (call_key c) l); [done..| | | |by left].
  - intros s Hs He Hok. apply (limiter_permits s (modest_in s Hs) He _ _ _ (calls w)); [done|lia|].
    rewrite (calls_in_insert _ _ _ _ c), call_weight_own by done. unfold call_weight. rewrite Ep, andb_false_r. cbn. lia.
  - intros k' Hk'. rewrite (calls_in_insert _ _ _ _ c), !(weight_other _ (call_key c)) by done. lia.
  - intros id' c' [[<- <-]|[_ ?]]%lookup_insert_Some; [by left|by right].
Qed.

Lemma gate_fire_ok w ev evs w' :
  gate_ok S M w → foretold M w (ev :: evs) → configures S ev → fire w ev = Some w' → gate_ok S M w'.
Proof using HS.
  intros Hw Hfore Hev Hf. pose proof Hw as [Hset Hclk Hlim Hsent Hcalls Hprov].
  destruct ev as [s|base key local|id n|id|id|id|id|d].
  - cbn in Hf. simplify_eq. apply (gate_same w); cbn; try done. lia.
  - by eapply build_ok.
  - cbn [fire] in Hf. destruct (calls w !! id) eqn:Ec; [done|].
    destruct (providers w !! n) as [[|k]|] eqn:En; simplify_eq; [done|].
    apply (gate_same w); cbn [clock global registry providers calls sent with_calls]; try done; [lia|..].
    + intros k'. rewrite calls_in_new by done. unfold call_weight. rewrite andb_false_r. lia.
    + intros id' c' [[<- <-]|[_ ?]]%lookup_insert_Some; [|eauto]. cbn. apply Hprov. by eapply list_elem_of_lookup_2.
  - by eapply permit_ok.
  - cbn [fire] in Hf. destruct (calls w !! id) as [c|] eqn:Ec; [|done]. cbn [mbind option_bind] in Hf.
    destruct (phase c) eqn:Ep; try done. case_match; [|done]. by eapply attempt_ok.
  - cbn [fire] in Hf. destruct (calls w !! id) as [c|] eqn:Ec; [|done]. cbn [mbind option_bind] in Hf.
    destruct (phase c); try done. by eapply drop_ok.
  - cbn [fire] in Hf. destruct (calls w !! id) as [c|] eqn:Ec; [|done]. cbn [mbind option_bind] in Hf.
    by eapply drop_ok.
  - cbn [fire] in Hf. destruct (_ && _) eqn:Ed; simplify_eq. b2p.
    apply (gate_same w); cbn; try done. lia.
Qed.

(** Only a provider that is limited makes a limiter, and no step unmakes one. *)
Lemma fire_keeps_limiters w ev w' k :
  fire w ev = Some w' → registry w' !! k = None →
  registry w !! k = None ∧ limits (settings (global w), explicit (global w)) k ev = None ∧
  (settings (global w'), explicit (global w')) = effective_after (settings (global w), explicit (global w)) ev.
Proof.
  intros Hf Hk. destruct ev as [| | | | | | |]; cbn [fire limits effective_after] in *.
  2:{ unfold gate_provider in Hf. destruct (negb _ || _) eqn:Eg; simplify_eq; cbn [registry global] in *.
    - split; [done|]. split; [|done]. unfold settings_enabled in Eg.
      destruct (0 <? max_concurrent _), (0 <? requests_per_minute _), local_endpoint, (explicit _);
        try discriminate Eg; cbn; by rewrite ?andb_false_r.
    - destruct (registry w !! endpoint_key api_base api_key) eqn:Er.
      + split; [done|]. split; [|done]. rewrite bool_decide_false by congruence. done.
      + apply lookup_insert_None in Hk as [? ?]. split; [done|]. by rewrite bool_decide_false. }
  all: unfold attempt_call, drop_call in Hf; repeat (case_match || simplify_option_eq); try done.
  all: cbn [with_calls with_limiter registry global settings explicit apply_global_settings] in *;
    try (apply lookup_insert_None in Hk as [Hk _]); done.
Qed.

Lemma foretold_fire w ev evs w' : foretold M w (ev :: evs) → fire w ev = Some w' → foretold M w' evs.
Proof.
  intros Hfore Hf k Hk. destruct (fire_keeps_limiters w ev w' k Hf Hk) as (H1 & H2 & ->).
  specialize (Hfore k H1). cbn [limits_from] in Hfore. by rewrite H2 in Hfore.
Qed.

Lemma foretold_fires w evs w' : foretold M w evs → fires w evs = Some w' → foretold M w' [].
Proof.
  revert w. induction evs as [|ev evs IH]; intros w Hfore Hf; cbn [fires] in Hf; [by simplify_eq|].
  destruct (fire w ev) as [w1|] eqn:E; [|done]. eapply IH; [by eapply foretold_fire|done].
Qed.

Lemma gate_fires_ok w evs w' :
  gate_ok S M w → foretold M w evs → Forall (configures S) evs → fires w evs = Some w' → gate_ok S M w'.
Proof using HS.
  revert w. induction evs as [|ev evs IH]; intros w Hw Hfore Hevs Hf; cbn [fires] in Hf; [by simplify_eq|].
  apply Forall_cons in Hevs as [? ?].
  destruct (fire w ev) as [w1|] eqn:E; [|done].
  eapply IH; [by eapply gate_fire_ok|by eapply foretold_fire|done..].
Qed.

Lemma boot_gate_ok : default_settings ∈ S → gate_ok S M boot.
Proof using HS.
  intros. constructor; cbn; try done; try (intros *; rewrite lookup_empty; done).
  - intros k t ?%elem_of_nil. done.
  - intros k ?%elem_of_nil. done.
Qed.
End Steps.

Lemma in_force_configures evs : Forall (configures (in_force evs)) evs.
Proof.
  apply Forall_forall. intros [] Hin; cbn; try done. unfold in_force. right.
  apply list_elem_of_omap. eauto.
Qed.

Lemma run_ok evs w :
  Forall modest (in_force evs) → fires boot evs = Some w →
  gate_ok (in_force evs) (λ k, made_with k evs) w ∧ ∀ k, registry w !! k = None → made_with k evs = None.
Proof.
  intros Hm Hf. split.
  - eapply gate_fires_ok; [done|..|apply in_force_configures|done].
    + apply boot_gate_ok; [done|]. by left.
    + intros k _. done.
  - intros k Hk. exact (foretold_fires (λ k, made_with k evs) boot evs w ltac:(by intros ?) Hf k Hk).
Qed.

(** The calls that run in these examples. *)
Module RateDemo.
Definition gw : str := lit "http://gw".
Definition key : EndpointKey := endpoint_key gw (Some (lit " k ")).

(** Ten calls at once under the default settings, each of which tries, then ten
    seconds later the two that wait try again. *)
Definition first_round : list Event :=
  Build gw (Some (lit " k ")) false ::
  concat ((fun i => [Begin i 0; Permit i; Attempt i; Finish i]) <$> seq 0 8) ++
  [Begin 8 0; Permit 8; Begin 9 0; Permit 9].
Definition second_round : list Event := [Attempt 8; Advance 10000000000; Attempt 8; Attempt 9].

Definition tally (w : World) : Z * Z * list Z :=
  (sent_within key 0 (sent w), calls_in in_flight key (calls w), snd <$> sent w).

Example burst_then_wait :
  (tally <$> fires boot first_round, tally <$> fires boot (first_round ++ second_round))
  = (Some (8, 0, replicate 8 0), Some (10, 2, [10000000000; 10000000000] ++ replicate 8 0)).
Proof. vm_compute. reflexivity. Qed.

(** Four calls of an endpoint, of which three get a permit. *)
Definition one_limited : list Event :=
  Build gw (Some (lit " k ")) false ::
  concat ((fun i => [Begin i 0; Permit i; Attempt i]) <$> seq 0 3) ++ [Begin 3 0].

(** At the default rate the ninth call waits a second and a half. *)
Example ninth_waits :
  (w ← fires boot (first_round ++ [Attempt 8]); calls w !! 8%nat)
  = Some (mkCall key (Trying 1500000000)).
Proof. vm_compute. reflexivity. Qed.
End RateDemo.

Lemma default_modest : modest default_settings.
Proof. by split. Qed.

Lemma attempt_taken w id k until l :
  calls w !! id = Some (mkCall k (Trying until)) → until ≤ clock w → registry w !! k = Some l →
  (try_acquire (bucket l) (clock w)).2 = Taken →
  ∃ w', fire w (Attempt id) = Some w' ∧ calls w' !! id = Some (mkCall k InFlight).
Proof.
  intros Hc Hu Hl Hr. cbn [fire]. rewrite Hc. cbn [mbind option_bind phase].
  rewrite (proj2 (Z.leb_le _ _)) by done. unfold attempt_call. cbn [call_key]. rewrite Hl.
  cbn [mbind option_bind]. destruct (try_acquire _ _) as [b r]. cbn in Hr. subst r.
  eexists. split; [done|]. apply lookup_insert_eq.
Qed.

(** C12: whatever calls come, are cancelled or finish, in any interleaving and
    under any configuration changes, an endpoint is held to the settings in
    force when the first provider of it that is limited was built, as read off
    the events (no provider of a local endpoint is limited before anything is
    configured, and none while a setting is zero): it never has more than
    [max_concurrent] requests in flight, and no minute sees more than
    [requests_per_minute + max_concurrent] requests sent to it. An endpoint
    with no such provider sends nothing through the gate. The bucket's arithmetic is
    that of binary64, rounding included; the settings configured are taken to
    allow at most 65536 concurrent requests, and the rate is a [u32]. *)
Theorem requests_admitted evs w k :
  Forall modest (in_force evs) → fires boot evs = Some w →
  match made_with k evs with
  | Some s =>
      calls_in in_flight k (calls w) ≤ max_concurrent s ∧
      ∀ t, sent_within k t (sent w) ≤ requests_per_minute s + max_concurrent s
  | None => (∀ id c, calls w !! id = Some c → call_key c ≠ k) ∧ ∀ t, (k, t) ∉ sent w
  end.
Proof.
  intros Hm Hf. destruct (run_ok evs w Hm Hf) as [[_ _ Hlim Hsent Hcalls _] Hnone].
  destruct (registry w !! k) as [l|] eqn:Er.
  - destruct (Hlim k l Er) as (s & [-> Hs] & _ & [_ _ _ _ Hw Hp]).
    pose proof (in_flight_held k (calls w)). split; [lia|]. intros t. specialize (Hw t). lia.
  - rewrite Hnone by done. split; [intros id c [l Hl]%Hcalls E|intros t [l Hl]%Hsent]; congruence.
Qed.

(** The settings change after the endpoint's provider is built: its limiter does not. *)
Lemma requests_admitted_witness :
  let evs := Configure (mkSettings 3 9) :: RateDemo.one_limited ++ [Configure default_settings] in
  Forall modest (in_force evs) ∧ made_with RateDemo.key evs = Some (mkSettings 3 9) ∧
  ∃ w, fires boot evs = Some w ∧ calls_in in_flight RateDemo.key (calls w) = 3 ∧
    calls_in in_flight RateDemo.key (calls w) ≤ 3 ∧
    ∀ t, sent_within RateDemo.key t (sent w) ≤ 9 + 3.
Proof.
  set (evs := Configure _ :: _). intros evs'.
  assert (Hm : Forall modest (in_force evs)).
  { assert (E : in_force evs = [default_settings; mkSettings 3 9; default_settings]) by (vm_compute; reflexivity).
    rewrite E. repeat apply Forall_cons_2; [..|apply Forall_nil_2]; by split. }
  assert (Em : made_with RateDemo.key evs = Some (mkSettings 3 9)) by (vm_compute; reflexivity).
  split; [exact Hm|]. split; [exact Em|].
  assert (F : (calls_in in_flight RateDemo.key ∘ calls) <$> fires boot evs = Some 3) by (vm_compute; reflexivity).
  destruct (fires boot evs) as [w|] eqn:E; [|discriminate F].
  pose proof (requests_admitted evs w RateDemo.key Hm E) as H. rewrite Em in H.
  exists w. injection F as F. split; [exact E|]. split; [exact F|exact H].
Defined.

(** C13: a call that holds a permit is admitted at its next attempt or told to
    wait at most a minute, and one nanosecond after that wait its attempt
    succeeds unless another call was faster; no attempt panics. *)
Theorem waiting_admitted evs w id k until :
  Forall modest (in_force evs) → fires boot evs = Some w →
  calls w !! id = Some (mkCall k (Trying until)) → until ≤ clock w →
  clock w + minute < last_instant →
  ∃ w1, fire w (Attempt id) = Some w1 ∧
    (calls w1 !! id = Some (mkCall k InFlight) ∨
     ∃ u w2, calls w1 !! id = Some (mkCall k (Trying u)) ∧ clock w ≤ u ≤ clock w + minute ∧
       fires w1 [Advance (u + 1 - clock w); Attempt id] = Some w2 ∧
       calls w2 !! id = Some (mkCall k InFlight)).
Proof.
  intros Hm Hf Hc Hu Hi. assert (0 < minute) by done. destruct (run_ok evs w Hm Hf) as [[_ _ Hlim _ Hcalls _] _].
  destruct (Hcalls _ _ Hc) as [l Hl]. cbn [call_key] in Hl.
  destruct (Hlim k l Hl) as (s & [_ Hs] & He & [Hb Ht _ _ _ _]).
  pose proof (try_acquire_spec s (proj1 (Forall_forall _ _) Hm s Hs) He (bucket l) (clock w) Hb
    ltac:(lia) ltac:(lia)) as HS.
  destruct (try_acquire (bucket l) (clock w)) as [b r] eqn:Et. destruct HS as (_ & _ & _ & _ & HR).
  destruct r as [|d|]; [|destruct HR as [Hd HR]|done].
  { destruct (attempt_taken w id k until l) as (w1 & ? & ?); [done..|by rewrite Et|]. eauto. }
  eexists. split.
  { cbn [fire]. rewrite Hc. cbn [mbind option_bind phase]. rewrite (proj2 (Z.leb_le _ _)) by done.
    unfold attempt_call. cbn [call_key]. rewrite Hl. cbn [mbind option_bind]. by rewrite Et. }
  right. exists (clock w + d). unfold with_calls, with_limiter. cbn [clock global registry providers calls sent].
  set (w1 := mkWorld (clock w + (clock w + d + 1 - clock w)) (global w) (<[k := set_bucket b l]> (registry w))
    (providers w) (<[id := mkCall k (Trying (clock w + d))]> (calls w)) (sent w)).
  destruct (attempt_taken w1 id k (clock w + d) (set_bucket b l)) as (w2 & E2 & C2).
  { apply lookup_insert_eq. }
  { cbn [w1 clock]. lia. }
  { apply lookup_insert_eq. }
  { cbn [w1 clock set_bucket bucket]. apply HR. lia. }
  exists w2. split; [apply lookup_insert_eq|]. split; [lia|]. split; [|done].
  cbn [fires]. match goal with |- context [fire ?x (Advance ?y)] => assert (fire x (Advance y) = Some w1) as -> end.
  { cbn [fire clock]. by rewrite (proj2 (Z.leb_le 0 _)), (proj2 (Z.leb_le _ last_instant)) by lia. }
  cbn [mbind option_bind]. by rewrite E2.
Qed.

Lemma waiting_admitted_witness :
  ∃ w w1, fires boot RateDemo.first_round = Some w ∧ fire w (Attempt 8) = Some w1 ∧
    (calls w1 !! 8%nat = Some (mkCall RateDemo.key InFlight) ∨
     ∃ u w2, calls w1 !! 8%nat = Some (mkCall RateDemo.key (Trying u)) ∧ clock w ≤ u ≤ clock w + minute ∧
       fires w1 [Advance (u + 1 - clock w); Attempt 8] = Some w2 ∧
       calls w2 !! 8%nat = Some (mkCall RateDemo.key InFlight)).
Proof.
  destruct (fires boot RateDemo.first_round) as [w|] eqn:E.
  - exists w.
    assert (F : (w ← fires boot RateDemo.first_round; c ← calls w !! 8%nat; Some (call_key c, phase c, clock w))
      = Some (RateDemo.key, Trying 0, 0)) by (vm_compute; reflexivity).
    rewrite E in F. cbn [mbind option_bind] in F.
    destruct (calls w !! 8%nat) as [[k p]|] eqn:Ec; [|discriminate F]. cbn in F. injection F as -> -> Hclk.
    destruct (waiting_admitted RateDemo.first_round w 8 RateDemo.key 0) as (w1 & H1 & H2);
      [|exact E|exact Ec|rewrite Hclk; reflexivity|rewrite Hclk; vm_compute; reflexivity|].
    + assert (Ef : in_force RateDemo.first_round = [default_settings]) by (vm_compute; reflexivity).
      rewrite Ef. apply Forall_singleton, default_modest.
    + exists w1. split; [reflexivity|]. split; [exact H1|exact H2].
  - exfalso. assert (F : bool_decide (is_Some (fires boot RateDemo.first_round)) = true) by (vm_compute; reflexivity).
    rewrite E in F. discriminate F.
Defined.
