(* ===== verification/FileEdit.v ===== *)
(** * Edits of text

    [crates/tool/src/impl/builtin/file_edit/utils.rs]: finding the text an edit
    names (exactly, with plain quotes, or up to the white space of whole lines),
    carrying its quote style over to the new text, and replacing one match or
    all of them. Positions are those of characters; the source's byte offsets are
    always at line breaks or at matches, which are boundaries of characters. *)

From S2P Require Import Prelude RStr.

Definition LEFT_SINGLE_CURLY_QUOTE : char := 8216%N.
Definition RIGHT_SINGLE_CURLY_QUOTE : char := 8217%N.
Definition LEFT_DOUBLE_CURLY_QUOTE : char := 8220%N.
Definition RIGHT_DOUBLE_CURLY_QUOTE : char := 8221%N.
Definition APOSTROPHE : char := 39%N.
Definition DOUBLE_QUOTE : char := 34%N.
Definition NEWLINE : char := 10%N.

Definition normalize_quote (c : char) : char :=
  if (c =? LEFT_SINGLE_CURLY_QUOTE)%N || (c =? RIGHT_SINGLE_CURLY_QUOTE)%N then APOSTROPHE
  else if (c =? LEFT_DOUBLE_CURLY_QUOTE)%N || (c =? RIGHT_DOUBLE_CURLY_QUOTE)%N then DOUBLE_QUOTE
  else c.
Definition normalize_quotes (s : str) : str := normalize_quote <$> s.

Definition collapse_whitespace (s : str) : str := join (lit " ") (split_whitespace s).

(** [(0..m).all(|j| lines_norm[start + j] == search_norm[j])]. *)
Definition block_matches (lines_norm search_norm : list str) (start : nat) : bool :=
  forallb (fun j => bool_decide (lines_norm !! (start + j)%nat = search_norm !! j))
    (seq 0 (length search_norm)).

(** The loop over the starts: the only match, or none when there is a second. *)
Fixpoint only_match (ok : nat → bool) (starts : list nat) (found : option nat) : option nat :=
  match starts with
  | [] => found
  | start :: rest =>
      if ok start then
        match found with
        | Some _ => None
        | None => only_match ok rest (Some start)
        end
      else only_match ok rest found
  end.

Definition find_whitespace_tolerant_match (content search : str) : option str :=
  if decide (search = []) then None
  else
    let search_norm := collapse_whitespace <$> split_char NEWLINE search in
    let m := length search_norm in
    if forallb (fun l => bool_decide (l = [])) search_norm then None
    else
      let lines := split_char NEWLINE content in
      if (length lines <? m)%nat then None
      else
        let lines_norm := collapse_whitespace <$> lines in
        start ← only_match (block_matches lines_norm search_norm)
                  (seq 0 (length lines - m + 1)) None;
        Some (join [NEWLINE] (take m (drop start lines))).

Definition find_actual_string (content search_string : str) : option str :=
  if contains search_string content then Some search_string
  else
    let normalized := normalize_quotes search_string in
    if contains normalized content then Some normalized
    else find_whitespace_tolerant_match content normalized.

(** The loop over the characters of the new text: a doubled quote becomes one
    closing quote, a single one an opening quote. *)
Fixpoint curl_quotes (single double : bool) (s : str) : str :=
  match s with
  | [] => []
  | c :: rest =>
      if (c =? APOSTROPHE)%N then
        if single then
          match rest with
          | c' :: rest' =>
              if (c' =? APOSTROPHE)%N
              then RIGHT_SINGLE_CURLY_QUOTE :: curl_quotes single double rest'
              else LEFT_SINGLE_CURLY_QUOTE :: curl_quotes single double rest
          | [] => [LEFT_SINGLE_CURLY_QUOTE]
          end
        else c :: curl_quotes single double rest
      else if (c =? DOUBLE_QUOTE)%N then
        if double then
          match rest with
          | c' :: rest' =>
              if (c' =? DOUBLE_QUOTE)%N
              then RIGHT_DOUBLE_CURLY_QUOTE :: curl_quotes single double rest'
              else LEFT_DOUBLE_CURLY_QUOTE :: curl_quotes single double rest
          | [] => [LEFT_DOUBLE_CURLY_QUOTE]
          end
        else c :: curl_quotes single double rest
      else c :: curl_quotes single double rest
  end.

Definition preserve_quote_style (actual_old_string new_string : str) : str :=
  let has_curly_single := contains_char LEFT_SINGLE_CURLY_QUOTE actual_old_string
    || contains_char RIGHT_SINGLE_CURLY_QUOTE actual_old_string in
  let has_curly_double := contains_char LEFT_DOUBLE_CURLY_QUOTE actual_old_string
    || contains_char RIGHT_DOUBLE_CURLY_QUOTE actual_old_string in
  if negb has_curly_single && negb has_curly_double then new_string
  else curl_quotes has_curly_single has_curly_double new_string.

(** [s.replace(p, r)]; the empty pattern matches between all characters. *)
Definition replace_matches (p r s : str) : str :=
  if decide (p = []) then r ++ (s ≫= fun c => c :: r) else replace p r s.

Definition apply_edit_to_file (content old_string new_string : str) (replace_all : bool) :
    option str :=
  if bool_decide (old_string = []) && bool_decide (new_string = []) then Some content
  else if replace_all then
    if contains old_string content then Some (replace_matches old_string new_string content)
    else None
  else
    '(before, rest) ← find old_string content;
    Some (before ++ new_string ++ drop (length old_string) rest).

(** [content.match_indices(p).count()]: matches that do not overlap, from the
    left; the empty pattern matches at every boundary. *)
Fixpoint count_fuel (n : nat) (p s : str) : nat :=
  match n with
  | O => 0%nat
  | S n => match find p s with
           | None => 0%nat
           | Some (_, rest) => S (count_fuel n p (drop (length p) rest))
           end
  end.
Definition count_occurrences (content p : str) : nat :=
  if decide (p = []) then S (length content) else count_fuel (length content) p content.

(** ** The changes shown to the model *)

Inductive ChangeTag := TagDelete | TagInsert | TagEqual.
#[global] Instance change_tag_eq_dec : EqDecision ChangeTag.
Proof. solve_decision. Defined.

Record Hunk := mkHunk {
  old_start : Z; old_lines : Z; new_start : Z; new_lines : Z; hunk_lines : list str
}.

(** The line diff is the library's. *)
Section Patch.
Context (from_lines : str → str → list (ChangeTag * str)).

Definition sign (t : ChangeTag) : str :=
  match t with TagDelete => lit "-" | TagInsert => lit "+" | TagEqual => lit " " end.

Definition line_count (s : str) : Z := Word.u32_wrap (Z.of_nat (length (lines s))).

Definition get_patch_for_edit (old_string new_string : str) : list Hunk :=
  let changes := from_lines old_string new_string in
  if existsb (fun c => bool_decide (c.1 ≠ TagEqual)) changes then
    [mkHunk 1 (line_count old_string) 1 (line_count new_string)
       ((fun c => sign c.1 ++ c.2) <$> changes)]
  else [].
End Patch.

Example tolerant_ex :
  find_actual_string (lit "a
  b   c
d") (lit "b c") = Some (lit "  b   c").
Proof. reflexivity. Qed.

(** ** Lines *)

Lemma split_char_nonempty c s : split_char c s ≠ [].
Proof. destruct s as [|x s]; [done|]. cbn. case_match; [done|]. by case_match. Qed.

Lemma join_split_char c s : join [c] (split_char c s) = s.
Proof.
  induction s as [|x s IH]; [done|]. cbn [split_char]. destruct (N.eqb_spec x c) as [->|].
  - rewrite join_cons by apply split_char_nonempty. by rewrite IH.
  - destruct (split_char c s) as [|l ls] eqn:E; [by apply split_char_nonempty in E|].
    rewrite <-IH. by destruct ls.
Qed.

Lemma split_char_pieces_free c s : Forall (fun l => c ∉ l) (split_char c s).
Proof.
  induction s as [|x s IH]; cbn [split_char]; [repeat constructor; apply not_elem_of_nil|].
  destruct (N.eqb_spec x c) as [->|Hne].
  - constructor; [apply not_elem_of_nil|done].
  - destruct (split_char c s) as [|l ls]; [repeat constructor; set_solver|].
    apply Forall_cons in IH as [Hl Hls]. constructor; [|done].
    apply not_elem_of_cons. split; congruence || done.
Qed.

Lemma join_app sep l l' : l ≠ [] → l' ≠ [] → join sep (l ++ l') = join sep l ++ sep ++ join sep l'.
Proof.
  intros Hl Hl'. induction l as [|x l IH]; [done|]. destruct l as [|y l].
  - cbn [app]. rewrite join_cons by done. done.
  - cbn [app]. rewrite (join_cons sep x (y :: l ++ l')), (join_cons sep x (y :: l)) by done.
    cbn [app] in IH. rewrite IH by done. by rewrite <-!app_assoc.
Qed.

(** Consecutive lines of a text are part of it. *)
Lemma join_block sep a b c : b ≠ [] → occurs (join sep b) (join sep (a ++ b ++ c)).
Proof.
  intros Hb.
  assert (H : ∃ y, join sep (b ++ c) = join sep b ++ y).
  { destruct c as [|x c]; [exists []; by rewrite !app_nil_r|]. eexists. by apply join_app. }
  destruct H as [y Hy]. destruct a as [|x a]; [by exists [], y|].
  exists (join sep (x :: a) ++ sep), y. rewrite join_app, Hy, <-!app_assoc by (by destruct b). done.
Qed.

(** ** Finding the text *)

Lemma block_matches_spec ls ss i :
  (i + length ss ≤ length ls)%nat → block_matches ls ss i = true → take (length ss) (drop i ls) = ss.
Proof.
  intros Hlen H. apply list_eq. intros j. destruct (decide (j < length ss)%nat) as [Hj|Hj].
  - rewrite lookup_take_lt, lookup_drop by done. unfold block_matches in H. rewrite forallb_forall in H.
    specialize (H j). rewrite bool_decide_eq_true in H. apply H. apply in_seq. lia.
  - rewrite lookup_take_ge, (proj2 (lookup_ge_None ss j)) by lia. done.
Qed.

Lemma only_match_ok ok starts i :
  only_match ok starts None = Some i → ok i = true ∧ i ∈ starts.
Proof.
  assert (H : ∀ starts j, only_match ok starts (Some j) = Some i → i = j).
  { induction starts0 as [|k l IH]; intros j; cbn; [congruence|]. destruct (ok k); [done|apply IH]. }
  induction starts as [|k l IH]; cbn; [done|]. destruct (ok k) eqn:E.
  - intros ->%H. set_solver.
  - intros [? ?]%IH. set_solver.
Qed.

Lemma tolerant_spec content search a :
  find_whitespace_tolerant_match content search = Some a →
  occurs a content ∧ a ≠ [] ∧
  collapse_whitespace <$> split_char NEWLINE a = collapse_whitespace <$> split_char NEWLINE search.
Proof.
  unfold find_whitespace_tolerant_match. destruct (decide _); [done|].
  set (ss := collapse_whitespace <$> split_char NEWLINE search).
  destruct (forallb _ ss) eqn:Hb; [done|]. set (ls := split_char NEWLINE content).
  destruct (Nat.ltb_spec (length ls) (length ss)) as [|Hlen]; [done|].
  destruct (only_match _ _ _) as [i|] eqn:Ei; [|done]. cbn [mbind option_bind]. intros [= <-].
  apply only_match_ok in Ei as [Hok Hi%elem_of_seq].
  apply block_matches_spec in Hok; [|rewrite length_fmap; lia].
  set (blk := take (length ss) (drop i ls)).
  assert (Hss : (0 < length ss)%nat).
  { unfold ss. rewrite length_fmap. pose proof (split_char_nonempty NEWLINE search).
    destruct (split_char _ _); [done|cbn; lia]. }
  assert (Hbl : length blk = length ss) by (unfold blk; rewrite length_take, length_drop; lia).
  assert (Hne : blk ≠ []) by (intros E; rewrite E in Hbl; cbn in Hbl; lia).
  assert (Hfree : Forall (fun l => NEWLINE ∉ l) blk)
    by (apply Forall_take, Forall_drop, split_char_pieces_free).
  assert (Hc : collapse_whitespace <$> blk = ss) by (unfold blk; by rewrite fmap_take, fmap_drop).
  split; [|split].
  - rewrite <-(join_split_char NEWLINE content). fold ls.
    rewrite <-(take_drop i ls), <-(take_drop (length ss) (drop i ls)). by apply join_block.
  - intros E. assert (Eb : blk = [[]]).
    { rewrite <-(split_char_join NEWLINE blk), E by done. done. }
    rewrite <-Hc, Eb in Hb. done.
  - by rewrite split_char_join.
Qed.

(** The text an edit stands for: the search itself, or with plain quotes, or the
    same lines up to white space. *)
Definition stands_for (search a : str) : Prop :=
  a = search ∨ a = normalize_quotes search ∨
  collapse_whitespace <$> split_char NEWLINE a
    = collapse_whitespace <$> split_char NEWLINE (normalize_quotes search).

Lemma find_actual_spec content search a :
  search ≠ [] → find_actual_string content search = Some a →
  occurs a content ∧ a ≠ [] ∧ stands_for search a.
Proof.
  intros Hs. unfold find_actual_string, stands_for.
  destruct (contains search content) eqn:E1.
  { intros [= <-]. apply contains_iff in E1. auto. }
  destruct (contains (normalize_quotes search) content) eqn:E2.
  { intros [= <-]. apply contains_iff in E2. split; [done|]. split; [by destruct search|auto]. }
  intros (? & ? & ?)%tolerant_spec. auto.
Qed.

(** ** Replacing *)

(** The text cut at the matches of [p], found from the left. *)
Lemma pieces n p r s :
  p ≠ [] → (length s ≤ n)%nat →
  ∃ parts, parts ≠ [] ∧ s = join p parts ∧ replace_fuel n p r s = join r parts
    ∧ Forall (fun x => ¬ occurs p x) parts ∧ length parts = S (count_fuel n p s)
    ∧ match find p s with
      | Some (b, rest) => ∃ more, parts = b :: more ∧ drop (length p) rest = join p more ∧ more ≠ []
      | None => parts = [s]
      end.
Proof.
  intros Hp. revert s. induction n as [|n IH]; intros s Hn.
  - destruct s; [|cbn in Hn; lia]. exists [[]]. cbn [replace_fuel count_fuel length].
    assert (Hno : ¬ occurs p []) by (intros (a & b & E); destruct a, p; done).
    destruct (find p []) as [[b r0]|] eqn:Ef.
    { exfalso. apply Hno. apply contains_iff. unfold contains. by rewrite Ef. }
    split_and!; try done. by repeat constructor.
  - cbn [replace_fuel count_fuel]. destruct (find p s) as [[b rest]|] eqn:Ef.
    + pose proof (find_before _ _ _ _ Hp Ef) as Hb.
      pose proof Ef as [Es Hr%starts_with_drop]%find_Some.
      destruct (IH (drop (length p) rest)) as (parts & H1 & H2 & H3 & H4 & H5 & _).
      { rewrite Es, length_app, Hr, length_app in Hn. destruct p; [done|]. cbn in *. lia. }
      exists (b :: parts). split; [done|]. rewrite !join_cons by done.
      split; [by rewrite <-H2, Es, Hr at 1|]. split; [by rewrite H3|].
      split; [by constructor|]. split; [cbn; lia|]. eauto.
    + exists [s]. repeat split; try done. constructor; [|done]. by apply find_None.
Qed.

(** An edit that finds its text once, or replaces all matches, cuts the content
    at the matches and joins it with the new text. *)
Lemma apply_edit_spec content old new all :
  old ≠ [] → occurs old content → (all = false → (count_occurrences content old ≤ 1)%nat) →
  ∃ parts, content = join old parts ∧ (2 ≤ length parts)%nat
    ∧ Forall (fun x => ¬ occurs old x) parts ∧ (all = false → length parts = 2%nat)
    ∧ apply_edit_to_file content old new all = Some (join new parts).
Proof.
  intros Ho Hocc Hcnt. unfold count_occurrences in Hcnt. destruct (decide (old = [])); [done|].
  destruct (pieces (length content) old new content Ho) as (parts & H1 & H2 & H3 & H4 & H5 & H6); [done|].
  unfold apply_edit_to_file. rewrite (bool_decide_false (old = [])) by done. cbn [andb].
  apply contains_iff in Hocc. pose proof Hocc as Hc. unfold contains in Hc.
  destruct (find old content) as [[b rest]|] eqn:Ef; [|done].
  destruct H6 as (more & -> & Hd & Hm). exists (b :: more).
  assert (Hl : (2 ≤ length (b :: more))%nat) by (destruct more; [done|cbn; lia]).
  split; [done|]. split; [done|]. split; [done|].
  assert (Hl2 : all = false → length (b :: more) = 2%nat) by (intros ->; specialize (Hcnt eq_refl); lia).
  split; [done|]. destruct all.
  - rewrite Hocc. unfold replace_matches. destruct (decide (old = [])); [done|].
    unfold replace. by rewrite H3.
  - specialize (Hl2 eq_refl). destruct more as [|y [|]]; [done| |cbn in Hl2; lia].
    cbn [mbind option_bind]. rewrite Hd. done.
Qed.


(** ** Quotes *)

Definition not_quote (c : char) : Prop :=
  c ∉ [APOSTROPHE; DOUBLE_QUOTE; LEFT_SINGLE_CURLY_QUOTE; RIGHT_SINGLE_CURLY_QUOTE;
       LEFT_DOUBLE_CURLY_QUOTE; RIGHT_DOUBLE_CURLY_QUOTE].
#[global] Instance not_quote_dec c : Decision (not_quote c).
Proof. unfold not_quote. apply _. Defined.

Lemma quote_dropped c l : ¬ not_quote c → filter not_quote (c :: l) = filter not_quote l.
Proof. apply filter_cons_False. Qed.
Lemma quotes_not_plain :
  ¬ not_quote APOSTROPHE ∧ ¬ not_quote DOUBLE_QUOTE
  ∧ ¬ not_quote LEFT_SINGLE_CURLY_QUOTE ∧ ¬ not_quote RIGHT_SINGLE_CURLY_QUOTE
  ∧ ¬ not_quote LEFT_DOUBLE_CURLY_QUOTE ∧ ¬ not_quote RIGHT_DOUBLE_CURLY_QUOTE.
Proof. unfold not_quote. split_and!; intros H; apply H; set_solver. Qed.

Lemma curl_quotes_keeps single double s :
  filter not_quote (curl_quotes single double s) = filter not_quote s.
Proof.
  destruct quotes_not_plain as (Q1 & Q2 & Q3 & Q4 & Q5 & Q6).
  induction s as [s IH] using (induction_ltof1 _ (@length N)). unfold ltof in IH.
  destruct s as [|c rest]; [done|]. cbn [curl_quotes].
  destruct (N.eqb_spec c APOSTROPHE) as [->|]; [|destruct (N.eqb_spec c DOUBLE_QUOTE) as [->|]].
  - destruct single; [|rewrite !quote_dropped by done; by rewrite IH by (cbn; lia)].
    destruct rest as [|c' rest']; [done|]. destruct (N.eqb_spec c' APOSTROPHE) as [->|];
      rewrite !quote_dropped by done; by rewrite IH by (cbn; lia).
  - destruct double; [|rewrite !quote_dropped by done; by rewrite IH by (cbn; lia)].
    destruct rest as [|c' rest']; [done|]. destruct (N.eqb_spec c' DOUBLE_QUOTE) as [->|];
      rewrite !quote_dropped by done; by rewrite IH by (cbn; lia).
  - rewrite !filter_cons. by rewrite IH by (cbn; lia).
Qed.

(** Only quotes are touched, and none where the old text has no curly ones. *)
Lemma preserve_quote_style_spec a s :
  filter not_quote (preserve_quote_style a s) = filter not_quote s
  ∧ ((∀ c, c ∈ a → c ∉ [LEFT_SINGLE_CURLY_QUOTE; RIGHT_SINGLE_CURLY_QUOTE;
        LEFT_DOUBLE_CURLY_QUOTE; RIGHT_DOUBLE_CURLY_QUOTE]) → preserve_quote_style a s = s).
Proof.
  unfold preserve_quote_style. split.
  - destruct (_ && _); [done|]. apply curl_quotes_keeps.
  - intros H. assert (Hc : ∀ c, c ∈ [LEFT_SINGLE_CURLY_QUOTE; RIGHT_SINGLE_CURLY_QUOTE;
      LEFT_DOUBLE_CURLY_QUOTE; RIGHT_DOUBLE_CURLY_QUOTE] → contains_char c a = false).
    { intros c Hin. apply not_true_is_false. unfold contains_char. rewrite existsb_exists.
      intros (x & Hx & ->%N.eqb_eq). apply (H x); [by apply list_elem_of_In|done]. }
    rewrite !Hc by set_solver. done.
Qed.

(** ** Concrete edits *)

Module EditDemo.
(** The old text holds a curly apostrophe; the new text's empty string literal
    loses a quote and its other literal gets two opening quotes. *)
Definition dont : str := lit "# don" ++ [RIGHT_SINGLE_CURLY_QUOTE] ++ lit "t".
Example quotes_of_code_lost :
  preserve_quote_style dont (lit "x = ''; y = 'a'")
  = lit "x = " ++ [RIGHT_SINGLE_CURLY_QUOTE] ++ lit "; y = " ++ [LEFT_SINGLE_CURLY_QUOTE] ++ lit "a"
    ++ [LEFT_SINGLE_CURLY_QUOTE].
Proof. reflexivity. Qed.

(** Two places match, but they overlap and count as one. *)
Example overlapping_match_counted_once :
  count_occurrences (lit "aaa") (lit "aa") = 1%nat
  ∧ apply_edit_to_file (lit "aaa") (lit "aa") (lit "b") false = Some (lit "ba").
Proof. split; reflexivity. Qed.
End EditDemo.
