(* ===== verification/FileRead.v ===== *)
(** * Reading files: checks and text

    The parts of [crates/tool/src/impl/builtin/file_read] that compute: which
    paths and page ranges are refused, the lines of a text file between an offset
    and a limit, the estimate of their tokens, and the window of a text that is
    too long. *)

From S2P Require Import Prelude RStr F64 HostPath UrlFallback DenialText Utf8 FileEdit.

(** ** Checks of the input *)

Record FileReadInput := mkReadInput {
  read_path : str;
  read_offset : option Z;
  read_limit : option Z;
  read_pages : option str
}.

Definition is_partial_view (i : FileReadInput) : bool :=
  bool_decide (is_Some (read_offset i)) || bool_decide (is_Some (read_limit i)).

Definition DEFAULT_MAX_TOKENS : Z := 25000.
Definition DEFAULT_MAX_SIZE_BYTES : Z := 256 * 1024.
Definition PDF_MAX_PAGES_PER_READ : Z := 100.
Definition IMAGE_EXTENSIONS : list str :=
  lit <$> ["png"; "jpg"; "jpeg"; "gif"; "webp"]%string.
Definition IMAGE_PATH_SUFFIXES : list str :=
  lit <$> [".png"; ".jpg"; ".jpeg"; ".gif"; ".webp"; ".bmp"; ".ico"; ".svg"]%string.
Definition REJECTED_BINARY_EXTENSIONS : list str :=
  lit <$> [".exe"; ".dll"; ".so"; ".bin"; ".dat"; ".pak"; ".asset"; ".unity"; ".wasm"]%string.
Definition TEXT_FILE_EXTENSIONS : list str :=
  lit <$> [".txt"; ".md"; ".json"; ".xml"; ".html"; ".css"; ".js"; ".ts"; ".rs"; ".py"; ".go"; ".java";
    ".c"; ".cpp"; ".h"; ".hpp"; ".yaml"; ".yml"; ".toml"; ".ini"; ".cfg"; ".conf"; ".log"; ".sh";
    ".bash"; ".zsh"; ".fish"; ".ps1"; ".bat"; ".cmd"; ".sql"; ".csv"; ".tsv"]%string.
Definition PDF_EXTENSION : str := lit "pdf".
Definition PDF_PATH_SUFFIX : str := lit ".pdf".
Definition NOTEBOOK_EXTENSION : str := lit "ipynb".
Definition BLOCKED_DEVICE_PATHS : list str :=
  lit <$> ["/dev/zero"; "/dev/random"; "/dev/urandom"; "/dev/full"; "/dev/stdin"; "/dev/stdout";
    "/dev/stderr"; "/dev/tty"; "/dev/console"; "/dev/fd/0"; "/dev/fd/1"; "/dev/fd/2"]%string.

Definition member (s : str) (l : list str) : bool := existsb (fun x => bool_decide (s = x)) l.
Definition eq_ignore_ascii_case (s t : str) : bool :=
  bool_decide (to_ascii_lowercase s = to_ascii_lowercase t).

Definition standard_stream (fd : str) : bool := member fd [lit "0"; lit "1"; lit "2"].

Definition is_blocked_device_path (path : str) : bool :=
  member path BLOCKED_DEVICE_PATHS
  || match RStr.strip_prefix (lit "/proc/self/fd/") path with
     | Some fd => standard_stream fd
     | None => false
     end
  || match RStr.strip_prefix (lit "/proc/") path with
     | Some fd_part =>
         match find (lit "/fd/") fd_part with
         | Some (pid_and_rest, rest) =>
             forallb (fun c => bool_decide (is_Some (digit c))) pid_and_rest
             && standard_stream (drop 4 rest)
         | None => false
         end
     | None => false
     end.

Section Lowercase.
Context `{UnicodeCase}.

(** [path.rfind('.')] and the text from it. *)
Definition from_last_dot (s : str) : option str :=
  match rsplit (lit ".") s with
  | [_] | [] => None
  | last :: _ => Some (lit "." ++ last)
  end.

Definition is_binary_file_extension (path : str) : bool :=
  let path_lower := to_lowercase path in
  existsb (fun ext => ends_with ext path_lower) REJECTED_BINARY_EXTENSIONS
  || match from_last_dot path_lower with
     | Some ext =>
         if bool_decide (ext = PDF_PATH_SUFFIX) || member ext IMAGE_PATH_SUFFIXES then false
         else (1 <? utf8_len ext) && (utf8_len ext <=? 5) && negb (member ext TEXT_FILE_EXTENSIONS)
     | None => false
     end.

Definition parse_u32 (s : str) : option Z :=
  match s with
  | 43%N :: _ :: _ => parse_digits Word.u32_max 0 (drop 1 s)
  | [] | [43%N] => None
  | _ => parse_digits Word.u32_max 0 s
  end.

Definition page_number (err : str) (s : str) : result Z str :=
  match parse_u32 s with Some n => Ok n | None => Err err end.

Definition checked_range (start stop : Z) : result (Z * Z) str :=
  if (start =? 0) || (stop =? 0) then Err (lit "Page numbers must be > 0")
  else if stop <? start then Err (lit "Start page must be <= end page")
  else Ok (start, stop).

Definition single_page (s : str) : result (Z * Z) str :=
  match page_number (lit "Invalid page number") s with
  | Err e => Err e
  | Ok page => if page =? 0 then Err (lit "Page numbers must be > 0") else Ok (page, page)
  end.

Definition parse_pages (pages : str) : result (Z * Z) str :=
  let pages := trim pages in
  let first_range := if contains_char 44 pages then default [] (head (split_char 44 pages)) else pages in
  let range := trim first_range in
  if decide (range = []) then Err (lit "Empty pages range")
  else if contains_char 45 range then
    match split_char 45 range with
    | [a; b] =>
        match page_number (lit "Invalid start page") (trim a) with
        | Err e => Err e
        | Ok start =>
            match page_number (lit "Invalid end page") (trim b) with
            | Err e => Err e
            | Ok stop => checked_range start stop
            end
        end
    | _ => Err (lit "Invalid range format")
    end
  else single_page range.

Definition part_range (part : str) : result (Z * Z) str :=
  if decide (part = []) then Err (lit "Empty pages range")
  else if contains_char 45 part then
    let sides := split_char 45 part in
    match page_number (lit "Invalid start page") (trim (default [] (sides !! 0%nat))) with
    | Err e => Err e
    | Ok start =>
        match page_number (lit "Invalid end page") (trim (default [] (sides !! 1%nat))) with
        | Err e => Err e
        | Ok stop =>
            if bool_decide (is_Some (sides !! 2%nat)) then Err (lit "Invalid range format")
            else checked_range start stop
        end
    end
  else single_page part.

Fixpoint total_loop (parts : list str) (total : Z) : result Z str :=
  match parts with
  | [] => Ok total
  | part :: rest =>
      match part_range (trim part) with
      | Err e => Err e
      | Ok (start, stop) => total_loop rest (Z.min Word.u64_max (total + (stop - start + 1)))
      end
  end.
Definition total_pages (pages : str) : result Z str := total_loop (split_char 44 pages) 0.

(** A refusal: its message and code. *)
Definition validate_pages (pages : str) : option (str * Z) :=
  match parse_pages pages with
  | Err msg => Some (lit "Invalid pages format: " ++ msg, 7)
  | Ok _ =>
      match total_pages pages with
      | Ok n =>
          if PDF_MAX_PAGES_PER_READ <? n then
            Some (lit "Pages range too large: " ++ show n ++ lit " pages requested, maximum is "
                    ++ show PDF_MAX_PAGES_PER_READ, 8)
          else None
      | Err msg => Some (lit "Invalid pages format: " ++ msg, 7)
      end
  end.

Definition validate_read (i : FileReadInput) (resolved_path : str) : option (str * Z) :=
  if is_blocked_device_path resolved_path then
    Some (lit "Device path is blocked: " ++ resolved_path, 9)
  else if is_binary_file_extension resolved_path then
    Some (lit "Binary file rejected: " ++ resolved_path, 4)
  else match read_pages i with
       | Some pages => validate_pages pages
       | None => None
       end.
End Lowercase.

(** ** Text *)

Record TextOutput := mkText {
  text_path : str;
  content : str;
  num_lines : Z;
  start_line : Z;
  total_lines : Z
}.

(** The range of lines: [None] is the panic of a slice whose end is before its
    start, which the wrapping sum can bring about. *)
Definition start_pos (offset : option Z) (n : Z) : Z :=
  Z.min (match offset with Some o => if o =? 0 then 0 else o - 1 | None => 0 end) n.
Definition end_pos (start : Z) (limit : option Z) (n : Z) : Z :=
  match limit with
  | Some l => if 0 <? l then Z.min (Word.add start l) n else n
  | None => n
  end.
Definition slice (start stop : Z) (l : list str) : option (list str) :=
  if start <=? stop then Some (take (Z.to_nat (stop - start)) (drop (Z.to_nat start) l)) else None.

Definition read_text_from_bytes (path : str) (bytes : list byte) (offset limit : option Z) :
    option TextOutput :=
  let all_lines := lines (from_utf8_lossy bytes) in
  let n := Z.of_nat (length all_lines) in
  let start := start_pos offset n in
  selected ← slice start (end_pos start limit n) all_lines;
  Some (mkText path (join [10%N] selected) (Z.of_nat (length selected))
          (if n =? 0 then 1 else start + 1) n).

(** ** Tokens *)

Definition three_and_half : f64 := F64.of_ratio 7 2.
Definition four_and_half : f64 := F64.of_ratio 9 2.
Definition CHARS_PER_TOKEN : list (str * f64) :=
  let t3 := F64.of_usize 3 in let t4 := F64.of_usize 4 in
  [(lit "rs", t3); (lit "go", t3); (lit "c", t3); (lit "cpp", t3); (lit "h", t3); (lit "hpp", t3);
   (lit "cs", three_and_half);
   (lit "py", t4); (lit "js", t4); (lit "ts", t4); (lit "jsx", t4); (lit "tsx", t4); (lit "java", t4);
   (lit "rb", t4); (lit "php", t4); (lit "swift", t4); (lit "kt", t4); (lit "scala", t4);
   (lit "html", t4); (lit "css", t4); (lit "scss", t4); (lit "sass", t4); (lit "less", t4);
   (lit "vue", t4); (lit "svelte", t4);
   (lit "sh", t4); (lit "bash", t4); (lit "zsh", t4); (lit "fish", t4); (lit "ps1", t4);
   (lit "json", F64.of_usize 5); (lit "xml", four_and_half); (lit "yaml", four_and_half);
   (lit "yml", four_and_half); (lit "toml", four_and_half);
   (lit "ini", t4); (lit "cfg", t4); (lit "conf", t4);
   (lit "md", t4); (lit "rst", t4); (lit "tex", t4); (lit "txt", t4);
   (lit "sql", t4); (lit "dockerfile", t4); (lit "dockerignore", t4); (lit "tf", t4); (lit "tfvars", t4);
   (lit "cmake", t4); (lit "makefile", t4);
   (lit "lua", t4); (lit "r", t4); (lit "R", t4); (lit "pl", t4); (lit "pm", t4);
   (lit "hs", three_and_half); (lit "erl", three_and_half); (lit "ex", t4); (lit "exs", t4);
   (lit "fs", t4); (lit "fsx", t4); (lit "ml", three_and_half); (lit "mli", three_and_half)].

Definition chars_per_token_for_extension (extension : str) : f64 :=
  default (F64.of_usize 4)
    (snd <$> List.find (fun e => eq_ignore_ascii_case extension e.1) CHARS_PER_TOKEN).

Definition tokenizer_extension (file_path : str) : option str :=
  match head (rsplit (lit ".") file_path) with
  | Some ext => if contains_char 47 ext || bool_decide (ext = []) then None else Some ext
  | None => None
  end.

Definition estimate_tokens (file_path text : str) : Z :=
  let ratio := match tokenizer_extension file_path with
               | Some ext => chars_per_token_for_extension ext
               | None => F64.of_usize 4
               end in
  F64.to_usize (F64.ceil (F64.div (F64.of_usize (char_count text)) ratio)).

(** ** The window of a text that is too long *)

Definition clamp (x lo hi : Z) : Z := Z.max lo (Z.min x hi).

(** How many of the lines are kept. *)
Definition kept_lines (total_shown max_tokens estimated_tokens : Z) : Z :=
  let fraction :=
    F64.mul (F64.min (F64.div (F64.of_usize max_tokens) (F64.of_usize (Z.max estimated_tokens 1))) F64.one)
      (F64.of_ratio 9 10) in
  clamp (F64.to_usize (F64.mul (F64.of_usize total_shown) fraction)) 1 (Z.max total_shown 1).

Definition truncation_marker (max_tokens start last total next : Z) : str :=
  [10; 10; 8230]%N ++ lit "[file_read truncated to fit the " ++ show max_tokens
  ++ lit "-token budget: showing lines " ++ show start ++ [8211]%N ++ show last ++ lit " of " ++ show total
  ++ lit " total. Re-read with offset=" ++ show next
  ++ lit " (optionally a `limit`) to continue, or use grep to jump to a pattern.]" ++ [8230]%N.

Definition next_offset (o : TextOutput) (keep : Z) : Z := start_line o + keep.

Definition window_keep (o : TextOutput) (max_tokens estimated_tokens : Z) : Z :=
  kept_lines (Z.of_nat (length (lines (content o)))) max_tokens estimated_tokens.
Definition window_head (o : TextOutput) (keep : Z) : str :=
  let ls := lines (content o) in
  join [10%N] (take (Z.to_nat (Z.min keep (Z.of_nat (length ls)))) ls).

Definition window_text_output (o : TextOutput) (max_tokens estimated_tokens : Z) : TextOutput :=
  let keep := window_keep o max_tokens estimated_tokens in
  let last_line := start_line o + (keep - 1) in
  mkText (text_path o)
    (window_head o keep ++ truncation_marker max_tokens (start_line o) last_line (total_lines o) (next_offset o keep))
    keep (start_line o) (total_lines o).

(** ** Paging through a file *)

(** What one read from an offset without a limit shows: the lines, and the offset
    at which the marker says to go on. *)
Record Page := mkPage { page_text : str; page_count : Z; page_next : option Z }.

Definition read_page (path : str) (bytes : list byte) (max_tokens offset : Z) : option Page :=
  o ← read_text_from_bytes path bytes (Some offset) None;
  let estimated := estimate_tokens path (content o) in
  if max_tokens <? estimated then
    let keep := window_keep o max_tokens estimated in
    Some (mkPage (window_head o keep) (num_lines (window_text_output o max_tokens estimated))
            (Some (next_offset o keep)))
  else Some (mkPage (content o) (num_lines o) None).

Definition page_lines (p : Page) : list str :=
  if page_count p =? 0 then [] else split_char 10%N (page_text p).

(** Reading on from where each page says, for at most [n] pages. *)
Fixpoint read_pages_from (n : nat) (path : str) (bytes : list byte) (max_tokens offset : Z) :
    option (list Page) :=
  match n with
  | O => None
  | S n =>
      p ← read_page path bytes max_tokens offset;
      match page_next p with
      | None => Some [p]
      | Some next => rest ← read_pages_from n path bytes max_tokens next; Some (p :: rest)
      end
  end.

Lemma kept_lines_range total m e : 0 ≤ total → 1 ≤ kept_lines total m e ≤ Z.max total 1.
Proof. intros. unfold kept_lines, clamp. lia. Qed.

Lemma lines_of_prefix ls :
  Forall (fun l => strip_cr l = l) ls → lines_of ls `prefix_of` ls.
Proof.
  induction 1 as [|l ls Hl Hls IH]; [done|]. destruct ls as [|l' ls].
  - destruct l; cbn; [apply prefix_nil|done].
  - change (lines_of (l :: l' :: ls)) with (strip_cr l :: lines_of (l' :: ls)).
    rewrite Hl. by apply prefix_cons.
Qed.

Lemma strip_cr_sub l : ∃ x, l = strip_cr l ++ x.
Proof.
  unfold strip_cr. destruct (strip_suffix [13%N] l) as [l'|] eqn:E; [|exists []; by rewrite app_nil_r].
  unfold strip_suffix in E. apply fmap_Some in E as (k & Ek%strip_prefix_Some & ->).
  exists [13%N]. apply (f_equal reverse) in Ek. by rewrite reverse_involutive, reverse_app in Ek.
Qed.

Lemma lines_free s : Forall (fun l => 10%N ∉ l) (lines s).
Proof.
  unfold lines. pose proof (split_char_pieces_free 10 s) as H. induction H as [|l ls Hl Hls IH]; [done|].
  destruct ls as [|l' ls]; [destruct l; by repeat constructor|].
  change (lines_of (l :: l' :: ls)) with (strip_cr l :: lines_of (l' :: ls)). constructor; [|done].
  destruct (strip_cr_sub l) as [x E]. intros Hin. apply Hl. rewrite E. set_solver.
Qed.

Definition is_finite (x : f64) : bool := match x with S754_finite _ _ _ => true | _ => false end.
Lemma ratio_finite ext : is_finite (chars_per_token_for_extension ext) = true.
Proof.
  unfold chars_per_token_for_extension. destruct (List.find _ _) as [[e r]|] eqn:E; [|reflexivity].
  apply find_some in E as [Hin _]. cbn.
  assert (H : forallb (fun p => is_finite p.2) CHARS_PER_TOKEN = true) by (vm_compute; reflexivity).
  rewrite forallb_forall in H. exact (H _ Hin).
Qed.

Lemma estimate_empty path : estimate_tokens path [] = 0.
Proof.
  unfold estimate_tokens.
  assert (H : ∀ r, is_finite r = true → F64.to_usize (F64.ceil (F64.div (F64.of_usize (char_count [])) r)) = 0).
  { intros [] Hr; try done. }
  apply H. destruct (tokenizer_extension path); [apply ratio_finite|done].
Qed.

Section Paging.
Context (path : str) (bytes : list byte) (max_tokens : Z) (Hmax : 0 ≤ max_tokens).
Abbreviation all := (lines (from_utf8_lossy bytes)).
Context (Hcr : Forall (fun l => strip_cr l = l) all).

Lemma read_from_offset k :
  (k ≤ length all)%nat →
  read_text_from_bytes path bytes (Some (Z.of_nat k + 1)) None
  = Some (mkText path (join [10%N] (drop k all)) (Z.of_nat (length (drop k all)))
            (if Z.of_nat (length all) =? 0 then 1 else Z.of_nat k + 1) (Z.of_nat (length all))).
Proof using All.
  intros Hk. unfold read_text_from_bytes.
  assert (Es : start_pos (Some (Z.of_nat k + 1)) (Z.of_nat (length all)) = Z.of_nat k).
  { unfold start_pos. destruct (Z.eqb_spec (Z.of_nat k + 1) 0); lia. }
  rewrite Es. unfold end_pos, slice. rewrite (proj2 (Z.leb_le _ _)) by lia. cbn [mbind option_bind].
  rewrite Nat2Z.id, take_ge; [done|]. rewrite length_drop. lia.
Qed.

Lemma page_from k :
  (k ≤ length all)%nat →
  ∃ p, read_page path bytes max_tokens (Z.of_nat k + 1) = Some p ∧
    match page_next p with
    | None => page_lines p = drop k all
    | Some next => ∃ j, (1 ≤ j ≤ length all - k)%nat ∧ next = Z.of_nat (k + j) + 1
        ∧ page_lines p = take j (drop k all)
    end.
Proof using All.
  intros Hk. unfold read_page. rewrite read_from_offset by done. cbn [mbind option_bind content num_lines].
  set (sel := drop k all).
  assert (Hfree : Forall (fun l => 10%N ∉ l) sel) by (apply Forall_drop, lines_free).
  destruct (Z.ltb_spec max_tokens (estimate_tokens path (join [10%N] sel))) as [Hgt|Hle].
  - eexists. split; [done|]. cbn [page_next].
    unfold window_text_output, window_head, next_offset, window_keep. cbn [content num_lines start_line].
    assert (Hne : join [10%N] sel ≠ []) by (intros E; rewrite E, estimate_empty in Hgt; lia).
    assert (Hsel : sel ≠ []) by (intros E; by rewrite E in Hne).
    assert (Hall : (Z.of_nat (length all) =? 0) = false).
    { apply Z.eqb_neq. intros E. apply Hsel, nil_length_inv. unfold sel. rewrite length_drop. lia. }
    assert (Hls : lines (join [10%N] sel) `prefix_of` sel ∧ lines (join [10%N] sel) ≠ []).
    { unfold lines. rewrite split_char_join by done. split; [by apply lines_of_prefix, Forall_drop|].
      destruct sel as [|[|c l] [|l' sel']]; done. }
    destruct Hls as [[x Hx] Hls]. set (ls := lines (join [10%N] sel)) in *. set (keep := kept_lines _ _ _).
    pose proof (kept_lines_range (Z.of_nat (length ls)) max_tokens
      (estimate_tokens path (join [10%N] sel)) ltac:(lia)) as Hkeep. fold keep in Hkeep.
    assert (Hl0 : (length ls ≠ 0)%nat) by (by intros ?%nil_length_inv).
    assert (Hlen : (length sel = length all - k)%nat) by (unfold sel; by rewrite length_drop).
    assert (Hls2 : (length ls ≤ length sel)%nat) by (rewrite Hx, length_app; lia).
    exists (Z.to_nat keep). split; [lia|]. rewrite Hall. split; [lia|].
    unfold page_lines. cbn [page_count page_text]. rewrite (proj2 (Z.eqb_neq keep 0)) by lia.
    rewrite Z.min_l by lia.
    assert (take (Z.to_nat keep) ls = take (Z.to_nat keep) sel) as ->.
    { rewrite Hx, take_app_le by lia. done. }
    apply split_char_join; [|by apply Forall_take].
    intros E%(f_equal length). rewrite length_take in E. cbn in E. lia.
  - eexists. split; [done|]. cbn [page_next]. unfold page_lines. cbn [page_count page_text].
    destruct sel as [|l sel'] eqn:E; [done|]. rewrite (proj2 (Z.eqb_neq _ 0)) by (cbn; lia).
    by apply split_char_join.
Qed.

Lemma pages_from n k :
  (k ≤ length all)%nat → (length all - k < n)%nat →
  ∃ ps, read_pages_from n path bytes max_tokens (Z.of_nat k + 1) = Some ps
    ∧ concat (page_lines <$> ps) = drop k all.
Proof using All.
  revert k. induction n as [|n IH]; intros k Hk Hn; [lia|]. cbn [read_pages_from].
  destruct (page_from k Hk) as (p & -> & Hp). cbn [mbind option_bind].
  destruct (page_next p) as [next|].
  - destruct Hp as (j & Hj & -> & El). destruct (IH (k + j)%nat) as (ps & -> & Eps); [lia..|].
    eexists. split; [done|]. cbn [fmap list_fmap concat]. rewrite Eps, El.
    by rewrite <-drop_drop, take_drop.
  - eexists. split; [done|]. cbn. by rewrite app_nil_r.
Qed.
End Paging.

(** ** Concrete inputs *)

Module ReadDemo.
#[local] Existing Instance ascii_case.

(** The dot of a directory counts, and [.class] has five characters. *)
Example extension_of_directory :
  is_binary_file_extension (lit "/etc/init.d/ab") = true
  ∧ is_binary_file_extension (lit "/src/Main.class") = false
  ∧ is_binary_file_extension (lit "/src/app.tsx") = true.
Proof. repeat split; vm_compute; reflexivity. Qed.

(** A large limit wraps the end of the range below its start. *)
Example huge_limit_panics :
  read_text_from_bytes (lit "f") (encode (lit "a
b
c")) (Some 2) (Some Word.u64_max) = None.
Proof. vm_compute. reflexivity. Qed.

Example middle_line :
  content <$> read_text_from_bytes (lit "f") (encode (lit "a
b
c")) (Some 2) (Some 1) = Some (lit "b").
Proof. vm_compute. reflexivity. Qed.

Example tokens_of_code : estimate_tokens (lit "/src/a.rs") (lit "12345678") = 3.
Proof. vm_compute. reflexivity. Qed.
End ReadDemo.

(** C11: paging through a text file terminates and leaves nothing out. Starting
    at the first line and going on where each truncated read says to, the lines
    shown are exactly the lines of the file, in order, whatever the token budget;
    no more reads than lines (and one) are needed. The file's lines must not end
    in a further carriage return. *)
Theorem paging_covers_file path bytes max_tokens :
  0 ≤ max_tokens → Forall (fun l => strip_cr l = l) (lines (from_utf8_lossy bytes)) →
  ∃ ps, read_pages_from (S (length (lines (from_utf8_lossy bytes)))) path bytes max_tokens 1 = Some ps
    ∧ concat (page_lines <$> ps) = lines (from_utf8_lossy bytes).
Proof.
  intros Hmax Hcr. destruct (pages_from path bytes max_tokens Hmax Hcr
    (S (length (lines (from_utf8_lossy bytes)))) 0) as (ps & Hps & E); [lia..|].
  exists ps. split; [exact Hps|]. by rewrite E.
Qed.

Lemma paging_covers_file_witness :
  ∃ ps, read_pages_from 5 (lit "a.rs") (encode (lit "one
two

three")) 2 1 = Some ps ∧ (page_next <$> ps) = [Some 2; Some 3; None]
    ∧ concat (page_lines <$> ps) = [lit "one"; lit "two"; []; lit "three"].
Proof.
  destruct (paging_covers_file (lit "a.rs") (encode (lit "one
two

three")) 2) as (ps & H1 & H2); [lia|repeat constructor|].
  exists ps. split; [exact H1|]. split; [|exact H2].
  revert H1. clear. intros H. vm_compute in H. injection H as <-. vm_compute. reflexivity.
Defined.
