(* ===== verification/FileTools.v ===== *)
(** * The file tools

    [file_read], [file_edit] and [file_write] of
    [crates/tool/src/impl/builtin]: programs whose effects are the calls of the
    operation backend, each under its deadline, and the accesses to the record of
    what was read, which [file_read] and [file_edit] share. The answer of a
    backend call is its value or the text of its error (or of the expired
    deadline). The language server and the diff are not part of the program: what
    they fs_answer is a parameter. *)

From S2P Require Import Prelude RStr F64 HostPath UrlFallback DenialText Utf8 Free FileEdit FileRead.

Record PathStat := mkStat { exists_ : bool; size_bytes : option Z; modified_at : option Z }.

Record FileReadState := mkState {
  timestamp : Z;
  state_offset : option Z;
  state_limit : option Z;
  state_partial : bool
}.

(** Milliseconds since the epoch, of nanoseconds; [as i64]. *)
Definition i64_wrap (z : Z) : Z := (z + 2 ^ 63) mod 2 ^ 64 - 2 ^ 63.
Definition system_time_to_timestamp (t : option Z) : Z :=
  match t with
  | Some ns => if 0 <=? ns then i64_wrap (ns / 1000000) else 0
  | None => 0
  end.

Inductive WriteMode := CreateNew | Overwrite | AtomicOverwrite.
Definition preferred_overwrite_mode (supports_atomic_write : bool) : WriteMode :=
  if supports_atomic_write then AtomicOverwrite else Overwrite.

Definition MAX_EDIT_FILE_SIZE : Z := 1024 * 1024 * 1024.

Record FileEditInput := mkEditInput {
  edit_path : str; old_string : str; new_string : str; replace_all : bool
}.
Record FileWriteInput := mkWriteInput { write_path : str; write_content : str }.

(** [dedup_store.is_file_unchanged(...)]. *)
Definition is_file_unchanged (state : option FileReadState) (mtime : Z) (i : FileReadInput) : bool :=
  match state with
  | Some st =>
      (timestamp st =? mtime) && bool_decide (state_offset st = read_offset i)
      && bool_decide (state_limit st = read_limit i) && Bool.eqb (state_partial st) (is_partial_view i)
  | None => false
  end.

(** ** Checks of an edit *)

Definition extension (path : str) : option str :=
  name ← Path.file_name (Path.new path);
  match rsplit (lit ".") name with
  | [_] | [] => None
  | ext :: before => if decide (join (lit ".") (reverse before) = []) then None else Some ext
  end.

Definition is_notebook_file (path : str) : bool :=
  match extension path with Some e => eq_ignore_ascii_case e NOTEBOOK_EXTENSION | None => false end.

Definition validate_old_string_exists (c : str) (i : FileEditInput) : option (str * Z) :=
  match find_actual_string c (old_string i) with
  | Some _ => None
  | None => Some (lit "old_string not found in file: " ++ old_string i, 8)
  end.

Definition validate_ambiguous_match (c : str) (i : FileEditInput) : option (str * Z) :=
  if replace_all i then None
  else match find_actual_string c (old_string i) with
       | None => None
       | Some actual =>
           let occurrences := count_occurrences c actual in
           if (1 <? occurrences)%nat then
             Some (lit "Ambiguous match: old_string appears " ++ show (Z.of_nat occurrences)
                     ++ lit " times but replace_all is false", 9)
           else None
       end.

(** The first refusal. *)
Definition first_refusal (checks : list (option (str * Z))) : option (str * Z) :=
  head (omap id checks).

Definition check_file (i : FileEditInput) (content : option str) (path : str) (stat : PathStat) :
    option (str * Z) :=
  if decide (old_string i = []) then
    if exists_ stat && negb (match content with Some c => bool_decide (c = []) | None => true end) then
      Some (lit "Cannot create file with content when file exists and is not empty: " ++ path, 3)
    else None
  else if negb (exists_ stat) then Some (lit "File not found: " ++ path, 4)
  else match size_bytes stat with
       | Some size =>
           if MAX_EDIT_FILE_SIZE <? size then
             Some (lit "File too large: " ++ show size ++ lit " bytes (max: " ++ show MAX_EDIT_FILE_SIZE
                     ++ lit " bytes)", 10)
           else None
       | None => None
       end.

Definition check_unmodified (i : FileEditInput) (state : option FileReadState) (path : str) (mtime : Z) :
    option (str * Z) :=
  match state with
  | Some st =>
      if negb (bool_decide (old_string i = [])) && negb (timestamp st =? mtime) then
        Some (lit "File modified since read: " ++ path ++ lit " (mtime changed from " ++ show (timestamp st)
                ++ lit " to " ++ show mtime ++ lit ")", 7)
      else None
  | None => None
  end.

Definition check_match (i : FileEditInput) (content : option str) : option (str * Z) :=
  match content with
  | Some c =>
      if decide (old_string i = []) then None
      else first_refusal [validate_old_string_exists c i; validate_ambiguous_match c i]
  | None => None
  end.

Definition validate_input_backend (i : FileEditInput) (content : option str)
    (state : option FileReadState) (path : str) (stat : PathStat) (mtime : Z) : option (str * Z) :=
  first_refusal
    [ if decide (old_string i = new_string i) then
        Some (lit "No change: old_string and new_string are identical", 1) else None;
      if is_notebook_file path then
        Some (lit "Notebook files (.ipynb) cannot be edited: " ++ path, 5) else None;
      check_file i content path stat;
      check_unmodified i state path mtime;
      check_match i content ].

(** ** Programs *)

Section Tools.
(** The extra channel of a call, what a language server reports, what the readers
    of images and PDF files return, the line diff and the JSON library. *)
Context (Extra Diag Other : Type).
Context `{UnicodeCase}.
Context (from_lines : str → str → list (ChangeTag * str)).
Context (notebook_cells : str → result str str).  (* the cells of a notebook, as JSON, or the error *)
Context (backend : bool).  (* whether an operation backend is configured *)
Context (atomic : bool).  (* capabilities().supports_atomic_write *)

Inductive FsCall :=
| Resolve (raw : str)
| Stat (p : str)
| ReadBytes (p : str)
| WriteBytes (p : str) (content : list byte) (mode : WriteMode) (extra : option Extra)
| CreateDirAll (p : str) (extra : option Extra)
| GetState (p : str)
| SetState (p : str) (st : FileReadState)
| Diagnostics (p : str)  (* touches the file, and fetches when asked to *)
| ReadOther (ext p : str) (bytes : list byte) (i : FileReadInput).

Definition fs_answer (c : FsCall) : Type :=
  match c with
  | Resolve _ => result str str
  | Stat _ => result PathStat str
  | ReadBytes _ => result (list byte) str
  | WriteBytes _ _ _ _ => result () str
  | CreateDirAll _ _ => result () str
  | GetState _ => option FileReadState
  | SetState _ _ => ()
  | Diagnostics _ => option Diag
  | ReadOther _ _ _ _ => result Other str
  end.
Abbreviation Prog := (Free fs_answer).

(** What a tool ends with. *)
Inductive ToolEnd (O : Type) :=
| Success (output : O)
| ErrorOutcome (message : str)
| ExecutionFailed (message : str)
| Panicked.
Arguments Success {O} output.
Arguments ErrorOutcome {O} message.
Arguments ExecutionFailed {O} message.
Arguments Panicked {O}.

(** [timed(...).await.map_err(...)?]. *)
Definition or_fail {A O} (what : str) (p : Prog (result A str)) (k : A → Prog (ToolEnd O)) :
    Prog (ToolEnd O) :=
  let& r := p in
  match r with
  | Ok a => k a
  | Err e => Ret (ExecutionFailed (what ++ e))
  end.

Definition refusal {O} (r : str * Z) : ToolEnd O :=
  ErrorOutcome (lit "[error_code=" ++ show r.2 ++ lit "] " ++ r.1).

(** The input, from JSON, and the backend to work on. *)
Definition parsed {I O} (tool : str) (input : result I str) (k : I → Prog (ToolEnd O)) : Prog (ToolEnd O) :=
  match input with
  | Ok i =>
      if backend then k i
      else Ret (ErrorOutcome (tool ++ lit " requires operation backend access, but none is configured"))
  | Err e => Ret (ExecutionFailed (lit "Failed to parse input: " ++ e))
  end.

(** *** file_edit *)

Record FileEditOutput := mkEditOutput {
  edit_output_path : str;
  edit_new_lines : Z;
  edit_patch : list Hunk;
  edit_replace_all : bool;
  edit_diagnostics : option Diag
}.

Definition read_if_exists {O} (what p : str) (stat : PathStat) (k : option str → Prog (ToolEnd O)) :
    Prog (ToolEnd O) :=
  if exists_ stat then
    or_fail what (call (ReadBytes p)) (fun bytes => k (Some (from_utf8_lossy bytes)))
  else k None.

Definition write_text {O} (p : str) (text : str) (extra : option Extra) (k : () → Prog (ToolEnd O)) :
    Prog (ToolEnd O) :=
  or_fail (lit "Failed to write file: ")
    (call (WriteBytes p (encode text) (preferred_overwrite_mode atomic) extra)) k.

(** The part that changes the text of the file. *)
Definition edit_existing (i : FileEditInput) (p : str) (content : option str) (extra : option Extra) :
    Prog (ToolEnd FileEditOutput) :=
  match content with
  | None => Ret (ExecutionFailed (lit "File not found: " ++ p))
  | Some c =>
      match find_actual_string c (old_string i) with
      | None => Ret (ExecutionFailed (lit "old_string not found in file: " ++ old_string i))
      | Some actual =>
          let styled := preserve_quote_style actual (new_string i) in
          match apply_edit_to_file c actual styled (replace_all i) with
          | None => Ret (ExecutionFailed (lit "Failed to apply edit: old_string not found in file"))
          | Some updated =>
              let patch := get_patch_for_edit from_lines actual styled in
              write_text p updated extra (fun _ =>
                let& diag := call (Diagnostics p) in
                Ret (Success (mkEditOutput (edit_path i) (line_count updated) patch (replace_all i) diag)))
          end
      end
  end.

Definition file_edit (input : result FileEditInput str) (extra : option Extra) :
    Prog (ToolEnd FileEditOutput) :=
  parsed (lit "file_edit") input (fun i =>
  or_fail (lit "Failed to resolve path: ") (call (Resolve (trim (edit_path i)))) (fun p =>
  or_fail (lit "Failed to stat file: ") (call (Stat p)) (fun stat =>
  read_if_exists (lit "Failed to read file: ") p stat (fun content =>
  let mtime := system_time_to_timestamp (modified_at stat) in
  let& state := call (GetState p) in
  match validate_input_backend i content state p stat mtime with
  | Some r => Ret (refusal r)
  | None =>
      if decide (old_string i = []) then
        write_text p (new_string i) extra (fun _ =>
          let& diag := call (Diagnostics p) in
          Ret (Success (mkEditOutput (edit_path i) (line_count (new_string i)) [] false diag)))
      else edit_existing i p content extra
  end)))).

(** *** file_write *)

Inductive FileWriteOutput :=
| Created (path : str) (lines : Z) (diag : option Diag)
| Updated (path : str) (lines : Z) (patch : option (list Hunk)) (diag : option Diag).

Definition generate_structured_patch (old new : str) : option (list Hunk) :=
  let changed := filter (fun c : ChangeTag * str => c.1 ≠ TagEqual) (from_lines old new) in
  match changed with
  | [] => None
  | _ =>
      let texts := (fun c => sign c.1 ++ c.2) <$> changed in
      let count c := Word.u32_wrap (Z.of_nat (length (filter (fun t => RStr.starts_with c t = true) texts))) in
      Some [mkHunk 1 (count (lit "-")) 1 (count (lit "+")) texts]
  end.

Definition parent_backend_path (p : str) : option str := Path.display <$> Path.parent (Path.new p).

Definition create_parent {O} (p : str) (content : option str) (extra : option Extra)
    (k : () → Prog (ToolEnd O)) : Prog (ToolEnd O) :=
  match content, parent_backend_path p with
  | None, Some parent =>
      or_fail (lit "Failed to create parent directory: ") (call (CreateDirAll parent extra)) k
  | _, _ => k ()
  end.

Definition file_write (input : result FileWriteInput str) (extra : option Extra) :
    Prog (ToolEnd FileWriteOutput) :=
  parsed (lit "file_write") input (fun i =>
  or_fail (lit "Failed to resolve path: ") (call (Resolve (trim (write_path i)))) (fun p =>
  or_fail (lit "Failed to stat file: ") (call (Stat p)) (fun stat =>
  read_if_exists (lit "Failed to read existing file: ") p stat (fun original =>
  create_parent p original extra (fun _ =>
  write_text p (write_content i) extra (fun _ =>
  let& diag := call (Diagnostics p) in
  let new_lines := line_count (write_content i) in
  Ret (Success match original with
       | Some old => Updated (write_path i) new_lines (generate_structured_patch old (write_content i)) diag
       | None => Created (write_path i) new_lines diag
       end))))))).

(** *** file_read *)

Inductive FileReadOutput :=
| Text (t : TextOutput)
| Notebook (path cells : str)
| OtherFormat (o : Other)
| FileUnchanged (path note : str).

Definition unchanged_note (partial : bool) : str :=
  if partial then
    lit "File is unchanged since your previous identical paged read this session; its content is already in your context above. Pass a different `offset`/`limit` to view other lines, or re-read after the file changes."
  else
    lit "File is unchanged since your previous full read this session; its content is already in your context above. Re-read after the file changes, or use grep to jump to a pattern.".

Definition read_state (i : FileReadInput) (mtime : Z) : FileReadState :=
  mkState mtime (read_offset i) (read_limit i) (is_partial_view i).

Definition too_many_tokens (estimated : Z) : str :=
  lit "File content token count (" ++ show estimated ++ lit ") exceeds maximum (" ++ show DEFAULT_MAX_TOKENS
  ++ lit "). Re-read a smaller slice with a lower `limit` (and `offset` to page).".

Definition process_text (p : str) (bytes : list byte) (i : FileReadInput) (mtime : Z) :
    Prog (ToolEnd FileReadOutput) :=
  match read_text_from_bytes p bytes (read_offset i) (read_limit i) with
  | None => Ret Panicked
  | Some t =>
      let estimated := estimate_tokens p (content t) in
      if DEFAULT_MAX_TOKENS <? estimated then
        match read_limit i with
        | None =>
            do& (SetState p (read_state i mtime));
            Ret (Success (Text (window_text_output t DEFAULT_MAX_TOKENS estimated)))
        | Some _ => Ret (ErrorOutcome (too_many_tokens estimated))
        end
      else do& (SetState p (read_state i mtime)); Ret (Success (Text t))
  end.

Definition is_image_extension (ext : str) : bool :=
  existsb (fun e => eq_ignore_ascii_case e ext) IMAGE_EXTENSIONS.
Definition is_pdf_extension (ext : str) : bool := eq_ignore_ascii_case ext PDF_EXTENSION.
Definition is_notebook_extension (ext : str) : bool := eq_ignore_ascii_case ext NOTEBOOK_EXTENSION.
Definition dedup_applies (ext : str) : bool := negb (is_image_extension ext) && negb (is_pdf_extension ext).

(** [read_notebook_from_bytes] with the limit of the tool. *)
Definition read_notebook_from_bytes (bytes : list byte) (max_size : Z) : result str str :=
  let file_size := Z.of_nat (length bytes) in
  if max_size <? file_size then
    Err (lit "Notebook file too large: " ++ show file_size ++ lit " bytes (max: " ++ show max_size ++ lit " bytes)")
  else match notebook_cells (from_utf8_lossy bytes) with
       | Ok cells => Ok cells
       | Err e => Err (lit "Invalid notebook format: " ++ e)
       end.

Definition process_notebook (p : str) (bytes : list byte) (i : FileReadInput) (mtime : Z) :
    Prog (ToolEnd FileReadOutput) :=
  match read_notebook_from_bytes bytes DEFAULT_MAX_SIZE_BYTES with
  | Err e => Ret (ErrorOutcome e)
  | Ok cells_json =>
      let size := utf8_len cells_json in
      if DEFAULT_MAX_SIZE_BYTES <? size then
        Ret (ErrorOutcome (lit "Notebook content (" ++ show size ++ lit " bytes) exceeds maximum allowed size ("
               ++ show DEFAULT_MAX_SIZE_BYTES ++ lit " bytes)."))
      else
        let estimated := estimate_tokens p cells_json in
        if DEFAULT_MAX_TOKENS <? estimated then
          Ret (ErrorOutcome (lit "Notebook content token count (" ++ show estimated ++ lit ") exceeds maximum ("
                 ++ show DEFAULT_MAX_TOKENS ++ lit ")"))
        else do& (SetState p (read_state i mtime)); Ret (Success (Notebook p cells_json))
  end.

(** Images and PDF files, whose reads are not recorded. *)
Definition process_other (ext p : str) (bytes : list byte) (i : FileReadInput) :
    Prog (ToolEnd FileReadOutput) :=
  let& r := call (ReadOther ext p bytes i) in
  match r with
  | Err e => Ret (ErrorOutcome e)
  | Ok o => Ret (Success (OtherFormat o))
  end.

Definition file_read (input : result FileReadInput str) : Prog (ToolEnd FileReadOutput) :=
  parsed (lit "file_read") input (fun i =>
  or_fail (lit "Failed to resolve path: ") (call (Resolve (trim (read_path i)))) (fun p =>
  match validate_read i p with
  | Some r => Ret (refusal r)
  | None =>
      or_fail (lit "Failed to stat file: ") (call (Stat p)) (fun stat =>
      if negb (exists_ stat) then Ret (ErrorOutcome (lit "File does not exist: " ++ p))
      else
        let ext := default [] (to_lowercase <$> extension p) in
        let mtime := system_time_to_timestamp (modified_at stat) in
        let read_on :=
          or_fail (lit "Failed to read file: ") (call (ReadBytes p)) (fun bytes =>
          if is_notebook_extension ext then process_notebook p bytes i mtime
          else if is_image_extension ext || is_pdf_extension ext then process_other ext p bytes i
          else
            let& r := process_text p bytes i mtime in
            match r with
            | Success (Text t) => let& _ := call (Diagnostics p) in Ret r
            | _ => Ret r
            end) in
        if dedup_applies ext then
          let& state := call (GetState p) in
          if is_file_unchanged state mtime i
          then Ret (Success (FileUnchanged (read_path i) (unchanged_note (is_partial_view i))))
          else read_on
        else read_on)
  end)).
End Tools.
