(* ===== verification/FileRuns.v ===== *)
(** * What the file tools do to the disk

    The programs of [FileTools] run against a disk: files with their contents and
    times of change, and calls that may fail. An edit replaces its text and
    nothing else; over a session, in which others change files too, no edit of a
    file that was read is applied to another content than the one read. *)

From S2P Require Import Prelude RStr F64 HostPath Utf8 Free FileEdit FileRead FileTools.

Arguments Success {O} output.
Arguments ErrorOutcome {O} message.
Arguments ExecutionFailed {O} message.
Arguments Panicked {O}.

(** ** Text and bytes *)



Record Disk := mkDisk {
  files : gmap str (list byte * Z);
  states : gmap str FileReadState;  (* the record of what was read *)
  seen : gmap str (list byte);      (* the content at the time of the record *)
  now : Z
}.

(** ** A write of the local backend *)

(** The temporary file beside [p]; [stamp] is the process id and the time. *)
Fixpoint file_name_string (p : str) : str :=
  match p with
  | [] => []
  | c :: p' => if contains (lit "/") p' then file_name_string p' else if (c =? 47)%N then p' else p
  end.
Definition atomic_write_temp_path (p stamp : str) : str :=
  take (length p - length (file_name_string p)) p
    ++ lit "." ++ file_name_string p ++ lit ".atomic-" ++ stamp ++ lit ".tmp".

(** The files after the write; [cut] is how many bytes were out when it failed,
    if it failed on the way. [Overwrite] truncates the file when it opens it;
    [AtomicOverwrite] fills the temporary file and then moves it. *)
Definition written (mode : WriteMode) (p stamp : str) (b : list byte) (t : Z) (cut : option nat)
    (fs : gmap str (list byte * Z)) : gmap str (list byte * Z) :=
  match mode with
  | CreateNew =>
      match fs !! p with
      | Some _ => fs
      | None => <[p := (match cut with Some n => take n b | None => b end, t)]> fs
      end
  | Overwrite => <[p := (match cut with Some n => take n b | None => b end, t)]> fs
  | AtomicOverwrite =>
      match cut with
      | Some n =>
          let temp := atomic_write_temp_path p stamp in
          match fs !! temp with Some _ => fs | None => <[temp := (take n b, t)]> fs end
      | None => <[p := (b, t)]> fs
      end
  end.

(** A call that fails: its error, and for a write how far it got. A deadline that
    expires is such an error too: the thread that writes is not stopped. *)
Inductive Progress := NotBegun | CutAfter (n : nat) | Finished.
Record Fault := mkFault { fault_text : str; progress : Progress; temp_stamp : str }.

Lemma temp_path_other p stamp : atomic_write_temp_path p stamp ≠ p.
Proof.
  intros E. apply (f_equal length) in E. revert E. unfold atomic_write_temp_path.
  assert (length (file_name_string p) ≤ length p)%nat.
  { induction p as [|c p IH]; [done|]. cbn [file_name_string]. repeat case_match; cbn; lia. }
  rewrite !length_app, length_take. change (length (lit ".")) with 1%nat. lia.
Qed.

Section Runs.
Context {Extra Diag Other : Type} `{UnicodeCase}.
Context (from_lines : str → str → list (ChangeTag * str)) (notebook_cells : str → result str str).
Context (backend atomic : bool).
Context (resolve : str → result str str) (diagnose : str → option Diag).
Context (read_other : str → str → list byte → FileReadInput → result Other str).
Abbreviation Call := (FsCall Extra).
Abbreviation Answer := (fs_answer Extra Diag Other).

Definition stat_of (d : Disk) (p : str) : PathStat :=
  match files d !! p with
  | Some (b, t) => mkStat true (Some (Z.of_nat (length b))) (Some t)
  | None => mkStat false None None
  end.

Definition faulty {A} (fault : option Fault) (r : result A str) : result A str :=
  match fault with Some f => Err (fault_text f) | None => r end.
Definition set_files (d : Disk) (fs : gmap str (list byte * Z)) : Disk :=
  mkDisk fs (states d) (seen d) (now d).

(** One call, which fails when [fault] says so. *)
Definition disk_perform (fault : option Fault) (d : Disk) (c : Call) : Disk * Answer c :=
  match c with
  | Resolve _ raw => (d, faulty fault (resolve raw))
  | Stat _ p => (d, faulty fault (Ok (stat_of d p)))
  | ReadBytes _ p =>
      (d, faulty fault (match files d !! p with
                        | Some (b, _) => Ok b
                        | None => Err (lit "not found")
                        end))
  | WriteBytes _ p b mode _ =>
      match fault with
      | Some f =>
          (match progress f with
           | NotBegun => d
           | CutAfter n => set_files d (written mode p (temp_stamp f) b (now d) (Some n) (files d))
           | Finished => set_files d (written mode p (temp_stamp f) b (now d) None (files d))
           end, Err (fault_text f))
      | None =>
          match mode, files d !! p with
          | CreateNew, Some _ => (d, Err (lit "already exists"))
          | _, _ => (set_files d (written mode p [] b (now d) None (files d)), Ok ())
          end
      end
  | CreateDirAll _ _ _ => (d, faulty fault (Ok ()))
  | GetState _ p => (d, states d !! p)
  | SetState _ p st =>
      (mkDisk (files d) (<[p := st]> (states d))
         (<[p := default [] (fst <$> files d !! p)]> (seen d)) (now d), ())
  | Diagnostics _ p => (d, diagnose p)
  | ReadOther _ ext p b i => (d, read_other ext p b i)
  end.

(** A program with the faults of its calls, in order. *)
Fixpoint run_tool {T} (fs : list (option Fault)) (d : Disk) (p : Free Answer T) : Disk * T :=
  match p with
  | Ret t => (d, t)
  | Next c k =>
      let '(d', a) := disk_perform (default None (head fs)) d c in
      run_tool (tail fs) d' (k a)
  end.

Abbreviation edit := (file_edit Extra Diag Other from_lines backend atomic).
Abbreviation write := (file_write Extra Diag Other from_lines backend atomic).
Abbreviation read := (file_read Extra Diag Other notebook_cells backend).

(** ** Edits *)

(** The text the file is to hold: its text was cut at the matches of the text
    that [old_string] stands for, and joined with the new text; or the new text
    alone, where there is no file, or an empty one. *)
Definition edit_text (d : Disk) (i : FileEditInput) (p : str) (text : str) : Prop :=
  if decide (old_string i = [])
  then (∀ b t, files d !! p = Some (b, t) → from_utf8_lossy b = []) ∧ text = new_string i
  else ∃ bytes t a parts,
    files d !! p = Some (bytes, t) ∧ from_utf8_lossy bytes = RStr.join a parts
    ∧ stands_for (old_string i) a ∧ Forall (fun x => ¬ occurs a x) parts
    ∧ (2 ≤ length parts)%nat ∧ (replace_all i = false → length parts = 2%nat)
    ∧ (∀ st, states d !! p = Some st → timestamp st = system_time_to_timestamp (Some t))
    ∧ text = RStr.join (preserve_quote_style a (new_string i)) parts.

(** What a write of [b] to [p] that failed can have left: everything was written
    after all; or, where the backend overwrites in place, a part of it, possibly
    nothing; or, where it writes atomically, a part of it in a new temporary
    file, and [p] as it was. *)
Definition left_by_failed_write (d : Disk) (p : str) (b : list byte) (fs' : gmap str (list byte * Z)) : Prop :=
  fs' = <[p := (b, now d)]> (files d)
  ∨ (atomic = false ∧ ∃ n, fs' = <[p := (take n b, now d)]> (files d))
  ∨ (atomic = true ∧ ∃ stamp n, let q := atomic_write_temp_path p stamp in
       q ≠ p ∧ files d !! q = None ∧ fs' = <[q := (take n b, now d)]> (files d)).

(** A tool that was to write [text] ended: with the write, or with the failed one. *)
Definition write_ended {O} (d : Disk) (p : str) (text : str) (d' : Disk) (r : ToolEnd O) : Prop :=
  (∃ o, r = Success o) ∧ files d' = <[p := (encode text, now d)]> (files d)
  ∨ (∃ m, r = ExecutionFailed m) ∧ left_by_failed_write d p (encode text) (files d').

(** Only the files may have changed. *)
Definition kept (d d' : Disk) : Prop := states d' = states d ∧ seen d' = seen d ∧ now d' = now d.

Definition edit_result {O} (d : Disk) (i : FileEditInput) (p : str) (d' : Disk) (r : ToolEnd O) : Prop :=
  kept d d'
  ∧ (files d' = files d ∧ (∀ o, r ≠ Success o) ∨ ∃ text, edit_text d i p text ∧ write_ended d p text d' r).

Lemma first_refusal_None l : first_refusal l = None → Forall (eq None) l.
Proof.
  unfold first_refusal. induction l as [|[r|] l IH]; cbn; [done|done|]. intros. constructor; auto.
Qed.

Lemma validated i content state p stat mtime :
  validate_input_backend i content state p stat mtime = None →
  check_file i content p stat = None ∧ check_unmodified i state p mtime = None
  ∧ check_match i content = None.
Proof.
  intros Hv%first_refusal_None. rewrite !Forall_cons in Hv. destruct Hv as (_ & _ & ? & ? & ? & _).
  auto.
Qed.

Lemma failed_write_left d p b f :
  let d' := (disk_perform (Some f) d (WriteBytes Extra p b (preferred_overwrite_mode atomic) None)).1 in
  files d' = files d ∨ left_by_failed_write d p b (files d').
Proof.
  cbn [disk_perform fst]. destruct (progress f) as [|n|]; [by left|..]; unfold left_by_failed_write, preferred_overwrite_mode;
    cbn [set_files files]; destruct atomic; cbn [written]; [|right; by eauto|right; by left..].
  destruct (files d !! _) eqn:E; [by left|]. right. right. right. split; [done|].
  exists (temp_stamp f), n. by repeat split; [apply temp_path_other|].
Qed.

Lemma write_text_result {O} d p text extra fs (k : () → Free Answer (ToolEnd O)) d' r :
  run_tool fs d (write_text Extra Diag Other atomic p text extra k) = (d', r) →
  (kept d d' ∧ (∃ m, r = ExecutionFailed m)
     ∧ (files d' = files d ∨ left_by_failed_write d p (encode text) (files d')))
  ∨ ∃ fs', run_tool fs' (set_files d (<[p := (encode text, now d)]> (files d))) (k ()) = (d', r).
Proof.
  unfold write_text, or_fail, call. cbn [bind run_tool].
  destruct (default None (head fs)) as [f|] eqn:Ef.
  - pose proof (failed_write_left d p (encode text) f) as HL. revert HL. cbn [disk_perform fst].
    intros HL. cbn [run_tool]. intros [= <- <-]. left. split; [|split; [by eauto|exact HL]].
    by destruct (progress f).
  - cbn [disk_perform]. unfold preferred_overwrite_mode. intros E. right. exists (tail fs). by destruct atomic.
Qed.

Lemma edit_nothing {O} d i p (r : ToolEnd O) : (∀ o, r ≠ Success o) → edit_result d i p d r.
Proof. intros. split; [done|]. by left. Qed.

(** The write of the right text, with what follows it. *)
Lemma write_text_ended {O} d p text extra fs (out : option Diag → O) d' r :
  run_tool fs d (write_text Extra Diag Other atomic p text extra (fun _ =>
    let& diag := call (Diagnostics Extra p) in Ret (Success (out diag)))) = (d', r) →
  kept d d' ∧ (files d' = files d ∧ (∀ o, r ≠ Success o) ∨ write_ended d p text d' r).
Proof.
  intros [(Hk & [m ->] & [Hf|Hf])|[fs' Hrun]]%write_text_result.
  - split; [done|]. by left.
  - split; [done|]. right. right. by eauto.
  - unfold call in Hrun. cbn in Hrun. injection Hrun as <- <-. split; [done|]. right. left. by eauto.
Qed.

Lemma edit_existing_result d i p bytes t extra fs d' r :
  old_string i ≠ [] → files d !! p = Some (bytes, t) →
  check_unmodified i (states d !! p) p (system_time_to_timestamp (Some t)) = None →
  check_match i (Some (from_utf8_lossy bytes)) = None →
  run_tool fs d (edit_existing Extra Diag Other from_lines atomic i p (Some (from_utf8_lossy bytes)) extra) = (d', r) →
  edit_result d i p d' r.
Proof.
  intros Hold Hf Hu Hm. unfold edit_existing. set (c := from_utf8_lossy bytes) in *.
  unfold check_match in Hm. destruct (decide (old_string i = [])); [done|].
  apply first_refusal_None in Hm. rewrite !Forall_cons in Hm. destruct Hm as (_ & Ha & _).
  unfold validate_ambiguous_match in Ha.
  destruct (find_actual_string c (old_string i)) as [a|] eqn:Ea; [|intros [= <- <-]; by apply edit_nothing].
  destruct (find_actual_spec _ _ _ Hold Ea) as (Hocc & Hne & Hst).
  set (styled := preserve_quote_style a (new_string i)).
  destruct (apply_edit_spec c a styled (replace_all i)) as (parts & E1 & E2 & E3 & E4 & E5); [done..| |].
  { intros Hr. rewrite Hr in Ha. destruct (Nat.ltb_spec 1 (count_occurrences c a)); [done|lia]. }
  rewrite E5. intros [Hk [Hn|Hw]]%write_text_ended; (split; [done|]); [by left|right].
  eexists. split; [|exact Hw]. unfold edit_text. rewrite decide_False by done.
  exists bytes, t, a, parts. split_and!; try done.
  intros st Hs. rewrite Hs in Hu. unfold check_unmodified in Hu.
  rewrite bool_decide_false in Hu by done. cbn [negb andb] in Hu.
  destruct (Z.eqb_spec (timestamp st) (system_time_to_timestamp (Some t))); done.
Qed.

Lemma run_resolve {O} raw what fs d (k : str → Free Answer (ToolEnd O)) d' r :
  run_tool fs d (or_fail Extra Diag Other what (call (Resolve Extra raw)) k) = (d', r) →
  (d' = d ∧ ∃ m, r = ExecutionFailed m)
  ∨ ∃ p fs', resolve raw = Ok p ∧ run_tool fs' d (k p) = (d', r).
Proof.
  unfold or_fail, call. cbn [bind run_tool disk_perform]. unfold faulty. destruct (default None (head fs)) as [e|].
  { cbn [run_tool]. intros [= <- <-]. left. eauto. }
  destruct (resolve raw) as [p|e] eqn:E; [intros; right; eauto|]. cbn [run_tool]. intros [= <- <-]. left. eauto.
Qed.

Lemma run_stat {O} p what fs d (k : PathStat → Free Answer (ToolEnd O)) d' r :
  run_tool fs d (or_fail Extra Diag Other what (call (Stat Extra p)) k) = (d', r) →
  (d' = d ∧ ∃ m, r = ExecutionFailed m) ∨ ∃ fs', run_tool fs' d (k (stat_of d p)) = (d', r).
Proof.
  unfold or_fail, call. cbn [bind run_tool disk_perform]. unfold faulty. destruct (default None (head fs)) as [e|].
  - cbn [run_tool]. intros [= <- <-]. left. eauto.
  - intros; right; eauto.
Qed.

Lemma run_read {O} p what fs d (k : list byte → Free Answer (ToolEnd O)) d' r :
  run_tool fs d (or_fail Extra Diag Other what (call (ReadBytes Extra p)) k) = (d', r) →
  (d' = d ∧ ∃ m, r = ExecutionFailed m)
  ∨ ∃ fs' b t, files d !! p = Some (b, t) ∧ run_tool fs' d (k b) = (d', r).
Proof.
  unfold or_fail, call. cbn [bind run_tool disk_perform]. unfold faulty. destruct (default None (head fs)) as [e|].
  { cbn [run_tool]. intros [= <- <-]. left. eauto. }
  destruct (files d !! p) as [[b t]|] eqn:E; [intros; right; eauto 6|]. cbn [run_tool]. intros [= <- <-]. left. eauto.
Qed.

(** What the file holds, when it exists. *)
Definition file_text (d : Disk) (p : str) : option str :=
  (fun f : list byte * Z => from_utf8_lossy f.1) <$> files d !! p.

Lemma run_read_if {O} p what fs d (k : option str → Free Answer (ToolEnd O)) d' r :
  run_tool fs d (read_if_exists Extra Diag Other what p (stat_of d p) k) = (d', r) →
  (d' = d ∧ ∃ m, r = ExecutionFailed m) ∨ ∃ fs', run_tool fs' d (k (file_text d p)) = (d', r).
Proof.
  unfold read_if_exists, stat_of, file_text. destruct (files d !! p) as [[b t]|] eqn:E; cbn [exists_].
  - intros [?|(fs' & b' & t' & E' & Hr)]%run_read; [by left|]. simplify_eq. right. cbn. eauto.
  - intros. right. eauto.
Qed.

Lemma edit_spec d fs i extra d' r :
  run_tool fs d (edit (Ok i) extra) = (d', r) →
  (d' = d ∧ ∀ o, r ≠ Success o) ∨ ∃ p, resolve (trim (edit_path i)) = Ok p ∧ edit_result d i p d' r.
Proof.
  unfold file_edit, parsed. destruct backend; [|intros [= <- <-]; by left].
  intros [[-> [m ->]]|(p & fs1 & Hp & Hr)]%run_resolve; [by left|].
  apply run_stat in Hr as [[-> [m ->]]|[fs2 Hr]]; [by left|].
  apply run_read_if in Hr as [[-> [m ->]]|[fs3 Hr]]; [by left|].
  unfold call in Hr. cbn [bind run_tool disk_perform] in Hr.
  destruct (validate_input_backend _ _ _ _ _ _) as [x|] eqn:Hv.
  { cbn [run_tool] in Hr. injection Hr as <- <-. by left. }
  apply validated in Hv as (Hc & Hu & Hm). right. exists p. split; [done|].
  unfold stat_of, file_text in *. destruct (decide (old_string i = [])) as [Hold|Hold].
  - apply write_text_ended in Hr as [Hk [Hn|Hw]]; (split; [done|]); [by left|right].
    exists (new_string i). split; [|exact Hw]. unfold edit_text. rewrite decide_True by done.
    split; [|done]. intros b t Hb. unfold check_file in Hc. rewrite Hb in Hc.
    destruct (decide (old_string i = [])); [|done].
    destruct (decide (from_utf8_lossy b = [])) as [|Hne]; [done|].
    cbn [exists_ fmap option_fmap option_map fst] in Hc. by rewrite bool_decide_false in Hc.
  - destruct (files d !! p) as [[b t]|] eqn:Hb; [|unfold check_file in Hc; destruct (decide _); done].
    by eapply edit_existing_result.
Qed.

(** ** Writes and reads *)

Lemma write_spec d fs i extra d' r :
  run_tool fs d (write (Ok i) extra) = (d', r) →
  kept d d' ∧ (files d' = files d ∧ (∀ o, r ≠ Success o)
    ∨ ∃ p, resolve (trim (write_path i)) = Ok p ∧ write_ended d p (write_content i) d' r).
Proof.
  unfold file_write, parsed. destruct backend; [|intros [= <- <-]; split; [done|by left]].
  intros [[-> [m ->]]|(p & fs1 & Hp & Hr)]%run_resolve; [split; [done|by left]|].
  apply run_stat in Hr as [[-> [m ->]]|[fs2 Hr]]; [split; [done|by left]|].
  apply run_read_if in Hr as [[-> [m ->]]|[fs3 Hr]]; [split; [done|by left]|].
  assert (Hw : (d' = d ∧ ∃ m, r = ExecutionFailed m) ∨ ∃ fs' k, run_tool fs' d
      (write_text Extra Diag Other atomic p (write_content i) extra (fun _ =>
        let& diag := call (Diagnostics Extra p) in Ret (Success (k diag)))) = (d', r)).
  { unfold create_parent in Hr. destruct (file_text d p) as [old|], (parent_backend_path p).
    3: unfold or_fail, call in Hr; cbn [bind run_tool disk_perform] in Hr;
      destruct (default None (head fs3)); cbn [faulty run_tool] in Hr; [injection Hr as <- <-; left; by eauto|].
    all: right; eexists _, (fun diag => _); exact Hr. }
  destruct Hw as [[-> [m ->]]|(fs' & k & Hw)]; [split; [done|by left]|].
  apply write_text_ended in Hw as [Hk [Hn|Hw]]; (split; [done|]); [by left|right]. eauto.
Qed.

(** A read leaves the files alone; it records what it saw or leaves the record
    alone, and says that a file is unchanged only if the record says so. *)
Definition read_result (d : Disk) (i : FileReadInput) (p : str) (d' : Disk)
    (r : ToolEnd (FileReadOutput Other)) : Prop :=
  files d' = files d ∧ now d' = now d
  ∧ (states d' = states d ∧ seen d' = seen d
     ∨ ∃ b t, files d !! p = Some (b, t)
         ∧ states d' = <[p := read_state i (system_time_to_timestamp (Some t))]> (states d)
         ∧ seen d' = <[p := b]> (seen d))
  ∧ ∀ path note, r = Success (FileUnchanged Other path note) →
      ∃ b t, files d !! p = Some (b, t)
        ∧ is_file_unchanged (states d !! p) (system_time_to_timestamp (Some t)) i = true.

Lemma read_nothing d i p r : (∀ path note, r ≠ Success (FileUnchanged Other path note)) →
  read_result d i p d r.
Proof. intros Hr. split; [done|]. split; [done|]. split; [by left|]. intros path note E. by apply Hr in E. Qed.

Lemma process_text_result d i p b t fs d' r :
  files d !! p = Some (b, t) →
  run_tool fs d (process_text Extra Diag Other p b i (system_time_to_timestamp (Some t))) = (d', r) →
  read_result d i p d' r ∧ match r with Success (FileUnchanged _ _ _) => False | _ => True end.
Proof.
  intros Hf. unfold process_text.
  destruct (read_text_from_bytes _ _ _ _) as [o|]; [|intros [= <- <-]; split; [by apply read_nothing|done]].
  assert (HS : ∀ r0, match r0 with Success (FileUnchanged _ _ _) => False | _ => True end →
    run_tool fs d (Next (SetState Extra p (read_state i (system_time_to_timestamp (Some t)))) (fun _ => Ret r0))
      = (d', r) →
    read_result d i p d' r ∧ match r with Success (FileUnchanged _ _ _) => False | _ => True end).
  { intros r0 H0 [= <- <-]. split; [|done]. repeat split.
    - right. exists b, t. cbn [states seen]. by rewrite Hf.
    - intros path note ->. done. }
  destruct (_ <? _); [destruct (read_limit i); [intros [= <- <-]; split; [by apply read_nothing|done]|]|];
    by apply HS.
Qed.

Lemma process_notebook_result d i p b t fs d' r :
  files d !! p = Some (b, t) →
  run_tool fs d (process_notebook Extra Diag Other notebook_cells p b i (system_time_to_timestamp (Some t))) = (d', r) →
  read_result d i p d' r.
Proof.
  intros Hf. unfold process_notebook.
  destruct (read_notebook_from_bytes _ _ _) as [cells|e]; [|intros [= <- <-]; by apply read_nothing].
  destruct (_ <? _); [intros [= <- <-]; by apply read_nothing|].
  destruct (_ <? _); [intros [= <- <-]; by apply read_nothing|].
  cbn [run_tool disk_perform]. intros [= <- <-].
  repeat split; [|done]. right. exists b, t. cbn [states seen]. by rewrite Hf.
Qed.

Lemma process_other_result d ext i p b fs d' r :
  run_tool fs d (process_other Extra Diag Other ext p b i) = (d', r) → read_result d i p d' r.
Proof.
  unfold process_other, call. cbn [bind run_tool disk_perform].
  destruct (read_other ext p b i) as [o|e]; cbn [run_tool]; intros [= <- <-]; by apply read_nothing.
Qed.

Lemma run_tool_bind {A B} fs d (p : Free Answer A) (k : A → Free Answer B) :
  ∃ fs', run_tool fs d (bind p k) = let '(d1, a) := run_tool fs d p in run_tool fs' d1 (k a).
Proof.
  revert fs d. induction p as [a|c q IH]; intros fs d; cbn [bind run_tool]; [by exists fs|].
  destruct (disk_perform _ d c) as [d1 a]. apply IH.
Qed.

Lemma read_bytes_result d ext i p b t fs d' r :
  files d !! p = Some (b, t) →
  run_tool fs d (if is_notebook_extension ext
            then process_notebook Extra Diag Other notebook_cells p b i (system_time_to_timestamp (Some t))
            else if is_image_extension ext || is_pdf_extension ext
            then process_other Extra Diag Other ext p b i
            else let& r := process_text Extra Diag Other p b i (system_time_to_timestamp (Some t)) in
                 match r with
                 | Success (Text _ _) => let& _ := call (Diagnostics Extra p) in Ret r
                 | _ => Ret r
                 end) = (d', r) →
  read_result d i p d' r.
Proof.
  intros Hf. destruct (is_notebook_extension ext); [by apply process_notebook_result|].
  destruct (_ || _); [by apply process_other_result|].
  destruct (run_tool_bind fs d (process_text Extra Diag Other p b i (system_time_to_timestamp (Some t)))
    (fun r => match r with Success (Text _ _) => let& _ := call (Diagnostics Extra p) in Ret r | _ => Ret r end))
    as [fs' ->].
  destruct (run_tool fs d _) as [d1 r1] eqn:E. apply process_text_result in E as [E _]; [|done].
  destruct r1 as [[]| | |]; unfold call; cbn [bind run_tool disk_perform]; by intros [= <- <-].
Qed.

Lemma read_spec d fs i d' r :
  run_tool fs d (read (Ok i)) = (d', r) →
  (d' = d ∧ ∀ path note, r ≠ Success (FileUnchanged Other path note))
  ∨ ∃ p, resolve (trim (read_path i)) = Ok p ∧ read_result d i p d' r.
Proof.
  unfold file_read, parsed. destruct backend; [|intros [= <- <-]; by left].
  intros [[-> [m ->]]|(p & fs1 & Hp & Hr)]%run_resolve; [by left|].
  destruct (validate_read i p) as [x|]; [cbn [run_tool] in Hr; injection Hr as <- <-; by left|].
  apply run_stat in Hr as [[-> [m ->]]|[fs2 Hr]]; [by left|].
  unfold stat_of in Hr. destruct (files d !! p) as [[b t]|] eqn:Hf; cbn [exists_ negb modified_at] in Hr;
    [|cbn [run_tool] in Hr; injection Hr as <- <-; by left].
  set (ext := default [] (to_lowercase <$> extension p)) in *.
  match type of Hr with context [or_fail _ _ _ ?w ?c ?k] => set (on := or_fail Extra Diag Other w c k) in Hr end.
  assert (Hon : ∀ fs, run_tool fs d on = (d', r) →
    (d' = d ∧ ∀ path note, r ≠ Success (FileUnchanged Other path note)) ∨ read_result d i p d' r).
  { intros fs3 [[-> [m ->]]|(fs4 & b' & t' & Hf' & Hr')]%run_read; [by left|].
    simplify_eq. right. by eapply read_bytes_result. }
  assert (Hd : (d' = d ∧ ∀ path note, r ≠ Success (FileUnchanged Other path note)) ∨ read_result d i p d' r).
  { destruct (dedup_applies ext); [|by eapply Hon].
    unfold call in Hr. cbn [bind run_tool disk_perform] in Hr.
    destruct (is_file_unchanged _ _ _) eqn:Eu; [|by eapply Hon].
    cbn [run_tool] in Hr. injection Hr as <- <-. right. repeat split; [by left|]. eauto. }
  destruct Hd as [?|?]; [by left|right; eauto].
Qed.

(** ** Sessions *)

Inductive ToolCall :=
| CallRead (input : result FileReadInput str)
| CallEdit (input : result FileEditInput str) (extra : option Extra)
| CallWrite (input : result FileWriteInput str) (extra : option Extra).

Definition tool_disk (d : Disk) (fs : list (option Fault)) (c : ToolCall) : Disk :=
  match c with
  | CallRead i => (run_tool fs d (read i)).1
  | CallEdit i e => (run_tool fs d (edit i e)).1
  | CallWrite i e => (run_tool fs d (write i e)).1
  end.

(** A tool call, or someone else's change of a file ([None] removes it). *)
Inductive SessionEvent :=
| Tool (c : ToolCall) (faults : list (option Fault))
| Outside (p : str) (content : option (list byte)).

Definition ms (ns : Z) : Z := ns / 1000000.
Definition end_of_time : Z := 2 ^ 63 * 1000000.

(** Between events at least a millisecond passes, the grain of the record. *)
Definition session_step (d : Disk) (ev : Z * SessionEvent) : option Disk :=
  let d1 := mkDisk (files d) (states d) (seen d) (now d + ev.1) in
  if (1000000 <=? ev.1) && (now d + ev.1 <? end_of_time) then
    Some match ev.2 with
         | Tool c fs => tool_disk d1 fs c
         | Outside p (Some b) => mkDisk (<[p := (b, now d1)]> (files d1)) (states d1) (seen d1) (now d1)
         | Outside p None => mkDisk (delete p (files d1)) (states d1) (seen d1) (now d1)
         end
  else None.

Fixpoint session (d : Disk) (evs : list (Z * SessionEvent)) : option Disk :=
  match evs with
  | [] => Some d
  | ev :: evs => d' ← session_step d ev; session d' evs
  end.

(** The disk at the beginning: nothing has been read, and no file is from the
    future. *)
Definition fresh_disk (fs : gmap str (list byte * Z)) (t0 : Z) : Disk := mkDisk fs ∅ ∅ t0.

Record disk_ok (d : Disk) : Prop := {
  ok_now : 0 ≤ now d < end_of_time;
  ok_files : ∀ p b t, files d !! p = Some (b, t) → 0 ≤ t ≤ now d;
  ok_states : ∀ p st, states d !! p = Some st → ∃ b0, seen d !! p = Some b0
    ∧ timestamp st ≤ ms (now d)
    ∧ ∀ b t, files d !! p = Some (b, t) → timestamp st = ms t → b = b0
}.

Lemma timestamp_ms t : 0 ≤ t < end_of_time → system_time_to_timestamp (Some t) = ms t.
Proof.
  intros Ht. unfold system_time_to_timestamp, i64_wrap, ms. rewrite (proj2 (Z.leb_le 0 t)) by lia.
  assert (0 ≤ t / 1000000 < 2 ^ 63).
  { split; [apply Z.div_pos; lia|]. apply Z.div_lt_upper_bound; [lia|]. unfold end_of_time in Ht. lia. }
  rewrite Z.mod_small by lia. lia.
Qed.

Lemma ms_later t t' : t + 1000000 ≤ t' → ms t < ms t'.
Proof.
  intros H'. unfold ms. assert (t / 1000000 + 1 ≤ t' / 1000000); [|lia].
  rewrite <-Z.div_add by lia. apply Z.div_le_mono; lia.
Qed.

(** Every record is older than now. *)
Definition records_old (d : Disk) : Prop :=
  ∀ p st, states d !! p = Some st → timestamp st < ms (now d).

Lemma advance_ok d dt :
  disk_ok d → 1000000 ≤ dt → now d + dt < end_of_time →
  let d1 := mkDisk (files d) (states d) (seen d) (now d + dt) in disk_ok d1 ∧ records_old d1.
Proof.
  intros [Hn Hf Hs] Hdt Hend d1. assert (Hms : ms (now d) < ms (now d + dt)) by (apply ms_later; lia).
  assert (Ho : records_old d1).
  { intros p st Hst. destruct (Hs p st Hst) as (_ & _ & Ht & _). cbn [now d1]. lia. }
  split; [|done]. constructor; cbn [d1 now files states seen].
  - lia.
  - intros p b t Hp. apply Hf in Hp. lia.
  - intros p st Hst. destruct (Hs p st Hst) as (b0 & ? & ? & ?). exists b0. split; [done|]. split; [lia|done].
Qed.

Lemma changed_ok d d' p x :
  disk_ok d → records_old d → states d' = states d → seen d' = seen d → now d' = now d →
  files d' = <[p := (x, now d)]> (files d) → disk_ok d'.
Proof.
  intros [Hn Hf Hs] Ho Es Ese En Ef. constructor; rewrite ?Es, ?Ese, ?En, ?Ef; [done| |].
  - intros p' b t [[<- [= <- <-]]|[_ Hp]]%lookup_insert_Some; [lia|by eapply Hf].
  - intros p' st Hst. destruct (Hs p' st Hst) as (b0 & ? & ? & Hb). exists b0. split; [done|]. split; [done|].
    intros b t [[<- [= <- <-]]|[_ Hp]]%lookup_insert_Some Ht; [|by eapply Hb].
    apply Ho in Hst. lia.
Qed.

Lemma unchanged_ok d d' :
  disk_ok d → states d' = states d → seen d' = seen d → now d' = now d → files d' = files d → disk_ok d'.
Proof. destruct d, d'. cbn. intros ? -> -> -> ->. done. Qed.

Lemma ended_ok {O} d p text d' (r : ToolEnd O) :
  disk_ok d → records_old d → kept d d' → write_ended d p text d' r → disk_ok d'.
Proof.
  intros Hd Ho (Es & Ese & En) [[_ HF]|[_ [HF|[(_ & n & HF)|(_ & stamp & n & _ & _ & HF)]]]]; by eapply changed_ok.
Qed.

Lemma edit_ok d fs i e : disk_ok d → records_old d → disk_ok (tool_disk d fs (CallEdit i e)).
Proof.
  intros Hd Ho. cbn [tool_disk]. destruct i as [i|m]; [|done].
  destruct (run_tool fs d (edit (Ok i) e)) as [d' r] eqn:E. cbn [fst].
  apply edit_spec in E as [[-> _]|(p & _ & Hk & [[HF _]|(text & _ & HR)])]; [done| |by eapply ended_ok].
  destruct Hk as (Es & Ese & En). by eapply unchanged_ok.
Qed.

Lemma write_ok d fs i e : disk_ok d → records_old d → disk_ok (tool_disk d fs (CallWrite i e)).
Proof.
  intros Hd Ho. cbn [tool_disk]. destruct i as [i|m]; [|done].
  destruct (run_tool fs d (write (Ok i) e)) as [d' r] eqn:E. cbn [fst].
  apply write_spec in E as [Hk [[HF _]|(p & _ & HR)]]; [|by eapply ended_ok].
  destruct Hk as (Es & Ese & En). by eapply unchanged_ok.
Qed.

Lemma read_ok d fs i : disk_ok d → disk_ok (tool_disk d fs (CallRead i)).
Proof.
  intros Hd. cbn [tool_disk]. destruct i as [i|m]; [|done].
  destruct (run_tool fs d (read (Ok i))) as [d' r] eqn:E. cbn [fst].
  apply read_spec in E as [[-> _]|(p & _ & Ef & En & HS & _)]; [done|].
  destruct HS as [[Es Ese]|(b & t & Hp & Es & Ese)]; [by eapply unchanged_ok|].
  destruct Hd as [Hn Hf Hs]. pose proof (Hf p b t Hp) as Ht.
  assert (Et : system_time_to_timestamp (Some t) = ms t) by (apply timestamp_ms; lia).
  constructor; rewrite ?Es, ?Ese, ?En, ?Ef; [done|done|].
  intros p' st [[<- <-]|[Hne Hst]]%lookup_insert_Some.
  - exists b. rewrite lookup_insert_eq. cbn [timestamp read_state]. rewrite Et. split; [done|]. split.
    + unfold ms. apply Z.div_le_mono; lia.
    + intros b' t' Hp' _. by simplify_eq.
  - rewrite lookup_insert_ne by done. by apply Hs.
Qed.

Lemma session_step_ok d ev d' : disk_ok d → session_step d ev = Some d' → disk_ok d'.
Proof.
  intros Hd. unfold session_step. destruct (_ && _) eqn:E; [|done]. intros [= <-]. b2p.
  destruct (advance_ok d ev.1 Hd) as [HD HO]; [lia..|].
  destruct (ev.2) as [[i|i e|i e] fs|p [b|]].
  - by apply read_ok.
  - by apply edit_ok.
  - by apply write_ok.
  - by eapply changed_ok.
  - destruct HD as [Hn Hf Hs]. constructor; cbn [now files states seen] in *; [done| |].
    + intros p' b t [_ ?]%lookup_delete_Some. by eapply Hf.
    + intros p' st Hst. destruct (Hs p' st Hst) as (b0 & ? & ? & Hb). exists b0. split; [done|]. split; [done|].
      intros b t [_ ?]%lookup_delete_Some. by apply Hb.
Qed.

Lemma session_ok d evs d' : disk_ok d → session d evs = Some d' → disk_ok d'.
Proof.
  revert d. induction evs as [|ev evs IH]; intros d Hd; cbn [session]; [by intros [= <-]|].
  destruct (session_step d ev) as [d1|] eqn:E; [|done]. apply IH. by eapply session_step_ok.
Qed.

Lemma fresh_disk_ok fs t0 :
  0 ≤ t0 < end_of_time → (∀ p b t, fs !! p = Some (b, t) → 0 ≤ t ≤ t0) → disk_ok (fresh_disk fs t0).
Proof. intros Ht Hf. constructor; [done|done|]. intros p st. cbn. by rewrite lookup_empty. Qed.


(** C10: nothing is edited, or called unchanged, on the strength of an outdated
    read. In any session of tool calls, with failing calls, and of changes by
    others, at least a millisecond apart: a successful edit of a file that was
    read is applied to the very content that the last recorded read saw; and when
    [file_read] answers that the file is unchanged, the file holds the content of
    a read with the same offset and limit. *)
Theorem reads_stay_fresh fs0 t0 evs d :
  0 ≤ t0 < end_of_time → (∀ p b t, fs0 !! p = Some (b, t) → 0 ≤ t ≤ t0) →
  session (fresh_disk fs0 t0) evs = Some d →
  (∀ fs i extra d' o p st, run_tool fs d (edit (Ok i) extra) = (d', Success o) → old_string i ≠ [] →
     resolve (trim (edit_path i)) = Ok p → states d !! p = Some st →
     ∃ b t, files d !! p = Some (b, t) ∧ seen d !! p = Some b)
  ∧ (∀ fs i d' path note, run_tool fs d (read (Ok i)) = (d', Success (FileUnchanged Other path note)) →
     ∃ p b t st, resolve (trim (read_path i)) = Ok p ∧ files d !! p = Some (b, t)
       ∧ seen d !! p = Some b ∧ states d !! p = Some st
       ∧ state_offset st = read_offset i ∧ state_limit st = read_limit i).
Proof.
  intros Ht Hf0 Hrun. pose proof (session_ok _ _ _ (fresh_disk_ok fs0 t0 Ht Hf0) Hrun) as [Hn Hf Hs].
  split.
  - intros fs i extra d' o p st HE Hold Hp Hst.
    apply edit_spec in HE as [[_ HE]|(p' & Hp' & _ & [[_ HE]|(text & HR & _)])]; [by destruct (HE o)..|].
    rewrite Hp in Hp'. injection Hp' as <-. unfold edit_text in HR. rewrite decide_False in HR by done. destruct HR as (b & t & _ & _ & Hb & _ & _ & _ & _ & _ & Hts & _).
    exists b, t. split; [done|]. destruct (Hs p st Hst) as (b0 & Hb0 & _ & Heq).
    rewrite (Heq b t Hb); [done|]. rewrite (Hts st Hst). apply timestamp_ms. apply Hf in Hb. lia.
  - intros fs i d' path note HR.
    apply read_spec in HR as [[_ HR]|(p & Hp & _ & _ & _ & HR)]; [by destruct (HR path note)|].
    destruct (HR _ _ eq_refl) as (b & t & Hb & Hu). unfold is_file_unchanged in Hu.
    destruct (states d !! p) as [st|] eqn:Hst; [|done].
    rewrite !andb_true_iff, Z.eqb_eq, !bool_decide_eq_true in Hu. destruct Hu as [[[Hts Ho] Hl] _].
    destruct (Hs p st Hst) as (b0 & Hb0 & _ & Heq). exists p, b, t, st. split_and!; try done.
    rewrite (Heq b t Hb); [done|]. rewrite Hts. apply timestamp_ms. apply Hf in Hb. lia.
Qed.
End Runs.

(** ** Concrete sessions *)

Module FileDemo.
#[local] Existing Instance ascii_case.
Definition diff (a b : str) : list (ChangeTag * str) := [(TagDelete, a); (TagInsert, b)].
Definition no_reader (ext p : str) (b : list byte) (i : FileReadInput) : result () str := Err (lit "no reader").
Definition no_notebook (s : str) : result str str := Err (lit "no notebook").
Definition f : str := lit "/w/f.rs".
Definition text : str := lit "let a = 1;
let b =  2;
".
Definition demo_disk (b : list byte) : Disk := fresh_disk {[ f := (b, 5000000) ]} 7000000.

Definition run_edit (d : Disk) (old new : str) (all : bool) : Disk * ToolEnd (FileEditOutput ()) :=
  run_tool Ok (fun _ => None) no_reader [] d
    (file_edit () () () diff true true (Ok (mkEditInput f old new all)) None).
Definition run_read (d : Disk) : Disk * ToolEnd (FileReadOutput ()) :=
  run_tool Ok (fun _ => None) no_reader [] d
    (file_read () () () no_notebook true (Ok (mkReadInput f None None None))).
Definition reading : ToolCall := CallRead (Extra := ()) (Ok (mkReadInput f None None None)).
Definition editing (old new : str) : ToolCall := CallEdit (Extra := ()) (Ok (mkEditInput f old new false)) None.
Definition demo_session (d : Disk) (evs : list (Z * SessionEvent (Extra := ()))) : option Disk :=
  session (Diag := ()) diff no_notebook true true Ok (fun _ => None) no_reader d evs.

Definition bytes_of (d : Disk) : option (list byte) := fst <$> files d !! f.
Definition code {O} (r : ToolEnd O) : option str :=
  match r with ErrorOutcome m => Some (take 14 m) | _ => None end.

(** The white space of the line need not be right. *)
Example tolerant_edit :
  bytes_of (run_edit (demo_disk (encode text)) (lit "let b = 2;") (lit "let b = 3;") false).1
  = Some (encode (lit "let a = 1;
let b = 3;
")).
Proof. vm_compute. reflexivity. Qed.

(** The tool's own edit makes the record outdated: the next edit is refused as if
    someone else had changed the file. *)
Example second_edit_refused :
  (d ← demo_session (demo_disk (encode text)) [(1000000, Tool reading []); (1000000, Tool (editing (lit "a = 1") (lit "a = 2")) []);
     (1000000, Outside (lit "/w/other") None)];
   Some (bytes_of d, code (run_edit d (lit "a = 2") (lit "a = 3") false).2))
  = Some (Some (encode (lit "let a = 2;
let b =  2;
")), Some (lit "[error_code=7]")).
Proof. vm_compute. reflexivity. Qed.

(** A byte that is not UTF-8, far from the edit, is replaced by three others. *)
Example foreign_byte_replaced :
  bytes_of (run_edit (demo_disk ([233%N] ++ encode text)) (lit "a = 1") (lit "a = 2") false).1
  = Some ([239; 191; 189]%N ++ encode (lit "let a = 2;
let b =  2;
")).
Proof. vm_compute. reflexivity. Qed.

(** Without [replace_all] several matches are refused, none is replaced. *)
Example several_matches_refused :
  code (run_edit (demo_disk (encode text)) (lit "let") (lit "const") false).2 = Some (lit "[error_code=9]").
Proof. vm_compute. reflexivity. Qed.

(** A read that showed a window is recorded as a full read. *)
Definition long_text : str := concat (replicate 400 (replicate 200 97%N ++ [10%N])).
Definition answer_kind (r : ToolEnd (FileReadOutput ())) : option (Z * Z) :=
  match r with Success (Text _ t) => Some (num_lines t, total_lines t) | _ => None end.
Definition says_unchanged (r : ToolEnd (FileReadOutput ())) : bool :=
  match r with Success (FileUnchanged _ _ note) => bool_decide (note = unchanged_note false) | _ => false end.
Example window_recorded_as_full :
  let first := run_read (demo_disk (encode long_text)) in
  (answer_kind first.2, says_unchanged (run_read first.1).2) = (Some (335, 400), true).
Proof. vm_compute. reflexivity. Qed.

Definition the_edit : FileEditInput := mkEditInput f (lit "a = 1") (lit "a = 2") false.

(** The edit with the write failing half way. *)
Definition broken_edit (atomic : bool) : Disk * ToolEnd (FileEditOutput ()) :=
  run_tool Ok (fun _ => None) no_reader
    [None; None; None; None; Some (mkFault (lit "no space left") (CutAfter 9) (lit "71-1700"))]
    (demo_disk (encode text))
    (file_edit () () () diff true atomic (Ok the_edit) None).

(** In place the file is cut; atomically it stays, and the temporary file is left behind. *)
Example broken_edit_truncates : bytes_of (broken_edit false).1 = Some (encode (lit "let a = 2")).
Proof. vm_compute. reflexivity. Qed.
Example temp_file_left_behind :
  (bytes_of (broken_edit true).1, fst <$> files (broken_edit true).1 !! lit "/w/.f.rs.atomic-71-1700.tmp")
  = (Some (encode text), Some (encode (lit "let a = 2"))).
Proof. vm_compute. reflexivity. Qed.


Definition before_edit : list (Z * SessionEvent (Extra := ())) :=
  [(1000000, Tool reading []); (1000000, Outside f (Some (encode (lit "a = 1")))); (1000000, Tool reading [])].

Lemma reads_stay_fresh_witness :
  ∃ d, demo_session (demo_disk (encode text)) before_edit = Some d ∧ seen d !! f = Some (encode (lit "a = 1"))
    ∧ ∃ b t, files d !! f = Some (b, t) ∧ seen d !! f = Some b.
Proof.
  destruct (demo_session (demo_disk (encode text)) before_edit) as [d|] eqn:E.
  - exists d. split; [reflexivity|].
    assert (F : (d ← demo_session (demo_disk (encode text)) before_edit;
       Some (seen d !! f, bool_decide (is_Some (states d !! f)),
         match (run_edit d (lit "a = 1") (lit "a = 2") false).2 with Success _ => true | _ => false end))
      = Some (Some (encode (lit "a = 1")), true, true)) by (vm_compute; reflexivity).
    rewrite E in F. cbn [mbind option_bind] in F. injection F as Hs Hst Hr.
    split; [exact Hs|]. apply bool_decide_eq_true in Hst as [st Hst].
    destruct (run_edit d (lit "a = 1") (lit "a = 2") false) as [d' r] eqn:Ee. destruct r as [o|m|m|]; try discriminate Hr.
    unfold demo_session, demo_disk in E.
    assert (Ht : 0 ≤ 7000000 < end_of_time) by (split; [discriminate|reflexivity]).
    assert (Hf : ∀ p b t, ({[ f := (encode text, 5000000) ]} : gmap str (list byte * Z)) !! p = Some (b, t) →
      0 ≤ t ≤ 7000000) by (intros p b t [_ [= _ <-]]%lookup_singleton_Some; split; discriminate).
    destruct (reads_stay_fresh (Extra := ()) (Diag := ()) diff no_notebook true true Ok (fun _ => None) no_reader _ _ _ d Ht Hf E)
      as [He _].
    apply (He [] the_edit None d' o f st Ee); [discriminate|reflexivity|exact Hst].
  - exfalso. assert (F : bool_decide (is_Some (demo_session (demo_disk (encode text)) before_edit)) = true) by (vm_compute; reflexivity).
    rewrite E in F. discriminate F.
Defined.
End FileDemo.
